(* ===== verification/_CoqProject ===== *)
-Q . S2P
Prelude.v
AvlTree.v
AvlModel.v
AvlRefine.v
AvlProps.v
Hashtable.v
HashtableProofs.v
HashtableProps.v
Heap.v
HeapProofs.v
DList.v
HeapProps.v
Bytes.v
Serialize.v
Protocol.v
Common.v
NumberProps.v
NetIO.v
NetIOProofs.v
Client.v
ClientProofs.v
WireProps.v
Repl.v
SortedSet.v
ZOrder.v
SortedSetProofs.v
ZSetProps.v
Commands.v
Overruns.v
KeySpace.v
EntryOps.v
CommandSpec.v
KeyBounds.v
CommandProofs.v
ZCommands.v
ZQuery.v
CommandProps.v
EntryDel.v
ConnProofs.v
Server.v
Timers.v
CommandsAppend.v
KeyService.v
ConnTable.v
NetProps.v
ServerProofs.v
ServerProps.v
History.v
EndToEnd.v
Delivery.v
ThreadPool.v
Setup.v
Main.v
Tests.v
