(* ===== verification/Prelude.v ===== *)
(** * A verification of the Redis clone

    The program is a key-value server in C++ (src/src/server.cpp) and its
    client (src/src/client.cpp).  One thread polls its sockets; a connection
    collects bytes until a request frame is complete, the request is run on the
    key space, and the response is framed and written back.  Keys hold a string
    or a sorted set and may expire; idle connections are closed; large sorted
    sets are to be freed by a pool of threads.

    ** The parts and where they are modelled

    Memory is explicit: objects are named by pointers and live in finite maps, an
    operation is a function of the state monad [M] of this file, whose outcome is
    [Done], a failed assertion, undefined behaviour, or the end of the fuel of a
    loop.  Machine integers are [Z] with their conversions.

    - [Prelude] (this file): pointers, integers, the monad, [wp] (the run ends
      in [Done] and a postcondition), [safely] (or on a failed assertion),
      [ends] (or on a failed assertion that a proposition explains), [keeps] (what
      an operation leaves alone), stores, [zoom] (an operation on a part of a
      state), generic lemmas.
    - [AvlTree]: storage/avl_tree.{h,cpp}, every function, over nodes with
      parent, left and right pointers.  [AvlModel] has the functional trees
      ([tree], their balance, [repr] of a tree in a store), [AvlRefine] the
      proofs that rotations, rebalancing, deletion and the walk by rank refine
      operations on them, [AvlProps] the theorems.
    - [Hashtable]: storage/hashtable.{h,cpp}, the two tables, the chains and the
      progressive migration.  [HashtableProofs], [HashtableProps].
    - [Heap]: storage/heap.{h,cpp}, the array heap of expiration times with the
      positions its owners keep.  [HeapProofs], [HeapProps].
    - [DList]: storage/list.h, the ring of the idle connections, with its proofs.
    - [Bytes]: core/buffer_io.h.  [Serialize]: net/serialize.{h,cpp}, with the
      values that are sent ([wvalue]).  [Protocol]: net/protocol.{h,cpp}.
      [Common]: core/common.h, the hash and the parsing of numbers (strtoll and
      strtod of the C library included; a double is its 64 bits); [NumberProps].
    - [NetIO]: net/netio.{h,cpp}, one connection: framing, reading, writing, the
      readiness flags; the commands are the parameter [Handler] (a class with
      the one law [HandlerAppends]).  A connection has a field [written] that the
      struct has not: the bytes that write took from it, which only handle_write
      adds to.  [NetIOProofs], [NetProps].
    - [Client]: the encoder of requests and the printer of responses of
      client.cpp, where a read outside of the buffer is undefined ([read_n]);
      [ClientProofs], [WireProps].  [Repl]: the prompt of its main.
    - [SortedSet]: storage/sorted_set.cpp up to the commands, a tree by (score,
      name) and a hash map by name.  [ZOrder] (the order), [SortedSetProofs],
      [ZSetProps].
    - [Commands]: storage/commands.{h,cpp} and the z-commands of sorted_set.cpp,
      on the state [ServerData] (hash map, entries, heap, members).
      [KeySpace] says what key space a state implements ([models]); [EntryOps]
      has the operations on one entry; [CommandSpec] is the specification of the
      commands on a finite map ([executes]), [Overruns] the writes past a block
      (below), [KeyBounds] the bounds on the key
      spaces and the replies; [CommandProofs], [ZCommands] and [ZQuery] prove
      each command, [CommandProps] the refinement.  [CommandsAppend] proves the
      law of [HandlerAppends], [KeyService] that the commands are an instance
      of [Service], the class of what the connections rely on.
    - [Server]: the loop of server.cpp, the timers of core/sys_server.cpp and
      handle_destroy of netio.cpp, on the state [Server] (the store, the
      connections, the table fd2conn, the idle ring, the readings of the clock).
      [ConnProofs] (a connection over any [Service]), [ConnTable] (the table and
      the idle list), [Timers] (expiration), [ServerProofs] (the invariant, the
      loop), [ServerProps].  [History]: the sequential history of a whole run.
    - [EntryDel]: entry_del and the job of a worker of the pool, together.
    - [ThreadPool]: core/thread_pool.{h,cpp}, the workers and the caller as
      interleaved threads.  [Setup]: the system calls at the start of both
      programs and core/sys.cpp.
    - [EndToEnd]: client and server together.  [Delivery]: the output of a
      connection over many turns.
    - [Main]: both main functions.  The server boots (pool, [Setup]), then each
      turn of its loop calls poll, accept and the handlers, while the workers
      make steps; the client sets up, prompts and closes.
    - [Tests]: the repository's own tests (tests/), run on the model.

    ** What the theorems show

    - The commands refine their specification: from a state that implements a
      key space, each request that does not exceed the limit below is answered as
      [executes] allows, and the new state implements the new key space; on the
      limit the server aborts, and never otherwise; a request writes past a block
      exactly when it adds a member; the replies are typed.
    - The event loop is safe for ever, whatever the clients and the kernel do, but
      for these writes: the reachable states have the invariant [server_inv], and a
      turn of the loop ends, in a reachable state, on a failed assertion or by
      SIGPIPE.  A turn refines the
      specification: it answers the requests that it completes and expires
      keys, closes a connection exactly when the peer or the kernel ends it or
      it was idle too long, and stops only at the limit below or when the peer of a
      connection it writes to is gone.  For any run there is one sequential history
      that explains the key space and, for every connection, its input, its output
      and the bytes that the kernel took from it ([server_history]).  After a turn nothing is
      overdue; process_timers closes exactly the idle connections and deletes
      exactly the expired keys; next_timer_ms finds the next deadline.
    - The server from its main: whatever the kernel and the workers do, the state
      of the loop is one of the above, every connection is non-blocking, and the
      pool is idle ([server_process_safe]).  The client from its main ends and
      closes its socket, unless its peer is gone or sends an empty frame or a string
      of a length that wraps around ([client_program_ends]).
    - Output is delivered: as long as the kernel takes bytes, it takes all of the
      output of a connection in finitely many turns, in order, and the connection
      reads again.
    - A session of the client at its prompt with the server, among other
      clients, prints the replies to the commands that were typed.
    - A connection answers each frame once and in order, however the stream is
      cut; requests and responses survive the wire; the printer ends, and reads
      past a response only when the length of a string wraps around.
    - The tree, the hash map, the heap, the ring and the sorted set implement a
      balanced search tree with ranks, a finite map, a priority queue with
      positions, a list, and a finite map with an order.
    - The thread pool runs each job once, in order, and leaves none behind;
      the deferred deletion of a large set frees what the immediate one frees.

    ** The limit of 31 entries

    hm_trigger_rehash asks for a table of (size + 1) * 2 slots, which is not a
    power of two, and h_init asserts that it is: the 32nd insertion into any hash
    map stops the server ([hm_insert_32_aborts]).  So a key space that is reached
    has at most 31 keys and each set 31 members, the maps never migrate, and
    the thread pool is never given a job by entry_del.  The lemmas on the hash map,
    the sorted set and the pool do not assume this.

    ** Writes past a block

    znode_new allocates sizeof(ZNode) + len bytes and writes the terminator of the
    name at the byte after them.  The model has this write: [write_at] records the
    offset of a write outside of its block in the field [overruns] of the members
    ([ZHeap]), and goes on as if no object had that byte, since what the write
    does to the memory depends on the allocator.  So the theorems on the store, the
    loop and the server hold under that reading, and say which of these writes a run
    makes: [run_request_refines] and [zset_insert_correct] exactly,
    [event_loop_safe] and [server_process_safe] up to the ZADD requests that a turn
    receives.  A pointer to no object and an index out of range are [Undefined].

    ** SIGPIPE

    The programs do not handle SIGPIPE, so a write to a socket that the peer has
    closed ends the process.  The answer EPIPE of the kernel ([WrPipe], and
    [- EPIPE] for the client) is the outcome [AssertFail].

    ** Fuel

    Loops over linked objects have as fuel the size of the store, which bounds
    the length of a chain without repetition ([nodup_size]); loops over bytes
    have the length of what they consume; ttl_timers has k_max_works of the
    source.  The theorems state total correctness, so the fuel is enough.

    ** What is not modelled

    Messages to stderr; memory exhaustion (new and malloc succeed, and return a
    fresh address); the exhaustion of the stack (print_response, tree_dispose and the
    other recursive functions have as much as they need; print_response recurses
    once for each nested container, which a hostile server can send by the million);
    what a write past a block does to the memory; the kernel and the clock, which
    are parameters or inputs of the steps ([clock] is any monotone sequence
    of readings, [accept] returns no descriptor that is open); the pthread
    calls are modelled by their specification. *)
From stdpp Require Export prelude gmap numbers sorting list.

#[global] Open Scope Z_scope.

(** * Pointers

    An object of the program is named by a [ptr]; a C++ pointer is an
    [option ptr] whose [None] is the null pointer.  A pointer to an intrusive
    member ([ZNode::tree], [Entry::node]) is named by its enclosing object, so
    [container_of] is the identity. *)
Abbreviation ptr := positive (only parsing).

(** * Machine integers

    A w-bit integer is a [Z]; the operations that can wrap are followed by the
    conversion of the C++ type. *)
Definition u32 (z : Z) : Z := z `mod` 2 ^ 32.
Definition u64 (z : Z) : Z := z `mod` 2 ^ 64.
Definition i32 (z : Z) : Z := (z + 2 ^ 31) `mod` 2 ^ 32 - 2 ^ 31.
Definition i64 (z : Z) : Z := (z + 2 ^ 63) `mod` 2 ^ 64 - 2 ^ 63.

(** [(size_t)-1] *)
Definition size_max : Z := 2 ^ 64 - 1.

Lemma u32_id z : 0 <= z < 2 ^ 32 → u32 z = z.
Proof. intros; unfold u32; by apply Z.mod_small. Qed.
Lemma u64_id z : 0 <= z < 2 ^ 64 → u64 z = z.
Proof. intros; unfold u64; by apply Z.mod_small. Qed.
Lemma i32_id z : - 2 ^ 31 <= z < 2 ^ 31 → i32 z = z.
Proof. intros; unfold i32; rewrite Z.mod_small; lia. Qed.
Lemma i64_id z : - 2 ^ 63 <= z < 2 ^ 63 → i64 z = z.
Proof. intros; unfold i64; rewrite Z.mod_small; lia. Qed.
Lemma u32_range z : 0 <= u32 z < 2 ^ 32.
Proof. unfold u32; apply Z.mod_pos_bound; lia. Qed.
Lemma u64_range z : 0 <= u64 z < 2 ^ 64.
Proof. unfold u64; apply Z.mod_pos_bound; lia. Qed.
Lemma i32_range z : - 2 ^ 31 <= i32 z < 2 ^ 31.
Proof.
  unfold i32. pose proof (Z.mod_pos_bound (z + 2 ^ 31) (2 ^ 32)). lia.
Qed.
Lemma i64_range z : - 2 ^ 63 <= i64 z < 2 ^ 63.
Proof.
  unfold i64. pose proof (Z.mod_pos_bound (z + 2 ^ 63) (2 ^ 64)). lia.
Qed.

(** The ranges of the machine integers. *)
Create HintDb words.
#[export] Hint Resolve u32_range u64_range i32_range i64_range : words.

(** * Outcomes of running a piece of C++ code

    [AssertFail] is the end of the process by [abort] (a failed [assert], [die])
    or by a signal that it does not handle; [Undefined] is undefined behaviour
    (a null or dangling pointer dereferenced, an index out of range);
    [OutOfFuel] is the bound of a loop of the model reached, which the
    theorems show never happens from the states the program builds. *)
Inductive outcome (A : Type) : Type :=
| Done (a : A)
| AssertFail
| Undefined
| OutOfFuel.
Arguments Done {A} a.
Arguments AssertFail {A}.
Arguments Undefined {A}.
Arguments OutOfFuel {A}.

(** * The state and error monad of the development *)
Definition M (S A : Type) : Type := S → outcome (A * S).

Section monad.
Context {S : Type}.

#[global] Instance M_ret : MRet (M S) := λ A a σ, Done (a, σ).
#[global] Instance M_bind : MBind (M S) := λ A B f m σ,
  match m σ with
  | Done (a, σ') => f a σ'
  | AssertFail => AssertFail
  | Undefined => Undefined
  | OutOfFuel => OutOfFuel
  end.

Definition undefined {A} : M S A := λ _, Undefined.
Definition out_of_fuel {A} : M S A := λ _, OutOfFuel.
(** [assert(b)], with assertions compiled in (the Makefile never defines
    [NDEBUG]). *)
Definition assert_ (b : bool) : M S () :=
  λ σ, if b then Done ((), σ) else AssertFail.
(** A signal of which the action is to end the process. *)
Definition killed {A} : M S A := λ _, AssertFail.
Definition get_state : M S S := λ σ, Done (σ, σ).
Definition put_state (σ : S) : M S () := λ _, Done ((), σ).
(** Dereference of a possibly null pointer. *)
Definition deref {A} (o : option A) : M S A :=
  match o with Some a => mret a | None => undefined end.

(** Total correctness: the run ends in [Done] and its result satisfies [Q]. *)
Definition wp {A} (m : M S A) (Q : A → S → Prop) (σ : S) : Prop :=
  match m σ with Done (a, σ') => Q a σ' | _ => False end.

Lemma wp_ret {A} (a : A) Q σ : Q a σ → wp (mret a) Q σ.
Proof. done. Qed.
Lemma wp_bind {A B} (m : M S A) (f : A → M S B) Q σ :
  wp m (λ a, wp (f a) Q) σ → wp (m ≫= f) Q σ.
Proof. unfold wp, mbind, M_bind. by destruct (m σ) as [[]| | |]. Qed.
Lemma wp_bind_inv {A B} (m : M S A) (f : A → M S B) Q σ :
  wp (m ≫= f) Q σ → wp m (λ a, wp (f a) Q) σ.
Proof. unfold wp, mbind, M_bind. by destruct (m σ) as [[]| | |]. Qed.
Lemma wp_mono {A} (m : M S A) (P Q : A → S → Prop) σ :
  wp m P σ → (∀ a σ', P a σ' → Q a σ') → wp m Q σ.
Proof. unfold wp. destruct (m σ) as [[]| | |]; naive_solver. Qed.
Lemma wp_assert b (Q : () → S → Prop) σ : b = true → Q () σ → wp (assert_ b) Q σ.
Proof. by intros ->. Qed.
Lemma wp_get (Q : S → S → Prop) σ : Q σ σ → wp get_state Q σ.
Proof. done. Qed.
Lemma wp_put (Q : () → S → Prop) σ σ' : Q () σ' → wp (put_state σ') Q σ.
Proof. done. Qed.
Lemma wp_deref {A} (a : A) o (Q : A → S → Prop) σ :
  o = Some a → Q a σ → wp (deref o) Q σ.
Proof. by intros ->. Qed.
Lemma wp_done {A} (m : M S A) Q σ a σ' : m σ = Done (a, σ') → Q a σ' → wp m Q σ.
Proof. unfold wp. by intros ->. Qed.
Lemma wp_eq {A} (m m' : M S A) Q σ σ' : m σ = m' σ' → wp m' Q σ' → wp m Q σ.
Proof. unfold wp. by intros ->. Qed.
Lemma bind_done {A B} (m : M S A) (f : A → M S B) σ a σ' :
  m σ = Done (a, σ') → (m ≫= f) σ = f a σ'.
Proof. unfold mbind, M_bind. by intros ->. Qed.
Lemma bind_assert_fail {A B} (m : M S A) (f : A → M S B) σ :
  m σ = AssertFail → (m ≫= f) σ = AssertFail.
Proof. unfold mbind, M_bind. by intros ->. Qed.
Lemma bind_inv {A B} (m : M S A) (f : A → M S B) σ r :
  (m ≫= f) σ = Done r → ∃ a σ', m σ = Done (a, σ') ∧ f a σ' = Done r.
Proof. unfold mbind, M_bind. destruct (m σ) as [[]| | |]; naive_solver. Qed.
Lemma ret_inv {A} (a : A) σ r : (mret a : M S A) σ = Done r → r = (a, σ).
Proof. by intros [= <-]. Qed.
Lemma deref_inv {A} (o : option A) (σ : S) a σ' : deref o σ = Done (a, σ') → o = Some a ∧ σ' = σ.
Proof. destruct o; [|done]. by intros [= -> ->]. Qed.
Lemma wp_inv {A} (m : M S A) Q σ :
  wp m Q σ → ∃ a σ', m σ = Done (a, σ') ∧ Q a σ'.
Proof. unfold wp. destruct (m σ) as [[a σ']| | |]; naive_solver. Qed.
Lemma wp_and {A} (m : M S A) (P Q : A → S → Prop) σ : wp m P σ → wp m Q σ → wp m (λ a σ', P a σ' ∧ Q a σ') σ.
Proof. unfold wp. by destruct (m σ) as [[]| | |]. Qed.
Lemma wp_elim {A} (m : M S A) (Q : A → S → Prop) σ a σ' :
  wp m Q σ → m σ = Done (a, σ') → Q a σ'.
Proof. unfold wp. intros H Hr. by rewrite Hr in H. Qed.
End monad.

(** * A component of a larger state

    [zoom get put m] runs an operation of a component on the part of the state
    that is the component's. *)
Definition zoom {S T A} (get : S → T) (put : T → S → S) (m : M T A) : M S A := λ s,
  match m (get s) with
  | Done (a, t) => Done (a, put t s)
  | AssertFail => AssertFail
  | Undefined => Undefined
  | OutOfFuel => OutOfFuel
  end.

Lemma wp_zoom {S T A} (get : S → T) (put : T → S → S) (m : M T A) (Q : A → S → Prop) s :
  wp m (λ a t, Q a (put t s)) (get s) → wp (zoom get put m) Q s.
Proof. unfold wp, zoom. by destruct (m (get s)) as [[]| | |]. Qed.

Lemma zoom_done {S T A} (get : S → T) (put : T → S → S) (m : M T A) s a t :
  m (get s) = Done (a, t) → zoom get put m s = Done (a, put t s).
Proof. unfold zoom. by intros ->. Qed.

(** * Safety

    [safely m Q]: the run of [m] has no undefined behaviour and reaches no bound
    of the model; it ends in [Q] or on a failed assertion, which stops the
    program. *)
Definition safely {S A} (m : M S A) (Q : A → S → Prop) (σ : S) : Prop :=
  match m σ with Done (a, σ') => Q a σ' | AssertFail => True | _ => False end.

Section safely.
Context {S : Type}.

Lemma safely_ret {A} (a : A) (Q : A → S → Prop) σ : Q a σ → safely (mret a) Q σ.
Proof. done. Qed.
Lemma safely_bind {A B} (m : M S A) (f : A → M S B) (Q : B → S → Prop) σ :
  safely m (λ a, safely (f a) Q) σ → safely (m ≫= f) Q σ.
Proof. unfold safely, mbind, M_bind. by destruct (m σ) as [[]| | |]. Qed.
Lemma safely_mono {A} (m : M S A) (P Q : A → S → Prop) σ :
  safely m P σ → (∀ a σ', P a σ' → Q a σ') → safely m Q σ.
Proof. unfold safely. destruct (m σ) as [[]| | |]; naive_solver. Qed.
Lemma safely_wp {A} (m : M S A) (Q : A → S → Prop) σ : wp m Q σ → safely m Q σ.
Proof. unfold safely, wp. by destruct (m σ) as [[]| | |]. Qed.
Lemma safely_done {A} (m : M S A) (Q : A → S → Prop) σ a σ' :
  m σ = Done (a, σ') → Q a σ' → safely m Q σ.
Proof. unfold safely. by intros ->. Qed.
Lemma safely_zoom {T A} (get : S → T) (put : T → S → S) (m : M T A) (Q : A → S → Prop) s :
  safely m (λ a t, Q a (put t s)) (get s) → safely (zoom get put m) Q s.
Proof. unfold safely, zoom. by destruct (m (get s)) as [[]| | |]. Qed.
End safely.

(** [ends m Q E]: as [safely], and a failed assertion is explained by [E]. *)
Definition ends {S A} (m : M S A) (Q : A → S → Prop) (E : Prop) (σ : S) : Prop :=
  match m σ with Done (a, σ') => Q a σ' | AssertFail => E | _ => False end.

Section ends.
Context {S : Type}.

Lemma ends_ret {A} (a : A) (Q : A → S → Prop) E σ : Q a σ → ends (mret a) Q E σ.
Proof. done. Qed.
Lemma ends_bind {A B} (m : M S A) (f : A → M S B) (Q : B → S → Prop) E σ :
  ends m (λ a, ends (f a) Q E) E σ → ends (m ≫= f) Q E σ.
Proof. unfold ends, mbind, M_bind. by destruct (m σ) as [[]| | |]. Qed.
Lemma ends_mono {A} (m : M S A) (P Q : A → S → Prop) (E E' : Prop) σ :
  ends m P E σ → (E → E') → (∀ a σ', P a σ' → Q a σ') → ends m Q E' σ.
Proof. unfold ends. destruct (m σ) as [[]| | |]; naive_solver. Qed.
Lemma ends_wp {A} (m : M S A) (Q : A → S → Prop) E σ : wp m Q σ → ends m Q E σ.
Proof. unfold ends, wp. by destruct (m σ) as [[]| | |]. Qed.
Lemma ends_done {A} (m : M S A) (Q : A → S → Prop) E σ a σ' : m σ = Done (a, σ') → Q a σ' → ends m Q E σ.
Proof. unfold ends. by intros ->. Qed.
Lemma ends_zoom {T A} (get : S → T) (put : T → S → S) (m : M T A) (Q : A → S → Prop) E s :
  ends m (λ a t, Q a (put t s)) E (get s) → ends (zoom get put m) Q E s.
Proof. unfold ends, zoom. by destruct (m (get s)) as [[]| | |]. Qed.
Lemma ends_safely {A} (m : M S A) (Q : A → S → Prop) E σ : ends m Q E σ → safely m Q σ.
Proof. unfold ends, safely. by destruct (m σ) as [[]| | |]. Qed.
Lemma ends_eq {A} (m m' : M S A) Q E σ : m σ = m' σ → ends m' Q E σ → ends m Q E σ.
Proof. unfold ends. by intros ->. Qed.
(** A fact about the runs that end. *)
Lemma ends_and {A} (m : M S A) (P Q : A → S → Prop) E σ :
  ends m P E σ → (∀ a σ', m σ = Done (a, σ') → Q a σ') → ends m (λ a σ', P a σ' ∧ Q a σ') E σ.
Proof. unfold ends. destruct (m σ) as [[a σ']| | |]; auto. Qed.
End ends.

(** * What an operation leaves alone

    [keeps f m]: a run of [m] that ends leaves the part [f] of the state as it
    was. *)
Definition keeps {S X A} (f : S → X) (m : M S A) : Prop :=
  ∀ s a s', m s = Done (a, s') → f s' = f s.

Section keeps.
Context {S X : Type} (f : S → X).

Lemma keeps_ret {A} (a : A) : keeps f (mret a).
Proof. by intros s a' s' [= <- <-]. Qed.
Lemma keeps_bind {A B} (m : M S A) (k : A → M S B) : keeps f m → (∀ a, keeps f (k a)) → keeps f (m ≫= k).
Proof. intros Hm Hk s b s'' (a & s' & Hr & Hr')%bind_inv. rewrite (Hk a _ _ _ Hr'). by eapply Hm. Qed.
Lemma keeps_undefined {A} : keeps f (undefined : M S A).
Proof. by intros ?. Qed.
Lemma keeps_out_of_fuel {A} : keeps f (out_of_fuel : M S A).
Proof. by intros ?. Qed.
Lemma keeps_assert b : keeps f (assert_ b).
Proof. intros s [] s'. unfold assert_. destruct b; [by intros [= <-]|done]. Qed.
Lemma keeps_get : keeps f get_state.
Proof. by intros s a s' [= _ <-]. Qed.
Lemma keeps_deref {A} (o : option A) : keeps f (deref o).
Proof. intros s a s' [_ ->]%deref_inv. done. Qed.
(** An operation on another part. *)
Lemma keeps_zoom {T A} (get : S → T) (put : T → S → S) (m : M T A) :
  (∀ t s, f (put t s) = f s) → keeps f (zoom get put m).
Proof. intros H s a s'. unfold zoom. destruct (m (get s)) as [[b t]| | |]; [|done..]. intros [= _ <-]. apply H. Qed.
(** An operation on the part that [f] is in. *)
Lemma keeps_zoom_in {T A} (g : T → X) (get : S → T) (put : T → S → S) (m : M T A) :
  (∀ s, f s = g (get s)) → (∀ t s, f (put t s) = g t) → keeps g m → keeps f (zoom get put m).
Proof.
  intros H1 H2 Hm s a s'. unfold zoom. destruct (m (get s)) as [[b t]| | |] eqn:Hr; [|done..]. intros [= _ <-].
  rewrite H2, H1. by eapply Hm.
Qed.
End keeps.

Create HintDb keeps.
#[export] Hint Resolve keeps_ret keeps_undefined keeps_out_of_fuel keeps_assert keeps_get keeps_deref : keeps.

(** Goes through the body of an operation, case by case. *)
Ltac keep :=
  repeat first
    [ progress intros
    | solve [auto with keeps]
    | apply keeps_bind
    | progress cbv zeta
    | match goal with |- keeps _ (match ?x with _ => _ end) => destruct x end ].

(** * A store of objects of one type *)
Section store.
Context {V : Type}.
Abbreviation store := (gmap ptr V).

Definition load (a : ptr) : M store V :=
  λ σ, match σ !! a with Some v => Done (v, σ) | None => Undefined end.
Definition store_at (a : ptr) (v : V) : M store () :=
  λ σ, match σ !! a with Some _ => Done ((), <[a := v]> σ) | None => Undefined end.
(** [p->field = e], as an update function of the object. *)
Definition modify (a : ptr) (f : V → V) : M store () :=
  λ σ, match σ !! a with
       | Some v => Done ((), <[a := f v]> σ)
       | None => Undefined
       end.

Lemma wp_load a v (Q : V → store → Prop) σ :
  σ !! a = Some v → Q v σ → wp (load a) Q σ.
Proof. unfold wp, load. by intros ->. Qed.
Lemma wp_store_at a v v' (Q : () → store → Prop) σ :
  σ !! a = Some v → Q () (<[a := v']> σ) → wp (store_at a v') Q σ.
Proof. unfold wp, store_at. by intros ->. Qed.
Lemma wp_modify a v f (Q : () → store → Prop) σ :
  σ !! a = Some v → Q () (<[a := f v]> σ) → wp (modify a f) Q σ.
Proof. unfold wp, modify. by intros ->. Qed.
End store.

(** * Allocation

    [malloc] and [new] return an address above those in use: one of the
    behaviours the allocator may have. *)
Definition fresh_ptr {V} (σ : gmap ptr V) : ptr :=
  Pos.succ (map_fold (λ k _ a, Pos.max k a) 1%positive σ).

Lemma fresh_ptr_lt {V} (σ : gmap ptr V) k : is_Some (σ !! k) → (k < fresh_ptr σ)%positive.
Proof.
  intros Hk. unfold fresh_ptr.
  assert (k ≤ map_fold (λ k _ a, Pos.max k a) 1%positive σ)%positive; [|lia].
  revert k Hk. induction σ as [|i x σ Hi Hf IH] using map_first_key_ind; intros k [v Hk].
  { by rewrite lookup_empty in Hk. }
  rewrite map_fold_insert_first_key by done.
  destruct (decide (k = i)) as [->|]; [lia|]. rewrite lookup_insert_ne in Hk by done.
  specialize (IH k ltac:(eauto)). lia.
Qed.

Lemma fresh_ptr_fresh {V} (σ : gmap ptr V) k : (fresh_ptr σ ≤ k)%positive → σ !! k = None.
Proof.
  intros Hk. destruct (σ !! k) eqn:Hv; [|done].
  pose proof (fresh_ptr_lt σ k ltac:(eauto)). lia.
Qed.

(** * Disjoint footprints *)
Definition disj (xs ys : list ptr) : Prop := ∀ x, x ∈ xs → x ∈ ys → False.

Lemma disj_sym xs ys : disj xs ys ↔ disj ys xs.
Proof. unfold disj. naive_solver. Qed.
Lemma disj_cons_l x xs ys : disj (x :: xs) ys ↔ x ∉ ys ∧ disj xs ys.
Proof.
  unfold disj. setoid_rewrite elem_of_cons. split; [|naive_solver].
  intros H. split; [intros ?; apply (H x); tauto|intros y ??; apply (H y); tauto].
Qed.
Lemma disj_cons_r x xs ys : disj ys (x :: xs) ↔ x ∉ ys ∧ disj ys xs.
Proof. rewrite !(disj_sym ys). apply disj_cons_l. Qed.
Lemma disj_app_l xs ys zs : disj (xs ++ ys) zs ↔ disj xs zs ∧ disj ys zs.
Proof.
  unfold disj. setoid_rewrite elem_of_app. split; [|naive_solver].
  intros H. split; intros z ??; apply (H z); tauto.
Qed.
Lemma disj_app_r xs ys zs : disj zs (xs ++ ys) ↔ disj zs xs ∧ disj zs ys.
Proof. rewrite !(disj_sym zs). apply disj_app_l. Qed.
Lemma disj_nil_l ys : disj [] ys.
Proof. by intros x ?%not_elem_of_nil. Qed.
Lemma disj_nil_r ys : disj ys [].
Proof. by intros x _ ?%not_elem_of_nil. Qed.
Lemma nodup_app_disj (xs ys : list ptr) :
  NoDup (xs ++ ys) ↔ NoDup xs ∧ NoDup ys ∧ disj xs ys.
Proof. rewrite NoDup_app. unfold disj. naive_solver. Qed.

(** Distinct allocated objects are at most as many as the store has: the bound
    behind every fuel computed from the size of a store. *)
Lemma nodup_size {V} (σ : gmap ptr V) xs :
  NoDup xs → (∀ x, x ∈ xs → is_Some (σ !! x)) → (length xs ≤ size σ)%nat.
Proof.
  intros Hnd Hin. rewrite <-(size_dom (D:=gset ptr)), <-(size_list_to_set (C:=gset ptr)) by done.
  apply subseteq_size. intros x Hx%elem_of_list_to_set. by apply elem_of_dom, Hin.
Qed.

Lemma elem_of_concat {A} (x : A) (xss : list (list A)) :
  x ∈ concat xss ↔ ∃ i xs, xss !! i = Some xs ∧ x ∈ xs.
Proof.
  rewrite list_elem_of_In, in_concat. split.
  - intros (xs & Hxs & Hx). apply list_elem_of_In in Hxs, Hx.
    apply list_elem_of_lookup in Hxs as [i Hi]. eauto.
  - intros (i & xs & Hi & Hx). exists xs. rewrite <-!list_elem_of_In.
    split; [by eapply list_elem_of_lookup_2|done].
Qed.

Lemma omap_ext_elem {A B} (f g : A → option B) (l : list A) :
  (∀ x, x ∈ l → f x = g x) → omap f l = omap g l.
Proof.
  induction l as [|x l IH]; intros H; [done|]. cbn [omap list_omap]. rewrite (H x) by by left.
  rewrite IH; [done|]. intros y Hy. apply H. by right.
Qed.

#[export] Instance disj_proper : Proper ((≡ₚ) ==> (≡ₚ) ==> iff) disj.
Proof. intros xs xs' Hx ys ys' Hy. unfold disj. by setoid_rewrite Hx; setoid_rewrite Hy. Qed.
