(* ===== verification/AvlTree.v ===== *)
(** The AVL tree of storage/avl_tree.{h,cpp}, as the code manipulates it: a
    store of nodes linked by parent, left and right pointers, and one
    definition per C++ function.  A pointer to a pointer ([AVLNode **from]) is
    an [avl_slot].  Loops carry a fuel; the public functions start them with a
    bound computed from the store, which AvlRefine.v proves sufficient. *)
From S2P Require Import Prelude.

Record AVLNode := mkAVLNode {
  parent : option ptr;
  left : option ptr;
  right : option ptr;
  height : Z;
  cnt : Z;
}.

#[export] Instance AVLNode_eq_dec : EqDecision AVLNode.
Proof. solve_decision. Defined.

Abbreviation avl_store := (gmap ptr AVLNode).
Abbreviation AVL := (M avl_store).

Definition set_parent (p : option ptr) (n : AVLNode) : AVLNode :=
  mkAVLNode p (left n) (right n) (height n) (cnt n).
Definition set_left (l : option ptr) (n : AVLNode) : AVLNode :=
  mkAVLNode (parent n) l (right n) (height n) (cnt n).
Definition set_right (r : option ptr) (n : AVLNode) : AVLNode :=
  mkAVLNode (parent n) (left n) r (height n) (cnt n).
Definition set_stats (h c : Z) (n : AVLNode) : AVLNode :=
  mkAVLNode (parent n) (left n) (right n) h c.

(** [avl_init]: the fields of a fresh node. *)
Definition avl_init_node : AVLNode := mkAVLNode None None None 1 1.
Definition avl_init (node : ptr) : AVL () :=
  modify node (λ _, avl_init_node).

Definition avl_height (node : option ptr) : AVL Z :=
  match node with Some a => n ← load a; mret (height n) | None => mret 0 end.
Definition avl_cnt (node : option ptr) : AVL Z :=
  match node with Some a => n ← load a; mret (cnt n) | None => mret 0 end.

Definition max (lhs rhs : Z) : Z := if lhs >? rhs then lhs else rhs.

Definition avl_update_stats (node : ptr) : AVL () :=
  n ← load node;
  lh ← avl_height (left n);
  rh ← avl_height (right n);
  lc ← avl_cnt (left n);
  rc ← avl_cnt (right n);
  modify node (set_stats (u32 (1 + max lh rh)) (u32 (1 + lc + rc))).

(** [if (o) { o->parent = p; }] *)
Definition set_parent_opt (o : option ptr) (p : option ptr) : AVL () :=
  match o with Some a => modify a (set_parent p) | None => mret () end.

Definition rot_left (node : ptr) : AVL ptr :=
  n ← load node;
  let par := parent n in
  new_node ← deref (right n);
  nn ← load new_node;
  let inner := left nn in
  modify node (set_right inner);;
  set_parent_opt inner (Some node);;
  modify new_node (set_parent par);;
  modify new_node (set_left (Some node));;
  modify node (set_parent (Some new_node));;
  avl_update_stats node;;
  avl_update_stats new_node;;
  mret new_node.

Definition rot_right (node : ptr) : AVL ptr :=
  n ← load node;
  let par := parent n in
  new_node ← deref (left n);
  nn ← load new_node;
  let inner := right nn in
  modify node (set_left inner);;
  set_parent_opt inner (Some node);;
  modify new_node (set_parent par);;
  modify new_node (set_right (Some node));;
  modify node (set_parent (Some new_node));;
  avl_update_stats node;;
  avl_update_stats new_node;;
  mret new_node.

Definition avl_fix_left (node : ptr) : AVL ptr :=
  n ← load node;
  l ← deref (left n);
  ln ← load l;
  hll ← avl_height (left ln);
  hlr ← avl_height (right ln);
  (if hll <? hlr
   then l' ← rot_left l; modify node (set_left (Some l'))
   else mret ());;
  rot_right node.

Definition avl_fix_right (node : ptr) : AVL ptr :=
  n ← load node;
  r ← deref (right n);
  rn ← load r;
  hrr ← avl_height (right rn);
  hrl ← avl_height (left rn);
  (if hrr <? hrl
   then r' ← rot_right r; modify node (set_right (Some r'))
   else mret ());;
  rot_left node.

(** What an [AVLNode **] points to: a local variable (or the root pointer of
    the container), or a child field of a node. *)
Inductive avl_slot := SlotVar | SlotLeft (p : ptr) | SlotRight (p : ptr).

(** [*from = v]; the variable's new value is returned. *)
Definition slot_set (from : avl_slot) (v var : option ptr) : AVL (option ptr) :=
  match from with
  | SlotVar => mret v
  | SlotLeft p => modify p (set_left v);; mret var
  | SlotRight p => modify p (set_right v);; mret var
  end.

(** [parent->left == node ? &parent->left : &parent->right] *)
Definition child_slot (p node : ptr) : AVL avl_slot :=
  pn ← load p;
  mret (if decide (left pn = Some node) then SlotLeft p else SlotRight p).

(** The middle of the loop of [avl_fix_tree]: refresh the node's statistics,
    fix a height difference of two, and store the fixed subtree in [*from];
    the value of the local variable [node] is returned, since [from] may point
    to it. *)
Definition avl_fix_here (node : ptr) (from : avl_slot) : AVL (option ptr) :=
  avl_update_stats node;;
  n ← load node;
  left_height ← avl_height (left n);
  right_height ← avl_height (right n);
  (if left_height =? u32 (right_height + 2)
   then t ← avl_fix_left node; slot_set from (Some t) (Some node)
   else if u32 (left_height + 2) =? right_height
   then t ← avl_fix_right node; slot_set from (Some t) (Some node)
   else mret (Some node)).

Fixpoint avl_fix_loop (fuel : nat) (node : ptr) : AVL (option ptr) :=
  match fuel with
  | O => out_of_fuel
  | S fuel =>
      n ← load node;
      let par := parent n in
      from ← (match par with Some p => child_slot p node | None => mret SlotVar end);
      var ← avl_fix_here node from;
      match par with
      | None => mret var
      | Some p => avl_fix_loop fuel p
      end
  end.

Definition avl_fix_tree (node : ptr) : AVL (option ptr) :=
  σ ← get_state; avl_fix_loop (S (size σ)) node.

Definition avl_delete_one_child (node : ptr) : AVL (option ptr) :=
  n ← load node;
  assert_ (bool_decide (left n = None) || bool_decide (right n = None));;
  let child := match left n with Some l => Some l | None => right n end in
  let par := parent n in
  set_parent_opt child par;;
  match par with
  | None => mret child
  | Some p =>
      from ← child_slot p node;
      slot_set from child None;;
      avl_fix_tree p
  end.

(** [while (victim->left) { victim = victim->left; }] *)
Fixpoint avl_leftmost (fuel : nat) (victim : ptr) : AVL ptr :=
  match fuel with
  | O => out_of_fuel
  | S fuel =>
      n ← load victim;
      match left n with
      | Some l => avl_leftmost fuel l
      | None => mret victim
      end
  end.

Definition avl_delete (node : ptr) : AVL (option ptr) :=
  n ← load node;
  match left n, right n with
  | Some _, Some r =>
      σ ← get_state;
      victim ← avl_leftmost (S (size σ)) r;
      root ← avl_delete_one_child victim;
      n ← load node;
      modify victim (λ _, n);;
      set_parent_opt (left n) (Some victim);;
      set_parent_opt (right n) (Some victim);;
      n ← load node;
      from ← (match parent n with Some p => child_slot p node | None => mret SlotVar end);
      slot_set from (Some victim) root
  | _, _ => avl_delete_one_child node
  end.

(** The loop of [avl_offset]; [pos] is an [int64_t]. *)
Fixpoint avl_offset_loop (fuel : nat) (node : ptr) (pos offset : Z)
    : AVL (option ptr) :=
  match fuel with
  | O => out_of_fuel
  | S fuel =>
      if offset =? pos then mret (Some node) else
      n ← load node;
      rc ← avl_cnt (right n);
      lc ← avl_cnt (left n);
      if (pos <? offset) && (offset <=? i64 (pos + rc)) then
        match right n with
        | None => mret None
        | Some r =>
            rn ← load r;
            c ← avl_cnt (left rn);
            avl_offset_loop fuel r (i64 (pos + u32 (c + 1))) offset
        end
      else if (offset <? pos) && (i64 (pos - lc) <=? offset) then
        match left n with
        | None => mret None
        | Some l =>
            ln ← load l;
            c ← avl_cnt (right ln);
            avl_offset_loop fuel l (i64 (pos - u32 (c + 1))) offset
        end
      else
        match parent n with
        | None => mret None
        | Some p =>
            pn ← load p;
            let pos := if decide (right pn = Some node)
                       then i64 (pos - u32 (lc + 1))
                       else i64 (pos + u32 (rc + 1)) in
            avl_offset_loop fuel p pos offset
        end
  end.

Definition avl_offset (node : option ptr) (offset : Z) : AVL (option ptr) :=
  match node with
  | None => mret None
  | Some a => σ ← get_state; avl_offset_loop (S (2 * size σ)) a 0 offset
  end.

Section search.
(** The comparison callback: it reads the payload of the two nodes, which
    the tree code never writes. *)
Context (less : ptr → ptr → bool).

(** The descent: the slot where the new node goes and its parent. *)
Fixpoint avl_descend (fuel : nat) (new_node : ptr) (node par : option ptr)
    (from : avl_slot) : AVL (avl_slot * option ptr) :=
  match node with
  | None => mret (from, par)
  | Some a =>
      match fuel with
      | O => out_of_fuel
      | S fuel =>
          n ← load a;
          if less new_node a
          then avl_descend fuel new_node (left n) (Some a) (SlotLeft a)
          else avl_descend fuel new_node (right n) (Some a) (SlotRight a)
      end
  end.

(** [avl_search_and_insert(&root, new_node, less)]: returns the value of
    [root] afterwards; the result of [avl_fix_tree] is dropped. *)
Definition avl_search_and_insert (root : option ptr) (new_node : ptr)
    : AVL (option ptr) :=
  σ ← get_state;
  '(from, par) ← avl_descend (size σ) new_node root None SlotVar;
  root ← slot_set from (Some new_node) root;
  modify new_node (set_parent par);;
  avl_fix_tree new_node;;
  mret root.
End search.

Section search_delete.
(** The callback [int32_t cmp(AVLNode *, void *key)] applied to the key. *)
Context (cmp : ptr → Z).

Fixpoint avl_search_delete_loop (fuel : nat) (node root : option ptr)
    : AVL (option ptr * option ptr) :=
  match node with
  | None => mret (None, root)
  | Some a =>
      match fuel with
      | O => out_of_fuel
      | S fuel =>
          n ← load a;
          if cmp a <? 0 then avl_search_delete_loop fuel (right n) root
          else if cmp a >? 0 then avl_search_delete_loop fuel (left n) root
          else root ← avl_delete a; mret (Some a, root)
      end
  end.

(** Returns the deleted node and the value of [*root] afterwards. *)
Definition avl_search_and_delete (root : option ptr)
    : AVL (option ptr * option ptr) :=
  σ ← get_state; avl_search_delete_loop (size σ) root root.
End search_delete.
