(* ===== verification/AvlModel.v ===== *)
(** A functional AVL tree over node addresses: the abstract counterpart of the
    pointer structure of AvlTree.v.  A tree in which one subtree is singled
    out is a pair of the subtree and its context ([ctx], innermost frame
    first), which is what the code's parent pointers describe. *)
From S2P Require Import Prelude.

Inductive tree := Leaf | Node (l : tree) (a : ptr) (r : tree).

#[export] Instance tree_eq_dec : EqDecision tree.
Proof. solve_decision. Defined.

Definition root (t : tree) : option ptr :=
  match t with Leaf => None | Node _ a _ => Some a end.

Fixpoint ht (t : tree) : Z :=
  match t with Leaf => 0 | Node l _ r => 1 + Z.max (ht l) (ht r) end.
Fixpoint sz (t : tree) : Z :=
  match t with Leaf => 0 | Node l _ r => 1 + sz l + sz r end.
(** In-order addresses. *)
Fixpoint elems (t : tree) : list ptr :=
  match t with Leaf => [] | Node l a r => elems l ++ a :: elems r end.

Fixpoint bal (t : tree) : Prop :=
  match t with
  | Leaf => True
  | Node l _ r => bal l ∧ bal r ∧ Z.abs (ht l - ht r) <= 1
  end.

Definition rotl (t : tree) : tree :=
  match t with
  | Node l a (Node rl b rr) => Node (Node l a rl) b rr
  | _ => t
  end.
Definition rotr (t : tree) : tree :=
  match t with
  | Node (Node ll b lr) a r => Node ll b (Node lr a r)
  | _ => t
  end.

Definition fixl (t : tree) : tree :=
  match t with
  | Node (Node ll b lr) a r =>
      rotr (Node (if ht ll <? ht lr then rotl (Node ll b lr) else Node ll b lr) a r)
  | _ => t
  end.
Definition fixr (t : tree) : tree :=
  match t with
  | Node l a (Node rl b rr) =>
      rotl (Node l a (if ht rr <? ht rl then rotr (Node rl b rr) else Node rl b rr))
  | _ => t
  end.

Definition rebalance (t : tree) : tree :=
  match t with
  | Leaf => Leaf
  | Node l a r =>
      if ht l =? ht r + 2 then fixl t
      else if ht l + 2 =? ht r then fixr t
      else t
  end.

Inductive frame := FL (a : ptr) (r : tree) | FR (l : tree) (a : ptr).
Abbreviation ctx := (list frame).

Definition fill (f : frame) (t : tree) : tree :=
  match f with FL a r => Node t a r | FR l a => Node l a t end.
Definition faddr (f : frame) : ptr := match f with FL a _ => a | FR _ a => a end.
Definition flft (f : frame) : list ptr :=
  match f with FL _ _ => [] | FR l a => elems l ++ [a] end.
Definition frgt (f : frame) : list ptr :=
  match f with FL a r => a :: elems r | FR _ _ => [] end.

Fixpoint plug (t : tree) (c : ctx) : tree :=
  match c with [] => t | f :: c => plug (fill f t) c end.
Fixpoint fix_up (t : tree) (c : ctx) : tree :=
  match c with [] => rebalance t | f :: c => fix_up (fill f (rebalance t)) c end.

Fixpoint cleft (c : ctx) : list ptr :=
  match c with [] => [] | f :: c => cleft c ++ flft f end.
Fixpoint cright (c : ctx) : list ptr :=
  match c with [] => [] | f :: c => frgt f ++ cright c end.
Definition caddr (c : ctx) : option ptr :=
  match c with [] => None | f :: _ => Some (faddr f) end.

(** The context is balanced when its hole holds a tree of height [h]. *)
Fixpoint cbal (h : Z) (c : ctx) : Prop :=
  match c with
  | [] => True
  | FL _ s :: c | FR s _ :: c =>
      bal s ∧ Z.abs (h - ht s) <= 1 ∧ cbal (1 + Z.max h (ht s)) c
  end.

(** ** In-order contents *)
Lemma elems_fill f t : elems (fill f t) = flft f ++ elems t ++ frgt f.
Proof. destruct f; simpl; [done|]. by rewrite app_nil_r, <-app_assoc. Qed.

Lemma elems_plug t c : elems (plug t c) = cleft c ++ elems t ++ cright c.
Proof.
  revert t. induction c as [|f c IH]; intros t; simpl; [by rewrite app_nil_r|].
  by rewrite IH, elems_fill, !app_assoc.
Qed.

Lemma elems_rotl t : elems (rotl t) = elems t.
Proof. destruct t as [|l a [|rl b rr]]; simpl; [done..|]. by rewrite <-app_assoc. Qed.
Lemma elems_rotr t : elems (rotr t) = elems t.
Proof. destruct t as [|[|ll b lr] a r]; simpl; [done..|]. by rewrite <-app_assoc. Qed.

Lemma elems_fixl t : elems (fixl t) = elems t.
Proof.
  destruct t as [|[|ll b lr] a r]; [done..|].
  cbn [fixl]. rewrite elems_rotr. case_match; [|done].
  cbn [elems]. by rewrite elems_rotl.
Qed.
Lemma elems_fixr t : elems (fixr t) = elems t.
Proof.
  destruct t as [|l a [|rl b rr]]; [done..|].
  cbn [fixr]. rewrite elems_rotl. case_match; [|done].
  cbn [elems]. by rewrite elems_rotr.
Qed.

Lemma elems_rebalance t : elems (rebalance t) = elems t.
Proof.
  destruct t as [|l a r]; [done|]. unfold rebalance.
  repeat case_match; auto using elems_fixl, elems_fixr.
Qed.

Lemma elems_fix_up t c : elems (fix_up t c) = elems (plug t c).
Proof.
  revert t. induction c as [|f c IH]; intros t; simpl; [apply elems_rebalance|].
  by rewrite IH, !elems_plug, !elems_fill, elems_rebalance.
Qed.

Lemma sz_elems t : sz t = Z.of_nat (length (elems t)).
Proof. induction t; simpl; [done|]. rewrite length_app; simpl; lia. Qed.
Lemma sz_nonneg t : 0 <= sz t.
Proof. rewrite sz_elems; lia. Qed.
Lemma ht_nonneg t : 0 <= ht t.
Proof. induction t; simpl; lia. Qed.
Lemma ht_le_sz t : ht t <= sz t.
Proof. induction t; simpl; [lia|]. pose proof (sz_nonneg t1). pose proof (sz_nonneg t2). lia. Qed.
Lemma sz_fill f t : sz (fill f t) = sz t + sz (fill f Leaf).
Proof. destruct f; simpl; lia. Qed.
Lemma sz_plug_ge t c : sz t <= sz (plug t c).
Proof.
  revert t. induction c as [|f c IH]; intros t; simpl; [lia|].
  specialize (IH (fill f t)). rewrite sz_fill in IH. pose proof (sz_nonneg (fill f Leaf)). lia.
Qed.
Lemma sz_rebalance t : sz (rebalance t) = sz t.
Proof. by rewrite !sz_elems, elems_rebalance. Qed.
Lemma sz_plug_eq t t' c : sz t = sz t' → sz (plug t c) = sz (plug t' c).
Proof. intros H. rewrite !sz_elems, !elems_plug, !length_app in *. lia. Qed.
Lemma sz_fix_up t c : sz (fix_up t c) = sz (plug t c).
Proof. by rewrite !sz_elems, elems_fix_up. Qed.

Lemma plug_app t c c' : plug t (c ++ c') = plug (plug t c) c'.
Proof. revert t. induction c; intros; simpl; auto. Qed.

(** Every element of a tree is the root of a subtree of it. *)
Lemma elem_plug t x :
  x ∈ elems t → ∃ l r c, t = plug (Node l x r) c.
Proof.
  induction t as [|l IHl a r IHr]; simpl; [by intros ?%not_elem_of_nil|].
  intros [Hl|[->|Hr]%elem_of_cons]%elem_of_app.
  - destruct (IHl Hl) as (l' & r' & c & ->).
    exists l', r', (c ++ [FL a r]). by rewrite plug_app.
  - by exists l, r, [].
  - destruct (IHr Hr) as (l' & r' & c & ->).
    exists l', r', (c ++ [FR l a]). by rewrite plug_app.
Qed.

(** ** Distinct addresses *)

(** The subtree beside the hole, and all the addresses of a context. *)
Definition sib (f : frame) : tree := match f with FL _ r => r | FR l _ => l end.
Fixpoint celems (c : ctx) : list ptr :=
  match c with [] => [] | f :: c => faddr f :: elems (sib f) ++ celems c end.

Lemma elems_plug_perm t c : elems (plug t c) ≡ₚ elems t ++ celems c.
Proof.
  revert t. induction c as [|f c IH]; intros t; cbn [plug celems]; [by rewrite app_nil_r|].
  rewrite IH, elems_fill. destruct f as [a s|s a]; simpl; rewrite ?app_nil_r.
  - by rewrite <-app_assoc.
  - rewrite <-!app_assoc. simpl. rewrite <-!Permutation_middle.
    constructor. apply Permutation_app_swap_app.
Qed.

Lemma elem_of_plug x t c : x ∈ elems (plug t c) ↔ x ∈ elems t ∨ x ∈ celems c.
Proof. by rewrite elems_plug_perm, elem_of_app. Qed.

Lemma nodup_node l a r :
  NoDup (elems (Node l a r)) ↔
  NoDup (elems l) ∧ NoDup (elems r) ∧ a ∉ elems l ∧ a ∉ elems r ∧
  disj (elems l) (elems r).
Proof.
  cbn [elems]. rewrite NoDup_app, NoDup_cons. split.
  - intros (? & H & ? & ?). repeat split; try done.
    + intros Ha. apply (H _ Ha). set_solver.
    + intros x Hl Hr. apply (H _ Hl). set_solver.
  - intros (? & ? & ? & ? & H). repeat split; try done.
    intros x Hl. rewrite not_elem_of_cons. split; [congruence|]. intros Hr. by apply (H x).
Qed.
Lemma elem_node x l a r : x ∈ elems (Node l a r) ↔ x ∈ elems l ∨ x = a ∨ x ∈ elems r.
Proof. cbn [elems]. by rewrite elem_of_app, elem_of_cons. Qed.
Lemma not_elem_node x l a r :
  x ∉ elems (Node l a r) ↔ x ∉ elems l ∧ x ≠ a ∧ x ∉ elems r.
Proof. rewrite elem_node. tauto. Qed.
Lemma disj_node_l l a r xs :
  disj (elems (Node l a r)) xs ↔ disj (elems l) xs ∧ a ∉ xs ∧ disj (elems r) xs.
Proof.
  unfold disj. setoid_rewrite elem_node. split; [|naive_solver].
  intros H. split_and!.
  - intros x ??. apply (H x); tauto.
  - intros ?. apply (H a); tauto.
  - intros x ??. apply (H x); tauto.
Qed.
Lemma disj_node_r l a r xs :
  disj xs (elems (Node l a r)) ↔ disj xs (elems l) ∧ a ∉ xs ∧ disj xs (elems r).
Proof. rewrite !(disj_sym xs). apply disj_node_l. Qed.

Lemma nodup_plug t c :
  NoDup (elems (plug t c)) ↔
  NoDup (elems t) ∧ NoDup (celems c) ∧ disj (elems t) (celems c).
Proof. by rewrite elems_plug_perm, nodup_app_disj. Qed.
Lemma nodup_ctx f c :
  NoDup (celems (f :: c)) ↔
  faddr f ∉ elems (sib f) ∧ faddr f ∉ celems c ∧
  NoDup (elems (sib f)) ∧ NoDup (celems c) ∧ disj (elems (sib f)) (celems c).
Proof. cbn [celems]. rewrite NoDup_cons, nodup_app_disj, not_elem_of_app. tauto. Qed.

(** ** Heights and balance *)
Lemma rebalance_spec l a r :
  bal l → bal r → Z.abs (ht l - ht r) <= 2 →
  bal (rebalance (Node l a r)) ∧
  (Z.abs (ht l - ht r) <= 1 → ht (rebalance (Node l a r)) = 1 + Z.max (ht l) (ht r)) ∧
  Z.max (ht l) (ht r) <= ht (rebalance (Node l a r)) <= 1 + Z.max (ht l) (ht r).
Proof.
  intros Hl Hr Hd. unfold rebalance.
  destruct (Z.eqb_spec (ht l) (ht r + 2)) as [H1|H1];
    [|destruct (Z.eqb_spec (ht l + 2) (ht r)) as [H2|H2]].
  - destruct l as [|ll b lr]; simpl in *; [pose proof (ht_nonneg r); lia|].
    destruct Hl as (Hll & Hlr & Hl).
    destruct (Z.ltb_spec (ht ll) (ht lr)); simpl.
    + destruct lr as [|x c y]; simpl in *; [pose proof (ht_nonneg ll); lia|].
      repeat split; try tauto; lia.
    + repeat split; try tauto; lia.
  - destruct r as [|rl b rr]; simpl in *; [pose proof (ht_nonneg l); lia|].
    destruct Hr as (Hrl & Hrr & Hr).
    destruct (Z.ltb_spec (ht rr) (ht rl)); simpl.
    + destruct rl as [|x c y]; simpl in *; [pose proof (ht_nonneg rr); lia|].
      repeat split; try tauto; lia.
    + repeat split; try tauto; lia.
  - simpl. repeat split; try tauto; lia.
Qed.

(** The height of the subtree in the hole changes by at most one from frame
    to frame, so rebalancing once per ancestor restores the balance. *)
Lemma fill_step h f c t :
  bal t → Z.abs (ht t - h) <= 1 → cbal h (f :: c) →
  ∃ l b r, fill f t = Node l b r ∧ bal l ∧ bal r ∧ Z.abs (ht l - ht r) <= 2 ∧
    Z.abs (ht (rebalance (Node l b r)) - (1 + Z.max h (ht (sib f)))) <= 1 ∧
    cbal (1 + Z.max h (ht (sib f))) c.
Proof.
  intros Hb Hh Hc. destruct f as [b s|s b]; cbn [fill cbal sib] in *; destruct Hc as (Hs & Hhs & Hc).
  - exists t, b, s. destruct (rebalance_spec t b s Hb Hs ltac:(lia)) as (_ & ? & ?).
    split_and!; try done; [lia|]. destruct (decide (Z.abs (ht t - ht s) <= 1)); lia.
  - exists s, b, t. destruct (rebalance_spec s b t Hs Hb ltac:(lia)) as (_ & ? & ?).
    split_and!; try done; [lia|]. destruct (decide (Z.abs (ht s - ht t) <= 1)); lia.
Qed.

Lemma fix_up_bal h c l a r :
  bal l → bal r → Z.abs (ht l - ht r) <= 2 →
  Z.abs (ht (rebalance (Node l a r)) - h) <= 1 →
  cbal h c →
  bal (fix_up (Node l a r) c).
Proof.
  revert h l a r. induction c as [|f c IH]; intros h l a r Hl Hr Hd Hh Hc; cbn [fix_up].
  { by apply rebalance_spec. }
  destruct (rebalance_spec l a r Hl Hr Hd) as (Hb & _ & _).
  destruct (fill_step h f c _ Hb Hh Hc) as (l' & b & r' & -> & ? & ? & ? & ? & ?).
  by eapply IH.
Qed.

Lemma fix_up_fill_bal h f c t :
  bal t → Z.abs (ht t - h) <= 1 → cbal h (f :: c) → bal (fix_up (fill f t) c).
Proof.
  intros Hb Hh Hc. destruct (fill_step h f c t Hb Hh Hc) as (l & b & r & -> & ? & ? & ? & ? & ?).
  by eapply fix_up_bal.
Qed.

Lemma bal_plug t c : bal (plug t c) ↔ bal t ∧ cbal (ht t) c.
Proof.
  revert t. induction c as [|f c IH]; intros t; [simpl; tauto|].
  cbn [plug]. rewrite IH.
  destruct f as [a s|s a]; cbn [fill bal cbal ht].
  - rewrite (Z.max_comm (ht t)). tauto.
  - rewrite (Z.max_comm (ht t)). replace (Z.abs (ht s - ht t)) with (Z.abs (ht t - ht s)) by lia.
    tauto.
Qed.

(** A balanced tree of height [h] has at least [2 ^ (h / 2) - 1] nodes. *)
Lemma bal_height t : bal t → 2 ^ (ht t / 2) <= sz t + 1.
Proof.
  intros Hb. cut (2 ^ (ht t / 2) <= sz t + 1 ∧ 2 ^ ((ht t - 1) / 2) <= sz t + 1); [tauto|].
  induction t as [|l IHl a r IHr]; [done|]. cbn [ht sz].
  destruct Hb as (Hl & Hr & Hd). destruct (IHl Hl) as [L1 L2], (IHr Hr) as [R1 R2].
  pose proof (sz_nonneg l). pose proof (sz_nonneg r).
  pose proof (ht_nonneg l). pose proof (ht_nonneg r).
  assert (∀ h, 1 <= h → 2 ^ ((1 + h) / 2) = 2 * 2 ^ ((h - 1) / 2)) as E.
  { intros h ?. replace (1 + h) with (h - 1 + 1 * 2) by lia. rewrite Z.div_add by lia.
    rewrite Z.pow_add_r; [lia|apply Z.div_pos; lia|lia]. }
  assert (∀ h, 2 ^ ((h - 1) / 2) <= 2 ^ (h / 2)) as M2.
  { intros h. apply Z.pow_le_mono_r; [lia|]. apply Z.div_le_mono; lia. }
  split.
  - destruct (decide (Z.max (ht l) (ht r) = 0)) as [->|]; [change (2 ^ ((1 + 0) / 2)) with 1; lia|].
    rewrite E by lia.
    destruct (Z.max_spec (ht l) (ht r)) as [[? ->]|[? ->]].
    + assert (ht l = ht r - 1) as Hh by lia. rewrite Hh in L1. lia.
    + destruct (decide (ht l = ht r)) as [Hh|].
      * rewrite Hh in L2 |- *. lia.
      * assert (ht r = ht l - 1) as Hh by lia. rewrite Hh in R1. lia.
  - replace (1 + Z.max (ht l) (ht r) - 1) with (Z.max (ht l) (ht r)) by lia.
    destruct (Z.max_spec (ht l) (ht r)) as [[? ->]|[? ->]]; lia.
Qed.

(** ** Insertion *)

(** The context of the empty subtree where a new node goes: [p a] tells that
    the new node belongs before [a]. *)
Fixpoint descend (p : ptr → bool) (t : tree) (c : ctx) : ctx :=
  match t with
  | Leaf => c
  | Node l a r => if p a then descend p l (FL a r :: c) else descend p r (FR l a :: c)
  end.

Definition ins (p : ptr → bool) (x : ptr) (t : tree) : tree :=
  fix_up (Node Leaf x Leaf) (descend p t []).

(** [p] is false on a prefix of the list and true on the rest. *)
Definition cut_by (p : ptr → bool) (xs : list ptr) : Prop :=
  StronglySorted (λ y z, p y = true → p z = true) xs.

Lemma plug_descend p t c : plug Leaf (descend p t c) = plug t c.
Proof.
  revert c. induction t as [|l IHl a r IHr]; intros c; cbn [descend]; [done|].
  destruct (p a); [by rewrite IHl|by rewrite IHr].
Qed.

Lemma cut_by_app p xs ys :
  cut_by p (xs ++ ys) ↔
  cut_by p xs ∧ cut_by p ys ∧ (∀ x y, x ∈ xs → y ∈ ys → p x = true → p y = true).
Proof.
  unfold cut_by. induction xs as [|x xs IH]; cbn [app].
  - split; [|tauto]. intros H. split_and!; [constructor|done|by intros ?? ?%not_elem_of_nil].
  - split.
    + intros H. inversion H as [|?? Hs Hf]; subst. apply IH in Hs as (? & ? & Hc).
      apply Forall_app in Hf as [? Hf]. split_and!; [by constructor|done|].
      intros y z [->|Hy]%elem_of_cons Hz; [|by apply Hc].
      rewrite Forall_forall in Hf. by apply Hf.
    + intros (Hx & ? & Hc). inversion Hx as [|?? Hs Hf]; subst. constructor.
      * apply IH. split_and!; [done..|]. intros y z ??. apply Hc; [by right|done].
      * apply Forall_app. split; [done|]. apply Forall_forall. intros z Hz. apply Hc; [by left|done].
Qed.

(** The descent splits the in-order contents at the cut. *)
Lemma descend_split p t c :
  cut_by p (elems t) →
  ∃ L R, elems t = L ++ R ∧ Forall (λ y, p y = false) L ∧ Forall (λ y, p y = true) R ∧
    cleft (descend p t c) = cleft c ++ L ∧ cright (descend p t c) = R ++ cright c.
Proof.
  revert c. induction t as [|l IHl a r IHr]; intros c Hcut.
  { exists [], []. cbn. by rewrite app_nil_r. }
  cbn [elems descend] in *. apply cut_by_app in Hcut as (Hl & Har & Hc).
  destruct (p a) eqn:Hpa.
  - destruct (IHl (FL a r :: c) Hl) as (L & R & -> & HL & HR & HcL & HcR).
    exists L, (R ++ a :: elems r). split_and!; [by rewrite <-app_assoc|done| | |].
    + apply Forall_app. split; [done|]. constructor; [done|].
      inversion Har as [|?? _ Hf]; subst. eapply Forall_impl; [exact Hf|]. auto.
    + rewrite HcL. cbn [cleft flft]. by rewrite app_nil_r.
    + rewrite HcR. cbn [cright frgt]. by rewrite <-app_assoc.
  - destruct (IHr (FR l a :: c)) as (L & R & HLR & HL & HR & HcL & HcR).
    { by inversion Har. }
    exists (elems l ++ a :: L), R. split_and!; [by rewrite HLR, <-app_assoc| |done| |].
    + apply Forall_app. split; [|by constructor]. apply Forall_forall. intros y Hy.
      destruct (p y) eqn:Hpy; [|done]. rewrite (Hc y a) in Hpa; [done|done|by left|done].
    + rewrite HcL. cbn [cleft flft]. by rewrite <-!app_assoc.
    + rewrite HcR. done.
Qed.

Lemma ins_elems p x t :
  cut_by p (elems t) →
  ∃ L R, elems t = L ++ R ∧ Forall (λ y, p y = false) L ∧ Forall (λ y, p y = true) R ∧
    elems (ins p x t) = L ++ x :: R.
Proof.
  intros Hcut. destruct (descend_split p t [] Hcut) as (L & R & -> & HL & HR & HcL & HcR).
  exists L, R. split_and!; try done. unfold ins.
  rewrite elems_fix_up, elems_plug, HcL, HcR. cbn. by rewrite app_nil_r.
Qed.

Lemma ins_elems_perm p x t : elems (ins p x t) ≡ₚ x :: elems t.
Proof.
  unfold ins. rewrite elems_fix_up, elems_plug_perm. simpl.
  rewrite <-(plug_descend p t []) at 2. by rewrite elems_plug_perm.
Qed.

Lemma ins_bal p x t : bal t → bal (ins p x t).
Proof.
  intros Hb. unfold ins. rewrite <-(plug_descend p t []) in Hb at 1.
  apply bal_plug in Hb as [_ Hc]. eapply fix_up_bal; [done..| |exact Hc]. done.
Qed.

(** ** Deletion *)

(** The leftmost node of [Node l a r], its right subtree and its context. *)
Fixpoint leftmost (l : tree) (a : ptr) (r : tree) (c : ctx) : ptr * tree * ctx :=
  match l with
  | Leaf => (a, r, c)
  | Node ll b lr => leftmost ll b lr (FL a r :: c)
  end.

(** The subtree in the hole of [c] lost its root and became [child]. *)
Definition del1 (child : tree) (c : ctx) : tree :=
  match c with [] => child | f :: c => fix_up (fill f child) c end.

(** [v] takes the place of [x]. *)
Fixpoint ren (x v : ptr) (t : tree) : tree :=
  match t with
  | Leaf => Leaf
  | Node l a r => Node (ren x v l) (if decide (a = x) then v else a) (ren x v r)
  end.

Definition del (l : tree) (x : ptr) (r : tree) (c : ctx) : tree :=
  match l, r with
  | Leaf, _ => del1 r c
  | _, Leaf => del1 l c
  | _, Node rl b rr =>
      let '(v, rv, c') := leftmost rl b rr (FR l x :: c) in ren x v (del1 rv c')
  end.

Lemma leftmost_spec l a r c v rv c' :
  leftmost l a r c = (v, rv, c') →
  plug (Node Leaf v rv) c' = plug (Node l a r) c ∧ cleft c' = cleft c ∧
  (∃ D, elems (Node l a r) = v :: elems rv ++ D ∧ cright c' = D ++ cright c) ∧
  (∃ c0, c' = c0 ++ c).
Proof.
  revert a r c. induction l as [|ll IHl b lr _]; intros a r c; cbn [leftmost].
  - intros [= <- <- <-]. split_and!; [done..| |by exists []].
    exists []. by rewrite app_nil_r.
  - intros H. destruct (IHl _ _ _ H) as (-> & Hcl & (D & HD & Hcr) & (c0 & Hc0)). cbn [plug fill].
    split_and!; [done| | |].
    + rewrite Hcl. cbn [cleft flft]. by rewrite app_nil_r.
    + exists (D ++ a :: elems r). split; [|by rewrite Hcr, <-app_assoc].
      remember (Node ll b lr) as t. cbn [elems]. rewrite HD. cbn. by rewrite <-app_assoc.
    + exists (c0 ++ [FL a r]). rewrite Hc0. by rewrite <-app_assoc.
Qed.

Lemma elems_del1 child c : elems (del1 child c) = cleft c ++ elems child ++ cright c.
Proof.
  destruct c as [|f c]; cbn [del1]; [by rewrite app_nil_r|].
  rewrite elems_fix_up, <-elems_plug. done.
Qed.

Lemma ht_ren x v t : ht (ren x v t) = ht t.
Proof. induction t; simpl; congruence. Qed.
Lemma sz_ren x v t : sz (ren x v t) = sz t.
Proof. induction t; simpl; congruence. Qed.
Lemma bal_ren x v t : bal t → bal (ren x v t).
Proof. induction t; simpl; rewrite ?ht_ren; tauto. Qed.
Lemma elems_ren x v t : elems (ren x v t) = map (λ a, if decide (a = x) then v else a) (elems t).
Proof. induction t as [|l IHl a r IHr]; simpl; [done|]. by rewrite map_app, IHl, IHr. Qed.
Lemma ren_notin x v t : x ∉ elems t → ren x v t = t.
Proof.
  induction t as [|l IHl a r IHr]; [done|]. intros (? & ? & ?)%not_elem_node. simpl.
  rewrite IHl, IHr, decide_False by done. done.
Qed.
Lemma ren_plug x v l r c :
  NoDup (elems (plug (Node l x r) c)) → ren x v (plug (Node l x r) c) = plug (Node l v r) c.
Proof.
  intros (Hn & Hc & Hd)%nodup_plug. apply nodup_node in Hn as (_ & _ & Hl & Hr & _).
  apply disj_node_l in Hd as (_ & Hx & _).
  assert (ren x v (Node l x r) = Node l v r) as E.
  { simpl. by rewrite !ren_notin, decide_True. }
  revert E. generalize (Node l x r) (Node l v r). clear Hl Hr l r.
  induction c as [|f c IH]; intros t t' E; cbn [plug]; [done|].
  apply nodup_ctx in Hc as (_ & _ & _ & Hc & _). cbn [celems] in Hx.
  apply not_elem_of_cons in Hx as [? [? ?]%not_elem_of_app].
  apply IH; [done|done|]. destruct f; simpl in *; by rewrite E, ren_notin, decide_False.
Qed.

Lemma map_ren_notin (x v : ptr) xs :
  x ∉ xs → map (λ a, if decide (a = x) then v else a) xs = xs.
Proof.
  induction xs as [|a xs IH]; [done|]. intros [? ?]%not_elem_of_cons. cbn [map].
  by rewrite decide_False, IH.
Qed.

Lemma del_elems l x r c :
  NoDup (elems (plug (Node l x r) c)) →
  elems (del l x r c) = cleft c ++ elems l ++ elems r ++ cright c.
Proof.
  intros Hnd. unfold del.
  destruct l as [|ll b lr]; [by rewrite elems_del1|].
  remember (Node ll b lr) as l eqn:Hl; clear Hl ll b lr.
  destruct r as [|rl b rr]; [by rewrite elems_del1|].
  destruct (leftmost _ _ _ _) as [[v rv] c'] eqn:Hlm.
  destruct (leftmost_spec _ _ _ _ _ _ _ Hlm) as (_ & Hcl & (D & HD & Hcr) & _).
  rewrite elems_ren, elems_del1, Hcl, Hcr. cbn [cleft flft cright frgt].
  rewrite elems_plug in Hnd. cbn [elems] in HD, Hnd |- *. rewrite HD in Hnd |- *.
  clear - Hnd.
  assert (x ∉ cleft c ++ elems l ∧ x ∉ elems rv ++ D ++ cright c) as [H1 H2].
  { cbn [app] in Hnd. rewrite <-!app_assoc in Hnd. cbn [app] in Hnd.
    rewrite <-(Permutation_middle (elems l) _ x), <-(Permutation_middle (cleft c) _ x) in Hnd.
    apply NoDup_cons in Hnd as [Hx _]. set_solver. }
  rewrite <-!app_assoc, !map_app. cbn [map].
  rewrite decide_True by done. rewrite not_elem_of_app in H1. rewrite !not_elem_of_app in H2.
  destruct_and!. rewrite !map_ren_notin by done. simpl. by rewrite <-!app_assoc.
Qed.

Lemma del1_bal child h c :
  bal child → Z.abs (ht child - h) <= 1 → cbal h c → bal (del1 child c).
Proof. destruct c as [|f c]; [done|]. apply fix_up_fill_bal. Qed.

Lemma del_bal l x r c : bal (plug (Node l x r) c) → bal (del l x r c).
Proof.
  intros Hb. assert (Hb' := Hb). apply bal_plug in Hb as [(Hl & Hr & Hd) Hc].
  pose proof (ht_nonneg l). pose proof (ht_nonneg r). cbn [ht] in Hc. unfold del.
  destruct l as [|ll a lr]; [by eapply del1_bal; [done| |exact Hc]; simpl; lia|].
  remember (Node ll a lr) as l eqn:Hl'; clear Hl' ll a lr.
  destruct r as [|rl b rr]; [by eapply del1_bal; [done| |exact Hc]; simpl; lia|].
  destruct (leftmost _ _ _ _) as [[v rv] c'] eqn:Hlm.
  destruct (leftmost_spec _ _ _ _ _ _ _ Hlm) as (Hp & _).
  cbn [plug fill] in Hp. rewrite <-Hp in Hb'. apply bal_plug in Hb' as [(_ & Hrv & _) Hc'].
  apply bal_ren. eapply del1_bal; [done| |exact Hc']. pose proof (ht_nonneg rv). simpl. lia.
Qed.

(** ** Ranks *)

(** The element of in-order position [j]; [None] outside the list. *)
Definition nth_z (xs : list ptr) (j : Z) : option ptr :=
  if decide (0 <= j) then xs !! Z.to_nat j else None.

Definition crank (c : ctx) : Z := Z.of_nat (length (cleft c)).

Lemma crank_FL a s c : crank (FL a s :: c) = crank c.
Proof. unfold crank. cbn [cleft flft]. by rewrite app_nil_r. Qed.
Lemma crank_FR s a c : crank (FR s a :: c) = crank c + sz s + 1.
Proof. unfold crank. cbn [cleft flft]. rewrite sz_elems, !length_app. simpl. lia. Qed.

Lemma nth_z_plug l a r c :
  nth_z (elems (plug (Node l a r) c)) (crank c + sz l) = Some a.
Proof.
  unfold nth_z, crank. pose proof (sz_nonneg l). rewrite decide_True by lia.
  rewrite elems_plug, sz_elems. cbn [elems]. rewrite <-app_assoc, app_assoc. cbn [app].
  rewrite lookup_app_r by (rewrite length_app; lia).
  rewrite length_app. replace (_ - _)%nat with 0%nat by lia. done.
Qed.

Lemma sz_plug_crank t c : crank c + sz t <= sz (plug t c).
Proof. unfold crank. rewrite !sz_elems, elems_plug, !length_app. lia. Qed.

Lemma depth_ht t c : Z.of_nat (length c) + ht t <= ht (plug t c).
Proof.
  revert t. induction c as [|f c IH]; intros t; cbn [plug length]; [lia|].
  specialize (IH (fill f t)). destruct f; simpl in *; lia.
Qed.

Lemma nth_z_inv t i x :
  elems t !! i = Some x → ∃ l r c, t = plug (Node l x r) c ∧ crank c + sz l = Z.of_nat i.
Proof.
  revert i. induction t as [|l IHl a r IHr]; intros i; cbn [elems]; [done|].
  intros [H|[Hi H]]%lookup_app_Some.
  - destruct (IHl _ H) as (l' & r' & c & -> & E). exists l', r', (c ++ [FL a r]).
    rewrite plug_app. split; [done|]. rewrite <-E. unfold crank. f_equal.
    clear. f_equal. induction c as [|f c IH]; cbn; [done|]. by rewrite !length_app, IH.
  - destruct (i - length (elems l))%nat as [|k] eqn:Hk.
    + injection H as ->. exists l, r, []. split; [done|]. unfold crank. rewrite sz_elems. simpl. lia.
    + cbn in H. destruct (IHr _ H) as (l' & r' & c & -> & E). exists l', r', (c ++ [FR l a]).
      rewrite plug_app. split; [done|].
      assert (∀ c, length (cleft (c ++ [FR l a])) = (length (elems l) + 1 + length (cleft c))%nat) as E2.
      { clear. induction c as [|f c IH]; cbn; rewrite ?length_app in *; simpl in *; lia. }
      unfold crank in *. rewrite E2. lia.
Qed.
