(* ===== verification/AvlRefine.v ===== *)
(** The pointer code of AvlTree.v refines the functional tree of AvlModel.v:
    every function, run from a store that represents a tree, ends without an
    invalid access, and the store it leaves represents the result of the
    functional operation; nodes outside the tree are untouched. *)
From S2P Require Import Prelude AvlTree AvlModel.

(** ** Representation *)
Fixpoint rep (σ : avl_store) (par : option ptr) (t : tree) : Prop :=
  match t with
  | Leaf => True
  | Node l a r =>
      σ !! a = Some (mkAVLNode par (root l) (root r) (ht t) (sz t)) ∧
      rep σ (Some a) l ∧ rep σ (Some a) r
  end.

(** As [rep], but the statistics of the root node may be out of date. *)
Definition rep_stale (σ : avl_store) (par : option ptr) (l : tree) (a : ptr) (r : tree) : Prop :=
  (∃ h n, σ !! a = Some (mkAVLNode par (root l) (root r) h n)) ∧
  rep σ (Some a) l ∧ rep σ (Some a) r.

Definition fnode (f : frame) (par hole : option ptr) (h n : Z) : AVLNode :=
  match f with
  | FL _ r => mkAVLNode par hole (root r) h n
  | FR l _ => mkAVLNode par (root l) hole h n
  end.

(** A context whose hole is linked to [hole]; the statistics of the ancestors
    may be out of date, as they are while [avl_fix_tree] climbs. *)
Fixpoint crep (σ : avl_store) (hole : option ptr) (c : ctx) : Prop :=
  match c with
  | [] => True
  | f :: c =>
      (∃ h n, σ !! faddr f = Some (fnode f (caddr c) hole h n)) ∧
      rep σ (Some (faddr f)) (sib f) ∧ crep σ (Some (faddr f)) c
  end.

(** The nodes outside [xs] are the same in both stores. *)
Definition same_outside (xs : list ptr) (σ σ' : avl_store) : Prop :=
  ∀ x, x ∉ xs → σ' !! x = σ !! x.
(** The nodes of [xs] are the same in both stores. *)
Definition same_on (xs : list ptr) (σ σ' : avl_store) : Prop :=
  ∀ x, x ∈ xs → σ' !! x = σ !! x.

Lemma rep_frame σ σ' par t : same_on (elems t) σ σ' → rep σ par t → rep σ' par t.
Proof.
  revert par. induction t as [|l IHl a r IHr]; intros par Hs; simpl; [done|].
  intros (Ha & Hl & Hr). repeat split.
  - rewrite Hs; [done|]. simpl. set_solver.
  - apply IHl; [|done]. intros x Hx. apply Hs. simpl. set_solver.
  - apply IHr; [|done]. intros x Hx. apply Hs. simpl. set_solver.
Qed.

Lemma crep_frame σ σ' hole c : same_on (celems c) σ σ' → crep σ hole c → crep σ' hole c.
Proof.
  revert hole. induction c as [|f c IH]; intros hole Hs; simpl; [done|].
  intros ((h & n & Hf) & Hr & Hc). cbn [celems] in Hs. split_and!.
  - exists h, n. rewrite Hs; [done|]. by left.
  - eapply rep_frame; [|exact Hr]. intros x Hx. apply Hs. right. apply elem_of_app. by left.
  - apply IH; [|done]. intros x Hx. apply Hs. right. apply elem_of_app. by right.
Qed.

Lemma rep_same_root σ par t a : rep σ par t → root t = Some a → ∃ n, σ !! a = Some n ∧ parent n = par.
Proof. destruct t; simpl; [done|]. intros [H _] [= ->]. eauto. Qed.

(** ** Statistics *)
Lemma wp_avl_height σ par t (Q : Z → avl_store → Prop) :
  rep σ par t → Q (ht t) σ → wp (avl_height (root t)) Q σ.
Proof.
  intros Hr HQ. destruct t as [|l a r]; [done|]. destruct Hr as [Ha _].
  apply wp_bind. eapply wp_load; [exact Ha|]. done.
Qed.
Lemma wp_avl_cnt σ par t (Q : Z → avl_store → Prop) :
  rep σ par t → Q (sz t) σ → wp (avl_cnt (root t)) Q σ.
Proof.
  intros Hr HQ. destruct t as [|l a r]; [done|]. destruct Hr as [Ha _].
  apply wp_bind. eapply wp_load; [exact Ha|]. done.
Qed.

Lemma run_height σ par t : rep σ par t → avl_height (root t) σ = Done (ht t, σ).
Proof. intros Hr. pose proof (wp_avl_height σ par t (λ h σ', h = ht t ∧ σ' = σ) Hr) as H. by apply wp_inv in H as (h & σ' & Hrun & -> & ->). Qed.

Lemma max_Zmax x y : max x y = Z.max x y.
Proof. unfold max. rewrite Z.gtb_ltb. destruct (Z.ltb_spec y x); lia. Qed.

(** The tree fits: its statistics, and a height plus two, fit 32 bits. *)
Definition fits (t : tree) : Prop := sz t + 2 < 2 ^ 32.

Lemma wp_avl_update_stats σ par l a r h n (Q : () → avl_store → Prop) :
  σ !! a = Some (mkAVLNode par (root l) (root r) h n) →
  (∃ p, rep σ p l) → (∃ p, rep σ p r) → fits (Node l a r) →
  Q () (<[a := mkAVLNode par (root l) (root r) (ht (Node l a r)) (sz (Node l a r))]> σ) →
  wp (avl_update_stats a) Q σ.
Proof.
  intros Ha [pl Hl] [pr Hr] Hf HQ. unfold avl_update_stats.
  apply wp_bind. eapply wp_load; [exact Ha|]. cbn [left right].
  apply wp_bind. eapply wp_avl_height; [exact Hl|].
  apply wp_bind. eapply wp_avl_height; [exact Hr|].
  apply wp_bind. eapply wp_avl_cnt; [exact Hl|].
  apply wp_bind. eapply wp_avl_cnt; [exact Hr|].
  eapply wp_modify; [exact Ha|]. unfold set_stats; cbn [parent left right].
  unfold fits in Hf. cbn [ht sz] in *.
  pose proof (ht_le_sz l). pose proof (ht_le_sz r).
  pose proof (ht_nonneg l). pose proof (ht_nonneg r).
  rewrite max_Zmax, !u32_id by lia. exact HQ.
Qed.

Lemma wp_set_parent_opt σ p p' t (Q : () → avl_store → Prop) :
  rep σ p t → NoDup (elems t) →
  (∀ σ', rep σ' p' t → same_outside (elems t) σ σ' → Q () σ') →
  wp (set_parent_opt (root t) p') Q σ.
Proof.
  intros Hr Hnd HQ. destruct t as [|l a r]; [apply (HQ σ); done|].
  destruct Hr as (Ha & Hl & Hr). eapply wp_modify; [exact Ha|].
  simpl in Hnd. rewrite NoDup_app, NoDup_cons in Hnd.
  destruct Hnd as (? & Hnd & ? & ?).
  apply HQ; [repeat split|].
  - rewrite lookup_insert_eq. done.
  - eapply rep_frame; [|exact Hl]. intros x Hx. rewrite lookup_insert_ne; [done|].
    intros ->. set_solver.
  - eapply rep_frame; [|exact Hr]. intros x Hx. rewrite lookup_insert_ne; [done|].
    intros ->. set_solver.
  - intros x Hx. rewrite lookup_insert_ne; [done|]. simpl in Hx. set_solver.
Qed.

(** ** Tactics *)
(** Split a [NoDup] of in-order contents into membership facts. *)
Ltac nodup :=
  repeat match goal with
  | H : NoDup (elems (Node _ _ _)) |- _ => apply nodup_node in H; destruct_and? H
  | H : NoDup (elems (plug _ _)) |- _ => apply nodup_plug in H; destruct_and? H
  | H : NoDup (celems (_ :: _)) |- _ =>
      apply nodup_ctx in H; destruct_and? H; cbn [sib faddr] in *
  | H : disj (elems (Node _ _ _)) _ |- _ => apply disj_node_l in H; destruct_and? H
  | H : disj _ (elems (Node _ _ _)) |- _ => apply disj_node_r in H; destruct_and? H
  | H : disj _ (celems (_ :: _)) |- _ =>
      cbn [celems] in H; apply disj_cons_r in H; destruct_and? H
  | H : disj _ (_ ++ _) |- _ => apply disj_app_r in H; destruct_and? H
  | H : _ ∉ elems (Node _ _ _) |- _ => apply not_elem_node in H; destruct_and? H
  | H : _ ∉ celems (_ :: _) |- _ =>
      cbn [celems] in H; apply not_elem_of_cons in H; destruct_and? H
  | H : _ ∉ _ ++ _ |- _ => apply not_elem_of_app in H; destruct_and? H
  end.

(** Solve [x ≠ a] and [x ∉ xs] from the facts [nodup] leaves. *)
Ltac fresh_tac :=
  let H := fresh in
  first
    [ done | congruence
    | intros H; first [subst; contradiction | match goal with D : disj _ _ |- _ => solve [eapply D; eassumption] end]
    | intros ->; contradiction ].

(** Solve a lookup through a stack of updates. *)
Ltac lookup_tac :=
  repeat first
    [ eassumption
    | rewrite lookup_insert_eq; reflexivity
    | rewrite lookup_insert_ne by fresh_tac ].

(** One step of symbolic execution through a load or a store. *)
Ltac avl_step :=
  lazymatch goal with
  | |- wp (mbind _ _) _ _ => apply wp_bind
  | |- wp (load _) _ _ => eapply wp_load; [solve [lookup_tac]|]
  | |- wp (modify _ _) _ _ => eapply wp_modify; [solve [lookup_tac]|]
  | |- wp (deref _) _ _ => eapply wp_deref; [reflexivity|]
  | |- wp (mret _) _ _ => apply wp_ret
  | |- wp (avl_height _) _ _ => eapply wp_avl_height; [eassumption|]
  | |- wp (avl_cnt _) _ _ => eapply wp_avl_cnt; [eassumption|]
  end; cbn [parent left right height cnt set_parent set_left set_right set_stats].

Ltac outside_tac :=
  repeat first
    [ rewrite lookup_insert_ne by fresh_tac
    | match goal with
      | H : same_outside _ _ ?s |- context [?s !! _] => rewrite H by fresh_tac
      end ];
  try reflexivity.

(** A representation survives updates of nodes outside the tree. *)
Ltac frame_tac :=
  eapply rep_frame; [|eassumption];
  let x := fresh "x" in let Hx := fresh "Hx" in
  intros x Hx; outside_tac.

(** ** Rotations *)
Lemma rot_left_spec σ par pb h1 n1 h2 n2 l a rl b rr :
  σ !! a = Some (mkAVLNode par (root l) (Some b) h1 n1) →
  σ !! b = Some (mkAVLNode pb (root rl) (root rr) h2 n2) →
  rep σ (Some a) l → rep σ (Some b) rl → rep σ (Some b) rr →
  NoDup (elems (Node l a (Node rl b rr))) →
  fits (Node l a (Node rl b rr)) →
  wp (rot_left a) (λ res σ',
      res = b ∧ rep σ' par (Node (Node l a rl) b rr) ∧
      same_outside (elems (Node l a (Node rl b rr))) σ σ') σ.
Proof.
  intros Ha Hb Hl Hrl Hrr Hnd Hf.
  nodup. unfold fits in Hf. cbn [sz] in Hf. unfold rot_left.
  pose proof (sz_nonneg l); pose proof (sz_nonneg rl); pose proof (sz_nonneg rr).
  do 6 avl_step. do 3 avl_step.
  eapply (wp_set_parent_opt _ (Some b)); [frame_tac|done|].
  intros σ2 Hrl2 Hs2.
  assert (σ2 !! a = Some (mkAVLNode par (root l) (root rl) h1 n1)) as Ha2
    by (rewrite Hs2 by fresh_tac; lookup_tac).
  assert (σ2 !! b = Some (mkAVLNode pb (root rl) (root rr) h2 n2)) as Hb2
    by (rewrite Hs2 by fresh_tac; lookup_tac).
  do 6 avl_step.
  apply wp_bind. eapply wp_avl_update_stats;
    [lookup_tac|eexists; frame_tac|eexists; frame_tac|unfold fits; cbn [sz]; lia|].
  apply wp_bind. eapply (wp_avl_update_stats _ _ (Node l a rl) b rr);
    [lookup_tac| |eexists; frame_tac|unfold fits; cbn [sz]; lia|].
  { exists (Some b). split; [lookup_tac|split; frame_tac]. }
  apply wp_ret. split; [done|]. repeat split; [lookup_tac|lookup_tac|frame_tac|frame_tac|frame_tac|].
  intros x Hx. nodup. outside_tac.
Qed.

Lemma rot_right_spec σ par pb h1 n1 h2 n2 ll b lr a r :
  σ !! a = Some (mkAVLNode par (Some b) (root r) h1 n1) →
  σ !! b = Some (mkAVLNode pb (root ll) (root lr) h2 n2) →
  rep σ (Some b) ll → rep σ (Some b) lr → rep σ (Some a) r →
  NoDup (elems (Node (Node ll b lr) a r)) →
  fits (Node (Node ll b lr) a r) →
  wp (rot_right a) (λ res σ',
      res = b ∧ rep σ' par (Node ll b (Node lr a r)) ∧
      same_outside (elems (Node (Node ll b lr) a r)) σ σ') σ.
Proof.
  intros Ha Hb Hll Hlr Hr Hnd Hf.
  nodup. unfold fits in Hf. cbn [sz] in Hf. unfold rot_right.
  pose proof (sz_nonneg ll); pose proof (sz_nonneg lr); pose proof (sz_nonneg r).
  do 6 avl_step. do 3 avl_step.
  eapply (wp_set_parent_opt _ (Some b)); [frame_tac|done|].
  intros σ2 Hlr2 Hs2.
  assert (σ2 !! a = Some (mkAVLNode par (root lr) (root r) h1 n1)) as Ha2
    by (rewrite Hs2 by fresh_tac; lookup_tac).
  assert (σ2 !! b = Some (mkAVLNode pb (root ll) (root lr) h2 n2)) as Hb2
    by (rewrite Hs2 by fresh_tac; lookup_tac).
  do 6 avl_step.
  apply wp_bind. eapply wp_avl_update_stats;
    [lookup_tac|eexists; frame_tac|eexists; frame_tac|unfold fits; cbn [sz]; lia|].
  apply wp_bind. eapply (wp_avl_update_stats _ _ ll b (Node lr a r));
    [lookup_tac|eexists; frame_tac| |unfold fits; cbn [sz]; lia|].
  { exists (Some b). split; [lookup_tac|split; frame_tac]. }
  apply wp_ret. split; [done|]. repeat split; [lookup_tac|frame_tac|lookup_tac|frame_tac|frame_tac|].
  intros x Hx. nodup. outside_tac.
Qed.

(** ** Fixing an imbalance of two *)
Lemma avl_fix_left_spec σ par ll b lr a r :
  rep_stale σ par (Node ll b lr) a r →
  NoDup (elems (Node (Node ll b lr) a r)) →
  fits (Node (Node ll b lr) a r) →
  wp (avl_fix_left a) (λ res σ',
      Some res = root (fixl (Node (Node ll b lr) a r)) ∧
      rep σ' par (fixl (Node (Node ll b lr) a r)) ∧
      same_outside (elems (Node (Node ll b lr) a r)) σ σ') σ.
Proof.
  intros ((h & n & Ha) & (Hb & Hll & Hlr) & Hr) Hnd Hf.
  unfold avl_fix_left. do 11 avl_step.
  cbn [fixl]. case_match eqn:Hlt.
  - destruct lr as [|rl c rr].
    { pose proof (ht_nonneg ll). apply Z.ltb_lt in Hlt. simpl in Hlt. lia. }
    destruct Hlr as (Hc & Hrl & Hrr). avl_step.
    assert (fits (Node ll b (Node rl c rr))).
    { unfold fits in *. cbn [sz] in *. pose proof (sz_nonneg r). lia. }
    assert (NoDup (elems (Node ll b (Node rl c rr)))) by (apply nodup_node in Hnd; tauto).
    eapply wp_mono; [by eapply rot_left_spec|].
    intros ? σ1 (-> & (Hc1 & (Hb1 & Hll1 & Hrl1) & Hrr1) & Hs1).
    assert (elems (Node (Node (Node ll b rl) c rr) a r) = elems (Node (Node ll b (Node rl c rr)) a r)) as He
      by exact (f_equal (λ xs, xs ++ a :: elems r) (elems_rotl (Node ll b (Node rl c rr)))).
    assert (id (NoDup (elems (Node (Node ll b (Node rl c rr)) a r)))) as Hnd' by exact Hnd.
    nodup.
    assert (σ1 !! a = Some (mkAVLNode par (Some b) (root r) h n)) as Ha1
      by (rewrite Hs1; [exact Ha|rewrite !not_elem_node; tauto]).
    avl_step.
    eapply wp_mono; [eapply rot_right_spec with (ll := Node ll b rl) (b := c) (lr := rr) (r := r)|].
    + lookup_tac.
    + lookup_tac.
    + split; [lookup_tac|split; frame_tac].
    + frame_tac.
    + eapply rep_frame; [|exact Hr]. intros x Hx. outside_tac.
      apply Hs1. rewrite !not_elem_node. split_and!; fresh_tac.
    + rewrite He. exact Hnd'.
    + unfold fits in *. cbn [sz] in *. lia.
    + intros res σ' (-> & Hrep & Hs2). split_and!; [done|done|].
      intros x Hx. rewrite Hs2 by (by rewrite He). nodup. outside_tac.
      apply Hs1. rewrite !not_elem_node. tauto.
  - avl_step. eapply wp_mono; [by eapply rot_right_spec|].
    intros res σ' (-> & ? & ?). done.
Qed.

Lemma avl_fix_right_spec σ par l a rl b rr :
  rep_stale σ par l a (Node rl b rr) →
  NoDup (elems (Node l a (Node rl b rr))) →
  fits (Node l a (Node rl b rr)) →
  wp (avl_fix_right a) (λ res σ',
      Some res = root (fixr (Node l a (Node rl b rr))) ∧
      rep σ' par (fixr (Node l a (Node rl b rr))) ∧
      same_outside (elems (Node l a (Node rl b rr))) σ σ') σ.
Proof.
  intros ((h & n & Ha) & Hl & (Hb & Hrl & Hrr)) Hnd Hf.
  unfold avl_fix_right. do 11 avl_step.
  cbn [fixr]. case_match eqn:Hlt.
  - destruct rl as [|ll c lr].
    { pose proof (ht_nonneg rr). apply Z.ltb_lt in Hlt. simpl in Hlt. lia. }
    destruct Hrl as (Hc & Hll & Hlr). avl_step.
    assert (fits (Node (Node ll c lr) b rr)).
    { unfold fits in *. cbn [sz] in *. pose proof (sz_nonneg l). lia. }
    assert (NoDup (elems (Node (Node ll c lr) b rr))) by (apply nodup_node in Hnd; tauto).
    eapply wp_mono; [by eapply rot_right_spec|].
    intros ? σ1 (-> & (Hc1 & Hll1 & (Hb1 & Hlr1 & Hrr1)) & Hs1).
    cbn [rotr].
    assert (elems (Node l a (Node ll c (Node lr b rr))) = elems (Node l a (Node (Node ll c lr) b rr))) as He
      by exact (f_equal (λ xs, elems l ++ a :: xs) (elems_rotr (Node (Node ll c lr) b rr))).
    assert (id (NoDup (elems (Node l a (Node (Node ll c lr) b rr))))) as Hnd' by exact Hnd.
    nodup.
    assert (σ1 !! a = Some (mkAVLNode par (root l) (Some b) h n)) as Ha1
      by (rewrite Hs1; [exact Ha|rewrite !not_elem_node; tauto]).
    avl_step.
    eapply wp_mono; [eapply rot_left_spec with (rl := ll) (b := c) (rr := Node lr b rr) (l := l)|].
    + lookup_tac.
    + lookup_tac.
    + eapply rep_frame; [|exact Hl]. intros x Hx. outside_tac.
      apply Hs1. rewrite !not_elem_node. split_and!; fresh_tac.
    + frame_tac.
    + split; [lookup_tac|split; frame_tac].
    + rewrite He. exact Hnd'.
    + unfold fits in *. cbn [sz] in *. lia.
    + intros res σ' (-> & Hrep & Hs2). split_and!; [done|done|].
      intros x Hx. rewrite Hs2 by (by rewrite He). nodup. outside_tac.
      apply Hs1. rewrite !not_elem_node. tauto.
  - avl_step. eapply wp_mono; [by eapply rot_left_spec|].
    intros res σ' (-> & ? & ?). done.
Qed.

(** ** Slots and contexts *)
Definition slot_of (c : ctx) : avl_slot :=
  match c with [] => SlotVar | FL p _ :: _ => SlotLeft p | FR _ p :: _ => SlotRight p end.
Definition cnode (c : ctx) : list ptr :=
  match c with [] => [] | f :: _ => [faddr f] end.

Lemma child_slot_spec σ f c a (Q : avl_slot → avl_store → Prop) :
  crep σ (Some a) (f :: c) → a ∉ elems (sib f) →
  Q (slot_of (f :: c)) σ → wp (child_slot (faddr f) a) Q σ.
Proof.
  intros ((h & n & Hf) & _) Ha HQ. unfold child_slot. apply wp_bind.
  eapply wp_load; [exact Hf|]. apply wp_ret.
  destruct f as [p s|s p]; cbn [fnode left faddr sib] in *.
  - by rewrite decide_True.
  - rewrite decide_False; [exact HQ|]. destruct s; [done|].
    intros [= ->]. apply Ha. apply elem_node. tauto.
Qed.

Lemma slot_set_spec σ c hole v var (Q : option ptr → avl_store → Prop) :
  crep σ hole c → NoDup (celems c) →
  (∀ σ', crep σ' v c → same_outside (cnode c) σ σ' →
         Q (match c with [] => v | _ => var end) σ') →
  wp (slot_set (slot_of c) v var) Q σ.
Proof.
  intros Hc Hnd HQ. destruct c as [|f c]; [by apply (HQ σ)|].
  destruct Hc as ((h & n & Hf) & Hs & Hc). nodup.
  assert (∀ n', crep (<[faddr f:=n']> σ) (Some (faddr f)) c) as Hc'.
  { intros n'. eapply crep_frame; [|exact Hc]. intros x Hx. outside_tac. }
  assert (∀ n', rep (<[faddr f:=n']> σ) (Some (faddr f)) (sib f)) as Hs' by (intros n'; frame_tac).
  destruct f as [p s|s p]; cbn [slot_of slot_set faddr fnode sib] in *;
    avl_step; avl_step; apply wp_ret; apply HQ.
  1,3: repeat split; [exists h, n; lookup_tac|by apply Hs'|by apply Hc'].
  1,2: intros x Hx; cbn [cnode faddr] in Hx; apply not_elem_of_cons in Hx as [? _]; outside_tac.
Qed.

Lemma link_spec (m : AVL ptr) σ c t t' :
  crep σ (root t) c →
  NoDup (elems (plug t c)) →
  wp m (λ res σ', Some res = root t' ∧ rep σ' (caddr c) t' ∧ same_outside (elems t) σ σ') σ →
  elems t' = elems t →
  wp (b ← m; slot_set (slot_of c) (Some b) (root t)) (λ res σ',
      res = (match c with [] => root t' | _ => root t end) ∧
      rep σ' (caddr c) t' ∧ crep σ' (root t') c ∧
      same_outside (elems t ++ cnode c) σ σ') σ.
Proof.
  intros Hc Hnd Hm He. nodup. apply wp_bind. eapply wp_mono; [exact Hm|].
  intros b σ1 (Hb & Hr & Hs1).
  assert (crep σ1 (root t) c) as Hc1.
  { eapply crep_frame; [|exact Hc]. intros x Hx. apply Hs1. fresh_tac. }
  eapply slot_set_spec; [exact Hc1|done|]. intros σ2 Hc2 Hs2.
  split_and!; [destruct c; congruence| |by rewrite <-Hb|].
  - eapply rep_frame; [|exact Hr]. intros x Hx. apply Hs2. rewrite He in Hx.
    destruct c as [|f c]; cbn [cnode]; [apply not_elem_of_nil|].
    nodup. intros ->%list_elem_of_singleton. contradiction.
  - intros x [? ?]%not_elem_of_app. rewrite Hs2, Hs1; done.
Qed.

Lemma avl_fix_here_spec σ c l a r :
  rep_stale σ (caddr c) l a r → crep σ (Some a) c →
  NoDup (elems (plug (Node l a r) c)) → fits (Node l a r) →
  wp (avl_fix_here a (slot_of c)) (λ res σ',
      res = (match c with [] => root (rebalance (Node l a r)) | _ => Some a end) ∧
      rep σ' (caddr c) (rebalance (Node l a r)) ∧
      crep σ' (root (rebalance (Node l a r))) c ∧
      same_outside (elems (Node l a r) ++ cnode c) σ σ') σ.
Proof.
  intros ((h & n & Ha) & Hl & Hr) Hc Hnd Hf. unfold avl_fix_here.
  apply wp_bind. eapply wp_avl_update_stats; [exact Ha|by eexists|by eexists|done|].
  set (σ1 := <[a:=_]> σ). assert (id (NoDup (elems (plug (Node l a r) c)))) as Hnd' by exact Hnd.
  nodup.
  assert (rep σ1 (Some a) l) as Hl1 by (unfold σ1; frame_tac).
  assert (rep σ1 (Some a) r) as Hr1 by (unfold σ1; frame_tac).
  assert (crep σ1 (Some a) c) as Hc1.
  { eapply crep_frame; [|exact Hc]. intros x Hx. unfold σ1. outside_tac. }
  assert (σ1 !! a = Some (mkAVLNode (caddr c) (root l) (root r) (ht (Node l a r)) (sz (Node l a r))))
    as Ha1 by (unfold σ1; lookup_tac).
  assert (rep_stale σ1 (caddr c) l a r) as Hst by (split; [eauto|done]).
  assert (∀ σ', same_outside (elems (Node l a r) ++ cnode c) σ1 σ' →
                same_outside (elems (Node l a r) ++ cnode c) σ σ') as Hs.
  { intros σ' Hs x Hx. rewrite Hs by done. apply not_elem_of_app in Hx as [Hx _].
    unfold σ1. nodup. outside_tac. }
  clearbody σ1. do 6 avl_step.
  pose proof (ht_le_sz l). pose proof (ht_le_sz r). pose proof (ht_nonneg l). pose proof (ht_nonneg r).
  unfold fits in Hf. cbn [sz] in Hf. rewrite !u32_id by lia.
  unfold rebalance.
  destruct (Z.eqb_spec (ht l) (ht r + 2)) as [E1|E1];
    [|destruct (Z.eqb_spec (ht l + 2) (ht r)) as [E2|E2]].
  - destruct l as [|ll b lr]; [simpl in E1; lia|].
    eapply wp_mono; [eapply (link_spec _ _ _ (Node (Node ll b lr) a r)); [done|exact Hnd'| |apply elems_fixl]|].
    + apply avl_fix_left_spec; [done|by apply nodup_plug in Hnd' as (? & _)|done].
    + cbn. intros res σ' (-> & ? & ? & ?). split_and!; auto.
  - destruct r as [|rl b rr]; [simpl in E2; lia|].
    eapply wp_mono; [eapply (link_spec _ _ _ (Node l a (Node rl b rr))); [done|exact Hnd'| |apply elems_fixr]|].
    + apply avl_fix_right_spec; [done|by apply nodup_plug in Hnd' as (? & _)|done].
    + cbn. intros res σ' (-> & ? & ? & ?). split_and!; auto.
  - apply wp_ret. split_and!; [by destruct c|split_and!; done|done|by apply Hs].
Qed.

(** ** [avl_fix_tree] *)
Lemma celems_length c : Z.of_nat (length c) <= Z.of_nat (length (celems c)).
Proof. induction c as [|f c IH]; simpl; [lia|]. rewrite length_app. lia. Qed.

Lemma fits_focus t c : fits (plug t c) → fits t.
Proof. unfold fits. pose proof (sz_plug_ge t c). lia. Qed.

Lemma rep_stale_root σ par f t :
  rep σ (Some (faddr f)) t →
  rep σ (Some (faddr f)) (sib f) →
  (∃ h n, σ !! faddr f = Some (fnode f par (root t) h n)) →
  match fill f t with Node l b r => b = faddr f ∧ rep_stale σ par l b r | Leaf => False end.
Proof. destruct f; cbn; intros; (split; [done|]); split; auto. Qed.

Lemma avl_fix_loop_spec c : ∀ fuel σ l a r,
  (length c < fuel)%nat →
  rep_stale σ (caddr c) l a r → crep σ (Some a) c →
  NoDup (elems (plug (Node l a r) c)) → fits (plug (Node l a r) c) →
  wp (avl_fix_loop fuel a) (λ res σ',
      res = root (fix_up (Node l a r) c) ∧
      rep σ' None (fix_up (Node l a r) c) ∧
      same_outside (elems (plug (Node l a r) c)) σ σ') σ.
Proof.
  induction c as [|f c IH]; intros fuel σ l a r Hfuel Hst Hc Hnd Hf;
    (destruct fuel as [|fuel]; [simpl in Hfuel; lia|]); cbn [avl_fix_loop].
  - destruct (Hst) as ((h & n & Ha) & _). do 2 avl_step. cbn [caddr]. do 3 avl_step.
    eapply wp_mono; [eapply (avl_fix_here_spec _ []); try done|].
    intros res σ' (-> & Hr & _ & Hs). cbn. rewrite app_nil_r in Hs. done.
  - destruct (Hst) as ((h & n & Ha) & _). avl_step. avl_step. cbn [caddr]. avl_step.
    assert (a ∉ elems (sib f)) as Hasib by (clear - Hnd; nodup; done).
    eapply child_slot_spec; [exact Hc|done|]. avl_step.
    eapply wp_mono; [eapply (avl_fix_here_spec _ (f :: c)); try done; by eapply fits_focus|].
    intros res σ1 (_ & Hr1 & ((h1 & n1 & Hf1) & Hsib1 & Hc1) & Hs1). cbn [caddr] in *.
    pose proof (rep_stale_root σ1 (caddr c) f (rebalance (Node l a r)) Hr1 Hsib1 ltac:(eauto)) as Hst1.
    assert (elems (plug (fill f (rebalance (Node l a r))) c) = elems (plug (Node l a r) (f :: c))) as He.
    { cbn [plug]. by rewrite !elems_plug, !elems_fill, elems_rebalance. }
    assert (sz (plug (fill f (rebalance (Node l a r))) c) = sz (plug (Node l a r) (f :: c))) as Hsz.
    { by rewrite !sz_elems, He. }
    cbn [fix_up].
    destruct (fill f (rebalance (Node l a r))) as [|l' b r'] eqn:Hfill; [done|].
    destruct Hst1 as [-> Hst1].
    eapply wp_mono; [apply (IH fuel σ1 l' (faddr f) r')|].
    + simpl in Hfuel. lia.
    + done.
    + done.
    + by rewrite He.
    + unfold fits. by rewrite Hsz.
    + rewrite He. intros res' σ2 (-> & Hr2 & Hs2). split_and!; [done|done|].
      intros x Hx. rewrite Hs2 by done. apply Hs1.
      rewrite elem_of_plug in Hx. rewrite not_elem_of_app. split; [tauto|].
      cbn [cnode]. intros ->%list_elem_of_singleton. apply Hx. right. by left.
Qed.

(** All the nodes of a represented tree are allocated, so the store is at
    least as large: the fuel computed from the store is enough. *)
Lemma rep_allocated σ par t x : rep σ par t → x ∈ elems t → is_Some (σ !! x).
Proof.
  revert par. induction t as [|l IHl a r IHr]; intros par; [by intros _ ?%not_elem_of_nil|].
  intros (Ha & Hl & Hr) [Hx|[->|Hx]]%elem_node; eauto.
Qed.
Lemma crep_allocated σ hole c x : crep σ hole c → x ∈ celems c → is_Some (σ !! x).
Proof.
  revert hole. induction c as [|f c IH]; intros hole; [by intros _ ?%not_elem_of_nil|].
  intros ((h & n & Hf) & Hs & Hc). cbn [celems].
  intros [->|[Hx|Hx]%elem_of_app]%elem_of_cons; eauto using rep_allocated.
Qed.

Lemma avl_fix_tree_lemma σ c l a r :
  rep_stale σ (caddr c) l a r → crep σ (Some a) c →
  NoDup (elems (plug (Node l a r) c)) → fits (plug (Node l a r) c) →
  wp (avl_fix_tree a) (λ res σ',
      res = root (fix_up (Node l a r) c) ∧
      rep σ' None (fix_up (Node l a r) c) ∧
      same_outside (elems (plug (Node l a r) c)) σ σ') σ.
Proof.
  intros Hst Hc Hnd Hf. unfold avl_fix_tree. apply wp_bind, wp_get.
  apply avl_fix_loop_spec; try done.
  apply nodup_plug in Hnd as (_ & Hnd & _). pose proof (celems_length c).
  pose proof (nodup_size σ (celems c) Hnd (λ x, crep_allocated σ _ c x Hc)). lia.
Qed.

(** ** Singling out a subtree of a represented tree *)

(** As [crep], with the statistics of the ancestors of [t] up to date. *)
Fixpoint crepx (σ : avl_store) (t : tree) (c : ctx) : Prop :=
  match c with
  | [] => True
  | f :: c =>
      σ !! faddr f = Some (fnode f (caddr c) (root t) (ht (fill f t)) (sz (fill f t))) ∧
      rep σ (Some (faddr f)) (sib f) ∧ crepx σ (fill f t) c
  end.

Lemma rep_fill σ par f t :
  rep σ par (fill f t) ↔
  σ !! faddr f = Some (fnode f par (root t) (ht (fill f t)) (sz (fill f t))) ∧
  rep σ (Some (faddr f)) (sib f) ∧ rep σ (Some (faddr f)) t.
Proof. destruct f; cbn; tauto. Qed.

Lemma rep_plug σ t c : rep σ None (plug t c) ↔ rep σ (caddr c) t ∧ crepx σ t c.
Proof.
  revert t. induction c as [|f c IH]; intros t; cbn [plug caddr crepx]; [tauto|].
  rewrite IH, rep_fill. tauto.
Qed.

Lemma root_fill f t : root (fill f t) = Some (faddr f).
Proof. by destruct f. Qed.

Lemma crepx_crep σ t c : crepx σ t c → crep σ (root t) c.
Proof.
  revert t. induction c as [|f c IH]; intros t; cbn [crepx crep]; [done|].
  intros (Hf & Hs & Hc). apply IH in Hc. rewrite root_fill in Hc. eauto.
Qed.

Lemma crepx_frame σ σ' t c : same_on (celems c) σ σ' → crepx σ t c → crepx σ' t c.
Proof.
  revert t. induction c as [|f c IH]; intros t Hs; cbn [crepx celems] in *; [done|].
  intros (Hf & Hr & Hc). split_and!.
  - rewrite Hs; [done|]. by left.
  - eapply rep_frame; [|exact Hr]. intros x Hx. apply Hs. right. apply elem_of_app. by left.
  - apply IH; [|done]. intros x Hx. apply Hs. right. apply elem_of_app. by right.
Qed.

Lemma crepx_stats σ t t' c :
  root t = root t' → ht t = ht t' → sz t = sz t' → crepx σ t c → crepx σ t' c.
Proof.
  revert t t'. induction c as [|f c IH]; intros t t' Hr Hh Hs; cbn [crepx]; [done|].
  assert (ht (fill f t) = ht (fill f t')) as E1 by (destruct f; simpl; congruence).
  assert (sz (fill f t) = sz (fill f t')) as E2 by (destruct f; simpl; congruence).
  rewrite Hr, E1, E2. intros (? & ? & ?). split_and!; [done..|].
  eapply IH; [by rewrite !root_fill|done|done|done].
Qed.

Lemma root_plug t t' f c : root (plug t (f :: c)) = root (plug t' (f :: c)).
Proof.
  revert t t' f. induction c as [|g c IH]; intros t t' f; cbn [plug].
  - by rewrite !root_fill.
  - apply (IH (fill f t) (fill f t') g).
Qed.

(** ** Insertion *)
Lemma avl_descend_spec (less : ptr → ptr → bool) x t : ∀ fuel σ c,
  (length (elems t) ≤ fuel)%nat → rep σ (caddr c) t →
  avl_descend less fuel x (root t) (caddr c) (slot_of c) σ =
  Done ((slot_of (descend (less x) t c), caddr (descend (less x) t c)), σ).
Proof.
  induction t as [|l IHl a r IHr]; intros fuel σ c Hfuel Hrep.
  { by destruct fuel. }
  destruct Hrep as (Ha & Hl & Hr). cbn [elems] in Hfuel. rewrite length_app in Hfuel. simpl in Hfuel.
  destruct fuel as [|fuel]; [lia|]. cbn [avl_descend root descend].
  unfold mbind, M_bind, load. rewrite Ha. cbn [left right].
  destruct (less x a).
  - apply (IHl fuel σ (FL a r :: c)); [lia|done].
  - apply (IHr fuel σ (FR l a :: c)); [lia|done].
Qed.

(** Link a fresh node below the context found by the descent. *)
Lemma link_leaf_spec σ t c x n var (Q : option ptr → avl_store → Prop) :
  plug Leaf c = t → rep σ None t → NoDup (elems t) → x ∉ elems t →
  σ !! x = Some n → left n = None → right n = None →
  (∀ σ', rep_stale σ' (caddr c) Leaf x Leaf → crep σ' (Some x) c →
         same_outside (x :: elems t) σ σ' →
         Q (match c with [] => Some x | _ => var end) σ') →
  wp (slot_set (slot_of c) (Some x) var)
     (λ v, wp (modify x (set_parent (caddr c))) (λ _, Q v)) σ.
Proof.
  intros <- Hrep Hnd Hx Hn Hnl Hnr HQ.
  apply rep_plug in Hrep as [_ Hc%crepx_crep]. nodup. rewrite elem_of_plug in Hx.
  eapply slot_set_spec; [exact Hc|done|]. intros σ1 Hc1 Hs1.
  assert (∀ y, y ∈ cnode c → y ∈ celems c) as Hcn.
  { destruct c; cbn [cnode celems]; [done|]. intros y ->%list_elem_of_singleton. by left. }
  assert (σ1 !! x = Some n) as Hn1 by (rewrite Hs1; [done|]; intros ?; apply Hx; eauto).
  avl_step. apply HQ.
  - split; [|done]. rewrite lookup_insert_eq. destruct n as [pn ln rn hn cn]. cbn in *.
    rewrite Hnl, Hnr. eauto.
  - eapply crep_frame; [|exact Hc1]. intros y Hy. rewrite lookup_insert_ne; [done|].
    intros ->. apply Hx. eauto.
  - intros y [Hy1 Hy2]%not_elem_of_cons. rewrite lookup_insert_ne by done.
    apply Hs1. intros ?. apply Hy2. rewrite elem_of_plug. eauto.
Qed.

Lemma descend_facts p x t :
  NoDup (elems t) → x ∉ elems t → fits (Node t x Leaf) →
  plug Leaf (descend p t []) = t ∧
  NoDup (elems (plug (Node Leaf x Leaf) (descend p t []))) ∧
  fits (plug (Node Leaf x Leaf) (descend p t [])) ∧
  (∀ y, y ∉ x :: elems t → y ∉ elems (plug (Node Leaf x Leaf) (descend p t []))).
Proof.
  intros Hnd Hx Hf.
  assert (elems (plug (Node Leaf x Leaf) (descend p t [])) ≡ₚ x :: elems t) as He.
  { rewrite <-(elems_fix_up _ (descend p t [])). apply ins_elems_perm. }
  split_and!.
  - apply plug_descend.
  - rewrite He. by constructor.
  - unfold fits in *. rewrite sz_elems in *. rewrite He. cbn [elems] in Hf.
    rewrite length_app in Hf. simpl in *. lia.
  - intros y. by rewrite He.
Qed.

Lemma avl_search_and_insert_lemma (less : ptr → ptr → bool) σ t x n :
  rep σ None t → NoDup (elems t) → x ∉ elems t →
  σ !! x = Some n → left n = None → right n = None → fits (Node t x Leaf) →
  wp (avl_search_and_insert less (root t) x) (λ res σ',
      res = (match t with Leaf => Some x | _ => root t end) ∧
      rep σ' None (ins (less x) x t) ∧ same_outside (x :: elems t) σ σ') σ.
Proof.
  intros Hrep Hnd Hx Hn Hnl Hnr Hf.
  destruct (descend_facts (less x) x t Hnd Hx Hf) as (Hp & Hnd' & Hf' & Hout).
  unfold avl_search_and_insert. apply wp_bind, wp_get, wp_bind.
  eapply wp_done; [apply (avl_descend_spec less x t _ σ []); [|done]|].
  { apply nodup_size; [done|]. intros y. by apply (rep_allocated σ None). }
  cbn beta iota. apply wp_bind.
  eapply wp_mono; [eapply link_leaf_spec; try done|].
  2: { intros v σ1 H. apply wp_bind. exact H. }
  intros σ1 Hst Hc Hs1. apply wp_bind.
  eapply wp_mono; [by eapply avl_fix_tree_lemma|].
  intros res σ2 (_ & Hr2 & Hs2). apply wp_ret. split_and!; [|done|].
  - destruct t as [|l a r]; [done|]. destruct (descend (less x) (Node l a r) []); [|done].
    discriminate Hp.
  - intros y Hy. rewrite Hs2 by auto. by apply Hs1.
Qed.

(** ** Deletion *)
Lemma sz_del1_fits child l x r c :
  sz child < sz (Node l x r) → fits (plug (Node l x r) c) → fits (plug child c).
Proof.
  unfold fits. rewrite !sz_elems, !elems_plug, !length_app. lia.
Qed.

Lemma avl_delete_one_child_lemma σ l x r c :
  l = Leaf ∨ r = Leaf →
  rep σ None (plug (Node l x r) c) → NoDup (elems (plug (Node l x r) c)) →
  fits (plug (Node l x r) c) →
  let child := match l with Leaf => r | _ => l end in
  wp (avl_delete_one_child x) (λ res σ',
      res = root (del1 child c) ∧ rep σ' None (del1 child c) ∧
      same_outside (elems (del1 child c)) σ σ') σ.
Proof.
  intros Hlr Hrep Hnd Hf child. assert (Hrep' := Hrep).
  apply rep_plug in Hrep as [(Hx & Hl & Hr) Hc%crepx_crep].
  assert (rep σ (Some x) child ∧ NoDup (elems child) ∧ disj (elems child) (celems c) ∧
          x ∉ elems child ∧ x ∉ celems c ∧ NoDup (celems c) ∧
          match root l with Some l => Some l | None => root r end = root child ∧
          fits (plug child c)) as (Hch & Hndc & Hdc & Hxc & Hxcc & Hndcc & Hroot & Hfc).
  { assert (fits (plug child c)) as ?.
    { eapply sz_del1_fits; [|exact Hf]. pose proof (sz_nonneg l). pose proof (sz_nonneg r).
      unfold child. destruct l; simpl in *; lia. }
    nodup. unfold child. by destruct l. }
  unfold avl_delete_one_child. do 2 avl_step. apply wp_bind. apply wp_assert.
  { destruct Hlr as [->| ->]; simpl; [done|]. by rewrite orb_true_r. }
  cbn [root]. rewrite Hroot. apply wp_bind.
  eapply wp_set_parent_opt; [exact Hch|done|]. intros σ1 Hch1 Hs1.
  destruct c as [|f c].
  { apply wp_ret. cbn [del1]. auto. }
  assert (crep σ1 (Some x) (f :: c)) as Hc1.
  { eapply crep_frame; [|exact Hc]. intros y Hy. apply Hs1. intros ?. by apply (Hdc y). }
  cbn [caddr del1]. apply wp_bind. cbn [celems] in Hxcc.
  apply not_elem_of_cons in Hxcc as [? [? ?]%not_elem_of_app].
  eapply child_slot_spec; [exact Hc1|done|]. apply wp_bind.
  eapply slot_set_spec; [exact Hc1|done|]. intros σ2 ((h & n & Hf2) & Hsib2 & Hc2) Hs2.
  assert (faddr f ∉ elems child) as Hfch by (intros ?; apply (Hdc (faddr f)); [done|by left]).
  assert (rep σ2 (Some (faddr f)) child) as Hch2.
  { eapply rep_frame; [|exact Hch1]. intros y Hy. apply Hs2. cbn [cnode].
    intros ->%list_elem_of_singleton. contradiction. }
  pose proof (rep_stale_root σ2 (caddr c) f child Hch2 Hsib2 ltac:(eauto)) as Hst.
  assert (NoDup (elems (plug child (f :: c)))) as Hnd2 by (by apply nodup_plug).
  cbn [plug] in *. destruct (fill f child) as [|l' b r'] eqn:Hfill; [done|].
  destruct Hst as [-> Hst].
  eapply wp_mono; [by apply (avl_fix_tree_lemma σ2 c l' (faddr f) r')|].
  intros res σ3 (-> & Hr3 & Hs3). split_and!; [done|done|].
  intros y Hy. rewrite elems_fix_up in Hy. rewrite Hs3 by done.
  rewrite <-Hfill in Hy. change (plug (fill f child) c) with (plug child (f :: c)) in Hy.
  rewrite elem_of_plug in Hy.
  rewrite Hs2, Hs1; [done|tauto|]. cbn [cnode].
  intros ->%list_elem_of_singleton. apply Hy. right. by left.
Qed.

Lemma avl_leftmost_spec σ l : ∀ a r c fuel par,
  (length (elems (Node l a r)) ≤ fuel)%nat → rep σ par (Node l a r) →
  avl_leftmost fuel a σ = Done ((leftmost l a r c).1.1, σ).
Proof.
  induction l as [|ll IHl b lr _]; intros a r c fuel par Hfuel (Ha & Hl & Hr);
    cbn [elems] in Hfuel; rewrite !length_app in Hfuel; simpl in Hfuel;
    (destruct fuel as [|fuel]; [lia|]);
    cbn [avl_leftmost]; unfold mbind, M_bind, load; rewrite Ha; cbn [left root leftmost]; [done|].
  apply (IHl b lr (FL a r :: c) fuel (Some a)); [|done].
  cbn [elems]. rewrite length_app. simpl. lia.
Qed.

(** Storing a subtree with the same statistics keeps the context exact. *)
Lemma slot_set_exact σ f c t t' var (Q : option ptr → avl_store → Prop) :
  crepx σ t (f :: c) → ht t' = ht t → sz t' = sz t → NoDup (celems (f :: c)) →
  (∀ σ', crepx σ' t' (f :: c) → same_outside [faddr f] σ σ' → Q var σ') →
  wp (slot_set (slot_of (f :: c)) (root t') var) Q σ.
Proof.
  intros (Hf & Hs & Hc) Hh Hz Hnd HQ. nodup.
  set (n' := fnode f (caddr c) (root t') (ht (fill f t')) (sz (fill f t'))).
  assert (fnode f (caddr c) (root t) (ht (fill f t)) (sz (fill f t)) =
          fnode f (caddr c) (root t) (ht (fill f t')) (sz (fill f t'))) as E
    by (destruct f; simpl; congruence).
  rewrite E in Hf.
  assert (crepx (<[faddr f := n']> σ) t' (f :: c)) as Hc'.
  { split_and!; [by rewrite lookup_insert_eq|frame_tac|].
    eapply crepx_stats; [| | |eapply crepx_frame; [|exact Hc]].
    - by rewrite !root_fill.
    - destruct f; simpl; congruence.
    - destruct f; simpl; congruence.
    - intros y Hy. outside_tac. }
  assert (Q var (<[faddr f := n']> σ)) as HQ'.
  { apply HQ; [exact Hc'|]. intros y [? _]%not_elem_of_cons. by rewrite lookup_insert_ne. }
  destruct f; cbn [slot_of slot_set faddr] in *;
    (apply wp_bind; eapply wp_modify; [exact Hf|]; apply wp_ret; exact HQ').
Qed.

(** [v] takes over the links of [x] and of the neighbours of [x]. *)
Lemma avl_replace_lemma σ l x r c v nv root1 :
  rep σ None (plug (Node l x r) c) → NoDup (elems (plug (Node l x r) c)) →
  v ∉ elems (plug (Node l x r) c) → σ !! v = Some nv →
  root1 = root (plug (Node l x r) c) →
  wp (n ← load x;
      modify v (λ _, n);;
      set_parent_opt (left n) (Some v);;
      set_parent_opt (right n) (Some v);;
      n ← load x;
      from ← (match parent n with Some p => child_slot p x | None => mret SlotVar end);
      slot_set from (Some v) root1)
    (λ res σ', res = root (plug (Node l v r) c) ∧ rep σ' None (plug (Node l v r) c) ∧
       same_outside (v :: elems (plug (Node l x r) c)) σ σ' ∧ is_Some (σ' !! x)) σ.
Proof.
  intros Hrep Hnd Hv Hnv ->.
  apply rep_plug in Hrep as [(Hx & Hl & Hr) Hc]. rewrite elem_of_plug, elem_node in Hv.
  nodup. assert (v ≠ x ∧ v ∉ elems l ∧ v ∉ elems r ∧ v ∉ celems c) as (Hvx & Hvl & Hvr & Hvc)
    by (split_and!; intros ?; apply Hv; auto). clear Hv.
  do 4 avl_step. avl_step. eapply (wp_set_parent_opt _ (Some x)); [frame_tac|done|].
  intros σ2 Hl2 Hs2. avl_step. eapply (wp_set_parent_opt _ (Some x)); [frame_tac|done|].
  intros σ3 Hr3 Hs3.
  assert (∀ y, y ∉ elems l → y ∉ elems r → y ≠ v → σ3 !! y = σ !! y) as Hout.
  { intros y ???. rewrite Hs3, Hs2 by done. by rewrite lookup_insert_ne. }
  assert (σ3 !! x = σ !! x) as Hx3 by (apply Hout; congruence).
  rewrite Hx in Hx3. do 3 avl_step.
  assert (crepx σ3 (Node l x r) c) as Hc3.
  { eapply crepx_frame; [|exact Hc]. intros y Hy. apply Hout; fresh_tac. }
  assert (rep σ3 (caddr c) (Node l v r)) as Hv3.
  { split_and!; [|frame_tac|done].
    rewrite Hs3, Hs2 by done. by rewrite lookup_insert_eq. }
  destruct c as [|f c].
  { cbn [caddr slot_set plug]. avl_step. split_and!; [done|done| |eauto].
    intros y (? & Hy)%not_elem_of_cons. cbn [plug] in Hy. nodup. by apply Hout. }
  cbn [caddr].
  eapply child_slot_spec; [exact (crepx_crep _ _ _ Hc3)|by nodup|].
  change (Some v) with (root (Node l v r)).
  eapply (slot_set_exact _ _ _ (Node l x r)); [done..|]. intros σ4 Hc4 Hs4. nodup.
  split_and!; [apply root_plug| | |].
  - apply rep_plug. split; [|done]. eapply rep_frame; [|exact Hv3].
    intros y Hy. apply Hs4. apply elem_node in Hy.
    intros ->%list_elem_of_singleton. destruct Hy as [?|[?|?]]; [fresh_tac..].
  - intros y [? Hy]%not_elem_of_cons. rewrite elem_of_plug in Hy.
    rewrite Hs4, Hout; [done| | |done|]; intros Hy'; apply Hy.
    + left. apply elem_node. tauto.
    + left. apply elem_node. tauto.
    + right. apply list_elem_of_singleton in Hy' as ->. by left.
  - rewrite Hs4; [eauto|]. intros ->%list_elem_of_singleton. fresh_tac.
Qed.

Lemma nodup_elems_del1 v rv c :
  NoDup (elems (plug (Node Leaf v rv) c)) →
  NoDup (elems (del1 rv c)) ∧ v ∉ elems (del1 rv c) ∧
  elems (plug (Node Leaf v rv) c) ≡ₚ v :: elems (del1 rv c) ∧
  sz (del1 rv c) < sz (plug (Node Leaf v rv) c).
Proof.
  intros Hnd.
  assert (elems (plug (Node Leaf v rv) c) ≡ₚ v :: elems (del1 rv c)) as He.
  { rewrite elems_plug, elems_del1. cbn [elems app]. by rewrite <-Permutation_middle. }
  rewrite !sz_elems, He in *. apply NoDup_cons in Hnd as [? ?]. split_and!; try done. simpl. lia.
Qed.

(** A node with at most one child. *)
Lemma avl_delete_child_lemma σ l x r c :
  l = Leaf ∨ r = Leaf → rep σ None (plug (Node l x r) c) → NoDup (elems (plug (Node l x r) c)) →
  fits (plug (Node l x r) c) → is_Some (σ !! x) →
  wp (avl_delete_one_child x) (λ res σ',
      res = root (del l x r c) ∧ rep σ' None (del l x r c) ∧
      same_outside (elems (plug (Node l x r) c)) σ σ' ∧ is_Some (σ' !! x)) σ.
Proof.
  intros Hlr Hrep Hnd Hf Hx. assert (del l x r c = del1 (match l with Leaf => r | _ => l end) c) as ->.
  { destruct l, r; cbn [del]; naive_solver. }
  assert (∀ y, y ∉ elems (plug (Node l x r) c) →
               y ∉ elems (del1 (match l with Leaf => r | _ => l end) c)) as Hsub.
  { intros y. rewrite elems_plug, elems_del1. cbn [elems]. rewrite !not_elem_of_app, not_elem_of_cons.
    destruct l; tauto. }
  assert (x ∉ elems (del1 (match l with Leaf => r | _ => l end) c)) as Hxd.
  { rewrite elems_plug in Hnd. rewrite elems_del1. cbn [elems] in Hnd.
    rewrite <-app_assoc in Hnd. cbn [app] in Hnd.
    rewrite <-(Permutation_middle (elems l) _ x), <-(Permutation_middle (cleft c) _ x) in Hnd.
    apply NoDup_cons in Hnd as [Hn _]. rewrite !not_elem_of_app in *. destruct l; tauto. }
  eapply wp_mono; [by apply avl_delete_one_child_lemma|].
  intros res σ' (? & ? & Hs). split_and!; [done|done| |].
  - intros y Hy. apply Hs. auto.
  - by rewrite Hs.
Qed.

Lemma avl_delete_lemma σ l x r c :
  rep σ None (plug (Node l x r) c) → NoDup (elems (plug (Node l x r) c)) →
  fits (plug (Node l x r) c) →
  wp (avl_delete x) (λ res σ',
      res = root (del l x r c) ∧ rep σ' None (del l x r c) ∧
      same_outside (elems (plug (Node l x r) c)) σ σ' ∧ is_Some (σ' !! x)) σ.
Proof.
  intros Hrep Hnd Hf. assert (Hrep' := Hrep).
  apply rep_plug in Hrep as [(Hx & Hl & Hr) Hc].
  unfold avl_delete. do 2 avl_step.
  destruct (decide (l = Leaf ∨ r = Leaf)) as [Hlr|Hlr].
  - pose proof (avl_delete_child_lemma σ l x r c Hlr Hrep' Hnd Hf (mk_is_Some _ _ Hx)) as Hwp.
    destruct l as [|ll b lr]; [exact Hwp|]. destruct r as [|rl b' rr]; [exact Hwp|].
    destruct Hlr; discriminate.
  - destruct l as [|ll b lr]; [tauto|]. remember (Node ll b lr) as l eqn:El.
    destruct r as [|rl d rr]; [tauto|].
    assert (root l = Some b) as -> by (by subst l). cbn [root].
    clear Hlr. apply wp_bind, wp_get, wp_bind.
    destruct (leftmost rl d rr (FR l x :: c)) as [[v rv] c'] eqn:Hlm.
    assert (del l x (Node rl d rr) c = ren x v (del1 rv c')) as ->.
    { rewrite El in Hlm |- *. cbn [del]. by rewrite Hlm. }
    destruct (leftmost_spec _ _ _ _ _ _ _ Hlm) as (Hp & Hcl & _). cbn [plug fill] in Hp.
    rewrite <-Hp in Hnd, Hrep', Hf |- *. rename Hnd into Hnd'.
    destruct (nodup_elems_del1 v rv c' Hnd') as (Hnd1 & Hv1 & He1 & Hsz1).
    eapply wp_done.
    { rewrite (avl_leftmost_spec σ rl d rr (FR l x :: c) _ (Some x)); [by rewrite Hlm| |done].
      rewrite Hp in Hnd'. apply nodup_plug in Hnd' as (Hndr%nodup_node & _).
      pose proof (nodup_size σ _ (proj1 (proj2 Hndr)) (λ y, rep_allocated σ _ _ y Hr)). lia. }
    cbn [fst]. apply wp_bind.
    eapply wp_mono; [by apply avl_delete_one_child_lemma; [left|..]|].
    intros root1 σ1 (-> & Hrep1 & Hs1).
    assert (x ∈ elems (del1 rv c')) as Hx1.
    { rewrite elems_del1, Hcl. cbn [cleft flft]. set_solver. }
    destruct (elem_plug _ _ Hx1) as (l' & r' & c2 & HT).
    assert (rep σ None (plug (Node Leaf v rv) c')) as Hrepv by done.
    apply rep_plug in Hrepv as [(Hv & _) _].
    rewrite HT in *. rewrite ren_plug by done.
    eapply wp_mono; [eapply (avl_replace_lemma σ1 l' x r' c2 v)|].
    + done.
    + done.
    + done.
    + rewrite Hs1 by done. exact Hv.
    + done.
    + intros res σ2 (-> & Hrep2 & Hs2 & Hx2). split_and!; [done|done| |done].
      intros y Hy. rewrite He1 in Hy. rewrite Hs2 by done. apply Hs1.
      by apply not_elem_of_cons in Hy as [? ?].
Qed.

(** ** Rank navigation *)
Section offset.
Context (σ : avl_store) (T : tree) (i : Z).
Context (Hrep : rep σ None T) (Hnd : NoDup (elems T)) (Hfits : fits T).
Context (Hi : 0 <= i < sz T).

Lemma wraps z : - 2 ^ 33 < z < 2 ^ 33 → i64 z = z.
Proof. intros. apply i64_id. lia. Qed.

Lemma run_cnt p t : rep σ p t → avl_cnt (root t) σ = Done (sz t, σ).
Proof.
  intros Ht. destruct t as [|? b ?]; [done|]. destruct Ht as [Hb' _].
  cbn. unfold mbind, M_bind, load. by rewrite Hb'.
Qed.

(** Once the target is in the subtree of the current node, the loop goes
    down to it. *)
Lemma avl_offset_down_lemma t : ∀ c fuel l a r j,
  t = Node l a r → T = plug t c → ht t < Z.of_nat fuel →
  crank c <= j < crank c + sz t →
  avl_offset_loop fuel a (crank c + sz l - i) (j - i) σ = Done (nth_z (elems T) j, σ).
Proof.
  induction t as [|tl IHl ta tr IHr]; intros c fuel l a r j; [done|].
  intros [= -> -> ->] HT Hfuel Hj.
  destruct fuel as [|fuel]; [pose proof (ht_nonneg (Node l a r)); lia|].
  assert (Hr' := Hrep). rewrite HT in Hr'. apply rep_plug in Hr' as [(Ha & Hl & Hr) _].
  pose proof (sz_plug_crank (Node l a r) c) as Hb. rewrite <-HT in Hb.
  assert (0 <= crank c) by (unfold crank; lia). unfold fits in Hfits. cbn [ht sz] in *.
  pose proof (sz_nonneg l). pose proof (sz_nonneg r).
  cbn [avl_offset_loop]. destruct (Z.eqb_spec (j - i) (crank c + sz l - i)) as [E|E].
  { replace j with (crank c + sz l) by lia. rewrite HT, nth_z_plug. done. }
  unfold mbind, M_bind, load. rewrite Ha. cbn [left right].
  rewrite (run_cnt _ _ Hr), (run_cnt _ _ Hl), !wraps by lia.
  destruct (Z.ltb_spec (crank c + sz l - i) (j - i)) as [Hlt|Hge]; cbn [andb].
  - rewrite (proj2 (Z.leb_le _ _)) by lia.
    destruct r as [|rl b rr]; [simpl in *; lia|]. cbn [root].
    destruct (Hr) as (Hb' & Hrl & _). rewrite Hb'. cbn [left].
    rewrite (run_cnt _ _ Hrl). cbn [sz] in *. pose proof (sz_nonneg rl). pose proof (sz_nonneg rr).
    rewrite u32_id, wraps by lia.
    replace (crank c + sz l - i + (sz rl + 1)) with (crank (FR l a :: c) + sz rl - i)
      by (rewrite crank_FR; lia).
    apply (IHr (FR l a :: c) fuel rl b rr); [done|done|lia|]. rewrite crank_FR. lia.
  - rewrite (proj2 (Z.ltb_lt _ _)) by lia. rewrite (proj2 (Z.leb_le _ _)) by lia. cbn [andb].
    destruct l as [|ll b lr]; [simpl in *; lia|]. cbn [root].
    destruct (Hl) as (Hb' & _ & Hlr). rewrite Hb'. cbn [right].
    rewrite (run_cnt _ _ Hlr). cbn [sz] in *. pose proof (sz_nonneg ll). pose proof (sz_nonneg lr).
    rewrite u32_id, wraps by lia.
    replace (crank c + (1 + sz ll + sz lr) - i - (sz lr + 1)) with (crank (FL a r :: c) + sz ll - i)
      by (rewrite crank_FL; lia).
    apply (IHl (FL a r :: c) fuel ll b lr); [done|done|lia|]. rewrite crank_FL. lia.
Qed.

(** From any node the loop climbs until the target is in the subtree, or
    falls off the root when the target is out of range. *)
Lemma avl_offset_loop_lemma c : ∀ fuel l a r j,
  T = plug (Node l a r) c → Z.of_nat (length c) + ht T < Z.of_nat fuel →
  - 2 ^ 31 <= j - i < 2 ^ 31 →
  avl_offset_loop fuel a (crank c + sz l - i) (j - i) σ = Done (nth_z (elems T) j, σ).
Proof.
  induction c as [|f c IH]; intros fuel l a r j HT Hfuel Hj.
  all: match type of HT with _ = plug _ ?c0 => set (c1 := c0) in * end.
  all: destruct (decide (crank c1 <= j < crank c1 + sz (Node l a r))) as [Hin|Hout];
    [eapply avl_offset_down_lemma; [done|exact HT| |exact Hin];
     pose proof (depth_ht (Node l a r) c1) as Hd; rewrite <-HT in Hd; lia|].
  all: pose proof (ht_nonneg T); destruct fuel as [|fuel]; [lia|].
  all: assert (Hr' := Hrep); rewrite HT in Hr'; apply rep_plug in Hr' as [(Ha & Hl & Hr) Hc].
  all: pose proof (sz_plug_crank (Node l a r) c1) as Hb; rewrite <-HT in Hb.
  all: assert (0 <= crank c1) by (unfold crank; lia); unfold fits in Hfits; cbn [sz] in *.
  all: pose proof (sz_nonneg l); pose proof (sz_nonneg r).
  all: cbn [avl_offset_loop]; destruct (Z.eqb_spec (j - i) (crank c1 + sz l - i)) as [E|E]; [lia|].
  all: unfold mbind, M_bind, load; rewrite Ha; cbn [left right parent].
  all: rewrite (run_cnt _ _ Hr), (run_cnt _ _ Hl), (wraps (_ + _ - _ + _)), (wraps (_ - sz _)) by lia.
  all: replace ((crank c1 + sz l - i <? j - i) && (j - i <=? crank c1 + sz l - i + sz r)) with false
    by (symmetry; apply andb_false_iff; rewrite Z.ltb_ge, Z.leb_gt; lia).
  all: replace ((j - i <? crank c1 + sz l - i) && (crank c1 + sz l - i - sz l <=? j - i)) with false
    by (symmetry; apply andb_false_iff; rewrite Z.ltb_ge, Z.leb_gt; lia).
  - cbn [caddr c1]. unfold nth_z. case_decide; [|done].
    rewrite (proj2 (lookup_ge_None _ _)); [done|].
    assert (sz T = sz (Node l a r)) as Hs by (by rewrite HT).
    assert (crank c1 = 0) by done. rewrite sz_elems in Hs. cbn [sz] in Hs. lia.
  - subst c1. cbn [caddr]. destruct Hc as (Hf & Hs & Hc). rewrite Hf.
    assert (a ∉ elems (sib f)) as Hna by (rewrite HT in Hnd; clear - Hnd; nodup; done).
    rewrite u32_id, u32_id by lia.
    destruct f as [p s|s p]; cbn [fnode right faddr] in *.
    + rewrite crank_FL in *. rewrite decide_False.
      2: { destruct s; [done|]. intros [= ->]. apply Hna, elem_node. tauto. }
      rewrite wraps by lia.
      replace (crank c + sz l - i + (sz r + 1)) with (crank c + sz (Node l a r) - i) by (simpl; lia).
      eapply (IH fuel _ p s); [exact HT| |done]. simpl in *. lia.
    + rewrite crank_FR in *. rewrite decide_True by done. rewrite wraps by lia.
      replace (crank c + sz s + 1 + sz l - i - (sz l + 1)) with (crank c + sz s - i) by lia.
      eapply (IH fuel s p _); [exact HT| |done]. simpl in *. lia.
Qed.
End offset.

Lemma avl_offset_lemma σ T i x o :
  rep σ None T → NoDup (elems T) → fits T → elems T !! i = Some x →
  - 2 ^ 31 <= o < 2 ^ 31 →
  avl_offset (Some x) o σ = Done (nth_z (elems T) (Z.of_nat i + o), σ).
Proof.
  intros Hrep Hnd Hf Hi Ho.
  assert (0 <= Z.of_nat i < sz T) as Hir by (apply lookup_lt_Some in Hi; rewrite sz_elems; lia).
  destruct (nth_z_inv _ _ _ Hi) as (l & r & c & HT & Hc).
  pose proof (nodup_size σ _ Hnd (λ y, rep_allocated σ _ _ y Hrep)) as Hsize.
  pose proof (depth_ht (Node l x r) c) as Hd. rewrite <-HT in Hd.
  pose proof (ht_le_sz T) as Hh. pose proof (ht_nonneg (Node l x r)). rewrite sz_elems in Hh.
  unfold avl_offset, mbind, M_bind, get_state.
  replace 0 with (crank c + sz l - Z.of_nat i) by lia.
  replace o with (Z.of_nat i + o - Z.of_nat i) at 1 by lia.
  eapply (avl_offset_loop_lemma σ T (Z.of_nat i)); try done; lia.
Qed.
