(* ===== verification/AvlProps.v ===== *)
(** The properties of the AVL tree (storage/avl_tree.cpp): every function
    refines the functional tree, which stays balanced, ordered and complete. *)
From S2P Require Import Prelude AvlTree AvlModel AvlRefine.

(** ** Search and deletion by a comparison *)

(** The nodes are in the order of the comparison with the key. *)
Definition cmp_sorted (cmp : ptr → Z) (xs : list ptr) : Prop :=
  StronglySorted (λ y z, (cmp z < 0 → cmp y < 0) ∧ (cmp y > 0 → cmp z > 0)) xs.

Lemma cmp_sorted_app cmp xs ys :
  cmp_sorted cmp (xs ++ ys) →
  cmp_sorted cmp xs ∧ cmp_sorted cmp ys ∧
  ∀ x y, x ∈ xs → y ∈ ys → (cmp y < 0 → cmp x < 0) ∧ (cmp x > 0 → cmp y > 0).
Proof.
  unfold cmp_sorted. induction xs as [|x xs IH]; cbn [app]; intros H.
  - split_and!; [constructor|done|by intros ?? ?%not_elem_of_nil].
  - inversion H as [|?? Hs Hf]; subst. apply IH in Hs as (? & ? & Hc).
    apply Forall_app in Hf as [? Hf]. split_and!; [by constructor|done|].
    intros y z [->|Hy]%elem_of_cons Hz; [|by apply Hc]. rewrite Forall_forall in Hf. by apply Hf.
Qed.

(** What the search and deletion leave: nothing changed and no node has the
    key, or a node with the key is gone. *)
Definition search_deleted (cmp : ptr → Z) (σ : avl_store) (T : tree) (xs : list ptr)
    (res : option ptr * option ptr) (σ' : avl_store) : Prop :=
  match res.1 with
  | None => σ' = σ ∧ res.2 = root T ∧ ∀ y, y ∈ xs → cmp y ≠ 0
  | Some a => a ∈ xs ∧ cmp a = 0 ∧ ∃ T', res.2 = root T' ∧ rep σ' None T' ∧ (bal T → bal T') ∧
      (∃ L R, elems T = L ++ a :: R ∧ elems T' = L ++ R) ∧ same_outside (elems T) σ σ'
  end.

Lemma search_delete_loop_spec (cmp : ptr → Z) σ T t : ∀ c fuel,
  T = plug t c → (length (elems t) ≤ fuel)%nat →
  rep σ None T → NoDup (elems T) → fits T → cmp_sorted cmp (elems t) →
  wp (avl_search_delete_loop cmp fuel (root t) (root T)) (search_deleted cmp σ T (elems t)) σ.
Proof.
  induction t as [|l IHl a r IHr]; intros c fuel HT Hfuel Hrep Hnd Hf Hs.
  { destruct fuel; apply wp_ret; (split_and!; [done|done|by intros ? ?%not_elem_of_nil]). }
  assert (Hrep' := Hrep). rewrite HT in Hrep'. apply rep_plug in Hrep' as [(Ha & _) _].
  cbn [elems] in Hfuel, Hs. rewrite length_app in Hfuel. cbn [length] in Hfuel.
  destruct fuel as [|fuel]; [lia|]. cbn [avl_search_delete_loop root].
  apply cmp_sorted_app in Hs as (Hsl & Hsr & Hlr).
  assert (cmp_sorted cmp (elems r) ∧ ∀ y, y ∈ elems r → cmp a > 0 → cmp y > 0) as [Hsr' Har].
  { inversion Hsr as [|?? H1 H2]; subst. split; [done|]. rewrite Forall_forall in H2. naive_solver. }
  apply wp_bind. eapply wp_load; [exact Ha|]. cbn [left right].
  destruct (Z.ltb_spec (cmp a) 0) as [Hlt|Hge]; [|destruct (Z.gtb_spec (cmp a) 0) as [Hgt|Hle]].
  - eapply wp_mono; [apply (IHr (FR l a :: c)); try done; lia|].
    intros [[b|] r'] σ'; unfold search_deleted; cbn [fst snd].
    + rewrite elem_node. intros (? & ? & ?). split_and!; try done. by right; right.
    + intros (-> & -> & Hn). split_and!; [done..|]. intros y [Hy|[->|Hy]]%elem_node; [|lia|by apply Hn].
      pose proof (proj1 (Hlr y a Hy ltac:(by left)) Hlt). lia.
  - eapply wp_mono; [apply (IHl (FL a r :: c)); try done; lia|].
    intros [[b|] r'] σ'; unfold search_deleted; cbn [fst snd].
    + rewrite elem_node. intros (? & ? & ?). split_and!; try done. by left.
    + intros (-> & -> & Hn). split_and!; [done..|]. intros y [Hy|[->|Hy]]%elem_node; [by apply Hn|lia|].
      pose proof (Har y Hy ltac:(lia)). lia.
  - apply wp_bind. rewrite HT in Hrep, Hnd, Hf. eapply wp_mono; [by apply (avl_delete_lemma σ l a r c)|].
    intros res σ' (-> & Hr & Hs' & _). apply wp_ret. unfold search_deleted. cbn [fst snd].
    split_and!; [apply elem_node; tauto|lia|]. exists (del l a r c).
    split_and!; [done|done|intros Hb; rewrite HT in Hb; by apply del_bal| |by rewrite HT].
    exists (cleft c ++ elems l), (elems r ++ cright c). rewrite HT, del_elems, elems_plug by done.
    cbn [elems]. by rewrite <-!app_assoc.
Qed.

(** ** Instances *)
Fixpoint store_of (par : option ptr) (t : tree) : avl_store :=
  match t with
  | Leaf => ∅
  | Node l a r =>
      <[a := mkAVLNode par (root l) (root r) (ht t) (sz t)]>
        (store_of (Some a) l ∪ store_of (Some a) r)
  end.
Definition leaf (a : ptr) : tree := Node Leaf a Leaf.
(** Five nodes, and a loose one. *)
Definition five : tree := Node (leaf 1) 2 (Node (leaf 3) 4 (leaf 5)).
Definition five_store : avl_store := <[6%positive := avl_init_node]> (store_of None five).

(** Proves the hypotheses of a theorem at a concrete store. *)
Ltac concrete :=
  repeat match goal with
  | |- True => exact I
  | |- _ ∧ _ => split
  | |- ∃ _, _ => eexists
  | |- NoDup _ => apply (bool_decide_unpack _); vm_compute; exact I
  | |- _ ∉ _ => apply (bool_decide_unpack _); vm_compute; exact I
  | |- _ ∈ _ => apply (bool_decide_unpack _); vm_compute; exact I
  | |- rep _ _ _ => hnf
  | |- rep_stale _ _ _ _ _ => hnf
  | |- crep _ _ _ => hnf
  | |- bal _ => hnf
  | |- cbal _ _ => hnf
  | |- fits _ => vm_compute; reflexivity
  | |- _ = _ => vm_compute; reflexivity
  | |- _ <= _ => vm_compute; (lia || discriminate)
  | |- _ < _ => vm_compute; reflexivity
  | |- _ ≠ _ => discriminate
  end.

(** * Properties *)

(** C14: avl_fix_tree, started at a node whose links are right but whose
    statistics, and those of its ancestors, may be stale, as after a change
    below it, returns the root of a tree with the same nodes in the same order
    in which every height and count is right, and writes no other node; if the
    height at the node's place changed by at most one in a balanced tree, the
    result is balanced. *)
Theorem avl_fix_tree_correct σ c l a r :
  rep_stale σ (caddr c) l a r → crep σ (Some a) c →
  NoDup (elems (plug (Node l a r) c)) → fits (plug (Node l a r) c) →
  wp (avl_fix_tree a) (λ res σ', ∃ t,
      res = root t ∧ rep σ' None t ∧ elems t = elems (plug (Node l a r) c) ∧
      (∀ h, bal l → bal r → Z.abs (ht l - ht r) <= 2 →
            Z.abs (ht (rebalance (Node l a r)) - h) <= 1 → cbal h c → bal t) ∧
      same_outside (elems (plug (Node l a r) c)) σ σ') σ.
Proof.
  intros Hst Hc Hnd Hf. eapply wp_mono; [by apply avl_fix_tree_lemma|].
  intros res σ' (-> & Hr & Hs). exists (fix_up (Node l a r) c).
  split_and!; [done|done|by rewrite elems_fix_up|intros h ?????; by eapply fix_up_bal|done].
Qed.

Lemma avl_fix_tree_correct_witness :
  wp (avl_fix_tree 5) (λ res σ', ∃ t, res = root t ∧ rep σ' None t ∧ elems t = [1; 2; 3; 4; 5; 6]%positive ∧ bal t)
    (<[6%positive := mkAVLNode (Some 5%positive) None None 1 1]>
       (<[5%positive := mkAVLNode (Some 4%positive) None (Some 6%positive) 1 1]> five_store)).
Proof.
  eapply wp_mono.
  - apply (avl_fix_tree_correct _ [FR (leaf 3) 4; FR (leaf 1) 2] Leaf 5 (leaf 6)); concrete.
  - intros res σ' (t & -> & Hr & He & Hb & _). exists t. split_and!; [done|done|exact He|].
    apply (Hb 1); concrete.
Defined.

(** C15: avl_delete of a node of a balanced tree returns the root of a balanced
    tree with the other nodes in the same order, whatever children the node
    has; it writes no node outside the tree. *)
Theorem avl_delete_correct σ T x :
  rep σ None T → NoDup (elems T) → fits T → x ∈ elems T →
  wp (avl_delete x) (λ res σ', ∃ t L R,
      res = root t ∧ rep σ' None t ∧ elems T = L ++ x :: R ∧ elems t = L ++ R ∧
      (bal T → bal t) ∧ same_outside (elems T) σ σ') σ.
Proof.
  intros Hrep Hnd Hf Hx. destruct (elem_plug _ _ Hx) as (l & r & c & ->).
  eapply wp_mono; [by apply avl_delete_lemma|]. intros res σ' (-> & Hr & Hs & _).
  exists (del l x r c), (cleft c ++ elems l), (elems r ++ cright c).
  split_and!; [done|done| | |apply del_bal|done].
  - rewrite elems_plug. cbn [elems]. by rewrite <-!app_assoc.
  - rewrite del_elems by done. by rewrite <-!app_assoc.
Qed.

Lemma avl_delete_correct_witness :
  wp (avl_delete 2) (λ res σ', ∃ t, res = root t ∧ rep σ' None t ∧ bal t ∧ elems t ≡ₚ [1; 3; 4; 5]%positive) five_store.
Proof.
  eapply wp_mono; [apply (avl_delete_correct five_store five 2); concrete|].
  intros res σ' (t & L & R & -> & Hr & He & He' & Hb & _). exists t.
  split_and!; [done|done|apply Hb; concrete|].
  apply (Permutation_cons_inv (a:=2%positive)). rewrite He', Permutation_middle, <-He. vm_compute.
  apply Permutation_swap.
Defined.

(** C16: avl_offset from the node at position i of the order returns the node
    at position i + offset, or null if there is none, for every 32-bit
    offset; it changes nothing. *)
Theorem avl_offset_correct σ T i x offset :
  rep σ None T → NoDup (elems T) → fits T → elems T !! i = Some x →
  - 2 ^ 31 <= offset < 2 ^ 31 →
  avl_offset (Some x) offset σ = Done (nth_z (elems T) (Z.of_nat i + offset), σ).
Proof. apply avl_offset_lemma. Qed.

Lemma avl_offset_correct_witness :
  avl_offset (Some 4%positive) (-2) five_store = Done (Some 2%positive, five_store) ∧
  avl_offset (Some 4%positive) 2 five_store = Done (None, five_store).
Proof.
  split.
  - apply (avl_offset_correct five_store five 3 4 (-2)); concrete.
  - apply (avl_offset_correct five_store five 3 4 2); concrete.
Defined.

(** [avl_search_and_delete] with a comparison that agrees with the order of
    the tree removes a node that compares equal to the key and returns it, or
    returns null and changes nothing when there is none. *)
Theorem avl_search_and_delete_correct cmp σ T :
  rep σ None T → NoDup (elems T) → fits T → cmp_sorted cmp (elems T) →
  wp (avl_search_and_delete cmp (root T)) (search_deleted cmp σ T (elems T)) σ.
Proof.
  intros Hrep Hnd Hf Hs. unfold avl_search_and_delete. apply wp_bind, wp_get.
  apply (search_delete_loop_spec cmp σ T T []); try done.
  apply nodup_size; [done|]. intros y. by apply (rep_allocated _ None).
Qed.

Lemma avl_search_and_delete_correct_witness :
  wp (avl_search_and_delete (λ x, Z.pos x - 3) (root five))
    (search_deleted (λ x, Z.pos x - 3) five_store five (elems five)) five_store.
Proof.
  apply avl_search_and_delete_correct; concrete.
  repeat (constructor; [|repeat (constructor; [lia|]); constructor]). constructor.
Defined.

(** [avl_search_and_insert] builds the right tree in memory (the node
    inserted at its place, balanced again), but drops the root that
    avl_fix_tree returns: the caller's root pointer keeps its old value
    whatever node the rebalancing moved to the top. *)
Theorem avl_search_and_insert_stale_root less σ T x n :
  rep σ None T → NoDup (elems T) → x ∉ elems T → σ !! x = Some n →
  left n = None → right n = None → fits (Node T x Leaf) → T ≠ Leaf →
  wp (avl_search_and_insert less (root T) x) (λ res σ', ∃ t,
      res = root T ∧ rep σ' None t ∧ elems t ≡ₚ x :: elems T ∧ (bal T → bal t)) σ.
Proof.
  intros Hrep Hnd Hx Hn Hl Hr Hf Hne.
  eapply wp_mono; [by apply (avl_search_and_insert_lemma less σ T x n)|].
  intros res σ' (-> & Hr' & _). exists (ins (less x) x T). split_and!; [by destruct T|done| |apply ins_bal].
  apply ins_elems_perm.
Qed.

(** Inserting 3 into the tree of 1 and 2 rotates: the root is 2, the pointer
    stays at 1. *)
Lemma avl_search_and_insert_stale_root_witness :
  wp (avl_search_and_insert (λ x y, (x <? y)%positive) (Some 1%positive) 3)
    (λ res σ', res = Some 1%positive) (<[3%positive := avl_init_node]> (store_of None (Node Leaf 1 (leaf 2)))).
Proof.
  eapply wp_mono; [apply (avl_search_and_insert_stale_root (λ x y, (x <? y)%positive) _ (Node Leaf 1 (leaf 2)) 3 avl_init_node); concrete|].
  intros res σ' (t & -> & _). reflexivity.
Defined.
