(* ===== verification/Hashtable.v ===== *)
(** The hash map of storage/hashtable.{h,cpp}: chaining through intrusive
    [next] pointers, two tables and incremental migration from the older to
    the newer one.  The nodes live in a store; a table owns its array of slots,
    which is part of the [HTable] value (the code never shares it: moving
    [newer] to [older] is followed by a fresh array for [newer]).  A pointer to
    a pointer ([HNode **]) is an [hslot]. *)
From S2P Require Import Prelude.

(** core/constants.h *)
Definition k_max_load_factor : Z := 8.
Definition k_rehashing_work : Z := 128.

Record HNode := mkHNode { next : option ptr; hash_code : Z }.
Abbreviation hstore := (gmap ptr HNode).
Abbreviation HM := (M hstore).

Record HTable := mkHTable {
  tab : option (list (option ptr));
  mask : Z;
  hsize : Z;
}.
Definition HTable_empty : HTable := mkHTable None 0 0.

Record HMap := mkHMap { older : HTable; newer : HTable; migration_pos : Z }.
Definition HMap_empty : HMap := mkHMap HTable_empty HTable_empty 0.

#[export] Instance HNode_eq_dec : EqDecision HNode.
Proof. solve_decision. Defined.
#[export] Instance HTable_eq_dec : EqDecision HTable.
Proof. solve_decision. Defined.
#[export] Instance HMap_eq_dec : EqDecision HMap.
Proof. solve_decision. Defined.

Definition set_next (p : option ptr) (n : HNode) : HNode := mkHNode p (hash_code n).

(** What an [HNode **] points to: a slot of the array or a [next] field. *)
Inductive hslot := AtTab (pos : Z) | AtNext (p : ptr).

(** [ht->tab[pos]], read and written. *)
Definition tab_get (ht : HTable) (pos : Z) : HM (option ptr) :=
  hs ← deref (tab ht); deref (hs !! Z.to_nat pos).
Definition tab_set (ht : HTable) (pos : Z) (v : option ptr) : HM HTable :=
  hs ← deref (tab ht);
  _ ← deref (hs !! Z.to_nat pos);
  mret (mkHTable (Some (<[Z.to_nat pos := v]> hs)) (mask ht) (hsize ht)).

(** [*from], read and written. *)
Definition slot_read (ht : HTable) (from : hslot) : HM (option ptr) :=
  match from with
  | AtTab pos => tab_get ht pos
  | AtNext p => n ← load p; mret (next n)
  end.
Definition slot_write (ht : HTable) (from : hslot) (v : option ptr) : HM HTable :=
  match from with
  | AtTab pos => tab_set ht pos v
  | AtNext p => modify p (set_next v);; mret ht
  end.

Definition set_hsize (s : Z) (ht : HTable) : HTable := mkHTable (tab ht) (mask ht) s.

Definition is_pow2 (size : Z) : bool :=
  (size >? 0) && (Z.land size (u64 (size - 1)) =? 0).

Definition h_init (size : Z) : HM HTable :=
  assert_ (is_pow2 size);;
  mret (mkHTable (Some (replicate (Z.to_nat size) None)) (size - 1) 0).

Section lookup.
(** The key: its hash code, and the callback [eq(curr, key)]. *)
Context (hc : Z) (eq : ptr → bool).

Fixpoint h_lookup_chain (fuel : nat) (from : hslot) (curr : option ptr)
    : HM (option hslot) :=
  match curr with
  | None => mret None
  | Some c =>
      match fuel with
      | O => out_of_fuel
      | S fuel =>
          n ← load c;
          if (hash_code n =? hc) && eq c then mret (Some from)
          else h_lookup_chain fuel (AtNext c) (next n)
      end
  end.

Definition h_lookup (ht : HTable) : HM (option hslot) :=
  match tab ht with
  | None => mret None
  | Some _ =>
      let pos := Z.land hc (mask ht) in
      curr ← tab_get ht pos;
      σ ← get_state;
      h_lookup_chain (size σ) (AtTab pos) curr
  end.
End lookup.

Definition h_insert (ht : HTable) (node : ptr) : HM HTable :=
  n ← load node;
  let pos := Z.land (hash_code n) (mask ht) in
  head ← tab_get ht pos;
  modify node (set_next head);;
  ht ← tab_set ht pos (Some node);
  mret (set_hsize (u64 (hsize ht + 1)) ht).

Definition h_detach (ht : HTable) (from : hslot) : HM (ptr * HTable) :=
  target ← slot_read ht from;
  target ← deref target;
  n ← load target;
  ht ← slot_write ht from (next n);
  mret (target, set_hsize (u64 (hsize ht - 1)) ht).

Section foreach.
(** The callback with its [args]: it returns whether to go on. *)
Context {A : Type} (f : ptr → A → bool * A).

Fixpoint h_foreach_chain (fuel : nat) (node : option ptr) (args : A) : HM (bool * A) :=
  match node with
  | None => mret (true, args)
  | Some c =>
      match fuel with
      | O => out_of_fuel
      | S fuel =>
          match f c args with
          | (false, args) => mret (false, args)
          | (true, args) => n ← load c; h_foreach_chain fuel (next n) args
          end
      end
  end.

(** [for (i = mask + 1 - todo; i <= mask; i++)] *)
Fixpoint h_foreach_slots (todo : nat) (ht : HTable) (args : A) : HM (bool * A) :=
  match todo with
  | O => mret (true, args)
  | S todo =>
      head ← tab_get ht (mask ht - Z.of_nat todo);
      σ ← get_state;
      r ← h_foreach_chain (size σ) head args;
      match r with
      | (true, args) => h_foreach_slots todo ht args
      | (false, args) => mret (false, args)
      end
  end.

Definition h_foreach (ht : HTable) (args : A) : HM (bool * A) :=
  match tab ht with
  | None => mret (true, args)
  | Some _ => h_foreach_slots (Z.to_nat (mask ht + 1)) ht args
  end.

Definition hm_foreach (hmap : HMap) (args : A) : HM A :=
  r ← h_foreach (newer hmap) args;
  match r with
  | (true, args) => r ← h_foreach (older hmap) args; mret r.2
  | (false, args) => mret args
  end.
End foreach.

Definition tab_null (ht : HTable) : bool := bool_decide (tab ht = None).

Definition hm_trigger_rehash (hmap : HMap) : HM HMap :=
  assert_ (tab_null (older hmap));;
  let older := newer hmap in
  newer ← h_init (u64 (u64 (hsize older + 1) * 2));
  mret (mkHMap older newer 0).

Fixpoint hm_help_loop (fuel : nat) (work : Z) (hmap : HMap) : HM HMap :=
  if (work <? k_rehashing_work) && (hsize (older hmap) >? 0) then
    match fuel with
    | O => out_of_fuel
    | S fuel =>
        let from := AtTab (migration_pos hmap) in
        head ← slot_read (older hmap) from;
        match head with
        | None =>
            hm_help_loop fuel work
              (mkHMap (older hmap) (newer hmap) (u64 (migration_pos hmap + 1)))
        | Some _ =>
            '(node, old) ← h_detach (older hmap) from;
            new ← h_insert (newer hmap) node;
            hm_help_loop fuel (work + 1) (mkHMap old new (migration_pos hmap))
        end
    end
  else mret hmap.

(** Enough iterations: one per migrated node and one per skipped slot. *)
Definition help_fuel (hmap : HMap) : nat :=
  Z.to_nat k_rehashing_work +
  match tab (older hmap) with Some hs => length hs | None => 0 end.

Definition hm_help_rehashing (hmap : HMap) : HM HMap :=
  hmap ← hm_help_loop (help_fuel hmap) 0 hmap;
  mret (if (hsize (older hmap) =? 0) && negb (tab_null (older hmap))
        then mkHMap HTable_empty (newer hmap) (migration_pos hmap)
        else hmap).

Definition hm_lookup (hmap : HMap) (hc : Z) (eq : ptr → bool) : HM (option ptr * HMap) :=
  hmap ← hm_help_rehashing hmap;
  from ← h_lookup hc eq (newer hmap);
  match from with
  | Some from => node ← slot_read (newer hmap) from; mret (node, hmap)
  | None =>
      from ← h_lookup hc eq (older hmap);
      match from with
      | Some from => node ← slot_read (older hmap) from; mret (node, hmap)
      | None => mret (None, hmap)
      end
  end.

Definition hm_insert (hmap : HMap) (node : ptr) : HM HMap :=
  new ← (if tab_null (newer hmap) then h_init 4 else mret (newer hmap));
  new ← h_insert new node;
  let hmap := mkHMap (older hmap) new (migration_pos hmap) in
  hmap ← (if tab_null (older hmap) then
            let threshold := u64 (u64 (mask (newer hmap) + 1) * k_max_load_factor) in
            if hsize (newer hmap) >=? threshold then hm_trigger_rehash hmap else mret hmap
          else mret hmap);
  hm_help_rehashing hmap.

Definition hm_delete (hmap : HMap) (hc : Z) (eq : ptr → bool) : HM (option ptr * HMap) :=
  hmap ← hm_help_rehashing hmap;
  from ← h_lookup hc eq (newer hmap);
  match from with
  | Some from =>
      '(node, new) ← h_detach (newer hmap) from;
      mret (Some node, mkHMap (older hmap) new (migration_pos hmap))
  | None =>
      from ← h_lookup hc eq (older hmap);
      match from with
      | Some from =>
          '(node, old) ← h_detach (older hmap) from;
          mret (Some node, mkHMap old (newer hmap) (migration_pos hmap))
      | None => mret (None, hmap)
      end
  end.

(** The arrays are freed; the nodes belong to the caller. *)
Definition hm_clear (hmap : HMap) : HMap := HMap_empty.

Definition hm_size (hmap : HMap) : Z := u64 (hsize (newer hmap) + hsize (older hmap)).
