(* ===== verification/HashtableProofs.v ===== *)
(** Correctness of the hash map: a map holds a set of nodes, the operations
    insert, look up, remove and enumerate them, incremental migration never
    loses, duplicates or misplaces a node and never reads outside an array. *)
From S2P Require Import Prelude Hashtable.

(** ** Representation *)

(** The linked list [xs] starts at [head]; every hash code satisfies [P]. *)
Fixpoint chain (σ : hstore) (P : Z → Prop) (head : option ptr) (xs : list ptr) : Prop :=
  match xs with
  | [] => head = None
  | x :: xs =>
      head = Some x ∧ ∃ n, σ !! x = Some n ∧ P (hash_code n) ∧ chain σ P (next n) xs
  end.

(** The hash codes that belong to slot [i]. *)
Definition in_slot (m : Z) (i : nat) (h : Z) : Prop := 0 <= h ∧ Z.land h m = Z.of_nat i.

(** A table holds the chains [cs], slot by slot. *)
Definition tab_rep (σ : hstore) (ht : HTable) (cs : list (list ptr)) : Prop :=
  match tab ht with
  | None => cs = [] ∧ hsize ht = 0
  | Some hs =>
      0 <= mask ht < 2 ^ 60 ∧ length hs = Z.to_nat (mask ht + 1) ∧ length cs = length hs ∧
      (∀ i h xs, hs !! i = Some h → cs !! i = Some xs → chain σ (in_slot (mask ht) i) h xs) ∧
      hsize ht = Z.of_nat (length (concat cs))
  end.

Record hm_rep (σ : hstore) (hm : HMap) (csn cso : list (list ptr)) : Prop := {
  hr_new : tab_rep σ (newer hm) csn;
  hr_old : tab_rep σ (older hm) cso;
  hr_nodup : NoDup (concat csn ++ concat cso);
  hr_bound : Z.of_nat (length (concat csn ++ concat cso)) < 2 ^ 58;
  hr_null : tab (newer hm) = None → tab (older hm) = None;
  hr_pos : 0 <= migration_pos hm;
  hr_mig : ∀ i xs, cso !! i = Some xs → Z.of_nat i < migration_pos hm → xs = [];
}.

(** The map holds exactly the nodes [xs], in some order. *)
Definition hm_ok (σ : hstore) (hm : HMap) (xs : list ptr) : Prop :=
  ∃ csn cso, hm_rep σ hm csn cso ∧ xs ≡ₚ concat csn ++ concat cso.

#[export] Instance hm_ok_proper σ hm : Proper ((≡ₚ) ==> iff) (hm_ok σ hm).
Proof.
  intros xs ys Hxy. unfold hm_ok. by setoid_rewrite Hxy.
Qed.

(** Only the [next] links of [xs] may differ. *)
Definition hframe (xs : list ptr) (σ σ' : hstore) : Prop :=
  (∀ x, x ∉ xs → σ' !! x = σ !! x) ∧
  (∀ x, hash_code <$> σ' !! x = hash_code <$> σ !! x).

#[export] Instance hframe_proper : Proper ((≡ₚ) ==> (=) ==> (=) ==> iff) hframe.
Proof. intros xs ys Hxy ? σ -> ? σ' ->. unfold hframe. by setoid_rewrite Hxy. Qed.

Lemma hframe_refl xs σ : hframe xs σ σ.
Proof. done. Qed.
Lemma hframe_trans xs σ1 σ2 σ3 : hframe xs σ1 σ2 → hframe xs σ2 σ3 → hframe xs σ1 σ3.
Proof.
  intros [H1 H2] [H3 H4]. split.
  - intros x Hx. by rewrite H3, H1.
  - intros x. by rewrite H4, H2.
Qed.
Lemma hframe_mono xs ys σ σ' : (∀ x, x ∈ xs → x ∈ ys) → hframe xs σ σ' → hframe ys σ σ'.
Proof. intros Hs [H1 H2]. split; [|done]. intros x Hx. apply H1. auto. Qed.
Lemma hframe_set_next xs σ x n p :
  x ∈ xs → σ !! x = Some n → hframe xs σ (<[x := set_next p n]> σ).
Proof.
  intros Hx Hn. split.
  - intros y Hy. rewrite lookup_insert_ne; [done|]. by intros ->.
  - intros y. destruct (decide (x = y)) as [->|].
    + by rewrite lookup_insert_eq, Hn.
    + by rewrite lookup_insert_ne.
Qed.

(** ** Chains *)
Lemma chain_frame σ σ' P h xs :
  (∀ x, x ∈ xs → σ' !! x = σ !! x) → chain σ P h xs → chain σ' P h xs.
Proof.
  revert h. induction xs as [|x xs IH]; intros h Hs; simpl; [done|].
  intros (-> & n & Hn & HP & Hc). split; [done|]. exists n. split_and!; [|done|].
  - rewrite Hs; [done|by left].
  - apply IH; [|done]. intros y Hy. apply Hs. by right.
Qed.

Lemma chain_allocated σ P h xs x : chain σ P h xs → x ∈ xs → ∃ n, σ !! x = Some n ∧ P (hash_code n).
Proof.
  revert h. induction xs as [|y xs IH]; intros h; [by intros _ ?%not_elem_of_nil|].
  intros (_ & n & Hn & HP & Hc) [->|Hx]%elem_of_cons; [eauto|]. by eapply IH.
Qed.

(** The slot that points to the node after [l] in a chain starting at [from]. *)
Definition slot_at (from : hslot) (l : list ptr) : hslot :=
  match last l with None => from | Some y => AtNext y end.

Definition hmatch (σ : hstore) (hc : Z) (eq : ptr → bool) (x : ptr) : bool :=
  match σ !! x with Some n => (hash_code n =? hc) && eq x | None => false end.

Lemma h_lookup_chain_spec σ hc eq P xs : ∀ fuel from curr,
  chain σ P curr xs → (length xs ≤ fuel)%nat →
  wp (h_lookup_chain hc eq fuel from curr) (λ res σ', σ' = σ ∧
    match res with
    | Some from' => ∃ l x r, xs = l ++ x :: r ∧ from' = slot_at from l ∧ hmatch σ hc eq x = true
    | None => ∀ x, x ∈ xs → hmatch σ hc eq x = false
    end) σ.
Proof.
  induction xs as [|x xs IH]; intros fuel from curr; cbn [chain].
  { intros -> _. destruct fuel; (split; [done|]); by intros x ?%not_elem_of_nil. }
  intros (-> & n & Hn & HP & Hc) Hfuel. destruct fuel as [|fuel]; [simpl in Hfuel; lia|].
  cbn [h_lookup_chain]. apply wp_bind. eapply wp_load; [exact Hn|].
  destruct ((hash_code n =? hc) && eq x) eqn:Hm.
  - apply wp_ret. split; [done|]. exists [], x, xs. unfold hmatch. by rewrite Hn.
  - eapply wp_mono; [apply (IH fuel (AtNext x) (next n) Hc); simpl in Hfuel; lia|].
    intros res σ' (-> & Hres). split; [done|]. destruct res as [from'|].
    + destruct Hres as (l & y & r & -> & -> & Hy). exists (x :: l), y, r.
      split_and!; [done| |done]. unfold slot_at. rewrite last_cons. by destruct (last l).
    + intros y [->|Hy]%elem_of_cons; [|by apply Hres]. unfold hmatch. by rewrite Hn.
Qed.

(** ** Lists of chains *)
Lemma concat_slot (cs : list (list ptr)) i xs :
  cs !! i = Some xs →
  ∃ rest, concat cs ≡ₚ xs ++ rest ∧
    (∀ ys, concat (<[i := ys]> cs) ≡ₚ ys ++ rest) ∧
    (∀ j ys x, j ≠ i → cs !! j = Some ys → x ∈ ys → x ∈ rest).
Proof.
  intros Hi. destruct (list_elem_of_split_length _ _ _ Hi) as (c1 & c2 & -> & ->).
  exists (concat c1 ++ concat c2). split_and!.
  - rewrite concat_app. cbn [concat]. by rewrite Permutation_app_swap_app.
  - intros ys. replace (length c1) with (length c1 + 0)%nat by lia.
    rewrite insert_app_r. cbn [insert list_insert]. rewrite concat_app. cbn [concat].
    by rewrite Permutation_app_swap_app.
  - intros j ys x Hj Hys Hx.
    assert (c1 ++ xs :: c2 = (c1 ++ [xs]) ++ c2) as E by (by rewrite <-app_assoc).
    rewrite elem_of_app. apply lookup_app_Some in Hys as [Hys|[Hlen Hys]].
    + left. apply elem_of_concat. eauto.
    + right. destruct (j - length c1)%nat as [|k] eqn:Hk; [lia|]. cbn in Hys.
      apply elem_of_concat. eauto.
Qed.

(** ** One table *)
Lemma land_mask_range h m : 0 <= h → 0 <= m → 0 <= Z.land h m <= m.
Proof.
  intros Hh Hm. rewrite <-(Z2N.id h), <-(Z2N.id m) by done. rewrite <-N2Z.inj_land.
  pose proof (N.land_le_r (Z.to_N h) (Z.to_N m)). lia.
Qed.

Lemma tab_rep_slot σ ht cs h hs :
  tab_rep σ ht cs → tab ht = Some hs → 0 <= h →
  ∃ head xs, hs !! Z.to_nat (Z.land h (mask ht)) = Some head ∧
    cs !! Z.to_nat (Z.land h (mask ht)) = Some xs ∧
    chain σ (in_slot (mask ht) (Z.to_nat (Z.land h (mask ht)))) head xs.
Proof.
  intros Hr Ht Hh. unfold tab_rep in Hr. rewrite Ht in Hr. destruct Hr as (Hm & Hlen & Hlc & Hc & _).
  pose proof (land_mask_range h (mask ht) Hh ltac:(lia)).
  destruct (lookup_lt_is_Some_2 hs (Z.to_nat (Z.land h (mask ht)))) as [head Hhead]; [lia|].
  destruct (lookup_lt_is_Some_2 cs (Z.to_nat (Z.land h (mask ht)))) as [xs Hxs]; [lia|].
  eauto 10.
Qed.

Lemma tab_rep_elem σ ht cs x :
  tab_rep σ ht cs → x ∈ concat cs →
  ∃ n i xs, σ !! x = Some n ∧ cs !! i = Some xs ∧ x ∈ xs ∧
    0 <= hash_code n ∧ Z.land (hash_code n) (mask ht) = Z.of_nat i.
Proof.
  intros Hr (i & xs & Hi & Hx)%elem_of_concat.
  unfold tab_rep in Hr. destruct (tab ht) as [hs|]; [|destruct Hr as [-> _]; done].
  destruct Hr as (_ & _ & Hlc & Hc & _). assert (i < length hs)%nat as Hlt.
  { rewrite <-Hlc. by eapply lookup_lt_Some. }
  destruct (lookup_lt_is_Some_2 _ _ Hlt) as [h Hh].
  destruct (chain_allocated _ _ _ _ _ (Hc _ _ _ Hh Hi) Hx) as (n & Hn & ? & ?). eauto 10.
Qed.

Lemma hmatch_elem σ hc eq x n :
  σ !! x = Some n → hmatch σ hc eq x = (hash_code n =? hc) && eq x.
Proof. unfold hmatch. by intros ->. Qed.

Lemma h_lookup_spec σ hc eq ht cs :
  tab_rep σ ht cs → NoDup (concat cs) → 0 <= hc →
  wp (h_lookup hc eq ht) (λ res σ', σ' = σ ∧
    match res with
    | Some from => ∃ i l x r, cs !! i = Some (l ++ x :: r) ∧
                     from = slot_at (AtTab (Z.of_nat i)) l ∧ hmatch σ hc eq x = true
    | None => ∀ x, x ∈ concat cs → hmatch σ hc eq x = false
    end) σ.
Proof.
  intros Hr Hnd Hhc. unfold h_lookup.
  destruct (tab ht) as [hs|] eqn:Ht.
  2: { apply wp_ret. split; [done|]. unfold tab_rep in Hr. rewrite Ht in Hr.
       destruct Hr as [-> _]. by intros x ?%not_elem_of_nil. }
  destruct (tab_rep_slot _ _ _ _ _ Hr Ht Hhc) as (head & xs & Hhead & Hxs & Hc).
  pose proof Hr as Hr0. unfold tab_rep in Hr. rewrite Ht in Hr. destruct Hr as (Hm & _).
  pose proof (land_mask_range hc (mask ht) Hhc ltac:(lia)) as Hpos.
  set (i := Z.to_nat (Z.land hc (mask ht))) in *.
  apply wp_bind. unfold tab_get. apply wp_bind. eapply wp_deref; [exact Ht|].
  eapply wp_deref; [exact Hhead|]. apply wp_bind, wp_get.
  destruct (concat_slot cs i xs Hxs) as (rest & Hcat & _ & Hrest).
  assert (NoDup xs) as Hndx by (rewrite Hcat in Hnd; by apply NoDup_app in Hnd as (? & _)).
  eapply wp_mono; [eapply h_lookup_chain_spec; [exact Hc|]|].
  { apply nodup_size; [done|]. intros x Hx. destruct (chain_allocated _ _ _ _ _ Hc Hx) as (? & ? & _). eauto. }
  intros res σ' (-> & Hres). split; [done|].
  destruct res as [from|].
  - destruct Hres as (l & x & r & -> & -> & Hx). exists i, l, x, r. split_and!; [done| |done].
    unfold i. by rewrite Z2Nat.id by lia.
  - intros x Hx. destruct (tab_rep_elem _ _ _ _ Hr0 Hx) as (n & j & ys & Hn & Hj & Hxy & H0 & Hslot).
    destruct (decide (j = i)) as [->|Hji]; [rewrite Hxs in Hj; injection Hj as ->; by apply Hres|].
    rewrite (hmatch_elem _ _ _ _ _ Hn). destruct (Z.eqb_spec (hash_code n) hc) as [E|]; [|done].
    exfalso. apply Hji. unfold i. rewrite E in Hslot. lia.
Qed.

(** ** Writing one slot *)
Lemma tab_rep_update σ σ' ht hs cs i xs ys h' s :
  tab_rep σ ht cs → tab ht = Some hs → NoDup (concat cs) → cs !! i = Some xs →
  chain σ' (in_slot (mask ht) i) h' ys →
  (∀ x, x ∉ xs → x ∈ concat cs → σ' !! x = σ !! x) →
  s = hsize ht - Z.of_nat (length xs) + Z.of_nat (length ys) →
  tab_rep σ' (mkHTable (Some (<[i := h']> hs)) (mask ht) s) (<[i := ys]> cs).
Proof.
  intros Hr Ht Hnd Hi Hc Hout ->. unfold tab_rep in *. rewrite Ht in Hr. cbn [tab mask hsize].
  destruct Hr as (Hm & Hlh & Hlc & Hcs & Hsz).
  destruct (concat_slot cs i xs Hi) as (rest & Hcat & Hins & Hrest).
  assert (disj xs rest) as Hd by (rewrite Hcat in Hnd; by apply nodup_app_disj in Hnd as (_ & _ & ?)).
  split_and!; [lia|lia|by rewrite length_insert|by rewrite !length_insert| |].
  - intros j h zs Hh Hz. destruct (decide (i = j)) as [<-|Hij].
    + rewrite list_lookup_insert_eq in Hh by (rewrite <-Hlc; by eapply lookup_lt_Some).
      rewrite list_lookup_insert_eq in Hz by (by eapply lookup_lt_Some).
      by simplify_eq.
    + rewrite list_lookup_insert_ne in Hh by done. rewrite list_lookup_insert_ne in Hz by done.
      eapply chain_frame; [|by eapply Hcs]. intros x Hx.
      assert (x ∈ rest) as Hxr by (eapply Hrest; [|exact Hz|exact Hx]; congruence).
      apply Hout; [|rewrite Hcat; set_solver]. intros Hxx. by apply (Hd x).
  - rewrite Hsz, Hcat, Hins, !length_app. lia.
Qed.

Lemma h_insert_spec σ ht cs node n :
  tab_rep σ ht cs → tab ht ≠ None → NoDup (concat cs) → node ∉ concat cs →
  σ !! node = Some n → 0 <= hash_code n → Z.of_nat (length (concat cs)) < 2 ^ 58 →
  wp (h_insert ht node) (λ ht' σ', ∃ i xs,
      cs !! i = Some xs ∧ tab_rep σ' ht' (<[i := node :: xs]> cs) ∧
      hframe [node] σ σ' ∧ tab ht' ≠ None ∧ mask ht' = mask ht ∧
      hsize ht' = hsize ht + 1) σ.
Proof.
  intros Hr Ht Hnd Hnode Hn Hh Hb. destruct (tab ht) as [hs|] eqn:Htab; [|done].
  destruct (tab_rep_slot _ _ _ _ _ Hr Htab Hh) as (head & xs & Hhead & Hxs & Hc).
  unfold h_insert. apply wp_bind. eapply wp_load; [exact Hn|].
  pose proof Hr as Hr0. unfold tab_rep in Hr0. rewrite Htab in Hr0.
  destruct Hr0 as (Hm & _ & _ & _ & Hsz).
  pose proof (land_mask_range (hash_code n) (mask ht) Hh ltac:(lia)) as Hpos.
  apply wp_bind. unfold tab_get. apply wp_bind. eapply wp_deref; [exact Htab|].
  eapply wp_deref; [exact Hhead|]. apply wp_bind. eapply wp_modify; [exact Hn|].
  apply wp_bind. unfold tab_set. apply wp_bind. eapply wp_deref; [exact Htab|].
  apply wp_bind. eapply wp_deref; [exact Hhead|]. apply wp_ret, wp_ret.
  exists (Z.to_nat (Z.land (hash_code n) (mask ht))), xs.
  unfold set_hsize; cbn [tab mask hsize]. rewrite u64_id by lia.
  split_and!; [done| | |done|done|done].
  - eapply tab_rep_update; try done; [| |simpl; lia].
    + split; [done|]. exists (set_next head n).
      split_and!; [by rewrite lookup_insert_eq|split; [done|cbn; lia]|].
      eapply chain_frame; [|exact Hc]. intros x Hx. rewrite lookup_insert_ne; [done|]. intros ->.
      apply Hnode. destruct (concat_slot cs _ xs Hxs) as (rest & -> & _). set_solver.
    + intros x _ Hx. rewrite lookup_insert_ne; [done|]. by intros ->.
  - apply hframe_set_next; [by left|done].
Qed.

(** ** Detaching a node *)

(** A list segment from [h] to [m]. *)
Fixpoint lseg (σ : hstore) (P : Z → Prop) (h : option ptr) (xs : list ptr) (m : option ptr) : Prop :=
  match xs with
  | [] => h = m
  | x :: xs =>
      h = Some x ∧ ∃ n, σ !! x = Some n ∧ P (hash_code n) ∧ lseg σ P (next n) xs m
  end.

Lemma chain_app σ P h l k : chain σ P h (l ++ k) ↔ ∃ m, lseg σ P h l m ∧ chain σ P m k.
Proof.
  revert h. induction l as [|x l IH]; intros h; cbn [app chain lseg].
  - naive_solver.
  - setoid_rewrite IH. naive_solver.
Qed.

Lemma lseg_frame σ σ' P h xs m :
  (∀ x, x ∈ xs → σ' !! x = σ !! x) → lseg σ P h xs m → lseg σ' P h xs m.
Proof.
  revert h. induction xs as [|x xs IH]; intros h Hs; cbn [lseg]; [done|].
  intros (-> & n & Hn & HP & Hc). split; [done|]. exists n. split_and!; [|done|].
  - rewrite Hs; [done|by left].
  - apply IH; [|done]. intros y Hy. apply Hs. by right.
Qed.

Lemma lseg_relink σ P l : ∀ h m y,
  lseg σ P h l m → NoDup l → last l = Some y →
  ∃ n, σ !! y = Some n ∧ next n = m ∧ ∀ m', lseg (<[y := set_next m' n]> σ) P h l m'.
Proof.
  induction l as [|x l IH]; intros h m y; [done|].
  intros (-> & n & Hn & HP & Hl) [Hx Hnd]%NoDup_cons. rewrite last_cons.
  destruct (last l) as [z|] eqn:Hz; intros [= <-].
  - destruct (IH _ _ _ Hl Hnd eq_refl) as (nz & Hnz & Hm & Hre). exists nz. split_and!; [done..|].
    intros m'. split; [done|]. exists n. split_and!; [|done|by apply Hre].
    rewrite lookup_insert_ne; [done|]. intros ->. apply Hx, list_elem_of_lookup.
    rewrite last_lookup in Hz. eauto.
  - apply last_None in Hz as ->. cbn [lseg] in Hl. exists n. split_and!; [done..|].
    intros m'. split; [done|]. exists (set_next m' n). by rewrite lookup_insert_eq.
Qed.

Lemma h_detach_spec σ ht cs i l x r :
  tab_rep σ ht cs → NoDup (concat cs) → cs !! i = Some (l ++ x :: r) →
  Z.of_nat (length (concat cs)) < 2 ^ 58 →
  wp (h_detach ht (slot_at (AtTab (Z.of_nat i)) l)) (λ res σ', ∃ ht', res = (x, ht') ∧
      tab_rep σ' ht' (<[i := l ++ r]> cs) ∧ hframe l σ σ' ∧
      mask ht' = mask ht ∧ (tab ht ≠ None ∧ tab ht' ≠ None) ∧ hsize ht' = hsize ht - 1) σ.
Proof.
  intros Hr Hnd Hi Hb. pose proof Hr as Hr0. unfold tab_rep in Hr0.
  destruct (tab ht) as [hs|] eqn:Htab; [|destruct Hr0 as [-> _]; done].
  destruct Hr0 as (Hm & Hlh & Hlc & Hcs & Hsz).
  assert (i < length hs)%nat as Hlt by (rewrite <-Hlc; by eapply lookup_lt_Some).
  destruct (lookup_lt_is_Some_2 _ _ Hlt) as [h Hh].
  pose proof (Hcs _ _ _ Hh Hi) as Hc. apply chain_app in Hc as (m & Hseg & (-> & n & Hn & HP & Hc)).
  destruct (concat_slot cs i _ Hi) as (rest & Hcat & _).
  assert (NoDup l ∧ x ∉ l ∧ disj l r) as (Hndl & Hxl & Hlr).
  { rewrite Hcat in Hnd. apply nodup_app_disj in Hnd as (Hnd & _ & _).
    apply nodup_app_disj in Hnd as (? & _ & Hd). apply disj_cons_r in Hd as [??]. done. }
  assert (0 < hsize ht <= 2 ^ 58) as Hsz'.
  { rewrite Hsz, Hcat, !length_app in *. simpl in *. lia. }
  unfold h_detach. apply wp_bind. unfold slot_at.
  destruct (last l) as [y|] eqn:Hlast.
  - destruct (lseg_relink _ _ _ _ _ _ Hseg Hndl Hlast) as (ny & Hny & Hnext & Hre).
    assert (y ∈ l) as Hyl by (rewrite last_lookup in Hlast; by eapply list_elem_of_lookup_2).
    cbn [slot_read slot_write]. apply wp_bind. eapply wp_load; [exact Hny|]. apply wp_ret.
    apply wp_bind. eapply wp_deref; [exact Hnext|]. apply wp_bind. eapply wp_load; [exact Hn|].
    apply wp_bind, wp_bind. eapply wp_modify; [exact Hny|]. apply wp_ret, wp_ret.
    eexists. split; [done|]. unfold set_hsize. rewrite Htab, u64_id by lia. cbn [mask tab hsize].
    split_and!; [|by apply hframe_set_next|done|done|done|done].
    rewrite <-(list_insert_id hs i h) by done.
    eapply tab_rep_update; try done; [| |rewrite !length_app; simpl; lia].
    + apply chain_app. exists (next n). split; [apply Hre|].
      eapply chain_frame; [|exact Hc]. intros z Hz. rewrite lookup_insert_ne; [done|].
      intros ->. by apply (Hlr z).
    + intros z Hz _. rewrite lookup_insert_ne; [done|]. intros ->. set_solver.
  - apply last_None in Hlast as ->. cbn [lseg] in Hseg. subst h.
    cbn [slot_read slot_write]. unfold tab_get, tab_set. rewrite Nat2Z.id.
    apply wp_bind. eapply wp_deref; [exact Htab|]. eapply wp_deref; [exact Hh|].
    apply wp_bind. eapply wp_deref; [done|]. apply wp_bind. eapply wp_load; [exact Hn|].
    apply wp_bind, wp_bind. eapply wp_deref; [exact Htab|]. apply wp_bind.
    eapply wp_deref; [exact Hh|]. apply wp_ret, wp_ret.
    eexists. split; [done|]. unfold set_hsize; cbn [mask tab hsize]. rewrite u64_id by lia.
    split_and!; [|apply hframe_refl|done|done|done|done].
    eapply tab_rep_update; try done. simpl. lia.
Qed.

(** Reading the slot a successful lookup returned. *)
Lemma slot_read_spec σ ht cs i l x r (Q : option ptr → hstore → Prop) :
  tab_rep σ ht cs → NoDup (concat cs) → cs !! i = Some (l ++ x :: r) →
  Q (Some x) σ → wp (slot_read ht (slot_at (AtTab (Z.of_nat i)) l)) Q σ.
Proof.
  intros Hr Hnd Hi HQ. unfold tab_rep in Hr.
  destruct (tab ht) as [hs|] eqn:Htab; [|destruct Hr as [-> _]; done].
  destruct Hr as (Hm & Hlh & Hlc & Hcs & Hsz).
  assert (i < length hs)%nat as Hlt by (rewrite <-Hlc; by eapply lookup_lt_Some).
  destruct (lookup_lt_is_Some_2 _ _ Hlt) as [h Hh].
  pose proof (Hcs _ _ _ Hh Hi) as Hc. apply chain_app in Hc as (m & Hseg & (-> & _)).
  unfold slot_at. destruct (last l) as [y|] eqn:Hlast; cbn [slot_read].
  - assert (NoDup l) as Hndl.
    { destruct (concat_slot cs i _ Hi) as (rest & Hcat & _). rewrite Hcat in Hnd.
      apply NoDup_app in Hnd as (Hnd & _). by apply NoDup_app in Hnd as (? & _). }
    destruct (lseg_relink _ _ _ _ _ _ Hseg Hndl Hlast) as (ny & Hny & Hnext & _).
    apply wp_bind. eapply wp_load; [exact Hny|]. by rewrite Hnext.
  - apply last_None in Hlast as ->. cbn [lseg] in Hseg. subst h. unfold tab_get. rewrite Nat2Z.id.
    apply wp_bind. eapply wp_deref; [exact Htab|]. by eapply wp_deref.
Qed.

Lemma tab_rep_frame σ σ' ht cs :
  (∀ x, x ∈ concat cs → σ' !! x = σ !! x) → tab_rep σ ht cs → tab_rep σ' ht cs.
Proof.
  intros Hs. unfold tab_rep. destruct (tab ht) as [hs|]; [|done].
  intros (? & ? & ? & Hc & ?). split_and!; try done; [lia..|].
  intros i h xs Hh Hx. eapply chain_frame; [|by eapply Hc].
  intros y Hy. apply Hs, elem_of_concat. eauto.
Qed.

(** ** Incremental migration *)
Definition hm_elems (csn cso : list (list ptr)) : list ptr := concat csn ++ concat cso.

Lemma concat_nonempty (cs : list (list ptr)) :
  (0 < length (concat cs))%nat → ∃ i x xs, cs !! i = Some (x :: xs).
Proof.
  intros H. destruct (concat cs) as [|x l] eqn:E; [simpl in H; lia|].
  assert (x ∈ concat cs) as Hx by (rewrite E; by left).
  apply elem_of_concat in Hx as (i & xs & Hi & Hx).
  destruct xs as [|y ys]; [by apply not_elem_of_nil in Hx|]. eauto.
Qed.

Lemma tab_len_cs σ ht cs hs : tab_rep σ ht cs → tab ht = Some hs → length cs = length hs.
Proof. unfold tab_rep. intros H Ht. rewrite Ht in H. tauto. Qed.

Lemma tab_size σ ht cs : tab_rep σ ht cs → hsize ht = Z.of_nat (length (concat cs)).
Proof. unfold tab_rep. destruct (tab ht); [tauto|]. by intros [-> ->]. Qed.

Lemma tab_head σ ht cs hs i h xs :
  tab_rep σ ht cs → tab ht = Some hs → hs !! i = Some h → cs !! i = Some xs →
  chain σ (in_slot (mask ht) i) h xs.
Proof. unfold tab_rep. intros H Ht. rewrite Ht in H. destruct H as (_ & _ & _ & H & _). eauto. Qed.

(** Where the migration stands: the current slot exists while keys remain. *)
Lemma migration_slot σ hm csn cso :
  hm_rep σ hm csn cso → 0 < hsize (older hm) →
  ∃ hs h xs, tab (older hm) = Some hs ∧ hs !! Z.to_nat (migration_pos hm) = Some h ∧
    cso !! Z.to_nat (migration_pos hm) = Some xs ∧
    chain σ (in_slot (mask (older hm)) (Z.to_nat (migration_pos hm))) h xs ∧
    Z.of_nat (length hs) <= 2 ^ 60 ∧ migration_pos hm < Z.of_nat (length hs).
Proof.
  intros Hr Hpos. destruct Hr as [Hn Ho Hnd Hb Hnull Hp Hmig].
  rewrite (tab_size _ _ _ Ho) in Hpos.
  destruct (concat_nonempty cso ltac:(lia)) as (i & x & xs & Hi).
  destruct (tab (older hm)) as [hs|] eqn:Ht.
  2: { unfold tab_rep in Ho. rewrite Ht in Ho. destruct Ho as [-> _]. done. }
  assert (migration_pos hm <= Z.of_nat i) as Hle.
  { destruct (decide (Z.of_nat i < migration_pos hm)) as [Hlt|]; [|lia].
    discriminate (Hmig _ _ Hi Hlt). }
  pose proof (lookup_lt_Some _ _ _ Hi) as Hlt. pose proof (tab_len_cs _ _ _ _ Ho Ht) as Hlen.
  destruct (lookup_lt_is_Some_2 hs (Z.to_nat (migration_pos hm))) as [h Hh]; [lia|].
  destruct (lookup_lt_is_Some_2 cso (Z.to_nat (migration_pos hm))) as [ys Hys]; [lia|].
  exists hs, h, ys. split_and!; [done..| | |lia].
  - by eapply tab_head.
  - unfold tab_rep in Ho. rewrite Ht in Ho. destruct Ho as (? & ? & _). lia.
Qed.

(** One migrated node. *)
Lemma migrate_step σ hm csn cso x xs :
  hm_rep σ hm csn cso → cso !! Z.to_nat (migration_pos hm) = Some (x :: xs) →
  wp (r ← h_detach (older hm) (AtTab (migration_pos hm));
      new ← h_insert (newer hm) (r.1);
      mret (mkHMap r.2 new (migration_pos hm)))
    (λ hm' σ', ∃ csn' cso', hm_rep σ' hm' csn' cso' ∧
       hm_elems csn' cso' ≡ₚ hm_elems csn cso ∧ hframe (hm_elems csn cso) σ σ' ∧
       hsize (older hm') = hsize (older hm) - 1 ∧ hsize (newer hm') = hsize (newer hm) + 1 ∧
       migration_pos hm' = migration_pos hm ∧ mask (newer hm') = mask (newer hm) ∧
       tab (newer hm') ≠ None ∧ tab (older hm') ≠ None ∧ length cso' = length cso) σ.
Proof.
  intros [Hn Ho Hnd Hb Hnull Hp Hmig] Hx.
  assert (tab (older hm) ≠ None) as Hto.
  { unfold tab_rep in Ho. destruct (tab (older hm)); [done|]. destruct Ho as [-> _]; done. }
  apply nodup_app_disj in Hnd as (Hndn & Hndo & Hd). rewrite length_app in Hb.
  destruct (concat_slot cso _ _ Hx) as (rest & Hcat & Hins & _).
  assert (x ∈ concat cso) as Hxo by (rewrite Hcat; by left).
  destruct (tab_rep_elem _ _ _ _ Ho Hxo) as (n & j & ys & Hnx & _ & _ & Hh & _).
  assert (x ∉ concat csn) as Hxn by (intros ?; by apply (Hd x)).
  apply wp_bind. rewrite <-(Z2Nat.id (migration_pos hm)) at 1 by done.
  eapply wp_mono; [apply (h_detach_spec σ (older hm) cso (Z.to_nat (migration_pos hm)) [] x xs); [done..|lia]|].
  intros r σ1 (old & -> & Ho1 & [Hf1 _] & Hm1 & [_ Ht1] & Hs1). cbn [fst snd].
  assert (∀ y, σ1 !! y = σ !! y) as Hf by (intros y; apply Hf1, not_elem_of_nil). clear Hf1.
  apply wp_bind. eapply wp_mono; [eapply (h_insert_spec σ1 (newer hm) csn x n)|].
  - eapply tab_rep_frame; [|exact Hn]. auto.
  - intros ?. by apply Hto, Hnull.
  - done.
  - done.
  - by rewrite Hf.
  - done.
  - lia.
  - intros new σ2 (i & zs & Hi & Hn2 & Hf2 & Ht2 & Hm2 & Hs2). apply wp_ret.
    destruct (concat_slot csn _ _ Hi) as (restn & Hcatn & Hinsn & _).
    exists (<[i := x :: zs]> csn), (<[Z.to_nat (migration_pos hm) := xs]> cso).
    assert (hm_elems (<[i := x :: zs]> csn) (<[Z.to_nat (migration_pos hm) := xs]> cso) ≡ₚ hm_elems csn cso)
      as Hperm.
    { unfold hm_elems. rewrite Hinsn, Hins, Hcat, Hcatn. cbn [app].
      rewrite <-Permutation_middle. done. }
    cbn [older newer migration_pos]. split_and!; [|done| |done|done|done|done|done|done|by rewrite length_insert].
    + constructor; cbn [older newer migration_pos]; [done| | | |done|done|].
      * eapply tab_rep_frame; [|exact Ho1]. intros y Hy. destruct Hf2 as [Hf2 _]. apply Hf2.
        rewrite list_elem_of_singleton. intros ->. rewrite Hins in Hy. rewrite Hcat in Hndo.
        cbn [app] in Hndo. apply NoDup_cons in Hndo as [? _]. done.
      * unfold hm_elems in Hperm. rewrite Hperm. apply nodup_app_disj. done.
      * unfold hm_elems in Hperm. rewrite Hperm, length_app. lia.
      * intros k ks Hk Hlt. rewrite list_lookup_insert_ne in Hk by lia. eauto.
    + destruct Hf2 as [Hf2 Hf3]. split.
      * intros y Hy. rewrite Hf2, Hf; [done|]. unfold hm_elems in Hy. set_solver.
      * intros y. by rewrite Hf3, Hf.
Qed.

(** What a batch of migration leaves behind. *)
Record migrated (budget : Z) (σ : hstore) (hm : HMap) (csn cso : list (list ptr))
    (hm' : HMap) (σ' : hstore) (csn' cso' : list (list ptr)) : Prop := {
  mg_rep : hm_rep σ' hm' csn' cso';
  mg_perm : hm_elems csn' cso' ≡ₚ hm_elems csn cso;
  mg_frame : hframe (hm_elems csn cso) σ σ';
  mg_older : hsize (older hm') = Z.max 0 (hsize (older hm) - budget);
  mg_mask : mask (newer hm') = mask (newer hm);
  mg_newer : tab (newer hm') = None ↔ tab (newer hm) = None;
}.

Lemma hm_rep_skip σ hm csn cso :
  hm_rep σ hm csn cso → cso !! Z.to_nat (migration_pos hm) = Some [] →
  hm_rep σ (mkHMap (older hm) (newer hm) (migration_pos hm + 1)) csn cso.
Proof.
  intros Hr Hx. pose proof (hr_pos _ _ _ _ Hr) as Hp0.
  destruct Hr; constructor; cbn [older newer migration_pos]; try done; [lia|].
  intros i ys Hi Hlt. destruct (decide (Z.of_nat i = migration_pos hm)) as [E|].
  - replace (Z.to_nat (migration_pos hm)) with i in Hx by lia. by simplify_eq.
  - apply (hr_mig0 i ys Hi). lia.
Qed.

Lemma hm_help_loop_spec fuel : ∀ work σ hm csn cso,
  hm_rep σ hm csn cso → 0 <= work <= k_rehashing_work →
  (k_rehashing_work - work) + (Z.of_nat (length cso) - migration_pos hm) <= Z.of_nat fuel →
  wp (hm_help_loop fuel work hm) (λ hm' σ', ∃ csn' cso',
      migrated (k_rehashing_work - work) σ hm csn cso hm' σ' csn' cso') σ.
Proof.
  induction fuel as [|fuel IH]; intros work σ hm csn cso Hr Hw Hfuel; cbn [hm_help_loop].
  all: destruct ((work <? k_rehashing_work) && (hsize (older hm) >? 0)) eqn:Hcond.
  2, 4: apply wp_ret; exists csn, cso; apply andb_false_iff in Hcond;
    rewrite Z.ltb_ge, Z.gtb_ltb, Z.ltb_ge in Hcond; constructor; try done;
    pose proof (tab_size _ _ _ (hr_old _ _ _ _ Hr)); lia.
  all: apply andb_true_iff in Hcond as [Hc1%Z.ltb_lt Hc2]; rewrite Z.gtb_ltb in Hc2; apply Z.ltb_lt in Hc2.
  all: destruct (migration_slot _ _ _ _ Hr Hc2) as (hs & h & xs & Ht & Hh & Hx & Hc & Hlen & Hpos).
  all: pose proof (tab_len_cs _ _ _ _ (hr_old _ _ _ _ Hr) Ht) as Hlc.
  { lia. }
  pose proof (hr_pos _ _ _ _ Hr) as Hp0.
  apply wp_bind. cbn [slot_read]. unfold tab_get. apply wp_bind. eapply wp_deref; [exact Ht|].
  eapply wp_deref; [exact Hh|]. destruct xs as [|x xs].
  - cbn [chain] in Hc. subst h. rewrite u64_id by lia.
    eapply wp_mono; [apply (IH work σ (mkHMap (older hm) (newer hm) (migration_pos hm + 1)) csn cso)|].
    + by apply hm_rep_skip.
    + done.
    + cbn [migration_pos]. lia.
    + intros hm' σ' (csn' & cso' & [? ? ? ? ? ?]). exists csn', cso'. by constructor.
  - destruct Hc as (-> & _).
    pose proof (migrate_step σ hm csn cso x xs Hr Hx) as Hstep.
    apply wp_bind. apply wp_bind_inv in Hstep. eapply wp_mono; [exact Hstep|]. clear Hstep.
    intros [node old] σ1 Hstep. cbn [fst snd] in Hstep.
    apply wp_bind. apply wp_bind_inv in Hstep. eapply wp_mono; [exact Hstep|]. clear Hstep.
    intros new σ2 (csn1 & cso1 & Hr1 & Hperm & Hf & Ho1 & Hn1 & Hp1 & Hm1 & Ht1 & Ht2 & Hl1).
    cbn [older newer migration_pos] in *.
    eapply wp_mono; [apply (IH (work + 1) _ _ csn1 cso1 Hr1)|].
    + lia.
    + cbn [migration_pos]. lia.
    + intros hm' σ3 (csn' & cso' & [Hr3 Hperm3 Hf3 Ho3 Hm3 Hn3]). exists csn', cso'.
      cbn [older newer] in *. constructor; [done| | | | |].
      * by rewrite Hperm3.
      * eapply hframe_trans; [exact Hf|]. eapply hframe_mono; [|exact Hf3]. intros y. by rewrite Hperm.
      * lia.
      * congruence.
      * split; [tauto|]. intros Hnn. exfalso.
        apply (hr_null _ _ _ _ Hr) in Hnn. congruence.
Qed.

Lemma hm_help_rehashing_spec σ hm csn cso :
  hm_rep σ hm csn cso →
  wp (hm_help_rehashing hm) (λ hm' σ', ∃ csn' cso',
      migrated k_rehashing_work σ hm csn cso hm' σ' csn' cso' ∧
      (tab (older hm') ≠ None → 0 < hsize (older hm'))) σ.
Proof.
  intros Hr. unfold hm_help_rehashing. apply wp_bind.
  eapply wp_mono; [apply (hm_help_loop_spec _ 0 σ hm csn cso Hr)|].
  - done.
  - pose proof (hr_pos _ _ _ _ Hr). pose proof (hr_old _ _ _ _ Hr) as Ho. unfold help_fuel.
    destruct (tab (older hm)) as [hs|] eqn:Ht.
    + rewrite (tab_len_cs _ _ _ _ Ho Ht). unfold k_rehashing_work. lia.
    + unfold tab_rep in Ho. rewrite Ht in Ho. destruct Ho as [-> _]. unfold k_rehashing_work. simpl. lia.
  - intros hm1 σ1 (csn1 & cso1 & Hm). rewrite Z.sub_0_r in Hm. apply wp_ret.
    destruct ((hsize (older hm1) =? 0) && negb (tab_null (older hm1))) eqn:E.
    + apply andb_true_iff in E as [E1%Z.eqb_eq E2]. destruct Hm as [Hr1 Hperm Hf Ho Hm Hn].
      pose proof (tab_size _ _ _ (hr_old _ _ _ _ Hr1)) as Hsz. rewrite E1 in Hsz.
      destruct (concat cso1) as [|] eqn:Hcc; [|simpl in Hsz; lia].
      exists csn1, []. split; [|done]. destruct Hr1 as [? ? Hnd Hb ? ? ?].
      unfold hm_elems in *. rewrite Hcc in *.
      constructor; [constructor; done|exact Hperm|exact Hf| |exact Hm|exact Hn].
      cbn [older HTable_empty hsize]. lia.
    + exists csn1, cso1. split; [done|]. intros Ht. apply andb_false_iff in E as [E|E].
      * apply Z.eqb_neq in E. pose proof (tab_size _ _ _ (hr_old _ _ _ _ (mg_rep _ _ _ _ _ _ _ _ _ Hm))). lia.
      * unfold tab_null in E. apply negb_false_iff, bool_decide_eq_true in E. done.
Qed.

(** ** The operations of the map *)
Lemma hmatch_frame xs σ σ' hc eq x : hframe xs σ σ' → hmatch σ' hc eq x = hmatch σ hc eq x.
Proof.
  intros [_ H]. specialize (H x). unfold hmatch.
  destruct (σ' !! x), (σ !! x); simpl in H; congruence.
Qed.

Lemma hm_empty_ok σ : hm_ok σ HMap_empty [].
Proof. exists [], []. split; [|done]. by constructor; try done; constructor. Qed.

Lemma hm_ok_nodup σ hm xs : hm_ok σ hm xs → NoDup xs.
Proof. intros (csn & cso & Hr & ->). apply Hr. Qed.

Lemma hm_ok_allocated σ hm xs x : hm_ok σ hm xs → x ∈ xs → ∃ n, σ !! x = Some n ∧ 0 <= hash_code n.
Proof.
  intros (csn & cso & Hr & ->) [Hx|Hx]%elem_of_app.
  - destruct (tab_rep_elem _ _ _ _ (hr_new _ _ _ _ Hr) Hx) as (n & ? & ? & ? & _ & _ & ? & _). eauto.
  - destruct (tab_rep_elem _ _ _ _ (hr_old _ _ _ _ Hr) Hx) as (n & ? & ? & ? & _ & _ & ? & _). eauto.
Qed.

Lemma hm_ok_frame σ σ' hm xs : (∀ x, x ∈ xs → σ' !! x = σ !! x) → hm_ok σ hm xs → hm_ok σ' hm xs.
Proof.
  intros Hs (csn & cso & [Hn Ho ? ? ? ? ?] & Hx). exists csn, cso. split; [|done].
  constructor; try done; (eapply tab_rep_frame; [|eassumption]);
    intros x ?; apply Hs; rewrite Hx; set_solver.
Qed.

Lemma hm_size_spec σ hm xs : hm_ok σ hm xs → hm_size hm = Z.of_nat (length xs).
Proof.
  intros (csn & cso & [Hn Ho _ Hb _ _ _] & ->). unfold hm_size.
  rewrite (tab_size _ _ _ Hn), (tab_size _ _ _ Ho), length_app in *. rewrite u64_id; lia.
Qed.

(** After the migration step of an operation. *)
Lemma hm_help_ok σ hm xs :
  hm_ok σ hm xs →
  wp (hm_help_rehashing hm) (λ hm' σ', ∃ csn cso,
      hm_rep σ' hm' csn cso ∧ xs ≡ₚ hm_elems csn cso ∧ hframe xs σ σ') σ.
Proof.
  intros (csn & cso & Hr & Hx). eapply wp_mono; [by apply hm_help_rehashing_spec|].
  intros hm' σ' (csn' & cso' & [Hr' Hp Hf _ _ _] & _). exists csn', cso'.
  split_and!; [done|by rewrite Hp|]. eapply hframe_mono; [|exact Hf]. intros y. unfold hm_elems. by rewrite Hx.
Qed.

Lemma hm_lookup_lemma σ hm xs hc eq :
  hm_ok σ hm xs → 0 <= hc →
  wp (hm_lookup hm hc eq) (λ res σ',
      hm_ok σ' res.2 xs ∧ hframe xs σ σ' ∧
      match res.1 with
      | Some x => x ∈ xs ∧ hmatch σ hc eq x = true
      | None => ∀ x, x ∈ xs → hmatch σ hc eq x = false
      end) σ.
Proof.
  intros Hok Hhc. unfold hm_lookup. apply wp_bind.
  eapply wp_mono; [by apply hm_help_ok|]. intros hm1 σ1 (csn & cso & Hr & Hx & Hf).
  assert (hm_ok σ1 hm1 xs) as Hok1 by (by exists csn, cso).
  destruct (Hr) as [Hn Ho Hnd _ _ _ _]. apply nodup_app_disj in Hnd as (Hndn & Hndo & _).
  apply wp_bind. eapply wp_mono; [by apply h_lookup_spec|]. intros [from|] ? (-> & Hres).
  - destruct Hres as (i & l & x & r & Hi & -> & Hm).
    apply wp_bind. eapply slot_read_spec; [exact Hn|done|exact Hi|]. apply wp_ret. cbn [fst snd].
    split_and!; [done|done| |by erewrite <-hmatch_frame].
    rewrite Hx. apply elem_of_app. left. apply elem_of_concat. exists i, (l ++ x :: r). set_solver.
  - apply wp_bind. eapply wp_mono; [by apply h_lookup_spec|]. intros [from|] ? (-> & Hres2).
    + destruct Hres2 as (i & l & x & r & Hi & -> & Hm).
      apply wp_bind. eapply slot_read_spec; [exact Ho|done|exact Hi|]. apply wp_ret. cbn [fst snd].
      split_and!; [done|done| |by erewrite <-hmatch_frame].
      rewrite Hx. apply elem_of_app. right. apply elem_of_concat. exists i, (l ++ x :: r). set_solver.
    + apply wp_ret. cbn [fst snd]. split_and!; [done|done|].
      intros x Hxx. rewrite Hx in Hxx. apply elem_of_app in Hxx as [?|?];
        (erewrite <-hmatch_frame; [|exact Hf]); auto.
Qed.

Lemma concat_detach (cs : list (list ptr)) i l x r :
  cs !! i = Some (l ++ x :: r) → concat cs ≡ₚ x :: concat (<[i := l ++ r]> cs).
Proof.
  intros Hi. destruct (concat_slot cs i _ Hi) as (rest & -> & -> & _).
  by rewrite <-Permutation_middle.
Qed.

Lemma slot_sub (cs : list (list ptr)) i l x r :
  cs !! i = Some (l ++ x :: r) → ∀ y, y ∈ l → y ∈ concat cs.
Proof. intros Hi y Hy. apply elem_of_concat. exists i, (l ++ x :: r). set_solver. Qed.

Lemma detach_newer σ hm csn cso i l x r :
  hm_rep σ hm csn cso → csn !! i = Some (l ++ x :: r) →
  wp (h_detach (newer hm) (slot_at (AtTab (Z.of_nat i)) l)) (λ res σ', ∃ new, res = (x, new) ∧
      hm_rep σ' (mkHMap (older hm) new (migration_pos hm)) (<[i := l ++ r]> csn) cso ∧
      hm_elems csn cso ≡ₚ x :: hm_elems (<[i := l ++ r]> csn) cso ∧
      hframe (hm_elems csn cso) σ σ') σ.
Proof.
  intros [Hn Ho Hnd Hb Hnull Hp Hmig] Hi.
  pose proof (concat_detach _ _ _ _ _ Hi) as Hcat.
  pose proof Hnd as Hnd'. apply nodup_app_disj in Hnd' as (Hndn & Hndo & Hd). rewrite length_app in Hb.
  eapply wp_mono; [apply (h_detach_spec σ (newer hm) csn i l x r Hn Hndn Hi); lia|].
  intros ? σ2 (new & -> & Hn2 & Hf2 & Hm2 & [Ht1 Ht2] & Hs2). exists new. split; [done|].
  unfold hm_elems. split_and!; [|by rewrite Hcat|].
  - rewrite Hcat in Hnd. cbn [app] in Hnd. apply NoDup_cons in Hnd as [? ?].
    constructor; cbn [older newer migration_pos]; try done.
    + eapply tab_rep_frame; [|exact Ho]. intros y Hy. destruct Hf2 as [Hf2 _]. apply Hf2.
      intros Hyl. apply (Hd y); [by eapply slot_sub|done].
    + rewrite Hcat in Hb. rewrite length_app. simpl in Hb. lia.
  - eapply hframe_mono; [|exact Hf2]. intros y Hy. apply (slot_sub _ _ _ _ _ Hi) in Hy.
    apply elem_of_app. tauto.
Qed.

Lemma detach_older σ hm csn cso i l x r :
  hm_rep σ hm csn cso → cso !! i = Some (l ++ x :: r) →
  wp (h_detach (older hm) (slot_at (AtTab (Z.of_nat i)) l)) (λ res σ', ∃ old, res = (x, old) ∧
      hm_rep σ' (mkHMap old (newer hm) (migration_pos hm)) csn (<[i := l ++ r]> cso) ∧
      hm_elems csn cso ≡ₚ x :: hm_elems csn (<[i := l ++ r]> cso) ∧
      hframe (hm_elems csn cso) σ σ') σ.
Proof.
  intros [Hn Ho Hnd Hb Hnull Hp Hmig] Hi.
  pose proof (concat_detach _ _ _ _ _ Hi) as Hcat.
  pose proof Hnd as Hnd'. apply nodup_app_disj in Hnd' as (Hndn & Hndo & Hd). rewrite length_app in Hb.
  eapply wp_mono; [apply (h_detach_spec σ (older hm) cso i l x r Ho Hndo Hi); lia|].
  intros ? σ2 (old & -> & Ho2 & Hf2 & Hm2 & [Ht1 Ht2] & Hs2). exists old. split; [done|].
  unfold hm_elems. split_and!; [|by rewrite Hcat, <-Permutation_middle|].
  - rewrite Hcat, <-Permutation_middle in Hnd. apply NoDup_cons in Hnd as [? ?].
    constructor; cbn [older newer migration_pos]; try done.
    + eapply tab_rep_frame; [|exact Hn]. intros y Hy. destruct Hf2 as [Hf2 _]. apply Hf2.
      intros Hyl. apply (Hd y); [done|by eapply slot_sub].
    + rewrite Hcat in Hb. rewrite length_app. simpl in Hb. lia.
    + intros Hnn. exfalso. by apply Ht1, Hnull.
    + intros k ks Hk Hlt. destruct (decide (k = i)) as [->|].
      { exfalso. pose proof (Hmig _ _ Hi Hlt). by destruct l. }
      rewrite list_lookup_insert_ne in Hk by done. eauto.
  - eapply hframe_mono; [|exact Hf2]. intros y Hy. apply (slot_sub _ _ _ _ _ Hi) in Hy.
    apply elem_of_app. tauto.
Qed.

Lemma hm_delete_lemma σ hm xs hc eq :
  hm_ok σ hm xs → 0 <= hc →
  wp (hm_delete hm hc eq) (λ res σ', hframe xs σ σ' ∧
      match res.1 with
      | Some x => hmatch σ hc eq x = true ∧ ∃ ys, xs ≡ₚ x :: ys ∧ hm_ok σ' res.2 ys
      | None => (∀ x, x ∈ xs → hmatch σ hc eq x = false) ∧ hm_ok σ' res.2 xs
      end) σ.
Proof.
  intros Hok Hhc. unfold hm_delete. apply wp_bind.
  eapply wp_mono; [by apply hm_help_ok|]. intros hm1 σ1 (csn & cso & Hr & Hx & Hf).
  pose proof (hr_nodup _ _ _ _ Hr) as Hnd. apply nodup_app_disj in Hnd as (Hndn & Hndo & _).
  assert (∀ σ2, hframe (hm_elems csn cso) σ1 σ2 → hframe xs σ σ2) as Hframe.
  { intros σ2 H2. eapply hframe_trans; [exact Hf|]. eapply hframe_mono; [|exact H2].
    intros y. by rewrite Hx. }
  apply wp_bind. eapply wp_mono; [by apply h_lookup_spec; [apply Hr|..]|].
  intros [from|] ? (-> & Hres).
  - destruct Hres as (i & l & x & r & Hi & -> & Hm).
    apply wp_bind. eapply wp_mono; [by eapply detach_newer|].
    intros ? σ2 (new & -> & Hr2 & Hperm & Hf2). apply wp_ret. cbn [fst snd].
    split_and!; [by apply Hframe|by erewrite <-hmatch_frame|].
    eexists. split; [by rewrite Hx, Hperm|]. by eexists _, _.
  - apply wp_bind. eapply wp_mono; [by apply h_lookup_spec; [apply Hr|..]|].
    intros [from|] ? (-> & Hres2).
    + destruct Hres2 as (i & l & x & r & Hi & -> & Hm).
      apply wp_bind. eapply wp_mono; [by eapply detach_older|].
      intros ? σ2 (old & -> & Hr2 & Hperm & Hf2). apply wp_ret. cbn [fst snd].
      split_and!; [by apply Hframe|by erewrite <-hmatch_frame|].
      eexists. split; [by rewrite Hx, Hperm|]. by eexists _, _.
    + apply wp_ret. cbn [fst snd]. split_and!; [done| |by exists csn, cso].
      intros x Hxx. rewrite Hx in Hxx. apply elem_of_app in Hxx as [?|?];
        (erewrite <-hmatch_frame; [|exact Hf]); auto.
Qed.

(** ** Insertion *)
Lemma tab_rep_fresh σ n :
  0 < n <= 2 ^ 60 → tab_rep σ (mkHTable (Some (replicate (Z.to_nat n) None)) (n - 1) 0)
                      (replicate (Z.to_nat n) []).
Proof.
  intros Hn. unfold tab_rep; cbn [tab mask hsize]. rewrite !length_replicate.
  split_and!; [lia|lia|lia|done| |].
  - intros i h xs [-> _]%lookup_replicate [-> _]%lookup_replicate. done.
  - assert (concat (replicate (Z.to_nat n) ([] : list ptr)) = []) as ->; [|done].
    generalize (Z.to_nat n) as k. induction k; simpl; auto.
Qed.

Lemma concat_fresh n : concat (replicate n ([] : list ptr)) = [].
Proof. induction n; simpl; auto. Qed.

Lemma is_pow2_range size : is_pow2 size = true → 0 < size.
Proof. unfold is_pow2. intros [H _]%andb_true_iff. lia. Qed.

Lemma wp_h_init σ size (Q : HTable → hstore → Prop) :
  is_pow2 size = true → Q (mkHTable (Some (replicate (Z.to_nat size) None)) (size - 1) 0) σ →
  wp (h_init size) Q σ.
Proof. intros Hp HQ. unfold h_init. apply wp_bind, wp_assert; [done|]. by apply wp_ret. Qed.

(** Does inserting one more node make the map start a migration?  The mask is
    that of the table the node goes to. *)
Definition slots (hm : HMap) : Z := if tab_null (newer hm) then 4 else mask (newer hm) + 1.
Definition rehash_due (hm : HMap) : bool :=
  tab_null (older hm) && (hsize (newer hm) + 1 >=? slots hm * k_max_load_factor).

(** The insertion before the load factor is looked at. *)
Definition hm_insert_front (hm : HMap) (node : ptr) : HM HMap :=
  new ← (if tab_null (newer hm) then h_init 4 else mret (newer hm));
  new ← h_insert new node;
  mret (mkHMap (older hm) new (migration_pos hm)).

Lemma hm_insert_front_spec σ hm xs node n :
  hm_ok σ hm xs → node ∉ xs → σ !! node = Some n → 0 <= hash_code n →
  Z.of_nat (length xs) + 1 < 2 ^ 58 →
  wp (hm_insert_front hm node) (λ hm' σ', hm_ok σ' hm' (node :: xs) ∧
      hframe (node :: xs) σ σ' ∧ tab (newer hm') ≠ None ∧ older hm' = older hm ∧
      hsize (newer hm') = hsize (newer hm) + 1 ∧ mask (newer hm') = slots hm - 1 ∧
      0 <= mask (newer hm') < 2 ^ 60 ∧ hsize (newer hm') <= 2 ^ 58) σ.
Proof.
  intros (csn & cso & [Hn Ho Hnd Hb Hnull Hp Hmig] & Hx) Hnode Hnn Hh Hlen.
  rewrite Hx in Hnode, Hlen. rewrite length_app in Hlen.
  assert (wp (if tab_null (newer hm) then h_init 4 else mret (newer hm)) (λ new σ', σ' = σ ∧
     ∃ cs, tab_rep σ new cs ∧ concat cs = concat csn ∧ tab new ≠ None ∧
           mask new = slots hm - 1 ∧ hsize new = hsize (newer hm)) σ) as Hprep.
  { unfold tab_null, slots. case_bool_decide as Ht.
    - apply wp_h_init; [done|]. split; [done|]. exists (replicate (Z.to_nat 4) []).
      unfold tab_rep in Hn. rewrite Ht in Hn. destruct Hn as [-> Hz].
      split_and!; [by apply (tab_rep_fresh σ 4)|by rewrite concat_fresh|done|unfold slots, tab_null; by rewrite bool_decide_true|done].
    - apply wp_ret. split; [done|]. exists csn. unfold tab_null. rewrite bool_decide_false by done.
      split_and!; try done. lia. }
  unfold hm_insert_front. apply wp_bind. eapply wp_mono; [exact Hprep|].
  intros new ? (-> & cs & Hr & Hcs & Ht & Hm & Hsz).
  apply nodup_app_disj in Hnd as Hnd'. destruct Hnd' as (Hndn & Hndo & Hd).
  rewrite <-Hcs in Hnode, Hndn, Hlen.
  apply wp_bind. eapply wp_mono; [eapply h_insert_spec; try done; [set_solver|lia]|].
  intros new' σ' (i & ys & Hi & Hr' & Hf & Ht' & Hm' & Hsz'). apply wp_ret.
  destruct (concat_slot cs _ _ Hi) as (rest & Hcat & Hins & _).
  assert (hm_elems (<[i := node :: ys]> cs) cso ≡ₚ node :: hm_elems csn cso) as Hperm.
  { unfold hm_elems. rewrite Hins, <-Hcs, Hcat. done. }
  cbn [newer older]. split_and!; try done.
  - exists (<[i := node :: ys]> cs), cso. split; [|by rewrite Hx, <-Hperm].
    unfold hm_elems in Hperm. constructor; cbn [newer older migration_pos]; try done.
    + eapply tab_rep_frame; [|exact Ho]. intros y Hy. destruct Hf as [Hf _]. apply Hf.
      rewrite list_elem_of_singleton. intros ->. set_solver.
    + rewrite Hperm. constructor; [|done]. by rewrite <-Hcs.
    + rewrite Hperm. cbn [length]. rewrite length_app, <-Hcs. lia.
  - eapply hframe_mono; [|exact Hf]. set_solver.
  - lia.
  - congruence.
  - unfold tab_rep in Hr. destruct (tab new); [|done]. lia.
  - unfold tab_rep in Hr. destruct (tab new); [|done]. lia.
  - rewrite Hsz', (tab_size _ _ _ Hr). lia.
Qed.

Lemma hm_insert_unfold hm node σ :
  hm_insert hm node σ =
  (hm ← hm_insert_front hm node;
   hm ← (if tab_null (older hm) then
            let threshold := u64 (u64 (mask (newer hm) + 1) * k_max_load_factor) in
            if hsize (newer hm) >=? threshold then hm_trigger_rehash hm else mret hm
          else mret hm);
   hm_help_rehashing hm) σ.
Proof.
  unfold hm_insert, hm_insert_front, mbind, M_bind, mret, M_ret.
  destruct ((if tab_null (newer hm) then h_init 4 else λ σ, Done (newer hm, σ)) σ) as [[]| | |]; [|done..].
  by destruct (h_insert _ _ _) as [[]| | |].
Qed.

Lemma hm_trigger_rehash_spec σ hm xs :
  hm_ok σ hm xs → tab_null (older hm) = true → tab (newer hm) ≠ None →
  if is_pow2 ((hsize (newer hm) + 1) * 2)
  then wp (hm_trigger_rehash hm) (λ hm' σ', σ' = σ ∧ hm_ok σ hm' xs) σ
  else hm_trigger_rehash hm σ = AssertFail.
Proof.
  intros (csn & cso & [Hrn Hro Hnd Hb _ _ _] & Hx) Hto Hnew.
  pose proof (tab_size _ _ _ Hrn) as Hsz. rewrite length_app in Hb.
  unfold hm_trigger_rehash. cbv zeta.
  rewrite (u64_id (hsize (newer hm) + 1)), (u64_id ((hsize (newer hm) + 1) * 2)) by lia.
  destruct (is_pow2 ((hsize (newer hm) + 1) * 2)) eqn:Hp.
  - apply wp_bind, wp_assert; [done|]. apply wp_bind, wp_h_init; [done|]. apply wp_ret.
    split; [done|].
    exists (replicate (Z.to_nat ((hsize (newer hm) + 1) * 2)) []), csn.
    rewrite concat_fresh.
    assert (cso = []) as ->.
    { unfold tab_null in Hto. apply bool_decide_eq_true in Hto. unfold tab_rep in Hro.
      rewrite Hto in Hro. tauto. }
    cbn [concat] in *. rewrite app_nil_r in *. split; [|done].
    constructor; cbn [newer older migration_pos]; rewrite ?concat_fresh; try done.
    + apply tab_rep_fresh. lia.
    + simpl. simpl in Hb. lia.
    + intros i ys _. lia.
  - unfold h_init. rewrite Hp. unfold mbind, M_bind, assert_. by rewrite Hto.
Qed.

Lemma hm_insert_lemma σ hm xs node n :
  hm_ok σ hm xs → node ∉ xs → σ !! node = Some n → 0 <= hash_code n →
  Z.of_nat (length xs) + 1 < 2 ^ 58 →
  if rehash_due hm && negb (is_pow2 ((hsize (newer hm) + 2) * 2))
  then hm_insert hm node σ = AssertFail
  else wp (hm_insert hm node) (λ hm' σ',
         hm_ok σ' hm' (node :: xs) ∧ hframe (node :: xs) σ σ') σ.
Proof.
  intros Hok Hnode Hn Hh Hlen.
  pose proof (hm_insert_front_spec σ hm xs node n Hok Hnode Hn Hh Hlen) as Hfront.
  apply wp_inv in Hfront as (hm1 & σ1 & Hrun & Hok1 & Hf1 & Ht1 & Ho1 & Hs1 & Hm1 & Hm1b & Hs1b).
  assert (hm_insert hm node σ =
    (hm ← (if tab_null (older hm1)
           then if hsize (newer hm1) >=? u64 (u64 (mask (newer hm1) + 1) * k_max_load_factor)
                then hm_trigger_rehash hm1 else mret hm1
           else mret hm1); hm_help_rehashing hm) σ1) as Heq.
  { rewrite hm_insert_unfold. by rewrite (bind_done _ _ _ _ _ Hrun). }
  assert (∀ hm2, hm_ok σ1 hm2 (node :: xs) →
    wp (hm_help_rehashing hm2) (λ hm' σ', hm_ok σ' hm' (node :: xs) ∧ hframe (node :: xs) σ σ') σ1) as Hhelp.
  { intros hm2 Hok2. eapply wp_mono; [by apply hm_help_ok|].
    intros hm' σ' (csn & cso & Hr & Hx & Hf). split; [by exists csn, cso|]. by eapply hframe_trans. }
  replace (hsize (newer hm) + 2) with (hsize (newer hm1) + 1) by lia.
  unfold rehash_due, k_max_load_factor in *. rewrite <-Hs1, <-Ho1.
  replace (slots hm) with (mask (newer hm1) + 1) by lia.
  rewrite (u64_id (mask (newer hm1) + 1)), (u64_id ((mask (newer hm1) + 1) * 8)) in Heq by lia.
  pose proof (hm_trigger_rehash_spec σ1 hm1 _ Hok1) as Htrig.
  destruct (tab_null (older hm1)) eqn:Hto; cbn [andb].
  2: { eapply wp_eq; [exact Heq|]. apply wp_bind, wp_ret. by apply Hhelp. }
  destruct (hsize (newer hm1) >=? _) eqn:Hdue; cbn [andb].
  2: { eapply wp_eq; [exact Heq|]. apply wp_bind, wp_ret. by apply Hhelp. }
  specialize (Htrig eq_refl Ht1).
  destruct (is_pow2 ((hsize (newer hm1) + 1) * 2)); cbn [negb].
  - eapply wp_eq; [exact Heq|]. apply wp_bind. eapply wp_mono; [exact Htrig|].
    intros hm2 ? (-> & Hok2). by apply Hhelp.
  - rewrite Heq. by apply bind_assert_fail.
Qed.

(** ** Enumeration *)
Fixpoint fold_until {A} (f : ptr → A → bool * A) (xs : list ptr) (args : A) : bool * A :=
  match xs with
  | [] => (true, args)
  | x :: xs => match f x args with (true, args) => fold_until f xs args | r => r end
  end.

Lemma fold_until_app {A} (f : ptr → A → bool * A) xs ys args :
  fold_until f (xs ++ ys) args =
  match fold_until f xs args with (true, args) => fold_until f ys args | r => r end.
Proof.
  revert args. induction xs as [|x xs IH]; intros args; cbn [app fold_until]; [done|].
  destruct (f x args) as [[] args']; [apply IH|done].
Qed.

Section foreach_proofs.
Context {A : Type} (f : ptr → A → bool * A).

Lemma h_foreach_chain_spec σ P xs : ∀ fuel h args,
  chain σ P h xs → (length xs ≤ fuel)%nat →
  h_foreach_chain f fuel h args σ = Done (fold_until f xs args, σ).
Proof.
  induction xs as [|x xs IH]; intros fuel h args; cbn [chain].
  { intros -> _. by destruct fuel. }
  intros (-> & n & Hn & _ & Hc) Hfuel. destruct fuel as [|fuel]; [simpl in Hfuel; lia|].
  cbn [h_foreach_chain fold_until]. destruct (f x args) as [[] args']; [|done].
  erewrite bind_done; [|unfold load; by rewrite Hn]. apply IH; [done|]. simpl in Hfuel. lia.
Qed.

Lemma h_foreach_slots_spec σ ht cs hs todo : ∀ args,
  tab_rep σ ht cs → tab ht = Some hs → NoDup (concat cs) → (todo ≤ length cs)%nat →
  h_foreach_slots f todo ht args σ =
  Done (fold_until f (concat (drop (length cs - todo) cs)) args, σ).
Proof.
  induction todo as [|todo IH]; intros args Hr Ht Hnd Hle.
  { rewrite Nat.sub_0_r, drop_all. done. }
  pose proof Hr as Hr0. unfold tab_rep in Hr0. rewrite Ht in Hr0. destruct Hr0 as (Hm & Hlh & Hlc & _ & _).
  destruct (lookup_lt_is_Some_2 cs (length cs - S todo)) as [xs Hxs]; [lia|].
  destruct (lookup_lt_is_Some_2 hs (length cs - S todo)) as [h Hh]; [lia|].
  pose proof (tab_head _ _ _ _ _ _ _ Hr Ht Hh Hxs) as Hc.
  rewrite (drop_S _ _ _ Hxs). cbn [concat]. rewrite fold_until_app.
  replace (S (length cs - S todo)) with (length cs - todo)%nat by lia.
  cbn [h_foreach_slots]. erewrite bind_done.
  2: { unfold tab_get. erewrite bind_done; [|by rewrite Ht].
       replace (Z.to_nat (mask ht - Z.of_nat todo)) with (length cs - S todo)%nat by lia.
       by rewrite Hh. }
  erewrite bind_done; [|done]. erewrite bind_done.
  2: { eapply h_foreach_chain_spec; [exact Hc|].
       destruct (concat_slot cs _ _ Hxs) as (rest & Hcat & _). rewrite Hcat in Hnd.
       apply NoDup_app in Hnd as (Hnd & _). apply nodup_size; [done|].
       intros x Hx. destruct (chain_allocated _ _ _ _ _ Hc Hx) as (? & ? & _). eauto. }
  destruct (fold_until f xs args) as [[] args']; [|done]. apply IH; try done. lia.
Qed.

Lemma h_foreach_spec σ ht cs args :
  tab_rep σ ht cs → NoDup (concat cs) →
  h_foreach f ht args σ = Done (fold_until f (concat cs) args, σ).
Proof.
  intros Hr Hnd. unfold h_foreach. destruct (tab ht) as [hs|] eqn:Ht.
  - pose proof Hr as Hr0. unfold tab_rep in Hr0. rewrite Ht in Hr0. destruct Hr0 as (Hm & Hlh & Hlc & _ & _).
    erewrite h_foreach_slots_spec; [|done|done|done|lia].
    replace (length cs - _)%nat with 0%nat by lia. done.
  - unfold tab_rep in Hr. rewrite Ht in Hr. by destruct Hr as [-> _].
Qed.

Lemma hm_foreach_lemma σ hm csn cso args :
  hm_rep σ hm csn cso →
  hm_foreach f hm args σ = Done ((fold_until f (hm_elems csn cso) args).2, σ).
Proof.
  intros [Hn Ho Hnd _ _ _ _]. apply nodup_app_disj in Hnd as (Hndn & Hndo & _).
  unfold hm_foreach, hm_elems. rewrite fold_until_app.
  erewrite bind_done; [|by apply h_foreach_spec].
  destruct (fold_until f (concat csn) args) as [[] args']; [|done].
  erewrite bind_done; [|by apply h_foreach_spec]. done.
Qed.
End foreach_proofs.

(** ** What the program can reach *)

(** The states of a map from its creation, as the operations build it; other
    nodes may be allocated, freed or linked in between. *)
Inductive hm_reach : hstore → HMap → list ptr → Prop :=
| reach_empty σ : hm_reach σ HMap_empty []
| reach_other σ σ' hm xs :
    hm_reach σ hm xs → (∀ x, x ∈ xs → σ' !! x = σ !! x) → hm_reach σ' hm xs
| reach_insert σ hm xs node n σ' hm' :
    hm_reach σ hm xs → node ∉ xs → σ !! node = Some n → 0 <= hash_code n →
    hm_insert hm node σ = Done (hm', σ') → hm_reach σ' hm' (node :: xs)
| reach_lookup σ hm xs hc eq r σ' hm' :
    hm_reach σ hm xs → 0 <= hc →
    hm_lookup hm hc eq σ = Done ((r, hm'), σ') → hm_reach σ' hm' xs
| reach_delete_some σ hm xs hc eq x ys σ' hm' :
    hm_reach σ hm xs → 0 <= hc → xs ≡ₚ x :: ys →
    hm_delete hm hc eq σ = Done ((Some x, hm'), σ') → hm_reach σ' hm' ys
| reach_delete_none σ hm xs hc eq σ' hm' :
    hm_reach σ hm xs → 0 <= hc →
    hm_delete hm hc eq σ = Done ((None, hm'), σ') → hm_reach σ' hm' xs.

(** A map that never rehashed: four slots and no older table. *)
Definition quiet (hm : HMap) : Prop :=
  older hm = HTable_empty ∧ slots hm = 4.

Lemma help_quiet hm σ : older hm = HTable_empty → hm_help_rehashing hm σ = Done (hm, σ).
Proof.
  intros Ho. unfold hm_help_rehashing. erewrite (bind_done _ _ _ hm).
  - by rewrite Ho.
  - assert (∀ fuel, hm_help_loop fuel 0 hm σ = Done (hm, σ)) as H; [|apply H].
    intros fuel. destruct fuel; cbn [hm_help_loop]; by rewrite Ho.
Qed.

Lemma slot_write_shape ht from v σ ht' σ' :
  slot_write ht from v σ = Done (ht', σ') → mask ht' = mask ht ∧ tab_null ht' = tab_null ht.
Proof.
  destruct from as [pos|p]; cbn [slot_write]; unfold tab_set.
  - intros (hs & ? & [Ht ->]%deref_inv & H)%bind_inv.
    apply bind_inv in H as (? & ? & _ & [= -> ->]%ret_inv).
    unfold tab_null. cbn [tab mask]. by rewrite Ht, !bool_decide_false.
  - by intros (? & ? & _ & [= -> ->]%ret_inv)%bind_inv.
Qed.

Lemma h_detach_shape ht from σ x ht' σ' :
  h_detach ht from σ = Done ((x, ht'), σ') → mask ht' = mask ht ∧ tab_null ht' = tab_null ht.
Proof.
  unfold h_detach. intros (? & ? & _ & H)%bind_inv.
  apply bind_inv in H as (? & ? & _ & H). apply bind_inv in H as (? & ? & _ & H).
  apply bind_inv in H as (ht1 & ? & H & [= -> -> ->]%ret_inv). by apply slot_write_shape in H.
Qed.

Lemma hm_lookup_quiet hm hc eq σ r hm' σ' :
  older hm = HTable_empty → hm_lookup hm hc eq σ = Done ((r, hm'), σ') → hm' = hm.
Proof.
  intros Ho. unfold hm_lookup. rewrite (bind_done _ _ _ _ _ (help_quiet hm σ Ho)).
  intros ([from|] & ? & _ & H)%bind_inv.
  - by apply bind_inv in H as (? & ? & _ & [= -> -> ->]%ret_inv).
  - rewrite Ho in H. by apply bind_inv in H as (from & ? & [= <- <-] & [= -> -> ->]%ret_inv).
Qed.

Lemma hm_delete_quiet hm hc eq σ r hm' σ' :
  quiet hm → hm_delete hm hc eq σ = Done ((r, hm'), σ') → quiet hm'.
Proof.
  intros [Ho Hs]. unfold hm_delete. rewrite (bind_done _ _ _ _ _ (help_quiet hm σ Ho)).
  intros ([from|] & ? & _ & H)%bind_inv.
  - apply bind_inv in H as ([node new] & ? & [Hm Ht]%h_detach_shape & [= -> -> ->]%ret_inv).
    split; [done|]. unfold slots in *. cbn [newer]. by rewrite Ht, Hm.
  - rewrite Ho in H. by apply bind_inv in H as (from & ? & [= <- <-] & [= -> -> ->]%ret_inv).
Qed.

Lemma quiet_insert σ hm xs node n :
  hm_ok σ hm xs → quiet hm → Z.of_nat (length xs) <= 31 →
  node ∉ xs → σ !! node = Some n → 0 <= hash_code n →
  if bool_decide (length xs = 31%nat) then hm_insert hm node σ = AssertFail
  else wp (hm_insert hm node) (λ hm' σ', hm_ok σ' hm' (node :: xs) ∧ quiet hm' ∧
         hframe (node :: xs) σ σ') σ.
Proof.
  intros Hok [Ho Hs] Hlen Hnode Hn Hh.
  assert (hsize (newer hm) = Z.of_nat (length xs)) as Hsz.
  { destruct Hok as (csn & cso & [Hrn Hro _ _ _ _ _] & ->).
    rewrite (tab_size _ _ _ Hrn). unfold hm_elems. rewrite length_app.
    rewrite Ho in Hro. pose proof (tab_size _ _ _ Hro) as H. simpl in H. lia. }
  case_bool_decide as Hl.
  - pose proof (hm_insert_lemma σ hm xs node n Hok Hnode Hn Hh ltac:(lia)) as H.
    unfold rehash_due in H. by rewrite Ho, Hsz, Hs, Hl in H.
  - pose proof (hm_insert_front_spec σ hm xs node n Hok Hnode Hn Hh ltac:(lia)) as Hf.
    apply wp_inv in Hf as (hm1 & σ1 & Hrun & Hok1 & Hf1 & Ht1 & Ho1 & Hs1 & Hm1 & _).
    rewrite Hs in Hm1. rewrite Ho in Ho1.
    eapply wp_eq; [rewrite hm_insert_unfold, (bind_done _ _ _ _ _ Hrun), Ho1, Hm1; reflexivity|].
    assert (hsize (newer hm1) < 32) by lia.
    assert (hsize (newer hm1) >=? u64 (u64 (4 - 1 + 1) * k_max_load_factor) = false) as Hdue.
    { change (u64 _) with 32. lia. }
    apply wp_bind. change (tab_null HTable_empty) with true. cbv zeta iota. rewrite Hdue. apply wp_ret.
    eapply wp_done; [by apply help_quiet|]. split_and!; [done| |done].
    split; [done|]. unfold slots, tab_null. rewrite bool_decide_false by done. lia.
Qed.

Lemma hm_reach_quiet σ hm xs :
  hm_reach σ hm xs → hm_ok σ hm xs ∧ quiet hm ∧ Z.of_nat (length xs) <= 31.
Proof.
  induction 1 as [σ|σ σ' hm xs _ (Hok & Hq & Hl) Hf|σ hm xs node n σ' hm' _ (Hok & Hq & Hl) Hnode Hn Hh Hrun
    |σ hm xs hc eq r σ' hm' _ (Hok & Hq & Hl) Hhc Hrun
    |σ hm xs hc eq x ys σ' hm' _ (Hok & Hq & Hl) Hhc Hx Hrun
    |σ hm xs hc eq σ' hm' _ (Hok & Hq & Hl) Hhc Hrun].
  - split_and!; [apply hm_empty_ok|done|simpl; lia].
  - split_and!; [by eapply hm_ok_frame|done|done].
  - pose proof (quiet_insert _ _ _ _ _ Hok Hq Hl Hnode Hn Hh) as Hi. case_bool_decide; [congruence|].
    eapply wp_elim in Hi; [|exact Hrun]. destruct Hi as (? & ? & _). split_and!; [done..|].
    cbn [length]. lia.
  - pose proof (hm_lookup_lemma _ _ _ _ eq Hok Hhc) as H. eapply wp_elim in H; [|exact Hrun].
    destruct H as (? & _). split_and!; [done| |done].
    destruct Hq as [Ho ?]. by rewrite (hm_lookup_quiet _ _ _ _ _ _ _ Ho Hrun).
  - pose proof (hm_delete_lemma _ _ _ _ eq Hok Hhc) as H. eapply wp_elim in H; [|exact Hrun].
    destruct H as (_ & Hm & ys' & Hp & Hok'). cbn [snd] in Hok'. split_and!.
    + rewrite Hx in Hp. apply Permutation_cons_inv in Hp.
      destruct Hok' as (csn & cso & ? & Hys). exists csn, cso. split; [done|]. by rewrite Hp.
    + by eapply hm_delete_quiet.
    + rewrite Hx in Hl. cbn [length] in Hl. lia.
  - pose proof (hm_delete_lemma _ _ _ _ eq Hok Hhc) as H. eapply wp_elim in H; [|exact Hrun].
    destruct H as (_ & _ & Hok'). split_and!; [done|by eapply hm_delete_quiet|done].
Qed.

(** Reading a quiet map changes nothing at all. *)
Definition reads {A} (m : HM A) : Prop := ∀ σ r σ', m σ = Done (r, σ') → σ' = σ.

Lemma reads_bind {A B} (m : HM A) (f : A → HM B) : reads m → (∀ a, reads (f a)) → reads (m ≫= f).
Proof. intros Hm Hf σ r σ' (a & σ1 & H1%Hm & H2%Hf)%bind_inv. by subst. Qed.
Lemma reads_ret {A} (a : A) : reads (mret a).
Proof. by intros σ r σ' [= _ ->]%ret_inv. Qed.
Lemma reads_deref {A} (o : option A) : reads (deref o).
Proof. by intros σ r σ' [_ ->]%deref_inv. Qed.
Lemma reads_load x : reads (load x).
Proof. intros σ r σ'. unfold load. destruct (σ !! x); [by intros [= _ <-]|done]. Qed.

Lemma reads_tab_get ht pos : reads (tab_get ht pos).
Proof. apply reads_bind; [apply reads_deref|intros; apply reads_deref]. Qed.

Lemma reads_h_lookup hc eq ht : reads (h_lookup hc eq ht).
Proof.
  assert (∀ fuel from curr, reads (h_lookup_chain hc eq fuel from curr)) as Hc.
  { induction fuel as [|fuel IH]; intros from [c|]; cbn [h_lookup_chain]; try apply reads_ret; [done|].
    apply reads_bind; [apply reads_load|]. intros n. destruct (_ && _); [apply reads_ret|apply IH]. }
  unfold h_lookup. destruct (tab ht); [|apply reads_ret].
  apply reads_bind; [apply reads_tab_get|]. intros h. apply reads_bind; [|intros; apply Hc].
  by intros σ r σ' [= _ <-].
Qed.

Lemma reads_slot_read ht from : reads (slot_read ht from).
Proof.
  destruct from; cbn [slot_read]; [apply reads_tab_get|].
  apply reads_bind; [apply reads_load|intros; apply reads_ret].
Qed.

Lemma hm_lookup_quiet_lemma σ hm xs hc eq :
  hm_ok σ hm xs → quiet hm → 0 <= hc →
  ∃ r, hm_lookup hm hc eq σ = Done ((r, hm), σ) ∧
    match r with
    | Some x => x ∈ xs ∧ hmatch σ hc eq x = true
    | None => ∀ x, x ∈ xs → hmatch σ hc eq x = false
    end.
Proof.
  intros Hok [Ho _] Hhc. pose proof (hm_lookup_lemma σ hm xs hc eq Hok Hhc) as Hl.
  apply wp_inv in Hl as ([r hm'] & σ' & Hrun & _ & _ & Hres). exists r. split; [|done].
  pose proof (hm_lookup_quiet _ _ _ _ _ _ _ Ho Hrun) as ->. rewrite Hrun. do 2 f_equal.
  revert Hrun. unfold hm_lookup. rewrite (bind_done _ _ _ _ _ (help_quiet hm σ Ho)).
  assert (∀ A (m : HM A), reads m → ∀ r, m σ = Done (r, σ') → σ' = σ) as Hr by eauto.
  apply Hr. apply reads_bind; [apply reads_h_lookup|]. intros [from|].
  { apply reads_bind; [apply reads_slot_read|intros; apply reads_ret]. }
  apply reads_bind; [apply reads_h_lookup|]. intros [from|]; [|apply reads_ret].
  apply reads_bind; [apply reads_slot_read|intros; apply reads_ret].
Qed.
