(* ===== verification/HashtableProps.v ===== *)
(** The properties of the hash map (storage/hashtable.cpp). *)
From S2P Require Import Prelude Hashtable HashtableProofs.

(** ** Instances: maps built by insertions *)
Fixpoint insert_all (hm : HMap) (xs : list ptr) : HM HMap :=
  match xs with
  | [] => mret hm
  | x :: xs => hm ← hm_insert hm x; insert_all hm xs
  end.

Lemma insert_all_reach (xs : list ptr) : ∀ σ hm ys σ' hm',
  hm_reach σ hm ys → NoDup (xs ++ ys) →
  forallb (λ x, match σ !! x with Some n => 0 <=? hash_code n | None => false end) xs = true →
  insert_all hm xs σ = Done (hm', σ') → hm_reach σ' hm' (reverse xs ++ ys).
Proof.
  induction xs as [|x xs IH]; intros σ hm ys σ' hm' Hr Hnd Hall; cbn [insert_all].
  { by intros [= <- <-]. }
  intros (hm1 & σ1 & Hi & Hrest)%bind_inv. cbn [forallb] in Hall. apply andb_true_iff in Hall as [Hx Hall].
  destruct (σ !! x) as [n|] eqn:Hn; [|done]. cbn [app] in Hnd.
  assert (NoDup (xs ++ x :: ys)) as Hnd' by (by rewrite <-Permutation_middle).
  apply NoDup_cons in Hnd as [Hxn _]. apply not_elem_of_app in Hxn as [_ Hxy].
  rewrite reverse_cons, <-app_assoc. apply (IH σ1 hm1 (x :: ys)); [|done| |done].
  - eapply reach_insert; [done|done|done|lia|done].
  - pose proof (hm_reach_quiet _ _ _ Hr) as (Hok & Hq & Hl).
    pose proof (quiet_insert _ _ _ _ _ Hok Hq Hl Hxy Hn ltac:(lia)) as Hins.
    case_bool_decide; [congruence|]. eapply wp_elim in Hins; [|exact Hi]. destruct Hins as (_ & _ & [_ Hc]).
    apply forallb_forall. intros y Hy. rewrite forallb_forall in Hall. specialize (Hall y Hy).
    specialize (Hc y). destruct (σ !! y) as [ny|]; [|done]. by destruct (σ1 !! y); [injection Hc as ->|].
Qed.

(** Three nodes, two in the same slot, in a map; and a fourth, not in it. *)
Definition nodes : hstore :=
  list_to_map [(1, mkHNode None 4); (2, mkHNode None 8); (3, mkHNode None 5); (4, mkHNode None 12)]%positive.
Definition three : outcome (HMap * hstore) := insert_all HMap_empty [1; 2; 3]%positive nodes.
Definition three_map : HMap := match three with Done (hm, _) => hm | _ => HMap_empty end.
Definition three_store : hstore := match three with Done (_, σ) => σ | _ => ∅ end.

Lemma three_reach : hm_reach three_store three_map [3; 2; 1]%positive.
Proof.
  apply (insert_all_reach [1; 2; 3]%positive nodes HMap_empty []).
  - constructor.
  - apply (bool_decide_unpack _). vm_compute. exact I.
  - vm_compute. reflexivity.
  - vm_compute. reflexivity.
Qed.

(** A map in the middle of a migration: one node in each table. *)
Definition migrating_store : hstore := list_to_map [(1, mkHNode None 4); (2, mkHNode None 8)]%positive.
Definition migrating : HMap :=
  mkHMap (mkHTable (Some [Some 1%positive; None]) 1 1) (mkHTable (Some [Some 2%positive; None; None; None]) 3 1) 0.

Lemma migrating_rep : hm_rep migrating_store migrating [[2%positive]; []; []; []] [[1%positive]; []].
Proof.
  unfold migrating. constructor; cbn [newer older migration_pos].
  1,2: unfold tab_rep; cbn [tab mask hsize]; split_and!; try done;
    intros i h xs; do 4 (destruct i as [|i]; [intros [= <-] [= <-]; cbn; try done;
      (split; [done|]; eexists; split; [vm_compute; reflexivity|]; split; [by split; vm_compute|done])|]);
    by intros ?%lookup_lt_Some; cbn in *; lia.
  - apply (bool_decide_unpack _). vm_compute. exact I.
  - done.
  - done.
  - done.
  - intros i xs _. lia.
Qed.

(** * Properties *)

(** C18: hm_lookup, whatever the state of a migration, returns a node with the
    hash code of the key that the comparison accepts, or null when the map has
    none; the map keeps its nodes, and only their links may change. *)
Theorem hm_lookup_correct σ hm xs hc eq :
  hm_ok σ hm xs → 0 <= hc →
  wp (hm_lookup hm hc eq) (λ res σ',
      hm_ok σ' res.2 xs ∧ hframe xs σ σ' ∧
      match res.1 with
      | Some x => x ∈ xs ∧ hmatch σ hc eq x = true
      | None => ∀ x, x ∈ xs → hmatch σ hc eq x = false
      end) σ.
Proof. apply hm_lookup_lemma. Qed.

Lemma hm_lookup_correct_witness :
  wp (hm_lookup migrating 4 (λ _, true)) (λ res σ', res.1 = Some 1%positive ∧ hm_ok σ' res.2 [2; 1]%positive)
    migrating_store.
Proof.
  eapply wp_mono; [apply (hm_lookup_correct migrating_store migrating [2; 1]%positive 4 (λ _, true));
    [exists [[2%positive]; []; []; []], [[1%positive]; []]; split; [apply migrating_rep|done]|lia]|].
  intros [[x|] hm'] σ'; cbn [fst snd].
  - intros (Hok & _ & [->|[->|[]%elem_of_nil]%elem_of_cons]%elem_of_cons & Hm); [discriminate Hm|done].
  - intros (_ & _ & Hn). specialize (Hn 1%positive ltac:(right; by left)). discriminate Hn.
Defined.

(** C19: hm_insert of a node that is not in the map adds it, unless the
    insertion makes a migration due and the size of the new table is not a
    power of two: then the assertion of h_init fails. *)
Theorem hm_insert_correct σ hm xs node n :
  hm_ok σ hm xs → node ∉ xs → σ !! node = Some n → 0 <= hash_code n →
  Z.of_nat (length xs) + 1 < 2 ^ 58 →
  if rehash_due hm && negb (is_pow2 ((hsize (newer hm) + 2) * 2))
  then hm_insert hm node σ = AssertFail
  else wp (hm_insert hm node) (λ hm' σ',
         hm_ok σ' hm' (node :: xs) ∧ hframe (node :: xs) σ σ') σ.
Proof. apply hm_insert_lemma. Qed.

Lemma hm_insert_correct_witness :
  wp (hm_insert three_map 4) (λ hm' σ', hm_ok σ' hm' [4; 3; 2; 1]%positive) three_store.
Proof.
  eapply wp_mono; [apply (hm_insert_correct three_store three_map [3; 2; 1]%positive 4 (mkHNode None 12))|].
  - apply (hm_reach_quiet _ _ _ three_reach).
  - apply (bool_decide_unpack _). vm_compute. exact I.
  - vm_compute. reflexivity.
  - done.
  - done.
  - by intros hm' σ' [? _].
Defined.

(** C20: hm_delete removes a node with the hash code of the key that the
    comparison accepts and returns it, or returns null and keeps all the
    nodes when the map has none. *)
Theorem hm_delete_correct σ hm xs hc eq :
  hm_ok σ hm xs → 0 <= hc →
  wp (hm_delete hm hc eq) (λ res σ', hframe xs σ σ' ∧
      match res.1 with
      | Some x => hmatch σ hc eq x = true ∧ ∃ ys, xs ≡ₚ x :: ys ∧ hm_ok σ' res.2 ys
      | None => (∀ x, x ∈ xs → hmatch σ hc eq x = false) ∧ hm_ok σ' res.2 xs
      end) σ.
Proof. apply hm_delete_lemma. Qed.

Lemma hm_delete_correct_witness :
  wp (hm_delete three_map 8 (λ x, bool_decide (x = 2%positive)))
    (λ res σ', res.1 = Some 2%positive ∧ hm_ok σ' res.2 [3; 1]%positive) three_store.
Proof.
  eapply wp_mono; [apply (hm_delete_correct three_store three_map [3; 2; 1]%positive 8
    (λ x, bool_decide (x = 2%positive))); [apply (hm_reach_quiet _ _ _ three_reach)|lia]|].
  intros [[x|] hm'] σ'; cbn [fst snd]; intros [_ Hres].
  - destruct Hres as (Hm & ys & Hp & Hok). unfold hmatch in Hm.
    destruct (three_store !! x); [|discriminate Hm]. apply andb_true_iff in Hm as [_ ->%bool_decide_eq_true].
    split; [done|]. rewrite (Permutation_swap 2%positive 3%positive [1%positive]) in Hp.
    apply Permutation_cons_inv in Hp. by rewrite Hp.
  - destruct Hres as [Hn _]. specialize (Hn 2%positive ltac:(right; by left)). discriminate Hn.
Defined.

(** C21: hm_help_rehashing moves min(128, what is left) nodes from the older
    table to the newer one and no more, loses and duplicates none, and frees
    the older table when it is empty. *)
Theorem hm_help_rehashing_bounded σ hm csn cso :
  hm_rep σ hm csn cso →
  wp (hm_help_rehashing hm) (λ hm' σ', ∃ csn' cso', hm_rep σ' hm' csn' cso' ∧
      concat csn' ++ concat cso' ≡ₚ concat csn ++ concat cso ∧
      hsize (older hm') = Z.max 0 (hsize (older hm) - k_rehashing_work) ∧
      (tab (older hm') ≠ None → 0 < hsize (older hm'))) σ.
Proof.
  intros Hr. eapply wp_mono; [by apply hm_help_rehashing_spec|].
  intros hm' σ' (csn' & cso' & [? ? ? ? ? ?] & ?). exists csn', cso'. split_and!; done.
Qed.

Lemma hm_help_rehashing_bounded_witness :
  wp (hm_help_rehashing migrating) (λ hm' σ', hsize (older hm') = 0 ∧ tab (older hm') = None) migrating_store.
Proof.
  eapply wp_mono; [apply (hm_help_rehashing_bounded _ _ _ _ migrating_rep)|].
  intros hm' σ' (csn' & cso' & _ & _ & Hs & Ht). change (hsize (older hm') = 0) in Hs. split; [done|].
  destruct (tab (older hm')); [|done]. specialize (Ht ltac:(done)). lia.
Defined.

(** [hm_foreach] calls the callback once for each node of the map, until
    the callback asks to stop, and changes nothing. *)
Theorem hm_foreach_correct {A} (f : ptr → A → bool * A) σ hm csn cso args :
  hm_rep σ hm csn cso →
  hm_foreach f hm args σ = Done ((fold_until f (concat csn ++ concat cso) args).2, σ).
Proof. apply hm_foreach_lemma. Qed.

Lemma hm_foreach_correct_witness :
  hm_foreach (λ x acc, (true, x :: acc)) migrating [] migrating_store = Done ([1; 2]%positive, migrating_store).
Proof. exact (hm_foreach_correct (λ x acc, (true, x :: acc)) _ _ _ _ [] migrating_rep). Defined.

(** C22: no map the program can build ever migrates: it keeps its four slots
    and holds at most 31 nodes (the next insertion ends the program). *)
Theorem hm_reachable_never_migrates σ hm xs :
  hm_reach σ hm xs →
  hm_ok σ hm xs ∧ older hm = HTable_empty ∧ slots hm = 4 ∧ Z.of_nat (length xs) <= 31.
Proof. intros Hr. by destruct (hm_reach_quiet _ _ _ Hr) as (? & [? ?] & ?). Qed.

Lemma hm_reachable_never_migrates_witness :
  hm_ok three_store three_map [3; 2; 1]%positive ∧ older three_map = HTable_empty ∧
  slots three_map = 4 ∧ 3 <= 31.
Proof. apply (hm_reachable_never_migrates _ _ _ three_reach). Defined.

(** Inserting a 32nd node into a map the program built fails the assertion
    of h_init: hm_trigger_rehash asks for (32 + 1) * 2 = 66 slots, computed
    from the number of nodes and not from the number of slots. *)
Theorem hm_insert_32_aborts σ hm xs node n :
  hm_reach σ hm xs → length xs = 31%nat → node ∉ xs → σ !! node = Some n → 0 <= hash_code n →
  hm_insert hm node σ = AssertFail.
Proof.
  intros Hr Hl Hnode Hn Hh. destruct (hm_reach_quiet _ _ _ Hr) as (Hok & Hq & Hle).
  pose proof (quiet_insert _ _ _ _ _ Hok Hq Hle Hnode Hn Hh) as H. by rewrite bool_decide_true in H.
Qed.

Definition many : list ptr := map Pos.of_nat (seq 1 31).
Definition many_nodes : hstore := list_to_map (map (λ x, (x, mkHNode None (Z.pos x))) (32%positive :: many)).
Definition many_done : outcome (HMap * hstore) := insert_all HMap_empty many many_nodes.

Lemma hm_insert_32_aborts_witness :
  match many_done with Done (hm, σ) => hm_insert hm 32 σ = AssertFail | _ => False end.
Proof.
  destruct many_done as [[hm σ]| | |] eqn:Hm.
  - assert (hm_reach σ hm (reverse many ++ [])) as Hr.
    { apply (insert_all_reach many many_nodes HMap_empty []);
        [constructor|apply (bool_decide_unpack _); vm_compute; exact I|vm_compute; reflexivity|exact Hm]. }
    vm_compute in Hm. injection Hm as <- <-.
    apply (hm_insert_32_aborts _ _ _ _ (mkHNode None 32) Hr);
      [reflexivity|apply (bool_decide_unpack _); vm_compute; exact I|vm_compute; reflexivity|done].
  - vm_compute in Hm. discriminate Hm.
  - vm_compute in Hm. discriminate Hm.
  - vm_compute in Hm. discriminate Hm.
Defined.
