(* ===== verification/Heap.v ===== *)
(** The binary min-heap of storage/heap.{h,cpp} that schedules the key
    expirations.  The state is the vector and, for each owner, the [heap_idx]
    field its item points back to ([HeapItem::ref] is the address of that
    field, named by its owner).  A vector is indexed as C++ does it: an index
    out of range, or a [ref] to no owner, is undefined behaviour. *)
From S2P Require Import Prelude.

Record HeapItem := mkHeapItem { val : Z; ref : ptr }.
Record HeapState := mkHeapState {
  items : list HeapItem;
  idx : gmap ptr Z;
}.
Abbreviation HP := (M HeapState).

#[export] Instance HeapItem_eq_dec : EqDecision HeapItem.
Proof. solve_decision. Defined.

(** [heap[pos]], read and written, and [*r = pos]. *)
Definition heap_get (pos : Z) : HP HeapItem :=
  s ← get_state; deref (items s !! Z.to_nat pos).
Definition heap_set (pos : Z) (x : HeapItem) : HP () :=
  s ← get_state;
  _ ← deref (items s !! Z.to_nat pos);
  put_state (mkHeapState (<[Z.to_nat pos := x]> (items s)) (idx s)).
Definition set_ref (r : ptr) (pos : Z) : HP () :=
  s ← get_state;
  _ ← deref (idx s !! r);
  put_state (mkHeapState (items s) (<[r := pos]> (idx s))).

(** [*heap[pos].ref = pos] *)
Definition fix_ref (pos : Z) : HP () := x ← heap_get pos; set_ref (ref x) pos.
Definition heap_size : HP Z := s ← get_state; mret (Z.of_nat (length (items s))).

Definition parent (pos : Z) : Z := u64 (u64 (pos + 1) / 2 - 1).
Definition left_child (pos : Z) : Z := u64 (u64 (pos * 2) + 1).
Definition right_child (pos : Z) : Z := u64 (u64 (pos * 2) + 2).

Fixpoint heap_up_loop (fuel : nat) (temp : HeapItem) (pos : Z) : HP Z :=
  if pos >? 0 then
    p ← heap_get (parent pos);
    if val p >? val temp then
      match fuel with
      | O => out_of_fuel
      | S fuel =>
          heap_set pos p;;
          fix_ref pos;;
          heap_up_loop fuel temp (parent pos)
      end
    else mret pos
  else mret pos.

Definition heap_up (pos : Z) : HP () :=
  temp ← heap_get pos;
  pos ← heap_up_loop (Z.to_nat pos) temp pos;
  heap_set pos temp;;
  fix_ref pos.

(** The position of the smallest of [temp] and the children of [pos]. *)
Definition smallest_child (temp : HeapItem) (pos len : Z) : HP Z :=
  let left_child_pos := left_child pos in
  let right_child_pos := right_child pos in
  '(smallest_child_pos, smallest_child_val) ←
    (if left_child_pos <? len then
       l ← heap_get left_child_pos;
       mret (if val l <? val temp then (left_child_pos, val l) else (pos, val temp))
     else mret (pos, val temp));
  if right_child_pos <? len then
    r ← heap_get right_child_pos;
    mret (if val r <? smallest_child_val then right_child_pos else smallest_child_pos)
  else mret smallest_child_pos.

Fixpoint heap_down_loop (fuel : nat) (temp : HeapItem) (pos len : Z) : HP Z :=
  smallest_child_pos ← smallest_child temp pos len;
  if smallest_child_pos =? pos then mret pos
  else
    match fuel with
    | O => out_of_fuel
    | S fuel =>
        x ← heap_get smallest_child_pos;
        heap_set pos x;;
        fix_ref pos;;
        heap_down_loop fuel temp smallest_child_pos len
    end.

Definition heap_down (pos len : Z) : HP () :=
  temp ← heap_get pos;
  pos ← heap_down_loop (Z.to_nat len) temp pos len;
  heap_set pos temp;;
  fix_ref pos.

Definition heap_update (pos len : Z) : HP () :=
  up ← (if pos >? 0 then
          p ← heap_get (parent pos);
          x ← heap_get pos;
          mret (val p >? val x)
        else mret false);
  if up : bool then heap_up pos else heap_down pos len.

(** [heap.push_back(item)], [heap.back()] and [heap.pop_back()]. *)
Definition heap_push (item : HeapItem) : HP () :=
  s ← get_state; put_state (mkHeapState (items s ++ [item]) (idx s)).
Definition heap_back : HP HeapItem :=
  s ← get_state; deref (last (items s)).
Definition heap_pop : HP () :=
  s ← get_state;
  _ ← deref (last (items s));
  put_state (mkHeapState (removelast (items s)) (idx s)).

Definition heap_upsert (pos : Z) (item : HeapItem) : HP () :=
  n ← heap_size;
  pos ← (if pos <? n then heap_set pos item;; mret pos
         else heap_push item;; mret n);
  fix_ref pos;;
  n ← heap_size;
  heap_update pos n.

Definition heap_delete (pos : Z) : HP () :=
  x ← heap_back;
  heap_set pos x;;
  heap_pop;;
  n ← heap_size;
  if pos <? n then fix_ref pos;; n ← heap_size; heap_update pos n else mret ().
