(* ===== verification/HeapProofs.v ===== *)
(** Correctness of the heap: every operation keeps the heap order and the
    back references ([heap[idx].ref] and [heap_idx] point at each other), and
    changes the collection of items the way its name says. *)
From S2P Require Import Prelude Heap.

(** Position of the parent, on indices. *)
Definition par (i : nat) : nat := (i + 1) `div` 2 - 1.

Lemma par_lt i : (0 < i)%nat → (par i < i)%nat.
Proof. intros. unfold par. pose proof (Nat.div_lt (i + 1) 2). lia. Qed.
Lemma par_children i j : (0 < j)%nat → par j = i ↔ (j = 2 * i + 1 ∨ j = 2 * i + 2)%nat.
Proof.
  intros Hj. unfold par. pose proof (Nat.div_mod (j + 1) 2 ltac:(done)).
  pose proof (Nat.mod_upper_bound (j + 1) 2 ltac:(done)). lia.
Qed.
Lemma parent_par i : Z.of_nat i < 2 ^ 63 → (0 < i)%nat → parent (Z.of_nat i) = Z.of_nat (par i).
Proof.
  intros Hi Hp. unfold parent, par. rewrite (u64_id (Z.of_nat i + 1)) by lia.
  assert (1 <= (Z.of_nat i + 1) / 2 <= Z.of_nat i + 1) by (Z.to_euclidean_division_equations; lia).
  rewrite u64_id by lia. rewrite Nat2Z.inj_sub, Nat2Z.inj_div, Nat2Z.inj_add; [done|].
  apply Nat.div_le_lower_bound; lia.
Qed.

(** The heap order everywhere but between [pos] and its parent ([up]) or its
    children ([down]); the parent of [pos] is below its children. *)
Definition le_at (l : list HeapItem) (i j : nat) : Prop :=
  ∀ x y, l !! i = Some x → l !! j = Some y → val x <= val y.
Definition ordered (l : list HeapItem) : Prop := ∀ i, (0 < i)%nat → le_at l (par i) i.
Definition skip_ok (l : list HeapItem) (pos : nat) : Prop :=
  (0 < pos)%nat → ∀ c, (0 < c)%nat → par c = pos → le_at l (par pos) c.
Definition up_inv (l : list HeapItem) (pos : nat) : Prop :=
  (∀ i, (0 < i)%nat → i ≠ pos → le_at l (par i) i) ∧ skip_ok l pos.
Definition down_inv (l : list HeapItem) (pos : nat) : Prop :=
  (∀ i, (0 < i)%nat → par i ≠ pos → le_at l (par i) i) ∧ skip_ok l pos.
Definition around (l : list HeapItem) (pos : nat) : Prop :=
  (∀ i, (0 < i)%nat → i ≠ pos → par i ≠ pos → le_at l (par i) i) ∧ skip_ok l pos.

(** The items with [t] in the hole at [pos]. *)
Abbreviation filled s pos t := (<[pos%nat := t]> (items s)).

Record hole (s : HeapState) (pos : nat) (t : HeapItem) : Prop := {
  hole_lt : (pos < length (items s))%nat;
  hole_bound : Z.of_nat (length (items s)) < 2 ^ 62;
  hole_nodup : NoDup (ref <$> filled s pos t);
  hole_alloc : ∀ x, x ∈ filled s pos t → is_Some (idx s !! ref x);
  hole_refs : ∀ i x, i ≠ pos → items s !! i = Some x → idx s !! ref x = Some (Z.of_nat i);
}.

Record heap_ok (s : HeapState) : Prop := {
  heap_ordered : ordered (items s);
  heap_bound : Z.of_nat (length (items s)) < 2 ^ 62;
  heap_refs : ∀ i x, items s !! i = Some x → idx s !! ref x = Some (Z.of_nat i);
}.

(** Only the back references of the given items changed. *)
Definition idx_frame (l : list HeapItem) (s s' : HeapState) : Prop :=
  ∀ r, r ∉ ref <$> l → idx s' !! r = idx s !! r.

(** ** Positions and lists *)
Lemma insert_swap (l : list HeapItem) p pos a t :
  l !! p = Some a → p ≠ pos → (pos < length l)%nat →
  <[p := t]> (<[pos := a]> l) ≡ₚ <[pos := t]> l.
Proof.
  intros Hp Hne Hlt. apply Permutation_inj. split; [by rewrite !length_insert|].
  exists (λ i, if decide (i = p) then pos else if decide (i = pos) then p else i). split.
  - intros i j. repeat case_decide; congruence.
  - intros i. pose proof (lookup_lt_Some _ _ _ Hp).
    rewrite list_lookup_insert, length_insert. repeat case_decide; try lia.
    + by rewrite list_lookup_insert, decide_True by lia.
    + rewrite list_lookup_insert, decide_True by lia. by rewrite list_lookup_insert, decide_False by lia.
    + by rewrite !list_lookup_insert, !decide_False by lia.
Qed.

Lemma nodup_ref_inj (l : list HeapItem) i j x y :
  NoDup (ref <$> l) → l !! i = Some x → l !! j = Some y → ref x = ref y → i = j.
Proof.
  intros Hnd Hi Hj Hr. eapply (NoDup_lookup _ _ _ (ref x)); [exact Hnd|..].
  - by rewrite list_lookup_fmap, Hi.
  - by rewrite list_lookup_fmap, Hj, Hr.
Qed.

(** ** The primitives *)
Lemma wp_heap_get i x (Q : HeapItem → HeapState → Prop) s :
  items s !! i = Some x → Q x s → wp (heap_get (Z.of_nat i)) Q s.
Proof.
  intros Hx HQ. unfold heap_get. apply wp_bind, wp_get. rewrite Nat2Z.id. by eapply wp_deref.
Qed.
Lemma wp_heap_set i x (Q : () → HeapState → Prop) s :
  (i < length (items s))%nat → Q () (mkHeapState (<[i := x]> (items s)) (idx s)) →
  wp (heap_set (Z.of_nat i) x) Q s.
Proof.
  intros [y Hy]%lookup_lt_is_Some_2 HQ. unfold heap_set. apply wp_bind, wp_get. rewrite Nat2Z.id.
  apply wp_bind. eapply wp_deref; [done|]. by apply wp_put.
Qed.
Lemma wp_fix_ref i x (Q : () → HeapState → Prop) s :
  items s !! i = Some x → is_Some (idx s !! ref x) →
  Q () (mkHeapState (items s) (<[ref x := Z.of_nat i]> (idx s))) →
  wp (fix_ref (Z.of_nat i)) Q s.
Proof.
  intros Hx [v Hv] HQ. unfold fix_ref. apply wp_bind, (wp_heap_get _ x); [done|].
  unfold set_ref. apply wp_bind, wp_get. apply wp_bind. eapply wp_deref; [done|]. by apply wp_put.
Qed.

(** Moving the item at [p] into the hole at [pos] moves the hole to [p]. *)
Definition moved (s : HeapState) (p pos : nat) (a : HeapItem) : HeapState :=
  mkHeapState (<[pos := a]> (items s)) (<[ref a := Z.of_nat pos]> (idx s)).

Lemma filled_moved s p pos a t :
  items s !! p = Some a → p ≠ pos → (pos < length (items s))%nat →
  filled (moved s p pos a) p t ≡ₚ filled s pos t.
Proof. intros. by apply insert_swap. Qed.

Lemma filled_lookup s pos t i :
  (pos < length (items s))%nat →
  filled s pos t !! i = if decide (i = pos) then Some t else items s !! i.
Proof. intros. rewrite list_lookup_insert. repeat case_decide; naive_solver lia. Qed.

Lemma move_hole s p pos a t :
  hole s pos t → items s !! p = Some a → p ≠ pos → hole (moved s p pos a) p t.
Proof.
  intros [Hlt Hb Hnd Hal Hrefs] Hp Hne. pose proof (lookup_lt_Some _ _ _ Hp).
  pose proof (filled_moved s p pos a t Hp Hne Hlt) as Hperm.
  constructor; unfold moved in *; cbn [items idx] in *; rewrite ?length_insert; try done.
  - by rewrite Hperm.
  - intros x. rewrite Hperm. intros Hx. destruct (decide (ref x = ref a)) as [->|].
    + rewrite lookup_insert_eq. eauto.
    + rewrite lookup_insert_ne by done. auto.
  - intros i x Hi. rewrite list_lookup_insert. case_decide as Hd.
    + intros [= ->]. destruct Hd as [-> _]. by rewrite lookup_insert_eq.
    + intros Hx. assert (i ≠ pos) by lia. rewrite lookup_insert_ne; [by apply Hrefs|].
      intros Href. apply Hi. apply (nodup_ref_inj (filled s pos t) i p x a); [done|..|done].
      * by rewrite filled_lookup, decide_False.
      * by rewrite filled_lookup, decide_False.
Qed.

Lemma move_frame s p pos a t s' :
  items s !! p = Some a → p ≠ pos → (pos < length (items s))%nat →
  idx_frame (filled (moved s p pos a) p t) (moved s p pos a) s' →
  idx_frame (filled s pos t) s s'.
Proof.
  intros Hp Hne Hlt Hf r. rewrite <-(filled_moved s p pos a t) by done. intros Hr.
  rewrite (Hf r Hr). unfold moved. cbn [idx]. rewrite lookup_insert_ne; [done|].
  intros <-. apply Hr. rewrite (filled_moved s p pos a t) by done.
  apply list_elem_of_fmap. exists a. split; [done|]. apply (list_elem_of_lookup_2 _ p).
  by rewrite filled_lookup, decide_False.
Qed.

Lemma moved_lookup s p pos a t i :
  items s !! p = Some a → (pos < length (items s))%nat →
  filled (moved s p pos a) p t !! i =
  if decide (i = p) then Some t else if decide (i = pos) then Some a else items s !! i.
Proof.
  intros Hp Hlt. pose proof (lookup_lt_Some _ _ _ Hp).
  rewrite filled_lookup by (unfold moved; cbn [items]; by rewrite length_insert).
  case_decide; [done|]. unfold moved. cbn [items]. rewrite list_lookup_insert.
  repeat case_decide; naive_solver lia.
Qed.

(** ** Sifting up *)
Lemma up_step s pos a t :
  (pos < length (items s))%nat → (0 < pos)%nat → items s !! par pos = Some a → val t < val a →
  up_inv (filled s pos t) pos → up_inv (filled (moved s (par pos) pos a) (par pos) t) (par pos).
Proof.
  intros Hlt Hpos Hp Hval [Ho Hsk]. pose proof (par_lt pos Hpos) as Hpar.
  assert (∀ i x, (0 < i)%nat → i ≠ pos → par i = par pos → items s !! i = Some x → val a <= val x) as Hsib.
  { intros i x Hi Hne Hpi Hx. apply (Ho i Hi Hne);
      (rewrite filled_lookup by done); [by rewrite decide_False, Hpi by lia|by rewrite decide_False]. }
  assert (∀ c x, (0 < c)%nat → c ≠ pos → par c = pos → items s !! c = Some x → val a <= val x) as Hch.
  { intros c x Hc Hne Hpc Hx. apply (Hsk Hpos c Hc Hpc);
      (rewrite filled_lookup by done); [by rewrite decide_False by lia|by rewrite decide_False]. }
  split.
  - intros i Hi Hne x y. rewrite !moved_lookup by done. pose proof (par_lt i Hi).
    rewrite (decide_False (P:=i = par pos)) by done.
    destruct (decide (i = pos)) as [->|].
    { rewrite decide_True by done. naive_solver lia. }
    case_decide. { intros [= <-] Hy. pose proof (Hsib i y). naive_solver lia. }
    case_decide. { intros [= <-] Hy. eauto. }
    intros Hx Hy. apply (Ho i Hi); (rewrite ?filled_lookup by done); [done|by rewrite decide_False..].
  - intros Hp0 c Hc Hpc x y. rewrite !moved_lookup by done. pose proof (par_lt c Hc).
    pose proof (par_lt _ Hp0). rewrite !(decide_False (P:=par (par pos) = _)) by lia.
    rewrite (decide_False (P:=c = _)) by lia. intros Hx.
    assert (val x <= val a).
    { apply (Ho (par pos)); [lia|lia|..]; (rewrite filled_lookup by done); by rewrite decide_False by lia. }
    case_decide; intros Hy; [naive_solver|]. pose proof (Hsib c y). naive_solver lia.
Qed.

Lemma up_stop s pos t :
  (pos < length (items s))%nat → up_inv (filled s pos t) pos →
  ((0 < pos)%nat → ∀ a, items s !! par pos = Some a → val a <= val t) → ordered (filled s pos t).
Proof.
  intros Hlt [Ho _] Hstop i Hi. destruct (decide (i = pos)) as [->|]; [|by apply Ho].
  intros x y. pose proof (par_lt pos Hi). rewrite !filled_lookup by done.
  rewrite decide_False, decide_True by lia. naive_solver.
Qed.

(** What a loop leaves: the hole where the item belongs. *)
Record settled (s0 : HeapState) (pos0 : nat) (t : HeapItem) (p : nat) (s : HeapState) : Prop := {
  st_hole : hole s p t;
  st_ordered : ordered (filled s p t);
  st_perm : filled s p t ≡ₚ filled s0 pos0 t;
  st_frame : idx_frame (filled s0 pos0 t) s0 s;
}.

Lemma settled_moved s p pos a t p' s' :
  items s !! p = Some a → p ≠ pos → (pos < length (items s))%nat →
  settled (moved s p pos a) p t p' s' → settled s pos t p' s'.
Proof.
  intros Hp Hne Hlt [Hh Ho Hperm Hf]. constructor; [done|done| |by eapply move_frame].
  by rewrite Hperm, filled_moved.
Qed.

Lemma settled_here s pos t :
  hole s pos t → ordered (filled s pos t) → settled s pos t pos s.
Proof. intros. by constructor. Qed.

(** [heap[pos] = heap[p]; *heap[pos].ref = pos] *)
Lemma wp_move s p pos a t (Q : () → HeapState → Prop) :
  hole s pos t → items s !! p = Some a → p ≠ pos → Q () (moved s p pos a) →
  wp (heap_set (Z.of_nat pos) a;; fix_ref (Z.of_nat pos)) Q s.
Proof.
  intros Hh Hp Hne HQ. apply wp_bind, wp_heap_set; [apply Hh|].
  apply (wp_fix_ref _ a); cbn [items idx]; [by apply list_lookup_insert_eq, Hh| |done].
  rewrite (hole_refs _ _ _ Hh p a) by done. eauto.
Qed.

Lemma bind_assoc {S A B C} (m : M S A) (f : A → M S B) (g : B → M S C) σ :
  ((m ≫= f) ≫= g) σ = (m ≫= λ a, f a ≫= g) σ.
Proof. unfold mbind, M_bind. by destruct (m σ) as [[]| | |]. Qed.

Lemma heap_up_loop_spec fuel : ∀ s pos t,
  hole s pos t → (pos ≤ fuel)%nat → up_inv (filled s pos t) pos →
  wp (heap_up_loop fuel t (Z.of_nat pos)) (λ p' s', ∃ p, p' = Z.of_nat p ∧ settled s pos t p s') s.
Proof.
  induction fuel as [|fuel IH]; intros s pos t Hh Hfuel Hup;
    pose proof (hole_lt _ _ _ Hh) as Hlt; pose proof (hole_bound _ _ _ Hh) as Hb.
  { assert (pos = 0%nat) as -> by lia. apply wp_ret. exists 0%nat. split; [done|].
    apply settled_here; [done|]. apply up_stop; [done..|lia]. }
  destruct (decide (pos = 0%nat)) as [->|Hpos].
  { apply wp_ret. exists 0%nat. split; [done|]. apply settled_here; [done|]. apply up_stop; [done..|lia]. }
  cbn [heap_up_loop]. destruct (Z.gtb_spec (Z.of_nat pos) 0); [|lia].
  rewrite parent_par by lia. pose proof (par_lt pos ltac:(lia)).
  destruct (lookup_lt_is_Some_2 (items s) (par pos)) as [a Ha]; [lia|].
  apply wp_bind, (wp_heap_get _ a); [done|]. destruct (Z.gtb_spec (val a) (val t)) as [Hgt|Hle].
  - eapply wp_eq; [symmetry; apply bind_assoc|]. apply wp_bind.
    apply (wp_move s (par pos) pos a t); [done|done|lia|].
    assert (par pos ≠ pos) by lia.
    eapply wp_mono; [apply IH; [by apply move_hole|lia|apply up_step; [done|lia|done|lia|done]]|].
    intros p' s' (p & -> & Hst). exists p. split; [done|]. by eapply settled_moved.
  - apply wp_ret. exists pos. split; [done|]. apply settled_here; [done|].
    apply up_stop; [done..|]. naive_solver lia.
Qed.

(** ** Sifting down *)
Definition child (i c : nat) : Prop := (0 < c)%nat ∧ par c = i.

Lemma child_iff i c : child i c ↔ (c = 2 * i + 1 ∨ c = 2 * i + 2)%nat.
Proof.
  unfold child. split.
  - intros [Hc Hp]. by apply par_children in Hp.
  - intros Hc. assert (0 < c)%nat by lia. split; [done|]. by apply par_children.
Qed.

Lemma down_step s p pos a t :
  (pos < length (items s))%nat → child pos p → items s !! p = Some a → val a < val t →
  (∀ c x, child pos c → items s !! c = Some x → val a <= val x) →
  down_inv (filled s pos t) pos → down_inv (filled (moved s p pos a) p t) p.
Proof.
  intros Hlt [Hp0 Hpp] Hp Hval Hmin [Ho Hsk]. pose proof (par_lt p Hp0).
  split.
  - intros i Hi Hne x y. rewrite !moved_lookup by done. pose proof (par_lt i Hi).
    rewrite (decide_False (P:=par i = p)) by done.
    destruct (decide (i = p)) as [->|]. { rewrite decide_True by done. naive_solver lia. }
    destruct (decide (i = pos)) as [->|].
    { rewrite decide_False by lia. intros Hx [= <-]. apply (Hsk Hi p Hp0 Hpp);
        rewrite filled_lookup by done; by rewrite decide_False by lia. }
    case_decide as Hpi.
    { intros [= <-] Hy. by apply (Hmin i y). }
    intros Hx Hy. by apply (Ho i Hi Hpi); rewrite filled_lookup by done; rewrite decide_False by done.
  - intros _ c Hc Hpc x y. rewrite !moved_lookup by done. pose proof (par_lt c Hc).
    rewrite Hpp, (decide_False (P:=pos = p)), (decide_True (P:=pos = pos)) by lia.
    rewrite !decide_False by lia. intros [= <-] Hy.
    apply (Ho c Hc); [lia|..]; rewrite filled_lookup by done; rewrite decide_False by lia; [|done].
    by rewrite Hpc.
Qed.

Lemma down_stop s pos t :
  (pos < length (items s))%nat → down_inv (filled s pos t) pos →
  (∀ c x, child pos c → items s !! c = Some x → val t <= val x) → ordered (filled s pos t).
Proof.
  intros Hlt [Ho _] Hmin i Hi. destruct (decide (par i = pos)) as [Hp|]; [|by apply Ho].
  intros x y. pose proof (par_lt i Hi). rewrite !filled_lookup by done.
  rewrite decide_True, decide_False by lia. intros [= <-] Hy. by apply (Hmin i).
Qed.

Lemma left_child_nat i : Z.of_nat i < 2 ^ 62 → left_child (Z.of_nat i) = Z.of_nat (2 * i + 1).
Proof. intros. unfold left_child. rewrite (u64_id (Z.of_nat i * 2)), u64_id by lia. lia. Qed.
Lemma right_child_nat i : Z.of_nat i < 2 ^ 62 → right_child (Z.of_nat i) = Z.of_nat (2 * i + 2).
Proof. intros. unfold right_child. rewrite (u64_id (Z.of_nat i * 2)), u64_id by lia. lia. Qed.

(** What [smallest_child] finds: the item at [c] is the least child, or none
    is below [t]. *)
Definition least_child (s : HeapState) (pos : nat) (t : HeapItem) (p : nat) : Prop :=
  (p = pos ∧ ∀ c x, child pos c → items s !! c = Some x → val t <= val x) ∨
  (child pos p ∧ ∃ a, items s !! p = Some a ∧ val a < val t ∧
     ∀ c x, child pos c → items s !! c = Some x → val a <= val x).

Lemma wp_child s c len (Q : HeapItem → HeapState → Prop) :
  len = Z.of_nat (length (items s)) → (c < length (items s))%nat →
  (∀ x, items s !! c = Some x → Q x s) → wp (heap_get (Z.of_nat c)) Q s.
Proof.
  intros -> Hc HQ. apply lookup_lt_is_Some_2 in Hc as [x Hx].
  eapply wp_heap_get; [done|]. by apply HQ.
Qed.

Lemma smallest_child_spec s pos t :
  Z.of_nat (length (items s)) < 2 ^ 62 → (pos < length (items s))%nat →
  wp (smallest_child t (Z.of_nat pos) (Z.of_nat (length (items s))))
     (λ p' s', s' = s ∧ ∃ p, p' = Z.of_nat p ∧ least_child s pos t p) s.
Proof.
  intros Hb Hlt. unfold smallest_child. rewrite left_child_nat, right_child_nat by lia.
  apply wp_bind. eapply (wp_mono _ (λ r s', s' = s ∧ ∃ p, r.1 = Z.of_nat p ∧
    (p = pos ∧ r.2 = val t ∨ p = (2 * pos + 1)%nat ∧ r.2 < val t ∧
       ∃ a, items s !! p = Some a ∧ r.2 = val a) ∧
    ∀ x, items s !! (2 * pos + 1)%nat = Some x → r.2 <= val x)).
  { destruct (Z.ltb_spec (Z.of_nat (2 * pos + 1)) (Z.of_nat (length (items s)))) as [Hl|Hl].
    - apply wp_bind. eapply wp_child; [done|lia|]. intros x Hx. apply wp_ret. split; [done|].
      destruct (Z.ltb_spec (val x) (val t)); cbn [fst snd]; eexists; (split; [done|]).
      + split; [right|naive_solver lia]. split; [done|]. split; [lia|]. by exists x.
      + split; [by left|naive_solver lia].
    - apply wp_ret. split; [done|]. exists pos. cbn [fst snd]. split; [done|]. split; [by left|].
      intros x Hx%lookup_lt_Some. lia. }
  intros [p' v] ? (-> & p & Heq & Hp & Hl). cbn [fst snd] in *. subst p'.
  assert (least_child s pos t p ↔
    ∀ x, items s !! (2 * pos + 2)%nat = Some x → v <= val x) as Hiff.
  { unfold least_child. setoid_rewrite child_iff. destruct Hp as [[-> ->]|(-> & Hv & a & Ha & ->)].
    - split; [intros [[_ ?]|[? _]]; [eauto|lia]|]. intros Hr. left. split; [done|].
      intros c x [->| ->] ?; auto.
    - split; [intros [[? _]|(_ & a' & Ha' & _ & Hc)]; [lia|]; naive_solver|].
      intros Hr. right. split; [by left|]. exists a. split_and!; [done|done|].
      intros c x [->| ->] ?; auto. }
  destruct (Z.ltb_spec (Z.of_nat (2 * pos + 2)) (Z.of_nat (length (items s)))) as [Hr|Hr].
  - apply wp_bind. eapply wp_child; [done|lia|]. intros x Hx. apply wp_ret. split; [done|].
    destruct (Z.ltb_spec (val x) v).
    + eexists; split; [done|]. right. setoid_rewrite child_iff. split; [by right|].
      exists x. split_and!; [done| |].
      * destruct Hp as [[-> ->]|(-> & Hv & _)]; lia.
      * intros c y [->| ->] Hy; [pose proof (Hl y Hy); lia|naive_solver lia].
    + eexists; split; [done|]. apply Hiff. naive_solver.
  - apply wp_ret. split; [done|]. exists p. split; [done|]. apply Hiff.
    intros x Hx%lookup_lt_Some. lia.
Qed.

Lemma heap_down_loop_spec fuel : ∀ s pos t,
  hole s pos t → (length (items s) ≤ fuel + pos)%nat → down_inv (filled s pos t) pos →
  wp (heap_down_loop fuel t (Z.of_nat pos) (Z.of_nat (length (items s))))
     (λ p' s', ∃ p, p' = Z.of_nat p ∧ settled s pos t p s') s.
Proof.
  induction fuel as [|fuel IH]; intros s pos t Hh Hfuel Hdown;
    pose proof (hole_lt _ _ _ Hh) as Hlt; pose proof (hole_bound _ _ _ Hh) as Hb; [lia|].
  cbn [heap_down_loop]. apply wp_bind. eapply wp_mono; [by apply smallest_child_spec|].
  intros p' ? (-> & p & -> & [[-> Hmin]|(Hc & a & Ha & Hval & Hmin)]).
  - rewrite Z.eqb_refl. apply wp_ret. exists pos. split; [done|]. apply settled_here; [done|].
    by apply down_stop.
  - pose proof Hc as [Hp0 Hpp]. pose proof (par_lt p Hp0). assert (p ≠ pos) by lia.
    destruct (Z.eqb_spec (Z.of_nat p) (Z.of_nat pos)); [lia|].
    apply wp_bind, (wp_heap_get _ a); [done|].
    eapply wp_eq; [symmetry; apply bind_assoc|]. apply wp_bind. apply (wp_move s p pos a t); [done..|].
    replace (length (items s)) with (length (items (moved s p pos a))) in *
      by (unfold moved; cbn [items]; apply length_insert).
    eapply wp_mono; [apply IH; [by apply move_hole|lia|]|].
    { apply down_step; try done. by unfold moved in Hlt; cbn [items] in Hlt; rewrite length_insert in Hlt. }
    intros p' s' (q & -> & Hst). exists q. split; [done|].
    eapply settled_moved; [done|done| |done].
    by unfold moved in Hlt; cbn [items] in Hlt; rewrite length_insert in Hlt.
Qed.

(** ** The operations *)
Lemma heap_ok_nodup s : heap_ok s → NoDup (ref <$> items s).
Proof.
  intros [_ _ Hr]. apply NoDup_alt. intros i j r.
  rewrite !list_lookup_fmap. intros (x & Hx & Hi)%fmap_Some (y & Hy & Hj)%fmap_Some.
  apply Hr in Hx, Hy. subst. rewrite Hj in Hx. naive_solver lia.
Qed.

(** Writing the item into the hole and fixing its back reference. *)
Lemma fill_hole s0 pos0 t p s (Q : () → HeapState → Prop) :
  settled s0 pos0 t p s →
  (∀ s', heap_ok s' → items s' ≡ₚ filled s0 pos0 t → idx_frame (filled s0 pos0 t) s0 s' → Q () s') →
  wp (heap_set (Z.of_nat p) t;; fix_ref (Z.of_nat p)) Q s.
Proof.
  intros [[Hlt Hb Hnd Hal Hrefs] Ho Hperm Hf] HQ.
  apply wp_bind, wp_heap_set; [done|].
  pose proof (list_lookup_insert_eq (items s) p t Hlt) as Hpt.
  apply (wp_fix_ref _ t); cbn [items idx]; [done|by apply Hal, (list_elem_of_lookup_2 _ p)|].
  apply HQ; cbn [items idx].
  - constructor; cbn [items idx]; rewrite ?length_insert; try done.
    intros i x Hx. destruct (decide (i = p)) as [->|].
    + rewrite Hpt in Hx. injection Hx as <-. by rewrite lookup_insert_eq.
    + assert (ref t ≠ ref x). { intros Heq. apply n. symmetry. by eapply nodup_ref_inj. }
      rewrite lookup_insert_ne by done. apply Hrefs; [done|].
      by rewrite list_lookup_insert_ne in Hx.
  - done.
  - intros r Hr. cbn [idx]. rewrite <-(Hf r Hr). rewrite lookup_insert_ne; [done|].
    intros <-. apply Hr. rewrite <-Hperm. apply list_elem_of_fmap. exists t. split; [done|].
    by apply (list_elem_of_lookup_2 _ p).
Qed.

Lemma heap_update_lemma s pos t :
  hole s pos t → items s !! pos = Some t → around (items s) pos →
  wp (heap_update (Z.of_nat pos) (Z.of_nat (length (items s)))) (λ _ s',
      heap_ok s' ∧ items s' ≡ₚ items s ∧ idx_frame (items s) s s') s.
Proof.
  intros Hh Ht [Ho Hsk]. pose proof (hole_lt _ _ _ Hh) as Hlt. pose proof (hole_bound _ _ _ Hh) as Hb.
  pose proof (list_insert_id _ _ _ Ht) as Hid.
  assert (∀ (m : HP Z), wp m (λ p' s', ∃ p, p' = Z.of_nat p ∧ settled s pos t p s') s →
    wp (p ← m; heap_set p t;; fix_ref p) (λ _ s',
      heap_ok s' ∧ items s' ≡ₚ items s ∧ idx_frame (items s) s s') s) as Hfin.
  { intros m Hm. apply wp_bind. eapply wp_mono; [exact Hm|]. intros p' s' (p & -> & Hst).
    eapply fill_hole; [done|]. rewrite Hid. done. }
  assert ((0 < pos)%nat → par pos < pos)%nat as Hpar by (intros; by apply par_lt).
  unfold heap_update. apply wp_bind.
  eapply (wp_mono _ (λ (up : bool) s', s' = s ∧
    if up then (0 < pos)%nat ∧ ∃ a, items s !! par pos = Some a ∧ val t < val a
    else (0 < pos)%nat → ∀ a, items s !! par pos = Some a → val a <= val t)).
  { destruct (Z.gtb_spec (Z.of_nat pos) 0); [|apply wp_ret; split; [done|lia]].
    rewrite parent_par by lia. destruct (lookup_lt_is_Some_2 (items s) (par pos)) as [a Ha]; [lia|].
    apply wp_bind, (wp_heap_get _ a); [done|]. apply wp_bind, (wp_heap_get _ t); [done|].
    apply wp_ret. split; [done|]. destruct (Z.gtb_spec (val a) (val t)); [|naive_solver].
    split; [lia|]. exists a. split; [done|lia]. }
  intros [] ? (-> & Hup).
  - unfold heap_up. apply wp_bind, (wp_heap_get _ t); [done|]. apply Hfin.
    apply heap_up_loop_spec; [done|lia|]. rewrite Hid. split; [|done].
    destruct Hup as (Hp0 & a & Ha & Hat). intros i Hi Hne.
    destruct (decide (par i = pos)) as [Hpi|]; [|by apply Ho].
    intros x y Hx Hy. rewrite Hpi in Hx. assert (x = t) as -> by congruence.
    pose proof (Hsk Hp0 i Hi Hpi a y Ha Hy). lia.
  - unfold heap_down. apply wp_bind, (wp_heap_get _ t); [done|]. apply Hfin.
    apply heap_down_loop_spec; [done|lia|]. rewrite Hid. split; [|done].
    intros i Hi Hne. destruct (decide (i = pos)) as [->|]; [|by apply Ho].
    intros x y Hx Hy. assert (y = t) as -> by congruence. by apply Hup.
Qed.

Lemma around_ordered l pos t :
  ordered l → (pos < length l)%nat → around (<[pos := t]> l) pos.
Proof.
  intros Ho Hlt.
  assert (∀ i x, i ≠ pos → <[pos := t]> l !! i = Some x → l !! i = Some x) as Hsame.
  { intros i x Hne. by rewrite list_lookup_insert_ne. }
  split.
  - intros i Hi Hne Hp x y Hx%Hsame Hy%Hsame; [|done..]. by apply (Ho i Hi).
  - intros Hp c Hc Hpc x y Hx%Hsame Hy%Hsame; pose proof (par_lt pos Hp); pose proof (par_lt c Hc); [|lia..].
    destruct (lookup_lt_is_Some_2 l pos Hlt) as [z Hz].
    pose proof (Ho pos Hp x z Hx Hz). pose proof (Ho c Hc z y) as H'. rewrite Hpc in H'.
    specialize (H' Hz Hy). lia.
Qed.

Lemma around_prefix l pos y :
  ordered l → (pos < length l)%nat → around (removelast (<[pos := y]> l)) pos.
Proof.
  intros Ho Hpl.
  assert (∃ k z, <[pos := y]> l = k ++ [z]) as (k & z & Hk).
  { destruct (last (<[pos := y]> l)) as [z|] eqn:Hz.
    - apply last_Some in Hz as [k Hk]. eauto.
    - apply last_None, (f_equal length) in Hz. rewrite length_insert in Hz. simpl in Hz. lia. }
  pose proof (around_ordered l pos y Ho Hpl) as [H1 H2]. rewrite Hk, List.removelast_last in *.
  assert (∀ i x, k !! i = Some x → (k ++ [z]) !! i = Some x) as Hsub by (intros; by apply lookup_app_l_Some).
  split; [intros i Hi ?? a b Ha Hb; apply (H1 i)|intros Hp c Hc Hpc a b Ha Hb; apply (H2 Hp c)]; auto.
Qed.

(** The back reference of the item at [pos] written, the heap is as good as
    before up to the order around [pos]. *)
Lemma fix_update s pos t :
  (pos < length (items s))%nat → Z.of_nat (length (items s)) < 2 ^ 62 →
  items s !! pos = Some t → is_Some (idx s !! ref t) →
  (∀ i x, i ≠ pos → items s !! i = Some x → idx s !! ref x = Some (Z.of_nat i) ∧ ref x ≠ ref t) →
  around (items s) pos →
  wp (fix_ref (Z.of_nat pos);; n ← heap_size; heap_update (Z.of_nat pos) n)
     (λ _ s', heap_ok s' ∧ items s' ≡ₚ items s ∧ idx_frame (items s) s s') s.
Proof.
  intros Hlt Hb Ht [v Hv] Hrefs Hard. apply wp_bind. apply (wp_fix_ref _ t); [done..|].
  set (s1 := mkHeapState _ _).
  assert (∀ i x, items s !! i = Some x → idx s1 !! ref x = Some (Z.of_nat i)) as Hall.
  { intros i x Hx. unfold s1; cbn [idx]. destruct (decide (i = pos)) as [->|Hne].
    - rewrite Ht in Hx. injection Hx as <-. by rewrite lookup_insert_eq.
    - destruct (Hrefs i x Hne Hx) as [? ?]. by rewrite lookup_insert_ne. }
  unfold heap_size. apply wp_bind, wp_bind, wp_get, wp_ret.
  change (items s) with (items s1).
  eapply wp_mono; [apply (heap_update_lemma s1 pos t); [|done|done]|].
  - constructor; unfold s1 in *; cbn [items idx] in *; rewrite ?(list_insert_id _ _ _ Ht); try done.
    + apply NoDup_alt. intros i j r. rewrite !list_lookup_fmap.
      intros (x & Hx & ->)%fmap_Some (y & Hy & Hj)%fmap_Some.
      apply Hall in Hx, Hy. rewrite Hj in Hx. naive_solver lia.
    + intros x [i Hi]%list_elem_of_lookup. rewrite (Hall i x) by done. eauto.
    + intros i x _. apply Hall.
  - intros _ s' (Hok & Hp & Hf). split_and!; [done..|].
    intros r Hr. rewrite (Hf r Hr). unfold s1; cbn [idx]. rewrite lookup_insert_ne; [done|].
    intros <-. apply Hr, list_elem_of_fmap. exists t. split; [done|]. by apply (list_elem_of_lookup_2 _ pos).
Qed.


Lemma heap_upsert_insert_lemma s pos item :
  heap_ok s → Z.of_nat (length (items s)) <= pos → Z.of_nat (length (items s)) + 1 < 2 ^ 62 →
  is_Some (idx s !! ref item) → ref item ∉ ref <$> items s →
  wp (heap_upsert pos item) (λ _ s', heap_ok s' ∧ items s' ≡ₚ item :: items s ∧
      idx_frame (item :: items s) s s') s.
Proof.
  intros Hok Hpos Hb Hal Hfresh. unfold heap_upsert, heap_push.
  apply wp_bind. unfold heap_size at 1. apply wp_bind, wp_get, wp_ret.
  rewrite (proj2 (Z.ltb_ge _ _)) by done.
  apply wp_bind, wp_bind, wp_bind, wp_get, wp_put, wp_ret.
  set (s1 := mkHeapState (items s ++ [item]) (idx s)).
  assert (items s1 ≡ₚ item :: items s) as Hp1 by (unfold s1; cbn [items]; by rewrite <-Permutation_cons_append).
  pose proof (length_app (items s) [item]) as Hl. cbn [length] in Hl.
  eapply wp_mono; [apply (fix_update s1 _ item); unfold s1; cbn [items idx]; try done; try lia|].
  - rewrite lookup_app_r, Nat.sub_diag by lia. done.
  - intros i x Hne Hx. pose proof (lookup_lt_Some _ _ _ Hx).
    rewrite lookup_app_l in Hx by lia. split; [by apply Hok|].
    intros Heq. apply Hfresh. rewrite <-Heq. apply list_elem_of_fmap. exists x.
    split; [done|]. by apply (list_elem_of_lookup_2 _ i).
  - split.
    + intros i Hi Hne _ x y Hx Hy. pose proof (lookup_lt_Some _ _ _ Hy). pose proof (par_lt i Hi).
      rewrite lookup_app_l in Hx, Hy by lia. by apply (heap_ordered _ Hok i).
    + intros _ c Hc Hpc x y _ Hy. apply lookup_lt_Some in Hy. pose proof (par_lt c Hc). lia.
  - intros _ s' (Hok' & Hperm & Hf). split; [done|]. split; [by rewrite Hperm|].
    intros r. rewrite <-Hp1. apply Hf.
Qed.

Lemma heap_upsert_update_lemma s pos item :
  heap_ok s → (pos < length (items s))%nat → idx s !! ref item = Some (Z.of_nat pos) →
  ref item ∈ ref <$> items s →
  wp (heap_upsert (Z.of_nat pos) item) (λ _ s', heap_ok s' ∧
      items s' ≡ₚ <[pos := item]> (items s) ∧ idx_frame (items s) s s') s.
Proof.
  intros Hok Hpos Hidx Hin. unfold heap_upsert.
  apply wp_bind. unfold heap_size at 1. apply wp_bind, wp_get, wp_ret.
  rewrite (proj2 (Z.ltb_lt _ _)) by lia.
  apply wp_bind, wp_bind, wp_heap_set; [done|]. apply wp_ret.
  set (s1 := mkHeapState _ _). pose proof (heap_bound _ Hok).
  eapply wp_mono; [apply (fix_update s1 pos item); unfold s1; cbn [items idx]; rewrite ?length_insert; try done|].
  - by rewrite list_lookup_insert_eq.
  - intros i x Hne Hx. rewrite list_lookup_insert_ne in Hx by done.
    apply (heap_refs _ Hok) in Hx. split; [done|]. intros Heq. rewrite Heq, Hidx in Hx. naive_solver lia.
  - by apply around_ordered; [apply Hok|].
  - intros _ s' (Hok' & Hperm & Hf). split_and!; [done..|]. intros r Hr. apply Hf.
    unfold s1; cbn [items]. intros (x & -> & Hx)%list_elem_of_fmap.
    apply list_elem_of_lookup in Hx as [i Hx]. rewrite list_lookup_insert in Hx. apply Hr.
    case_decide; [by injection Hx as <-|]. apply list_elem_of_fmap. exists x.
    split; [done|]. by apply (list_elem_of_lookup_2 _ i).
Qed.

Lemma insert_perm (l : list HeapItem) pos x y :
  l !! pos = Some x → y :: l ≡ₚ x :: <[pos := y]> l.
Proof.
  intros Hx. pose proof (lookup_lt_Some _ _ _ Hx).
  rewrite (insert_take_drop l) by done. rewrite <-(take_drop_middle l pos x Hx) at 1.
  rewrite <-!Permutation_middle. apply Permutation_swap.
Qed.

Lemma delete_perm (l : list HeapItem) pos x y :
  l !! pos = Some x → last l = Some y → l ≡ₚ x :: removelast (<[pos := y]> l).
Proof.
  intros Hx Hy. apply last_Some in Hy as [k ->].
  destruct (decide (pos < length k)%nat).
  - rewrite lookup_app_l in Hx by done.
    rewrite insert_app_l, List.removelast_last, <-Permutation_cons_append by done.
    by apply insert_perm.
  - pose proof (lookup_lt_Some _ _ _ Hx) as Hlt. rewrite length_app in Hlt. cbn [length] in Hlt.
    assert (pos = length k) as -> by lia. rewrite lookup_app_r, Nat.sub_diag in Hx by lia.
    injection Hx as ->. rewrite insert_app_r_alt, Nat.sub_diag by lia. cbn [list_insert insert].
    by rewrite List.removelast_last, <-Permutation_cons_append.
Qed.

Lemma removelast_lookup {A} (l : list A) i :
  (i < length (removelast l))%nat → removelast l !! i = l !! i.
Proof.
  destruct l as [|a l]; [done|]. rewrite (List.app_removelast_last a (l := a :: l)) at 3 by done.
  intros Hi. by rewrite lookup_app_l.
Qed.

Lemma heap_delete_lemma s pos x :
  heap_ok s → items s !! pos = Some x →
  wp (heap_delete (Z.of_nat pos)) (λ _ s', heap_ok s' ∧ items s ≡ₚ x :: items s' ∧
      idx_frame (items s') s s') s.
Proof.
  intros Hok Hx. pose proof (lookup_lt_Some _ _ _ Hx) as Hlt. pose proof (heap_bound _ Hok) as Hb.
  destruct (last (items s)) as [y|] eqn:Hlast.
  2: { apply last_None in Hlast. rewrite Hlast in Hlt. simpl in Hlt. lia. }
  unfold heap_delete, heap_back, heap_pop.
  apply wp_bind, wp_bind, wp_get. eapply wp_deref; [done|].
  apply wp_bind, wp_heap_set; [done|].
  assert (is_Some (last (<[pos := y]> (items s)))) as [z Hz].
  { apply last_is_Some. intros Heq%(f_equal length).
    rewrite length_insert in Heq. simpl in Heq. lia. }
  apply wp_bind, wp_bind, wp_get, wp_bind. cbn [items idx].
  eapply wp_deref; [done|]. apply wp_put.
  pose proof (delete_perm _ _ _ _ Hx Hlast) as Hperm.
  set (l := removelast _) in *. set (s1 := mkHeapState l (idx s)).
  assert (∀ i z, i ≠ pos → l !! i = Some z → items s !! i = Some z) as Hsame.
  { intros i w Hne Hw. rewrite <-Hw, <-(list_lookup_insert_ne _ pos i y) by done.
    symmetry. by apply removelast_lookup, (lookup_lt_Some _ _ w). }
  pose proof (Permutation_length Hperm) as Hlen. cbn [length] in Hlen.
  assert (NoDup (ref <$> l)) as Hnd.
  { pose proof (heap_ok_nodup _ Hok) as H. rewrite Hperm in H. by apply NoDup_cons in H as [_ H]. }
  apply wp_bind. unfold heap_size at 1. apply wp_bind, wp_get, wp_ret. change (items s1) with l.
  destruct (Z.ltb_spec (Z.of_nat pos) (Z.of_nat (length l))) as [Hpl|Hpl].
  - assert (l !! pos = Some y) as Hy.
    { unfold l. rewrite removelast_lookup by (unfold l in *; lia). by apply list_lookup_insert_eq. }
    assert (∀ i w, l !! i = Some w → is_Some (idx s !! ref w) ∧
      (i ≠ pos → idx s !! ref w = Some (Z.of_nat i))) as Hl.
    { intros i w Hw. split; [|intros Hne; by apply Hok, Hsame].
      assert (w ∈ items s) as [j Hj]%list_elem_of_lookup.
      { rewrite Hperm. right. by apply (list_elem_of_lookup_2 _ i). }
      rewrite (heap_refs _ Hok j w) by done. eauto. }
    eapply wp_mono; [apply (fix_update s1 pos y); unfold s1; cbn [items idx]; try done; try lia|].
    + by apply (Hl pos).
    + intros i w Hne Hw. split; [by apply Hl|]. intros Heq. apply Hne. by eapply nodup_ref_inj.
    + by apply around_prefix; [apply Hok|].
    + intros _ s' (Hok' & Hp & Hf). split; [done|]. split; [by rewrite Hp|].
      intros r. rewrite Hp. apply Hf.
  - apply wp_ret. split_and!; try done. constructor; unfold s1; cbn [items idx]; [|lia|].
    + intros i Hi a b Ha Hb'. pose proof (lookup_lt_Some _ _ _ Hb'). pose proof (par_lt i Hi).
      apply (heap_ordered _ Hok i Hi); apply Hsame; (lia || done).
    + intros i w Hw. pose proof (lookup_lt_Some _ _ _ Hw). apply Hok, Hsame; (lia || done).
Qed.

Lemma heap_min_lemma s x : heap_ok s → items s !! 0%nat = Some x → ∀ y, y ∈ items s → val x <= val y.
Proof.
  intros Hok Hx y [i Hi]%list_elem_of_lookup. revert y Hi.
  induction (lt_wf i) as [i _ IH]. intros y Hi. destruct (decide (i = 0%nat)) as [->|].
  { assert (x = y) as -> by congruence. lia. }
  pose proof (par_lt i ltac:(lia)). pose proof (lookup_lt_Some _ _ _ Hi).
  destruct (lookup_lt_is_Some_2 (items s) (par i)) as [z Hz]; [lia|].
  pose proof (IH (par i) ltac:(lia) z Hz). pose proof (heap_ordered _ Hok i ltac:(lia) z y Hz Hi). lia.
Qed.
