(* ===== verification/DList.v ===== *)
(** The intrusive doubly linked list of storage/list.h, which orders the
    connections by their last activity: a ring of nodes through a sentinel.  A
    node is named by the object that embeds it. *)
From S2P Require Import Prelude.

Module DList.
Record node := mkNode { prev : option ptr; next : option ptr }.
Abbreviation store := (gmap ptr node).

#[export] Instance node_eq_dec : EqDecision node.
Proof. solve_decision. Defined.

Definition set_prev (p : option ptr) (n : node) : node := mkNode p (next n).
Definition set_next (p : option ptr) (n : node) : node := mkNode (prev n) p.
Definition node_init : node := mkNode None None.

Definition dlist_init (list : ptr) : M store () :=
  modify list (λ _, mkNode (Some list) (Some list)).

Definition dlist_empty (list : ptr) : M store bool :=
  n ← load list; mret (bool_decide (next n = Some list)).

Definition dlist_detach (nd : ptr) : M store () :=
  n ← load nd;
  p ← deref (prev n);
  modify p (set_next (next n));;
  n ← load nd;
  q ← deref (next n);
  modify q (set_prev (prev n)).

Definition dlist_insert_before (target rookie : ptr) : M store () :=
  t ← load target;
  p ← deref (prev t);
  modify p (set_next (Some rookie));;
  t ← load target;
  modify rookie (set_prev (prev t));;
  modify rookie (set_next (Some target));;
  modify target (set_prev (Some rookie)).

(** * Representation *)
Definition nxt (σ : store) (a : ptr) : option ptr := n ← σ !! a; next n.
Definition prv (σ : store) (a : ptr) : option ptr := n ← σ !! a; prev n.

(** Each node of the list and the following one point to each other. *)
Fixpoint linked (σ : store) (xs : list ptr) : Prop :=
  match xs with
  | a :: (b :: _) as xs' => nxt σ a = Some b ∧ prv σ b = Some a ∧ linked σ xs'
  | _ => True
  end.

(** The ring through the sentinel [h] holds [xs], in order. *)
Definition ring (σ : store) (h : ptr) (xs : list ptr) : Prop :=
  linked σ (h :: xs ++ [h]) ∧ NoDup (h :: xs).

(** Nothing but the links of the nodes [xs] changed, and no node is freed. *)
Definition links_frame (xs : list ptr) (σ σ' : store) : Prop :=
  (∀ x, x ∉ xs → σ' !! x = σ !! x) ∧ (∀ x, is_Some (σ !! x) → is_Some (σ' !! x)).

Lemma linked_app σ xs a b ys :
  linked σ ((xs ++ [a]) ++ b :: ys) ↔
  linked σ (xs ++ [a]) ∧ nxt σ a = Some b ∧ prv σ b = Some a ∧ linked σ (b :: ys).
Proof.
  induction xs as [|x xs IH]; [cbn; tauto|].
  destruct xs as [|y xs]; cbn in *; tauto.
Qed.

Lemma linked_frame σ σ' xs a ys :
  (∀ y, y ∈ xs → nxt σ' y = nxt σ y) → (∀ y, y ∈ ys → prv σ' y = prv σ y) →
  (∃ b, b :: ys = xs ++ [a]) → linked σ (xs ++ [a]) → linked σ' (xs ++ [a]).
Proof.
  revert ys. induction xs as [|x xs IH]; intros ys Hn Hp [b Hb] Hl; [done|].
  cbn [app] in Hb. injection Hb as -> ->.
  assert (linked σ' (xs ++ [a])) as Hl'.
  { destruct xs as [|y xs]; [done|]. apply (IH (xs ++ [a])).
    - intros z Hz. apply Hn. by right.
    - intros z Hz. apply Hp. by right.
    - by exists y.
    - cbn [app linked] in Hl. tauto. }
  destruct xs as [|y xs]; cbn [app linked] in *.
  - destruct Hl as (H1 & H2 & _). rewrite Hn, Hp by by left. done.
  - destruct Hl as (H1 & H2 & _). rewrite Hn, Hp by by left. done.
Qed.

(** The node before a place of the ring and the node after it. *)
Lemma split_last (h : ptr) l : ∃ L p, h :: l = L ++ [p].
Proof.
  destruct (exists_last (l := h :: l)) as (L & p & H); [done|]. eauto.
Qed.
Lemma split_head (h : ptr) r : ∃ q R, r ++ [h] = q :: R.
Proof. destruct r; cbn; eauto. Qed.

Lemma nxt_update σ a n y :
  nxt (<[a := n]> σ) y = if decide (y = a) then next n else nxt σ y.
Proof.
  unfold nxt. case_decide as Hd; [subst; by rewrite lookup_insert_eq|by rewrite lookup_insert_ne].
Qed.
Lemma prv_update σ a n y :
  prv (<[a := n]> σ) y = if decide (y = a) then prev n else prv σ y.
Proof.
  unfold prv. case_decide as Hd; [subst; by rewrite lookup_insert_eq|by rewrite lookup_insert_ne].
Qed.
Lemma nxt_alloc σ a b : nxt σ a = Some b → ∃ n, σ !! a = Some n ∧ next n = Some b.
Proof. unfold nxt. destruct (σ !! a); [eauto|done]. Qed.
Lemma prv_alloc σ a b : prv σ a = Some b → ∃ n, σ !! a = Some n ∧ prev n = Some b.
Proof. unfold prv. destruct (σ !! a); [eauto|done]. Qed.

Lemma links_frame_insert xs σ σ' a n :
  links_frame xs σ σ' → a ∈ xs → links_frame xs σ (<[a := n]> σ').
Proof.
  intros [Ho Ha] Hx. split.
  - intros y Hy. rewrite lookup_insert_ne; [by apply Ho|]. by intros ->.
  - intros y Hy. destruct (decide (y = a)) as [->|]; [rewrite lookup_insert_eq; eauto|].
    rewrite lookup_insert_ne by done. by apply Ha.
Qed.

(** The neighbours of a node of the ring. *)
Lemma ring_neighbours σ h l x r L p q R :
  ring σ h (l ++ x :: r) → h :: l = L ++ [p] → r ++ [h] = q :: R →
  (nxt σ p = Some x ∧ prv σ x = Some p ∧ nxt σ x = Some q ∧ prv σ q = Some x) ∧
  (p ≠ x ∧ q ≠ x) ∧ linked σ (L ++ [p]) ∧ linked σ (q :: R) ∧ NoDup (L ++ [p]) ∧ disj (L ++ [p]) r ∧ NoDup r.
Proof.
  intros [Hl Hnd] HL HR.
  replace (h :: (l ++ x :: r) ++ [h]) with ((L ++ [p]) ++ x :: q :: R) in Hl
    by (rewrite <-HL, <-HR; cbn; by rewrite <-app_assoc).
  apply linked_app in Hl as (Hlp & Hpx & Hxp & Hxq & Hqx & Hq).
  replace (h :: l ++ x :: r) with ((L ++ [p]) ++ x :: r) in Hnd by (rewrite <-HL; done).
  apply nodup_app_disj in Hnd as (HndL & Hndr & Hdisj). apply NoDup_cons in Hndr as [Hxr Hndr].
  apply disj_cons_r in Hdisj as [HxL Hdisj]. split_and!; try done.
  - intros ->. apply HxL, elem_of_app. right; by left.
  - intros ->. assert (x ∈ r ++ [h]) as [Hx| ->%list_elem_of_singleton]%elem_of_app by (rewrite HR; by left); [done|].
    apply HxL. rewrite <-HL. by left.
Qed.

(** The ring when the neighbours of a node point at each other. *)
Lemma ring_relink σ σ' h l x r L p q R :
  ring σ h (l ++ x :: r) → h :: l = L ++ [p] → r ++ [h] = q :: R →
  (∀ y, nxt σ' y = if decide (y = p) then Some q else nxt σ y) →
  (∀ y, prv σ' y = if decide (y = q) then Some p else prv σ y) → ring σ' h (l ++ r).
Proof.
  intros Hring HL HR Hnxt Hprv.
  destruct (ring_neighbours _ _ _ _ _ _ _ _ _ Hring HL HR) as (_ & _ & Hlp & Hq & HndL & Hdisj & Hndr).
  assert (∀ y, y ∈ h :: l → y ∈ r → False) as Hd by (rewrite HL; exact Hdisj).
  assert (NoDup (r ++ [h])) as Hndrh.
  { apply NoDup_app. split_and!; [done| |apply NoDup_singleton].
    intros z Hz ->%list_elem_of_singleton. apply (Hd h); [by left|done]. }
  split.
  - replace (h :: (l ++ r) ++ [h]) with ((L ++ [p]) ++ q :: R)
      by (rewrite <-HL, <-HR; cbn; by rewrite <-app_assoc).
    rewrite linked_app, Hnxt, Hprv, !decide_True by done. split_and!; [|done|done|].
    + apply (linked_frame σ _ L p l); [..|by exists h|done].
      * intros y Hy. rewrite Hnxt, decide_False; [done|]. intros ->.
        apply NoDup_app in HndL as (_ & Hp & _). apply (Hp p Hy). by left.
      * intros y Hy. rewrite Hprv, decide_False; [done|]. intros ->.
        assert (q ∈ r ++ [h]) as [Hqr| ->%list_elem_of_singleton]%elem_of_app by (rewrite HR; by left).
        -- apply (Hd q); [by right|done].
        -- rewrite <-HL in HndL. by apply NoDup_cons in HndL as [? _].
    + rewrite <-HR. apply (linked_frame σ _ r h R); [..|by exists q|by rewrite HR].
      * intros y Hy. rewrite Hnxt, decide_False; [done|]. intros ->. apply (Hd p); [|done].
        rewrite HL. apply elem_of_app. right; by left.
      * intros y Hy. rewrite Hprv, decide_False; [done|]. intros ->. rewrite HR in Hndrh.
        by apply NoDup_cons in Hndrh as [? _].
  - change (NoDup ((h :: l) ++ r)). rewrite HL. by apply nodup_app_disj.
Qed.

Lemma dlist_detach_lemma σ h l x r :
  ring σ h (l ++ x :: r) →
  wp (dlist_detach x) (λ _ σ', ring σ' h (l ++ r) ∧ links_frame (h :: l ++ r) σ σ') σ.
Proof.
  intros Hring. destruct (split_last h l) as (L & p & HL), (split_head h r) as (q & R & HR).
  destruct (ring_neighbours _ _ _ _ _ _ _ _ _ Hring HL HR) as ((Hpx & Hxp & Hxq & Hqx) & [Hpne Hqne] & _).
  destruct (nxt_alloc _ _ _ Hpx) as (np & Hnp & _), (nxt_alloc _ _ _ Hxq) as (nx & Hnx & Hxn).
  assert (prev nx = Some p) as Hxpv by (unfold prv in Hxp; by rewrite Hnx in Hxp).
  unfold dlist_detach. apply wp_bind. eapply wp_load; [done|].
  apply wp_bind. eapply wp_deref; [done|]. apply wp_bind. eapply wp_modify; [done|].
  apply wp_bind. eapply wp_load; [by rewrite lookup_insert_ne|].
  apply wp_bind. eapply wp_deref; [done|].
  rewrite Hxn. set (σ1 := <[p := _]> σ). assert (∃ nq, σ1 !! q = Some nq) as [nq Hnq].
  { destruct (prv_alloc _ _ _ Hqx) as (nq & Hnq & _). unfold σ1.
    destruct (decide (q = p)) as [->|]; [rewrite lookup_insert_eq|rewrite lookup_insert_ne by done]; eauto. }
  eapply wp_modify; [done|]. rewrite Hxpv. split.
  - eapply (ring_relink σ); [exact Hring|done|done|..]; intros y.
    + rewrite nxt_update. cbn [next set_prev]. case_decide as Hd.
      * subst y. assert (nxt σ1 q = next nq) as <- by (unfold nxt; by rewrite Hnq).
        unfold σ1. rewrite nxt_update. done.
      * unfold σ1. by rewrite nxt_update.
    + rewrite prv_update. cbn [prev set_prev]. case_decide as Hd; [done|].
      unfold σ1. rewrite prv_update. cbn [prev set_next]. case_decide; [|done]. subst y.
      unfold prv. by rewrite Hnp.
  - assert (p ∈ h :: l) as Hp by (rewrite HL; apply elem_of_app; right; by left).
    assert (q ∈ r ++ [h]) as Hq by (rewrite HR; by left).
    unfold σ1. repeat apply links_frame_insert; [done|set_solver..].
Qed.

(** A ring with a node more, at its end. *)
Lemma ring_insert σ σ' h xs L p r :
  ring σ h xs → h :: xs = L ++ [p] → r ∉ h :: xs →
  (∀ y, nxt σ' y = if decide (y = r) then Some h else if decide (y = p) then Some r else nxt σ y) →
  (∀ y, prv σ' y = if decide (y = r) then Some p else if decide (y = h) then Some r else prv σ y) →
  ring σ' h (xs ++ [r]).
Proof.
  intros [Hl Hnd] HL Hr Hnxt Hprv.
  replace (h :: xs ++ [h]) with ((L ++ [p]) ++ [h]) in Hl by (by rewrite <-HL).
  apply linked_app in Hl as (Hlp & Hph & Hhp & _).
  assert (p ∈ h :: xs) as Hp by (rewrite HL; apply elem_of_app; right; by left).
  assert (p ≠ r ∧ h ≠ r) as [Hpr Hhr] by (split; intros ->; apply Hr; [done|by left]). split.
  - replace (h :: (xs ++ [r]) ++ [h]) with ((L ++ [p]) ++ r :: [h]) by (by rewrite <-HL, <-app_assoc).
    rewrite linked_app, !Hnxt, !Hprv. cbn [linked]. rewrite Hnxt, Hprv.
    rewrite (decide_False (P:=p = r)), (decide_False (P:=h = r)), !(decide_True (P:=r = r)),
      (decide_True (P:=p = p)), (decide_True (P:=h = h)) by done.
    split_and!; try done. apply (linked_frame σ _ L p xs); [..|by exists h|done].
    + intros y Hy. assert (y ∈ h :: xs) by (rewrite HL; apply elem_of_app; by left).
      rewrite Hnxt, !decide_False; [done| |intros ->; contradiction].
      intros ->. rewrite HL in Hnd. apply NoDup_app in Hnd as (_ & Hd & _). apply (Hd p Hy). by left.
    + intros y Hy. assert (y ∈ h :: xs) by (by right). apply NoDup_cons in Hnd as [Hh _].
      rewrite Hprv, !decide_False; [done| |]; intros ->; contradiction.
  - apply NoDup_cons in Hnd as [Hh Hnd]. apply not_elem_of_cons in Hr as [? ?].
    apply NoDup_cons. split; [set_solver|]. apply NoDup_app. split_and!; [done| |apply NoDup_singleton].
    set_solver.
Qed.

Lemma dlist_insert_lemma σ h xs r :
  ring σ h xs → r ∉ h :: xs → is_Some (σ !! r) →
  wp (dlist_insert_before h r) (λ _ σ', ring σ' h (xs ++ [r]) ∧ links_frame (r :: h :: xs) σ σ') σ.
Proof.
  intros Hring Hr [nr Hnr]. destruct (split_last h xs) as (L & p & HL). pose proof Hring as [Hl _].
  replace (h :: xs ++ [h]) with ((L ++ [p]) ++ [h]) in Hl by (by rewrite <-HL).
  apply linked_app in Hl as (Hlp & Hph & Hhp & _).
  assert (p ∈ h :: xs) as Hp by (rewrite HL; apply elem_of_app; right; by left).
  assert (p ≠ r ∧ h ≠ r) as [Hpr Hhr] by (split; intros ->; apply Hr; [done|by left]).
  destruct (nxt_alloc _ _ _ Hph) as (np & Hnp & _), (prv_alloc _ _ _ Hhp) as (nh & Hnh & Hhpv).
  unfold dlist_insert_before. apply wp_bind. eapply wp_load; [done|].
  apply wp_bind. eapply wp_deref; [done|]. apply wp_bind. eapply wp_modify; [done|].
  set (σ1 := <[p := _]> σ).
  assert (∃ nh1, σ1 !! h = Some nh1 ∧ prev nh1 = Some p) as (nh1 & Hnh1 & Hnh1p).
  { unfold σ1. destruct (decide (h = p)) as [<-|].
    - rewrite lookup_insert_eq. assert (np = nh) as -> by congruence. eauto.
    - rewrite lookup_insert_ne by done. eauto. }
  apply wp_bind. eapply wp_load; [done|]. apply wp_bind.
  eapply wp_modify; [unfold σ1; by rewrite lookup_insert_ne|]. rewrite Hnh1p.
  apply wp_bind. eapply wp_modify; [by rewrite lookup_insert_eq|].
  eapply wp_modify; [by rewrite !lookup_insert_ne|]. rewrite insert_insert_eq.
  set (σ2 := <[h := _]> _).
  assert (∀ y, nxt σ2 y = if decide (y = r) then Some h else if decide (y = p) then Some r else nxt σ y) as Hnxt.
  { intros y. unfold σ2. rewrite !nxt_update. cbn [next set_prev set_next].
    destruct (decide (y = h)) as [->|].
    - rewrite (decide_False (P:=h = r)) by done.
      assert (nxt σ1 h = next nh1) as <- by (unfold nxt; by rewrite Hnh1).
      unfold σ1. by rewrite nxt_update.
    - case_decide; [done|]. unfold σ1. by rewrite nxt_update. }
  assert (∀ y, prv σ2 y = if decide (y = r) then Some p else if decide (y = h) then Some r else prv σ y) as Hprv.
  { intros y. unfold σ2. rewrite !prv_update. cbn [prev set_prev set_next].
    destruct (decide (y = h)) as [->|]; [by rewrite decide_False|]. case_decide; [done|].
    unfold σ1. rewrite prv_update. cbn [prev set_next]. case_decide; [|done]. subst y.
    unfold prv. by rewrite Hnp. }
  assert (links_frame (r :: h :: xs) σ σ2) as Hf.
  { unfold σ2, σ1. repeat apply links_frame_insert; try done; set_solver. }
  split; [|exact Hf]. by eapply ring_insert.
Qed.

Lemma dlist_empty_lemma σ h xs :
  ring σ h xs → dlist_empty h σ = Done (bool_decide (xs = []), σ).
Proof.
  intros [Hl Hnd]. assert (∃ n, σ !! h = Some n ∧ next n = Some (default h (head xs))) as (n & Hn & Hx).
  { apply nxt_alloc. destruct xs as [|x xs]; cbn in *; tauto. }
  unfold dlist_empty, mbind, M_bind, load. rewrite Hn, Hx.
  unfold mret, M_ret. do 2 f_equal. apply bool_decide_ext. destruct xs as [|x xs]; cbn; [done|].
  split; [|done]. intros [= ->]. apply NoDup_cons in Hnd as [Hh _]. exfalso. apply Hh. by left.
Qed.

Lemma dlist_init_lemma σ h :
  is_Some (σ !! h) → wp (dlist_init h) (λ _ σ', ring σ' h []) σ.
Proof.
  intros [n Hn]. eapply wp_modify; [done|]. split; [|apply NoDup_singleton].
  cbn. by rewrite nxt_update, prv_update, !decide_True.
Qed.
End DList.
