(* ===== verification/HeapProps.v ===== *)
(** The properties of the TTL heap (storage/heap.cpp) and of the idle list
    (storage/list.h). *)
From S2P Require Import Prelude Heap HeapProofs DList.

(** ** Instances *)

(** A heap of four items, and an owner that is not in it. *)
Definition four : HeapState :=
  mkHeapState [mkHeapItem 10 1; mkHeapItem 20 2; mkHeapItem 15 3; mkHeapItem 30 4]
    (list_to_map [(1%positive, 0); (2%positive, 1); (3%positive, 2); (4%positive, 3); (5%positive, size_max)]).

Lemma four_ok : heap_ok four.
Proof.
  constructor; [|done|].
  - intros i Hi x y Hx Hy. pose proof (lookup_lt_Some _ _ _ Hy) as Hlt.
    do 4 (destruct i as [|i]; [try lia; cbn in Hx, Hy; injection Hx as <-; injection Hy as <-; cbn; lia|]).
    cbn in Hlt. lia.
  - intros i x Hx. pose proof (lookup_lt_Some _ _ _ Hx) as Hlt.
    do 4 (destruct i as [|i]; [cbn in Hx; injection Hx as <-; vm_compute; reflexivity|]).
    cbn in Hlt. lia.
Qed.

(** A ring of two connections, and a third one outside. *)
Definition two_ring : DList.store :=
  list_to_map [(1, DList.mkNode (Some 3) (Some 2)); (2, DList.mkNode (Some 1) (Some 3));
               (3, DList.mkNode (Some 2) (Some 1)); (4, DList.node_init)]%positive.
Lemma two_ring_ok : DList.ring two_ring 1 [2; 3]%positive.
Proof.
  split; [repeat split; vm_compute; reflexivity|apply (bool_decide_unpack _); vm_compute; exact I].
Qed.

(** * Properties *)

(** C23: heap_upsert at a position past the end adds the item: the heap order
    and the back references hold afterwards, and no owner of another item is
    written. *)
Theorem heap_upsert_inserts s pos item :
  heap_ok s → Z.of_nat (length (items s)) <= pos → Z.of_nat (length (items s)) + 1 < 2 ^ 62 →
  is_Some (idx s !! ref item) → ref item ∉ ref <$> items s →
  wp (heap_upsert pos item) (λ _ s', heap_ok s' ∧ items s' ≡ₚ item :: items s ∧
      idx_frame (item :: items s) s s') s.
Proof. apply heap_upsert_insert_lemma. Qed.

Lemma heap_upsert_inserts_witness :
  wp (heap_upsert size_max (mkHeapItem 5 5)) (λ _ s', heap_ok s' ∧ items s' ≡ₚ mkHeapItem 5 5 :: items four) four.
Proof.
  eapply wp_mono; [apply (heap_upsert_inserts four size_max (mkHeapItem 5 5) four_ok); [done|done| |]|].
  - by eexists.
  - apply (bool_decide_unpack _). vm_compute. exact I.
  - by intros [] s' (? & ? & _).
Defined.

(** C24: heap_upsert at the position of the owner's item replaces the item and
    moves it up or down to its place. *)
Theorem heap_upsert_updates s pos item :
  heap_ok s → (pos < length (items s))%nat → idx s !! ref item = Some (Z.of_nat pos) →
  ref item ∈ ref <$> items s →
  wp (heap_upsert (Z.of_nat pos) item) (λ _ s', heap_ok s' ∧
      items s' ≡ₚ <[pos := item]> (items s) ∧ idx_frame (items s) s s') s.
Proof. apply heap_upsert_update_lemma. Qed.

Lemma heap_upsert_updates_witness :
  wp (heap_upsert 0 (mkHeapItem 40 1)) (λ _ s', heap_ok s' ∧
      items s' ≡ₚ [mkHeapItem 40 1; mkHeapItem 20 2; mkHeapItem 15 3; mkHeapItem 30 4]) four.
Proof.
  eapply wp_mono; [apply (heap_upsert_updates four 0 (mkHeapItem 40 1) four_ok)|].
  - cbn. lia.
  - vm_compute. reflexivity.
  - apply (bool_decide_unpack _). vm_compute. exact I.
  - by intros [] s' (? & ? & _).
Defined.

(** C25: heap_delete removes the item at the position and no other, and keeps
    the heap order and the back references, whatever the position. *)
Theorem heap_delete_correct s pos x :
  heap_ok s → items s !! pos = Some x →
  wp (heap_delete (Z.of_nat pos)) (λ _ s', heap_ok s' ∧ items s ≡ₚ x :: items s' ∧
      idx_frame (items s') s s') s.
Proof. apply heap_delete_lemma. Qed.

Lemma heap_delete_correct_witness :
  wp (heap_delete 1) (λ _ s', heap_ok s' ∧ items four ≡ₚ mkHeapItem 20 2 :: items s') four.
Proof.
  eapply wp_mono; [apply (heap_delete_correct four 1 (mkHeapItem 20 2) four_ok eq_refl)|].
  by intros [] s' (? & ? & _).
Defined.

(** The first item of a heap is the next to expire: none has a smaller
    expiration time. *)
Theorem heap_top_is_least s x : heap_ok s → items s !! 0%nat = Some x → ∀ y, y ∈ items s → val x <= val y.
Proof. apply heap_min_lemma. Qed.

Lemma heap_top_is_least_witness : Forall (λ y, 10 <= val y) (items four).
Proof. apply Forall_forall. apply (heap_top_is_least four (mkHeapItem 10 1) four_ok eq_refl). Defined.

(** [dlist_detach] takes one node out of the ring and keeps the others in
    order. *)
Theorem dlist_detach_correct σ h l x r :
  DList.ring σ h (l ++ x :: r) →
  wp (DList.dlist_detach x) (λ _ σ', DList.ring σ' h (l ++ r) ∧ DList.links_frame (h :: l ++ r) σ σ') σ.
Proof. apply DList.dlist_detach_lemma. Qed.

Lemma dlist_detach_correct_witness :
  wp (DList.dlist_detach 2) (λ _ σ', DList.ring σ' 1 [3%positive]) two_ring.
Proof.
  eapply wp_mono; [apply (dlist_detach_correct two_ring 1 [] 2 [3%positive] two_ring_ok)|].
  by intros [] σ' [? _].
Defined.

(** [dlist_insert_before] the sentinel puts the node at the end of the
    ring, where the most recently active connection belongs. *)
Theorem dlist_insert_before_correct σ h xs r :
  DList.ring σ h xs → r ∉ h :: xs → is_Some (σ !! r) →
  wp (DList.dlist_insert_before h r) (λ _ σ', DList.ring σ' h (xs ++ [r]) ∧
      DList.links_frame (r :: h :: xs) σ σ') σ.
Proof. apply DList.dlist_insert_lemma. Qed.

Lemma dlist_insert_before_correct_witness :
  wp (DList.dlist_insert_before 1 4) (λ _ σ', DList.ring σ' 1 [2; 3; 4]%positive) two_ring.
Proof.
  eapply wp_mono; [apply (dlist_insert_before_correct two_ring 1 [2; 3]%positive 4 two_ring_ok)|].
  - apply (bool_decide_unpack _). vm_compute. exact I.
  - by eexists.
  - by intros [] σ' [? _].
Defined.
