(* ===== verification/Bytes.v ===== *)
(** Byte strings and the buffers of core/buffer_io.h.  A [std::string], a
    [Buffer] and a region of memory are lists of bytes; an integer is written
    by copying its little-endian representation. *)
From Stdlib Require Import Strings.Byte.
From S2P Require Import Prelude.

Abbreviation byte := Byte.byte.
Abbreviation bytes := (list Byte.byte).

#[export] Instance byte_eq_dec : EqDecision byte := Byte.byte_eq_dec.
#[export] Instance byte_countable : Countable byte.
Proof.
  apply (inj_countable Byte.to_N Byte.of_N). apply Byte.of_to_N.
Defined.

(** The conversions of [uint8_t]. *)
Definition byte_Z (b : byte) : Z := Z.of_N (Byte.to_N b).
Definition Z_byte (z : Z) : byte := default Byte.x00 (Byte.of_N (Z.to_N (z `mod` 256))).

(** The [n] bytes of an integer, and the unsigned integer of some bytes. *)
Fixpoint le_bytes (n : nat) (z : Z) : bytes :=
  match n with
  | O => []
  | S n => Z_byte z :: le_bytes n (z / 256)
  end.
Fixpoint le_Z (bs : bytes) : Z :=
  match bs with
  | [] => 0
  | b :: bs => byte_Z b + 256 * le_Z bs
  end.

(** The size of a container, a [size_t]. *)
Definition blen {A} (l : list A) : Z := Z.of_nat (length l).

(** * core/buffer_io.h *)
Definition append_buffer (buffer data : bytes) : bytes := buffer ++ data.
Definition consume_buffer (buffer : bytes) (len : Z) : bytes :=
  let len := if len >? blen buffer then blen buffer else len in
  drop (Z.to_nat len) buffer.
Definition append_buffer_u8 (buffer : bytes) (value : Z) : bytes := buffer ++ [Z_byte value].
Definition append_buffer_u32 (buffer : bytes) (value : Z) : bytes :=
  append_buffer buffer (le_bytes 4 value).
Definition append_buffer_i64 (buffer : bytes) (value : Z) : bytes :=
  append_buffer buffer (le_bytes 8 value).
(** A double is its 64-bit representation. *)
Definition append_buffer_f64 (buffer : bytes) (value : Z) : bytes :=
  append_buffer buffer (le_bytes 8 value).
Definition append_buffer_bool (buffer : bytes) (value : bool) : bytes :=
  append_buffer buffer (le_bytes 1 (if value then 1 else 0)).
Definition append_buffer_string (buffer value : bytes) : bytes :=
  append_buffer (append_buffer_u32 buffer (u32 (blen value))) value.
Definition append_buffer_array (buffer value : bytes) : bytes :=
  append_buffer (append_buffer_u32 buffer (u32 (blen value))) value.
(** The entries of the [std::map], in key order. *)
Fixpoint append_buffer_map_items (buffer : bytes) (value : list (Z * Z)) : bytes :=
  match value with
  | [] => buffer
  | (k, v) :: value =>
      append_buffer_map_items (append_buffer_u8 (append_buffer_u8 buffer k) v) value
  end.
Definition append_buffer_map (buffer : bytes) (value : list (Z * Z)) : bytes :=
  append_buffer_map_items (append_buffer_u32 buffer (u32 (blen value))) value.

(** * Conversions are inverse *)
Lemma byte_Z_range b : 0 <= byte_Z b < 256.
Proof. unfold byte_Z. pose proof (Byte.to_N_bounded b). lia. Qed.
Lemma Z_byte_Z b : Z_byte (byte_Z b) = b.
Proof.
  unfold Z_byte. rewrite Z.mod_small by apply byte_Z_range.
  unfold byte_Z. by rewrite N2Z.id, Byte.of_to_N.
Qed.
Lemma byte_Z_byte z : byte_Z (Z_byte z) = z `mod` 256.
Proof.
  unfold byte_Z, Z_byte. pose proof (Z.mod_pos_bound z 256 ltac:(lia)).
  destruct (Byte.of_N (Z.to_N (z `mod` 256))) as [b|] eqn:Hb; cbn [from_option id].
  - apply Byte.to_of_N in Hb. rewrite Hb. lia.
  - apply Byte.of_N_None_iff in Hb. lia.
Qed.

Lemma length_le_bytes n z : length (le_bytes n z) = n.
Proof. revert z. induction n; intros z; simpl; auto. Qed.

Lemma le_Z_bytes n : ∀ z, le_Z (le_bytes n z) = z `mod` 256 ^ Z.of_nat n.
Proof.
  induction n as [|n IH]; intros z; cbn [le_bytes le_Z].
  { by rewrite Z.mod_1_r. }
  rewrite byte_Z_byte, IH. rewrite Nat2Z.inj_succ, Z.pow_succ_r by lia.
  rewrite Z.rem_mul_r; lia.
Qed.

Lemma le_bytes_Z bs : le_bytes (length bs) (le_Z bs) = bs.
Proof.
  induction bs as [|b bs IH]; [done|]. cbn [length le_bytes le_Z].
  pose proof (byte_Z_range b). f_equal.
  - rewrite <-(Z_byte_Z b) at 2. unfold Z_byte at 1 2.
    replace ((byte_Z b + 256 * le_Z bs) `mod` 256) with (byte_Z b `mod` 256); [done|].
    by rewrite Z.mul_comm, Z.mod_add.
  - rewrite Z.mul_comm, Z.div_add, Z.div_small by lia. by rewrite Z.add_0_l, IH.
Qed.

Lemma le_Z_range bs : 0 <= le_Z bs < 256 ^ Z.of_nat (length bs).
Proof.
  rewrite <-(le_bytes_Z bs) at 1 2. rewrite le_Z_bytes. apply Z.mod_pos_bound. lia.
Qed.

Lemma blen_app {A} (l k : list A) : blen (l ++ k) = blen l + blen k.
Proof. unfold blen. rewrite length_app. lia. Qed.
Lemma blen_nonneg {A} (l : list A) : 0 <= blen l.
Proof. unfold blen. lia. Qed.
Lemma blen_le_bytes n z : blen (le_bytes n z) = Z.of_nat n.
Proof. unfold blen. by rewrite length_le_bytes. Qed.

Lemma take_blen {A} (l k : list A) : take (Z.to_nat (blen l)) (l ++ k) = l.
Proof. unfold blen. by rewrite Nat2Z.id, take_app_length. Qed.
Lemma drop_blen {A} (l k : list A) : drop (Z.to_nat (blen l)) (l ++ k) = k.
Proof. unfold blen. by rewrite Nat2Z.id, drop_app_length. Qed.

Lemma consume_app (a b : bytes) n : n = blen a → consume_buffer (a ++ b) n = b.
Proof.
  intros ->. unfold consume_buffer. pose proof (blen_nonneg b). rewrite blen_app.
  destruct (Z.gtb_spec (blen a) (blen a + blen b)); [lia|]. apply drop_blen.
Qed.
