(* ===== verification/Serialize.v ===== *)
(** The value serializer of net/serialize.{h,cpp}: every [out_*] appends one
    tagged value to the output buffer.  [wvalue] is the specification: the
    values of the wire format, and the bytes of each. *)
From S2P Require Import Prelude Bytes.

Definition ERR_UNKNOWN : Z := 1.
Definition ERR_TOO_BIG : Z := 2.
Definition ERR_BAD_TYP : Z := 3.
Definition ERR_BAD_ARG : Z := 4.

Definition TAG_NIL : Z := 0.
Definition TAG_ERR : Z := 1.
Definition TAG_STR : Z := 2.
Definition TAG_INT : Z := 3.
Definition TAG_DBL : Z := 4.
Definition TAG_BOOL : Z := 5.
Definition TAG_ARR : Z := 6.
Definition TAG_MAP : Z := 7.

Definition out_nil (out : bytes) : bytes := append_buffer_u8 out TAG_NIL.
Definition out_err (out : bytes) (code : Z) (msg : bytes) : bytes :=
  let out := append_buffer_u8 out TAG_ERR in
  let out := append_buffer_u32 out code in
  let out := append_buffer_u32 out (u32 (blen msg)) in
  append_buffer out msg.
(** [out_str(out, s, size)]; [s] is the [size] bytes. *)
Definition out_str (out : bytes) (s : bytes) : bytes :=
  let out := append_buffer_u8 out TAG_STR in
  let out := append_buffer_u32 out (u32 (blen s)) in
  append_buffer out s.
Definition out_int (out : bytes) (val : Z) : bytes :=
  append_buffer_i64 (append_buffer_u8 out TAG_INT) val.
Definition out_dbl (out : bytes) (val : Z) : bytes :=
  append_buffer_f64 (append_buffer_u8 out TAG_DBL) val.
Definition out_bool (out : bytes) (val : bool) : bytes :=
  append_buffer_bool (append_buffer_u8 out TAG_BOOL) val.
Definition out_arr (out : bytes) (n : Z) : bytes :=
  append_buffer_u32 (append_buffer_u8 out TAG_ARR) n.
Definition out_map (out : bytes) (n : Z) : bytes :=
  append_buffer_u32 (append_buffer_u8 out TAG_MAP) n.

(** * The values of the format *)
Inductive wvalue : Type :=
| WNil
| WErr (code : Z) (msg : bytes)
| WStr (s : bytes)
| WInt (z : Z)
| WDbl (d : Z)
| WBool (b : bool)
| WArr (vs : list wvalue)
| WMap (vs : list wvalue).

(** What the server writes for a value: the container tags are followed by
    their elements. *)
Fixpoint out_value (out : bytes) (v : wvalue) : bytes :=
  match v with
  | WNil => out_nil out
  | WErr code msg => out_err out code msg
  | WStr s => out_str out s
  | WInt z => out_int out z
  | WDbl d => out_dbl out d
  | WBool b => out_bool out b
  | WArr vs =>
      (fix go (out : bytes) (vs : list wvalue) : bytes :=
         match vs with [] => out | v :: vs => go (out_value out v) vs end)
        (out_arr out (blen vs)) vs
  | WMap vs =>
      (fix go (out : bytes) (vs : list wvalue) : bytes :=
         match vs with [] => out | v :: vs => go (out_value out v) vs end)
        (out_map out (blen vs)) vs
  end.

(** The bytes of a value. *)
Abbreviation enc := (out_value []).

Definition out_values (out : bytes) (vs : list wvalue) : bytes := foldl out_value out vs.

(** Induction with the elements of the containers. *)
Section wvalue_ind.
Context (P : wvalue → Prop).
Context (Hnil : P WNil) (Herr : ∀ c m, P (WErr c m)) (Hstr : ∀ s, P (WStr s))
        (Hint : ∀ z, P (WInt z)) (Hdbl : ∀ d, P (WDbl d)) (Hbool : ∀ b, P (WBool b))
        (Harr : ∀ vs, Forall P vs → P (WArr vs)) (Hmap : ∀ vs, Forall P vs → P (WMap vs)).
Fixpoint wvalue_deep_ind (v : wvalue) : P v :=
  let go := fix go vs : Forall P vs :=
    match vs with
    | [] => Forall_nil_2 P
    | v :: vs => Forall_cons_2 P v vs (wvalue_deep_ind v) (go vs)
    end in
  match v with
  | WNil => Hnil
  | WErr c m => Herr c m
  | WStr s => Hstr s
  | WInt z => Hint z
  | WDbl d => Hdbl d
  | WBool b => Hbool b
  | WArr vs => Harr vs (go vs)
  | WMap vs => Hmap vs (go vs)
  end.
End wvalue_ind.

Lemma out_value_arr out vs : out_value out (WArr vs) = out_values (out_arr out (blen vs)) vs.
Proof.
  cbn [out_value]. generalize (out_arr out (blen vs)).
  induction vs as [|v vs IH]; intros o; [done|]. apply IH.
Qed.
Lemma out_value_map out vs : out_value out (WMap vs) = out_values (out_map out (blen vs)) vs.
Proof.
  cbn [out_value]. generalize (out_map out (blen vs)).
  induction vs as [|v vs IH]; intros o; [done|]. apply IH.
Qed.

(** Serializing only appends. *)
Lemma out_values_append vs :
  Forall (λ v, ∀ out, out_value out v = out ++ out_value [] v) vs →
  ∀ out, out_values out vs = out ++ out_values [] vs.
Proof.
  intros Hvs. induction Hvs as [|v vs Hv _ IH]; intros out; cbn [out_values foldl].
  { by rewrite app_nil_r. }
  change (out_values (out_value out v) vs = out ++ out_values (out_value [] v) vs).
  rewrite IH, (IH (out_value [] v)), Hv. by rewrite app_assoc.
Qed.

Lemma out_value_append v : ∀ out, out_value out v = out ++ out_value [] v.
Proof.
  induction v as [| | | | | |vs IH|vs IH] using wvalue_deep_ind; intros out;
    rewrite ?out_value_arr, ?out_value_map;
    [cbn [out_value]; unfold out_nil, out_err, out_str, out_int, out_dbl, out_bool,
       append_buffer_u8, append_buffer_u32, append_buffer_i64, append_buffer_f64,
       append_buffer_bool, append_buffer; by rewrite <-?app_assoc..| |].
  - rewrite (out_values_append _ IH), (out_values_append _ IH (out_arr [] _)).
    unfold out_arr, append_buffer_u8, append_buffer_u32, append_buffer. by rewrite <-!app_assoc.
  - rewrite (out_values_append _ IH), (out_values_append _ IH (out_map [] _)).
    unfold out_map, append_buffer_u8, append_buffer_u32, append_buffer. by rewrite <-!app_assoc.
Qed.

Lemma out_values_enc vs out : out_values out vs = out ++ concat (out_value [] <$> vs).
Proof.
  revert out. induction vs as [|v vs IH]; intros out; rewrite ?fmap_cons, ?fmap_nil; cbn [concat].
  { by rewrite app_nil_r. }
  change (out_values out (v :: vs)) with (out_values (out_value out v) vs).
  by rewrite IH, out_value_append, <-app_assoc.
Qed.

(** Each [out_] function only appends. *)
Lemma out_nil_app out : out_nil out = out ++ out_nil [].
Proof. done. Qed.
Lemma out_err_app c m out : out_err out c m = out ++ out_err [] c m.
Proof. apply (out_value_append (WErr c m)). Qed.
Lemma out_str_app s out : out_str out s = out ++ out_str [] s.
Proof. apply (out_value_append (WStr s)). Qed.
Lemma out_int_app z out : out_int out z = out ++ out_int [] z.
Proof. apply (out_value_append (WInt z)). Qed.
Lemma out_dbl_app d out : out_dbl out d = out ++ out_dbl [] d.
Proof. apply (out_value_append (WDbl d)). Qed.
Lemma out_arr_app n out : out_arr out n = out ++ out_arr [] n.
Proof.
  unfold out_arr, append_buffer_u32, append_buffer_u8, append_buffer. by rewrite <-!app_assoc.
Qed.

Create HintDb appends.
#[export] Hint Resolve out_nil_app out_err_app out_str_app out_int_app out_dbl_app out_arr_app : appends.
