(* ===== verification/Protocol.v ===== *)
(** The request and response framing of net/protocol.{h,cpp}.  A pair of
    pointers [cursor, end] is the list of the bytes between them. *)
From S2P Require Import Prelude Bytes.

(** core/constants.h *)
Definition k_max_msg : Z := Z.shiftl 32 20.
Definition k_max_args : Z := 200 * 1000.

Record Response := mkResponse { status : Z; data : bytes }.
Definition RES_OK : Z := 200.
Definition RES_NX : Z := 404.
Definition RES_ERR : Z := 500.

(** On success, the value read and the advanced cursor. *)
Definition read_header (cursor : bytes) : option (Z * bytes) :=
  if blen cursor <? 4 then None else Some (le_Z (take 4 cursor), drop 4 cursor).
Definition read_string (cursor : bytes) (len : Z) : option (bytes * bytes) :=
  if blen cursor <? len then None
  else Some (take (Z.to_nat len) cursor, drop (Z.to_nat len) cursor).

(** [while (cmd.size() < num_args)]: [todo] arguments are missing.  The result
    is the cursor, if the loop ended without a [return -1], and [cmd], which a
    failure leaves as it is then. *)
Fixpoint parse_args (todo : nat) (cursor : bytes) (cmd : list bytes)
    : option bytes * list bytes :=
  match todo with
  | O => (Some cursor, cmd)
  | S todo =>
      match read_header cursor with
      | None => (None, cmd)
      | Some (len, cursor) =>
          match read_string cursor len with
          | None => (None, cmd ++ [[]])
          | Some (s, cursor) => parse_args todo cursor (cmd ++ [s])
          end
      end
  end.

Definition parse_request (data : bytes) (cmd : list bytes) : Z * list bytes :=
  match read_header data with
  | None => (-1, cmd)
  | Some (num_args, cursor) =>
      if num_args >? k_max_args then (-1, cmd)
      else
        match parse_args (Z.to_nat (num_args - blen cmd)) cursor cmd with
        | (None, cmd) => (-1, cmd)
        | (Some cursor, cmd) =>
            if negb (blen cursor =? 0) then (-1, cmd) else (0, cmd)
        end
  end.

Definition generate_response (resp : Response) (out : bytes) : bytes :=
  let resp_len := u32 (4 + u32 (blen (data resp))) in
  let out := append_buffer out (le_bytes 4 resp_len) in
  let out := append_buffer out (le_bytes 4 (status resp)) in
  append_buffer out (data resp).

(** * The format of a request *)
Definition arg_bytes (arg : bytes) : bytes := le_bytes 4 (blen arg) ++ arg.
Definition request_bytes (cmd : list bytes) : bytes :=
  le_bytes 4 (blen cmd) ++ concat (arg_bytes <$> cmd).
Definition wf_cmd (cmd : list bytes) : Prop :=
  blen cmd <= k_max_args ∧ Forall (λ arg, blen arg < 2 ^ 32) cmd.

#[export] Instance wf_cmd_dec cmd : Decision (wf_cmd cmd).
Proof. unfold wf_cmd. apply _. Defined.

Lemma read_header_spec cursor z rest :
  read_header cursor = Some (z, rest) ↔ cursor = le_bytes 4 z ++ rest ∧ 0 <= z < 2 ^ 32.
Proof.
  unfold read_header. split.
  - destruct (Z.ltb_spec (blen cursor) 4); [done|]. intros [= <- <-].
    assert (length (take 4 cursor) = 4%nat) as Hl by (rewrite length_take; unfold blen in *; lia).
    pose proof (le_bytes_Z (take 4 cursor)) as He. pose proof (le_Z_range (take 4 cursor)) as Hr.
    rewrite Hl in He, Hr. by rewrite He, take_drop.
  - intros [-> Hz]. rewrite blen_app, blen_le_bytes. pose proof (blen_nonneg rest).
    rewrite (proj2 (Z.ltb_ge _ _)) by lia.
    rewrite take_app_length', drop_app_length' by by rewrite length_le_bytes.
    by rewrite le_Z_bytes, Z.mod_small.
Qed.

Lemma read_string_spec cursor len s rest :
  0 <= len → read_string cursor len = Some (s, rest) ↔ cursor = s ++ rest ∧ blen s = len.
Proof.
  intros Hlen. unfold read_string. split.
  - destruct (Z.ltb_spec (blen cursor) len); [done|]. intros [= <- <-].
    rewrite take_drop. split; [done|]. unfold blen in *. rewrite length_take. lia.
  - intros [-> <-]. rewrite blen_app. pose proof (blen_nonneg rest).
    rewrite (proj2 (Z.ltb_ge _ _)) by lia. by rewrite take_blen, drop_blen.
Qed.

Lemma parse_args_spec todo : ∀ cursor cmd rest cmd',
  parse_args todo cursor cmd = (Some rest, cmd') ↔
  ∃ args, length args = todo ∧ Forall (λ arg, blen arg < 2 ^ 32) args ∧
    cmd' = cmd ++ args ∧ cursor = concat (arg_bytes <$> args) ++ rest.
Proof.
  induction todo as [|todo IH]; intros cursor cmd rest cmd'; cbn [parse_args].
  { split.
    - intros [= <- <-]. exists []. by rewrite app_nil_r.
    - intros ([] & Hl & _ & -> & ->); [|done]. by rewrite app_nil_r. }
  split.
  - destruct (read_header cursor) as [[len c1]|] eqn:Hh; [|done].
    apply read_header_spec in Hh as [-> Hlen].
    destruct (read_string c1 len) as [[s c2]|] eqn:Hs; [|done].
    apply read_string_spec in Hs as [-> <-]; [|lia]. rewrite IH.
    intros (args & <- & Hall & -> & ->). exists (s :: args). split_and!; [done| | |].
    + constructor; [lia|done].
    + by rewrite <-app_assoc.
    + cbn [fmap list_fmap concat]. unfold arg_bytes at 1. by rewrite <-!app_assoc.
  - intros (args & Hl & Hall & -> & ->). destruct args as [|s args]; [done|].
    apply Forall_cons in Hall as [Hs Hall]. cbn [fmap list_fmap concat]. unfold arg_bytes at 1.
    rewrite <-!app_assoc. pose proof (blen_nonneg s).
    rewrite (proj2 (read_header_spec _ (blen s) _)) by done.
    rewrite (proj2 (read_string_spec _ _ s _ (blen_nonneg s))) by done.
    apply IH. exists args. split_and!; [by injection Hl|done|by rewrite <-app_assoc|done].
Qed.

Lemma parse_request_lemma data cmd :
  parse_request data [] = (0, cmd) ↔ wf_cmd cmd ∧ data = request_bytes cmd.
Proof.
  unfold parse_request, wf_cmd, request_bytes. split.
  - destruct (read_header data) as [[n cursor]|] eqn:Hh; [|done].
    apply read_header_spec in Hh as [-> Hn].
    destruct (Z.gtb_spec n k_max_args); [done|].
    destruct (parse_args _ _ _) as [[rest|] cmd'] eqn:Hp; [|done].
    apply parse_args_spec in Hp as (args & Hl & Hall & -> & ->).
    destruct (Z.eqb_spec (blen rest) 0) as [Hr|]; [|done]. intros [= <-].
    assert (rest = []) as -> by (apply nil_length_inv; unfold blen in Hr; lia).
    cbn [app]. unfold blen in *. cbn [length] in Hl. rewrite app_nil_r.
    split; [split; [lia|done]|]. do 2 f_equal. lia.
  - intros [[Hn Hall] ->]. pose proof (blen_nonneg cmd). unfold k_max_args in *.
    rewrite (proj2 (read_header_spec _ (blen cmd) (concat (arg_bytes <$> cmd)))) by (split; [done|lia]).
    destruct (Z.gtb_spec (blen cmd) (200 * 1000)); [lia|].
    rewrite (proj2 (parse_args_spec _ _ [] [] cmd)); [done|].
    exists cmd. unfold blen. cbn [length]. split_and!; [lia|done|done|by rewrite app_nil_r].
Qed.
