(* ===== verification/Common.v ===== *)
(** The helpers of core/common.h: the string hash and the conversions of
    strings to numbers.  A double is its 64-bit IEEE-754 representation. *)
From Stdlib Require Import Floats.SpecFloat.
From S2P Require Import Prelude Bytes.

(** * Hash *)
Definition fnv_base : Z := 0x811C9DC5.
Definition fnv_prime : Z := 0x1000193.

Fixpoint string_hash_loop (base : Z) (data : bytes) : Z :=
  match data with
  | [] => base
  | b :: data => string_hash_loop (u32 (u32 (base + byte_Z b) * fnv_prime)) data
  end.
Definition string_hash (data : bytes) : Z := string_hash_loop fnv_base data.

(** * Characters *)
Definition ch (b : byte) (z : Z) : bool := byte_Z b =? z.
(** [isspace] and [isdigit] in the C locale. *)
Definition is_space (b : byte) : bool := ch b 32 || ((9 <=? byte_Z b) && (byte_Z b <=? 13)).
Definition is_digit (b : byte) : bool := (48 <=? byte_Z b) && (byte_Z b <=? 57).
Definition to_lower (b : byte) : Z :=
  if (65 <=? byte_Z b) && (byte_Z b <=? 90) then byte_Z b + 32 else byte_Z b.
(** The value of a hexadecimal digit. *)
Definition hex_value (b : byte) : option Z :=
  if is_digit b then Some (byte_Z b - 48)
  else if (97 <=? to_lower b) && (to_lower b <=? 102) then Some (to_lower b - 87)
  else None.
Definition is_hex (b : byte) : bool :=
  match hex_value b with Some _ => true | None => false end.

(** The longest prefix of characters of a class, and the rest. *)
Fixpoint span (p : byte → bool) (s : bytes) : bytes * bytes :=
  match s with
  | b :: s' => if p b then let '(l, r) := span p s' in (b :: l, r) else ([], s)
  | [] => ([], [])
  end.

(** An optional sign: whether it is a minus, and the rest. *)
Definition take_sign (s : bytes) : bool * bytes :=
  match s with
  | b :: s' => if ch b 45 then (true, s') else if ch b 43 then (false, s') else (false, s)
  | [] => (false, [])
  end.

Definition digits_value (base : Z) (value : byte → Z) (ds : bytes) : Z :=
  fold_left (λ n b, n * base + value b) ds 0.
Definition dec_value (ds : bytes) : Z := digits_value 10 (λ b, byte_Z b - 48) ds.
Definition hex_digits_value (ds : bytes) : Z := digits_value 16 (λ b, default 0 (hex_value b)) ds.

(** * [strtoll(s, &endp, 10)]: the value, and the rest of the string at [endp] *)
Definition clamp_i64 (z : Z) : Z := Z.max (- 2 ^ 63) (Z.min (2 ^ 63 - 1) z).

Definition strtoll (s : bytes) : Z * bytes :=
  let '(_, r) := span is_space s in
  let '(neg, r) := take_sign r in
  let '(ds, r) := span is_digit r in
  match ds with
  | [] => (0, s)
  | _ => (clamp_i64 (if neg : bool then - dec_value ds else dec_value ds), r)
  end.

(** The result and what is written to [out]; [endp == s.c_str() + s.size()]
    holds when nothing is left. *)
Definition str2int (s : bytes) : bool * Z :=
  let '(out, rest) := strtoll s in
  (bool_decide (rest = []), out).

(** * Doubles *)
Abbreviation f64 := Z (only parsing).

Definition f64_mag (d : f64) : Z := d `mod` 2 ^ 63.
Definition f64_neg (d : f64) : bool := 2 ^ 63 <=? d.
Definition f64_inf : f64 := Z.shiftl 0x7ff 52.
Definition f64_nan : f64 := Z.shiftl 0xfff 51.
Definition isnan (d : f64) : bool := f64_mag d >? f64_inf.
(** The order of the representations of numbers, the two zeros identified. *)
Definition f64_key (d : f64) : Z := if f64_neg d then - f64_mag d else f64_mag d.
(** [a == b] and [a < b] *)
Definition f64_eq (a b : f64) : bool := negb (isnan a) && negb (isnan b) && (f64_key a =? f64_key b).
Definition f64_lt (a b : f64) : bool := negb (isnan a) && negb (isnan b) && (f64_key a <? f64_key b).

(** The representation of a float of the standard's binary64 format. *)
Definition f64_of (x : spec_float) : f64 :=
  match x with
  | S754_zero s => if s then 2 ^ 63 else 0
  | S754_infinity s => (if s then 2 ^ 63 else 0) + f64_inf
  | S754_nan => f64_nan
  | S754_finite s m e =>
      (if s then 2 ^ 63 else 0) +
      (if Z.pos m <? 2 ^ 52 then Z.pos m else Z.shiftl (e + 1075) 52 + (Z.pos m - 2 ^ 52))
  end.

(** The double nearest to [m * 10^e], and to [m * 2^e]. *)
Definition f64_of_decimal (neg : bool) (m e : Z) : f64 :=
  match m with
  | Z.pos p =>
      f64_of (if 0 <=? e then binary_normalize 53 1024 ((if neg then -1 else 1) * (m * 10 ^ e)) 0 neg
              else SFdiv 53 1024 (S754_finite neg p 0) (S754_finite false (Z.to_pos (10 ^ (- e))) 0))
  | _ => f64_of (S754_zero neg)
  end.
Definition f64_of_binary (neg : bool) (m e : Z) : f64 :=
  f64_of (binary_normalize 53 1024 ((if neg then -1 else 1) * m) e neg).

(** An exponent part, introduced by the letter [letter]: it is taken only if it
    has digits. *)
Definition take_exponent (letter : Z) (s : bytes) : Z * bytes :=
  match s with
  | b :: s' =>
      if to_lower b =? letter then
        let '(neg, r) := take_sign s' in
        let '(ds, r) := span is_digit r in
        match ds with
        | [] => (0, s)
        | _ => ((if neg : bool then - dec_value ds else dec_value ds), r)
        end
      else (0, s)
  | [] => (0, [])
  end.

(** Digits with an optional point: the digits before and after it. *)
Definition take_mantissa (digit : byte → bool) (s : bytes) : bytes * bytes * bytes :=
  let '(ip, r) := span digit s in
  match r with
  | b :: r' => if ch b 46 then let '(fp, r'') := span digit r' in (ip, fp, r'') else (ip, [], r)
  | [] => (ip, [], [])
  end.

(** A case-insensitive keyword, given in lower case. *)
Fixpoint take_word (w : list Z) (s : bytes) : option bytes :=
  match w, s with
  | [], _ => Some s
  | c :: w, b :: s => if to_lower b =? c then take_word w s else None
  | _, [] => None
  end.

(** Decimal or hexadecimal number without sign; [None] when there is none. *)
Definition strtod_decimal (neg : bool) (s : bytes) : option (f64 * bytes) :=
  let '(ip, fp, r) := take_mantissa is_digit s in
  match ip ++ fp with
  | [] => None
  | ds =>
      let '(e, r) := take_exponent 101 r in
      Some (f64_of_decimal neg (dec_value ds) (e - blen fp), r)
  end.
Definition strtod_hex (neg : bool) (s : bytes) : option (f64 * bytes) :=
  match take_word [48; 120] s with
  | None => None
  | Some s =>
      let '(ip, fp, r) := take_mantissa is_hex s in
      match ip ++ fp with
      | [] => None
      | ds =>
          let '(e, r) := take_exponent 112 r in
          Some (f64_of_binary neg (hex_digits_value ds) (e - 4 * blen fp), r)
      end
  end.
(** [inf], [infinity] and [nan] (whatever follows a [nan] cannot make the
    conversion succeed). *)
Definition strtod_word (neg : bool) (s : bytes) : option (f64 * bytes) :=
  match take_word [105; 110; 102] s with
  | Some r =>
      Some (f64_of (S754_infinity neg),
            match take_word [105; 110; 105; 116; 121] r with Some r => r | None => r end)
  | None =>
      match take_word [110; 97; 110] s with
      | Some r => Some (f64_nan, r)
      | None => None
      end
  end.

(** [strtod(s, &endp)] *)
Definition strtod (s : bytes) : f64 * bytes :=
  let '(_, r) := span is_space s in
  let '(neg, r) := take_sign r in
  match strtod_word neg r with
  | Some res => res
  | None =>
      match strtod_hex neg r with
      | Some res => res
      | None =>
          match strtod_decimal neg r with
          | Some res => res
          | None => (0, s)
          end
      end
  end.

Definition str2dbl (s : bytes) : bool * f64 :=
  let '(out, rest) := strtod s in
  (bool_decide (rest = []) && negb (isnan out), out).

(** * Comparisons *)
Lemma f64_lt_irrefl a : f64_lt a a = false.
Proof. unfold f64_lt. rewrite Z.ltb_irrefl. by rewrite andb_false_r. Qed.

Lemma string_hash_range data : 0 <= string_hash data < 2 ^ 32.
Proof.
  unfold string_hash. assert (0 <= fnv_base < 2 ^ 32) as Hb by (unfold fnv_base; lia).
  revert Hb. generalize fnv_base. induction data as [|b data IH]; intros z Hz; [done|].
  cbn [string_hash_loop]. apply IH; auto with words.
Qed.
