(* ===== verification/NumberProps.v ===== *)
(** The parsers of integers and of doubles of core/common.h: exactly which texts it accepts, and
    with which value. *)
From S2P Require Import Prelude Bytes Common.

(** ** Prefixes *)
Definition all (p : byte → bool) (s : bytes) : Prop := Forall (λ b, p b = true) s.
Definition stops_at (p : byte → bool) (s : bytes) : Prop := match s with [] => True | b :: _ => p b = false end.

Lemma span_lemma p s l r : span p s = (l, r) ↔ s = l ++ r ∧ all p l ∧ stops_at p r.
Proof.
  split.
  - revert l r. induction s as [|b s IH]; intros l r; cbn [span]; [intros [= <- <-]; by repeat constructor|].
    destruct (p b) eqn:Hb; [|intros [= <- <-]; by repeat constructor].
    destruct (span p s) as [l' r'] eqn:Hs. intros [= <- <-]. destruct (IH _ _ eq_refl) as (-> & Hl & Hr).
    split_and!; [done|by constructor|done].
  - intros (-> & Hl & Hr). induction Hl as [|b l Hb Hl IH]; cbn [app span]; [|by rewrite Hb, IH].
    destruct r as [|b r]; [done|]. cbn in *. by rewrite Hr.
Qed.

(** * The texts of an integer *)

(** A sign: nothing, a plus or a minus. *)
Definition sign_of (sg : bytes) : option bool :=
  match sg with
  | [] => Some false
  | [b] => if ch b 45 then Some true else if ch b 43 then Some false else None
  | _ => None
  end.

(** White space, a sign and digits, and nothing after them; a value outside of the
    64 bits is the nearest one inside. The empty text is 0. *)
Inductive int_text : bytes → Z → Prop :=
| text_empty : int_text [] 0
| text_number sp sg neg ds :
    all is_space sp → sign_of sg = Some neg → all is_digit ds → ds ≠ [] →
    int_text (sp ++ sg ++ ds) (clamp_i64 (if neg : bool then - dec_value ds else dec_value ds)).

Lemma digit_not_sign b : is_digit b = true → ch b 45 = false ∧ ch b 43 = false.
Proof. unfold is_digit, ch. lia. Qed.
Lemma digit_not_space b : is_digit b = true → is_space b = false.
Proof. unfold is_digit, is_space, ch. lia. Qed.
Lemma sign_not_space b : ch b 45 = true ∨ ch b 43 = true → is_space b = false.
Proof. unfold is_space, ch. lia. Qed.

Lemma take_sign_lemma s neg r :
  take_sign s = (neg, r) → ∃ sg, sign_of sg = Some neg ∧ s = sg ++ r.
Proof.
  destruct s as [|b s]; cbn [take_sign]; [intros [= <- <-]; by exists []|].
  destruct (ch b 45) eqn:H45; [intros [= <- <-]; exists [b]; cbn; by rewrite H45|].
  destruct (ch b 43) eqn:H43; intros [= <- <-]; [exists [b]; cbn; by rewrite H45, H43|by exists []].
Qed.

Lemma take_sign_digits sg neg ds :
  sign_of sg = Some neg → all is_digit ds → ds ≠ [] →
  take_sign (sg ++ ds) = (neg, ds) ∧ stops_at is_space (sg ++ ds).
Proof.
  intros Hsg Hds Hne. destruct sg as [|b [|]]; [|cbn in *|done].
  - injection Hsg as <-. destruct Hds as [|b ds Hb _]; [done|]. destruct (digit_not_sign b Hb) as [H1 H2].
    cbn. rewrite H1, H2. split; [done|by apply digit_not_space].
  - destruct (ch b 45) eqn:H45; [injection Hsg as <-; split; [done|apply sign_not_space; auto]|].
    destruct (ch b 43) eqn:H43; [|done]. injection Hsg as <-. split; [done|apply sign_not_space; auto].
Qed.

Lemma int_text_range s z : int_text s z → - 2 ^ 63 <= z < 2 ^ 63.
Proof. destruct 1; [lia|]. unfold clamp_i64. lia. Qed.

Lemma str2int_lemma s z : str2int s = (true, z) ↔ int_text s z.
Proof.
  unfold str2int, strtoll. split.
  - destruct (span is_space s) as [sp r] eqn:Hsp. apply span_lemma in Hsp as (-> & Hsp & _).
    destruct (take_sign r) as [neg r1] eqn:Hsg. apply take_sign_lemma in Hsg as (sg & Hsg & ->).
    destruct (span is_digit r1) as [ds r2] eqn:Hds. apply span_lemma in Hds as (-> & Hds & _).
    destruct ds as [|d ds]; intros [= Hr <-]; apply bool_decide_eq_true in Hr.
    + cbn [app] in *. rewrite Hr. constructor.
    + subst r2. rewrite app_nil_r. by apply (text_number sp sg neg (d :: ds)).
  - destruct 1 as [|sp sg neg ds Hsp Hsg Hds Hne]; [done|].
    destruct (take_sign_digits sg neg ds Hsg Hds Hne) as [Ht Hstop].
    assert (span is_space (sp ++ sg ++ ds) = (sp, sg ++ ds)) as -> by by apply span_lemma.
    rewrite Ht. assert (span is_digit ds = (ds, [])) as -> by (apply span_lemma; by rewrite app_nil_r).
    by destruct ds.
Qed.

(** ** The decimal digits of a number *)
Lemma dec_value_app ds b : dec_value (ds ++ [b]) = dec_value ds * 10 + (byte_Z b - 48).
Proof. unfold dec_value, digits_value. by rewrite fold_left_app. Qed.

(** * The texts of a double *)
Definition no_sign (s : bytes) : Prop := match s with [] => True | b :: _ => ch b 45 = false ∧ ch b 43 = false end.

Lemma take_sign_prefix sg neg r :
  sign_of sg = Some neg → no_sign r → stops_at is_space r → take_sign (sg ++ r) = (neg, r) ∧ stops_at is_space (sg ++ r).
Proof.
  intros Hsg Hr Hsp. destruct sg as [|b [|]]; [|cbn in *|done].
  - injection Hsg as <-. destruct r as [|b r]; [done|]. destruct Hr as [H1 H2]. cbn. by rewrite H1, H2.
  - destruct (ch b 45) eqn:H45; [injection Hsg as <-; split; [done|apply sign_not_space; auto]|].
    destruct (ch b 43) eqn:H43; [|done]. injection Hsg as <-. split; [done|apply sign_not_space; auto].
Qed.

(** A keyword, in any case. *)
Definition word_text (w : list Z) (u : bytes) : Prop := to_lower <$> u = w.
Lemma take_word_lemma w : ∀ s r, take_word w s = Some r ↔ ∃ u, word_text w u ∧ s = u ++ r.
Proof.
  unfold word_text. induction w as [|c w IH]; intros s r; cbn [take_word].
  - split; [intros [= <-]; by exists []|]. intros (u & ->%fmap_nil_inv & ->). done.
  - destruct s as [|b s]; [split; [done|]; intros ([|] & ? & ?); done|].
    destruct (Z.eqb_spec (to_lower b) c) as [Hb|Hb].
    + rewrite IH. split.
      * intros (u & Hu & ->). exists (b :: u). by rewrite fmap_cons, Hb, Hu.
      * intros ([|b' u] & Hu & Hs); [done|]. injection Hs as <- ->. exists u. by injection Hu.
    + split; [done|]. intros ([|b' u] & Hu & Hs); [done|]. injection Hs as <- _. by injection Hu.
Qed.

(** Digits with an optional point. *)
Inductive mantissa_text (digit : byte → bool) : bytes → bytes → bytes → Prop :=
| mantissa_whole ip : all digit ip → mantissa_text digit ip ip []
| mantissa_point ip b fp : all digit ip → ch b 46 = true → all digit fp → mantissa_text digit (ip ++ b :: fp) ip fp.

(** What comes after a mantissa cannot continue it. *)
Definition after_mantissa (digit : byte → bool) (r : bytes) : Prop :=
  match r with [] => True | b :: _ => digit b = false ∧ ch b 46 = false end.

Lemma take_mantissa_sound digit s ip fp r :
  take_mantissa digit s = (ip, fp, r) → ∃ m, mantissa_text digit m ip fp ∧ s = m ++ r.
Proof.
  unfold take_mantissa. destruct (span digit s) as [l r1] eqn:Hs. apply span_lemma in Hs as (-> & Hl & _).
  destruct r1 as [|b r1]; [intros [= <- <- <-]; exists l; by split; [constructor|]|].
  destruct (ch b 46) eqn:Hb; [|intros [= <- <- <-]; exists l; by split; [constructor|]].
  destruct (span digit r1) as [l2 r2] eqn:Hs2. apply span_lemma in Hs2 as (-> & Hl2 & _). intros [= <- <- <-].
  exists (l ++ b :: l2). split; [by constructor|]. by rewrite <-app_assoc.
Qed.

Lemma take_mantissa_complete digit m ip fp r :
  (∀ b, ch b 46 = true → digit b = false) → mantissa_text digit m ip fp → after_mantissa digit r →
  take_mantissa digit (m ++ r) = (ip, fp, r).
Proof.
  intros Hpt Hm Hr. unfold take_mantissa.
  assert (stops_at digit r) as Hst by (destruct r; [done|apply Hr]). destruct Hm as [ip Hip|ip b fp Hip Hb Hfp].
  - assert (span digit (ip ++ r) = (ip, r)) as -> by by apply span_lemma.
    destruct r as [|b r]; [done|]. destruct Hr as [_ Hr]. by rewrite Hr.
  - rewrite <-app_assoc. cbn [app].
    assert (span digit (ip ++ b :: fp ++ r) = (ip, b :: fp ++ r)) as ->.
    { apply span_lemma. split_and!; [done..|]. by apply Hpt. }
    rewrite Hb. assert (span digit (fp ++ r) = (fp, r)) as -> by by apply span_lemma. done.
Qed.

(** An exponent: a letter in either case, a sign and digits. *)
Inductive exponent_text (letter : Z) : bytes → Z → Prop :=
| exponent_none : exponent_text letter [] 0
| exponent_some b sg neg ds :
    to_lower b = letter → sign_of sg = Some neg → all is_digit ds → ds ≠ [] →
    exponent_text letter (b :: sg ++ ds) (if neg : bool then - dec_value ds else dec_value ds).

Lemma take_exponent_lemma letter s e : take_exponent letter s = (e, []) ↔ exponent_text letter s e.
Proof.
  split.
  - destruct s as [|b s]; cbn [take_exponent]; [intros [= <-]; constructor|].
    destruct (Z.eqb_spec (to_lower b) letter) as [Hb|]; [|done].
    destruct (take_sign s) as [neg r1] eqn:Hsg. apply take_sign_lemma in Hsg as (sg & Hsg & ->).
    destruct (span is_digit r1) as [ds r2] eqn:Hds. apply span_lemma in Hds as (-> & Hds & _).
    destruct ds as [|d ds]; [done|]. intros [= <- ->]. rewrite app_nil_r. by apply exponent_some.
  - destruct 1 as [|b sg neg ds Hb Hsg Hds Hne]; [done|]. cbn [take_exponent].
    rewrite (proj2 (Z.eqb_eq _ _) Hb). destruct (take_sign_digits sg neg ds Hsg Hds Hne) as [-> _].
    assert (span is_digit ds = (ds, [])) as -> by (apply span_lemma; by rewrite app_nil_r). by destruct ds.
Qed.

(** A number without white space or sign: infinity, a decimal number or a
    hexadecimal number with a binary exponent. *)
Inductive number_text (neg : bool) : bytes → f64 → Prop :=
| number_infinity u :
    word_text [105; 110; 102] u ∨ word_text [105; 110; 102; 105; 110; 105; 116; 121] u →
    number_text neg u (f64_of (SpecFloat.S754_infinity neg))
| number_decimal m ip fp x e :
    mantissa_text is_digit m ip fp → ip ++ fp ≠ [] → exponent_text 101 x e →
    number_text neg (m ++ x) (f64_of_decimal neg (dec_value (ip ++ fp)) (e - blen fp))
| number_hex h m ip fp x e :
    word_text [48; 120] h → mantissa_text is_hex m ip fp → ip ++ fp ≠ [] → exponent_text 112 x e →
    number_text neg (h ++ m ++ x) (f64_of_binary neg (hex_digits_value (ip ++ fp)) (e - 4 * blen fp)).

(** ** Characters *)
Lemma lower_spec b :
  (byte_Z b < 65 ∨ 90 < byte_Z b) ∧ to_lower b = byte_Z b ∨ 65 <= byte_Z b <= 90 ∧ to_lower b = byte_Z b + 32.
Proof. unfold to_lower. destruct (_ && _) eqn:H; lia. Qed.
Lemma digit_lower b : is_digit b = true ∨ ch b 46 = true → 46 <= to_lower b <= 57.
Proof. pose proof (lower_spec b). unfold is_digit, ch. lia. Qed.
Lemma hex_lower b : is_hex b = true → 48 <= to_lower b <= 57 ∨ 97 <= to_lower b <= 102.
Proof.
  pose proof (lower_spec b). unfold is_hex, hex_value. destruct (is_digit b) eqn:Hd; [unfold is_digit in Hd; lia|].
  destruct (_ && _) eqn:Hx; [lia|done].
Qed.
Lemma point_lower b : ch b 46 = true → to_lower b = 46.
Proof. pose proof (lower_spec b). unfold ch. lia. Qed.
Lemma point_not_digit b : ch b 46 = true → is_digit b = false.
Proof. unfold is_digit, ch. lia. Qed.
Lemma point_not_hex b : ch b 46 = true → is_hex b = false.
Proof. intros Hb%point_lower. destruct (is_hex b) eqn:Hx; [apply hex_lower in Hx; lia|done]. Qed.
Lemma plain_head b : 46 <= to_lower b <= 57 ∨ to_lower b = 105 → (ch b 45 = false ∧ ch b 43 = false) ∧ is_space b = false.
Proof. pose proof (lower_spec b). unfold is_space, ch. lia. Qed.

(** The exponent does not continue the mantissa. *)
Lemma exponent_after_digits x e : exponent_text 101 x e → after_mantissa is_digit x.
Proof.
  destruct 1 as [|b sg neg ds Hb]; [done|]. cbn.
  destruct (is_digit b) eqn:Hd; [pose proof (digit_lower b (or_introl Hd)); lia|].
  destruct (ch b 46) eqn:Hp; [apply point_lower in Hp; lia|done].
Qed.
Lemma exponent_after_hex x e : exponent_text 112 x e → after_mantissa is_hex x.
Proof.
  destruct 1 as [|b sg neg ds Hb]; [done|]. cbn.
  destruct (is_hex b) eqn:Hd; [apply hex_lower in Hd; lia|].
  destruct (ch b 46) eqn:Hp; [apply point_lower in Hp; lia|done].
Qed.

Lemma mantissa_chars digit m ip fp :
  mantissa_text digit m ip fp → Forall (λ b, digit b = true ∨ ch b 46 = true) m.
Proof.
  destruct 1 as [ip Hip|ip b fp Hip Hb Hfp]; rewrite ?Forall_app, ?Forall_cons;
    split_and?; (by right) || (eapply Forall_impl; [done|by left]).
Qed.
Lemma mantissa_nonempty digit m ip fp : mantissa_text digit m ip fp → ip ++ fp ≠ [] → m ≠ [].
Proof. destruct 1 as [ip _|ip b fp _ _ _]; [by rewrite app_nil_r|by destruct ip]. Qed.

(** The first character, and the second one, of a decimal number. *)
Lemma decimal_head m ip fp x e :
  mantissa_text is_digit m ip fp → ip ++ fp ≠ [] → exponent_text 101 x e →
  ∃ b s, m ++ x = b :: s ∧ 46 <= to_lower b <= 57 ∧ match s with [] => True | b' :: _ => to_lower b' <> 120 end.
Proof.
  intros Hm Hne Hx. pose proof (mantissa_nonempty _ _ _ _ Hm Hne) as Hm0. apply mantissa_chars in Hm.
  destruct Hm as [|b m Hb Hm]; [done|]. exists b, (m ++ x). split; [done|]. split; [by apply digit_lower|].
  destruct Hm as [|b' m Hb' Hm]; cbn [app].
  - destruct Hx as [|b' sg neg ds Hb']; [done|]. lia.
  - apply digit_lower in Hb'. lia.
Qed.

(** [strtod] after the white space and the sign. *)
Definition strtod_number (neg : bool) (r : bytes) : option (f64 * bytes) :=
  match strtod_word neg r with
  | Some res => Some res
  | None => match strtod_hex neg r with Some res => Some res | None => strtod_decimal neg r end
  end.

Lemma strtod_number_sound neg r d :
  strtod_number neg r = Some (d, []) → isnan d = false → number_text neg r d.
Proof.
  unfold strtod_number. intros Hn Hd.
  destruct (strtod_word neg r) as [[d' r']|] eqn:Hw; [|clear Hw; destruct (strtod_hex neg r) as [[d' r']|] eqn:Hx; [|clear Hx]].
  - injection Hn as -> ->. unfold strtod_word in Hw. destruct (take_word [105; 110; 102] r) as [r1|] eqn:H1.
    + apply (inj Some), pair_eq in Hw as [<- Hr1]. apply take_word_lemma in H1 as (u & Hu & ->). constructor.
      destruct (take_word [105; 110; 105; 116; 121] r1) as [r2|] eqn:H2; subst; [|left; by rewrite app_nil_r].
      apply take_word_lemma in H2 as (u2 & Hu2 & ->). right. unfold word_text in *. by rewrite app_nil_r, fmap_app, Hu, Hu2.
    + destruct (take_word [110; 97; 110] r); [|done]. injection Hw as <- _. done.
  - injection Hn as -> ->. unfold strtod_hex in Hx. destruct (take_word [48; 120] r) as [r1|] eqn:H1; [|done].
    apply take_word_lemma in H1 as (h & Hh & ->). destruct (take_mantissa is_hex r1) as [[ip fp] x] eqn:Hm.
    apply take_mantissa_sound in Hm as (m & Hm & ->). destruct (ip ++ fp) as [|c cs] eqn:Hds; [done|].
    destruct (take_exponent 112 x) as [e x'] eqn:He. injection Hx as <- ->. apply take_exponent_lemma in He.
    rewrite <-Hds. apply number_hex; [done..|by rewrite Hds|done].
  - unfold strtod_decimal in Hn. destruct (take_mantissa is_digit r) as [[ip fp] x] eqn:Hm.
    apply take_mantissa_sound in Hm as (m & Hm & ->). destruct (ip ++ fp) as [|c cs] eqn:Hds; [done|].
    destruct (take_exponent 101 x) as [e x'] eqn:He. injection Hn as <- ->. apply take_exponent_lemma in He.
    rewrite <-Hds. apply number_decimal; [done|by rewrite Hds|done].
Qed.

(** A text that does not begin as a keyword. *)
Lemma no_word c w b s : to_lower b ≠ c → take_word (c :: w) (b :: s) = None.
Proof. intros Hb. cbn. by rewrite (proj2 (Z.eqb_neq _ _) Hb). Qed.
Lemma word_hit w u r : word_text w u → take_word w (u ++ r) = Some r.
Proof. intros Hu. apply take_word_lemma. by exists u. Qed.

Lemma decimal_no_word neg b s : 46 <= to_lower b <= 57 → strtod_word neg (b :: s) = None.
Proof. intros Hb. unfold strtod_word. rewrite !no_word by lia. done. Qed.

Lemma strtod_number_complete neg r d : number_text neg r d → strtod_number neg r = Some (d, []).
Proof.
  unfold strtod_number. destruct 1 as [u Hu|m ip fp x e Hm Hne Hx|h m ip fp x e Hh Hm Hne Hx].
  - unfold strtod_word. destruct Hu as [Hu|Hu].
    + by rewrite <-(app_nil_r u), (word_hit _ _ _ Hu).
    + apply (fmap_app_inv to_lower u [105; 110; 102] [105; 110; 105; 116; 121]) in Hu as (u1 & u2 & Hu1 & Hu2 & ->).
      rewrite (word_hit [105; 110; 102] u1 u2) by done. by rewrite <-(app_nil_r u2), (word_hit _ _ _ (eq_sym Hu2)).
  - destruct (decimal_head m ip fp x e Hm Hne Hx) as (b & s & Hs & Hb & Hs2).
    assert (strtod_hex neg (m ++ x) = None) as Hhex.
    { unfold strtod_hex. rewrite Hs. cbn [take_word]. destruct (to_lower b =? 48); [|done].
      destruct s as [|b' s]; [done|]. by rewrite (proj2 (Z.eqb_neq _ _) Hs2). }
    rewrite Hhex, Hs, decimal_no_word, <-Hs by done. unfold strtod_decimal.
    rewrite (take_mantissa_complete is_digit m ip fp x point_not_digit Hm (exponent_after_digits _ _ Hx)).
    rewrite (proj2 (take_exponent_lemma _ _ _) Hx). by destruct (ip ++ fp).
  - assert (strtod_word neg (h ++ m ++ x) = None) as ->.
    { destruct h as [|b h]; [done|]. injection Hh as Hb _. apply decimal_no_word. lia. }
    unfold strtod_hex. rewrite (word_hit _ _ _ Hh).
    rewrite (take_mantissa_complete is_hex m ip fp x point_not_hex Hm (exponent_after_hex _ _ Hx)).
    rewrite (proj2 (take_exponent_lemma _ _ _) Hx). by destruct (ip ++ fp).
Qed.

(** A number begins neither with white space nor with a sign. *)
Lemma number_head neg r d : number_text neg r d → no_sign r ∧ stops_at is_space r.
Proof.
  assert (∀ b s, 46 <= to_lower b <= 57 ∨ to_lower b = 105 → no_sign (b :: s) ∧ stops_at is_space (b :: s)) as H
    by (intros b s; apply plain_head).
  destruct 1 as [u Hu|m ip fp x e Hm Hne Hx|h m ip fp x e Hh Hm Hne Hx].
  - destruct u as [|b u]; [by destruct Hu|]. apply H. right. by destruct Hu as [[= ? _]|[= ? _]].
  - destruct (decimal_head m ip fp x e Hm Hne Hx) as (b & s & -> & Hb & _). apply H. by left.
  - destruct h as [|b h]; [done|]. injection Hh as Hb _. apply H. left. lia.
Qed.

(** White space, a sign and a number, and nothing after them; a text without a
    number is not one, but the empty text is 0. *)
Inductive dbl_text : bytes → f64 → Prop :=
| dbl_empty : dbl_text [] 0
| dbl_number sp sg neg u d :
    all is_space sp → sign_of sg = Some neg → number_text neg u d → dbl_text (sp ++ sg ++ u) d.

Lemma strtod_split sp sg neg u d :
  all is_space sp → sign_of sg = Some neg → number_text neg u d → strtod (sp ++ sg ++ u) = (d, []).
Proof.
  intros Hsp Hsg Hu. destruct (number_head _ _ _ Hu) as [H1 H2]. destruct (take_sign_prefix sg neg u Hsg H1 H2) as [Ht Hst].
  apply strtod_number_complete in Hu. unfold strtod.
  assert (span is_space (sp ++ sg ++ u) = (sp, sg ++ u)) as -> by by apply span_lemma. rewrite Ht.
  unfold strtod_number in Hu. destruct (strtod_word neg u); [by injection Hu as ->|].
  destruct (strtod_hex neg u); [by injection Hu as ->|]. by rewrite Hu.
Qed.

Lemma str2dbl_lemma s d : str2dbl s = (true, d) ↔ dbl_text s d ∧ isnan d = false.
Proof.
  split.
  - unfold str2dbl. destruct (strtod s) as [d' rest] eqn:Hs. intros [= Hok ->].
    apply andb_true_iff in Hok as [->%bool_decide_eq_true Hd%negb_true_iff]. split; [|done].
    unfold strtod in Hs. destruct (span is_space s) as [sp r] eqn:Hsp. apply span_lemma in Hsp as (-> & Hsp & _).
    destruct (take_sign r) as [neg u] eqn:Hsg. apply take_sign_lemma in Hsg as (sg & Hsg & ->).
    pose proof (strtod_number_sound neg u d) as H. unfold strtod_number in H.
    destruct (strtod_word neg u) as [res|]; [subst res; apply dbl_number with neg; auto|].
    destruct (strtod_hex neg u) as [res|]; [subst res; apply dbl_number with neg; auto|].
    destruct (strtod_decimal neg u) as [res|]; [subst res; apply dbl_number with neg; auto|].
    injection Hs as <- ->. constructor.
  - intros [Hs Hd]. unfold str2dbl. destruct Hs as [|sp sg neg u d Hsp Hsg Hu]; [done|].
    rewrite (strtod_split sp sg neg u d Hsp Hsg Hu). by rewrite Hd.
Qed.

(** * Properties *)

(** C36: str2int accepts exactly the decimal integers, with white space before
    them and an optional sign, and the empty string; the value is the one
    written, and saturates at the ends of int64_t when it does not fit. *)
Theorem str2int_exact s z : str2int s = (true, z) ↔ int_text s z.
Proof. apply str2int_lemma. Qed.

(** C37: str2dbl accepts exactly the decimal and hexadecimal numbers and the
    infinities, in either case, with white space before them and an
    optional sign, and the empty string, which is 0; never a NaN. The value is the
    mantissa, scaled by the exponent and the digits after the point, rounded. *)
Theorem str2dbl_exact s d : str2dbl s = (true, d) ↔ dbl_text s d ∧ isnan d = false.
Proof. apply str2dbl_lemma. Qed.
