(* ===== verification/NetIO.v ===== *)
(** The per-connection state machine of net/netio.{h,cpp}: request framing,
    response framing and the readiness flags.  What the kernel answers to
    [read] and [write] is an input of the handlers, EPIPE (with which comes a signal
    that ends the process) included; the requests are run by a
    [Handler], which storage/commands implements.  [close], the tables of
    connections and the idle list are in Server.v. *)
From Stdlib Require Import Strings.String.
From S2P Require Import Prelude Bytes Serialize Protocol.

Open Scope list_scope.

(** The bytes of a string literal. *)
Definition str (s : string) : bytes := list_byte_of_string s.

(** The interface to the commands: [run_request(cmd, out)] on the state [T]
    of the store; the only law the connections need is that a request appends
    its response. *)
Class Handler (T : Type) := run : list bytes → bytes → M T bytes.
Class HandlerAppends (T : Type) `{!Handler T} : Prop :=
  run_appends : ∀ cmd out σ,
    match run cmd [] σ with
    | Done (d, σ') => run cmd out σ = Done (out ++ d, σ')
    | AssertFail => run cmd out σ = AssertFail
    | Undefined => run cmd out σ = Undefined
    | OutOfFuel => run cmd out σ = OutOfFuel
    end.

(** [struct Connection], and the bytes that the kernel has taken from it: [written]
    belongs to the socket and is only added to, by [write]. *)
Record Connection := mkConnection {
  socket_fd : Z;
  want_read : bool;
  want_write : bool;
  want_close : bool;
  incoming : bytes;
  outgoing : bytes;
  last_activity_ms : Z;
  written : bytes;
}.

Definition set_incoming (b : bytes) (c : Connection) : Connection :=
  mkConnection (socket_fd c) (want_read c) (want_write c) (want_close c) b (outgoing c) (last_activity_ms c) (written c).
Definition set_outgoing (b : bytes) (c : Connection) : Connection :=
  mkConnection (socket_fd c) (want_read c) (want_write c) (want_close c) (incoming c) b (last_activity_ms c) (written c).
Definition set_want_close (c : Connection) : Connection :=
  mkConnection (socket_fd c) (want_read c) (want_write c) true (incoming c) (outgoing c) (last_activity_ms c) (written c).
Definition set_want (r w : bool) (c : Connection) : Connection :=
  mkConnection (socket_fd c) r w (want_close c) (incoming c) (outgoing c) (last_activity_ms c) (written c).
Definition set_last_activity (t : Z) (c : Connection) : Connection :=
  mkConnection (socket_fd c) (want_read c) (want_write c) (want_close c) (incoming c) (outgoing c) t (written c).
(** The kernel takes the bytes [b]. *)
Definition put_written (b : bytes) (c : Connection) : Connection :=
  mkConnection (socket_fd c) (want_read c) (want_write c) (want_close c) (incoming c) (outgoing c) (last_activity_ms c)
    (written c ++ b).

(** * Response framing *)
Definition response_begin (out : bytes) : bytes * Z :=
  let header := blen out in (append_buffer_u32 out 0, header).
Definition response_size (out : bytes) (header : Z) : Z := u64 (blen out - header - 4).
(** [out.resize(n)] to a smaller size. *)
Definition shrink (out : bytes) (n : Z) : bytes := take (Z.to_nat n) out.
(** [memcpy(&out[pos], src, src.size())] *)
Definition overwrite (out : bytes) (pos : Z) (src : bytes) : bytes :=
  take (Z.to_nat pos) out ++ src ++ drop (Z.to_nat pos + length src) out.

Definition response_end (out : bytes) (header : Z) : bytes :=
  let msg_size := response_size out header in
  let '(out, msg_size) :=
    if msg_size >? k_max_msg then
      let out := shrink out (header + 4) in
      let out := out_err out ERR_TOO_BIG (str "response is too big.") in
      (out, response_size out header)
    else (out, msg_size) in
  let len := u32 msg_size in
  overwrite out header (le_bytes 4 len).

(** * One connection *)

(** The answers of the kernel: [WrOk n] bytes written, or the bytes read (none
    is the end of the stream). [WrPipe] is EPIPE, with which the kernel sends
    SIGPIPE: the programs do not handle it. *)
Inductive write_result := WrOk (n : Z) | WrAgain | WrErr | WrPipe.
Inductive read_result := RdOk (buf : bytes) | RdAgain | RdErr.

Section handlers.
Context {T : Type} `{!Handler T}.

Definition handle_one_request (conn : Connection) : M T (bool * Connection) :=
  if blen (incoming conn) <? 4 then mret (false, conn)
  else
    let frame_len := le_Z (take 4 (incoming conn)) in
    if frame_len >? k_max_msg then mret (false, set_want_close conn)
    else if u32 (4 + frame_len) >? blen (incoming conn) then mret (false, conn)
    else
      let request := take (Z.to_nat frame_len) (drop 4 (incoming conn)) in
      match parse_request request [] with
      | (rv, cmd) =>
          if rv <? 0 then
            let '(out, header) := response_begin (outgoing conn) in
            let out := out_err out ERR_BAD_ARG (str "malformed request") in
            let out := response_end out header in
            mret (true, set_incoming (consume_buffer (incoming conn) (u32 (4 + frame_len)))
                          (set_outgoing out conn))
          else
            let '(out, header) := response_begin (outgoing conn) in
            out ← run cmd out;
            let out := response_end out header in
            mret (true, set_incoming (consume_buffer (incoming conn) (u32 (4 + frame_len)))
                          (set_outgoing out conn))
      end.

Definition handle_write (rv : write_result) (conn : Connection) : M T Connection :=
  assert_ (negb (blen (outgoing conn) =? 0));;
  match rv with
  | WrPipe => killed
  | WrAgain => mret conn
  | WrErr => mret (set_want_close conn)
  | WrOk n =>
      let conn := put_written (take (Z.to_nat n) (outgoing conn)) conn in
      let conn := set_outgoing (consume_buffer (outgoing conn) n) conn in
      mret (if blen (outgoing conn) =? 0 then set_want true false conn else conn)
  end.

(** [while (handle_one_request(conn)) {}] *)
Fixpoint handle_requests (fuel : nat) (conn : Connection) : M T Connection :=
  '(more, conn) ← handle_one_request conn;
  if more : bool then
    match fuel with
    | O => out_of_fuel
    | S fuel => handle_requests fuel conn
    end
  else mret conn.

(** A handled request takes at least its header from the buffer. *)
Definition requests_fuel (conn : Connection) : nat := length (incoming conn).

Definition handle_read (rd : read_result) (wr : write_result) (conn : Connection)
    : M T Connection :=
  match rd with
  | RdAgain => mret conn
  | RdErr => mret (set_want_close conn)
  | RdOk [] => mret (set_want_close conn)
  | RdOk buf =>
      let conn := set_incoming (append_buffer (incoming conn) buf) conn in
      conn ← handle_requests (requests_fuel conn) conn;
      if negb (blen (outgoing conn) =? 0) then
        handle_write wr (set_want false true conn)
      else mret conn
  end.

(** The part of the event loop (server.cpp) that serves one ready socket;
    the result says whether the connection is to be destroyed. *)
Definition serve_ready (pollin pollout pollerr : bool) (now : Z)
    (rd : read_result) (wr wr' : write_result) (conn : Connection) : M T (bool * Connection) :=
  let conn := set_last_activity now conn in
  conn ← (if pollin && want_read conn then handle_read rd wr conn else mret conn);
  conn ← (if pollout && want_write conn then handle_write wr' conn else mret conn);
  mret (pollerr || want_close conn, conn).
End handlers.

(** * Client-side helpers *)

(** A blocking socket: the segments that arrive before the end of the stream
    or an error; [read] returns at most one of them, at most [n] bytes. *)
Definition sys_read (n : Z) : M (list bytes) bytes := λ s,
  match s with
  | [] => Done ([], [])
  | c :: s =>
      Done (take (Z.to_nat n) c,
            if blen c <=? n then s else drop (Z.to_nat n) c :: s)
  end.

(** The return code, and what is in [buf] after it. *)
Fixpoint read_all_loop (fuel : nat) (n : Z) (buf : bytes) : M (list bytes) (Z * bytes) :=
  if n >? 0 then
    match fuel with
    | O => out_of_fuel
    | S fuel =>
        bs ← sys_read n;
        if blen bs <=? 0 then mret (-1, buf)
        else
          assert_ (blen bs <=? n);;
          read_all_loop fuel (u64 (n - blen bs)) (buf ++ bs)
    end
  else mret (0, buf).
Definition read_all (n : Z) : M (list bytes) (Z * bytes) := read_all_loop (Z.to_nat n) n [].

(** What [write] answers at each call: how many bytes it accepts, or minus the
    number of an error; and what it was given so far. *)
Record wsocket := mkWsocket { accepts : list Z; sent : bytes }.
Definition EPIPE : Z := 32.
Definition sys_write (data : bytes) : M wsocket Z := λ s,
  match accepts s with
  | [] => Done (-1, s)
  | n :: ns =>
      if n =? - EPIPE then killed s
      else if n <? 0 then Done (-1, mkWsocket ns (sent s))
      else
        let n := Z.min n (blen data) in
        Done (n, mkWsocket ns (sent s ++ take (Z.to_nat n) data))
  end.
Fixpoint write_all_loop (fuel : nat) (data : bytes) : M wsocket Z :=
  if blen data >? 0 then
    match fuel with
    | O => out_of_fuel
    | S fuel =>
        rv ← sys_write data;
        if rv <=? 0 then mret (-1)
        else
          assert_ (rv <=? blen data);;
          write_all_loop fuel (drop (Z.to_nat rv) data)
    end
  else mret 0.
Definition write_all (data : bytes) : M wsocket Z := write_all_loop (length data) data.
