(* ===== verification/NetIOProofs.v ===== *)
(** Correctness of the connections: the framing of requests and responses, the
    independence of the way the stream is cut into reads, and the readiness
    flags. *)
From Stdlib Require Import Strings.String.
From S2P Require Import Prelude Bytes Serialize Protocol NetIO.

Open Scope list_scope.

(** * Frames *)
Definition frame (payload : bytes) : bytes := le_bytes 4 (blen payload) ++ payload.

(** What the head of a stream is: a prefix of a frame, a header above the
    bound, or a payload and the rest. *)
Inductive frame_view :=
| FMore
| FBad
| FRequest (request rest : bytes).

Definition next_frame (data : bytes) : frame_view :=
  if blen data <? 4 then FMore
  else
    let n := le_Z (take 4 data) in
    if n >? k_max_msg then FBad
    else if 4 + n >? blen data then FMore
    else FRequest (take (Z.to_nat n) (drop 4 data)) (drop (Z.to_nat (4 + n)) data).

Lemma next_frame_request data req rest :
  next_frame data = FRequest req rest ↔ data = frame req ++ rest ∧ blen req <= k_max_msg.
Proof.
  unfold next_frame, frame. split.
  - destruct (Z.ltb_spec (blen data) 4); [done|].
    pose proof (read_header_spec data (le_Z (take 4 data)) (drop 4 data)) as [Hh _].
    destruct Hh as [Hd Hn]; [unfold read_header; by rewrite (proj2 (Z.ltb_ge _ _))|].
    remember (le_Z (take 4 data)) as n eqn:Hne. clear Hne.
    destruct (Z.gtb_spec n k_max_msg); [done|]. destruct (Z.gtb_spec (4 + n) (blen data)); [done|].
    intros [= <- <-]. rewrite Z2Nat.inj_add, <-drop_drop by lia.
    change (Z.to_nat 4) with 4%nat. set (d := drop 4 data) in *.
    assert (blen (take (Z.to_nat n) d) = n) as ->.
    { unfold blen, d in *. rewrite length_take, length_drop. lia. }
    rewrite <-app_assoc, take_drop. done.
  - intros [-> Hle]. pose proof (blen_nonneg req). pose proof (blen_nonneg rest).
    rewrite !blen_app, blen_le_bytes. rewrite (proj2 (Z.ltb_ge _ _)) by lia.
    rewrite <-app_assoc. rewrite take_app_length', drop_app_length' by by rewrite length_le_bytes.
    rewrite le_Z_bytes, Z.mod_small by (unfold k_max_msg in Hle; change (Z.shiftl 32 20) with 33554432 in Hle; lia).
    destruct (Z.gtb_spec (blen req) k_max_msg); [lia|].
    destruct (Z.gtb_spec (4 + blen req) (Z.of_nat 4 + blen req + blen rest)); [lia|].
    f_equal; [by rewrite take_blen|]. rewrite app_assoc. apply drop_app_length'.
    rewrite length_app, length_le_bytes. unfold blen. lia.
Qed.

Lemma next_frame_bad data more : next_frame data = FBad → next_frame (data ++ more) = FBad.
Proof.
  unfold next_frame. rewrite blen_app. pose proof (blen_nonneg more).
  destruct (Z.ltb_spec (blen data) 4); [done|]. rewrite (proj2 (Z.ltb_ge _ _)) by lia.
  rewrite take_app_le by (unfold blen in *; lia).
  destruct (_ >? k_max_msg); [done|]. by destruct (_ >? _).
Qed.

Lemma frame_app data req rest more :
  next_frame data = FRequest req rest → next_frame (data ++ more) = FRequest req (rest ++ more).
Proof. rewrite !next_frame_request. intros [-> ?]. by rewrite app_assoc. Qed.

Lemma frame_length req rest : (length rest < length (frame req ++ rest))%nat.
Proof. unfold frame. rewrite !length_app, length_le_bytes. lia. Qed.

(** * Responses *)

(** The response frame the connection sends for the output [d] of a request. *)
Definition respond (d : bytes) : bytes := response_end (le_bytes 4 0 ++ d) 0.

Lemma overwrite_shift out x src : overwrite (out ++ x) (blen out) src = out ++ overwrite x 0 src.
Proof.
  unfold overwrite. rewrite take_blen. unfold blen. rewrite Nat2Z.id, <-drop_drop, drop_app_length.
  by rewrite app_nil_l.
Qed.

Lemma response_end_shift out d :
  response_end (out ++ le_bytes 4 0 ++ d) (blen out) = out ++ respond d.
Proof.
  unfold respond, response_end, response_size. rewrite !blen_app, !blen_le_bytes.
  replace (blen out + (Z.of_nat 4 + blen d) - blen out - 4) with (blen d) by lia.
  replace (Z.of_nat 4 + blen d - 0 - 4) with (blen d) by lia.
  destruct (u64 (blen d) >? k_max_msg); [|apply overwrite_shift].
  unfold shrink, out_err, append_buffer_u32, append_buffer_u8, append_buffer.
  rewrite app_assoc, !take_app_length' by (rewrite ?length_app, ?length_le_bytes; unfold blen; lia).
  rewrite <-!app_assoc, !blen_app.
  match goal with |- overwrite _ _ (le_bytes 4 (u32 (u64 ?a))) = _ ++ overwrite _ _ (le_bytes 4 (u32 (u64 ?b))) =>
    replace b with a by lia end.
  apply overwrite_shift.
Qed.

Lemma respond_spec d :
  blen d < 2 ^ 64 →
  respond d = frame (if blen d >? k_max_msg
                     then out_err [] ERR_TOO_BIG (str "response is too big.") else d).
Proof.
  intros Hd. pose proof (blen_nonneg d). unfold respond, response_end, response_size.
  rewrite blen_app, blen_le_bytes. replace (Z.of_nat 4 + blen d - 0 - 4) with (blen d) by lia.
  rewrite u64_id by lia. destruct (Z.gtb_spec (blen d) k_max_msg); [done|].
  unfold overwrite, frame, k_max_msg in *. change (Z.shiftl 32 20) with 33554432 in *.
  rewrite u32_id by lia. cbn [Z.to_nat take app Nat.add]. rewrite length_le_bytes.
  by rewrite drop_app_length' by by rewrite length_le_bytes.
Qed.

(** * Serving requests *)
Section serve.
Context {T : Type} `{!Handler T} `{!HandlerAppends T}.

(** The response to one request payload. *)
Definition answer (request : bytes) : M T bytes :=
  match parse_request request [] with
  | (rv, cmd) =>
      if rv <? 0 then mret (respond (out_err [] ERR_BAD_ARG (str "malformed request")))
      else d ← run cmd []; mret (respond d)
  end.

Lemma handle_one_request_spec conn σ :
  handle_one_request conn σ =
  match next_frame (incoming conn) with
  | FMore => Done ((false, conn), σ)
  | FBad => Done ((false, set_want_close conn), σ)
  | FRequest request rest =>
      (d ← answer request;
       mret (true, set_incoming rest (set_outgoing (outgoing conn ++ d) conn))) σ
  end.
Proof.
  unfold handle_one_request, next_frame, answer, response_begin, append_buffer_u32, append_buffer.
  destruct (blen (incoming conn) <? 4) eqn:H4; [done|]. apply Z.ltb_ge in H4.
  set (n := le_Z (take 4 (incoming conn))).
  assert (0 <= n) by apply le_Z_range.
  destruct (Z.gtb_spec n k_max_msg) as [|Hn]; [done|].
  unfold k_max_msg in Hn; change (Z.shiftl 32 20) with 33554432 in Hn.
  rewrite (u32_id (4 + n)) by lia. destruct (Z.gtb_spec (4 + n) (blen (incoming conn))); [done|].
  assert (consume_buffer (incoming conn) (4 + n) = drop (Z.to_nat (4 + n)) (incoming conn)) as ->.
  { unfold consume_buffer. by destruct (Z.gtb_spec (4 + n) (blen (incoming conn))); [lia|]. }
  destruct (parse_request _ _) as [rv cmd]. destruct (rv <? 0).
  - unfold mbind, M_bind, mret, M_ret. do 3 f_equal.
    unfold out_err at 1, append_buffer_u32, append_buffer_u8, append_buffer.
    rewrite <-!app_assoc. rewrite response_end_shift. done.
  - pose proof (run_appends cmd (outgoing conn ++ le_bytes 4 0) σ) as Hrun.
    unfold mbind, M_bind, mret, M_ret. destruct (run cmd [] σ) as [[d σ']| | |]; rewrite Hrun; [|done..].
    do 3 f_equal. rewrite <-!app_assoc. by rewrite response_end_shift.
Qed.

Definition requests (conn : Connection) : M T Connection :=
  handle_requests (requests_fuel conn) conn.

Lemma requests_fuel_enough n : ∀ conn σ f,
  (length (incoming conn) ≤ n)%nat → (length (incoming conn) ≤ f)%nat →
  handle_requests f conn σ = handle_requests n conn σ.
Proof.
  induction n as [|n IH]; intros conn σ f Hn Hf.
  - assert (incoming conn = []) as Hi by (by apply nil_length_inv; lia).
    destruct f; cbn [handle_requests]; unfold mbind, M_bind;
      rewrite handle_one_request_spec, Hi; done.
  - destruct f as [|f].
    { assert (incoming conn = []) as Hi by (by apply nil_length_inv; lia).
      cbn [handle_requests]; unfold mbind, M_bind; rewrite handle_one_request_spec, Hi; done. }
    cbn [handle_requests]; unfold mbind, M_bind. rewrite handle_one_request_spec.
    destruct (next_frame (incoming conn)) as [| |req rest] eqn:Hnf; [done..|].
    apply next_frame_request in Hnf as [Hi _]. pose proof (frame_length req rest) as Hl.
    rewrite <-Hi in Hl. unfold mbind, M_bind, mret, M_ret.
    destruct (answer req σ) as [[d σ']| | |]; [|done..]. apply IH; cbn [incoming set_incoming]; lia.
Qed.

(** The loop does what it says: one frame after the other. *)
Lemma requests_unfold conn σ :
  requests conn σ =
  match next_frame (incoming conn) with
  | FMore => Done (conn, σ)
  | FBad => Done (set_want_close conn, σ)
  | FRequest request rest =>
      (d ← answer request;
       requests (set_incoming rest (set_outgoing (outgoing conn ++ d) conn))) σ
  end.
Proof.
  unfold requests, requests_fuel. destruct (incoming conn) as [|b bs] eqn:Hi.
  { cbn [length handle_requests]; unfold mbind, M_bind; rewrite handle_one_request_spec, Hi; done. }
  rewrite <-Hi. destruct (length (incoming conn)) as [|n] eqn:Hn; [by rewrite Hi in Hn|].
  cbn [handle_requests]; unfold mbind, M_bind. rewrite handle_one_request_spec.
  destruct (next_frame (incoming conn)) as [| |req rest] eqn:Hnf; [done..|].
  apply next_frame_request in Hnf as [Hi' _]. pose proof (frame_length req rest) as Hl.
  rewrite <-Hi' in Hl. unfold mbind, M_bind, mret, M_ret.
  destruct (answer req σ) as [[d σ']| | |]; [|done..].
  apply requests_fuel_enough; cbn [incoming set_incoming]; lia.
Qed.

Lemma requests_append_lemma n : ∀ conn more σ,
  (length (incoming conn) ≤ n)%nat →
  requests (set_incoming (incoming conn ++ more) conn) σ =
  (c ← requests conn; requests (set_incoming (incoming c ++ more) c)) σ.
Proof.
  induction n as [|n IH]; intros conn more σ Hn; unfold mbind, M_bind;
    rewrite (requests_unfold conn), (requests_unfold (set_incoming _ conn));
    cbn [incoming set_incoming];
    destruct (next_frame (incoming conn)) as [| |req rest] eqn:Hnf;
    rewrite ?(frame_app _ _ _ more Hnf), ?(next_frame_bad _ more Hnf);
    [by rewrite requests_unfold
    |by rewrite requests_unfold; cbn [incoming set_incoming set_want_close];
       rewrite (next_frame_bad _ more Hnf)|..
    |by rewrite requests_unfold
    |by rewrite requests_unfold; cbn [incoming set_incoming set_want_close];
       rewrite (next_frame_bad _ more Hnf)|];
    apply next_frame_request in Hnf as [Hi _];
    pose proof (frame_length req rest) as Hl; rewrite <-Hi in Hl; [lia|].
  unfold mbind, M_bind. destruct (answer req σ) as [[d σ']| | |]; [|done..].
  apply (IH (set_incoming rest (set_outgoing (outgoing conn ++ d) conn)) more σ').
  cbn [incoming set_incoming]. lia.
Qed.

(** The responses to a list of requests, in order. *)
Fixpoint answers (reqs : list bytes) : M T bytes :=
  match reqs with
  | [] => mret []
  | req :: reqs => d ← answer req; ds ← answers reqs; mret (d ++ ds)
  end.

Lemma requests_pipeline_lemma reqs : ∀ conn σ,
  Forall (λ req, blen req <= k_max_msg) reqs → incoming conn = concat (frame <$> reqs) →
  requests conn σ =
  (ds ← answers reqs; mret (set_incoming [] (set_outgoing (outgoing conn ++ ds) conn))) σ.
Proof.
  induction reqs as [|req reqs IH]; intros conn σ Hall Hi; rewrite requests_unfold, Hi.
  { cbn [fmap list_fmap concat answers] in *. unfold mbind, M_bind, mret, M_ret.
    destruct conn as [????? o ?]. cbn in *. subst. by rewrite app_nil_r. }
  apply Forall_cons in Hall as [Hle Hall]. cbn [fmap list_fmap concat].
  rewrite (proj2 (next_frame_request _ req (concat (frame <$> reqs)))) by done.
  cbn [answers]. unfold mbind, M_bind. destruct (answer req σ) as [[d σ']| | |]; [|done..].
  rewrite IH by done. unfold mbind, M_bind, mret, M_ret.
  destruct (answers reqs σ') as [[ds σ'']| | |]; [|done..]. cbn. by rewrite app_assoc.
Qed.
End serve.

(** * The readiness flags *)

(** A connection wants to write when it has output, and to read otherwise. *)
Definition flags_ok (conn : Connection) : Prop :=
  want_write conn = negb (blen (outgoing conn) =? 0) ∧ want_read conn = negb (want_write conn).

#[export] Instance flags_ok_dec conn : Decision (flags_ok conn).
Proof. unfold flags_ok. apply _. Defined.

(** A connection as [handle_accept] creates it. *)
Definition new_connection (fd now : Z) : Connection := mkConnection fd true false false [] [] now [].

Section flags.
Context {T : Type} `{!Handler T} `{!HandlerAppends T}.

(** How a run can go wrong: only if running a request does, or if [E] holds and
    the process is ended. *)
Definition blames_run {A} (E : Prop) (o : outcome A) (P : A → Prop) : Prop :=
  match o with
  | Done a => P a
  | AssertFail => E ∨ ∃ cmd σ, run (T:=T) cmd [] σ = AssertFail
  | Undefined => ∃ cmd σ, run (T:=T) cmd [] σ = Undefined
  | OutOfFuel => ∃ cmd σ, run (T:=T) cmd [] σ = OutOfFuel
  end.

Lemma blames_bind {A B} (m : M T A) (f : A → M T B) E P Q σ :
  blames_run E (m σ) P → (∀ a σ', P (a, σ') → blames_run E (f a σ') Q) → blames_run E ((m ≫= f) σ) Q.
Proof. unfold mbind, M_bind. destruct (m σ) as [[a σ']| | |]; cbn [blames_run]; auto. Qed.

Lemma blames_mono {A} (E E' : Prop) (o : outcome A) P : (E → E') → blames_run E o P → blames_run E' o P.
Proof. unfold blames_run. destruct o; try done. naive_solver. Qed.

Lemma answer_blames E req σ : blames_run E (answer req σ) (λ _, True).
Proof.
  unfold answer. destruct (parse_request req []) as [rv cmd]. destruct (rv <? 0); [done|].
  unfold mbind, M_bind. destruct (run cmd [] σ) as [[]| | |] eqn:Hr; cbn [blames_run]; [done|eauto..].
Qed.

(** The requests of a buffer only add output; the flags change at most by a
    wish to close. *)
Definition requests_effect (c c' : Connection) : Prop :=
  want_read c' = want_read c ∧ want_write c' = want_write c ∧
  ∃ d, outgoing c' = outgoing c ++ d.

Lemma requests_blames E n : ∀ conn σ,
  (length (incoming conn) ≤ n)%nat →
  blames_run E (requests conn σ) (λ r : Connection * T, requests_effect conn r.1).
Proof.
  assert (∀ c, requests_effect c c) as Hrefl.
  { intros c. split_and!; [done..|]. exists []. by rewrite app_nil_r. }
  induction n as [|n IH]; intros conn σ Hn; rewrite requests_unfold;
    destruct (next_frame (incoming conn)) as [| |req rest] eqn:Hnf;
    [apply Hrefl|split_and!; [done..|]; exists []; by rewrite app_nil_r| |
     apply Hrefl|split_and!; [done..|]; exists []; by rewrite app_nil_r|];
    apply next_frame_request in Hnf as [Hi _]; pose proof (frame_length req rest) as Hl;
    rewrite <-Hi in Hl; [lia|].
  eapply blames_bind; [apply answer_blames|]. intros d σ' _.
  pose proof (IH (set_incoming rest (set_outgoing (outgoing conn ++ d) conn)) σ') as H.
  cbn [incoming set_incoming] in H. specialize (H ltac:(lia)).
  destruct (requests _ σ') as [[c ?]| | |]; cbn [blames_run fst] in *; try done.
  destruct H as (H1 & H2 & d' & H3). split_and!; [done..|]. exists (d ++ d'). rewrite H3. cbn. by rewrite app_assoc.
Qed.

Lemma handle_write_flags conn rv σ :
  flags_ok conn → want_write conn = true →
  blames_run (rv = WrPipe) (handle_write rv conn σ) (λ r : Connection * T, flags_ok r.1).
Proof.
  intros Hok Hww. pose proof Hok as [Hw Hr]. unfold handle_write. rewrite Hww in Hw. rewrite <-Hw.
  unfold assert_, mbind, M_bind. destruct rv as [n| | |]; [|exact Hok..|by left].
  unfold mret, M_ret. cbn [blames_run fst].
  destruct (blen (outgoing (set_outgoing _ _)) =? 0) eqn:He; unfold flags_ok, set_want; cbn in *.
  - by rewrite He.
  - by rewrite He, Hww, Hr, Hww.
Qed.

Lemma handle_read_flags conn rd wr σ :
  flags_ok conn → want_read conn = true →
  blames_run (wr = WrPipe) (handle_read rd wr conn σ) (λ r : Connection * T, flags_ok r.1).
Proof.
  intros [Hw Hr] Hwr. destruct rd as [[|b bs]| |]; [done| |done..].
  unfold handle_read. set (c0 := set_incoming _ conn).
  eapply (blames_bind _ _ _ (λ r : Connection * T, requests_effect c0 r.1)); [by eapply requests_blames|].
  intros c σ' (Hr' & Hw' & d & Ho). cbn [fst] in *.
  destruct (blen (outgoing c) =? 0) eqn:He; cbn [negb].
  - cbn. unfold flags_ok. rewrite He, Hw', Hr'. subst c0. cbn. rewrite Hw, Hr, Hw.
    rewrite Hwr in Hr. rewrite Hw in Hr. by destruct (_ =? 0).
  - apply handle_write_flags; [|done]. unfold flags_ok, set_want; cbn. by rewrite He.
Qed.

Lemma serve_ready_lemma pin pout perr now rd wr wr' conn σ :
  flags_ok conn →
  blames_run (WrPipe ∈ [wr; wr']) (serve_ready pin pout perr now rd wr wr' conn σ) (λ r : bool * Connection * T, flags_ok r.1.2).
Proof.
  intros Hok. unfold serve_ready. assert (flags_ok (set_last_activity now conn)) as Hok' by done.
  eapply (blames_bind _ _ _ (λ r : Connection * T, flags_ok r.1)).
  { destruct (pin && _) eqn:Hp; [|done]. apply andb_true_iff in Hp as [_ Hp].
    eapply blames_mono; [|by apply handle_read_flags]. intros ->. by left. }
  intros c σ1 Hc. eapply (blames_bind _ _ _ (λ r : Connection * T, flags_ok r.1)).
  { destruct (pout && _) eqn:Hp; [|done]. apply andb_true_iff in Hp as [_ Hp].
    eapply blames_mono; [|by apply handle_write_flags]. intros ->. right. by left. }
  intros c' σ2 Hc'. done.
Qed.
End flags.

(** * The blocking helpers of the client *)

(** A stream without an early end. *)
Definition live (s : list bytes) : Prop := Forall (λ c, c ≠ []) s.

Lemma sys_read_spec n s :
  0 < n → live s → s ≠ [] →
  ∃ bs s', sys_read n s = Done (bs, s') ∧ bs ≠ [] ∧ blen bs <= n ∧ live s' ∧ concat s = bs ++ concat s'.
Proof.
  intros Hn Hs Hne. destruct s as [|c s]; [done|]. apply Forall_cons in Hs as [Hc Hs].
  unfold sys_read. eexists _, _. split; [done|].
  assert (0 < blen c) by (unfold blen; destruct c; [done|cbn; lia]).
  split_and!.
  - intros Hnil%(f_equal length). rewrite length_take in Hnil. unfold blen in *. cbn in Hnil. lia.
  - unfold blen. rewrite length_take. lia.
  - destruct (Z.leb_spec (blen c) n); [done|]. constructor; [|done].
    intros Hnil%(f_equal length). rewrite length_drop in Hnil. unfold blen in *. cbn in Hnil. lia.
  - destruct (Z.leb_spec (blen c) n); cbn [concat].
    + rewrite take_ge; [done|]. unfold blen in *. lia.
    + by rewrite app_assoc, take_drop.
Qed.

Lemma read_all_loop_spec fuel : ∀ n buf s,
  (Z.to_nat n ≤ fuel)%nat → 0 <= n < 2 ^ 64 → live s →
  ∃ r s', read_all_loop fuel n buf s = Done (r, s') ∧
    if n <=? blen (concat s)
    then r = (0, buf ++ take (Z.to_nat n) (concat s)) ∧ concat s' = drop (Z.to_nat n) (concat s) ∧ live s'
    else r = (-1, buf ++ concat s).
Proof.
  induction fuel as [|fuel IH]; intros n buf s Hf Hn Hs.
  { assert (n = 0) as -> by lia. eexists _, s. split; [done|]. pose proof (blen_nonneg (concat s)).
    rewrite (proj2 (Z.leb_le _ _)) by lia. by rewrite app_nil_r. }
  cbn [read_all_loop]. destruct (Z.gtb_spec n 0) as [Hn0|].
  2: { assert (n = 0) as -> by lia. eexists _, s. split; [done|]. pose proof (blen_nonneg (concat s)).
       rewrite (proj2 (Z.leb_le _ _)) by lia. by rewrite app_nil_r. }
  destruct (decide (s = [])) as [->|Hne].
  { eexists _, []. split; [done|]. cbn [concat]. change (blen (@nil byte)) with 0.
    rewrite (proj2 (Z.leb_gt _ _)) by lia. by rewrite app_nil_r. }
  destruct (sys_read_spec n s Hn0 Hs Hne) as (bs & s1 & Hr & Hbs & Hle & Hs1 & Hcat).
  assert (0 < blen bs) by (unfold blen; destruct bs; [done|cbn; lia]).
  rewrite (bind_done _ _ _ _ _ Hr). rewrite (proj2 (Z.leb_gt _ _)) by lia.
  rewrite (bind_done _ _ _ () s1) by (unfold assert_; by rewrite (proj2 (Z.leb_le _ _))).
  rewrite u64_id by lia. destruct (IH (n - blen bs) (buf ++ bs) s1) as (r & s' & Hrun & Hres);
    [unfold blen in *; lia|lia|done|].
  exists r, s'. split; [done|]. rewrite Hcat, blen_app.
  destruct (Z.leb_spec (n - blen bs) (blen (concat s1))).
  - rewrite (proj2 (Z.leb_le _ _)) by lia. destruct Hres as (-> & Hs' & Hl').
    rewrite take_app_ge, drop_app_ge by (unfold blen in *; lia). rewrite <-app_assoc, Hs'.
    unfold blen. split_and!; [do 2 f_equal; try do 2 f_equal; lia|f_equal; lia|done].
  - rewrite (proj2 (Z.leb_gt _ _)) by lia. by rewrite Hres, <-app_assoc.
Qed.

Lemma write_all_loop_spec fuel : ∀ data s,
  (length data ≤ fuel)%nat →
  (write_all_loop fuel data s = AssertFail ∧ - EPIPE ∈ accepts s) ∨
  ∃ rc s', write_all_loop fuel data s = Done (rc, s') ∧
    (rc = 0 ∧ sent s' = sent s ++ data ∨ rc = -1 ∧ ∃ k, sent s' = sent s ++ take k data).
Proof.
  induction fuel as [|fuel IH]; intros data s Hf.
  { destruct data; [|cbn in Hf; lia]. right. eexists _, s. split; [done|]. left. by rewrite app_nil_r. }
  cbn [write_all_loop]. destruct (Z.gtb_spec (blen data) 0) as [Hd|Hd].
  2: { destruct data; [|unfold blen in Hd; cbn in Hd; lia]. right. eexists _, s. split; [done|]. left.
       by rewrite app_nil_r. }
  destruct s as [[|n ns] snt].
  { right. eexists _, _. split; [done|]. right. split; [done|]. exists 0%nat. by rewrite app_nil_r. }
  cbn [accepts sent]. unfold sys_write, mbind, M_bind. cbn [accepts sent].
  destruct (Z.eqb_spec n (- EPIPE)) as [->|Hp]; [left; split; [done|by left]|].
  destruct (Z.ltb_spec n 0) as [Hn|Hn].
  { right. eexists _, _. split; [done|]. right. split; [done|]. exists 0%nat. by rewrite app_nil_r. }
  set (m := Z.min n (blen data)). destruct (Z.leb_spec m 0).
  { right. eexists _, _. split; [done|]. right. split; [done|]. by exists (Z.to_nat m). }
  unfold assert_. rewrite (proj2 (Z.leb_le m (blen data))) by lia.
  destruct (IH (drop (Z.to_nat m) data) (mkWsocket ns (snt ++ take (Z.to_nat m) data)))
    as [[Hrun Hin]|(rc & s' & Hrun & Hres)]; [rewrite length_drop; lia|left; split; [done|by right]|].
  right. exists rc, s'. split; [done|]. cbn [sent] in Hres. destruct Hres as [[-> Hs]|(-> & k & Hs)].
  - left. split; [done|]. by rewrite Hs, <-app_assoc, take_drop.
  - right. split; [done|]. exists (Z.to_nat m + k)%nat. by rewrite Hs, <-app_assoc, take_take_drop.
Qed.
