(* ===== verification/Client.v ===== *)
(** The client of client.cpp: framing of a request, and the reader of
    responses, where a read outside of the buffer is undefined.  What is printed is
    a log of the [printf] and [msg] calls; the socket is that of NetIO.v.  The
    prompt is in Repl.v. *)
From S2P Require Import Prelude Bytes Serialize Protocol NetIO.

Fixpoint send_args (payload : bytes) (cmd : list bytes) : bytes :=
  match cmd with
  | [] => payload
  | arg :: cmd =>
      let arg_len := u32 (blen arg) in
      let payload := append_buffer payload (le_bytes 4 arg_len) in
      let payload :=
        if negb (arg_len =? 0) then append_buffer payload (take (Z.to_nat arg_len) arg)
        else payload in
      send_args payload cmd
  end.

Definition send_request (cmd : list bytes) : M wsocket Z :=
  let num_args := u32 (blen cmd) in
  let payload := send_args (append_buffer [] (le_bytes 4 num_args)) cmd in
  let payload_len := u32 (blen payload) in
  if payload_len >? k_max_msg then mret (-1)
  else write_all (append_buffer (append_buffer [] (le_bytes 4 payload_len)) payload).

(** What is printed, call by call. *)
Inductive printed :=
| PNil
| PErr (code : Z) (msg : bytes)
| PStr (s : bytes)
| PInt (value : Z)
| PDbl (value : Z)
| PBool (value : bool)
| PArrLen (len : Z)
| PArrEnd
| PMapEnd
| PMsg
| PPrompt.
Abbreviation CM := (M (list printed)).

Definition print (p : printed) : CM () := λ log, Done ((), log ++ [p]).
Definition bad_response : CM Z := print PMsg;; mret (-1).

Definition is_nul (b : byte) : bool := bool_decide (b = Byte.x00).
(** The bytes of a C string up to its terminator. *)
Fixpoint until_nul (s : bytes) : bytes :=
  match s with
  | [] => []
  | b :: s => if is_nul b then [] else b :: until_nul s
  end.
(** What [printf] shows for a string with a precision: at most [prec] bytes, and
    none after a terminator; a negative precision counts as absent. [s] is the
    buffer from the string to its end: without a terminator in it, and with no
    precision or one that is larger, it is read past the end. *)
Definition precision_s (prec : Z) (s : bytes) : CM bytes :=
  if existsb is_nul s || ((0 <=? prec) && (prec <=? blen s)) then
    mret (until_nul (if prec <? 0 then s else take (Z.to_nat prec) s))
  else undefined.

Definition slice (data : bytes) (pos n : nat) : bytes := take n (drop pos data).
(** [data[pos]], and [memcpy(&x, &data[pos], n)]: the bytes have to be in the
    buffer. *)
Definition read_n (data : bytes) (pos n : nat) : CM Z :=
  if blen data <? Z.of_nat (pos + n) then undefined else mret (le_Z (slice data pos n)).

(** [for (uint32_t i = 0; i < len; i++)] over the elements of a container, [n]
    bytes of which are read; [None] is the [return -1] of its body. The pointer
    [&data[n]] has to be in the buffer or at its end. *)
Fixpoint print_elems (pr : bytes → CM Z) (todo : nat) (i len : Z) (data : bytes) (n : Z)
    : CM (option Z) :=
  if i <? len then
    match todo with
    | O => out_of_fuel
    | S todo =>
        if n >? blen data then undefined else
        rv ← pr (drop (Z.to_nat n) data);
        if rv <=? 0 then print PMsg;; mret None
        else print_elems pr todo (u32 (i + 1)) len data (u64 (n + rv))
    end
  else mret (Some n).

(** [data] is the [size] bytes at the pointer; a nested value is the bytes from
    its position. *)
Fixpoint print_response_loop (fuel : nat) (data : bytes) : CM Z :=
  let size := blen data in
  if size <? 1 then bad_response
  else
    tag ← read_n data 0 1;
    if tag =? TAG_NIL then print PNil;; mret 1
    else if tag =? TAG_ERR then
      if size <? 1 + 8 then bad_response
      else
        code ← read_n data 1 4;
        len ← read_n data (1 + 4) 4;
        if size <? u32 (1 + 8 + len) then bad_response
        else
          s ← precision_s (i32 len) (drop (1 + 8) data);
          print (PErr (i32 code) s);;
          mret (i32 (u32 (1 + 8 + len)))
    else if tag =? TAG_STR then
      if size <? 1 + 4 then bad_response
      else
        len ← read_n data 1 4;
        if size <? u32 (1 + 4 + len) then bad_response
        else
          s ← precision_s (i32 len) (drop (1 + 4) data);
          print (PStr s);;
          mret (i32 (u32 (1 + 4 + len)))
    else if tag =? TAG_INT then
      if size <? 1 + 8 then bad_response
      else value ← read_n data 1 8; print (PInt (i64 value));; mret (1 + 8)
    else if tag =? TAG_DBL then
      if size <? 1 + 8 then bad_response
      else value ← read_n data 1 8; print (PDbl value);; mret (1 + 8)
    else if tag =? TAG_BOOL then
      if size <? 1 + 1 then bad_response
      else value ← read_n data 1 1; print (PBool (negb (value =? 0)));; mret (1 + 1)
    else if tag =? TAG_ARR then
      if size <? 1 + 4 then bad_response
      else
        len ← read_n data 1 4;
        print (PArrLen (i32 len));;
        match fuel with
        | O => out_of_fuel
        | S fuel =>
            r ← print_elems (print_response_loop fuel) (length data) 0 len data (1 + 4);
            match r with
            | None => mret (-1)
            | Some arr_bytes => print PArrEnd;; mret (i32 arr_bytes)
            end
        end
    else if tag =? TAG_MAP then
      if size <? 1 + 4 then bad_response
      else
        len ← read_n data 1 4;
        match fuel with
        | O => out_of_fuel
        | S fuel =>
            r ← print_elems (print_response_loop fuel) (length data) 0 len data (1 + 4);
            match r with
            | None => mret (-1)
            | Some map_bytes => print PMapEnd;; mret (i32 map_bytes)
            end
        end
    else bad_response.

(** A nested value is shorter than its container. *)
Definition print_response (data : bytes) : CM Z := print_response_loop (length data) data.

(** The client: its socket and what it printed. *)
Record client_state := mkClientState { cl_in : list bytes; cl_log : list printed }.
Definition in_socket {A} : M (list bytes) A → M client_state A :=
  zoom cl_in (λ i s, mkClientState i (cl_log s)).
Definition in_log {A} : CM A → M client_state A :=
  zoom cl_log (λ l s, mkClientState (cl_in s) l).

(** [&rbuf[4]] is past the end of the vector when the payload is empty. *)
Definition read_response : M client_state Z :=
  '(err, header) ← in_socket (read_all 4);
  if negb (err =? 0) then in_log (print PMsg);; mret err
  else
    let payload_len := le_Z header in
    if payload_len >? k_max_msg then in_log (print PMsg);; mret (-1)
    else
      '(err, payload) ← in_socket (read_all payload_len);
      if negb (err =? 0) then in_log (print PMsg);; mret err
      else
        if payload_len =? 0 then undefined else
        rv ← in_log (print_response payload);
        if (rv >? 0) && negb (u32 rv =? payload_len) then in_log (print PMsg);; mret (-1)
        else mret rv.
