(* ===== verification/ClientProofs.v ===== *)
(** The client against the server: a request frame carries its command, and
    the reader of responses consumes and shows exactly what the serializer
    wrote; on any other response it stays within its buffer, unless the length of
    a string wraps around. *)
From S2P Require Import Prelude Bytes Serialize Protocol NetIO NetIOProofs Client.

(** * Requests *)
Lemma send_args_spec cmd : ∀ payload,
  Forall (λ arg, blen arg < 2 ^ 32) cmd →
  send_args payload cmd = payload ++ concat (arg_bytes <$> cmd).
Proof.
  induction cmd as [|arg cmd IH]; intros payload Hall; rewrite ?fmap_cons; cbn [send_args concat].
  { by rewrite app_nil_r. }
  apply Forall_cons in Hall as [Harg Hall]. pose proof (blen_nonneg arg).
  rewrite IH, u32_id by done. unfold append_buffer, arg_bytes at 3.
  destruct (Z.eqb_spec (blen arg) 0) as [H0|H0]; cbn [negb].
  - assert (arg = []) as -> by (destruct arg; [done|unfold blen in H0; cbn in H0; lia]).
    by rewrite <-!app_assoc.
  - rewrite take_ge by (unfold blen; lia). by rewrite <-!app_assoc.
Qed.

Lemma send_request_lemma cmd s :
  wf_cmd cmd → blen (request_bytes cmd) <= k_max_msg →
  send_request cmd s = write_all (frame (request_bytes cmd)) s.
Proof.
  intros [Hn Hall] Hlen. unfold send_request. pose proof (blen_nonneg cmd).
  unfold k_max_args in Hn. rewrite (u32_id (blen cmd)) by lia.
  rewrite send_args_spec by done. unfold append_buffer at 1 2 4. rewrite !app_nil_l.
  change (le_bytes 4 (blen cmd) ++ concat (arg_bytes <$> cmd)) with (request_bytes cmd).
  pose proof (blen_nonneg (request_bytes cmd)). unfold k_max_msg in *.
  change (Z.shiftl 32 20) with 33554432 in *. rewrite u32_id by lia.
  destruct (Z.gtb_spec (blen (request_bytes cmd)) 33554432); [lia|done].
Qed.

(** * Responses *)
(** What the client prints for a value; a string is shown up to its first NUL
    byte. *)
Fixpoint render (v : wvalue) : list printed :=
  match v with
  | WNil => [PNil]
  | WErr code msg => [PErr code (until_nul msg)]
  | WStr s => [PStr (until_nul s)]
  | WInt z => [PInt z]
  | WDbl d => [PDbl (u64 d)]
  | WBool b => [PBool b]
  | WArr vs => PArrLen (blen vs) :: concat (map render vs) ++ [PArrEnd]
  | WMap vs => concat (map render vs) ++ [PMapEnd]
  end.

(** The values a client can receive: integers at their width. A double is sent
    as 64 bits, whatever it is. *)
Fixpoint wf_value (v : wvalue) : bool :=
  match v with
  | WNil | WStr _ | WDbl _ | WBool _ => true
  | WErr code _ => (- 2 ^ 31 <=? code) && (code <? 2 ^ 31)
  | WInt z => (- 2 ^ 63 <=? z) && (z <? 2 ^ 63)
  | WArr vs | WMap vs => forallb wf_value vs
  end.

Lemma slice_tag b bs : slice (b :: bs) 0 1 = [b].
Proof. done. Qed.
Lemma slice_after b n z bs : slice (b :: le_bytes n z ++ bs) 1 n = le_bytes n z.
Proof. unfold slice. cbn [drop]. apply take_app_length'. by rewrite length_le_bytes. Qed.
Lemma slice_after2 b z z' bs : slice (b :: le_bytes 4 z ++ le_bytes 4 z' ++ bs) (1 + 4) 4 = le_bytes 4 z'.
Proof.
  unfold slice. cbn [Nat.add]. rewrite skipn_cons.
  rewrite drop_app_length' by by rewrite length_le_bytes.
  apply take_app_length'. by rewrite length_le_bytes.
Qed.
Lemma le_tag z : 0 <= z < 256 → le_Z [Z_byte z] = z.
Proof. intros. cbn [le_Z]. rewrite byte_Z_byte, Z.mod_small; lia. Qed.

Lemma i32_wrap z : - 2 ^ 31 <= z < 2 ^ 31 → i32 (z `mod` 2 ^ 32) = z.
Proof.
  intros. unfold i32. rewrite Z.add_mod_idemp_l by lia. rewrite Z.mod_small; lia.
Qed.
Lemma i64_wrap z : - 2 ^ 63 <= z < 2 ^ 63 → i64 (z `mod` 2 ^ 64) = z.
Proof.
  intros. unfold i64. rewrite Z.add_mod_idemp_l by lia. rewrite Z.mod_small; lia.
Qed.

Lemma until_nul_take (s rest : bytes) n log :
  n = blen s → n < 2 ^ 31 → precision_s (i32 n) (s ++ rest) log = Done (until_nul s, log).
Proof.
  intros -> Hn. pose proof (blen_nonneg s). pose proof (blen_nonneg rest). unfold precision_s. rewrite i32_id by lia.
  rewrite (proj2 (Z.leb_le _ _)), (proj2 (Z.leb_le (blen s) _)) by (rewrite ?blen_app; lia). rewrite orb_true_r.
  rewrite (proj2 (Z.ltb_ge _ _)) by lia. by rewrite take_blen.
Qed.

Lemma read_n_done data pos n log :
  Z.of_nat (pos + n) <= blen data → read_n data pos n log = Done (le_Z (slice data pos n), log).
Proof. intros H. unfold read_n. by rewrite (proj2 (Z.ltb_ge _ _)). Qed.

Section elems.
Context (pr : bytes → CM Z).

Lemma print_elems_spec vs : ∀ todo i len pre rest log,
  Forall (λ v, ∀ rest log, pr (enc v ++ rest) log = Done (blen (enc v), log ++ render v)) vs →
  Forall (λ v, 0 < blen (enc v)) vs →
  (length vs ≤ todo)%nat → 0 <= i → i + blen vs = len → len < 2 ^ 32 →
  blen pre + blen (concat (enc <$> vs)) < 2 ^ 31 →
  print_elems pr todo i len (pre ++ concat (enc <$> vs) ++ rest) (blen pre) log =
  Done (Some (blen pre + blen (concat (enc <$> vs))), log ++ concat (map render vs)).
Proof.
  induction vs as [|v vs IH]; intros todo i len pre rest log Hpr Hpos Htodo Hi Hlen Hl32 Hsz.
  { change (blen (@nil wvalue)) with 0 in Hlen. cbn [map concat].
    assert (print_elems pr todo i len (pre ++ concat (enc <$> []) ++ rest) (blen pre) =
            mret (Some (blen pre))) as ->.
    { destruct todo; cbn [print_elems]; by rewrite (proj2 (Z.ltb_ge _ _)) by lia. }
    cbn. by rewrite Z.add_0_r, app_nil_r. }
  apply Forall_cons in Hpr as [Hv Hpr], Hpos as [Hvpos Hpos].
  destruct todo as [|todo]; [cbn in Htodo; lia|].
  assert (blen (v :: vs) = 1 + blen vs) as Hvs by (unfold blen; cbn [length]; lia).
  pose proof (blen_nonneg vs).
  rewrite fmap_cons in *. cbn [concat map] in *.
  rewrite blen_app in *.
  pose proof (blen_nonneg (concat (enc <$> vs))). pose proof (blen_nonneg pre).
  cbn [print_elems]. rewrite (proj2 (Z.ltb_lt _ _)) by lia.
  rewrite Z.gtb_ltb, (proj2 (Z.ltb_ge (blen (pre ++ _)) _)) by (rewrite blen_app; pose proof (blen_nonneg ((enc v ++ concat (enc <$> vs)) ++ rest)); lia).
  rewrite drop_blen, <-app_assoc. rewrite (bind_done _ _ _ _ _ (Hv _ _)).
  rewrite (proj2 (Z.leb_gt _ _)) by lia.
  rewrite (u32_id (i + 1)), (u64_id (blen pre + blen (enc v))) by lia.
  rewrite (app_assoc pre), <-blen_app. rewrite IH; [|done|done|cbn in Htodo; lia|lia|lia|lia|rewrite blen_app; lia].
  rewrite blen_app, <-app_assoc. by rewrite Z.add_assoc.
Qed.
End elems.

Lemma enc_pos v : 0 < blen (enc v).
Proof.
  destruct v; rewrite ?out_value_arr, ?out_value_map, ?out_values_enc; cbn;
    unfold blen; rewrite ?length_app; cbn; lia.
Qed.

Lemma forall_size (vs : list wvalue) (P : wvalue → Prop) (n : Z) :
  Forall (λ v, blen (enc v) < n → P v) vs → blen (concat (enc <$> vs)) < n → Forall P vs.
Proof.
  induction 1 as [|v vs Hv _ IH]; rewrite ?fmap_cons, ?fmap_nil; cbn [concat]; [done|]. rewrite blen_app.
  pose proof (blen_nonneg (enc v)). pose proof (blen_nonneg (concat (enc <$> vs))).
  intros. constructor; [apply Hv; lia|apply IH; lia].
Qed.

Lemma vs_le_enc vs : blen vs <= blen (concat (enc <$> vs)).
Proof.
  induction vs as [|v vs IH]; [done|]. rewrite ?fmap_cons, ?fmap_nil; cbn [concat]. rewrite blen_app.
  pose proof (enc_pos v). unfold blen in *; cbn [length]; lia.
Qed.

Lemma enc_elem_size v vs : v ∈ vs → blen (enc v) <= blen (concat (enc <$> vs)).
Proof.
  induction 1 as [v vs|v w vs _ IH]; rewrite ?fmap_cons, ?fmap_nil; cbn [concat]; rewrite blen_app.
  - pose proof (blen_nonneg (concat (enc <$> vs))). lia.
  - pose proof (blen_nonneg (enc w)). lia.
Qed.

Lemma blen_cons {A} (x : A) l : blen (x :: l) = 1 + blen l.
Proof. unfold blen. cbn [length]. lia. Qed.

(** A read inside the buffer. *)
Ltac read_in :=
  erewrite bind_done by (apply read_n_done; rewrite ?blen_cons, ?blen_app, ?blen_le_bytes; lia).
(** The head of a value: its size is enough, and its tag is known. *)
Ltac read_tag :=
  rewrite (proj2 (Z.ltb_ge _ 1)) by lia; read_in;
  rewrite slice_tag, le_tag by done;
  unfold TAG_NIL, TAG_ERR, TAG_STR, TAG_INT, TAG_DBL, TAG_BOOL, TAG_ARR, TAG_MAP;
  cbn [Z.eqb Pos.eqb];
  repeat match goal with |- context [?a <? ?b] =>
    rewrite (proj2 (Z.ltb_ge a b)) by (rewrite ?Nat2Z.id; lia) end.

Lemma enc_nil : enc WNil = [Z_byte TAG_NIL].
Proof. done. Qed.
Lemma enc_err c m : enc (WErr c m) = Z_byte TAG_ERR :: le_bytes 4 c ++ le_bytes 4 (u32 (blen m)) ++ m.
Proof. done. Qed.
Lemma enc_str s : enc (WStr s) = Z_byte TAG_STR :: le_bytes 4 (u32 (blen s)) ++ s.
Proof. done. Qed.
Lemma enc_int z : enc (WInt z) = Z_byte TAG_INT :: le_bytes 8 z.
Proof. done. Qed.
Lemma enc_dbl d : enc (WDbl d) = Z_byte TAG_DBL :: le_bytes 8 d.
Proof. done. Qed.
Lemma enc_bool b : enc (WBool b) = Z_byte TAG_BOOL :: le_bytes 1 (if b then 1 else 0).
Proof. done. Qed.
Lemma enc_arr vs : enc (WArr vs) = Z_byte TAG_ARR :: le_bytes 4 (blen vs) ++ concat (enc <$> vs).
Proof. by rewrite out_value_arr, out_values_enc. Qed.
Lemma enc_map vs : enc (WMap vs) = Z_byte TAG_MAP :: le_bytes 4 (blen vs) ++ concat (enc <$> vs).
Proof. by rewrite out_value_map, out_values_enc. Qed.

Lemma print_app p log : print p log = Done ((), log ++ [p]).
Proof. done. Qed.

Lemma drop_head b n z bs : drop (1 + n) (b :: le_bytes n z ++ bs) = bs.
Proof. cbn [Nat.add]. rewrite skipn_cons. apply drop_app_length'. by rewrite length_le_bytes. Qed.
Lemma drop_head2 b z z' bs : drop (1 + 8) (b :: le_bytes 4 z ++ le_bytes 4 z' ++ bs) = bs.
Proof.
  cbn [Nat.add]. rewrite skipn_cons, app_assoc. apply drop_app_length'.
  by rewrite length_app, !length_le_bytes.
Qed.

Opaque le_bytes.

Lemma print_err fuel code msg rest log :
  - 2 ^ 31 <= code < 2 ^ 31 → blen (enc (WErr code msg)) < 2 ^ 31 →
  print_response_loop fuel (enc (WErr code msg) ++ rest) log =
  Done (blen (enc (WErr code msg)), log ++ render (WErr code msg)).
Proof.
  intros Hc Hsz. rewrite enc_err in *. rewrite blen_cons, !blen_app, !blen_le_bytes in *.
  pose proof (blen_nonneg msg). pose proof (blen_nonneg rest).
  destruct fuel; cbn [print_response_loop app]; rewrite <-!app_assoc;
    rewrite blen_cons, !blen_app, !blen_le_bytes; read_tag; do 2 read_in;
    rewrite slice_after, slice_after2, drop_head2, !le_Z_bytes;
    change (256 ^ Z.of_nat 4) with (2 ^ 32);
    rewrite i32_wrap, (u32_id (blen msg)), Z.mod_small, u32_id by lia;
    rewrite (proj2 (Z.ltb_ge _ _)) by lia;
    rewrite (bind_done _ _ _ _ _ (until_nul_take msg rest _ log eq_refl ltac:(lia)));
    rewrite (bind_done _ _ _ _ _ (print_app _ _)), i32_id by lia;
    unfold mret, M_ret; do 2 f_equal; lia.
Qed.

Lemma print_str fuel s rest log :
  blen (enc (WStr s)) < 2 ^ 31 →
  print_response_loop fuel (enc (WStr s) ++ rest) log =
  Done (blen (enc (WStr s)), log ++ render (WStr s)).
Proof.
  intros Hsz. rewrite enc_str in *. rewrite blen_cons, !blen_app, !blen_le_bytes in *.
  pose proof (blen_nonneg s). pose proof (blen_nonneg rest).
  destruct fuel; cbn [print_response_loop app]; rewrite <-!app_assoc;
    rewrite blen_cons, !blen_app, !blen_le_bytes; read_tag; read_in;
    rewrite slice_after, drop_head, !le_Z_bytes;
    change (256 ^ Z.of_nat 4) with (2 ^ 32);
    rewrite (u32_id (blen s)), Z.mod_small, u32_id by lia;
    rewrite (proj2 (Z.ltb_ge _ _)) by lia;
    rewrite (bind_done _ _ _ _ _ (until_nul_take s rest _ log eq_refl ltac:(lia)));
    rewrite (bind_done _ _ _ _ _ (print_app _ _)), i32_id by lia;
    unfold mret, M_ret; do 2 f_equal; lia.
Qed.

Lemma print_scalar fuel v rest log :
  match v with WNil | WInt _ | WDbl _ | WBool _ => True | _ => False end →
  wf_value v = true →
  print_response_loop fuel (enc v ++ rest) log = Done (blen (enc v), log ++ render v).
Proof.
  intros Hv Hwf. pose proof (blen_nonneg rest).
  destruct v as [| | |z|d|b| |]; try done; rewrite ?enc_nil, ?enc_int, ?enc_dbl, ?enc_bool; cbn [wf_value] in Hwf;
    destruct fuel; cbn [print_response_loop app];
    rewrite ?blen_cons, ?blen_app, ?blen_le_bytes; read_tag; try done; read_in;
    rewrite slice_after, ?le_Z_bytes;
    rewrite (bind_done _ _ _ _ _ (print_app _ _)); unfold mret, M_ret; cbn [render].
  1,2: change (256 ^ Z.of_nat 8) with (2 ^ 64); rewrite i64_wrap by lia; done.
  1,2: change (256 ^ Z.of_nat 8) with (2 ^ 64); done.
  all: by destruct b.
Qed.

Lemma print_container fuel vs rest log :
  Forall (λ v, ∀ rest log, print_response_loop fuel (enc v ++ rest) log = Done (blen (enc v), log ++ render v)) vs →
  ∀ tag, blen (tag :: le_bytes 4 (blen vs) ++ concat (enc <$> vs)) < 2 ^ 31 →
  print_elems (print_response_loop fuel)
    (length (tag :: le_bytes 4 (blen vs) ++ concat (enc <$> vs) ++ rest)) 0 (blen vs)
    (tag :: le_bytes 4 (blen vs) ++ concat (enc <$> vs) ++ rest) (1 + 4) log =
  Done (Some (blen (tag :: le_bytes 4 (blen vs) ++ concat (enc <$> vs))), log ++ concat (map render vs)).
Proof.
  intros Hvs tag Hsz. pose proof (vs_le_enc vs) as Hle.
  pose proof (print_elems_spec (print_response_loop fuel) vs
    (length (tag :: le_bytes 4 (blen vs) ++ concat (enc <$> vs) ++ rest)) 0 (blen vs)
    (tag :: le_bytes 4 (blen vs)) rest log Hvs) as H.
  rewrite blen_cons, blen_app, blen_le_bytes in *.
  cbn [app] in H. change (1 + Z.of_nat 4) with (1 + 4) in H.
  rewrite H; [do 3 f_equal; lia| | |lia|lia|lia|lia].
  - apply Forall_forall. intros v _. apply enc_pos.
  - cbn [length]. rewrite !length_app. unfold blen in Hle. lia.
Qed.

Lemma print_value_lemma v : ∀ fuel rest log,
  wf_value v = true → blen (enc v) < 2 ^ 31 → (length (enc v) ≤ fuel)%nat →
  print_response_loop fuel (enc v ++ rest) log = Done (blen (enc v), log ++ render v).
Proof.
  induction v as [|c m|s|z|d|b|vs IH|vs IH] using wvalue_deep_ind; intros fuel rest log Hwf Hsz Hfuel;
    [by apply print_scalar|cbn [wf_value] in Hwf; apply print_err; [lia|done]|by apply print_str|by apply print_scalar..| |].
  all: rewrite ?enc_arr, ?enc_map in *; destruct fuel as [|fuel]; [cbn [length] in Hfuel; lia|];
    assert (Forall (λ v, ∀ rest log,
      print_response_loop fuel (enc v ++ rest) log = Done (blen (enc v), log ++ render v)) vs) as Hvs
      by (apply Forall_forall; intros v Hv; rewrite Forall_forall in IH; intros; apply IH;
          [done
          |cbn [wf_value] in Hwf; rewrite forallb_forall in Hwf; by apply Hwf, list_elem_of_In
          |pose proof (enc_elem_size v vs Hv); rewrite blen_cons, blen_app, blen_le_bytes in Hsz; lia
          |pose proof (enc_elem_size v vs Hv); unfold blen in *; cbn [length] in Hfuel;
           rewrite length_app in Hfuel; lia]);
    pose proof (vs_le_enc vs) as Hle; pose proof (blen_nonneg vs); pose proof (blen_nonneg rest);
    pose proof Hsz as Hsz'; rewrite blen_cons, blen_app, blen_le_bytes in Hsz';
    cbn [print_response_loop app]; rewrite <-!app_assoc;
    rewrite (blen_cons _ (le_bytes 4 (blen vs) ++ concat (enc <$> vs) ++ rest)), !blen_app, blen_le_bytes;
    read_tag; read_in; rewrite slice_after, le_Z_bytes; change (256 ^ Z.of_nat 4) with (2 ^ 32);
    rewrite Z.mod_small by lia.
  - rewrite (bind_done _ _ _ _ _ (print_app _ _)), i32_id by lia.
    rewrite (bind_done _ _ _ _ _ (print_container fuel vs rest _ Hvs _ Hsz)).
    rewrite (bind_done _ _ _ _ _ (print_app _ _)), i32_id by (rewrite blen_cons, blen_app, blen_le_bytes; lia).
    unfold mret, M_ret. cbn [render]. by rewrite <-!app_assoc.
  - rewrite (bind_done _ _ _ _ _ (print_container fuel vs rest _ Hvs _ Hsz)).
    rewrite (bind_done _ _ _ _ _ (print_app _ _)), i32_id by (rewrite blen_cons, blen_app, blen_le_bytes; lia).
    unfold mret, M_ret. cbn [render]. by rewrite <-!app_assoc.
Qed.

(** ** Arbitrary responses *)

(** [v] starts with an error or a string of which the length field is so large
    that the size check wraps around, so that [printf] gets a negative precision,
    and no terminator follows in the buffer. *)
Definition wraps_at (v : bytes) : Prop :=
  (9 <= blen v ∧ le_Z (slice v 0 1) = TAG_ERR ∧ 2 ^ 32 - 9 <= le_Z (slice v (1 + 4) 4) ∧
   existsb is_nul (drop 9 v) = false) ∨
  (5 <= blen v ∧ le_Z (slice v 0 1) = TAG_STR ∧ 2 ^ 32 - 5 <= le_Z (slice v 1 4) ∧
   existsb is_nul (drop 5 v) = false).
Definition wraps (data : bytes) : Prop := ∃ pos, wraps_at (drop pos data).

Lemma wraps_drop k data : wraps (drop k data) → wraps data.
Proof. intros [pos H]. rewrite drop_drop in H. by eexists. Qed.
Lemma wraps_here data : wraps_at data → wraps data.
Proof. intros H. by exists 0%nat. Qed.

(** The reader ends, without a failed assertion, and never accepts more than
    the bytes it has; its behaviour is defined unless the data wraps around. *)
Definition bounded (data : bytes) (o : outcome (Z * list printed)) : Prop :=
  match o with Done (rv, _) => -1 <= rv <= blen data | Undefined => wraps data | _ => False end.

Lemma bounded_done data rv log : -1 <= rv <= blen data → bounded data (Done (rv, log)).
Proof. done. Qed.

Lemma slice_range data pos n : 0 <= le_Z (slice data pos n) < 256 ^ Z.of_nat n.
Proof.
  pose proof (le_Z_range (slice data pos n)).
  assert (256 ^ Z.of_nat (length (slice data pos n)) <= 256 ^ Z.of_nat n); [|lia].
  apply Z.pow_le_mono_r; [lia|]. unfold slice. rewrite length_take. lia.
Qed.

Lemma bounded_read data pos n (f : Z → CM Z) log :
  Z.of_nat (pos + n) <= blen data →
  bounded data (f (le_Z (slice data pos n)) log) → bounded data ((read_n data pos n ≫= f) log).
Proof. intros H Hf. by rewrite (bind_done _ _ _ _ _ (read_n_done _ _ _ _ H)). Qed.

(** A string at [k] that passed the size check: only a length that wraps around
    can make [printf] read too far. *)
Lemma bounded_precision data k len (f : bytes → CM Z) log :
  0 <= len < 2 ^ 32 → Z.of_nat k <= blen data < 2 ^ 31 → u32 (Z.of_nat k + len) <= blen data →
  (2 ^ 32 - Z.of_nat k <= len → existsb is_nul (drop k data) = false → wraps data) →
  (∀ s log, bounded data (f s log)) →
  bounded data ((precision_s (i32 len) (drop k data) ≫= f) log).
Proof.
  intros Hlen Hk Hsz Hw Hf. unfold precision_s, mbind, M_bind.
  destruct (existsb is_nul (drop k data)); [apply Hf|]. cbn [orb].
  destruct (Z.lt_ge_cases len (2 ^ 32 - Z.of_nat k)) as [Hl|Hl]; [|destruct (_ && _); [apply Hf|by apply Hw]].
  rewrite u32_id in Hsz by lia. rewrite i32_id by lia.
  assert (blen (drop k data) = blen data - Z.of_nat k) as ->.
  { unfold blen in *. rewrite length_drop. lia. }
  rewrite (proj2 (Z.leb_le 0 len)), (proj2 (Z.leb_le len _)) by lia. apply Hf.
Qed.

Lemma print_elems_bounded pr data : ∀ todo i len n log,
  (∀ k log, 5 <= Z.of_nat k → bounded (drop k data) (pr (drop k data) log)) →
  5 <= n <= blen data → blen data < 2 ^ 31 → blen data - n < Z.of_nat todo →
  match print_elems pr todo i len data n log with
  | Done (Some m, _) => 5 <= m <= blen data
  | Done (None, _) => True
  | Undefined => wraps data
  | _ => False
  end.
Proof.
  induction todo as [|todo IH]; intros i len n log Hpr Hn Hd Htodo; [lia|].
  cbn [print_elems]. destruct (i <? len); [|unfold mret, M_ret; lia].
  rewrite Z.gtb_ltb, (proj2 (Z.ltb_ge _ _)) by lia.
  pose proof (Hpr (Z.to_nat n) log ltac:(lia)) as Hb. unfold mbind, M_bind.
  destruct (pr _ log) as [[rv log']| | |]; cbn [bounded] in Hb; [|done|by eapply wraps_drop|done].
  assert (blen (drop (Z.to_nat n) data) = blen data - n) as Hdl.
  { unfold blen in *. rewrite length_drop. lia. }
  rewrite Hdl in Hb. destruct (Z.leb_spec rv 0); [done|].
  rewrite u64_id by lia. apply IH; [done|lia|done|lia].
Qed.

Lemma print_elems_result pr data len log (k : option Z → CM Z) :
  (∀ k log, 5 <= Z.of_nat k → bounded (drop k data) (pr (drop k data) log)) →
  5 <= blen data → blen data < 2 ^ 31 →
  (∀ m log, 5 <= m <= blen data → bounded data (k (Some m) log)) →
  (∀ log, bounded data (k None log)) →
  bounded data ((print_elems pr (length data) 0 len data (1 + 4) ≫= k) log).
Proof.
  intros Hpr H5 Hd Hsome Hnone.
  pose proof (print_elems_bounded pr data (length data) 0 len (1 + 4) log Hpr ltac:(lia) Hd
                ltac:(unfold blen in *; lia)) as He.
  unfold mbind, M_bind. destruct (print_elems _ _ _ _ _ _ _) as [[[m|] lg]| | |]; auto.
Qed.

Lemma print_response_bounded fuel : ∀ data log,
  (length data ≤ fuel)%nat → blen data < 2 ^ 31 →
  bounded data (print_response_loop fuel data log).
Proof.
  assert (∀ data log, bounded data (bad_response log)) as Hbad.
  { intros data log. pose proof (blen_nonneg data). apply bounded_done. lia. }
  induction fuel as [|fuel IH]; intros data log Hl Hd; cbn [print_response_loop];
    pose proof (blen_nonneg data); (destruct (Z.ltb_spec (blen data) 1) as [|H1]; [by apply Hbad|]);
    [unfold blen in H1; lia|].
  assert (∀ k log, 5 <= Z.of_nat k → bounded (drop k data) (print_response_loop fuel (drop k data) log)) as Hpr.
  { intros k lg Hk. apply IH; unfold blen in *; rewrite length_drop; lia. }
  assert (∀ m, u32 m <= blen data → -1 <= i32 (u32 m) <= blen data) as Hwrap.
  { intros m Hm. pose proof (u32_range m). rewrite i32_id by lia. lia. }
  assert (∀ m log p, 5 <= m <= blen data → bounded data ((print p;; mret (i32 m)) log)) as Hend.
  { intros m lg p Hm. apply bounded_done. rewrite i32_id by lia. lia. }
  apply bounded_read; [lia|].
  repeat match goal with
  | |- bounded _ ((if (?a <? ?b) then _ else _) _) => destruct (Z.ltb_spec a b)
  | |- bounded _ ((if (?a =? ?b) then _ else _) _) => destruct (Z.eqb_spec a b)
  | |- bounded _ (bad_response _) => by apply Hbad
  | |- bounded _ ((read_n _ _ _ ≫= _) _) => apply bounded_read; [lia|]
  end.
  1,4,5,6: apply bounded_done; lia.
  - apply (bounded_precision _ (1 + 8)); [apply (slice_range _ _ 4)|lia|done| |].
    + intros Hlen Hnul. apply wraps_here. left. done.
    + intros s lg. apply bounded_done. by apply Hwrap.
  - apply (bounded_precision _ (1 + 4)); [apply (slice_range _ _ 4)|lia|done| |].
    + intros Hlen Hnul. apply wraps_here. right. done.
    + intros s lg. apply bounded_done. by apply Hwrap.
  - unfold mbind at 1, M_bind at 1. rewrite print_app.
    apply print_elems_result; [done|lia|done|auto|]. intros; apply bounded_done; lia.
  - apply print_elems_result; [done|lia|done|auto|]. intros; apply bounded_done; lia.
Qed.

(** ** A response on the stream *)
Lemma read_all_lemma segs data rest :
  blen data < 2 ^ 64 → live segs → concat segs = data ++ rest →
  ∃ segs', read_all (blen data) segs = Done ((0, data), segs') ∧ concat segs' = rest ∧ live segs'.
Proof.
  intros Hn Hl Hc. pose proof (blen_nonneg data). pose proof (blen_nonneg rest).
  destruct (read_all_loop_spec (Z.to_nat (blen data)) (blen data) [] segs) as (r & s' & Hrun & Hr); [lia|lia|done|].
  rewrite Hc, blen_app, take_blen, drop_blen in Hr. rewrite (proj2 (Z.leb_le _ _)) in Hr by lia.
  destruct Hr as (-> & Hs' & Hl'). by exists s'.
Qed.

Lemma read_response_lemma v segs rest log :
  wf_value v = true → blen (enc v) <= k_max_msg →
  live segs → concat segs = frame (enc v) ++ rest →
  ∃ segs', read_response (mkClientState segs log) =
      Done (blen (enc v), mkClientState segs' (log ++ render v)) ∧ concat segs' = rest ∧ live segs'.
Proof.
  intros Hwf Hsz Hl Hc. pose proof (enc_pos v). unfold frame in Hc. rewrite <-app_assoc in Hc.
  unfold k_max_msg in Hsz. change (Z.shiftl 32 20) with 33554432 in Hsz.
  destruct (read_all_lemma segs (le_bytes 4 (blen (enc v))) (enc v ++ rest)) as (s1 & Hr1 & Hc1 & Hl1);
    [by rewrite blen_le_bytes|done|done|].
  destruct (read_all_lemma s1 (enc v) rest) as (s2 & Hr2 & Hc2 & Hl2); [lia|done|done|].
  exists s2. split; [|done]. rewrite blen_le_bytes in Hr1. change (Z.of_nat 4) with 4 in Hr1.
  unfold read_response, in_socket, in_log.
  rewrite (bind_done _ _ _ _ _ (zoom_done cl_in _ _ (mkClientState segs log) _ _ Hr1)). cbn [negb Z.eqb cl_log].
  rewrite le_Z_bytes. change (256 ^ Z.of_nat 4) with (2 ^ 32). rewrite Z.mod_small by lia.
  unfold k_max_msg. change (Z.shiftl 32 20) with 33554432.
  destruct (Z.gtb_spec (blen (enc v)) 33554432); [lia|].
  rewrite (bind_done _ _ _ _ _ (zoom_done cl_in _ _ (mkClientState s1 log) _ _ Hr2)). cbn [negb Z.eqb cl_log].
  rewrite (proj2 (Z.eqb_neq _ 0)) by lia.
  assert (print_response (enc v) log = Done (blen (enc v), log ++ render v)) as Hp.
  { unfold print_response. rewrite <-(app_nil_r (enc v)) at 2.
    apply print_value_lemma; [done|lia|done]. }
  rewrite (bind_done _ _ _ _ _ (zoom_done cl_log _ _ (mkClientState s2 log) _ _ Hp)). cbn [cl_in].
  rewrite u32_id, Z.eqb_refl by lia. by rewrite andb_false_r.
Qed.
