(* ===== verification/WireProps.v ===== *)
(** The properties of the wire protocol: requests from the client to the
    parser of the server, responses from the serializer to the printer of the
    client (net/protocol.cpp, net/serialize.cpp, client.cpp). *)
From Stdlib Require Import Strings.String.
From S2P Require Import Prelude Bytes Serialize Protocol NetIO NetIOProofs Client ClientProofs.

Open Scope list_scope.

(** ** Instances *)
Definition set_cmd : list bytes := [str "set"; str "k"; []].
Definition reply : wvalue := WArr [WStr (str "key"); WArr [WInt (-5); WNil]; WErr 2 (str "no")].
Definition cut_reply : bytes := take 16 (enc reply).
(** An error of which the length field is close to [2 ^ 32]. *)
Definition hostile : bytes :=
  [Byte.x01] ++ le_bytes 4 0 ++ le_bytes 4 (2 ^ 32 - 9) ++ str "abc".

(** * Properties *)

(** C26: parse_request accepts exactly the canonical encodings: it returns 0
    with a command if and only if the command has at most k_max_args arguments
    of lengths below 2^32 and the data is its encoding, no byte more. *)
Theorem parse_request_exact data cmd :
  parse_request data [] = (0, cmd) ↔ wf_cmd cmd ∧ data = request_bytes cmd.
Proof. apply parse_request_lemma. Qed.

(** C27: send_request ends for every socket. It returns 0 only if one frame with
    the encoding of the command was written, and -1 if the socket took only a
    part of it; a socket of which the peer is gone (EPIPE) can end the process
    with SIGPIPE. The command has at most k_max_args arguments and its encoding
    at most k_max_msg bytes. The server takes that frame off its stream and parses it
    back to the same command, whatever follows it. *)
Theorem send_request_parses cmd s rest :
  wf_cmd cmd → blen (request_bytes cmd) <= k_max_msg →
  ((send_request cmd s = AssertFail ∧ - EPIPE ∈ accepts s) ∨
   ∃ rc s', send_request cmd s = Done (rc, s') ∧
    (rc = 0 ∧ sent s' = sent s ++ frame (request_bytes cmd) ∨
     rc = -1 ∧ ∃ k, sent s' = sent s ++ take k (frame (request_bytes cmd)))) ∧
  next_frame (frame (request_bytes cmd) ++ rest) = FRequest (request_bytes cmd) rest ∧
  parse_request (request_bytes cmd) [] = (0, cmd).
Proof.
  intros Hwf Hsz. split_and!.
  - rewrite send_request_lemma by done. apply write_all_loop_spec. lia.
  - by apply next_frame_request.
  - by apply parse_request_lemma.
Qed.

Lemma send_request_parses_witness :
  ((send_request set_cmd (mkWsocket [3; 5; 100] []) = AssertFail ∧ - EPIPE ∈ [3; 5; 100]) ∨
   ∃ rc s', send_request set_cmd (mkWsocket [3; 5; 100] []) = Done (rc, s') ∧
    (rc = 0 ∧ sent s' = frame (request_bytes set_cmd) ∨
     rc = -1 ∧ ∃ k, sent s' = take k (frame (request_bytes set_cmd)))).
Proof.
  apply (send_request_parses set_cmd (mkWsocket [3; 5; 100] []) []).
  - apply (bool_decide_unpack _). vm_compute. exact I.
  - apply Z.leb_le. vm_compute. reflexivity.
Defined.

(** C28: read_response on a stream that starts with the frame of a serialized
    value, cut into segments in any way, prints the value, returns its size
    and leaves the rest of the stream. *)
Theorem read_response_prints v segs rest log :
  wf_value v = true → blen (enc v) <= k_max_msg →
  live segs → concat segs = frame (enc v) ++ rest →
  ∃ segs', read_response (mkClientState segs log) =
      Done (blen (enc v), mkClientState segs' (log ++ render v)) ∧ concat segs' = rest.
Proof.
  intros H1 H2 H3 H4. destruct (read_response_lemma v segs rest log H1 H2 H3 H4) as (segs' & Hr & Hc & _). by exists segs'.
Qed.

Lemma read_response_prints_witness :
  ∃ segs', read_response (mkClientState [take 7 (frame (enc reply)); drop 7 (frame (enc reply))] []) =
      Done (blen (enc reply), mkClientState segs' (render reply)) ∧ concat segs' = [].
Proof.
  apply (read_response_prints reply _ [] []); [reflexivity| | |].
  - apply Z.leb_le. vm_compute. reflexivity.
  - repeat constructor; vm_compute; discriminate.
  - vm_compute. reflexivity.
Defined.

(** C29: on any response of less than 2^31 bytes, print_response ends: no
    assertion fails, no length is followed for ever, and what it returns is -1
    or a size within the response. Every byte it copies is in the response, and
    no string is read past it, unless the response has an error with a length field of
    at least 2^32 - 9, or a string with one of at least 2^32 - 5, for which the
    size check wraps around, and no NUL byte after it. *)
Theorem print_response_ends data log :
  blen data < 2 ^ 31 →
  match print_response data log with
  | Done (rv, _) => -1 <= rv <= blen data
  | Undefined => wraps data
  | _ => False
  end.
Proof. intros Hd. by apply print_response_bounded. Qed.

Lemma print_response_ends_witness :
  match print_response cut_reply [] with
  | Done (rv, _) => -1 <= rv <= blen cut_reply
  | Undefined => wraps cut_reply
  | _ => False
  end.
Proof. apply (print_response_ends cut_reply []). vm_compute. reflexivity. Defined.

(** The size check of an error response wraps around: with a length field
    of 2^32 - 9 it compares the size with 0, the precision is negative and
    printf reads past the response. *)
Theorem print_response_overread : print_response hostile [] = Undefined.
Proof. vm_compute. reflexivity. Qed.
