(* ===== verification/Repl.v ===== *)
(** The prompt of the client: the loop of main in client.cpp, which reads
    commands from the standard input, sends them and prints the responses.  The
    socket set-up before it is in Setup.v, the whole of main in Main.v. *)
From Stdlib Require Import Strings.String.
From S2P Require Import Prelude Bytes Serialize Protocol Common NetIO NetIOProofs Client ClientProofs.

Open Scope list_scope.

(** * The C++ library ([isspace] is [is_space] of Common.v) *)

Definition newline : byte := Byte.x0a.
(** The bytes before the first one with [p], and the rest from it. *)
Fixpoint break (p : byte → bool) (s : bytes) : bytes * bytes :=
  match s with
  | [] => ([], [])
  | b :: s' => if p b then ([], s) else let '(w, r) := break p s' in (b :: w, r)
  end.

(** [std::getline(std::cin, line)]: nothing at the end of the input. *)
Definition getline : M bytes (option bytes) := λ input,
  match input with
  | [] => Done (None, [])
  | _ => let '(line, rest) := break (λ b, bool_decide (b = newline)) input in Done (Some line, drop 1 rest)
  end.

(** [iss >> tok]: the next word, after the white space before it. *)
Definition extract (iss : bytes) : option (bytes * bytes) :=
  let iss := snd (break (negb ∘ is_space) iss) in
  match iss with [] => None | _ => Some (break is_space iss) end.

(** * The loop *)

(** [for (std::string tok; iss >> tok; ) request.push_back(tok)] *)
Fixpoint tokenize_loop (fuel : nat) (iss : bytes) (request : list bytes) : list bytes :=
  match extract iss with
  | None => request
  | Some (tok, iss) =>
      match fuel with
      | O => request ++ [tok]
      | S fuel => tokenize_loop fuel iss (request ++ [tok])
      end
  end.
(** Each word takes at least a byte of the line. *)
Definition tokenize (line : bytes) : list bytes := tokenize_loop (length line) line [].

(** The client: the standard input, what it wrote on the socket, and what it
    read from it and printed. *)
Record Client := mkClient { stdin : bytes; csock : wsocket; cstate : client_state }.
Definition on_stdin {A} : M bytes A → M Client A := zoom stdin (λ i c, mkClient i (csock c) (cstate c)).
Definition on_sock {A} : M wsocket A → M Client A := zoom csock (λ s c, mkClient (stdin c) s (cstate c)).
Definition on_cstate {A} : M client_state A → M Client A := zoom cstate (λ t c, mkClient (stdin c) (csock c) t).

(** [fprintf(stderr, "> ")] is shown as [PPrompt]. *)
Fixpoint repl (fuel : nat) : M Client () :=
  on_cstate (in_log (print PPrompt));;
  line ← on_stdin getline;
  match line with
  | None => mret ()
  | Some line =>
      let continue := match fuel with O => out_of_fuel | S fuel => repl fuel end in
      if bool_decide (line = []) then continue
      else
        let request := tokenize line in
        match request with
        | [] => continue
        | word :: _ =>
            if bool_decide (word = str "exit") || bool_decide (word = str "quit") then mret ()
            else
              err ← on_sock (send_request request);
              if negb (err =? 0) then on_cstate (in_log (print PMsg))
              else
                err ← on_cstate read_response;
                if err <? 0 then on_cstate (in_log (print PMsg)) else continue
        end
  end.

(** Each line takes at least a byte of the input. *)
Definition client_main : M Client () := c ← get_state; repl (length (stdin c)).

(** * What a session does *)
Fixpoint lines (input : bytes) : list bytes :=
  match input with
  | [] => []
  | b :: input =>
      if bool_decide (b = newline) then [] :: lines input
      else match lines input with [] => [[b]] | l :: ls => (b :: l) :: ls end
  end.
Definition quits (word : bytes) : bool := bool_decide (word = str "exit") || bool_decide (word = str "quit").

(** The commands that are sent: one for each line that is not blank, up to the
    one that quits. *)
Fixpoint commands (ls : list bytes) : list (list bytes) :=
  match ls with
  | [] => []
  | l :: ls =>
      match tokenize l with
      | [] => commands ls
      | w :: ws => if quits w then [] else (w :: ws) :: commands ls
      end
  end.
(** What is printed when the responses are [vs]. *)
Fixpoint transcript (ls : list bytes) (vs : list wvalue) : list printed :=
  PPrompt ::
  match ls with
  | [] => []
  | l :: ls =>
      match tokenize l with
      | [] => transcript ls vs
      | w :: _ =>
          if quits w then []
          else match vs with [] => [] | v :: vs => render v ++ transcript ls vs end
      end
  end.

Definition request_frames (cmds : list (list bytes)) : bytes := concat ((λ c, frame (request_bytes c)) <$> cmds).
Definition response_frames (vs : list wvalue) : bytes := concat ((λ v, frame (enc v)) <$> vs).

(** ** The input *)
Lemma getline_lemma input :
  match lines input with
  | [] => getline input = Done (None, [])
  | l :: ls => ∃ rest, getline input = Done (Some l, rest) ∧ lines rest = ls ∧ (length rest < length input)%nat
  end.
Proof.
  assert (∀ b input, let '(l, r) := break (λ b, bool_decide (b = newline)) (b :: input) in
    lines (b :: input) = l :: lines (drop 1 r) ∧ (length (drop 1 r) < length (b :: input))%nat) as H.
  { clear. intros b input. revert b. induction input as [|b' input IH]; intros b.
    - cbn. case_bool_decide; cbn; (split; [done|lia]).
    - specialize (IH b'). cbn [break] in *. cbn [lines] in *.
      destruct (bool_decide (b = newline)); [cbn in *; split; [done|lia]|].
      destruct (if bool_decide (b' = newline) then _ else _) as [l r]. destruct IH as [IH Hlen]. rewrite IH.
      split; [done|]. cbn [length] in *. lia. }
  destruct input as [|b input]; [done|]. specialize (H b input).
  destruct (break (λ b0, bool_decide (b0 = newline)) (b :: input)) as [l r] eqn:Hb.
  destruct H as [-> Hlen]. exists (drop 1 r). split; [|done]. unfold getline. by rewrite Hb.
Qed.

(** ** A socket that accepts at least a byte at each of [n] calls *)
Definition writable (n : Z) (s : wsocket) : Prop := Forall (Z.lt 0) (accepts s) ∧ n <= blen (accepts s).

Lemma write_all_loop_writable fuel : ∀ data s k,
  (length data ≤ fuel)%nat → 0 <= k → writable (blen data + k) s →
  ∃ s', write_all_loop fuel data s = Done (0, s') ∧ sent s' = sent s ++ data ∧ writable k s'.
Proof.
  assert (∀ s k, 0 <= k → writable (blen (@nil byte) + k) s →
    ∃ s', Done (0, s) = Done (0, s') ∧ sent s' = sent s ++ [] ∧ writable k s') as Hnil.
  { intros s k Hk Hs. exists s. by rewrite app_nil_r. }
  induction fuel as [|fuel IH]; intros data s k Hf Hk Hs.
  { destruct data; [by apply Hnil|cbn in Hf; lia]. }
  cbn [write_all_loop]. destruct (Z.gtb_spec (blen data) 0) as [Hd|Hd].
  2: { destruct data; [by apply Hnil|unfold blen in Hd; cbn in Hd; lia]. }
  destruct s as [[|n ns] snt]; destruct Hs as [Hpos Hlen]; cbn [accepts] in *; [change (blen (@nil Z)) with 0 in Hlen; lia|].
  apply Forall_cons in Hpos as [Hn Hpos]. set (m := Z.min n (blen data)).
  assert (sys_write data (mkWsocket (n :: ns) snt) =
    Done (m, mkWsocket ns (snt ++ take (Z.to_nat m) data))) as Hw.
  { unfold sys_write. cbn [accepts]. unfold EPIPE. by rewrite (proj2 (Z.eqb_neq _ _)), (proj2 (Z.ltb_ge _ _)) by lia. }
  rewrite (bind_done _ _ _ _ _ Hw). rewrite (proj2 (Z.leb_gt _ _)) by lia.
  erewrite bind_done by (unfold assert_; rewrite (proj2 (Z.leb_le _ _)) by lia; done).
  destruct (IH (drop (Z.to_nat m) data) (mkWsocket ns (snt ++ take (Z.to_nat m) data)) k)
    as (s' & Hrun & Hsent & Hw'); [rewrite length_drop; unfold blen in *; lia|done| |].
  { split; [done|]. cbn [accepts]. rewrite blen_cons in Hlen. unfold blen in *. rewrite length_drop. lia. }
  exists s'. split; [done|]. split; [|done]. rewrite Hsent. cbn [sent]. by rewrite <-app_assoc, take_drop.
Qed.

(** ** One command and the session *)
Lemma repl_command c w ws v segs rest fuel k :
  wf_cmd (w :: ws) → blen (request_bytes (w :: ws)) <= k_max_msg →
  wf_value v = true → blen (enc v) <= k_max_msg → live segs → concat segs = frame (enc v) ++ rest →
  0 <= k → writable (blen (frame (request_bytes (w :: ws))) + k) (csock c) → cl_in (cstate c) = segs →
  ∃ s segs', writable k s ∧ sent s = sent (csock c) ++ frame (request_bytes (w :: ws)) ∧
    concat segs' = rest ∧ live segs' ∧
    (err ← on_sock (send_request (w :: ws));
     if negb (err =? 0) then on_cstate (in_log (print PMsg))
     else
       err ← on_cstate read_response;
       if err <? 0 then on_cstate (in_log (print PMsg)) else fuel) c =
    fuel (mkClient (stdin c) s (mkClientState segs' (cl_log (cstate c) ++ render v))).
Proof.
  intros Hwf Hsz Hv Hvsz Hlive Hc Hk Hw <-.
  destruct (write_all_loop_writable (length (frame (request_bytes (w :: ws)))) (frame (request_bytes (w :: ws)))
    (csock c) k) as (s & Hs & Hsent & Hws); [done..|].
  destruct (read_response_lemma v _ rest (cl_log (cstate c)) Hv Hvsz Hlive Hc) as (segs' & Hr & Hc' & Hl').
  assert (mkClientState (cl_in (cstate c)) (cl_log (cstate c)) = cstate c) as Heta by (by destruct (cstate c)).
  rewrite Heta in Hr. exists s, segs'. split_and!; [done..|]. unfold on_sock, on_cstate.
  erewrite bind_done; [|eapply zoom_done; rewrite send_request_lemma by done; exact Hs]. cbn [negb Z.eqb].
  erewrite bind_done; [|eapply zoom_done; exact Hr].
  pose proof (enc_pos v). rewrite (proj2 (Z.ltb_ge _ _)) by lia. done.
Qed.

(** The responses a client can read. *)
Definition readable (v : wvalue) : Prop := wf_value v = true ∧ blen (enc v) <= k_max_msg.
Definition sendable (cmd : list bytes) : Prop := wf_cmd cmd ∧ blen (request_bytes cmd) <= k_max_msg.
#[export] Instance readable_dec v : Decision (readable v).
Proof. unfold readable. apply _. Defined.
#[export] Instance sendable_dec cmd : Decision (sendable cmd).
Proof. unfold sendable. apply _. Defined.
#[export] Instance writable_dec n s : Decision (writable n s).
Proof. unfold writable. apply _. Defined.
#[export] Instance live_dec s : Decision (live s).
Proof. unfold live. apply _. Defined.

(** The result of the loop from a state that is already in the session. *)
Definition session_end (c : Client) (cmds : list (list bytes)) (out : list printed) (rest : bytes) (c' : Client) : Prop :=
  sent (csock c') = sent (csock c) ++ request_frames cmds ∧
  cl_log (cstate c') = cl_log (cstate c) ++ out ∧ concat (cl_in (cstate c')) = rest.

(** The prompt is printed and the input is at its end, or a line of it is read. *)
Definition prompted (input : bytes) (c : Client) : Client :=
  mkClient input (csock c) (mkClientState (cl_in (cstate c)) (cl_log (cstate c) ++ [PPrompt])).

Lemma wp_prompt (k : option bytes → M Client ()) Q c line input :
  getline (stdin c) = Done (line, input) → wp (k line) Q (prompted input c) →
  wp (on_cstate (in_log (print PPrompt));; line ← on_stdin getline; k line) Q c.
Proof.
  intros Hg HQ. eapply wp_bind, wp_done; [done|]. apply wp_bind.
  eapply wp_done; [eapply zoom_done; exact Hg|]. exact HQ.
Qed.

Lemma session_prompt c input cmds out rest c' :
  session_end (prompted input c) cmds out rest c' → session_end c cmds (PPrompt :: out) rest c'.
Proof. intros (H1 & H2 & H3). split_and!; [done| |done]. rewrite H2. cbn. by rewrite <-app_assoc. Qed.

Lemma repl_lemma fuel : ∀ c vs rest k,
  (length (stdin c) ≤ fuel)%nat →
  Forall sendable (commands (lines (stdin c))) → Forall readable vs → length vs = length (commands (lines (stdin c))) →
  0 <= k → writable (blen (request_frames (commands (lines (stdin c)))) + k) (csock c) →
  live (cl_in (cstate c)) → concat (cl_in (cstate c)) = response_frames vs ++ rest →
  wp (repl fuel) (λ _, session_end c (commands (lines (stdin c))) (transcript (lines (stdin c)) vs) rest) c.
Proof.
  induction fuel as [|fuel IH]; intros c vs rest k Hf Hcmds Hvs Hn Hk Hw Hlive Hin; pose proof (getline_lemma (stdin c)) as Hg;
    cbn [repl]; (destruct (lines (stdin c)) as [|l ls] eqn:Hl;
    [eapply wp_prompt; [exact Hg|]; apply wp_ret; destruct vs; [|done];
       (split_and!; [by rewrite app_nil_r|done|done])|]);
    destruct Hg as (input & Hg & Hls & Hlen); [lia|].
  eapply wp_prompt; [exact Hg|]. cbn [commands transcript] in *.
  case_bool_decide as Hblank.
  { subst l. change (tokenize []) with (@nil bytes) in *. cbn match in *. subst ls.
    eapply wp_mono; [apply (IH (prompted input c) vs rest k); [cbn; lia|done..]|].
    intros [] c'. apply session_prompt. }
  destruct (tokenize l) as [|w ws] eqn:Htok.
  { subst ls. eapply wp_mono; [apply (IH (prompted input c) vs rest k); [cbn; lia|done..]|].
    intros [] c'. apply session_prompt. }
  fold (quits w). destruct (quits w) eqn:Hq.
  { apply wp_ret. destruct vs; [|done]. split_and!; [by rewrite app_nil_r|done|done]. }
  destruct vs as [|v vs]; [done|]. apply Forall_cons in Hcmds as [[Hwf Hsz] Hcmds], Hvs as [[Hv Hvsz] Hvs].
  unfold request_frames in Hw. rewrite fmap_cons in Hw. cbn [concat] in Hw. rewrite blen_app, <-Z.add_assoc in Hw.
  unfold response_frames in Hin. rewrite fmap_cons in Hin. cbn [concat] in Hin. rewrite <-app_assoc in Hin.
  subst ls. pose proof (blen_nonneg (request_frames (commands (lines input)))) as Hpos.
  destruct (repl_command (prompted input c) w ws v (cl_in (cstate c)) (response_frames vs ++ rest) (repl fuel)
    (blen (request_frames (commands (lines input))) + k))
    as (s & segs' & Hs & Hsent & Hc' & Hl' & Hrun); [done..|lia|done|done|].
  eapply wp_eq; [exact Hrun|]. eapply wp_mono; [apply (IH _ vs rest k); cbn [stdin csock cstate cl_in]; [cbn; lia|done..|by injection Hn|done|exact Hs|done|done]|].
  intros [] c' (H1 & H2 & H3). cbn [csock cstate cl_log] in *. split_and!; [|by rewrite H2; cbn; rewrite <-!app_assoc|done].
  rewrite H1, Hsent. unfold request_frames. rewrite fmap_cons. cbn [concat]. by rewrite <-app_assoc.
Qed.

(** ** The words of a line *)
Definition starts (p : byte → bool) (s : bytes) : Prop := match s with [] => True | b :: _ => p b = true end.
Definition none (p : byte → bool) (s : bytes) : Prop := Forall (λ b, p b = false) s.

Lemma break_lemma p s w r : break p s = (w, r) ↔ s = w ++ r ∧ none p w ∧ starts p r.
Proof.
  split.
  - revert w r. induction s as [|b s IH]; intros w r; cbn [break]; [intros [= <- <-]; by repeat constructor|].
    destruct (p b) eqn:Hb; [intros [= <- <-]; by repeat constructor|].
    destruct (break p s) as [w' r'] eqn:Hbr. intros [= <- <-]. destruct (IH _ _ eq_refl) as (-> & Hw & Hr).
    split_and!; [done|by constructor|done].
  - intros (-> & Hw & Hr). induction Hw as [|b w Hb Hw IH]; cbn [app break]; [|by rewrite Hb, IH].
    destruct r as [|b r]; [done|]. cbn in *. by rewrite Hr.
Qed.

(** The words of a line: what is between its white space. *)
Inductive words_of : bytes → list bytes → Prop :=
| words_nil sp : none (negb ∘ is_space) sp → words_of sp []
| words_cons sp w rest ws :
    none (negb ∘ is_space) sp → w ≠ [] → none is_space w → starts is_space rest → words_of rest ws →
    words_of (sp ++ w ++ rest) (w :: ws).

Lemma extract_none line : extract line = None ↔ none (negb ∘ is_space) line.
Proof.
  unfold extract. destruct (break (negb ∘ is_space) line) as [w r] eqn:Hb. cbn [snd].
  apply break_lemma in Hb as Hb'. destruct Hb' as (-> & Hw & Hr). destruct r as [|b r].
  - by rewrite app_nil_r.
  - split; [done|]. intros H. apply Forall_app in H as [_ H]. apply Forall_cons in H as [H _]. cbn in Hr, H. congruence.
Qed.

Lemma extract_some line w rest :
  extract line = Some (w, rest) ↔
  ∃ sp, line = sp ++ w ++ rest ∧ none (negb ∘ is_space) sp ∧ w ≠ [] ∧ none is_space w ∧ starts is_space rest.
Proof.
  unfold extract. split.
  - destruct (break (negb ∘ is_space) line) as [sp r] eqn:Hb. cbn [snd].
    apply break_lemma in Hb as (-> & Hsp & Hr). destruct r as [|b r]; [done|]. intros Hb%(inj Some).
    exists sp. cbn [starts] in Hr. destruct w as [|b' w].
    { apply break_lemma in Hb as (Hbr & _ & Hs). cbn in Hbr. subst rest. cbn in Hs, Hr. by rewrite Hs in Hr. }
    apply break_lemma in Hb as (-> & Hw & Hs). by split_and!.
  - intros (sp & -> & Hsp & Hne & Hw & Hs).
    assert (break (negb ∘ is_space) (sp ++ w ++ rest) = (sp, w ++ rest)) as ->.
    { apply break_lemma. split_and!; [done..|]. destruct w as [|b w]; [done|]. apply Forall_cons in Hw as [Hw _]. cbn. by rewrite Hw. }
    cbn [snd]. destruct w as [|b w]; [done|]. cbn [app]. f_equal. by apply break_lemma.
Qed.

Lemma tokenize_loop_words line ws : words_of line ws → ∀ fuel request,
  (length line ≤ fuel)%nat → tokenize_loop fuel line request = request ++ ws.
Proof.
  induction 1 as [sp Hsp|sp w rest ws Hsp Hne Hw Hs Hws IH]; intros fuel request Hf.
  - apply extract_none in Hsp. destruct fuel; cbn [tokenize_loop]; by rewrite Hsp, app_nil_r.
  - assert (extract (sp ++ w ++ rest) = Some (w, rest)) as He by (apply extract_some; eauto 8).
    rewrite !length_app in Hf. assert (0 < length w)%nat by (destruct w; [done|cbn; lia]).
    destruct fuel as [|fuel]; [lia|]. cbn [tokenize_loop]. rewrite He, IH by lia. by rewrite <-app_assoc.
Qed.

Lemma words_exist n : ∀ line, (length line ≤ n)%nat → ∃ ws, words_of line ws.
Proof.
  induction n as [|n IH]; intros line Hn.
  { destruct line; [|cbn in Hn; lia]. exists []. by apply words_nil, Forall_nil. }
  destruct (extract line) as [[w rest]|] eqn:He.
  - apply extract_some in He as (sp & -> & Hsp & Hne & Hw & Hs). rewrite !length_app in Hn.
    assert (0 < length w)%nat by (destruct w; [done|cbn; lia]).
    destruct (IH rest) as [ws Hws]; [lia|]. exists (w :: ws). by apply words_cons.
  - exists []. apply words_nil. by apply extract_none.
Qed.

Lemma tokenize_lemma line ws : tokenize line = ws ↔ words_of line ws.
Proof.
  assert (∀ ws, words_of line ws → tokenize line = ws) as H.
  { intros ws' Hws. unfold tokenize. by rewrite (tokenize_loop_words line ws' Hws). }
  split; [|apply H]. intros <-. destruct (words_exist (length line) line) as [ws' Hws]; [done|]. by rewrite (H ws').
Qed.

(** ** A session to evaluate *)
Definition typed : bytes := str "set  k v" ++ [newline; newline] ++ str " get k" ++ [newline] ++ str "exit" ++ [newline] ++ str "keys".
Definition typed_client : Client :=
  mkClient typed (mkWsocket (replicate 100 7) [])
    (mkClientState [response_frames [WNil]; response_frames [WStr (str "v")]] []).

(** * Properties *)

(** C33: tokenize splits a line into its words and nothing else: the longest runs
    of bytes that are not white space, in order. *)
Theorem tokenize_words line ws : tokenize line = ws ↔ words_of line ws.
Proof. apply tokenize_lemma. Qed.

(** C31: the prompt of the client ends with its input, and it is faithful both
    ways: on a socket that accepts data and a stream of well-formed responses,
    one for each command, however it is cut, it sends exactly the commands that
    were typed before exit or quit, prints each response after its prompt and
    leaves the rest of the stream. *)
Theorem repl_session c vs rest :
  let cmds := commands (lines (stdin c)) in
  Forall sendable cmds → Forall readable vs → length vs = length cmds →
  writable (blen (request_frames cmds)) (csock c) →
  live (cl_in (cstate c)) → concat (cl_in (cstate c)) = response_frames vs ++ rest →
  ∃ c', client_main c = Done ((), c') ∧
    sent (csock c') = sent (csock c) ++ request_frames cmds ∧
    cl_log (cstate c') = cl_log (cstate c) ++ transcript (lines (stdin c)) vs ∧
    concat (cl_in (cstate c')) = rest.
Proof.
  intros cmds Hs Hr Hn Hw Hl Hc.
  pose proof (repl_lemma (length (stdin c)) c vs rest 0) as H. rewrite Z.add_0_r in H.
  specialize (H ltac:(done) Hs Hr Hn ltac:(done) Hw Hl Hc). apply wp_inv in H as ([] & c' & Hrun & H1 & H2 & H3).
  exists c'. split; [|done]. exact Hrun.
Qed.

Lemma repl_session_witness :
  ∃ c', client_main typed_client = Done ((), c') ∧
    sent (csock c') = request_frames [[str "set"; str "k"; str "v"]; [str "get"; str "k"]] ∧
    cl_log (cstate c') = [PPrompt; PNil; PPrompt; PPrompt; PStr (str "v"); PPrompt] ∧ concat (cl_in (cstate c')) = [].
Proof.
  apply (repl_session typed_client [WNil; WStr (str "v")] []).
  - apply (bool_decide_unpack _). vm_compute. exact I.
  - apply (bool_decide_unpack _). vm_compute. exact I.
  - vm_compute. reflexivity.
  - apply (bool_decide_unpack _). vm_compute. exact I.
  - apply (bool_decide_unpack _). vm_compute. exact I.
  - vm_compute. reflexivity.
Defined.
