(* ===== verification/SortedSet.v ===== *)
(** The sorted set of storage/sorted_set.{h,cpp}: members indexed by name in a
    hash map and by (score, name) in an AVL tree.  A [ZNode] embeds a tree node
    and a hash node; the three parts of a [ZNode] are kept in three stores
    under its address, so the tree code and the hash code run unchanged on
    their own part ([on_tree], [on_hash]).  The writes past the end of the block of a
    node are recorded.  The command handlers of the same
    file are in Commands.v. *)
From S2P Require Import Prelude Bytes Common AvlTree Hashtable.

(** The members of a [ZNode] besides its links; [len] is the length of
    [name]. *)
Record ZData := mkZData { score : f64; name : bytes }.

(** The nodes of all sorted sets, and the writes past the end of a block so far,
    by their offset: the model goes on after such a write as if no object had the
    byte. *)
Record ZHeap := mkZHeap {
  ztree : avl_store;
  zhash : hstore;
  zdata : gmap ptr ZData;
  overruns : list Z;
}.
Abbreviation ZM := (M ZHeap).

(** [struct ZSet] *)
Record ZSet := mkZSet { zroot : option ptr; zhmap : HMap }.
Definition ZSet_empty : ZSet := mkZSet None HMap_empty.

#[export] Instance ZData_eq_dec : EqDecision ZData.
Proof. solve_decision. Defined.
#[export] Instance ZSet_eq_dec : EqDecision ZSet.
Proof. solve_decision. Defined.

Definition on_tree {A} : AVL A → ZM A :=
  zoom ztree (λ t s, mkZHeap t (zhash s) (zdata s) (overruns s)).
Definition on_hash {A} : HM A → ZM A :=
  zoom zhash (λ h s, mkZHeap (ztree s) h (zdata s) (overruns s)).
Definition on_data {A} : M (gmap ptr ZData) A → ZM A :=
  zoom zdata (λ d s, mkZHeap (ztree s) (zhash s) d (overruns s)).

(** [sizeof(ZNode)], which is the offset of its flexible array [name]: the tree
    node has 32 bytes, the hash node 16, the score and the length 8 each. *)
Definition sizeof_ZNode : Z := 32 + 16 + 8 + 8.
(** The byte at [off] of a block of [size] bytes is written: outside of the block
    it is recorded, and changes no object. *)
Definition write_at (size off : Z) (overruns : list Z) : list Z :=
  if off <? size then overruns else overruns ++ [off].

(** The address [malloc] returns for a node. *)
Definition zfresh (s : ZHeap) : ptr :=
  Pos.max (fresh_ptr (ztree s)) (Pos.max (fresh_ptr (zhash s)) (fresh_ptr (zdata s))).

(** The name and a terminator are copied to the offset of [name]: the terminator is
    past the end of the block. *)
Definition znode_new (nm : bytes) (sc : f64) : ZM ptr := λ s,
  let node := zfresh s in
  let size := sizeof_ZNode + blen nm in
  Done (node, mkZHeap (<[node := avl_init_node]> (ztree s))
                      (<[node := mkHNode None (string_hash nm)]> (zhash s))
                      (<[node := mkZData sc nm]> (zdata s))
                      (write_at size (sizeof_ZNode + blen nm) (overruns s))).

(** [free(node)] *)
Definition znode_del (node : ptr) : ZM () := λ s,
  match zdata s !! node with
  | Some _ => Done ((), mkZHeap (delete node (ztree s)) (delete node (zhash s)) (delete node (zdata s)) (overruns s))
  | None => Undefined
  end.

Definition min (lhs rhs : Z) : Z := if lhs <? rhs then lhs else rhs.

(** [memcmp(a, b, n)]: the sign of the first difference. *)
Fixpoint memcmp (a b : bytes) (n : nat) : Z :=
  match n, a, b with
  | S n, x :: a, y :: b =>
      if byte_Z x <? byte_Z y then -1
      else if byte_Z y <? byte_Z x then 1
      else memcmp a b n
  | _, _, _ => 0
  end.

(** The comparison of [zless] on the node's data. *)
Definition zless_data (zl : ZData) (sc : f64) (nm : bytes) : bool :=
  if negb (f64_eq (score zl) sc) then f64_lt (score zl) sc
  else
    let rv := memcmp (name zl) nm (Z.to_nat (min (blen (name zl)) (blen nm))) in
    if negb (rv =? 0) then rv <? 0
    else blen (name zl) <? blen nm.

Definition zless (lhs : ptr) (sc : f64) (nm : bytes) : ZM bool :=
  zl ← on_data (load lhs); mret (zless_data zl sc nm).
Definition zless_nodes (lhs rhs : ptr) : ZM bool :=
  zr ← on_data (load rhs); zless lhs (score zr) (name zr).

(** The search of [tree_insert]: [from] and [parent] when it ends. *)
Fixpoint tree_search (fuel : nat) (node : ptr) (at_from par : option ptr) (from : avl_slot)
    : ZM (avl_slot * option ptr) :=
  match at_from with
  | None => mret (from, par)
  | Some p =>
      match fuel with
      | O => out_of_fuel
      | S fuel =>
          less ← zless_nodes node p;
          n ← on_tree (load p);
          if less : bool then tree_search fuel node (left n) (Some p) (SlotLeft p)
          else tree_search fuel node (right n) (Some p) (SlotRight p)
      end
  end.

Definition tree_insert (zset : ZSet) (node : ptr) : ZM ZSet :=
  s ← get_state;
  '(from, par) ← tree_search (size (ztree s)) node (zroot zset) None SlotVar;
  root ← on_tree (slot_set from (Some node) (zroot zset));
  on_tree (modify node (set_parent par));;
  root ← on_tree (avl_fix_tree node);
  mret (mkZSet root (zhmap zset)).

Definition zset_update (zset : ZSet) (node : ptr) (sc : f64) : ZM ZSet :=
  d ← on_data (load node);
  if f64_eq (score d) sc then mret zset
  else
    root ← on_tree (avl_delete node);
    on_tree (avl_init node);;
    on_data (modify node (λ d, mkZData sc (name d)));;
    tree_insert (mkZSet root (zhmap zset)) node.

(** The callback of the hash map: it reads the data of the compared node. *)
Definition hcmp (s : ZHeap) (nm : bytes) (node : ptr) : bool :=
  match zdata s !! node with
  | Some d =>
      if negb (blen (name d) =? blen nm) then false
      else memcmp (name d) nm (length (name d)) =? 0
  | None => false
  end.

Definition zset_lookup (zset : ZSet) (nm : bytes) : ZM (option ptr * ZSet) :=
  match zroot zset with
  | None => mret (None, zset)
  | Some _ =>
      s ← get_state;
      '(found, hmap) ← on_hash (hm_lookup (zhmap zset) (string_hash nm) (hcmp s nm));
      mret (found, mkZSet (zroot zset) hmap)
  end.

Definition zset_insert (zset : ZSet) (nm : bytes) (sc : f64) : ZM (bool * ZSet) :=
  '(node, zset) ← zset_lookup zset nm;
  match node with
  | Some node => zset ← zset_update zset node sc; mret (false, zset)
  | None =>
      node ← znode_new nm sc;
      hmap ← on_hash (hm_insert (zhmap zset) node);
      zset ← tree_insert (mkZSet (zroot zset) hmap) node;
      mret (true, zset)
  end.

Definition zset_delete (zset : ZSet) (node : ptr) : ZM ZSet :=
  d ← on_data (load node);
  h ← on_hash (load node);
  s ← get_state;
  '(found, hmap) ← on_hash (hm_delete (zhmap zset) (hash_code h) (hcmp s (name d)));
  assert_ (negb (bool_decide (found = None)));;
  root ← on_tree (avl_delete node);
  znode_del node;;
  mret (mkZSet root hmap).

(** The loop of the search: the current node and the candidate. *)
Fixpoint seek_loop (fuel : nat) (sc : f64) (nm : bytes) (node found : option ptr)
    : ZM (option ptr) :=
  match node with
  | None => mret found
  | Some a =>
      match fuel with
      | O => out_of_fuel
      | S fuel =>
          less ← zless a sc nm;
          n ← on_tree (load a);
          if less : bool then seek_loop fuel sc nm (right n) found
          else seek_loop fuel sc nm (left n) (Some a)
      end
  end.

Definition zset_seek_greater_equal (zset : ZSet) (sc : f64) (nm : bytes) : ZM (option ptr) :=
  s ← get_state; seek_loop (size (ztree s)) sc nm (zroot zset) None.

(** The offset is converted to the [int32_t] parameter of [avl_offset]. *)
Definition znode_offset (node : option ptr) (offset : Z) : ZM (option ptr) :=
  match node with
  | Some a => on_tree (avl_offset (Some a) (i32 offset))
  | None => mret None
  end.

Fixpoint tree_dispose (fuel : nat) (node : option ptr) : ZM () :=
  match node with
  | None => mret ()
  | Some a =>
      match fuel with
      | O => out_of_fuel
      | S fuel =>
          n ← on_tree (load a);
          tree_dispose fuel (left n);;
          n ← on_tree (load a);
          tree_dispose fuel (right n);;
          znode_del a
      end
  end.

Definition zset_clear (zset : ZSet) : ZM ZSet :=
  let hmap := hm_clear (zhmap zset) in
  s ← get_state;
  tree_dispose (size (ztree s)) (zroot zset);;
  mret (mkZSet None hmap).
