(* ===== verification/ZOrder.v ===== *)
(** The order of the sorted set: [zless] compares (score, name) pairs, scores
    as doubles and names byte by byte.  It is a strict total order on the
    members of a set, whose scores are numbers and whose names differ. *)
From S2P Require Import Prelude Bytes Common SortedSet.

(** The lexicographic order on byte strings, a prefix first. *)
Fixpoint bytes_lt (a b : bytes) : bool :=
  match a, b with
  | _, [] => false
  | [], _ :: _ => true
  | x :: a, y :: b => (byte_Z x <? byte_Z y) || ((byte_Z x =? byte_Z y) && bytes_lt a b)
  end.

Lemma byte_Z_inj x y : byte_Z x = byte_Z y → x = y.
Proof. intros H. by rewrite <-(Z_byte_Z x), H, Z_byte_Z. Qed.

Lemma bytes_lt_irrefl a : bytes_lt a a = false.
Proof. induction a as [|x a IH]; cbn; [done|]. by rewrite Z.ltb_irrefl, IH, andb_false_r. Qed.

Lemma bytes_lt_trans a : ∀ b c, bytes_lt a b = true → bytes_lt b c = true → bytes_lt a c = true.
Proof.
  induction a as [|x a IH]; intros [|y b] [|z c]; cbn; try done.
  rewrite !orb_true_iff, !andb_true_iff, !Z.ltb_lt, !Z.eqb_eq.
  intros [?|[? ?]] [?|[? ?]]; [left; lia..|right; split; [lia|eauto]].
Qed.

Lemma bytes_lt_total a : ∀ b, a = b ∨ bytes_lt a b = true ∨ bytes_lt b a = true.
Proof.
  induction a as [|x a IH]; intros [|y b]; cbn; [by left|by right; left|by right; right|].
  rewrite !orb_true_iff, !andb_true_iff, !Z.ltb_lt, !Z.eqb_eq.
  destruct (Z.lt_trichotomy (byte_Z x) (byte_Z y)) as [?|[Hxy|?]]; [tauto| |tauto].
  destruct (IH b) as [->|[?|?]]; [|tauto|].
  - left. f_equal. by apply byte_Z_inj.
  - right; right. right. split; [lia|done].
Qed.

(** The two comparisons of [zless] on the names. *)
Definition name_lt (a b : bytes) : bool :=
  let rv := memcmp a b (Z.to_nat (min (blen a) (blen b))) in
  if negb (rv =? 0) then rv <? 0 else blen a <? blen b.

Lemma min_length (a b : bytes) : Z.to_nat (min (blen a) (blen b)) = Nat.min (length a) (length b).
Proof. unfold min, blen. destruct (Z.ltb_spec (Z.of_nat (length a)) (Z.of_nat (length b))); lia. Qed.

Lemma name_lt_bytes a b : name_lt a b = bytes_lt a b.
Proof.
  unfold name_lt. rewrite min_length. revert b.
  induction a as [|x a IH]; intros [|y b]; cbn [length Nat.min];
    [done|by cbn|by destruct a|cbn [memcmp bytes_lt]].
  destruct (Z.ltb_spec (byte_Z x) (byte_Z y)); [done|].
  destruct (Z.ltb_spec (byte_Z y) (byte_Z x)).
  - by rewrite (proj2 (Z.eqb_neq (byte_Z x) (byte_Z y))) by lia.
  - rewrite (proj2 (Z.eqb_eq (byte_Z x) (byte_Z y))) by lia. cbn [orb andb]. rewrite <-IH.
    destruct (negb _); [done|]. unfold blen. cbn [length].
    destruct (Z.ltb_spec (Z.of_nat (length a)) (Z.of_nat (length b)));
      [rewrite (proj2 (Z.ltb_lt _ _)) by lia|rewrite (proj2 (Z.ltb_ge _ _)) by lia]; done.
Qed.

Lemma memcmp_eq a b : length a = length b → (memcmp a b (length a) =? 0) = bool_decide (a = b).
Proof.
  revert b. induction a as [|x a IH]; intros [|y b]; cbn [length memcmp]; intros Hl; try done.
  injection Hl as Hl.
  destruct (Z.ltb_spec (byte_Z x) (byte_Z y)).
  { rewrite bool_decide_false; [done|]. intros [= -> ->]. lia. }
  destruct (Z.ltb_spec (byte_Z y) (byte_Z x)).
  { rewrite bool_decide_false; [done|]. intros [= -> ->]. lia. }
  assert (x = y) as -> by (apply byte_Z_inj; lia). rewrite IH by done.
  apply bool_decide_ext. naive_solver.
Qed.

(** ** Members *)
Definition zlt (a b : ZData) : Prop := zless_data a (score b) (name b) = true.
Definition number (d : ZData) : Prop := isnan (score d) = false.

#[export] Instance zlt_dec a b : Decision (zlt a b).
Proof. unfold zlt. apply _. Defined.
#[export] Instance number_dec d : Decision (number d).
Proof. unfold number. apply _. Defined.

Lemma zlt_iff a b : number a → number b →
  zlt a b ↔ f64_key (score a) < f64_key (score b) ∨
            f64_key (score a) = f64_key (score b) ∧ bytes_lt (name a) (name b) = true.
Proof.
  intros Ha Hb. unfold zlt, zless_data. fold (name_lt (name a) (name b)).
  rewrite name_lt_bytes. unfold f64_eq, f64_lt. rewrite Ha, Hb. cbn [negb andb].
  destruct (Z.eqb_spec (f64_key (score a)) (f64_key (score b))); cbn [negb].
  - split; [tauto|]. intros [?|[_ ?]]; [lia|done].
  - rewrite Z.ltb_lt. split; [tauto|]. intros [?|[? _]]; [done|lia].
Qed.

Lemma zlt_irrefl a : number a → ¬ zlt a a.
Proof. intros Ha. rewrite zlt_iff by done. rewrite bytes_lt_irrefl. intros [?|[_ ?]]; [lia|done]. Qed.

Lemma zlt_trans a b c : number a → number b → number c → zlt a b → zlt b c → zlt a c.
Proof.
  intros Ha Hb Hc. rewrite !zlt_iff by done. intros [?|[? ?]] [?|[? ?]]; [left; lia..|right].
  split; [lia|]. by eapply bytes_lt_trans.
Qed.

(** Members with different names are ordered. *)
Lemma zlt_total a b : number a → number b → name a ≠ name b → zlt a b ∨ zlt b a.
Proof.
  intros Ha Hb Hne. rewrite !zlt_iff by done.
  destruct (Z.lt_trichotomy (f64_key (score a)) (f64_key (score b))) as [?|[?|?]]; [tauto| |tauto].
  destruct (bytes_lt_total (name a) (name b)) as [?|[?|?]]; [done|tauto|].
  right; right. split; [lia|done].
Qed.
