(* ===== verification/SortedSetProofs.v ===== *)
(** Correctness of the sorted set: the two indexes hold the same members, the
    tree is balanced and in (score, name) order, and every operation does to
    the members what its name says. *)
From S2P Require Import Prelude Bytes Common AvlTree AvlModel AvlRefine Hashtable.
From S2P Require Import HashtableProofs SortedSet ZOrder.

(** The order of two nodes by their data. *)
Definition before (zd : gmap ptr ZData) (x y : ptr) : Prop :=
  ∃ dx dy, zd !! x = Some dx ∧ zd !! y = Some dy ∧ zlt dx dy.
Definition sorted (zd : gmap ptr ZData) (xs : list ptr) : Prop := StronglySorted (before zd) xs.

(** The data of the members: scores are numbers, names are distinct. *)
Record data_ok (zd : gmap ptr ZData) (xs : list ptr) : Prop := {
  do_data : ∀ x, x ∈ xs → ∃ d, zd !! x = Some d ∧ number d;
  do_names : ∀ x y dx dy, x ∈ xs → y ∈ xs → zd !! x = Some dx → zd !! y = Some dy →
               name dx = name dy → x = y;
}.

Record tree_ok (s : ZHeap) (r : option ptr) (T : tree) : Prop := {
  to_root : r = root T;
  to_rep : rep (ztree s) None T;
  to_bal : bal T;
  to_nodup : NoDup (elems T);
  to_data : data_ok (zdata s) (elems T);
  to_sorted : sorted (zdata s) (elems T);
}.

Record zset_ok (s : ZHeap) (z : ZSet) (T : tree) : Prop := {
  zo_tree : tree_ok s (zroot z) T;
  zo_hash : hm_ok (zhash s) (zhmap z) (elems T);
  zo_code : ∀ x d n, x ∈ elems T → zdata s !! x = Some d → zhash s !! x = Some n →
              hash_code n = string_hash (name d);
}.

(** Only the nodes [xs] changed. *)
Definition zframe (xs : list ptr) (s s' : ZHeap) : Prop :=
  ∀ x, x ∉ xs → ztree s' !! x = ztree s !! x ∧ zhash s' !! x = zhash s !! x ∧ zdata s' !! x = zdata s !! x.

(** The members in order: what a set means. *)
Definition members (s : ZHeap) (T : tree) : list ZData := omap (λ x, zdata s !! x) (elems T).

(** ** What the operations leave alone: only [znode_new] writes past a block *)
Lemma keeps_on_tree {A} (m : AVL A) : keeps overruns (on_tree m).
Proof. by apply keeps_zoom. Qed.
Lemma keeps_on_hash {A} (m : HM A) : keeps overruns (on_hash m).
Proof. by apply keeps_zoom. Qed.
Lemma keeps_on_data {A} (m : M (gmap ptr ZData) A) : keeps overruns (on_data m).
Proof. by apply keeps_zoom. Qed.
Lemma keeps_znode_del x : keeps overruns (znode_del x).
Proof. intros s [] s'. unfold znode_del. destruct (zdata s !! x); [|done]. by intros [= <-]. Qed.
#[export] Hint Resolve keeps_on_tree keeps_on_hash keeps_on_data keeps_znode_del : keeps.

Lemma keeps_tree_search fuel : ∀ node at_from par from, keeps overruns (tree_search fuel node at_from par from).
Proof. induction fuel as [|fuel IH]; intros node [p|] par from; cbn [tree_search]; unfold zless_nodes, zless; keep. Qed.
#[export] Hint Resolve keeps_tree_search : keeps.
Lemma keeps_tree_insert z x : keeps overruns (tree_insert z x).
Proof. unfold tree_insert. keep. Qed.
#[export] Hint Resolve keeps_tree_insert : keeps.
Lemma keeps_zset_update z x sc : keeps overruns (zset_update z x sc).
Proof. unfold zset_update. keep. Qed.
Lemma keeps_zset_lookup z nm : keeps overruns (zset_lookup z nm).
Proof. unfold zset_lookup. keep. Qed.
#[export] Hint Resolve keeps_zset_update keeps_zset_lookup : keeps.
Lemma keeps_zset_delete z x : keeps overruns (zset_delete z x).
Proof. unfold zset_delete. keep. Qed.
Lemma keeps_seek_loop fuel : ∀ sc nm node found, keeps overruns (seek_loop fuel sc nm node found).
Proof. induction fuel as [|fuel IH]; intros sc nm [p|] found; cbn [seek_loop]; unfold zless; keep. Qed.
#[export] Hint Resolve keeps_seek_loop : keeps.
Lemma keeps_zset_seek z sc nm : keeps overruns (zset_seek_greater_equal z sc nm).
Proof. unfold zset_seek_greater_equal. keep. Qed.
Lemma keeps_znode_offset x o : keeps overruns (znode_offset x o).
Proof. unfold znode_offset. keep. Qed.
Lemma keeps_tree_dispose fuel : ∀ node, keeps overruns (tree_dispose fuel node).
Proof. induction fuel as [|fuel IH]; intros [p|]; cbn [tree_dispose]; keep. Qed.
#[export] Hint Resolve keeps_tree_dispose : keeps.
Lemma keeps_zset_clear z : keeps overruns (zset_clear z).
Proof. unfold zset_clear. keep. Qed.
#[export] Hint Resolve keeps_zset_delete keeps_zset_seek keeps_znode_offset keeps_zset_clear : keeps.

(** One write past a block for a member that is added, and none for one that is
    updated. *)
Lemma zset_insert_overruns z nm sc s b z' s' :
  zset_insert z nm sc s = Done ((b, z'), s') →
  overruns s' = overruns s ++ (if b then [sizeof_ZNode + blen nm] else []).
Proof.
  unfold zset_insert. intros ([found z1] & s1 & Hl%keeps_zset_lookup & H)%bind_inv. rewrite <-Hl.
  destruct found as [x|]; apply bind_inv in H as (y & s2 & Hy & H).
  - apply ret_inv in H as [= -> -> ->]. rewrite app_nil_r. by eapply keeps_zset_update.
  - injection Hy as <- <-. apply bind_inv in H as (h & s3 & H3%keeps_on_hash & H).
    apply bind_inv in H as (z2 & s4 & H4%keeps_tree_insert & H). apply ret_inv in H as [= -> -> ->].
    rewrite H4, H3. cbn [overruns]. unfold write_at. by rewrite Z.ltb_irrefl.
Qed.

(** ** Running the parts *)
Lemma wp_on_tree {A} (m : AVL A) (Q : A → ZHeap → Prop) s :
  wp m (λ a t, Q a (mkZHeap t (zhash s) (zdata s) (overruns s))) (ztree s) → wp (on_tree m) Q s.
Proof. apply (wp_zoom ztree (λ t s, mkZHeap t (zhash s) (zdata s) (overruns s))). Qed.
Lemma wp_on_hash {A} (m : HM A) (Q : A → ZHeap → Prop) s :
  wp m (λ a h, Q a (mkZHeap (ztree s) h (zdata s) (overruns s))) (zhash s) → wp (on_hash m) Q s.
Proof. apply (wp_zoom zhash (λ h s, mkZHeap (ztree s) h (zdata s) (overruns s))). Qed.
Lemma wp_on_data {A} (m : M (gmap ptr ZData) A) (Q : A → ZHeap → Prop) s :
  wp m (λ a d, Q a (mkZHeap (ztree s) (zhash s) d (overruns s))) (zdata s) → wp (on_data m) Q s.
Proof. apply (wp_zoom zdata (λ d s, mkZHeap (ztree s) (zhash s) d (overruns s))). Qed.
Lemma wp_load_data x d (Q : ZData → ZHeap → Prop) s :
  zdata s !! x = Some d → Q d s → wp (on_data (load x)) Q s.
Proof. intros Hd HQ. apply wp_on_data. eapply wp_load; [done|]. by destruct s. Qed.
Lemma wp_load_tree x n (Q : AVLNode → ZHeap → Prop) s :
  ztree s !! x = Some n → Q n s → wp (on_tree (load x)) Q s.
Proof. intros Hd HQ. apply wp_on_tree. eapply wp_load; [done|]. by destruct s. Qed.
Lemma wp_load_hash x n (Q : HNode → ZHeap → Prop) s :
  zhash s !! x = Some n → Q n s → wp (on_hash (load x)) Q s.
Proof. intros Hd HQ. apply wp_on_hash. eapply wp_load; [done|]. by destruct s. Qed.

(** ** Data of a list of nodes *)
Lemma before_trans zd x y z :
  data_ok zd [x; y; z] → before zd x y → before zd y z → before zd x z.
Proof.
  intros [Hd _] (dx & dy & Hx & Hy & Hxy) (dy' & dz & Hy' & Hz & Hyz).
  assert (dy' = dy) as -> by congruence. exists dx, dz. split_and!; [done..|].
  destruct (Hd x) as (? & ? & ?); [set_solver|]. destruct (Hd y) as (? & ? & ?); [set_solver|].
  destruct (Hd z) as (? & ? & ?); [set_solver|]. simplify_eq. by apply (zlt_trans dx dy dz).
Qed.

Lemma data_ok_sub zd xs ys : (∀ x, x ∈ ys → x ∈ xs) → data_ok zd xs → data_ok zd ys.
Proof. intros Hs [H1 H2]. constructor; eauto. Qed.

Lemma data_ok_frame zd zd' xs : (∀ x, x ∈ xs → zd' !! x = zd !! x) → data_ok zd xs → data_ok zd' xs.
Proof.
  intros Hs [H1 H2]. constructor.
  - intros x Hx. rewrite Hs by done. auto.
  - intros x y dx dy Hx Hy. rewrite !Hs by done. eauto.
Qed.

Lemma sorted_frame zd zd' xs : (∀ x, x ∈ xs → zd' !! x = zd !! x) → sorted zd xs → sorted zd' xs.
Proof.
  intros Hs. unfold sorted. induction 1 as [|x xs Hss IH Hf]; constructor.
  - apply IH. intros y Hy. apply Hs. by right.
  - rewrite Forall_forall in *. intros y Hy. destruct (Hf y Hy) as (dx & dy & Hx & Hy' & Hlt).
    exists dx, dy. rewrite !Hs; [done|by right|by left].
Qed.

Lemma sorted_app zd xs ys :
  sorted zd (xs ++ ys) ↔ sorted zd xs ∧ sorted zd ys ∧ ∀ x y, x ∈ xs → y ∈ ys → before zd x y.
Proof.
  unfold sorted. induction xs as [|x xs IH]; cbn [app].
  - split; [|tauto]. intros H. split_and!; [constructor|done|by intros ?? ?%not_elem_of_nil].
  - split.
    + intros H. inversion H as [|?? Hs Hf]; subst. apply IH in Hs as (? & ? & Hc).
      apply Forall_app in Hf as [? Hf]. split_and!; [by constructor|done|].
      intros y z [->|Hy]%elem_of_cons Hz; [|by apply Hc]. rewrite Forall_forall in Hf. by apply Hf.
    + intros (Hx & ? & Hc). inversion Hx as [|?? Hs Hf]; subst. constructor.
      * apply IH. split_and!; [done..|]. intros y z ??. apply Hc; [by right|done].
      * apply Forall_app. split; [done|]. apply Forall_forall. intros z Hz. apply Hc; [by left|done].
Qed.

#[export] Instance before_dec zd x y : Decision (before zd x y).
Proof.
  unfold before. destruct (zd !! x) as [dx|]; [|right; naive_solver].
  destruct (zd !! y) as [dy|]; [|right; naive_solver].
  destruct (decide (zlt dx dy)); [left; eauto|right; naive_solver].
Defined.

(** Where a new node goes: [less] of the search. *)
Definition goes_left (zd : gmap ptr ZData) (x y : ptr) : bool := bool_decide (before zd x y).

Lemma sorted_insert zd x T :
  data_ok zd (x :: elems T) → x ∉ elems T → sorted zd (elems T) →
  sorted zd (elems (ins (goes_left zd x) x T)).
Proof.
  intros Hd Hx Hs.
  assert (cut_by (goes_left zd x) (elems T)) as Hcut.
  { unfold cut_by, sorted in *. clear Hx. revert Hd. induction Hs as [|y ys _ IH Hf]; intros Hd; constructor.
    - apply IH. eapply data_ok_sub; [|exact Hd]. set_solver.
    - rewrite Forall_forall in *. unfold goes_left. intros z Hz. rewrite !bool_decide_eq_true.
      intros Hxy. eapply before_trans; [|exact Hxy|by apply Hf].
      eapply data_ok_sub; [|exact Hd]. set_solver. }
  destruct (ins_elems _ x T Hcut) as (L & R & HLR & HL & HR & ->). rewrite HLR in *.
  apply sorted_app in Hs as (HsL & HsR & Hc).
  apply sorted_app. split_and!; [done| |].
  - unfold sorted. constructor; [done|]. eapply Forall_impl; [exact HR|].
    intros y. apply bool_decide_eq_true.
  - assert (∀ y, y ∈ L → before zd y x) as HLx.
    { intros y Hy. rewrite Forall_forall in HL. specialize (HL y Hy). apply bool_decide_eq_false in HL.
      destruct Hd as [Hd Hn]. destruct (Hd x) as (dx & Hdx & Hnx); [by left|].
      destruct (Hd y) as (dy & Hdy & Hny); [right; apply elem_of_app; by left|].
      assert (name dy ≠ name dx) as Hne.
      { intros Heq. assert (y = x) as ->; [|apply Hx, elem_of_app; by left].
        eapply (Hn y x dy dx); try done; [right; apply elem_of_app; by left|by left]. }
      destruct (zlt_total dy dx) as [?|?]; [done..| |]; [by exists dy, dx|].
      exfalso. apply HL. by exists dx, dy. }
    intros y z Hy [->|Hz]%elem_of_cons; [by apply HLx|by apply Hc].
Qed.

(** ** The search of [tree_insert] *)
(** The height of a tree is within the size of its store. *)
Lemma height_size σ par t : rep σ par t → NoDup (elems t) → ht t <= Z.of_nat (size σ).
Proof.
  intros Hrep Hnd. pose proof (ht_le_sz t) as Hle. rewrite sz_elems in Hle.
  assert (length (elems t) ≤ size σ)%nat; [|lia]. apply nodup_size; [done|]. intros y. by apply (rep_allocated _ par).
Qed.

Lemma tree_search_spec s x dx t : zdata s !! x = Some dx → ∀ fuel c,
  ht t <= Z.of_nat fuel → rep (ztree s) (caddr c) t →
  (∀ y, y ∈ elems t → is_Some (zdata s !! y)) →
  tree_search fuel x (root t) (caddr c) (slot_of c) s =
  Done ((slot_of (descend (goes_left (zdata s) x) t c),
         caddr (descend (goes_left (zdata s) x) t c)), s).
Proof.
  intros Hdx. induction t as [|l IHl a r IHr]; intros fuel c Hfuel Hrep Hdat.
  { by destruct fuel. }
  destruct Hrep as (Ha & Hl & Hr). cbn [ht] in Hfuel. pose proof (ht_nonneg l). pose proof (ht_nonneg r).
  destruct fuel as [|fuel]; [lia|]. cbn [tree_search root descend].
  destruct (Hdat a) as [da Hda]; [apply elem_node; tauto|].
  assert (zless_nodes x a s = Done (goes_left (zdata s) x a, s)) as Hz.
  { unfold zless_nodes, zless. rewrite (bind_done _ _ _ da s) by (unfold on_data, zoom, load; rewrite Hda; by destruct s).
    rewrite (bind_done _ _ _ dx s) by (unfold on_data, zoom, load; rewrite Hdx; by destruct s).
    unfold mret, M_ret. do 2 f_equal. unfold goes_left.
    destruct (zless_data dx (score da) (name da)) eqn:Hlt; symmetry.
    - apply bool_decide_eq_true. by exists dx, da.
    - apply bool_decide_eq_false. intros (? & ? & ? & ? & Hlt'). simplify_eq. unfold zlt in Hlt'. congruence. }
  rewrite (bind_done _ _ _ _ _ Hz).
  rewrite (bind_done _ _ _ (mkAVLNode (caddr c) (root l) (root r) (ht (Node l a r)) (sz (Node l a r))) s)
    by (unfold on_tree, zoom, load; rewrite Ha; by destruct s).
  cbn [left right]. destruct (goes_left (zdata s) x a).
  - apply (IHl fuel (FL a r :: c)); [lia|done|]. intros y Hy. apply Hdat, elem_node. tauto.
  - apply (IHr fuel (FR l a :: c)); [lia|done|]. intros y Hy. apply Hdat, elem_node. tauto.
Qed.

(** ** [tree_insert] *)

(** A node that is not in the tree yet. *)
Definition loose (s : ZHeap) (x : ptr) : Prop :=
  ∃ n, ztree s !! x = Some n ∧ left n = None ∧ right n = None.

(** The tree store changes at the given nodes only, the rest not at all. *)
Definition tframe (xs : list ptr) (s s' : ZHeap) : Prop :=
  AvlRefine.same_outside xs (ztree s) (ztree s') ∧ zhash s' = zhash s ∧ zdata s' = zdata s.

Lemma tree_insert_lemma s z T x :
  tree_ok s (zroot z) T → x ∉ elems T → loose s x → data_ok (zdata s) (x :: elems T) →
  fits (Node T x Leaf) →
  wp (tree_insert z x) (λ z' s', ∃ T', tree_ok s' (zroot z') T' ∧ zhmap z' = zhmap z ∧
      elems T' ≡ₚ x :: elems T ∧ tframe (x :: elems T) s s') s.
Proof.
  intros [Hroot Hrep Hbal Hnd Hdok Hsort] Hx (n & Hn & Hnl & Hnr) Hdat Hf.
  destruct (do_data _ _ Hdat x) as (dx & Hdx & _); [by left|].
  destruct (descend_facts (goes_left (zdata s) x) x T Hnd Hx Hf) as (Hp & Hnd' & Hf' & Hout).
  unfold tree_insert. rewrite Hroot. apply wp_bind, wp_get, wp_bind.
  eapply wp_done; [apply (tree_search_spec s x dx T Hdx _ []); [|done|]|].
  { by eapply height_size. }
  { intros y Hy. destruct (do_data _ _ Hdok y Hy) as (d & -> & _). eauto. }
  cbn beta iota. apply wp_bind, wp_on_tree.
  set (c := descend (goes_left (zdata s) x) T []) in *.
  eapply wp_mono; [eapply (link_leaf_spec (ztree s) T c x n _
    (λ _ t, rep_stale t (caddr c) Leaf x Leaf ∧ crep t (Some x) c ∧
            AvlRefine.same_outside (x :: elems T) (ztree s) t)); try done; by auto|].
  intros r0 t1 H1. apply wp_bind, wp_on_tree. cbn [ztree zhash zdata].
  eapply wp_mono; [exact H1|]. intros [] t2 (Hst & Hc & Hs2). apply wp_bind, wp_on_tree. cbn [ztree zhash zdata].
  eapply wp_mono; [by eapply avl_fix_tree_lemma|].
  intros res t3 (-> & Hr3 & Hs3). apply wp_ret. cbn [zroot zhmap].
  exists (ins (goes_left (zdata s) x) x T).
  pose proof (ins_elems_perm (goes_left (zdata s) x) x T) as Hperm.
  split_and!; [|done|done|].
  - constructor; cbn [ztree zdata]; [done|done|by apply ins_bal|rewrite Hperm; by constructor| |].
    + eapply data_ok_sub; [|exact Hdat]. intros y. by rewrite Hperm.
    + by apply sorted_insert.
  - split_and!; [|done|done]. cbn [ztree]. intros y Hy. rewrite Hs3 by auto. by apply Hs2.
Qed.

(** ** Removing a node from the tree *)
Lemma tree_delete_lemma s z T x :
  tree_ok s (zroot z) T → x ∈ elems T → fits T →
  wp (avl_delete x) (λ r t', ∃ T', tree_ok (mkZHeap t' (zhash s) (zdata s) (overruns s)) r T' ∧
      elems T ≡ₚ x :: elems T' ∧ AvlRefine.same_outside (elems T) (ztree s) t' ∧ is_Some (t' !! x)) (ztree s).
Proof.
  intros [_ Hrep Hbal Hnd Hdok Hsort] Hx Hf.
  destruct (elem_plug _ _ Hx) as (l & r & c & HT). rewrite HT in *.
  eapply wp_mono; [by apply avl_delete_lemma|]. intros res t' (-> & Hrep' & Hs & Hx').
  pose proof (del_elems l x r c Hnd) as He.
  assert (elems (plug (Node l x r) c) ≡ₚ x :: elems (del l x r c)) as Hperm.
  { rewrite He, elems_plug. cbn [elems]. rewrite <-!app_assoc. cbn [app].
    rewrite <-(Permutation_middle (elems l)). by rewrite <-(Permutation_middle (cleft c)). }
  exists (del l x r c). split_and!; [|done|done|done].
  constructor; cbn [ztree zdata]; [done|done|by apply del_bal| | |].
  - rewrite Hperm in Hnd. by apply NoDup_cons in Hnd as [_ ?].
  - eapply data_ok_sub; [|exact Hdok]. intros y Hy. rewrite Hperm. by right.
  - rewrite He. rewrite elems_plug in Hsort. cbn [elems] in Hsort.
    rewrite <-!app_assoc in Hsort. cbn [app] in Hsort.
    apply sorted_app in Hsort as (H1 & H2 & H3). apply sorted_app in H2 as (H4 & H5 & H6).
    apply sorted_app. split_and!; [done| |].
    + apply sorted_app. inversion H5 as [|??? Hf']; subst. split_and!; [done|done|].
      intros a b Ha Hb. apply H6; [done|by right].
    + intros a b Ha Hb. apply H3; [done|]. apply elem_of_app in Hb as [?|?]; apply elem_of_app; [by left|right; by right].
Qed.

Lemma tree_ok_frame s s' r T :
  (∀ x, x ∈ elems T → ztree s' !! x = ztree s !! x ∧ zdata s' !! x = zdata s !! x) →
  tree_ok s r T → tree_ok s' r T.
Proof.
  intros Hs [? ? ? ? ? ?]. constructor; try done.
  - eapply rep_frame; [|done]. intros x Hx. by apply Hs.
  - eapply data_ok_frame; [|done]. intros x Hx. by apply Hs.
  - eapply sorted_frame; [|done]. intros x Hx. by apply Hs.
Qed.

Lemma zset_ok_frame s s' z T xs :
  zframe xs s s' → disj (elems T) xs → zset_ok s z T → zset_ok s' z T.
Proof.
  intros Hf Hd [Ht Hh Hc].
  assert (∀ x, x ∈ elems T → x ∉ xs) as Hn by (intros x Hx Hx'; by apply (Hd x)).
  constructor.
  - eapply tree_ok_frame; [|done]. intros x Hx. destruct (Hf x) as (? & ? & ?); auto.
  - eapply hm_ok_frame; [|done]. intros x Hx. destruct (Hf x) as (? & ? & ?); auto.
  - intros x d n Hx. destruct (Hf x) as (_ & -> & ->); [by apply Hn|]. eauto.
Qed.

(** ** Lookup *)
Lemma hcmp_spec s nm x d : zdata s !! x = Some d → hcmp s nm x = bool_decide (name d = nm).
Proof.
  intros Hd. unfold hcmp. rewrite Hd. unfold blen.
  destruct (Z.eqb_spec (Z.of_nat (length (name d))) (Z.of_nat (length nm))) as [He|He]; cbn [negb].
  - rewrite memcmp_eq by lia. done.
  - rewrite bool_decide_false; [done|]. intros Heq. by rewrite Heq in He.
Qed.

(** A member is found by its name, and by nothing else. *)
Lemma hmatch_member s z T nm x d :
  zset_ok s z T → x ∈ elems T → zdata s !! x = Some d →
  hmatch (zhash s) (string_hash nm) (hcmp s nm) x = bool_decide (name d = nm).
Proof.
  intros [Ht Hh Hc] Hx Hd. unfold hmatch. destruct (hm_ok_allocated _ _ _ _ Hh Hx) as (n & Hn & _).
  rewrite Hn, (hcmp_spec _ _ _ _ Hd), (Hc x d n) by done.
  case_bool_decide as Hnm; [|by rewrite andb_false_r]. subst. by rewrite Z.eqb_refl.
Qed.

Lemma zset_lookup_lemma s z T nm :
  zset_ok s z T →
  wp (zset_lookup z nm) (λ res s', zset_ok s' res.2 T ∧ zroot res.2 = zroot z ∧
      ztree s' = ztree s ∧ zdata s' = zdata s ∧ hframe (elems T) (zhash s) (zhash s') ∧
      (zroot z = None → s' = s ∧ res.2 = z) ∧ (quiet (zhmap z) → zhmap res.2 = zhmap z) ∧
      match res.1 with
      | Some x => x ∈ elems T ∧ ∃ d, zdata s !! x = Some d ∧ name d = nm
      | None => ∀ x d, x ∈ elems T → zdata s !! x = Some d → name d ≠ nm
      end) s.
Proof.
  intros Hok. pose proof Hok as [Ht Hh Hc]. unfold zset_lookup.
  destruct (zroot z) as [r|] eqn:Hr.
  2: { apply wp_ret. cbn [fst snd]. split_and!; try done. intros x d Hx.
       destruct T; [by apply not_elem_of_nil in Hx|]. by destruct Ht. }
  apply wp_bind, wp_get, wp_bind, wp_on_hash.
  pose proof (hm_lookup_lemma _ _ _ (string_hash nm) (hcmp s nm) Hh (proj1 (string_hash_range nm))) as Hw.
  apply wp_inv in Hw as ([found hm'] & h' & Hrun & Hok' & Hf & Hres). eapply wp_done; [exact Hrun|].
  cbn [fst snd] in *. apply wp_ret. cbn [fst snd zroot ztree zdata zhash].
  split_and!; try done.
  - constructor; cbn [zroot zhmap]; [|done|].
    + by eapply tree_ok_frame; [|exact Ht].
    + cbn [zhash zdata]. intros x d n Hx Hd Hn.
      destruct (hm_ok_allocated _ _ _ _ Hh Hx) as (n0 & Hn0 & _).
      destruct Hf as [_ Hf]. specialize (Hf x). rewrite Hn, Hn0 in Hf. injection Hf as ->. eauto.
  - intros [Ho _]. by eapply hm_lookup_quiet.
  - destruct found as [x|].
    + destruct Hres as [Hx Hm]. split; [done|]. destruct (do_data _ _ (to_data _ _ _ Ht) x Hx) as (d & Hd & _).
      exists d. split; [done|]. rewrite (hmatch_member _ _ _ _ _ d Hok) in Hm by done.
      by apply bool_decide_eq_true in Hm.
    + intros x d Hx Hd. specialize (Hres x Hx). rewrite (hmatch_member _ _ _ _ _ d Hok) in Hres by done.
      by apply bool_decide_eq_false in Hres.
Qed.

(** ** The contents as a map *)

(** What the set stores: the score of each name. *)
Definition zmap (s : ZHeap) (T : tree) : gmap bytes f64 :=
  list_to_map ((λ d, (name d, score d)) <$> members s T).

Lemma elem_of_members s T d : d ∈ members s T ↔ ∃ x, x ∈ elems T ∧ zdata s !! x = Some d.
Proof. unfold members. by rewrite list_elem_of_omap. Qed.

Lemma members_nodup s T : data_ok (zdata s) (elems T) → NoDup (elems T) → NoDup (name <$> members s T).
Proof.
  unfold members. intros Hd Hnd. induction Hnd as [|x xs Hx Hnd IH]; cbn [omap list_omap]; [constructor|].
  destruct (do_data _ _ Hd x) as (d & Hdx & _); [by left|]. rewrite Hdx, fmap_cons.
  constructor; [|apply IH; eapply data_ok_sub; [|exact Hd]; set_solver].
  rewrite list_elem_of_fmap. intros (d' & Hn & (y & Hy & Hdy)%list_elem_of_omap).
  assert (x = y) as <-; [|done]. eapply (do_names _ _ Hd); [by left|by right|done|done|done].
Qed.

Lemma zmap_lookup s T nm sc :
  data_ok (zdata s) (elems T) → NoDup (elems T) →
  zmap s T !! nm = Some sc ↔ ∃ x, x ∈ elems T ∧ zdata s !! x = Some (mkZData sc nm).
Proof.
  intros Hd Hnd. unfold zmap. rewrite <-elem_of_list_to_map.
  - rewrite list_elem_of_fmap. split.
    + intros (d & [= -> ->] & (x & Hx & Hdx)%elem_of_members). exists x. by destruct d.
    + intros (x & Hx & Hdx). exists (mkZData sc nm). split; [done|]. apply elem_of_members. eauto.
  - rewrite <-list_fmap_compose. by apply members_nodup.
Qed.

Lemma zset_names s z T x d : zset_ok s z T → x ∈ elems T → zdata s !! x = Some d →
  zmap s T !! name d = Some (score d).
Proof.
  intros Hok Hx Hd. apply zmap_lookup; [apply Hok|apply Hok|]. exists x. split; [done|].
  rewrite Hd. by destruct d.
Qed.

Lemma zmap_none s z T nm : zset_ok s z T →
  (∀ x d, x ∈ elems T → zdata s !! x = Some d → name d ≠ nm) → zmap s T !! nm = None.
Proof.
  intros Hok Hn. destruct (zmap s T !! nm) as [sc|] eqn:He; [|done].
  apply zmap_lookup in He as (x & Hx & Hd); [|apply Hok..]. by destruct (Hn x _ Hx Hd).
Qed.

(** A member that changes its data, or is new, changes the map at its name. *)
Lemma zmap_update s s' T T' x d :
  data_ok (zdata s) (elems T) → NoDup (elems T) → data_ok (zdata s') (elems T') → NoDup (elems T') →
  (∀ y, y ∈ elems T' ↔ y = x ∨ y ∈ elems T) →
  (∀ y, y ∈ elems T → y ≠ x → zdata s' !! y = zdata s !! y) →
  zdata s' !! x = Some d → (∀ d0, x ∈ elems T → zdata s !! x = Some d0 → name d0 = name d) →
  zmap s' T' = <[name d := score d]> (zmap s T).
Proof.
  intros Hd Hnd Hd' Hnd' Hel Hsame Hx Hold. apply map_eq. intros nm. apply option_eq. intros sc.
  rewrite zmap_lookup by done. destruct (decide (nm = name d)) as [->|Hne].
  - rewrite lookup_insert_eq. split.
    + intros (y & Hy & Hyd). assert (y = x) as ->.
      { eapply (do_names _ _ Hd'); [done|apply Hel; by left|done|done|done]. }
      rewrite Hx in Hyd. injection Hyd as ->. done.
    + intros [= <-]. exists x. split; [apply Hel; by left|]. rewrite Hx. by destruct d.
  - rewrite lookup_insert_ne, zmap_lookup by done. split.
    + intros (y & Hy & Hyd). assert (y ≠ x) by (intros ->; rewrite Hx in Hyd; by injection Hyd as ->).
      apply Hel in Hy as [|Hy]; [done|]. exists y. by rewrite <-Hsame.
    + intros (y & Hy & Hyd). assert (y ≠ x).
      { intros ->. by apply Hne; rewrite <-(Hold _ Hy Hyd). }
      exists y. split; [apply Hel; by right|]. by rewrite Hsame.
Qed.

(** ** Update of a score *)
Lemma data_ok_rescore zd xs ys x d sc :
  data_ok zd xs → (∀ y, y ∈ ys ↔ y ∈ xs) → zd !! x = Some d → isnan sc = false →
  data_ok (<[x := mkZData sc (name d)]> zd) ys.
Proof.
  intros Hdok Hin Hd Hsc. constructor.
  - intros y Hy%Hin. destruct (decide (y = x)) as [->|].
    + eexists. by rewrite lookup_insert_eq.
    + rewrite lookup_insert_ne by done. by apply Hdok.
  - intros a b da db Ha%Hin Hb%Hin Hda Hdb Hn.
    assert (∀ y dy, <[x := mkZData sc (name d)]> zd !! y = Some dy → ∃ dy0, zd !! y = Some dy0 ∧ name dy0 = name dy) as Hnm.
    { intros y dy. destruct (decide (y = x)) as [->|].
      - rewrite lookup_insert_eq. intros [= <-]. by exists d.
      - rewrite lookup_insert_ne by done. eauto. }
    destruct (Hnm _ _ Hda) as (da0 & ? & ?), (Hnm _ _ Hdb) as (db0 & ? & ?).
    eapply (do_names _ _ Hdok a b da0 db0); try done. congruence.
Qed.

Lemma zset_update_lemma s z T x d sc :
  zset_ok s z T → x ∈ elems T → zdata s !! x = Some d → isnan sc = false → fits T →
  wp (zset_update z x sc) (λ z' s', ∃ T', zset_ok s' z' T' ∧ zhmap z' = zhmap z ∧
      elems T' ≡ₚ elems T ∧ zframe (elems T) s s' ∧
      zmap s' T' = if f64_eq (score d) sc then zmap s T else <[name d := sc]> (zmap s T)) s.
Proof.
  intros Hok Hx Hd Hsc Hf. pose proof Hok as [Ht Hh Hc]. unfold zset_update.
  apply wp_bind. eapply wp_load_data; [done|]. destruct (f64_eq (score d) sc) eqn:Heq.
  { apply wp_ret. exists T. split_and!; done. }
  apply wp_bind, wp_on_tree. eapply wp_mono; [by eapply tree_delete_lemma|].
  intros r t1 (T1 & Ht1 & Hperm & Hs1 & [n1 Hn1]). cbn [ztree zhash zdata].
  pose proof (to_nodup _ _ _ Ht) as Hnd. rewrite Hperm in Hnd.
  apply NoDup_cons in Hnd as [Hx1 Hnd1].
  apply wp_bind, wp_on_tree. eapply wp_modify; [done|]. cbn [ztree zhash zdata].
  apply wp_bind, wp_on_data. eapply wp_modify; [done|]. cbn [ztree zhash zdata].
  set (s3 := mkZHeap _ _ _ _). set (d' := mkZData sc (name d)) in *.
  assert (tree_ok s3 r T1) as Ht3.
  { eapply tree_ok_frame; [|exact Ht1]. intros y Hy. unfold s3; cbn [ztree zdata].
    rewrite !lookup_insert_ne by (by intros ->). done. }
  assert (data_ok (zdata s3) (x :: elems T1)) as Hd3.
  { apply (data_ok_rescore _ (elems T)); [apply (to_data _ _ _ Ht)|intros y; by rewrite Hperm|done|done]. }
  eapply wp_mono; [apply (tree_insert_lemma s3 (mkZSet r (zhmap z)) T1 x); try done|].
  { exists avl_init_node. unfold s3; cbn [ztree]. by rewrite lookup_insert_eq. }
  { unfold fits in *. cbn [sz]. rewrite !sz_elems in *. rewrite Hperm in Hf. cbn [length] in Hf. lia. }
  cbn [zhmap]. intros z' s' (T' & Ht' & Hz' & Hperm' & [Hs' [Hh' Hd']]). exists T'.
  assert (elems T' ≡ₚ elems T) as HpT by (by rewrite Hperm', Hperm).
  split_and!; [|done|done| |].
  - constructor; [done| |].
    + rewrite Hz', Hh'. unfold s3; cbn [zhash]. destruct Hh as (csn & cso & Hrep & Hel).
      exists csn, cso. split; [done|]. by rewrite HpT.
    + rewrite Hh', Hd'. unfold s3; cbn [zhash zdata]. intros y dy n Hy Hdy Hn. rewrite HpT in Hy.
      destruct (decide (y = x)) as [->|].
      * rewrite lookup_insert_eq in Hdy. injection Hdy as <-. by apply (Hc x d n).
      * rewrite lookup_insert_ne in Hdy by done. by apply (Hc y dy n).
  - intros y Hy. assert (y ≠ x) by (by intros ->).
    rewrite Hh', Hd'. unfold s3 in *; cbn [ztree zhash zdata] in *. split_and!; [|done|by rewrite lookup_insert_ne].
    rewrite Hs'; [|rewrite Hperm in Hy; done]. rewrite lookup_insert_ne by done. by apply Hs1.
  - change sc with (score d'). change (name d) with (name d').
    apply (zmap_update s s' T T' x); [apply Hok|apply Hok|apply Ht'|apply Ht'| | | |].
    + intros y. rewrite HpT. split; [by right|]. intros [->|]; done.
    + intros y Hy Hne. rewrite Hd'. unfold s3; cbn [zdata]. by rewrite lookup_insert_ne.
    + rewrite Hd'. unfold s3; cbn [zdata]. by rewrite lookup_insert_eq.
    + intros d0 _ Hd0. by simplify_eq.
Qed.

(** ** Insertion *)

(** The invariant of a set of the program: its map never migrated, since the
    insertion that would start a migration fails an assertion. *)
Record zset_inv (s : ZHeap) (z : ZSet) (T : tree) : Prop := {
  zi_ok : zset_ok s z T;
  zi_quiet : quiet (zhmap z);
  zi_size : Z.of_nat (length (elems T)) <= 31;
}.

Lemma zset_inv_fits s z T : zset_inv s z T → fits T.
Proof. intros [_ _ Hs]. unfold fits. rewrite sz_elems. lia. Qed.

Lemma zset_empty_inv s : zset_inv s ZSet_empty Leaf.
Proof.
  constructor; [|done|cbn; lia]. constructor.
  - constructor; [done|done|done|constructor| |constructor].
    constructor; [by intros ? ?%not_elem_of_nil|by intros ???? ?%not_elem_of_nil].
  - apply hm_empty_ok.
  - by intros ??? ?%not_elem_of_nil.
Qed.

Lemma zfresh_fresh s : ztree s !! zfresh s = None ∧ zhash s !! zfresh s = None ∧ zdata s !! zfresh s = None.
Proof. unfold zfresh. split_and!; apply fresh_ptr_fresh; lia. Qed.

Lemma zset_allocated s z T x : zset_ok s z T → x ∈ elems T → x ≠ zfresh s.
Proof.
  intros Hok Hx ->. destruct (do_data _ _ (to_data _ _ _ (zo_tree _ _ _ Hok)) _ Hx) as (d & Hd & _).
  by rewrite (proj2 (proj2 (zfresh_fresh s))) in Hd.
Qed.

Lemma zmap_data s s' T : zdata s' = zdata s → zmap s' T = zmap s T.
Proof. intros H. unfold zmap, members. by rewrite H. Qed.

(** The new member, once it is in the hash map: the tree comes next. *)
Lemma zset_link_new s z T nm sc s1 hm1 :
  zset_ok s z T → isnan sc = false → fits (Node T (zfresh s) Leaf) →
  (∀ x d, x ∈ elems T → zdata s !! x = Some d → name d ≠ nm) →
  ztree s1 = <[zfresh s := avl_init_node]> (ztree s) →
  zdata s1 = <[zfresh s := mkZData sc nm]> (zdata s) →
  hm_ok (zhash s1) hm1 (zfresh s :: elems T) →
  hframe (zfresh s :: elems T) (<[zfresh s := mkHNode None (string_hash nm)]> (zhash s)) (zhash s1) →
  wp (tree_insert (mkZSet (zroot z) hm1) (zfresh s)) (λ z' s', ∃ T', zset_ok s' z' T' ∧
      zhmap z' = hm1 ∧ elems T' ≡ₚ zfresh s :: elems T ∧ zframe (zfresh s :: elems T) s s' ∧
      zmap s' T' = <[nm := sc]> (zmap s T)) s1.
Proof.
  intros Hok Hsc Hf Hnew Et Ed Hh1 Hfr. pose proof Hok as [Ht Hh Hc].
  assert (zfresh s ∉ elems T) as Hx by (intros H; by apply (zset_allocated _ _ _ _ Hok) in H).
  assert (∀ y, y ∈ elems T → y ≠ zfresh s) as Hne by (intros y Hy ->; contradiction).
  assert (data_ok (zdata s1) (zfresh s :: elems T)) as Hd1.
  { rewrite Ed. pose proof (to_data _ _ _ Ht) as [Hd Hn]. constructor.
    - intros y [->|Hy]%elem_of_cons; [rewrite lookup_insert_eq; eauto|].
      rewrite lookup_insert_ne by (apply not_eq_sym; auto). auto.
    - assert (∀ y dy, y ∈ elems T → <[zfresh s:=mkZData sc nm]> (zdata s) !! y = Some dy → zdata s !! y = Some dy) as Hold.
      { intros y dy Hy. rewrite lookup_insert_ne by (apply not_eq_sym; auto). done. }
      intros a b da db [->|Ha]%elem_of_cons [->|Hb]%elem_of_cons; [done|..]; rewrite ?lookup_insert_eq.
      + intros [= <-] Hdb Hnm. exfalso. by apply (Hnew b db Hb); [apply Hold|].
      + intros Hda [= <-] Hnm. exfalso. by apply (Hnew a da Ha); [apply Hold|].
      + intros Hda Hdb. apply Hn; auto. }
  eapply wp_mono; [apply (tree_insert_lemma s1 (mkZSet (zroot z) hm1) T); try done|].
  { eapply tree_ok_frame; [|exact Ht]. intros y Hy. rewrite Et, Ed, !lookup_insert_ne by (apply not_eq_sym; auto). done. }
  { exists avl_init_node. by rewrite Et, lookup_insert_eq. }
  cbn [zhmap]. intros z' s' (T' & Ht' & Hz' & Hperm' & [Hs' [Hh' Hd']]). exists T'.
  split_and!; [|done|done| |].
  - constructor; [done| |].
    + rewrite Hz', Hh'. destruct Hh1 as (csn & cso & Hrep & Hel). exists csn, cso. split; [done|]. by rewrite Hperm'.
    + rewrite Hh', Hd', Ed. intros y dy n Hy Hdy Hn. destruct Hfr as [_ Hcode]. specialize (Hcode y).
      rewrite Hn in Hcode. cbn [fmap option_fmap option_map] in Hcode.
      rewrite Hperm' in Hy. apply elem_of_cons in Hy as [->|Hy].
      * rewrite !lookup_insert_eq in *. injection Hdy as <-. injection Hcode as ->. done.
      * rewrite !lookup_insert_ne in * by (apply not_eq_sym; auto).
        destruct (zhash s !! y) as [n0|] eqn:Hn0; [|done]. injection Hcode as ->. by apply (Hc y dy n0).
  - intros y Hy. pose proof Hy as [Hne' _]%not_elem_of_cons.
    rewrite Hh', Hd', Ed, Hs', Et, !lookup_insert_ne by done. split_and!; [done| |done].
    destruct Hfr as [Hfr _]. rewrite Hfr by done. by rewrite lookup_insert_ne.
  - change sc with (score (mkZData sc nm)) at 1. change nm with (name (mkZData sc nm)) at 1.
    apply (zmap_update s s' T T' (zfresh s)); [apply Hok|apply Hok|apply Ht'|apply Ht'| | | |].
    + intros y. rewrite Hperm'. by rewrite elem_of_cons.
    + intros y Hy Hny. rewrite Hd', Ed. by rewrite lookup_insert_ne.
    + rewrite Hd', Ed. by rewrite lookup_insert_eq.
    + done.
Qed.

Definition unallocated (s : ZHeap) (x : ptr) : Prop :=
  ztree s !! x = None ∧ zhash s !! x = None ∧ zdata s !! x = None.

(** The outcome of [zset_insert], on every branch. *)
Definition insert_result (s : ZHeap) (T : tree) (nm : bytes) (sc : f64) (r : bool * ZSet) (s' : ZHeap) : Prop :=
  ∃ T', zset_inv s' r.2 T' ∧
    match zmap s T !! nm with
    | Some old => r.1 = false ∧ elems T' ≡ₚ elems T ∧ zframe (elems T) s s' ∧
        zmap s' T' = if f64_eq old sc then zmap s T else <[nm := sc]> (zmap s T)
    | None => r.1 = true ∧ zmap s' T' = <[nm := sc]> (zmap s T) ∧
        ∃ x, x ∉ elems T ∧ unallocated s x ∧ elems T' ≡ₚ x :: elems T ∧ zframe (x :: elems T) s s'
    end.

(** The insertion of a name that is not in the set, after the search. *)
Definition insert_new (z : ZSet) (nm : bytes) (sc : f64) : ZM (bool * ZSet) :=
  node ← znode_new nm sc; hmap ← on_hash (hm_insert (zhmap z) node);
  zset ← tree_insert (mkZSet (zroot z) hmap) node; mret (true, zset).

(** The terminator of the name is written past the block. *)
Lemma znode_new_run nm sc s :
  znode_new nm sc s = Done (zfresh s, mkZHeap (<[zfresh s := avl_init_node]> (ztree s))
    (<[zfresh s := mkHNode None (string_hash nm)]> (zhash s)) (<[zfresh s := mkZData sc nm]> (zdata s))
    (overruns s ++ [sizeof_ZNode + blen nm])).
Proof. unfold znode_new, write_at. by rewrite Z.ltb_irrefl. Qed.

Lemma insert_new_lemma s z T nm sc :
  zset_inv s z T → isnan sc = false → (∀ x d, x ∈ elems T → zdata s !! x = Some d → name d ≠ nm) →
  if bool_decide (length (elems T) = 31%nat) then insert_new z nm sc s = AssertFail
  else wp (insert_new z nm sc) (λ r s', r.1 = true ∧ ∃ T', zset_inv s' r.2 T' ∧ elems T' ≡ₚ zfresh s :: elems T ∧
      zframe (zfresh s :: elems T) s s' ∧ zmap s' T' = <[nm := sc]> (zmap s T)) s.
Proof.
  intros Hi Hsc Hnew. pose proof Hi as [Hok Hq Hsize]. set (x := zfresh s).
  assert (x ∉ elems T) as Hx by (intros H; by apply (zset_allocated _ _ _ _ Hok) in H).
  set (s2 := mkZHeap (<[x := avl_init_node]> (ztree s)) (<[x := mkHNode None (string_hash nm)]> (zhash s))
               (<[x := mkZData sc nm]> (zdata s)) (overruns s ++ [sizeof_ZNode + blen nm])).
  assert (hm_ok (zhash s2) (zhmap z) (elems T)) as Hh2.
  { eapply hm_ok_frame; [|apply Hok]. intros y Hy. unfold s2; cbn [zhash].
    rewrite lookup_insert_ne; [done|]. by intros <-. }
  pose proof (quiet_insert (zhash s2) (zhmap z) (elems T) x (mkHNode None (string_hash nm)) Hh2 Hq Hsize Hx
    ltac:(unfold s2; cbn [zhash]; by rewrite lookup_insert_eq) (proj1 (string_hash_range nm))) as Hins.
  destruct (decide (length (elems T) = 31%nat)) as [H31|H31].
  - rewrite bool_decide_true in Hins |- * by done. unfold insert_new.
    rewrite (bind_done _ _ _ x s2) by apply znode_new_run. apply bind_assert_fail. unfold on_hash, zoom. by rewrite Hins.
  - rewrite bool_decide_false in Hins |- * by done. unfold insert_new.
    apply wp_bind. eapply wp_done; [apply znode_new_run|]. fold x s2. apply wp_bind, wp_on_hash.
    eapply wp_mono; [exact Hins|]. intros hm3 h3 (Hok3 & Hq3 & Hf3). cbn [zdata ztree]. apply wp_bind.
    eapply wp_mono; [apply (zset_link_new s z T nm sc)|]; cbn [ztree zhash zdata]; try done.
    + pose proof (zset_inv_fits _ _ _ Hi). unfold fits. cbn [sz]. rewrite sz_elems. lia.
    + intros z4 s4 (T4 & Hok4 & Hz4 & Hp4 & Hf4 & Hm4). apply wp_ret. split; [done|]. exists T4. cbn [snd]. split_and!; try done.
      constructor; [done|by rewrite Hz4|]. rewrite Hp4. cbn [length]. lia.
Qed.

Lemma zset_insert_lemma s z T nm sc :
  zset_inv s z T → isnan sc = false →
  if bool_decide (zmap s T !! nm = None ∧ length (elems T) = 31%nat)
  then zset_insert z nm sc s = AssertFail
  else wp (zset_insert z nm sc) (insert_result s T nm sc) s.
Proof.
  intros Hi Hsc. pose proof Hi as [Hok Hq Hsize]. pose proof (zset_inv_fits _ _ _ Hi) as Hf.
  pose proof (zset_lookup_lemma s z T nm Hok) as Hl.
  apply wp_inv in Hl as ([found z1] & s1 & Hrun & Hok1 & Hr1 & Et & Ed & Hf1 & _ & Hq1 & Hres).
  cbn [fst snd] in *. specialize (Hq1 Hq).
  assert (zset_insert z nm sc s =
    match found with
    | Some node => (zset ← zset_update z1 node sc; mret (false, zset)) s1
    | None => insert_new z1 nm sc s1
    end) as Heq.
  { unfold zset_insert. rewrite (bind_done _ _ _ _ _ Hrun). by destruct found. }
  destruct found as [x|].
  - destruct Hres as (Hx & d & Hd & <-). pose proof (zset_names _ _ _ _ _ Hok Hx Hd) as Hm.
    rewrite bool_decide_false by (intros [H _]; congruence). eapply wp_eq; [exact Heq|].
    apply wp_bind. rewrite <-Ed in Hd. eapply wp_mono; [by eapply zset_update_lemma|].
    intros z2 s2 (T2 & Hok2 & Hz2 & Hp2 & Hf2 & Hm2). apply wp_ret. exists T2. cbn [fst snd].
    rewrite Hm. split; [constructor; [done|by rewrite Hz2, Hq1|by rewrite Hp2]|].
    split_and!; [done|done| |by rewrite (zmap_data s s1) in Hm2].
    intros y Hy. destruct (Hf2 y Hy) as (-> & -> & ->). rewrite Et, Ed. split_and!; [done| |done].
    by apply Hf1.
  - pose proof (zmap_none _ _ _ _ Hok Hres) as Hm. pose proof (zfresh_fresh s1) as (F1 & F2 & F3).
    assert (zset_inv s1 z1 T) as Hi1 by (constructor; [done|by rewrite Hq1|done]).
    pose proof (insert_new_lemma s1 z1 T nm sc Hi1 Hsc) as Hins. rewrite <-Ed in Hres. specialize (Hins Hres).
    destruct (decide (length (elems T) = 31%nat)) as [H31|H31].
    { rewrite bool_decide_true in Hins |- * by done. by rewrite Heq. }
    rewrite bool_decide_false in Hins by done. rewrite bool_decide_false by (by intros [_ ?]).
    eapply wp_eq; [exact Heq|]. eapply wp_mono; [exact Hins|].
    intros [added z4] s4 (Hadd & T4 & Hi4 & Hp4 & Hf4 & Hm4). cbn [fst snd] in *. exists T4.
    rewrite Hm. cbn [fst snd]. rewrite (zmap_data s s1) in Hm4 by done. split_and!; try done.
    exists (zfresh s1). split_and!; [by intros H; apply (zset_allocated _ _ _ _ Hok1) in H| |done|].
    + rewrite Et in F1. rewrite Ed in F3. split_and!; [done| |done].
      destruct Hf1 as [_ Hc1]. specialize (Hc1 (zfresh s1)). rewrite F2 in Hc1. by destruct (zhash s !! zfresh s1).
    + intros y Hy. destruct (Hf4 y Hy) as (-> & -> & ->). rewrite Et, Ed. split_and!; [done| |done].
      apply Hf1. by apply not_elem_of_cons in Hy as [_ ?].
Qed.

(** ** Deletion *)
Lemma hmatch_none s z T nm x : zset_ok s z T → x ∈ elems T →
  hmatch (zhash s) (string_hash nm) (hcmp s nm) x = true → ∃ d, zdata s !! x = Some d ∧ name d = nm.
Proof.
  intros Hok Hx. destruct (do_data _ _ (to_data _ _ _ (zo_tree _ _ _ Hok)) x Hx) as (d & Hd & _).
  rewrite (hmatch_member _ _ _ _ _ d Hok) by done. intros ?%bool_decide_eq_true. eauto.
Qed.

Lemma zmap_delete s s' z T T' x d :
  zset_ok s z T → zdata s !! x = Some d → elems T ≡ₚ x :: elems T' →
  (∀ y, y ∈ elems T' → zdata s' !! y = zdata s !! y) → zmap s' T' = delete (name d) (zmap s T).
Proof.
  intros Hok Hd Hp Hsame. pose proof (to_data _ _ _ (zo_tree _ _ _ Hok)) as Hdok.
  pose proof (to_nodup _ _ _ (zo_tree _ _ _ Hok)) as Hnd.
  assert (data_ok (zdata s) (elems T')) as Hdok'.
  { eapply data_ok_sub; [|exact Hdok]. intros y Hy. rewrite Hp. by right. }
  assert (NoDup (elems T') ∧ x ∉ elems T') as [Hnd' Hx].
  { rewrite Hp in Hnd. by apply NoDup_cons in Hnd as [? ?]. }
  assert (data_ok (zdata s') (elems T')) as Hds by (by eapply data_ok_frame).
  apply map_eq. intros nm. apply option_eq. intros sc. rewrite zmap_lookup by done.
  assert (x ∈ elems T) as HxT by (rewrite Hp; by left).
  destruct (decide (nm = name d)) as [->|Hne].
  - rewrite lookup_delete_eq. split; [|done]. intros (y & Hy & Hyd). rewrite Hsame in Hyd by done.
    assert (y = x) as ->; [|done]. eapply (do_names _ _ Hdok y x); [rewrite Hp; by right|done|done|done|done].
  - rewrite lookup_delete_ne, zmap_lookup by done. split; intros (y & Hy & Hyd); exists y.
    + rewrite <-Hsame by done. split; [|done]. rewrite Hp. by right.
    + rewrite Hp in Hy. apply elem_of_cons in Hy as [->|Hy]; [by simplify_eq|]. by rewrite Hsame.
Qed.

(** The two indexes without the node. *)
Lemma zset_inv_delete s z T T' x r hm' t' h' ys :
  zset_inv s z T → elems T ≡ₚ x :: elems T' → x ∉ elems T' →
  tree_ok (mkZHeap t' (zhash s) (zdata s) (overruns s)) r T' → hframe (elems T) (zhash s) h' → hm_ok h' hm' ys → ys ≡ₚ elems T' → quiet hm' →
  zset_inv (mkZHeap (delete x t') (delete x h') (delete x (zdata s)) (overruns s)) (mkZSet r hm') T'.
Proof.
  intros [[Ht Hh Hc] Hq Hsize] Hp Hx' Ht' Hfr Hok' Hys Hq'.
  assert (∀ y, y ∈ elems T' → x ≠ y) as Hne by (intros y Hy ->; contradiction).
  constructor; cbn [zhmap]; [constructor; cbn [zroot zhmap ztree zhash zdata]|done|].
  - eapply tree_ok_frame; [|exact Ht']. cbn [ztree zdata]. intros y Hy. by rewrite !lookup_delete_ne by auto.
  - apply (hm_ok_frame h'); [intros y Hy; by rewrite lookup_delete_ne by auto|].
    destruct Hok' as (csn & cso & Hrep & Hel). exists csn, cso. split; [done|]. by rewrite <-Hys.
  - intros y dy ny Hy. rewrite !lookup_delete_ne by auto. intros Hdy Hny.
    destruct Hfr as [_ Hcode]. specialize (Hcode y). rewrite Hny in Hcode.
    destruct (zhash s !! y) as [n0|] eqn:Hn0; [|done]. injection Hcode as ->. apply (Hc y dy n0); [|done..].
    rewrite Hp. by right.
  - rewrite Hp in Hsize. cbn [length] in Hsize. lia.
Qed.

Lemma zset_delete_lemma s z T x d :
  zset_inv s z T → x ∈ elems T → zdata s !! x = Some d →
  wp (zset_delete z x) (λ z' s', ∃ T', zset_inv s' z' T' ∧ elems T ≡ₚ x :: elems T' ∧
      zframe (elems T) s s' ∧ unallocated s' x ∧ zmap s' T' = delete (name d) (zmap s T)) s.
Proof.
  intros Hi Hx Hd. pose proof Hi as [Hok Hq Hsize]. pose proof Hok as [Ht Hh Hc].
  destruct (hm_ok_allocated _ _ _ _ Hh Hx) as (n & Hn & _).
  unfold zset_delete. apply wp_bind. eapply wp_load_data; [done|].
  apply wp_bind. eapply wp_load_hash; [done|]. apply wp_bind, wp_get.
  rewrite (Hc x d n) by done.
  pose proof (hm_delete_lemma _ _ _ (string_hash (name d)) (hcmp s (name d)) Hh (proj1 (string_hash_range _))) as Hw.
  apply wp_inv in Hw as ([found hm'] & h' & Hrun & Hfr & Hres). cbn [fst snd] in *.
  apply wp_bind, wp_on_hash. eapply wp_done; [exact Hrun|].
  destruct found as [y|].
  2: { destruct Hres as [Hres _]. specialize (Hres x Hx).
       rewrite (hmatch_member _ _ _ _ _ d Hok), bool_decide_true in Hres by done. done. }
  destruct Hres as (Hm & ys & Hpy & Hok').
  assert (y = x) as ->.
  { assert (y ∈ elems T) as Hy by (rewrite Hpy; by left).
    destruct (hmatch_none _ _ _ _ _ Hok Hy Hm) as (dy & Hdy & Hnm).
    by eapply (do_names _ _ (to_data _ _ _ Ht) y x). }
  cbn beta iota. apply wp_bind, wp_assert; [done|]. cbn [zhash zdata ztree].
  apply wp_bind, wp_on_tree. cbn [zhash zdata ztree].
  eapply wp_mono; [eapply tree_delete_lemma; [done|done|by eapply zset_inv_fits]|].
  intros r t' (T' & Ht' & Hp & Hs' & _). cbn [zhash zdata ztree].
  apply wp_bind. eapply wp_done; [unfold znode_del; cbn [zdata]; by rewrite Hd|]. apply wp_ret.
  exists T'. cbn [ztree zhash zdata].
  assert (x ∉ elems T') as Hx'.
  { pose proof (to_nodup _ _ _ Ht) as Hnd. rewrite Hp in Hnd. by apply NoDup_cons in Hnd as [? ?]. }
  assert (∀ y, y ∈ elems T' → x ≠ y) as Hne by (intros y Hy ->; contradiction).
  assert (∀ y, y ∈ elems T' → y ∈ elems T) as Hsub by (intros y Hy; rewrite Hp; by right).
  rewrite Hp in Hpy. apply Permutation_cons_inv in Hpy.
  split_and!; [|done| | |].
  - by apply (zset_inv_delete s z T T' x r hm' t' h' ys); [..|eapply hm_delete_quiet].
  - intros y Hy. assert (x ≠ y) by (intros ->; contradiction). cbn [ztree zhash zdata].
    rewrite !lookup_delete_ne by done. split_and!; [by apply Hs'|by apply Hfr|done].
  - split_and!; cbn [ztree zhash zdata]; apply lookup_delete_eq.
  - eapply zmap_delete; [done|done|done|]. cbn [zdata]. intros y Hy. by rewrite lookup_delete_ne by auto.
Qed.

(** ** Range queries *)

(** The first node that is not below the key. *)
Definition below (zd : gmap ptr ZData) (sc : f64) (nm : bytes) (x : ptr) : bool :=
  match zd !! x with Some d => zless_data d sc nm | None => false end.
Fixpoint first_from (zd : gmap ptr ZData) (sc : f64) (nm : bytes) (xs : list ptr) : option ptr :=
  match xs with
  | [] => None
  | x :: xs => if below zd sc nm x then first_from zd sc nm xs else Some x
  end.

Lemma first_from_app zd sc nm xs ys :
  first_from zd sc nm (xs ++ ys) =
  match first_from zd sc nm xs with Some x => Some x | None => first_from zd sc nm ys end.
Proof. induction xs as [|x xs IH]; cbn [app first_from]; [done|]. by destruct (below _ _ _ _). Qed.

Lemma first_from_all zd sc nm xs :
  (∀ x, x ∈ xs → below zd sc nm x = true) → first_from zd sc nm xs = None.
Proof.
  induction xs as [|x xs IH]; cbn [first_from]; intros H; [done|]. rewrite H by by left.
  apply IH. intros y Hy. apply H. by right.
Qed.

(** The result splits the order at the key. *)
Lemma first_from_spec zd sc nm xs :
  match first_from zd sc nm xs with
  | Some x => ∃ L R, xs = L ++ x :: R ∧ Forall (λ y, below zd sc nm y = true) L ∧ below zd sc nm x = false
  | None => Forall (λ y, below zd sc nm y = true) xs
  end.
Proof.
  induction xs as [|x xs IH]; cbn [first_from]; [constructor|].
  destruct (below zd sc nm x) eqn:Hb; [|exists [], xs; by split_and!].
  destruct (first_from zd sc nm xs) as [y|].
  - destruct IH as (L & R & -> & HL & Hy). exists (x :: L), R. split_and!; [done|by constructor|done].
  - by constructor.
Qed.

Lemma below_before zd sc nm x y :
  data_ok zd [x; y] → isnan sc = false → before zd x y → below zd sc nm y = true → below zd sc nm x = true.
Proof.
  intros [Hd _] Hsc (dx & dy & Hx & Hy & Hlt). unfold below. rewrite Hx, Hy. intros Hk.
  destruct (Hd x) as (? & ? & ?); [set_solver|]. destruct (Hd y) as (? & ? & ?); [set_solver|]. simplify_eq.
  by apply (zlt_trans dx dy (mkZData sc nm)).
Qed.

Lemma seek_loop_spec s sc nm t : isnan sc = false → ∀ fuel par found,
  ht t <= Z.of_nat fuel → rep (ztree s) par t → data_ok (zdata s) (elems t) →
  sorted (zdata s) (elems t) →
  seek_loop fuel sc nm (root t) found s =
  Done (match first_from (zdata s) sc nm (elems t) with Some x => Some x | None => found end, s).
Proof.
  intros Hsc. induction t as [|l IHl a r IHr]; intros fuel par found Hfuel Hrep Hdok Hs.
  { by destruct fuel. }
  destruct Hrep as (Ha & Hl & Hr). cbn [elems ht] in *. pose proof (ht_nonneg l). pose proof (ht_nonneg r).
  destruct fuel as [|fuel]; [lia|]. cbn [seek_loop root].
  destruct (do_data _ _ Hdok a) as (da & Hda & _); [apply elem_of_app; right; by left|].
  assert (zless a sc nm s = Done (below (zdata s) sc nm a, s)) as Hz.
  { unfold zless, below. rewrite (bind_done _ _ _ da s) by (unfold on_data, zoom, load; rewrite Hda; by destruct s).
    by rewrite Hda. }
  rewrite (bind_done _ _ _ _ _ Hz).
  rewrite (bind_done _ _ _ (mkAVLNode par (root l) (root r) (ht (Node l a r)) (sz (Node l a r))) s)
    by (unfold on_tree, zoom, load; rewrite Ha; by destruct s).
  cbn [left right]. apply sorted_app in Hs as (Hsl & Hsr & Hlr).
  assert (sorted (zdata s) (elems r)) as Hsr' by (by inversion Hsr).
  rewrite first_from_app. cbn [first_from]. destruct (below (zdata s) sc nm a) eqn:Hb.
  - rewrite (IHr fuel (Some a) found); [|lia|done|eapply data_ok_sub; [|exact Hdok]; set_solver|done].
    rewrite (first_from_all _ _ _ (elems l)); [done|]. intros x Hx.
    eapply below_before; [|done|apply (Hlr x a Hx); by left|done].
    eapply data_ok_sub; [|exact Hdok]. intros y. rewrite !elem_of_cons, elem_of_app, elem_of_cons, elem_of_nil.
    intros [->|[->|[]]]; tauto.
  - rewrite (IHl fuel (Some a) (Some a)); [|lia|done|eapply data_ok_sub; [|exact Hdok]; set_solver|done].
    by destruct (first_from _ _ _ (elems l)).
Qed.

Lemma zset_seek_lemma s z T sc nm :
  zset_ok s z T → isnan sc = false →
  zset_seek_greater_equal z sc nm s = Done (first_from (zdata s) sc nm (elems T), s).
Proof.
  intros [[Hr Hrep Hb Hnd Hd Hs] _ _] Hsc. unfold zset_seek_greater_equal.
  rewrite (bind_done _ _ _ s s) by done. rewrite Hr, (seek_loop_spec s sc nm T Hsc _ None); try done.
  - by destruct (first_from _ _ _ _).
  - by eapply height_size.
Qed.

Lemma znode_offset_lemma s z T i x o :
  zset_ok s z T → fits T → elems T !! i = Some x →
  znode_offset (Some x) o s = Done (nth_z (elems T) (Z.of_nat i + i32 o), s).
Proof.
  intros [[Hr Hrep Hb Hnd Hd Hs] _ _] Hf Hi. unfold znode_offset, on_tree, zoom.
  rewrite (avl_offset_lemma (ztree s) T i) by auto with words. by destruct s.
Qed.

(** The position of the key in the order: exactly the members before it are
    below the key. *)
Lemma first_from_rank zd sc nm xs :
  data_ok zd xs → sorted zd xs → isnan sc = false →
  ∃ i, first_from zd sc nm xs = xs !! i ∧
       ∀ j y, xs !! j = Some y → below zd sc nm y = bool_decide (j < i)%nat.
Proof.
  intros Hd Hs Hsc. pose proof (first_from_spec zd sc nm xs) as Hf.
  destruct (first_from zd sc nm xs) as [x|].
  - destruct Hf as (L & R & -> & HL & Hx). exists (length L). rewrite list_lookup_middle by done.
    split; [done|]. apply sorted_app in Hs as (_ & Hs & _). apply StronglySorted_inv in Hs as [_ Hf].
    rewrite Forall_forall in HL, Hf. intros j y Hy. case_bool_decide as Hj.
    + rewrite lookup_app_l in Hy by done. apply HL. by eapply list_elem_of_lookup_2.
    + destruct (below zd sc nm y) eqn:Hb; [|done].
      assert (y ∈ x :: R) as [->|Hin]%elem_of_cons; [|congruence|].
      { rewrite lookup_app_r in Hy by lia. by eapply list_elem_of_lookup_2. }
      rewrite <-Hx. symmetry. eapply below_before; [|done|by apply Hf|done].
      eapply data_ok_sub; [|exact Hd]. set_solver.
  - exists (length xs). rewrite lookup_ge_None_2 by done. split; [done|].
    rewrite Forall_forall in Hf. intros j y Hy. rewrite bool_decide_true by by eapply lookup_lt_Some.
    apply Hf. by eapply list_elem_of_lookup_2.
Qed.

(** ** Destruction *)
Definition zdelete (xs : list ptr) (s s' : ZHeap) : Prop :=
  (∀ x, x ∈ xs → unallocated s' x) ∧ zframe xs s s'.

Lemma tree_dispose_spec t : ∀ fuel s par,
  (length (elems t) ≤ fuel)%nat → rep (ztree s) par t → NoDup (elems t) →
  (∀ x, x ∈ elems t → is_Some (zdata s !! x)) →
  wp (tree_dispose fuel (root t)) (λ _ s', zdelete (elems t) s s') s.
Proof.
  induction t as [|l IHl a r IHr]; intros fuel s par Hfuel Hrep Hnd Hdat.
  { destruct fuel; apply wp_ret; (split; [by intros ? ?%not_elem_of_nil|done]). }
  destruct Hrep as (Ha & Hl & Hr). apply nodup_node in Hnd as (Hndl & Hndr & Hal & Har & Hlr).
  cbn [elems] in Hfuel. rewrite length_app in Hfuel. simpl in Hfuel.
  destruct fuel as [|fuel]; [lia|]. cbn [tree_dispose root].
  apply wp_bind. eapply wp_load_tree; [exact Ha|]. cbn [left].
  apply wp_bind. eapply wp_mono; [apply (IHl fuel s (Some a)); [lia|done|done|]|].
  { intros x Hx. apply Hdat, elem_node. tauto. }
  intros [] s1 [Hdl Hfl]. destruct (Hfl a Hal) as (Ea & _ & Eda).
  apply wp_bind. eapply wp_load_tree; [by rewrite Ea|]. cbn [right].
  assert (∀ x, x ∈ elems r → x ∉ elems l) as Hrl by (intros x Hx Hx'; by apply (Hlr x)).
  apply wp_bind. eapply wp_mono; [apply (IHr fuel s1 (Some a)); [lia| |done|]|].
  { eapply rep_frame; [|exact Hr]. intros x Hx. by apply Hfl, Hrl. }
  { intros x Hx. destruct (Hfl x (Hrl x Hx)) as (_ & _ & ->). apply Hdat, elem_node. tauto. }
  intros [] s2 [Hdr Hfr]. destruct (Hfr a Har) as (_ & _ & Eda2).
  destruct (Hdat a) as [d Hd]; [apply elem_node; tauto|].
  eapply wp_done; [unfold znode_del; rewrite Eda2, Eda, Hd; done|]. split.
  - intros x Hx. unfold unallocated; cbn [ztree zhash zdata].
    destruct (decide (x = a)) as [->|Hne]; [by rewrite !lookup_delete_eq|].
    rewrite !lookup_delete_ne by done. destruct (decide (x ∈ elems r)) as [Hxr|Hxr]; [by apply Hdr|].
    destruct (Hfr x Hxr) as (-> & -> & ->). apply Hdl. apply elem_node in Hx as [?|[?|?]]; done.
  - intros x (Hxl & Hxa & Hxr)%not_elem_node. cbn [ztree zhash zdata]. rewrite !lookup_delete_ne by done.
    destruct (Hfr x Hxr) as (-> & -> & ->). by apply Hfl.
Qed.

Lemma zset_clear_lemma s z T :
  zset_ok s z T → wp (zset_clear z) (λ z' s', z' = ZSet_empty ∧ zdelete (elems T) s s') s.
Proof.
  intros [[Hr Hrep Hb Hnd Hd Hs] _ _]. unfold zset_clear. rewrite Hr.
  apply wp_bind, wp_get, wp_bind. eapply wp_mono; [apply (tree_dispose_spec T _ s None); try done|].
  - apply nodup_size; [done|]. intros y. by apply (rep_allocated _ None).
  - intros x Hx. destruct (do_data _ _ Hd x Hx) as (d & Hdx & _). eauto.
  - intros [] s' Hz. by apply wp_ret.
Qed.
