(* ===== verification/ZSetProps.v ===== *)
(** The properties of the sorted set (storage/sorted_set.cpp).  A set means
    the map [zmap] from names to scores and the list [members] in order; every
    operation keeps the two indexes in agreement ([zset_inv]). *)
From Stdlib Require Import Strings.String.
From S2P Require Import Prelude Bytes NetIO Common AvlTree AvlModel AvlRefine Hashtable.
From S2P Require Import HashtableProofs SortedSet ZOrder SortedSetProofs.

Open Scope list_scope.

(** ** Instances: a set built by insertions *)
Fixpoint zset_add_all (z : ZSet) (ms : list (bytes * f64)) : ZM ZSet :=
  match ms with
  | [] => mret z
  | (nm, sc) :: ms => '(_, z) ← zset_insert z nm sc; zset_add_all z ms
  end.

Lemma zset_add_all_inv ms : ∀ s z T z' s',
  zset_inv s z T → forallb (λ m : bytes * f64, negb (isnan m.2)) ms = true →
  zset_add_all z ms s = Done (z', s') → ∃ T', zset_inv s' z' T'.
Proof.
  induction ms as [|[nm sc] ms IH]; intros s z T z' s' Hi Hall; cbn [zset_add_all].
  { intros [= <- <-]. by exists T. }
  cbn [forallb snd] in Hall. apply andb_true_iff in Hall as [Hsc Hall].
  intros ([a z1] & s1 & Hrun & Hrest)%bind_inv.
  pose proof (zset_insert_lemma s z T nm sc Hi ltac:(by destruct (isnan sc))) as Hins.
  case_bool_decide; [congruence|]. eapply wp_elim in Hins; [|exact Hrun].
  destruct Hins as (T1 & Hi1 & _). by eapply IH.
Qed.

(** 1.0, 2.0 and a set of three members, two of them with the same score. *)
Definition one : f64 := Z.shiftl 1023 52.
Definition two : f64 := Z.shiftl 1024 52.
Definition trio : outcome (ZSet * ZHeap) :=
  zset_add_all ZSet_empty [(str "b", one); (str "c", two); (str "a", two)] (mkZHeap ∅ ∅ ∅ []).
Definition trio_set : ZSet := match trio with Done (z, _) => z | _ => ZSet_empty end.
Definition trio_heap : ZHeap := match trio with Done (_, s) => s | _ => mkZHeap ∅ ∅ ∅ [] end.

Lemma trio_inv : ∃ T, zset_inv trio_heap trio_set T.
Proof.
  eapply (zset_add_all_inv [(str "b", one); (str "c", two); (str "a", two)] (mkZHeap ∅ ∅ ∅ []) ZSet_empty Leaf).
  - apply zset_empty_inv.
  - vm_compute. reflexivity.
  - vm_compute. reflexivity.
Qed.

(** * Properties *)

(** C17: searches are logarithmic: in a set with [n] members the height [h] that
    the root stores has 2^(h/2) <= n + 1, so h is at most 64 while the count fits in
    its 32 bits; and the loops that search the tree, for a query and for the place
    of a new node, end within [h] steps with the result they have without a bound. *)
Theorem zset_search_logarithmic s z T sc nm :
  zset_ok s z T → isnan sc = false → Z.of_nat (length (elems T)) + 2 < 2 ^ 32 →
  ∃ h, avl_height (zroot z) (ztree s) = Done (h, ztree s) ∧
    avl_cnt (zroot z) (ztree s) = Done (Z.of_nat (length (elems T)), ztree s) ∧
    0 <= h <= 64 ∧ 2 ^ (h / 2) <= Z.of_nat (length (elems T)) + 1 ∧
    (∃ found, seek_loop (Z.to_nat h) sc nm (zroot z) None s = Done (found, s) ∧
       zset_seek_greater_equal z sc nm s = Done (found, s)) ∧
    ∀ x, is_Some (zdata s !! x) →
      ∃ place, tree_search (Z.to_nat h) x (zroot z) None SlotVar s = Done (place, s) ∧
        tree_search (size (ztree s)) x (zroot z) None SlotVar s = Done (place, s).
Proof.
  intros Hok Hsc Hn. pose proof (zo_tree _ _ _ Hok) as [Hroot Hrep Hbal Hnd Hdat Hsort].
  pose proof (bal_height T Hbal) as Hh. pose proof (ht_nonneg T). rewrite sz_elems in Hh.
  assert (ht T <= 64) as H64.
  { destruct (Z.le_gt_cases (ht T) 64) as [|Hgt]; [done|].
    assert (2 ^ 32 <= 2 ^ (ht T / 2)); [|lia]. apply Z.pow_le_mono_r; [lia|]. apply Z.div_le_lower_bound; lia. }
  exists (ht T). rewrite Hroot. split_and!; [by eapply run_height|rewrite <-sz_elems; by eapply run_cnt|done|done|done| |].
  - pose proof (zset_seek_lemma s z T sc nm Hok Hsc) as Hseek.
    exists (first_from (zdata s) sc nm (elems T)). split; [|done].
    rewrite (seek_loop_spec s sc nm T Hsc _ None) by (done || lia). by destruct (first_from _ _ _ _).
  - intros x [dx Hdx]. eexists. split.
    + apply (tree_search_spec s x dx T Hdx _ []); [lia|done|]. intros y Hy. destruct (do_data _ _ Hdat y Hy) as (d & -> & _). eauto.
    + apply (tree_search_spec s x dx T Hdx _ []); [by eapply height_size|done|].
      intros y Hy. destruct (do_data _ _ Hdat y Hy) as (d & -> & _). eauto.
Qed.

Lemma zset_search_logarithmic_witness :
  ∃ T h found, zset_ok trio_heap trio_set T ∧ avl_height (zroot trio_set) (ztree trio_heap) = Done (h, ztree trio_heap) ∧
    2 ^ (h / 2) <= Z.of_nat (length (elems T)) + 1 ∧
    seek_loop (Z.to_nat h) two (str "b") (zroot trio_set) None trio_heap = Done (found, trio_heap).
Proof.
  destruct trio_inv as [T HT].
  assert (Hn : Z.of_nat (length (elems T)) + 2 < 2 ^ 32) by (pose proof (zi_size _ _ _ HT); lia).
  destruct (zset_search_logarithmic trio_heap trio_set T two (str "b") (zi_ok _ _ _ HT) eq_refl Hn)
    as (h & Hh & _ & _ & Hb & (found & Hf & _) & _).
  exists T, h, found. split; [exact (zi_ok _ _ _ HT)|]. split; [exact Hh|]. split; [exact Hb|exact Hf].
Defined.

(** The comparison of zless is the strict lexicographic order of score and
    name on members whose scores are numbers: irreflexive, transitive and
    total on different names. *)
Theorem zless_total_order a b c :
  number a → number b → number c →
  (zlt a b ↔ f64_key (score a) < f64_key (score b) ∨
             f64_key (score a) = f64_key (score b) ∧ bytes_lt (name a) (name b) = true) ∧
  ¬ zlt a a ∧ (zlt a b → zlt b c → zlt a c) ∧ (name a ≠ name b → zlt a b ∨ zlt b a).
Proof.
  intros Ha Hb Hc. split; [by apply zlt_iff|]. split; [by apply zlt_irrefl|]. split; [by apply zlt_trans|by apply zlt_total].
Qed.

Lemma zless_total_order_witness : zlt (mkZData two (str "a")) (mkZData two (str "b")).
Proof.
  apply (zless_total_order (mkZData two (str "a")) (mkZData two (str "ab")) (mkZData two (str "b")));
    vm_compute; reflexivity.
Defined.

(** [zset_lookup] finds the member of a name, if there is one, and leaves the
    contents of the set unchanged. *)
Theorem zset_lookup_correct s z T nm :
  zset_ok s z T →
  wp (zset_lookup z nm) (λ res s', zset_ok s' res.2 T ∧ zmap s' T = zmap s T ∧
      match res.1 with
      | Some x => x ∈ elems T ∧ ∃ sc, zdata s' !! x = Some (mkZData sc nm) ∧ zmap s T !! nm = Some sc
      | None => zmap s T !! nm = None
      end) s.
Proof.
  intros Hok. eapply wp_mono; [by apply zset_lookup_lemma|].
  intros [[x|] z'] s'; cbn [fst snd]; intros (Hok' & _ & _ & Hd & _ & _ & _ & Hres);
    (split; [exact Hok'|]; split; [unfold zmap, members; by rewrite Hd|]).
  - destruct Hres as (Hx & [sc nm'] & Hdx & <-). split; [done|]. exists sc. rewrite Hd.
    split; [done|]. by apply (zset_names s z T x _ Hok Hx Hdx).
  - by apply (zmap_none s z T).
Qed.

Lemma zset_lookup_correct_witness :
  ∃ T, wp (zset_lookup trio_set (str "c")) (λ res s', zset_ok s' res.2 T ∧ zmap s' T = zmap trio_heap T) trio_heap.
Proof.
  destruct trio_inv as [T HT]. exists T.
  eapply wp_mono; [apply (zset_lookup_correct trio_heap trio_set T (str "c")), HT|].
  by intros res s' (? & ? & _).
Defined.

(** C38: zset_insert adds a member or updates the score of the existing one
    (an equal score is kept), both indexes together, and touches no other
    object; with 31 members it hits the failing assertion of the hash map. A
    member that is added costs one write past the end of its block (the
    terminator of its name, at the offset that is the size of the block), an
    update none; what it does to the memory there is not modelled. *)
Theorem zset_insert_correct s z T nm sc :
  zset_inv s z T → isnan sc = false →
  if bool_decide (zmap s T !! nm = None ∧ length (elems T) = 31%nat)
  then zset_insert z nm sc s = AssertFail
  else wp (zset_insert z nm sc) (λ r s', insert_result s T nm sc r s' ∧
         overruns s' = overruns s ++ match zmap s T !! nm with None => [sizeof_ZNode + blen nm] | Some _ => [] end) s.
Proof.
  intros Hi Hsc. pose proof (zset_insert_lemma s z T nm sc Hi Hsc) as H. case_bool_decide; [done|].
  apply wp_inv in H as ([b z'] & s' & Hrun & Hres). eapply wp_done; [exact Hrun|]. split; [done|].
  rewrite (zset_insert_overruns _ _ _ _ _ _ _ Hrun). destruct Hres as (T' & _ & Hr). cbn [fst] in Hr.
  by destruct (zmap s T !! nm); destruct Hr as [-> _].
Qed.

Lemma zset_insert_correct_witness :
  ∃ T, if bool_decide (zmap trio_heap T !! str "a" = None ∧ length (elems T) = 31%nat)
       then zset_insert trio_set (str "a") one trio_heap = AssertFail
       else wp (zset_insert trio_set (str "a") one) (λ r s', insert_result trio_heap T (str "a") one r s' ∧
         overruns s' = overruns trio_heap ++ match zmap trio_heap T !! str "a" with None => [sizeof_ZNode + blen (str "a")] | Some _ => [] end) trio_heap.
Proof.
  destruct trio_inv as [T HT]. exists T. exact (zset_insert_correct trio_heap trio_set T (str "a") one HT eq_refl).
Defined.

(** C39: zset_delete takes the node out of both indexes, frees it, and keeps
    every other member. *)
Theorem zset_delete_correct s z T x d :
  zset_inv s z T → x ∈ elems T → zdata s !! x = Some d →
  wp (zset_delete z x) (λ z' s', ∃ T', zset_inv s' z' T' ∧ elems T ≡ₚ x :: elems T' ∧
      zframe (elems T) s s' ∧ unallocated s' x ∧ zmap s' T' = delete (name d) (zmap s T)) s.
Proof. apply zset_delete_lemma. Qed.

Lemma zset_delete_correct_witness :
  ∃ T x d, x ∈ elems T ∧ zdata trio_heap !! x = Some d ∧
    wp (zset_delete trio_set x) (λ z' s', ∃ T', zset_inv s' z' T' ∧ zmap s' T' = delete (name d) (zmap trio_heap T))
      trio_heap.
Proof.
  destruct trio_inv as [T HT]. destruct T as [|l a r].
  { pose proof (to_root _ _ _ (zo_tree _ _ _ (zi_ok _ _ _ HT))) as Hr. vm_compute in Hr. discriminate Hr. }
  assert (a ∈ elems (Node l a r)) as Ha by (apply elem_node; tauto).
  destruct (do_data _ _ (to_data _ _ _ (zo_tree _ _ _ (zi_ok _ _ _ HT))) a Ha) as (d & Hd & _).
  exists (Node l a r), a, d. split; [exact Ha|]. split; [exact Hd|].
  eapply wp_mono; [apply (zset_delete_correct trio_heap trio_set _ a d HT Ha Hd)|].
  intros z' s' (T' & ? & _ & _ & _ & ?). exists T'. by split.
Defined.

(** C40: zset_seek_greater_equal returns the member at the position of the key
    in the order: exactly the members before that position are below the
    key; null stands for the end. *)
Theorem zset_seek_correct s z T sc nm :
  zset_ok s z T → isnan sc = false →
  ∃ i, zset_seek_greater_equal z sc nm s = Done (elems T !! i, s) ∧
       ∀ j y, elems T !! j = Some y → below (zdata s) sc nm y = bool_decide (j < i)%nat.
Proof.
  intros Hok Hsc. rewrite zset_seek_lemma with (T := T) by done.
  destruct (first_from_rank (zdata s) sc nm (elems T)) as (i & -> & Hi); [apply Hok..|done|]. by exists i.
Qed.

Lemma zset_seek_correct_witness :
  ∃ T i, zset_seek_greater_equal trio_set two [] trio_heap = Done (elems T !! i, trio_heap).
Proof.
  destruct trio_inv as [T HT]. exists T.
  destruct (zset_seek_correct trio_heap trio_set T two [] (zi_ok _ _ _ HT) ltac:(vm_compute; reflexivity)) as (i & Hi & _).
  exists i. exact Hi.
Defined.

(** [znode_offset] moves in the order of the set by the offset as an int32_t,
    null past either end: an offset beyond 32 bits is cut down to them. *)
Theorem znode_offset_correct s z T i x o :
  zset_ok s z T → fits T → elems T !! i = Some x →
  znode_offset (Some x) o s = Done (nth_z (elems T) (Z.of_nat i + i32 o), s).
Proof. apply znode_offset_lemma. Qed.

Lemma znode_offset_correct_witness :
  ∃ T x, elems T !! 0%nat = Some x ∧
    znode_offset (Some x) (2 ^ 32 + 1) trio_heap = Done (nth_z (elems T) 1, trio_heap).
Proof.
  destruct trio_inv as [T HT]. destruct (elems T) as [|x xs] eqn:He.
  { destruct T as [|l a r]; [|cbn in He; destruct (elems l); discriminate He].
    pose proof (to_root _ _ _ (zo_tree _ _ _ (zi_ok _ _ _ HT))) as Hr. vm_compute in Hr. discriminate Hr. }
  exists T, x. split; [by rewrite He|].
  apply (znode_offset_correct trio_heap trio_set T 0 x (2 ^ 32 + 1) (zi_ok _ _ _ HT) (zset_inv_fits _ _ _ HT)).
  by rewrite He.
Defined.

(** [zset_clear] frees every member, and nothing else, and leaves the empty
    set. *)
Theorem zset_clear_correct s z T :
  zset_ok s z T → wp (zset_clear z) (λ z' s', z' = ZSet_empty ∧ zdelete (elems T) s s') s.
Proof. apply zset_clear_lemma. Qed.

Lemma zset_clear_correct_witness :
  ∃ T, wp (zset_clear trio_set) (λ z' s', z' = ZSet_empty ∧ zdelete (elems T) trio_heap s') trio_heap.
Proof.
  destruct trio_inv as [T HT]. exists T. apply (zset_clear_correct trio_heap trio_set T (zi_ok _ _ _ HT)).
Defined.
