(* ===== verification/Commands.v ===== *)
(** The key space and the request handlers of storage/commands.{h,cpp}, with
    the sorted-set handlers of storage/sorted_set.cpp.  An [Entry] embeds a
    hash node and the [heap_idx] that its heap item points back to; as for the
    members of a sorted set, each part of an entry is kept in a store of its
    own under the entry's address.  [now] is what [get_current_time_ms]
    answers during the request. *)
From Stdlib Require Import Strings.String.
From S2P Require Import Prelude Bytes Serialize Protocol NetIO Common AvlTree Hashtable Heap.
From S2P Require Import SortedSet.

Open Scope list_scope.

(** [enum ValueType] *)
Definition TYPE_INIT : Z := 0.
Definition TYPE_STR : Z := 1.
Definition TYPE_ZSET : Z := 2.

Record Entry := mkEntry {
  key : bytes;
  type : Z;
  value : bytes;
  zset : ZSet;
}.
Definition set_value (v : bytes) (e : Entry) : Entry := mkEntry (key e) (type e) v (zset e).
Definition set_zset (z : ZSet) (e : Entry) : Entry := mkEntry (key e) (type e) (value e) z.

(** The part of [struct ServerData] behind the commands: the hash map and the
    hash nodes of the entries, the entries, the heap with their [heap_idx], the
    nodes of all sorted sets, and the entries queued for deletion by the
    thread pool. *)
Record ServerData := mkServerData {
  db : HMap;
  db_nodes : hstore;
  entries : gmap ptr Entry;
  heap : HeapState;
  zheap : ZHeap;
  pool : list ptr;
}.
Abbreviation SM := (M ServerData).

Definition server_init : ServerData :=
  mkServerData HMap_empty ∅ ∅ (mkHeapState [] ∅) (mkZHeap ∅ ∅ ∅ []) [].

Definition on_nodes {A} : HM A → SM A :=
  zoom db_nodes (λ n s, mkServerData (db s) n (entries s) (heap s) (zheap s) (pool s)).
Definition on_entries {A} : M (gmap ptr Entry) A → SM A :=
  zoom entries (λ e s, mkServerData (db s) (db_nodes s) e (heap s) (zheap s) (pool s)).
Definition on_heap {A} : HP A → SM A :=
  zoom heap (λ h s, mkServerData (db s) (db_nodes s) (entries s) h (zheap s) (pool s)).
Definition on_zheap {A} : ZM A → SM A :=
  zoom zheap (λ z s, mkServerData (db s) (db_nodes s) (entries s) (heap s) z (pool s)).
Definition set_db (d : HMap) : SM () := λ s,
  Done ((), mkServerData d (db_nodes s) (entries s) (heap s) (zheap s) (pool s)).
Definition set_pool (p : list ptr) : SM () := λ s,
  Done ((), mkServerData (db s) (db_nodes s) (entries s) (heap s) (zheap s) p).

(** [cmd[i]] *)
Definition arg (cmd : list bytes) (i : nat) : SM bytes := deref (cmd !! i).

(** The callback [entry_equals] (and [entry_key_equals]). *)
Definition entry_equals (s : ServerData) (k : bytes) (node : ptr) : bool :=
  match entries s !! node with Some e => bool_decide (key e = k) | None => false end.

(** [hm_lookup(&server_data.db, &key.node, &entry_equals)] and
    [hm_delete(...)], the map updated in place. *)
Definition db_lookup (k : bytes) : SM (option ptr) :=
  s ← get_state;
  '(node, d) ← on_nodes (hm_lookup (db s) (string_hash k) (entry_equals s k));
  set_db d;; mret node.
Definition db_delete (hc : Z) (eq : ServerData → ptr → bool) : SM (option ptr) :=
  s ← get_state;
  '(node, d) ← on_nodes (hm_delete (db s) hc (eq s));
  set_db d;; mret node.
Definition db_insert (node : ptr) : SM () :=
  s ← get_state;
  d ← on_nodes (hm_insert (db s) node);
  set_db d.

(** [new Entry()] with its key, type, value and hash code set. *)
Definition entry_fresh (s : ServerData) : ptr :=
  Pos.max (fresh_ptr (db_nodes s)) (Pos.max (fresh_ptr (entries s)) (fresh_ptr (idx (heap s)))).
Definition entry_new (ty : Z) (k v : bytes) (hc : Z) : SM ptr := λ s,
  let e := entry_fresh s in
  Done (e, mkServerData (db s) (<[e := mkHNode None hc]> (db_nodes s))
             (<[e := mkEntry k ty v ZSet_empty]> (entries s))
             (mkHeapState (items (heap s)) (<[e := size_max]> (idx (heap s))))
             (zheap s) (pool s)).
(** [delete entry] *)
Definition entry_free (e : ptr) : SM () := λ s,
  match entries s !! e with
  | Some _ =>
      Done ((), mkServerData (db s) (delete e (db_nodes s)) (delete e (entries s))
                  (mkHeapState (items (heap s)) (delete e (idx (heap s)))) (zheap s) (pool s))
  | None => Undefined
  end.

(** [entry->heap_idx], read and written. *)
Definition get_heap_idx (e : ptr) : SM Z := s ← get_state; deref (idx (heap s) !! e).
Definition set_heap_idx (e : ptr) (i : Z) : SM () := on_heap (set_ref e i).

Section now.
Context (now : Z).

Definition entry_set_ttl (entry : ptr) (ttl_ms : Z) : SM () :=
  heap_idx ← get_heap_idx entry;
  if (ttl_ms <? 0) && negb (heap_idx =? size_max) then
    on_heap (heap_delete heap_idx);;
    set_heap_idx entry size_max
  else if ttl_ms >=? 0 then
    let expires_at := u64 (now + u64 ttl_ms) in
    on_heap (heap_upsert heap_idx (mkHeapItem expires_at entry))
  else mret ().

Definition entry_del_sync (entry : ptr) : SM () :=
  e ← on_entries (load entry);
  (if type e =? TYPE_ZSET then
     z ← on_zheap (zset_clear (zset e));
     on_entries (modify entry (set_zset z))
   else mret ());;
  entry_free entry.

Definition entry_del_worker (arg : ptr) : SM () := entry_del_sync arg.

Definition k_large_container_size : Z := 1000.

Definition entry_del (entry : ptr) : SM () :=
  entry_set_ttl entry (-1);;
  e ← on_entries (load entry);
  let sz := if type e =? TYPE_ZSET then hm_size (zhmap (zset e)) else 0 in
  if sz >? k_large_container_size then s ← get_state; set_pool (pool s ++ [entry])
  else entry_del_sync entry.

(** A worker of the thread pool takes the first job and runs it. *)
Definition pool_work : SM () :=
  s ← get_state;
  match pool s with
  | [] => mret ()
  | e :: rest => set_pool rest;; entry_del_worker e
  end.

Definition set_key (cmd : list bytes) (resp : bytes) : SM bytes :=
  k ← arg cmd 1;
  v ← arg cmd 2;
  node ← db_lookup k;
  (match node with
   | Some node => on_entries (modify node (set_value v))
   | None => e ← entry_new TYPE_INIT k v (string_hash k); db_insert e
   end);;
  mret (out_nil resp).

Definition get_key (cmd : list bytes) (resp : bytes) : SM bytes :=
  k ← arg cmd 1;
  node ← db_lookup k;
  match node with
  | None => mret (out_nil resp)
  | Some node =>
      e ← on_entries (load node);
      assert_ (blen (value e) <=? k_max_msg);;
      mret (out_str resp (value e))
  end.

Definition del_key (cmd : list bytes) (resp : bytes) : SM bytes :=
  k ← arg cmd 1;
  node ← db_delete (string_hash k) (λ s, entry_equals s k);
  (match node with Some node => entry_del node | None => mret () end);;
  mret (out_int resp (match node with Some _ => 1 | None => 0 end)).

Definition set_ttl_ms (cmd : list bytes) (out : bytes) : SM bytes :=
  a ← arg cmd 2;
  match str2int a with
  | (false, _) => mret (out_err out ERR_BAD_ARG (str "expect int"))
  | (true, ttl_ms) =>
      k ← arg cmd 1;
      node ← db_lookup k;
      (match node with Some entry => entry_set_ttl entry ttl_ms | None => mret () end);;
      mret (out_int out (match node with Some _ => 1 | None => 0 end))
  end.

Definition get_ttl_ms (cmd : list bytes) (out : bytes) : SM bytes :=
  k ← arg cmd 1;
  node ← db_lookup k;
  match node with
  | None => mret (out_int out (-2))
  | Some entry =>
      heap_idx ← get_heap_idx entry;
      if heap_idx =? size_max then mret (out_int out (-1))
      else
        it ← on_heap (heap_get heap_idx);
        let expires_at := val it in
        mret (out_int out (i64 (if expires_at >? now then u64 (expires_at - now) else 0)))
  end.

(** [cb_keys], reading the entry of the node. *)
Definition cb_keys (s : ServerData) (node : ptr) (resp : bytes) : bool * bytes :=
  match entries s !! node with
  | Some entry => (true, out_str resp (key entry ++ str " : " ++ value entry))
  | None => (true, resp)
  end.
Definition all_keys (resp : bytes) : SM bytes :=
  s ← get_state;
  let resp := out_arr resp (u32 (hm_size (db s))) in
  on_nodes (hm_foreach (cb_keys s) (db s) resp).

(** * Sorted-set commands *)

(** A [ZSet *]: the set of an entry, or [k_empty_zset]. *)
Inductive zset_ref := ZEmpty | ZOf (entry : ptr).
Definition zset_get (r : zset_ref) : SM ZSet :=
  match r with
  | ZEmpty => mret ZSet_empty
  | ZOf e => e ← on_entries (load e); mret (zset e)
  end.
(** [k_empty_zset] is [const]: a write to it would be undefined. *)
Definition zset_put (r : zset_ref) (z : ZSet) : SM () :=
  match r with
  | ZEmpty => if decide (z = ZSet_empty) then mret () else undefined
  | ZOf e => on_entries (modify e (set_zset z))
  end.

Definition expect_zset (s : bytes) : SM (option zset_ref) :=
  hnode ← db_lookup s;
  match hnode with
  | None => mret (Some ZEmpty)
  | Some ent =>
      e ← on_entries (load ent);
      mret (if type e =? TYPE_ZSET then Some (ZOf ent) else None)
  end.

Definition zcmd_add (cmd : list bytes) (resp : bytes) : SM bytes :=
  a ← arg cmd 2;
  match str2dbl a with
  | (false, _) => mret (out_err resp ERR_BAD_ARG (str "expect float"))
  | (true, sc) =>
      k ← arg cmd 1;
      hnode ← db_lookup k;
      ent ← (match hnode with
             | None => e ← entry_new TYPE_ZSET k [] (string_hash k); db_insert e;; mret (Some e)
             | Some n =>
                 e ← on_entries (load n);
                 mret (if negb (type e =? TYPE_ZSET) then None else Some n)
             end);
      match ent with
      | None => mret (out_err resp ERR_BAD_TYP (str "expect zset"))
      | Some ent =>
          nm ← arg cmd 3;
          e ← on_entries (load ent);
          '(added, z) ← on_zheap (zset_insert (zset e) nm sc);
          on_entries (modify ent (set_zset z));;
          mret (out_int resp (if added : bool then 1 else 0))
      end
  end.

Definition zcmd_remove (cmd : list bytes) (resp : bytes) : SM bytes :=
  k ← arg cmd 1;
  r ← expect_zset k;
  match r with
  | None => mret (out_err resp ERR_BAD_TYP (str "expect zset"))
  | Some r =>
      nm ← arg cmd 2;
      z ← zset_get r;
      '(znode, z) ← on_zheap (zset_lookup z nm);
      z ← (match znode with
           | Some znode => on_zheap (zset_delete z znode)
           | None => mret z
           end);
      zset_put r z;;
      mret (out_int resp (match znode with Some _ => 1 | None => 0 end))
  end.

Definition zcmd_score (cmd : list bytes) (resp : bytes) : SM bytes :=
  k ← arg cmd 1;
  r ← expect_zset k;
  match r with
  | None => mret (out_err resp ERR_BAD_TYP (str "expect zset"))
  | Some r =>
      nm ← arg cmd 2;
      z ← zset_get r;
      '(znode, z) ← on_zheap (zset_lookup z nm);
      zset_put r z;;
      match znode with
      | Some znode => d ← on_zheap (on_data (load znode)); mret (out_dbl resp (score d))
      | None => mret (out_nil resp)
      end
  end.

(** [for (iter = znode; iter && n < limit; iter = znode_offset(iter, +1)) n += 2] *)
Fixpoint query_count (fuel : nat) (iter : option ptr) (n limit : Z) : ZM Z :=
  match iter with
  | Some node =>
      if n <? limit then
        match fuel with
        | O => out_of_fuel
        | S fuel => next ← znode_offset (Some node) 1; query_count fuel next (u64 (n + 2)) limit
        end
      else mret n
  | None => mret n
  end.
(** [for (i = 0; i < n / 2 && znode; ++i)], [todo] iterations at most. *)
Fixpoint query_output (todo : nat) (znode : option ptr) (resp : bytes) : ZM bytes :=
  match todo, znode with
  | S todo, Some node =>
      d ← on_data (load node);
      let resp := out_dbl (out_str resp (name d)) (score d) in
      next ← znode_offset (Some node) 1;
      query_output todo next resp
  | _, _ => mret resp
  end.

Definition zcmd_query (cmd : list bytes) (resp : bytes) : SM bytes :=
  a ← arg cmd 2;
  match str2dbl a with
  | (false, _) => mret (out_err resp ERR_BAD_ARG (str "expect fp number"))
  | (true, sc) =>
      nm ← arg cmd 3;
      a4 ← arg cmd 4;
      a5 ← arg cmd 5;
      match str2int a4, str2int a5 with
      | (true, offset), (true, limit) =>
          k ← arg cmd 1;
          r ← expect_zset k;
          match r with
          | None => mret (out_err resp ERR_BAD_TYP (str "expect zset"))
          | Some r =>
              if limit <=? 0 then mret (out_arr resp 0)
              else
                z ← zset_get r;
                znode ← on_zheap (zset_seek_greater_equal z sc nm);
                match znode with
                | None => mret (out_arr resp 0)
                | Some znode =>
                    znode ← on_zheap (znode_offset (Some znode) offset);
                    match znode with
                    | None => mret (out_arr resp 0)
                    | Some znode =>
                        s ← get_state;
                        n ← on_zheap (query_count (S (size (ztree (zheap s)))) (Some znode) 0 limit);
                        let resp := out_arr resp (u32 n) in
                        on_zheap (query_output (Z.to_nat (n / 2)) (Some znode) resp)
                    end
                end
          end
      | _, _ => mret (out_err resp ERR_BAD_ARG (str "expect int"))
      end
  end.

Definition is_cmd (cmd : list bytes) (n : nat) (w : string) : bool :=
  bool_decide (length cmd = n) && bool_decide (cmd !! 0%nat = Some (str w)).

Definition run_request (cmd : list bytes) (resp : bytes) : SM bytes :=
  if is_cmd cmd 1 "ping" then mret (out_str resp (str "pong"))
  else if is_cmd cmd 2 "get" then get_key cmd resp
  else if is_cmd cmd 3 "set" then set_key cmd resp
  else if is_cmd cmd 2 "del" then del_key cmd resp
  else if is_cmd cmd 1 "keys" then all_keys resp
  else if is_cmd cmd 4 "zadd" then zcmd_add cmd resp
  else if is_cmd cmd 3 "zrem" then zcmd_remove cmd resp
  else if is_cmd cmd 3 "zscore" then zcmd_score cmd resp
  else if is_cmd cmd 6 "zquery" then zcmd_query cmd resp
  else if is_cmd cmd 2 "pttl" then get_ttl_ms cmd resp
  else if is_cmd cmd 3 "pexpire" then set_ttl_ms cmd resp
  else mret (out_err resp ERR_UNKNOWN (str "unknown command")).
End now.
