(* ===== verification/Overruns.v ===== *)
(** The writes past the end of a block ([overruns] of SortedSet.v) through the
    operations of the server on its store: only the ZADD that adds a member
    makes one, at the terminator of the member's name. *)
From Stdlib Require Import Strings.String.
From S2P Require Import Prelude Bytes Serialize Protocol NetIO Common AvlTree Hashtable Heap.
From S2P Require Import SortedSet SortedSetProofs Commands.

Open Scope list_scope.

(** The overruns of a state. *)
Definition past (s : ServerData) : list Z := overruns (zheap s).

(** ** The operations without one *)
Lemma keeps_on_nodes {A} (m : HM A) : keeps past (on_nodes m).
Proof. by apply keeps_zoom. Qed.
Lemma keeps_on_entries {A} (m : M (gmap ptr Entry) A) : keeps past (on_entries m).
Proof. by apply keeps_zoom. Qed.
Lemma keeps_on_heap {A} (m : HP A) : keeps past (on_heap m).
Proof. by apply keeps_zoom. Qed.
Lemma keeps_on_zheap {A} (m : ZM A) : keeps overruns m → keeps past (on_zheap m).
Proof. by apply keeps_zoom_in. Qed.
Lemma keeps_set_db d : keeps past (set_db d).
Proof. by intros s a s' [= _ <-]. Qed.
Lemma keeps_set_pool p : keeps past (set_pool p).
Proof. by intros s a s' [= _ <-]. Qed.
Lemma keeps_entry_new ty k v hc : keeps past (entry_new ty k v hc).
Proof. by intros s a s' [= _ <-]. Qed.
Lemma keeps_entry_free e : keeps past (entry_free e).
Proof. intros s a s'. unfold entry_free. destruct (entries s !! e); [by intros [= _ <-]|done]. Qed.
Lemma keeps_arg cmd i : keeps past (arg cmd i).
Proof. apply keeps_deref. Qed.
#[export] Hint Resolve keeps_on_nodes keeps_on_entries keeps_on_heap keeps_on_zheap keeps_set_db keeps_set_pool
  keeps_entry_new keeps_entry_free keeps_arg : keeps.

Lemma keeps_db_lookup k : keeps past (db_lookup k).
Proof. unfold db_lookup. keep. Qed.
Lemma keeps_db_delete hc eq : keeps past (db_delete hc eq).
Proof. unfold db_delete. keep. Qed.
Lemma keeps_db_insert x : keeps past (db_insert x).
Proof. unfold db_insert. keep. Qed.
Lemma keeps_get_heap_idx e : keeps past (get_heap_idx e).
Proof. unfold get_heap_idx. keep. Qed.
Lemma keeps_set_heap_idx e i : keeps past (set_heap_idx e i).
Proof. unfold set_heap_idx. keep. Qed.
#[export] Hint Resolve keeps_db_lookup keeps_db_delete keeps_db_insert keeps_get_heap_idx keeps_set_heap_idx : keeps.

Lemma keeps_entry_set_ttl now e ttl : keeps past (entry_set_ttl now e ttl).
Proof. unfold entry_set_ttl. keep. Qed.
Lemma keeps_entry_del_sync e : keeps past (entry_del_sync e).
Proof. unfold entry_del_sync. keep. Qed.
#[export] Hint Resolve keeps_entry_set_ttl keeps_entry_del_sync : keeps.
Lemma keeps_entry_del now e : keeps past (entry_del now e).
Proof. unfold entry_del. keep. Qed.
Lemma keeps_expect_zset k : keeps past (expect_zset k).
Proof. unfold expect_zset. keep. Qed.
Lemma keeps_zset_get r : keeps past (zset_get r).
Proof. unfold zset_get. keep. Qed.
Lemma keeps_zset_put r z : keeps past (zset_put r z).
Proof. unfold zset_put. keep. Qed.
Lemma keeps_query_count fuel : ∀ iter n limit, keeps overruns (query_count fuel iter n limit).
Proof. induction fuel; intros; cbn [query_count]; keep. Qed.
Lemma keeps_query_output todo : ∀ x resp, keeps overruns (query_output todo x resp).
Proof. induction todo; intros; cbn [query_output]; keep. Qed.
#[export] Hint Resolve keeps_entry_del keeps_expect_zset keeps_zset_get keeps_zset_put keeps_query_count
  keeps_query_output : keeps.

(** ** The requests *)

(** What a request that adds a member writes past its block. *)
Definition terminator (cmd : list bytes) : list Z :=
  match cmd !! 3%nat with
  | Some nm => if is_cmd cmd 4 "zadd" then [sizeof_ZNode + blen nm] else []
  | None => []
  end.

Lemma out_err_not_one code msg : out_err [] code msg ≠ out_int [] 1.
Proof. by intros [=]. Qed.

(** A ZADD writes past a block if and only if it answers that it added a member. *)
Lemma zcmd_add_past k b nm s d s' :
  zcmd_add [str "zadd"; k; b; nm] [] s = Done (d, s') →
  past s' = past s ++ if bool_decide (d = out_int [] 1) then [sizeof_ZNode + blen nm] else [].
Proof.
  assert (∀ code msg, past s ++ (if bool_decide (out_err [] code msg = out_int [] 1) then [sizeof_ZNode + blen nm] else []) =
    past s) as Herr.
  { intros. rewrite bool_decide_eq_false_2 by apply out_err_not_one. apply app_nil_r. }
  unfold zcmd_add. intros (a & s1 & [_ ->]%deref_inv & H)%bind_inv. destruct (str2dbl a) as [[] sc].
  2: { apply ret_inv in H as [= -> ->]. by rewrite Herr. }
  apply bind_inv in H as (k' & s1 & [_ ->]%deref_inv & H).
  apply bind_inv in H as (hn & s1 & Hl%keeps_db_lookup & H). apply bind_inv in H as (ent & s2 & Hent & H).
  assert (past s2 = past s1) as H2.
  { refine ((_ : keeps past (match hn with None => _ | Some n => _ end)) s1 _ _ Hent). keep. }
  rewrite <-Hl, <-H2 in *. clear Hl H2 Hent. destruct ent as [x|].
  2: { apply ret_inv in H as [= -> ->]. by rewrite Herr. }
  apply bind_inv in H as (nm' & s3 & [[= <-] ->]%deref_inv & H).
  apply bind_inv in H as (e & s3 & He%keeps_on_entries & H).
  apply bind_inv in H as ([added z] & s4 & Hz & H). unfold on_zheap, zoom in Hz.
  destruct (zset_insert _ _ _ _) as [[[added' z'] h]| | |] eqn:Hi; [|done..]. injection Hz as -> -> <-.
  apply zset_insert_overruns in Hi. apply bind_inv in H as ([] & s5 & H5%keeps_on_entries & H).
  apply ret_inv in H as [= -> ->]. rewrite H5. unfold past in *. cbn [zheap]. rewrite Hi, He. by destruct added.
Qed.

(** No other request does. *)
Lemma run_request_keeps now cmd resp : is_cmd cmd 4 "zadd" = false → keeps past (run_request now cmd resp).
Proof.
  intros Hz. unfold run_request. rewrite Hz. unfold get_key, set_key, del_key, all_keys, zcmd_remove, zcmd_score,
    zcmd_query, get_ttl_ms, set_ttl_ms. keep.
Qed.

Lemma run_request_past now cmd s d s' :
  run_request now cmd [] s = Done (d, s') →
  past s' = past s ++ if bool_decide (d = out_int [] 1) then terminator cmd else [].
Proof.
  destruct (is_cmd cmd 4 "zadd") eqn:Hz.
  - pose proof Hz as Hz'. unfold is_cmd in Hz. apply andb_true_iff in Hz as [Hl%bool_decide_eq_true Hc%bool_decide_eq_true].
    destruct cmd as [|c [|k [|b [|nm [|]]]]]; try done. injection Hc as ->. unfold terminator. rewrite Hz'. cbn [lookup list_lookup].
    apply zcmd_add_past.
  - intros Hr%run_request_keeps; [|done]. rewrite Hr. unfold terminator. rewrite Hz.
    destruct (cmd !! 3%nat), (bool_decide _); by rewrite app_nil_r.
Qed.

(** ** A sequence of requests, as they are received *)
Definition terminators (reqs : list bytes) : list Z :=
  concat ((λ req, match parse_request req [] with (rv, cmd) => if rv <? 0 then [] else terminator cmd end) <$> reqs).

(** The writes past a block from [s] to [s'] are some of those of [reqs], in order:
    each ZADD makes at most the one of its member. *)
Definition past_by (reqs : list bytes) (s s' : ServerData) : Prop :=
  ∃ l, past s' = past s ++ l ∧ l `sublist_of` terminators reqs.

Lemma past_by_eq s s' : past s' = past s → past_by [] s s'.
Proof. intros H. exists []. by rewrite app_nil_r. Qed.
Lemma past_by_app reqs reqs' s s' s'' : past_by reqs s s' → past_by reqs' s' s'' → past_by (reqs ++ reqs') s s''.
Proof.
  intros (l & Hl & Hs) (l' & Hl' & Hs'). exists (l ++ l'). rewrite Hl', Hl, app_assoc. split; [done|].
  unfold terminators. rewrite fmap_app, concat_app. by apply sublist_app.
Qed.
Lemma past_by_request now req cmd rv s d s' :
  parse_request req [] = (rv, cmd) → (rv <? 0) = false → run_request now cmd [] s = Done (d, s') → past_by [req] s s'.
Proof.
  intros Hp Hrv Hr%run_request_past. eexists. split; [exact Hr|]. unfold terminators. cbn [fmap list_fmap concat].
  rewrite Hp, Hrv, app_nil_r. destruct (bool_decide _); [done|apply sublist_nil_l].
Qed.
