(* ===== verification/KeySpace.v ===== *)
(** The key space as a map: what a state of the server means ([abs]), when it
    is well formed ([server_ok]), and the lemmas on single entries that the
    proofs of the commands share. *)
From stdpp Require Import functions.
From S2P Require Import Prelude Bytes Serialize Protocol NetIO Common AvlTree AvlModel AvlRefine.
From S2P Require Import Hashtable HashtableProofs Heap HeapProofs SortedSet ZOrder SortedSetProofs.
From S2P Require Import Commands.

(** * Meaning *)

(** What a key is bound to: its string, its sorted set if it has one (an entry
    that was created as a sorted set and then set has both), and when it
    expires. *)
Record AEntry := mkAEntry {
  a_value : bytes;
  a_set : option (gmap bytes f64);
  a_expiry : option Z;
}.
Abbreviation keyspace := (gmap bytes AEntry).

(** The expiration times that the heap holds, by owner. *)
Definition ttls (h : HeapState) : gmap ptr Z := list_to_map ((λ it, (ref it, val it)) <$> items h).

Definition contents (s : ServerData) (T : tree) (x : ptr) (e : Entry) : AEntry :=
  mkAEntry (value e) (if type e =? TYPE_ZSET then Some (zmap (zheap s) T) else None) (ttls (heap s) !! x).
Definition binding (s : ServerData) (F : ptr → tree) (x : ptr) : option (bytes * AEntry) :=
  e ← entries s !! x; Some (key e, contents s (F x) x e).

(** The map of the entries [xs], of which [F] gives the trees. *)
Definition abs (s : ServerData) (F : ptr → tree) (xs : list ptr) : keyspace :=
  list_to_map (omap (binding s F) xs).

(** * Well-formed states *)

(** The heap schedules entries of [xs] only, and every entry knows its place
    in it. *)
Record ttl_ok (h : HeapState) (xs : list ptr) : Prop := {
  tk_heap : heap_ok h;
  tk_refs : ∀ it, it ∈ items h → ref it ∈ xs;
  tk_index : ∀ x, x ∈ xs → is_Some (idx h !! x) ∧ (ttls h !! x = None → idx h !! x = Some size_max);
}.

Definition entry_ok (s : ServerData) (T : tree) (x : ptr) : Prop :=
  ∃ e, entries s !! x = Some e ∧ zset_inv (zheap s) (zset e) T ∧
    (type e = TYPE_ZSET ∨ type e = TYPE_INIT ∧ T = Leaf) ∧
    blen (value e) <= k_max_msg ∧
    hash_code <$> db_nodes s !! x = Some (string_hash (key e)).

Definition key_of (s : ServerData) (x : ptr) : option bytes := key <$> entries s !! x.

(** Everything but the hash map of the key space; [xs] are all the entries,
    and their trees hold all the members: nothing is leaked. *)
Record parts_ok (s : ServerData) (xs : list ptr) (F : ptr → tree) : Prop := {
  po_nodup : NoDup xs;
  po_size : Z.of_nat (length xs) <= 31;
  po_keys : NoDup (key_of s <$> xs);
  po_entries : ∀ x, x ∈ xs → entry_ok s (F x) x;
  po_ttl : ttl_ok (heap s) xs;
  po_disj : ∀ x y, x ∈ xs → y ∈ xs → x ≠ y → disj (elems (F x)) (elems (F y));
  po_dom : ∀ x, is_Some (entries s !! x) → x ∈ xs;
  po_members : ∀ a, is_Some (zdata (zheap s) !! a) → ∃ x, x ∈ xs ∧ a ∈ elems (F x);
  po_pool : pool s = [];
}.

Record server_ok (s : ServerData) (xs : list ptr) (F : ptr → tree) : Prop := {
  so_db : hm_ok (db_nodes s) (db s) xs;
  so_quiet : quiet (db s);
  so_parts : parts_ok s xs F;
}.

(** The state [s] of the server implements the key space [a]. *)
Definition models (s : ServerData) (a : keyspace) : Prop :=
  ∃ xs F, server_ok s xs F ∧ abs s F xs = a.

Lemma ttl_ok_perm h xs ys : xs ≡ₚ ys → ttl_ok h xs → ttl_ok h ys.
Proof.
  intros Hp [? Hr Hi]. constructor; [done| |].
  - intros it. rewrite <-Hp. apply Hr.
  - intros x. rewrite <-Hp. apply Hi.
Qed.

Lemma parts_ok_perm s xs ys F : xs ≡ₚ ys → parts_ok s xs F → parts_ok s ys F.
Proof.
  intros Hp [Hnd Hl Hk He Ht Hd Hdom Hm Hpool]. constructor; try done.
  - by rewrite <-Hp.
  - by rewrite <-Hp.
  - by rewrite <-Hp.
  - intros x. rewrite <-Hp. apply He.
  - by eapply ttl_ok_perm.
  - intros x y. rewrite <-Hp. apply Hd.
  - intros x. rewrite <-Hp. apply Hdom.
  - intros a. setoid_rewrite <-Hp. apply Hm.
Qed.

Lemma server_ok_perm s xs ys F : xs ≡ₚ ys → server_ok s xs F → server_ok s ys F.
Proof.
  intros Hp [? ? ?]. constructor; [by rewrite <-Hp|done|by eapply parts_ok_perm].
Qed.

(** * The map of a list of entries *)
Lemma binding_key s F x k v : binding s F x = Some (k, v) → key_of s x = Some k.
Proof. unfold binding, key_of. destruct (entries s !! x); cbn; [by intros [= -> _]|done]. Qed.

Lemma bindings_keys s F (xs : list ptr) :
  (λ p : bytes * AEntry, Some p.1) <$> omap (binding s F) xs = filter is_Some (key_of s <$> xs).
Proof.
  induction xs as [|x xs IH]; [done|]. rewrite fmap_cons. cbn [omap list_omap].
  unfold binding at 1, key_of at 1. destruct (entries s !! x) as [e|]; cbn [mbind option_bind fmap option_fmap option_map].
  - rewrite filter_cons_True by eauto. rewrite fmap_cons. by rewrite IH.
  - rewrite filter_cons_False; [done|]. by intros [? [=]].
Qed.

Lemma bindings_nodup s F (xs : list ptr) : NoDup (key_of s <$> xs) → NoDup (omap (binding s F) xs).*1.
Proof.
  intros Hnd. apply (NoDup_fmap_1 Some). rewrite <-list_fmap_compose.
  change (NoDup ((λ p : bytes * AEntry, Some p.1) <$> omap (binding s F) xs)).
  rewrite bindings_keys. by apply NoDup_filter.
Qed.

Lemma abs_perm s F xs ys : NoDup (key_of s <$> xs) → xs ≡ₚ ys → abs s F xs = abs s F ys.
Proof.
  intros Hnd Hp. unfold abs. apply list_to_map_proper; [by apply bindings_nodup|by rewrite Hp].
Qed.

Lemma abs_frame s s' F F' xs :
  (∀ x, x ∈ xs → binding s' F' x = binding s F x) → abs s' F' xs = abs s F xs.
Proof.
  intros H. unfold abs. f_equal. by apply omap_ext_elem.
Qed.

(** One entry in front. *)
Lemma abs_cons s F x xs k v :
  binding s F x = Some (k, v) → abs s F (x :: xs) = <[k := v]> (abs s F xs).
Proof. intros H. unfold abs. cbn [omap list_omap]. by rewrite H. Qed.

Lemma abs_absent s F x xs k v :
  NoDup (key_of s <$> x :: xs) → binding s F x = Some (k, v) → abs s F xs !! k = None.
Proof.
  rewrite fmap_cons. intros Hnd Hb. apply not_elem_of_list_to_map_1. intros Hin.
  apply binding_key in Hb. apply NoDup_cons in Hnd as [Hx _]. apply Hx. rewrite Hb.
  apply list_elem_of_fmap in Hin as ([k' v'] & -> & (y & Hy & Hyb)%list_elem_of_omap).
  apply list_elem_of_fmap. exists y. split; [|done]. by apply binding_key in Hyb.
Qed.

Lemma abs_lookup s F xs k v :
  NoDup (key_of s <$> xs) → abs s F xs !! k = Some v ↔ ∃ x, x ∈ xs ∧ binding s F x = Some (k, v).
Proof.
  intros Hnd. unfold abs. rewrite <-elem_of_list_to_map by by apply bindings_nodup.
  by rewrite list_elem_of_omap.
Qed.

Lemma abs_none s F xs k :
  (∀ x e, x ∈ xs → entries s !! x = Some e → key e ≠ k) → abs s F xs !! k = None.
Proof.
  intros H. apply not_elem_of_list_to_map_1. intros Hin.
  apply list_elem_of_fmap in Hin as ([k' v'] & -> & (x & Hx & Hb)%list_elem_of_omap).
  unfold binding in Hb. destruct (entries s !! x) as [e|] eqn:He; [|done]. injection Hb as <- _. by apply (H x e).
Qed.

Lemma bindings_length s F (xs : list ptr) :
  (∀ x, x ∈ xs → is_Some (entries s !! x)) → length (omap (binding s F) xs) = length xs.
Proof.
  induction xs as [|x xs IH]; intros H; [done|]. cbn [omap list_omap].
  destruct (H x) as [e He]; [by left|]. unfold binding at 1. rewrite He. cbn. f_equal. apply IH.
  intros y Hy. apply H. by right.
Qed.

Lemma abs_size s xs F : parts_ok s xs F → size (abs s F xs) = length xs.
Proof.
  intros Hp. unfold abs. rewrite <-(bindings_length s F).
  - rewrite map_size_list_to_map; [done|]. by apply bindings_nodup, Hp.
  - intros x Hx. destruct (po_entries _ _ _ Hp x Hx) as (e & -> & _). eauto.
Qed.

(** An entry of the list in front. *)
Lemma parts_focus s xs F x e :
  parts_ok s xs F → x ∈ xs → entries s !! x = Some e →
  ∃ ys, xs ≡ₚ x :: ys ∧ parts_ok s (x :: ys) F ∧
    abs s F xs = <[key e := contents s (F x) x e]> (abs s F ys) ∧ abs s F ys !! key e = None.
Proof.
  intros Hp [ys Hys]%elem_of_Permutation He. exists ys.
  assert (binding s F x = Some (key e, contents s (F x) x e)) as Hb by (unfold binding; by rewrite He).
  pose proof (parts_ok_perm _ _ _ _ Hys Hp) as Hp'. split_and!; [done|done| |].
  - rewrite (abs_perm _ _ _ _ (po_keys _ _ _ Hp) Hys). by apply abs_cons.
  - eapply abs_absent; [|done]. apply Hp'.
Qed.

Lemma server_focus s xs F x e :
  server_ok s xs F → x ∈ xs → entries s !! x = Some e →
  ∃ ys, server_ok s (x :: ys) F ∧ abs s F xs = abs s F (x :: ys) ∧
    abs s F xs = <[key e := contents s (F x) x e]> (abs s F ys) ∧ abs s F ys !! key e = None.
Proof.
  intros Hok Hx He. destruct (parts_focus s xs F x e (so_parts _ _ _ Hok) Hx He) as (ys & Hp & _ & Ha & Hn).
  exists ys. split_and!; [by eapply server_ok_perm| |done|done].
  apply abs_perm; [apply Hok|done].
Qed.

(** ** Expiration times *)
Lemma ttls_nodup h : heap_ok h → NoDup (((λ it, (ref it, val it)) <$> items h).*1).
Proof. intros Hok. rewrite <-list_fmap_compose. by apply (heap_ok_nodup h). Qed.

Lemma ttls_lookup h x t : heap_ok h → ttls h !! x = Some t ↔ mkHeapItem t x ∈ items h.
Proof.
  intros Hok. unfold ttls. rewrite <-elem_of_list_to_map by by apply ttls_nodup.
  rewrite list_elem_of_fmap. split.
  - intros ([t' x'] & [= -> ->] & H). done.
  - intros H. by exists (mkHeapItem t x).
Qed.

Lemma ttls_none h x : ttls h !! x = None ↔ x ∉ ref <$> items h.
Proof.
  unfold ttls. split.
  - intros H Hin. apply not_elem_of_list_to_map_2 in H. apply H. by rewrite <-list_fmap_compose.
  - intros H. apply not_elem_of_list_to_map_1. by rewrite <-list_fmap_compose.
Qed.

Lemma ttls_perm h h' : heap_ok h → items h ≡ₚ items h' → ttls h = ttls h'.
Proof. intros Hok Hp. unfold ttls. apply list_to_map_proper; [by apply ttls_nodup|by rewrite Hp]. Qed.
