(* ===== verification/EntryOps.v ===== *)
(** The operations on one entry: lookup by key, the TTL, change of the entry,
    creation and deletion.  Each lemma says what the operation does to the key
    space that the state means. *)
From stdpp Require Import functions.
From S2P Require Import Prelude Bytes Serialize Protocol NetIO Common AvlTree AvlModel AvlRefine.
From S2P Require Import Hashtable HashtableProofs Heap HeapProofs SortedSet ZOrder SortedSetProofs.
From S2P Require Import Commands KeySpace.

(** * Running the parts *)
Lemma wp_on_nodes {A} (m : HM A) (Q : A → ServerData → Prop) s :
  wp m (λ a n, Q a (mkServerData (db s) n (entries s) (heap s) (zheap s) (pool s))) (db_nodes s) →
  wp (on_nodes m) Q s.
Proof. apply (wp_zoom db_nodes (λ n s, mkServerData (db s) n (entries s) (heap s) (zheap s) (pool s))). Qed.
Lemma wp_on_entries {A} (m : M (gmap ptr Entry) A) (Q : A → ServerData → Prop) s :
  wp m (λ a e, Q a (mkServerData (db s) (db_nodes s) e (heap s) (zheap s) (pool s))) (entries s) →
  wp (on_entries m) Q s.
Proof. apply (wp_zoom entries (λ e s, mkServerData (db s) (db_nodes s) e (heap s) (zheap s) (pool s))). Qed.
Lemma wp_on_heap {A} (m : HP A) (Q : A → ServerData → Prop) s :
  wp m (λ a h, Q a (mkServerData (db s) (db_nodes s) (entries s) h (zheap s) (pool s))) (heap s) →
  wp (on_heap m) Q s.
Proof. apply (wp_zoom heap (λ h s, mkServerData (db s) (db_nodes s) (entries s) h (zheap s) (pool s))). Qed.
Lemma wp_on_zheap {A} (m : ZM A) (Q : A → ServerData → Prop) s :
  wp m (λ a z, Q a (mkServerData (db s) (db_nodes s) (entries s) (heap s) z (pool s))) (zheap s) →
  wp (on_zheap m) Q s.
Proof. apply (wp_zoom zheap (λ z s, mkServerData (db s) (db_nodes s) (entries s) (heap s) z (pool s))). Qed.

Lemma load_entry s x e : entries s !! x = Some e → on_entries (load x) s = Done (e, s).
Proof. intros He. unfold on_entries, zoom, load. rewrite He. by destruct s. Qed.
Lemma modify_entry s x e f : entries s !! x = Some e →
  on_entries (modify x f) s =
  Done ((), mkServerData (db s) (db_nodes s) (<[x := f e]> (entries s)) (heap s) (zheap s) (pool s)).
Proof. intros He. unfold on_entries, zoom, modify. by rewrite He. Qed.

Definition with_heap (h : HeapState) (s : ServerData) : ServerData :=
  mkServerData (db s) (db_nodes s) (entries s) h (zheap s) (pool s).

(** * Expiration times *)
Lemma ttls_insert h h' it :
  heap_ok h' → items h' ≡ₚ it :: items h → ttls h' = <[ref it := val it]> (ttls h).
Proof.
  intros Hok Hp. unfold ttls. transitivity (list_to_map ((λ it, (ref it, val it)) <$> it :: items h) : gmap ptr Z); [|done].
  apply list_to_map_proper; [by apply ttls_nodup|by rewrite Hp].
Qed.

Lemma ttls_delete h h' it :
  heap_ok h → items h ≡ₚ it :: items h' → ttls h' = delete (ref it) (ttls h).
Proof.
  intros Hok Hp. rewrite (ttls_insert h' h it) by done. rewrite delete_insert_id; [done|].
  apply ttls_none. pose proof (heap_ok_nodup h Hok) as Hnd. rewrite Hp, fmap_cons in Hnd.
  by apply NoDup_cons in Hnd as [? _].
Qed.

Lemma ttls_update h h' pos it old :
  heap_ok h → heap_ok h' → items h !! pos = Some old → ref old = ref it →
  items h' ≡ₚ <[pos := it]> (items h) → ttls h' = <[ref it := val it]> (ttls h).
Proof.
  intros Hok Hok' Hold Href Hp.
  pose proof (delete_Permutation _ _ _ Hold) as Hd. pose proof (lookup_lt_Some _ _ _ Hold).
  set (m := mkHeapState (delete pos (items h)) (idx h)).
  assert (<[pos := it]> (items h) ≡ₚ it :: items m) as Hi.
  { rewrite (delete_Permutation (<[pos := it]> (items h)) pos it) by by apply list_lookup_insert_eq.
    f_equiv. unfold m. cbn [items]. rewrite insert_take_drop, !delete_take_drop by (rewrite ?length_insert; done).
    rewrite take_app_length', drop_app_ge by (rewrite length_take; lia).
    rewrite length_take. replace (S pos - pos `min` length (items h))%nat with 1%nat by lia. done. }
  rewrite (ttls_insert m h' it) by (done || by rewrite Hp). rewrite (ttls_insert m h old) by done.
  by rewrite Href, insert_insert_eq.
Qed.

(** The place of an entry in the heap. *)
Lemma ttl_index h xs x :
  ttl_ok h xs → x ∈ xs →
  match ttls h !! x with
  | Some t => ∃ p, items h !! p = Some (mkHeapItem t x) ∧ idx h !! x = Some (Z.of_nat p) ∧ Z.of_nat p ≠ size_max
  | None => idx h !! x = Some size_max
  end.
Proof.
  intros [Hok _ Hi] Hx. destruct (ttls h !! x) as [t|] eqn:Ht; [|by apply Hi].
  apply ttls_lookup in Ht as [p Hp]%list_elem_of_lookup; [|done]. exists p.
  pose proof (lookup_lt_Some _ _ _ Hp). pose proof (heap_bound _ Hok). unfold size_max.
  split_and!; [done|by apply (heap_refs _ Hok p _ Hp)|lia].
Qed.

(** Taking an entry off the heap and forgetting its place. *)
Lemma ttl_remove h xs x t p :
  ttl_ok h xs → x ∈ xs → items h !! p = Some (mkHeapItem t x) →
  wp (heap_delete (Z.of_nat p);; set_ref x size_max)
     (λ _ h', ttl_ok h' xs ∧ ttls h' = delete x (ttls h)) h.
Proof.
  intros Hok Hx Hp. pose proof Hok as [Hh Hr Hi].
  apply wp_bind. eapply wp_mono; [by apply heap_delete_lemma|]. intros [] h1 (Hh1 & Hperm & Hf).
  pose proof (ttls_delete _ _ _ Hh Hperm) as Ht1. cbn [ref] in Ht1.
  assert (x ∉ ref <$> items h1) as Hxn by (apply ttls_none; rewrite Ht1; apply lookup_delete_eq).
  assert (∀ y, y ∈ xs → is_Some (idx h1 !! y)) as Hal.
  { intros y Hy. destruct (decide (y ∈ ref <$> items h1)) as [Hin|Hin]; [|rewrite Hf by done; by apply Hi].
    apply list_elem_of_fmap in Hin as (it & -> & [i Hit]%list_elem_of_lookup).
    rewrite (heap_refs _ Hh1 i it) by done. eauto. }
  unfold set_ref. apply wp_bind, wp_get, wp_bind. destruct (Hal x Hx) as [i0 Hi0].
  eapply wp_deref; [exact Hi0|]. apply wp_put.
  assert (∀ it, it ∈ items h1 → ref it ≠ x) as Hne.
  { intros it Hit Heq. apply Hxn. rewrite <-Heq. by apply list_elem_of_fmap_2. }
  split; [|exact Ht1]. constructor; cbn [items idx].
  - destruct Hh1 as [Ho Hb Hrf]. constructor; cbn [items idx]; [done|done|].
    intros i it Hit. rewrite lookup_insert_ne; [by apply Hrf|].
    intros Heq. by apply (Hne it); [by eapply list_elem_of_lookup_2|].
  - intros it Hit. apply Hr. rewrite Hperm. by right.
  - intros y Hy. destruct (decide (y = x)) as [->|Hyx]; [by rewrite lookup_insert_eq|].
    rewrite lookup_insert_ne by done. split; [by apply Hal|].
    intros Hn. change (ttls h1 !! y = None) in Hn. rewrite Hf by by apply ttls_none.
    apply Hi; [done|]. rewrite Ht1, lookup_delete_ne in Hn by done. done.
Qed.

(** Scheduling an entry. *)
Lemma ttl_upsert h xs x t i :
  ttl_ok h xs → x ∈ xs → NoDup xs → Z.of_nat (length xs) <= 31 → idx h !! x = Some i →
  wp (heap_upsert i (mkHeapItem t x)) (λ _ h', ttl_ok h' xs ∧ ttls h' = <[x := t]> (ttls h)) h.
Proof.
  intros Hok Hx Hnd Hlen Hidx. pose proof Hok as [Hh Hr Hi]. pose proof (ttl_index h xs x Hok Hx) as Hpl.
  assert (Z.of_nat (length (items h)) <= 31) as Hlh.
  { assert (length (ref <$> items h) ≤ length xs)%nat as Hle; [|rewrite length_fmap in Hle; lia].
    apply submseteq_length, NoDup_submseteq; [by apply (heap_ok_nodup h)|].
    intros y (it & -> & Hit)%list_elem_of_fmap. by apply Hr. }
  assert (∀ h', heap_ok h' → (∀ it, it ∈ items h' → ref it = x ∨ it ∈ items h) →
    (∀ y, y ≠ x → y ∉ ref <$> items h' → idx h' !! y = idx h !! y) →
    ttls h' = <[x := t]> (ttls h) → ttl_ok h' xs ∧ ttls h' = <[x := t]> (ttls h)) as Hfin.
  { intros h' Hh' Hits Hfr Ht. split; [|done]. constructor; [done| |].
    - intros it Hit. destruct (Hits it Hit) as [->|?]; [done|by apply Hr].
    - intros y Hy. destruct (ttls h' !! y) as [t'|] eqn:Hty.
      + apply ttls_lookup in Hty as [p Hp]%list_elem_of_lookup; [|done]. split; [|done].
        pose proof (heap_refs _ Hh' p _ Hp) as Hq. cbn [ref] in Hq. rewrite Hq. eauto.
      + assert (y ≠ x) by (intros ->; by rewrite Ht, lookup_insert_eq in Hty).
        rewrite Hfr by (done || by apply ttls_none). rewrite Ht, lookup_insert_ne in Hty by done.
        split; [by apply Hi|]. intros _. by apply Hi. }
  destruct (ttls h !! x) as [t0|] eqn:Ht0.
  - destruct Hpl as (p & Hp & Hidx' & _). assert (i = Z.of_nat p) as -> by congruence.
    pose proof (lookup_lt_Some _ _ _ Hp).
    eapply wp_mono; [apply heap_upsert_update_lemma; try done|].
    { apply list_elem_of_fmap. exists (mkHeapItem t0 x). split; [done|]. by eapply list_elem_of_lookup_2. }
    intros [] h' (Hh' & Hperm & Hf). apply Hfin; [done| | |].
    + intros it. rewrite Hperm. intros [j Hj]%list_elem_of_lookup. rewrite list_lookup_insert in Hj.
      case_decide; [injection Hj as <-; by left|]. right. by eapply list_elem_of_lookup_2.
    + intros y Hyx Hy. apply Hf. intros Hin. apply Hy.
      apply list_elem_of_fmap in Hin as (it & -> & [j Hj]%list_elem_of_lookup). rewrite Hperm.
      apply list_elem_of_fmap. exists it. split; [done|]. apply list_elem_of_lookup. exists j.
      rewrite list_lookup_insert_ne; [done|]. intros ->. apply Hyx. by rewrite Hp in Hj; injection Hj as <-.
    + by eapply (ttls_update h h' p (mkHeapItem t x)).
  - assert (i = size_max) as -> by congruence.
    assert (x ∉ ref <$> items h) as Hxn by by apply ttls_none.
    eapply wp_mono; [apply heap_upsert_insert_lemma; try done; unfold size_max; try lia; by eexists|].
    intros [] h' (Hh' & Hperm & Hf). apply Hfin; [done| | |].
    + intros it. rewrite Hperm. intros [->|?]%elem_of_cons; [by left|by right].
    + intros y Hyx Hy. apply Hf. by rewrite <-Hperm.
    + by apply (ttls_insert h h' (mkHeapItem t x)).
Qed.

Lemma get_heap_idx_run s x i : idx (heap s) !! x = Some i → get_heap_idx x s = Done (i, s).
Proof. intros Hi. unfold get_heap_idx. rewrite (bind_done _ _ _ s s) by done. by rewrite Hi. Qed.

(** [entry_set_ttl] *)
Lemma entry_set_ttl_lemma now s xs x t :
  ttl_ok (heap s) xs → x ∈ xs → NoDup xs → Z.of_nat (length xs) <= 31 →
  wp (entry_set_ttl now x t) (λ _ s', ∃ h', s' = with_heap h' s ∧ ttl_ok h' xs ∧
      ttls h' = if t <? 0 then delete x (ttls (heap s)) else <[x := u64 (now + u64 t)]> (ttls (heap s))) s.
Proof.
  intros Hok Hx Hnd Hlen. unfold entry_set_ttl. pose proof (ttl_index _ _ x Hok Hx) as Hpl.
  destruct (proj1 (tk_index _ _ Hok x Hx)) as [i Hi].
  apply wp_bind. eapply wp_done; [by apply get_heap_idx_run|]. rewrite Z.geb_leb.
  destruct (Z.ltb_spec t 0) as [Ht|Ht]; cbn [andb].
  - destruct (ttls (heap s) !! x) as [t0|] eqn:Ht0.
    + destruct Hpl as (p & Hp & Hip & Hne). assert (i = Z.of_nat p) as -> by congruence.
      rewrite (proj2 (Z.eqb_neq (Z.of_nat p) size_max)) by done. cbn [negb].
      pose proof (ttl_remove (heap s) xs x t0 p Hok Hx Hp) as Hw.
      apply wp_bind, wp_on_heap. apply wp_bind_inv in Hw. eapply wp_mono; [exact Hw|].
      intros [] h1 H1. unfold set_heap_idx. apply wp_on_heap. cbn [heap].
      eapply wp_mono; [exact H1|]. intros [] h2 [Hk Ht2]. by exists h2.
    + assert (i = size_max) as -> by congruence. rewrite Z.eqb_refl. cbn [negb andb].
      rewrite (proj2 (Z.leb_gt 0 t)) by lia. apply wp_ret. exists (heap s).
      split; [by destruct s|]. split; [done|]. by rewrite delete_id.
  - rewrite (proj2 (Z.leb_le 0 t)) by lia. apply wp_on_heap.
    eapply wp_mono; [by apply ttl_upsert|]. intros [] h' [Hk Ht']. by exists h'.
Qed.

(** * Change of an entry *)

(** The members of a set change from [old] to [new]: no other node changes, a
    new node was unallocated, and an old one is freed. *)
Definition zchange (old new : list ptr) (s s' : ZHeap) : Prop :=
  zframe (old ++ new) s s' ∧ (∀ a, a ∈ new → a ∈ old ∨ unallocated s a) ∧
  (∀ a, a ∈ old → a ∉ new → unallocated s' a).

Lemma zchange_refl xs s : zchange xs xs s s.
Proof. split_and!; [by intros ? _|by left|done]. Qed.

Lemma member_allocated s z T a : zset_inv s z T → a ∈ elems T → ¬ unallocated s a.
Proof.
  intros Hi Ha (_ & _ & Hn). destruct (do_data _ _ (to_data _ _ _ (zo_tree _ _ _ (zi_ok _ _ _ Hi))) a Ha) as (d & Hd & _).
  congruence.
Qed.

Lemma zset_inv_frame s s' z T xs : zframe xs s s' → disj (elems T) xs → zset_inv s z T → zset_inv s' z T.
Proof. intros Hf Hd [Hok Hq Hs]. constructor; [by eapply zset_ok_frame|done|done]. Qed.

Lemma zmap_frame s s' T xs : zframe xs s s' → disj (elems T) xs → zmap s' T = zmap s T.
Proof.
  intros Hf Hd. unfold zmap, members. do 2 f_equal. apply omap_ext_elem.
  intros a Ha. apply (Hf a). intros Hin. by apply (Hd a).
Qed.

Definition type_ok (e : Entry) (T : tree) : Prop := type e = TYPE_ZSET ∨ type e = TYPE_INIT ∧ T = Leaf.

(** The state with the entry [e] at [x] and the sets [z]. *)
Definition with_entry (x : ptr) (e : Entry) (z : ZHeap) (s : ServerData) : ServerData :=
  mkServerData (db s) (db_nodes s) (<[x := e]> (entries s)) (heap s) z (pool s).

Section update.
Context (s : ServerData) (x : ptr) (ys : list ptr) (F : ptr → tree) (e e' : Entry) (T : tree) (z : ZHeap).
Context (Hp : parts_ok s (x :: ys) F) (He : entries s !! x = Some e) (Hkey : key e' = key e).
Context (Hz : zset_inv z (zset e') T) (Hty : type_ok e' T) (Hv : blen (value e') <= k_max_msg).
Context (Hch : zchange (elems (F x)) (elems T) (zheap s) z).

Lemma update_other y : y ∈ ys → y ≠ x ∧ disj (elems (F y)) (elems (F x) ++ elems T) ∧ disj (elems (F y)) (elems T).
Proof using Hp Hch.
  intros Hy. pose proof (po_nodup _ _ _ Hp) as Hnd. apply NoDup_cons in Hnd as [Hx _].
  assert (y ≠ x) as Hne by (intros ->; contradiction).
  assert (disj (elems (F y)) (elems (F x))) as Hd by (apply (po_disj _ _ _ Hp); [by right|by left|done]).
  assert (disj (elems (F y)) (elems T)) as Hd'.
  { intros a Hay Ha. destruct Hch as (_ & Hnew & _). destruct (Hnew a Ha) as [Hax|Hun]; [by apply (Hd a)|].
    destruct (po_entries _ _ _ Hp y) as (ey & _ & Hi & _); [by right|].
    by eapply member_allocated. }
  split_and!; [done| |done]. apply disj_app_r. by split.
Qed.

Lemma update_binding y : y ∈ ys → binding (with_entry x e' z s) (<[x := T]> F) y = binding s F y.
Proof using Hp Hch.
  intros Hy. destruct (update_other y Hy) as (Hne & Hd & _). unfold binding, with_entry. cbn [entries].
  rewrite lookup_insert_ne by done. destruct (entries s !! y) as [ey|] eqn:Hey; [|done]. cbn.
  rewrite fn_lookup_insert_ne by done. unfold contents. cbn [zheap heap].
  destruct Hch as (Hf & _). by rewrite (zmap_frame _ _ _ _ Hf Hd).
Qed.

Lemma update_parts : parts_ok (with_entry x e' z s) (x :: ys) (<[x := T]> F).
Proof using Hp He Hkey Hz Hty Hv Hch.
  pose proof Hp as [Hnd Hl Hk Hent Ht Hd Hdom Hm Hpool].
  constructor; try done.
  - rewrite (list_fmap_ext _ (key_of s)); [done|]. intros i y _. unfold key_of, with_entry. cbn [entries].
    destruct (decide (y = x)) as [->|]; [|by rewrite lookup_insert_ne].
    rewrite lookup_insert_eq, He. cbn. by rewrite Hkey.
  - intros y [->|Hy]%elem_of_cons.
    + rewrite fn_lookup_insert. exists e'. destruct (Hent x) as (e0 & He0 & _ & _ & _ & Hh); [by left|].
      assert (e0 = e) as -> by congruence.
      split_and!; [by cbn; rewrite lookup_insert_eq|done|done|done|]. cbn [db_nodes with_entry]. by rewrite Hkey.
    + destruct (update_other y Hy) as (Hne & Hdy & _). rewrite fn_lookup_insert_ne by done.
      destruct (Hent y) as (ey & Hey & Hi & Hty' & Hvy & Hh); [by right|]. exists ey.
      split_and!; [by cbn; rewrite lookup_insert_ne| |done|done|done].
      destruct Hch as (Hf & _). by eapply zset_inv_frame.
  - intros a b [->|Ha]%elem_of_cons [->|Hb]%elem_of_cons Hab; [done| | |].
    + rewrite fn_lookup_insert, fn_lookup_insert_ne by done. apply disj_sym. by apply update_other.
    + rewrite fn_lookup_insert, fn_lookup_insert_ne by done. by apply update_other.
    + rewrite !fn_lookup_insert_ne by (by apply update_other || (apply not_eq_sym; by apply update_other)).
      apply Hd; [by right|by right|done].
  - intros y Hy. cbn [entries with_entry] in Hy. destruct (decide (y = x)) as [->|]; [by left|].
    rewrite lookup_insert_ne in Hy by done. by apply Hdom.
  - intros a Ha. cbn [zheap with_entry] in Ha. destruct Hch as (Hf & Hnew & Hfree).
    destruct (decide (a ∈ elems T)) as [HaT|HaT].
    { exists x. rewrite fn_lookup_insert. split; [by left|done]. }
    destruct (decide (a ∈ elems (F x))) as [Hax|Hax].
    { destruct (Hfree a Hax HaT) as (_ & _ & Hn). rewrite Hn in Ha. by destruct Ha. }
    destruct (Hf a) as (_ & _ & Hsame); [rewrite elem_of_app; tauto|]. rewrite Hsame in Ha.
    destruct (Hm a Ha) as (y & Hy & Hya). exists y. split; [done|].
    rewrite fn_lookup_insert_ne; [done|]. by intros ->.
Qed.

End update.

(** * Lookup by key *)

(** The key [k] of the key space [a] is the entry [e] at [x]. *)
Record at_key (s : ServerData) (a : keyspace) (k : bytes) (x : ptr) (e : Entry)
    (ys : list ptr) (F : ptr → tree) : Prop := {
  ak_entry : entries s !! x = Some e;
  ak_key : key e = k;
  ak_ok : server_ok s (x :: ys) F;
  ak_abs : a = <[k := contents s (F x) x e]> (abs s F ys);
  ak_rest : abs s F ys !! k = None;
}.

Lemma at_key_lookup s a k x e ys F : at_key s a k x e ys F → a !! k = Some (contents s (F x) x e).
Proof. intros [_ _ _ -> _]. apply lookup_insert_eq. Qed.

Lemma at_key_models s a k x e ys F : at_key s a k x e ys F → models s a.
Proof.
  intros [He <- Hok -> _]. exists (x :: ys), F. split; [done|]. apply abs_cons.
  unfold binding. by rewrite He.
Qed.

Lemma at_key_entry s a k x e ys F : at_key s a k x e ys F →
  zset_inv (zheap s) (zset e) (F x) ∧ type_ok e (F x) ∧ blen (value e) <= k_max_msg.
Proof.
  intros [He _ Hok _ _]. destruct (po_entries _ _ _ (so_parts _ _ _ Hok) x) as (e0 & He0 & ? & ? & ? & _); [by left|].
  assert (e0 = e) as -> by congruence. done.
Qed.

Lemma entry_hmatch s T x k :
  entry_ok s T x → hmatch (db_nodes s) (string_hash k) (entry_equals s k) x = true ↔
  ∃ e, entries s !! x = Some e ∧ key e = k.
Proof.
  intros (e & He & _ & _ & _ & Hh). unfold hmatch, entry_equals. rewrite He.
  destruct (db_nodes s !! x) as [n|]; [|done]. injection Hh as Hh. rewrite Hh, andb_true_iff, bool_decide_eq_true.
  split; [intros [_ Hk]; eauto|]. intros (e' & [= <-] & Hk). rewrite Hk. by rewrite Z.eqb_refl.
Qed.

Lemma db_lookup_cases s a k :
  models s a →
  (a !! k = None ∧ db_lookup k s = Done (None, s)) ∨
  (∃ x e ys F, db_lookup k s = Done (Some x, s) ∧ at_key s a k x e ys F).
Proof.
  intros (xs & F & Hok & <-). pose proof Hok as [Hdb Hq Hp].
  destruct (hm_lookup_quiet_lemma (db_nodes s) (db s) xs (string_hash k) (entry_equals s k) Hdb Hq)
    as (r & Hrun & Hr); [apply string_hash_range|].
  assert (db_lookup k s = Done (r, s)) as Hl.
  { unfold db_lookup. rewrite (bind_done _ _ _ s s) by done.
    erewrite bind_done; [|by apply zoom_done]. by destruct s. }
  rewrite Hl. destruct r as [x|].
  - destruct Hr as [Hx Hm]. right. apply (entry_hmatch s (F x)) in Hm as (e & He & Hk); [|by apply Hp].
    destruct (server_focus s xs F x e Hok Hx He) as (ys & Hok' & Habs & Habs' & Hn). rewrite Hk in *.
    exists x, e, ys, F. split; [done|]. by constructor.
  - left. split; [|done]. apply abs_none. intros x e Hx He Hk. specialize (Hr x Hx).
    assert (hmatch (db_nodes s) (string_hash k) (entry_equals s k) x = true); [|congruence].
    apply (entry_hmatch s (F x)); [by apply Hp|by exists e].
Qed.

(** * The key space after a change *)
Lemma at_key_update s a k x e ys F e' T z :
  at_key s a k x e ys F → key e' = k → zset_inv z (zset e') T → type_ok e' T → blen (value e') <= k_max_msg →
  zchange (elems (F x)) (elems T) (zheap s) z →
  models (with_entry x e' z s) (<[k := contents (with_entry x e' z s) T x e']> a).
Proof.
  intros [He <- [Hdb Hq Hp] -> Hn] Hk Hz Hty Hv Hch. exists (x :: ys), (<[x := T]> F).
  split; [constructor; [done|done|by eapply update_parts]|].
  rewrite insert_insert_eq. erewrite abs_cons.
  2: { unfold binding. cbn [entries with_entry]. rewrite lookup_insert_eq. cbn. by rewrite Hk, fn_lookup_insert. }
  f_equal. apply abs_frame. intros y Hy. by eapply update_binding.
Qed.

Lemma at_key_ttl s a k x e ys F h :
  at_key s a k x e ys F → ttl_ok h (x :: ys) → (∀ y, y ≠ x → ttls h !! y = ttls (heap s) !! y) →
  models (with_heap h s) (<[k := contents (with_heap h s) (F x) x e]> a).
Proof.
  intros [He <- [Hdb Hq Hp] -> Hn] Hk Ht. exists (x :: ys), F.
  pose proof (po_nodup _ _ _ Hp) as Hnd. apply NoDup_cons in Hnd as [Hx _].
  split.
  - constructor; [done|done|]. destruct Hp. by constructor.
  - rewrite insert_insert_eq. erewrite abs_cons.
    2: { unfold binding. cbn [entries with_heap]. rewrite He. done. }
    f_equal. apply abs_frame. intros y Hy. unfold binding, with_heap. cbn [entries].
    destruct (entries s !! y); [|done]. cbn. unfold contents. cbn [heap zheap]. rewrite Ht; [done|]. by intros ->.
Qed.

(** * Creation of an entry *)
Lemma entry_fresh_fresh s :
  db_nodes s !! entry_fresh s = None ∧ entries s !! entry_fresh s = None ∧ idx (heap s) !! entry_fresh s = None.
Proof. unfold entry_fresh. split_and!; apply fresh_ptr_fresh; lia. Qed.

Lemma key_absent s xs F k : parts_ok s xs F → abs s F xs !! k = None → Some k ∉ key_of s <$> xs.
Proof.
  intros Hp Hn (x & Hk & Hx)%list_elem_of_fmap. unfold key_of in Hk.
  destruct (entries s !! x) as [e|] eqn:He; [|done]. injection Hk as Hk.
  assert (abs s F xs !! k = Some (contents s (F x) x e)); [|congruence].
  apply abs_lookup; [apply Hp|]. exists x. split; [done|]. unfold binding. rewrite He. cbn. by rewrite Hk.
Qed.

(** The state after [entry_new]. *)
Definition with_new (x : ptr) (e : Entry) (hc : Z) (s : ServerData) : ServerData :=
  mkServerData (db s) (<[x := mkHNode None hc]> (db_nodes s)) (<[x := e]> (entries s))
    (mkHeapState (items (heap s)) (<[x := size_max]> (idx (heap s)))) (zheap s) (pool s).

Section create.
Context (s : ServerData) (xs : list ptr) (F : ptr → tree) (k v : bytes) (ty : Z).
Context (Hok : server_ok s xs F) (Hk : abs s F xs !! k = None).
Context (Hty : ty = TYPE_INIT ∨ ty = TYPE_ZSET) (Hv : blen v <= k_max_msg).
Let x := entry_fresh s.
Let e := mkEntry k ty v ZSet_empty.
Let F' := <[x := Leaf]> F.

Lemma create_notin : x ∉ xs.
Proof using Hok.
  intros Hx. destruct (po_entries _ _ _ (so_parts _ _ _ Hok) x Hx) as (e0 & He & _).
  destruct (entry_fresh_fresh s) as (_ & Hn & _). unfold x in He. congruence.
Qed.

Lemma create_ttl h : items h = items (heap s) → idx h = <[x := size_max]> (idx (heap s)) →
  ttl_ok h (x :: xs) ∧ ttls h = ttls (heap s) ∧ ttls (heap s) !! x = None.
Proof using Hok.
  intros Hi Hidx. destruct (po_ttl _ _ _ (so_parts _ _ _ Hok)) as [Hh Hr Hx]. pose proof create_notin as Hn.
  assert (ttls h = ttls (heap s)) as Ht by (unfold ttls; by rewrite Hi).
  assert (ttls (heap s) !! x = None) as Htx.
  { apply ttls_none. intros (it & -> & Hit)%list_elem_of_fmap. by apply Hn, Hr. }
  split; [|done]. constructor.
  - destruct Hh as [Ho Hb Hrf]. constructor; rewrite Hi; [done|done|]. intros i it Hit. rewrite Hidx.
    rewrite lookup_insert_ne; [by apply Hrf|]. intros Heq. apply Hn. rewrite Heq.
    apply Hr. by eapply list_elem_of_lookup_2.
  - intros it. rewrite Hi. intros Hit. right. by apply Hr.
  - intros y. rewrite Hidx, Ht. intros [->|Hy]%elem_of_cons; [by rewrite lookup_insert_eq|].
    assert (y ≠ x) by (by intros ->). rewrite lookup_insert_ne by done. by apply Hx.
Qed.

Lemma create_parts d n : hframe (x :: xs) (db_nodes (with_new x e (string_hash k) s)) n →
  (length xs ≠ 31)%nat →
  let s' := mkServerData d n (entries (with_new x e (string_hash k) s))
              (heap (with_new x e (string_hash k) s)) (zheap s) (pool s) in
  parts_ok s' (x :: xs) F' ∧ abs s' F' xs = abs s F xs.
Proof using Hok Hk Hty Hv.
  intros [_ Hhc] Hlen s'. pose proof (so_parts _ _ _ Hok) as Hp.
  pose proof Hp as [Hnd Hl Hkeys Hent Ht Hd Hdom Hm Hpool]. pose proof create_notin as Hn.
  destruct (create_ttl (heap (with_new x e (string_hash k) s)) eq_refl eq_refl) as (Htk & Htt & Htx).
  assert (∀ y, y ∈ xs → y ≠ x) as Hne by (intros y Hy ->; contradiction).
  assert (∀ y, y ∈ xs → entries s' !! y = entries s !! y) as Hes.
  { intros y Hy. cbn. by rewrite lookup_insert_ne by (apply not_eq_sym, Hne; done). }
  split.
  - constructor; try done.
    + by constructor.
    + cbn [length]. lia.
    + rewrite fmap_cons. constructor.
      * unfold key_of at 1, s'. cbn [entries with_new]. rewrite lookup_insert_eq. cbn.
        intros Hin. apply (key_absent s xs F k Hp Hk). revert Hin.
        rewrite (list_fmap_ext (key_of s') (key_of s)); [done|]. intros i y Hy. unfold key_of.
        by rewrite Hes by by eapply list_elem_of_lookup_2.
      * rewrite (list_fmap_ext (key_of s') (key_of s)); [done|]. intros i y Hy. unfold key_of.
        by rewrite Hes by by eapply list_elem_of_lookup_2.
    + intros y [->|Hy]%elem_of_cons.
      * unfold F'. rewrite fn_lookup_insert. exists e. cbn [s' entries zheap with_new db_nodes].
        split_and!; [by rewrite lookup_insert_eq|apply zset_empty_inv| |done|].
        -- destruct Hty as [->| ->]; [by right|by left].
        -- specialize (Hhc x). cbn [db_nodes with_new] in Hhc. rewrite lookup_insert_eq in Hhc. done.
      * unfold F'. rewrite fn_lookup_insert_ne by (apply not_eq_sym, Hne; done).
        destruct (Hent y Hy) as (ey & Hey & ? & ? & ? & Hh). exists ey.
        split_and!; [by rewrite Hes|done|done|done|]. cbn [s' db_nodes]. rewrite Hhc. cbn [db_nodes with_new].
        by rewrite lookup_insert_ne by (apply not_eq_sym, Hne; done).
    + unfold F'. intros y z [->|Hy]%elem_of_cons [->|Hz]%elem_of_cons Hyz; [done| | |].
      * rewrite fn_lookup_insert. apply disj_nil_l.
      * rewrite (fn_lookup_insert F). apply disj_nil_r.
      * rewrite !fn_lookup_insert_ne by (apply not_eq_sym, Hne; done). by apply Hd.
    + intros y Hy. cbn [s' entries with_new] in Hy. destruct (decide (y = x)) as [->|]; [by left|].
      rewrite lookup_insert_ne in Hy by done. right. by apply Hdom.
    + intros a Ha. destruct (Hm a Ha) as (y & Hy & Hya). exists y. split; [by right|].
      unfold F'. by rewrite fn_lookup_insert_ne by (apply not_eq_sym, Hne; done).
  - apply abs_frame. intros y Hy. unfold binding. rewrite Hes by done.
    destruct (entries s !! y); [|done]. cbn. unfold F'. rewrite fn_lookup_insert_ne by (apply not_eq_sym, Hne; done).
    done.
Qed.
End create.

Lemma entry_create s a k v ty :
  models s a → a !! k = None → ty = TYPE_INIT ∨ ty = TYPE_ZSET → blen v <= k_max_msg →
  ∃ x s1, entry_new ty k v (string_hash k) s = Done (x, s1) ∧
    if bool_decide (size a = 31%nat) then db_insert x s1 = AssertFail
    else wp (db_insert x) (λ _ s', ∃ ys F,
           at_key s' (<[k := mkAEntry v (if ty =? TYPE_ZSET then Some ∅ else None) None]> a) k x
             (mkEntry k ty v ZSet_empty) ys F ∧ F x = Leaf) s1.
Proof.
  intros (xs & F & Hok & <-) Hk Hty Hv. pose proof Hok as [Hdb Hq Hp].
  set (x := entry_fresh s). set (s1 := with_new x (mkEntry k ty v ZSet_empty) (string_hash k) s).
  exists x, s1. split; [done|]. rewrite (abs_size s xs F) by done.
  pose proof (create_notin s xs F Hok) as Hx. fold x in Hx.
  assert (hm_ok (db_nodes s1) (db s) xs) as Hdb1.
  { eapply hm_ok_frame; [|exact Hdb]. intros y Hy. unfold s1, with_new. cbn [db_nodes].
    rewrite lookup_insert_ne; [done|]. by intros ->. }
  pose proof (quiet_insert (db_nodes s1) (db s) xs x (mkHNode None (string_hash k)) Hdb1 Hq
    (po_size _ _ _ Hp) Hx) as Hins.
  specialize (Hins ltac:(unfold s1, with_new; cbn [db_nodes]; by rewrite lookup_insert_eq) ltac:(apply string_hash_range)).
  unfold db_insert. case_bool_decide as Hl.
  - rewrite (bind_done _ _ _ s1 s1) by done. apply bind_assert_fail. unfold on_nodes, zoom.
    change (db s1) with (db s). by rewrite Hins.
  - apply wp_bind, wp_get, wp_bind, wp_on_nodes. eapply wp_mono; [exact Hins|].
    intros d n (Hok' & Hq' & Hf). unfold set_db, wp. cbn [db_nodes].
    destruct (create_parts s xs F k v ty Hok Hk Hty Hv d n Hf Hl) as (Hp' & Habs).
    exists xs, (<[x := Leaf]> F). split; [|apply fn_lookup_insert]. constructor.
    + cbn [entries s1 with_new]. by rewrite lookup_insert_eq.
    + done.
    + by constructor.
    + rewrite <-Habs. f_equal. rewrite fn_lookup_insert. unfold contents. cbn [heap s1 with_new type value].
      destruct (create_ttl s xs F Hok (heap s1) eq_refl eq_refl) as (_ & Ht & Htx).
      rewrite <-Ht in Htx. fold x in Htx. by rewrite <-Htx.
    + rewrite <-Habs in Hk. exact Hk.
Qed.

(** * Deletion of an entry *)

(** The state without the entry [x], its heap item and its members. *)
Definition without (x : ptr) (h : HeapState) (z : ZHeap) (s : ServerData) : ServerData :=
  mkServerData (db s) (delete x (db_nodes s)) (delete x (entries s))
    (mkHeapState (items h) (delete x (idx h))) z (pool s).

Section remove.
Context (s : ServerData) (x : ptr) (ys : list ptr) (F : ptr → tree) (h : HeapState) (z : ZHeap).
Context (Hp : parts_ok s (x :: ys) F) (Hh : ttl_ok h (x :: ys)) (Ht : ttls h = delete x (ttls (heap s))).
Context (Hz : zdelete (elems (F x)) (zheap s) z).

Lemma remove_other y : y ∈ ys → y ≠ x ∧ disj (elems (F y)) (elems (F x)).
Proof using Hp.
  intros Hy. pose proof (po_nodup _ _ _ Hp) as Hnd. apply NoDup_cons in Hnd as [Hx _].
  assert (y ≠ x) as Hne by (intros ->; contradiction). split; [done|].
  apply (po_disj _ _ _ Hp); [by right|by left|done].
Qed.

Lemma remove_entries y : y ∈ ys → delete x (entries s) !! y = entries s !! y.
Proof using Hp. intros Hy. destruct (remove_other y Hy). by rewrite lookup_delete_ne. Qed.

Lemma remove_parts : parts_ok (without x h z s) ys F ∧ abs (without x h z s) F ys = abs s F ys.
Proof using Hp Hh Ht Hz.
  pose proof Hp as [Hnd Hl Hk Hent _ Hd Hdom Hm Hpool]. apply NoDup_cons in Hnd as [Hx Hnd].
  rewrite fmap_cons in Hk. apply NoDup_cons in Hk as [_ Hk]. cbn [length] in Hl.
  destruct Hz as [Hfree Hf]. split.
  - constructor; try done; cbn [entries db_nodes zheap heap without].
    + lia.
    + rewrite (list_fmap_ext _ (key_of s)); [done|]. intros i y Hy. unfold key_of. cbn [entries without].
      by rewrite remove_entries by by eapply list_elem_of_lookup_2.
    + intros y Hy. destruct (remove_other y Hy) as [Hne Hdy].
      destruct (Hent y) as (e & He & Hi & Hty & Hv & Hhc); [by right|]. exists e. cbn.
      rewrite !lookup_delete_ne by done. split_and!; [done|by eapply zset_inv_frame|done..].
    + destruct Hh as [[Ho Hb Hrf] Hr Hi]. assert (∀ it, it ∈ items h → ref it ≠ x) as Hne.
      { intros it Hit Heq. assert (ttls h !! x = None) as Hn by (rewrite Ht; apply lookup_delete_eq).
        apply ttls_none in Hn. apply Hn. rewrite <-Heq. by apply list_elem_of_fmap_2. }
      constructor; cbn [items idx].
      * constructor; cbn [items idx]; [done|done|]. intros i it Hit.
        rewrite lookup_delete_ne; [by apply Hrf|]. apply not_eq_sym, Hne. by eapply list_elem_of_lookup_2.
      * intros it Hit. pose proof (Hr it Hit) as [Heq|Hin]%elem_of_cons; [|exact Hin]. by destruct (Hne it Hit).
      * intros y Hy. destruct (remove_other y Hy) as [Hyx _]. rewrite lookup_delete_ne by done.
        apply Hi. by right.
    + intros a b Ha Hb. apply Hd; by right.
    + intros y [e He]. destruct (decide (y = x)) as [->|Hyx]; [by rewrite lookup_delete_eq in He|].
      rewrite lookup_delete_ne in He by done. pose proof (Hdom y ltac:(eauto)) as [->|Hy]%elem_of_cons; [done|done].
    + intros a Ha. destruct (decide (a ∈ elems (F x))) as [Hax|Hax].
      { destruct (Hfree a Hax) as (_ & _ & Hn). rewrite Hn in Ha. by destruct Ha. }
      destruct (Hf a Hax) as (_ & _ & Hs). rewrite Hs in Ha. pose proof (Hm a Ha) as (y & [->|Hy]%elem_of_cons & Hya); [done|].
      by exists y.
  - apply abs_frame. intros y Hy. destruct (remove_other y Hy) as [Hne Hdy]. unfold binding. cbn [entries without].
    rewrite remove_entries by done. destruct (entries s !! y); [|done]. cbn. unfold contents. cbn [zheap heap without].
    rewrite (zmap_frame _ _ _ _ Hf Hdy).
    change (ttls (mkHeapState (items h) (delete x (idx h)))) with (ttls h). rewrite Ht. by rewrite lookup_delete_ne.
Qed.
End remove.

(** [entry_del_sync] on an entry that is not in the heap. *)
Lemma entry_del_sync_run s x e T :
  entries s !! x = Some e → zset_ok (zheap s) (zset e) T → type_ok e T →
  wp (entry_del_sync x) (λ _ s', ∃ z, s' = without x (heap s) z s ∧ zdelete (elems T) (zheap s) z) s.
Proof.
  intros He Hi Hty. unfold entry_del_sync. apply wp_bind. eapply wp_done; [by apply load_entry|].
  apply wp_bind. destruct Hty as [Hty|[Hty ->]]; rewrite Hty.
  - change (TYPE_ZSET =? TYPE_ZSET) with true. cbv iota.
    apply wp_bind, wp_on_zheap. eapply wp_mono; [eapply zset_clear_lemma, Hi|].
    intros z' z (-> & Hz). eapply wp_done; [by apply modify_entry|].
    unfold wp, entry_free. cbn [entries]. rewrite lookup_insert_eq. exists z. split; [|done].
    unfold without. cbn. by rewrite delete_insert_eq.
  - change (TYPE_INIT =? TYPE_ZSET) with false. cbv iota. apply wp_ret.
    unfold wp, entry_free. rewrite He. exists (zheap s). split; [done|]. split; [by intros a ?%not_elem_of_nil|done].
Qed.

Lemma entry_del_lemma now s x ys F :
  parts_ok s (x :: ys) F → hm_ok (db_nodes s) (db s) ys →
  wp (entry_del now x) (λ _ s', db s' = db s ∧ hm_ok (db_nodes s') (db s') ys ∧
      parts_ok s' ys F ∧ abs s' F ys = abs s F ys) s.
Proof.
  intros Hp Hdb. unfold entry_del. destruct (po_entries _ _ _ Hp x) as (e & He & Hi & Hty & _); [by left|].
  apply wp_bind. eapply wp_mono; [apply (entry_set_ttl_lemma now s (x :: ys) x (-1)); [apply Hp|by left|apply Hp|apply Hp]|].
  intros [] s1 (h & -> & Hh & Ht). change (-1 <? 0) with true in Ht. cbv iota in Ht.
  apply wp_bind. eapply wp_done; [by apply load_entry|].
  assert (((if type e =? TYPE_ZSET then hm_size (zhmap (zset e)) else 0) >? k_large_container_size) = false) as ->.
  { unfold k_large_container_size. destruct (type e =? TYPE_ZSET); [|done].
    rewrite (hm_size_spec _ _ _ (zo_hash _ _ _ (zi_ok _ _ _ Hi))). pose proof (zi_size _ _ _ Hi). lia. }
  eapply wp_mono; [eapply (entry_del_sync_run (with_heap h s) x e); [done|by apply zi_ok|done]|].
  intros [] s2 (z & -> & Hz).
  destruct (remove_parts s x ys F h z Hp Hh Ht Hz) as [Hp' Habs]. split_and!; [done| |exact Hp'|exact Habs].
  eapply hm_ok_frame; [|exact Hdb]. intros y Hy. cbn.
  destruct (remove_other s x ys F Hp y Hy). by rewrite lookup_delete_ne.
Qed.

(** * Taking an entry out of the hash map *)
Definition with_db (d : HMap) (n : hstore) (s : ServerData) : ServerData :=
  mkServerData d n (entries s) (heap s) (zheap s) (pool s).

Lemma parts_with_db d n s xs F :
  (∀ x, hash_code <$> n !! x = hash_code <$> db_nodes s !! x) → parts_ok s xs F →
  parts_ok (with_db d n s) xs F.
Proof.
  intros Hn [? ? ? He ? ? ? ? ?]. constructor; try done. intros x Hx.
  destruct (He x Hx) as (e & ? & ? & ? & ? & ?). exists e. split_and!; try done. cbn. by rewrite Hn.
Qed.

Lemma db_delete_lemma s xs F hc eq :
  server_ok s xs F → 0 <= hc →
  wp (db_delete hc eq) (λ r s', ∃ d n, s' = with_db d n s ∧ quiet d ∧ parts_ok s' xs F ∧
      match r with
      | Some x => hmatch (db_nodes s) hc (eq s) x = true ∧ ∃ ys, xs ≡ₚ x :: ys ∧ hm_ok n d ys
      | None => (∀ x, x ∈ xs → hmatch (db_nodes s) hc (eq s) x = false) ∧ hm_ok n d xs
      end) s.
Proof.
  intros [Hdb Hq Hp] Hhc. pose proof (hm_delete_lemma (db_nodes s) (db s) xs hc (eq s) Hdb Hhc) as Hw.
  apply wp_inv in Hw as ([r d] & n & Hrun & [_ Hhash] & Hres). cbn [fst snd] in *.
  unfold db_delete. apply wp_bind, wp_get, wp_bind, wp_on_nodes. eapply wp_done; [exact Hrun|].
  apply wp_bind. unfold set_db, wp, mret, M_ret. cbn. exists d, n. split; [done|].
  split; [by eapply hm_delete_quiet|]. split; [by apply parts_with_db|done].
Qed.

(** An entry that is out of the hash map is deleted: its key is gone. *)
Lemma entry_removed now s d n x e xs ys F :
  parts_ok (with_db d n s) xs F → quiet d → xs ≡ₚ x :: ys → hm_ok n d ys → entries s !! x = Some e →
  wp (entry_del now x) (λ _ s', models s' (delete (key e) (abs s F xs))) (with_db d n s).
Proof.
  intros Hp Hq Hxs Hdb He. pose proof (parts_ok_perm _ _ _ _ Hxs Hp) as Hp'.
  assert (binding (with_db d n s) F x = Some (key e, contents s (F x) x e)) as Hb.
  { unfold binding, with_db. cbn [entries]. by rewrite He. }
  eapply wp_mono; [by apply (entry_del_lemma now _ x ys F Hp')|].
  intros [] s' (Hd & Hdb' & Hp'' & Habs). exists ys, F. split.
  - constructor; [exact Hdb'|by rewrite Hd|done].
  - change (abs s F xs) with (abs (with_db d n s) F xs).
    rewrite (abs_perm _ _ _ _ (po_keys _ _ _ Hp) Hxs), (abs_cons _ _ _ _ _ _ Hb), Habs.
    rewrite delete_insert_id; [done|]. eapply abs_absent; [apply Hp'|exact Hb].
Qed.
