(* ===== verification/CommandSpec.v ===== *)
(** What the commands promise: the replies to a request on a key space and the
    key space after it, without hash tables, trees and heaps.  The tables of
    commands.cpp and sorted_set.cpp refine [executes] (CommandProps.v). *)
From Stdlib Require Import Strings.String.
From S2P Require Import Prelude Bytes Serialize Protocol NetIO Common SortedSet ZOrder.
From S2P Require Import Commands KeySpace.

Open Scope list_scope.

(** * Strings and keys *)
Definition get_reply (a : keyspace) (k : bytes) : wvalue :=
  match a !! k with Some e => WStr (a_value e) | None => WNil end.
Definition set_string (k v : bytes) (a : keyspace) : keyspace :=
  <[k := match a !! k with
         | Some e => mkAEntry v (a_set e) (a_expiry e)
         | None => mkAEntry v None None
         end]> a.
(** 1 if the key exists, and 0 if not. *)
Definition present (a : keyspace) (k : bytes) : wvalue :=
  WInt (match a !! k with Some _ => 1 | None => 0 end).
Definition key_line (p : bytes * AEntry) : wvalue := WStr (p.1 ++ str " : " ++ a_value p.2).

(** * Expiration *)
Definition ttl_reply (now : Z) (a : keyspace) (k : bytes) : wvalue :=
  WInt (match a !! k with
        | None => -2
        | Some e =>
            match a_expiry e with
            | None => -1
            | Some t => i64 (if t >? now then u64 (t - now) else 0)
            end
        end).
Definition expire_at (now ttl : Z) (e : AEntry) : AEntry :=
  mkAEntry (a_value e) (a_set e) (if ttl <? 0 then None else Some (u64 (now + u64 ttl))).
Definition set_expiry (now ttl : Z) (k : bytes) (a : keyspace) : keyspace := alter (expire_at now ttl) k a.

(** * Sorted sets *)

(** The set under a key: an absent key is an empty set, an entry of another
    type is none. *)
Definition set_at (a : keyspace) (k : bytes) : option (gmap bytes f64) :=
  match a !! k with Some e => a_set e | None => Some ∅ end.
Definition with_set (k : bytes) (m : gmap bytes f64) (a : keyspace) : keyspace :=
  <[k := match a !! k with
         | Some e => mkAEntry (a_value e) (Some m) (a_expiry e)
         | None => mkAEntry [] (Some m) None
         end]> a.
(** An equal score (0 and -0 are equal) is kept. *)
Definition add_member (nm : bytes) (sc : f64) (m : gmap bytes f64) : gmap bytes f64 :=
  match m !! nm with
  | Some old => if f64_eq old sc then m else <[nm := sc]> m
  | None => <[nm := sc]> m
  end.
Definition added (m : gmap bytes f64) (nm : bytes) : wvalue :=
  WInt (match m !! nm with Some _ => 0 | None => 1 end).
Definition removed (m : gmap bytes f64) (nm : bytes) : wvalue :=
  WInt (match m !! nm with Some _ => 1 | None => 0 end).
Definition score_reply (m : gmap bytes f64) (nm : bytes) : wvalue :=
  match m !! nm with Some sc => WDbl sc | None => WNil end.

(** The members of a set in order. *)
Definition ordered (m : gmap bytes f64) (l : list ZData) : Prop :=
  StronglySorted zlt l ∧ (λ d, (name d, score d)) <$> l ≡ₚ map_to_list m.

(** A range query: from the first member that is not below the key, moved by
    the offset (an int32_t), half of the limit, rounded up, many members; there is
    none if no member is at or above the key. *)
Definition query (l : list ZData) (sc : f64) (nm : bytes) (offset limit : Z) : list ZData :=
  let i := length (filter (λ d, zlt d (mkZData sc nm)) l) in
  let p := Z.of_nat i + i32 offset in
  if bool_decide (limit <= 0 ∨ i = length l ∨ p < 0) then []
  else take (Z.to_nat ((limit + 1) / 2)) (drop (Z.to_nat p) l).
Definition query_reply (ds : list ZData) : wvalue :=
  WArr (concat ((λ d, [WStr (name d); WDbl (score d)]) <$> ds)).

(** * The commands *)
Definition command_table : list (string * nat) :=
  [("ping", 1); ("get", 2); ("set", 3); ("del", 2); ("keys", 1); ("zadd", 4); ("zrem", 3);
   ("zscore", 3); ("zquery", 6); ("pttl", 2); ("pexpire", 3)]%string%nat.
Definition known (cmd : list bytes) : bool := existsb (λ '(w, n), is_cmd cmd n w) command_table.

Definition bad_arg (m : string) : wvalue := WErr ERR_BAD_ARG (str m).
Definition bad_type : wvalue := WErr ERR_BAD_TYP (str "expect zset").

(** [executes now a cmd r a']: the request [cmd] at the time [now] on the key
    space [a] may be answered by [r] and leave [a']. *)
Inductive executes (now : Z) (a : keyspace) : list bytes → wvalue → keyspace → Prop :=
| ex_ping : executes now a [str "ping"] (WStr (str "pong")) a
| ex_get k : executes now a [str "get"; k] (get_reply a k) a
| ex_set k v : executes now a [str "set"; k; v] WNil (set_string k v a)
| ex_del k : executes now a [str "del"; k] (present a k) (delete k a)
| ex_keys kvs : kvs ≡ₚ map_to_list a → executes now a [str "keys"] (WArr (key_line <$> kvs)) a
| ex_pttl k : executes now a [str "pttl"; k] (ttl_reply now a k) a
| ex_pexpire_arg k b : (str2int b).1 = false →
    executes now a [str "pexpire"; k; b] (bad_arg "expect int") a
| ex_pexpire k b ttl : str2int b = (true, ttl) →
    executes now a [str "pexpire"; k; b] (present a k) (set_expiry now ttl k a)
| ex_zadd_arg k b nm : (str2dbl b).1 = false →
    executes now a [str "zadd"; k; b; nm] (bad_arg "expect float") a
| ex_zadd_type k b sc nm : str2dbl b = (true, sc) → set_at a k = None →
    executes now a [str "zadd"; k; b; nm] bad_type a
| ex_zadd k b sc nm m : str2dbl b = (true, sc) → set_at a k = Some m →
    executes now a [str "zadd"; k; b; nm] (added m nm) (with_set k (add_member nm sc m) a)
| ex_zrem_type k nm : set_at a k = None → executes now a [str "zrem"; k; nm] bad_type a
| ex_zrem k nm m : set_at a k = Some m →
    executes now a [str "zrem"; k; nm] (removed m nm)
      (match a !! k with Some _ => with_set k (delete nm m) a | None => a end)
| ex_zscore_type k nm : set_at a k = None → executes now a [str "zscore"; k; nm] bad_type a
| ex_zscore k nm m : set_at a k = Some m → executes now a [str "zscore"; k; nm] (score_reply m nm) a
| ex_zquery_score k b nm o n : (str2dbl b).1 = false →
    executes now a [str "zquery"; k; b; nm; o; n] (bad_arg "expect fp number") a
| ex_zquery_int k b nm o n : (str2dbl b).1 = true → (str2int o).1 && (str2int n).1 = false →
    executes now a [str "zquery"; k; b; nm; o; n] (bad_arg "expect int") a
| ex_zquery_type k b nm o n : (str2dbl b).1 = true → (str2int o).1 = true → (str2int n).1 = true →
    set_at a k = None → executes now a [str "zquery"; k; b; nm; o; n] bad_type a
| ex_zquery k b sc nm o offset n limit m l :
    str2dbl b = (true, sc) → str2int o = (true, offset) → str2int n = (true, limit) →
    set_at a k = Some m → ordered m l →
    executes now a [str "zquery"; k; b; nm; o; n] (query_reply (query l sc nm offset limit)) a
| ex_unknown cmd : known cmd = false →
    executes now a cmd (WErr ERR_UNKNOWN (str "unknown command")) a.

(** The requests that would put a 32nd entry into a hash map, on which the
    server aborts. *)
Definition new_key_aborts (a : keyspace) (k : bytes) : bool :=
  bool_decide (a !! k = None ∧ size a = 31%nat).
Definition aborts (a : keyspace) (cmd : list bytes) : bool :=
  match cmd with
  | [c; k; v] => bool_decide (c = str "set") && new_key_aborts a k
  | [c; k; b; nm] =>
      bool_decide (c = str "zadd") && (str2dbl b).1 &&
      (new_key_aborts a k ||
       match a !! k ≫= a_set with
       | Some m => bool_decide (m !! nm = None ∧ size m = 31%nat)
       | None => false
       end)
  | _ => false
  end.

(** What a request writes past the end of a block: for a ZADD that adds a member,
    the terminator of its name (the offset in the block of its node); every
    other request, nothing. *)
Definition writes_past (a : keyspace) (cmd : list bytes) : list Z :=
  match cmd with
  | [c; k; b; nm] =>
      if bool_decide (c = str "zadd") && (str2dbl b).1 then
        match set_at a k with
        | Some m => match m !! nm with None => [sizeof_ZNode + blen nm] | Some _ => [] end
        | None => []
        end
      else []
  | _ => []
  end.

(** Arguments of a request that fits in a message. *)
Definition args_ok (cmd : list bytes) : Prop := Forall (λ arg, blen arg <= k_max_msg) cmd.
