(* ===== verification/KeyBounds.v ===== *)
(** The key spaces that commands build are small: at most 31 keys and 31 members
    of a set, with names and strings that came in a message.  So every reply has
    fewer than 2^32 bytes, and its size is exact in a [size_t]. *)
From Stdlib Require Import Strings.String.
From S2P Require Import Prelude Bytes Serialize Protocol NetIO Common SortedSet ZOrder.
From S2P Require Import Commands KeySpace CommandSpec.

Open Scope list_scope.

(** * Bounded key spaces *)
Definition set_bounded (m : gmap bytes f64) : Prop :=
  (size m ≤ 31)%nat ∧ map_Forall (λ nm _, blen nm <= k_max_msg) m.
Definition entry_bounded (k : bytes) (e : AEntry) : Prop :=
  blen k <= k_max_msg ∧ blen (a_value e) <= k_max_msg ∧ ∀ m, a_set e = Some m → set_bounded m.
Definition bounded (a : keyspace) : Prop := (size a ≤ 31)%nat ∧ map_Forall entry_bounded a.

Lemma set_bounded_empty : set_bounded ∅.
Proof. split; [by rewrite map_size_empty; lia|apply map_Forall_empty]. Qed.
Lemma bounded_empty : bounded ∅.
Proof. split; [by rewrite map_size_empty; lia|apply map_Forall_empty]. Qed.

Lemma delete_size31 `{Countable K} {V} (m : gmap K V) k : (size m ≤ 31)%nat → (size (delete k m) ≤ 31)%nat.
Proof. rewrite map_size_delete. destruct (m !! k); cbn; lia. Qed.
(** A map that may hold 31 entries takes another one unless it is full. *)
Lemma insert_size31 `{Countable K} {V} (m : gmap K V) k v :
  (size m ≤ 31)%nat → ¬ (m !! k = None ∧ size m = 31%nat) → (size (<[k := v]> m) ≤ 31)%nat.
Proof.
  intros Hm Hk. destruct (m !! k) as [w|] eqn:Hl.
  - rewrite map_size_insert_Some by eauto. done.
  - rewrite map_size_insert_None by done. assert (size m ≠ 31%nat) by (intros ?; by apply Hk). lia.
Qed.

Lemma set_bounded_insert m nm sc :
  set_bounded m → blen nm <= k_max_msg → ¬ (m !! nm = None ∧ size m = 31%nat) → set_bounded (<[nm := sc]> m).
Proof. intros [Hs Hm] Hnm Hk. split; [by apply insert_size31|by apply map_Forall_insert_2]. Qed.
Lemma set_bounded_delete m nm : set_bounded m → set_bounded (delete nm m).
Proof. intros [Hs Hm]. split; [by apply delete_size31|by apply map_Forall_delete]. Qed.
Lemma bounded_insert a k e :
  bounded a → entry_bounded k e → ¬ (a !! k = None ∧ size a = 31%nat) → bounded (<[k := e]> a).
Proof. intros [Hs Ha] He Hk. split; [by apply insert_size31|by apply map_Forall_insert_2]. Qed.
Lemma bounded_delete a k : bounded a → bounded (delete k a).
Proof. intros [Hs Ha]. split; [by apply delete_size31|by apply map_Forall_delete]. Qed.
Lemma bounded_entry a k e : bounded a → a !! k = Some e → entry_bounded k e.
Proof. intros [_ Ha]. apply Ha. Qed.

(** Fewer keys. *)
Lemma bounded_filter (P : bytes * AEntry → Prop) `{∀ p, Decision (P p)} a : bounded a → bounded (filter P a).
Proof.
  intros [Hs Ha]. split.
  - assert (size (filter P a) ≤ size a)%nat; [|lia].
    rewrite <-!(size_dom (D:=gset bytes)). by apply subseteq_size, dom_filter_subseteq.
  - intros k e [Hk _]%map_lookup_filter_Some. by apply Ha.
Qed.

Lemma bounded_set_at a k m : bounded a → set_at a k = Some m → set_bounded m.
Proof.
  intros Ha. unfold set_at. destruct (a !! k) as [e|] eqn:Hk.
  - apply (bounded_entry _ _ _ Ha Hk).
  - intros [= <-]. apply set_bounded_empty.
Qed.

Lemma bounded_with_set a k m :
  bounded a → blen k <= k_max_msg → set_bounded m → new_key_aborts a k = false → bounded (with_set k m a).
Proof.
  unfold new_key_aborts. intros Ha Hk Hm Hn%bool_decide_eq_false. apply bounded_insert; [done| |done].
  destruct (a !! k) as [e|] eqn:He; (split; [done|]); cbn.
  - destruct (bounded_entry _ _ _ Ha He) as (_ & Hv & _). split; [done|]. by intros ? [= <-].
  - split; [done|]. by intros ? [= <-].
Qed.

(** ** The commands keep the bounds *)
Lemma bounded_set_string a k v :
  bounded a → blen k <= k_max_msg → blen v <= k_max_msg → new_key_aborts a k = false → bounded (set_string k v a).
Proof.
  unfold new_key_aborts. intros Ha Hk Hv Hn%bool_decide_eq_false. apply bounded_insert; [done| |done].
  destruct (a !! k) as [e|] eqn:He; (split; [done|]); (split; [done|]); cbn; [|done].
  by destruct (bounded_entry _ _ _ Ha He) as (_ & _ & Hm).
Qed.

Lemma bounded_set_expiry now ttl k a : bounded a → bounded (set_expiry now ttl k a).
Proof.
  intros [Hs Ha]. unfold set_expiry. split.
  - rewrite <-(size_dom (D:=gset bytes)), dom_alter_L, size_dom. done.
  - intros j e. rewrite lookup_alter_Some. intros [(<- & e0 & He & ->)|[_ He]]; by apply (Ha _ _ He).
Qed.

Lemma bounded_add_member a k b sc nm m :
  bounded a → blen nm <= k_max_msg → str2dbl b = (true, sc) → set_at a k = Some m →
  aborts a [str "zadd"; k; b; nm] = false → set_bounded (add_member nm sc m) ∧ new_key_aborts a k = false.
Proof.
  intros Ha Hnm Hb Hm. unfold aborts. rewrite bool_decide_true, Hb by done. cbn [fst andb].
  intros [Hn Hs]%orb_false_iff. split; [|done]. pose proof (bounded_set_at a k m Ha Hm) as Hbd.
  assert (set_bounded (<[nm := sc]> m)) as Hins.
  { apply set_bounded_insert; [done..|]. unfold set_at in Hm. destruct (a !! k) as [e|] eqn:Hk; cbn in Hs.
    - rewrite Hm in Hs. by apply bool_decide_eq_false in Hs.
    - injection Hm as <-. by intros [_ ?]. }
  unfold add_member. destruct (m !! nm); [|done]. by destruct (f64_eq _ _).
Qed.

(** The arguments of a request, one by one. *)
Ltac args H := repeat match type of H with args_ok (_ :: _) => apply Forall_cons in H as [? H] | Forall _ (_ :: _) => apply Forall_cons in H as [? H] end.

Lemma executes_bounded now a cmd r a' :
  executes now a cmd r a' → args_ok cmd → aborts a cmd = false → bounded a → bounded a'.
Proof.
  intros Hx Hargs Hab Ha. destruct Hx; try exact Ha; args Hargs.
  - apply bounded_set_string; [done..|]. cbn in Hab. by destruct (new_key_aborts a k).
  - by apply bounded_delete.
  - by apply bounded_set_expiry.
  - eapply bounded_add_member in Hab as [? ?]; [|done..]. by apply bounded_with_set.
  - destruct (a !! k) as [e|] eqn:Hk; [|done]. apply bounded_with_set; [done..| |].
    + by eapply set_bounded_delete, bounded_set_at.
    + unfold new_key_aborts. rewrite Hk. by apply bool_decide_eq_false_2; intros [? _].
Qed.

(** ** The sizes of the replies *)
Lemma arr_size (vs : list wvalue) n c :
  Z.of_nat (length vs) <= n → 0 <= c → Forall (λ v, blen (enc v) <= c) vs → blen (enc (WArr vs)) <= 5 + n * c.
Proof.
  intros Hn Hc Hvs. rewrite out_value_arr, out_values_enc. rewrite blen_app.
  assert (blen (out_arr [] (blen vs)) = 5) as -> by done.
  assert (blen (concat (enc <$> vs)) <= Z.of_nat (length vs) * c); [|nia]. clear Hn. induction Hvs as [|v vs Hv _ IH].
  - done.
  - rewrite fmap_cons. cbn [concat length]. rewrite blen_app, Nat2Z.inj_succ, Z.mul_succ_l.
    lia.
Qed.

Lemma str_size s : blen (enc (WStr s)) = 5 + blen s.
Proof.
  unfold out_value, out_str, append_buffer_u8, append_buffer_u32, append_buffer.
  unfold blen. rewrite !length_app, length_le_bytes. cbn [length]. lia.
Qed.

Definition max_str : Z := 2 ^ 27.
Lemma str_bound s t : blen s <= k_max_msg → blen t <= k_max_msg + 3 → blen (enc (WStr (s ++ t))) <= max_str.
Proof.
  rewrite str_size, blen_app. unfold k_max_msg, max_str. change (Z.shiftl 32 20) with 33554432. lia.
Qed.
Lemma name_bound s : blen s <= k_max_msg → blen (enc (WStr s)) <= max_str.
Proof. intros Hs. rewrite <-(app_nil_r s). by apply str_bound. Qed.

Lemma keys_bound a kvs : bounded a → kvs ≡ₚ map_to_list a → blen (enc (WArr (key_line <$> kvs))) <= 5 + 31 * max_str.
Proof.
  intros [Hs Ha] Hp. apply arr_size; [|done|].
  - rewrite length_fmap, Hp. rewrite length_map_to_list. lia.
  - apply Forall_fmap, Forall_forall. intros [k e] Hin. rewrite Hp in Hin. apply elem_of_map_to_list in Hin.
    destruct (Ha _ _ Hin) as (Hk & Hv & _).
    change (blen (enc (WStr (k ++ str " : " ++ a_value e))) <= max_str). apply str_bound; [done|]. rewrite blen_app.
    change (blen (str " : ")) with 3. lia.
Qed.

Lemma query_bound m l sc nm offset limit :
  set_bounded m → ordered m l → blen (enc (query_reply (query l sc nm offset limit))) <= 5 + 62 * max_str.
Proof.
  intros [Hs Hm] [_ Hl].
  assert (∀ d, d ∈ l → blen (name d) <= k_max_msg) as Hnames.
  { intros d Hd. apply (Hm (name d) (score d)), elem_of_map_to_list. rewrite <-Hl. by apply (list_elem_of_fmap_2 (λ d, (name d, score d))). }
  assert (length l ≤ 31)%nat as Hlen.
  { apply Permutation_length in Hl. rewrite length_fmap, length_map_to_list in Hl. lia. }
  assert (∀ ds, sublist ds l → blen (enc (query_reply ds)) <= 5 + 62 * max_str) as Hds.
  { intros ds Hds. apply arr_size; [|done|].
    - assert (length (concat ((λ d, [WStr (name d); WDbl (score d)]) <$> ds)) = 2 * length ds)%nat as ->
        by (clear; induction ds as [|d ds IH]; [done|]; rewrite fmap_cons; cbn [concat length app]; lia).
      apply sublist_length in Hds. lia.
    - apply Forall_concat, Forall_fmap, Forall_forall. intros d Hd.
      apply Forall_cons. split; [|by repeat constructor]. apply name_bound, Hnames.
      by eapply elem_of_sublist. }
  apply Hds. unfold query. case_bool_decide; [apply sublist_nil_l|].
  transitivity (drop (Z.to_nat (Z.of_nat (length (filter (λ d, zlt d (mkZData sc nm)) l)) + i32 offset)) l).
  - apply sublist_take.
  - apply sublist_drop.
Qed.

Lemma executes_size now a cmd r a' :
  executes now a cmd r a' → bounded a → blen (enc r) < 2 ^ 64.
Proof.
  assert (5 + 62 * max_str < 2 ^ 64) as Hmax by done. assert (0 < max_str) as Hpos by done.
  intros Hx Ha. destruct Hx as [|k| | |kvs Hkvs| | | | | | | | | |k nm m Hm| | | |k b sc nm o offset n limit m l _ _ _ Hm Hl|]; try done.
  - unfold get_reply. destruct (a !! k) as [e|] eqn:Hk; [|done].
    destruct (bounded_entry _ _ _ Ha Hk) as (_ & Hv & _). apply name_bound in Hv. lia.
  - pose proof (keys_bound a kvs Ha Hkvs). lia.
  - unfold score_reply. by destruct (m !! nm).
  - pose proof (query_bound m l sc nm offset limit (bounded_set_at _ _ _ Ha Hm) Hl). lia.
Qed.
