(* ===== verification/CommandProofs.v ===== *)
(** The commands on strings, keys and expiration times do what [executes]
    says. *)
From Stdlib Require Import Strings.String.
From stdpp Require Import functions.
From S2P Require Import Prelude Bytes Serialize Protocol NetIO Common AvlTree AvlModel AvlRefine.
From S2P Require Import Hashtable HashtableProofs Heap HeapProofs SortedSet ZOrder SortedSetProofs.
From S2P Require Import Commands KeySpace EntryOps CommandSpec.

Open Scope list_scope.

(** A handler answers the request and leaves a key space as [executes]
    allows. *)
Definition refines (now : Z) (a : keyspace) (cmd : list bytes) (d : bytes) (s' : ServerData) : Prop :=
  ∃ r a', d = out_value [] r ∧ executes now a cmd r a' ∧ models s' a'.

Lemma wp_arg cmd i b (Q : bytes → ServerData → Prop) s : cmd !! i = Some b → Q b s → wp (arg cmd i) Q s.
Proof. intros Hb HQ. unfold arg. by eapply wp_deref. Qed.

(** Reads the arguments of a request that has them. *)
Ltac get_args := repeat (apply wp_bind; eapply wp_arg; [reflexivity|]).

(** [set_key] *)
Lemma set_key_lemma now s a k v :
  models s a → blen v <= k_max_msg →
  if new_key_aborts a k then set_key [str "set"; k; v] [] s = AssertFail
  else wp (set_key [str "set"; k; v] []) (refines now a [str "set"; k; v]) s.
Proof.
  intros Hm Hv. unfold new_key_aborts.
  destruct (db_lookup_cases s a k Hm) as [[Hk Hl]|(x & e & ys & F & Hl & Hat)].
  - destruct (entry_create s a k v TYPE_INIT Hm Hk ltac:(by left) Hv) as (x & s1 & Hnew & Hins).
    assert (bool_decide (a !! k = None ∧ size a = 31%nat) = bool_decide (size a = 31%nat)) as ->
      by (apply bool_decide_ext; tauto).
    case_bool_decide.
    + unfold set_key. rewrite (bind_done _ _ _ k s), (bind_done _ _ _ v s), (bind_done _ _ _ _ _ Hl) by done.
      apply bind_assert_fail. by rewrite (bind_done _ _ _ _ _ Hnew).
    + unfold set_key. get_args. apply wp_bind. eapply wp_done; [exact Hl|]. apply wp_bind, wp_bind.
      eapply wp_done; [exact Hnew|]. eapply wp_mono; [exact Hins|]. intros [] s' (ys & F & Hat & HF).
      apply wp_ret. exists WNil, (set_string k v a). split; [done|]. split; [constructor|].
      unfold set_string. rewrite Hk. by eapply at_key_models.
  - pose proof (at_key_lookup _ _ _ _ _ _ _ Hat) as Hk. pose proof (at_key_entry _ _ _ _ _ _ _ Hat) as (Hi & Hty & _).
    rewrite bool_decide_false by (intros [? _]; congruence).
    unfold set_key. get_args. apply wp_bind. eapply wp_done; [exact Hl|]. apply wp_bind.
    eapply wp_done; [by apply modify_entry, Hat|]. apply wp_ret.
    exists WNil, (set_string k v a). split; [done|]. split; [constructor|].
    unfold set_string. rewrite Hk.
    by apply (at_key_update s a k x e ys F (set_value v e) (F x) (zheap s) Hat); try apply Hat; try apply zchange_refl.
Qed.

(** [get_key] *)
Lemma get_key_lemma now s a k :
  models s a → wp (get_key [str "get"; k] []) (refines now a [str "get"; k]) s.
Proof.
  intros Hm. unfold get_key. get_args. apply wp_bind.
  destruct (db_lookup_cases s a k Hm) as [[Hk Hl]|(x & e & ys & F & Hl & Hat)];
    (eapply wp_done; [exact Hl|]).
  - apply wp_ret. exists (get_reply a k), a. split; [unfold get_reply; by rewrite Hk|]. split; [constructor|done].
  - pose proof (at_key_lookup _ _ _ _ _ _ _ Hat) as Hk. pose proof (at_key_entry _ _ _ _ _ _ _ Hat) as (_ & _ & Hv).
    apply wp_bind. eapply wp_done; [by apply load_entry, Hat|].
    apply wp_bind, wp_assert; [by apply Z.leb_le|]. apply wp_ret.
    exists (get_reply a k), a. split; [unfold get_reply; by rewrite Hk|]. split; [constructor|done].
Qed.

(** [get_ttl_ms] *)
Lemma get_ttl_lemma now s a k :
  models s a → wp (get_ttl_ms now [str "pttl"; k] []) (refines now a [str "pttl"; k]) s.
Proof.
  intros Hm. unfold get_ttl_ms. get_args. apply wp_bind.
  destruct (db_lookup_cases s a k Hm) as [[Hk Hl]|(x & e & ys & F & Hl & Hat)];
    (eapply wp_done; [exact Hl|]).
  - apply wp_ret. exists (ttl_reply now a k), a. split; [unfold ttl_reply; by rewrite Hk|]. split; [constructor|done].
  - pose proof (at_key_lookup _ _ _ _ _ _ _ Hat) as Hk.
    pose proof (po_ttl _ _ _ (so_parts _ _ _ (ak_ok _ _ _ _ _ _ _ Hat))) as Ht.
    pose proof (ttl_index _ _ x Ht ltac:(by left)) as Hpl.
    destruct (ttls (heap s) !! x) as [t|] eqn:Hx.
    + destruct Hpl as (p & Hp & Hi & Hne). apply wp_bind. eapply wp_done; [by apply get_heap_idx_run|].
      rewrite (proj2 (Z.eqb_neq (Z.of_nat p) size_max)) by done. apply wp_bind, wp_on_heap.
      eapply wp_heap_get; [exact Hp|]. apply wp_ret. exists (ttl_reply now a k), a.
      split; [unfold ttl_reply; rewrite Hk; cbn; by rewrite Hx|]. split; [constructor|by destruct s].
    + apply wp_bind. eapply wp_done; [by apply get_heap_idx_run|]. rewrite Z.eqb_refl. apply wp_ret.
      exists (ttl_reply now a k), a. split; [unfold ttl_reply; rewrite Hk; cbn; by rewrite Hx|].
      split; [constructor|done].
Qed.

(** [set_ttl_ms] *)
Lemma set_ttl_lemma now s a k b :
  models s a → wp (set_ttl_ms now [str "pexpire"; k; b] []) (refines now a [str "pexpire"; k; b]) s.
Proof.
  intros Hm. unfold set_ttl_ms. get_args. destruct (str2int b) as [[] ttl] eqn:Hb.
  2: { apply wp_ret. exists (bad_arg "expect int"), a. split; [done|]. split; [|done]. constructor. by rewrite Hb. }
  get_args. apply wp_bind. destruct (db_lookup_cases s a k Hm) as [[Hk Hl]|(x & e & ys & F & Hl & Hat)];
    (eapply wp_done; [exact Hl|]).
  - apply wp_bind, wp_ret, wp_ret. exists (present a k), (set_expiry now ttl k a).
    split; [unfold present; by rewrite Hk|]. split; [by constructor|].
    unfold set_expiry. by rewrite alter_id by (intros ? ?; congruence).
  - pose proof (at_key_lookup _ _ _ _ _ _ _ Hat) as Hk.
    pose proof (so_parts _ _ _ (ak_ok _ _ _ _ _ _ _ Hat)) as Hp. apply wp_bind.
    eapply wp_mono; [apply (entry_set_ttl_lemma now s (x :: ys) x ttl); [apply Hp|by left|apply Hp|apply Hp]|].
    intros [] s' (h & -> & Hh & Ht). apply wp_ret. exists (present a k), (set_expiry now ttl k a).
    split; [unfold present; by rewrite Hk|]. split; [by constructor|].
    unfold set_expiry. rewrite (alter_alt_Some _ _ _ _ Hk).
    assert (expire_at now ttl (contents s (F x) x e) = contents (with_heap h s) (F x) x e) as ->.
    { unfold expire_at, contents. cbn [heap zheap with_heap a_value a_set]. rewrite Ht.
      destruct (ttl <? 0); [by rewrite lookup_delete_eq|by rewrite lookup_insert_eq]. }
    eapply at_key_ttl; [exact Hat|exact Hh|]. intros y Hy. rewrite Ht.
    destruct (ttl <? 0); [by rewrite lookup_delete_ne|by rewrite lookup_insert_ne].
Qed.

(** [del_key] *)
Lemma del_key_lemma now s a k :
  models s a → wp (del_key now [str "del"; k] []) (refines now a [str "del"; k]) s.
Proof.
  intros (xs & F & Hok & <-). unfold del_key. get_args. apply wp_bind.
  pose proof (string_hash_range k) as [Hhc _].
  eapply wp_mono; [by apply (db_delete_lemma s xs F (string_hash k) (λ s, entry_equals s k))|].
  intros [x|] s' (d & n & -> & Hq & Hp & Hres).
  - destruct Hres as (Hm & ys & Hxs & Hdb). apply wp_bind.
    apply (entry_hmatch s (F x)) in Hm as (e & He & <-); [|apply Hok; rewrite Hxs; by left].
    eapply wp_mono; [by eapply entry_removed|]. intros [] s' Hm. apply wp_ret.
    exists (present (abs s F xs) (key e)), (delete (key e) (abs s F xs)).
    split; [|split; [constructor|exact Hm]].
    assert (abs s F xs !! key e = Some (contents s (F x) x e)) as Hk.
    { apply abs_lookup; [apply Hok|]. exists x. split; [rewrite Hxs; by left|]. unfold binding. by rewrite He. }
    unfold present. by rewrite Hk.
  - destruct Hres as [Hn Hdb]. apply wp_bind, wp_ret, wp_ret.
    assert (abs s F xs !! k = None) as Hk.
    { apply abs_none. intros x e Hx He Hek. specialize (Hn x Hx).
      assert (hmatch (db_nodes s) (string_hash k) (entry_equals s k) x = true); [|congruence].
      apply (entry_hmatch s (F x)); [by apply Hok|by exists e]. }
    exists (present (abs s F xs) k), (delete k (abs s F xs)).
    split; [unfold present; by rewrite Hk|]. split; [constructor|].
    rewrite delete_id by done. exists xs, F. by split.
Qed.

(** [all_keys] *)
Lemma cb_keys_fold s F ys : ∀ out,
  (∀ x, x ∈ ys → is_Some (entries s !! x)) →
  fold_until (cb_keys s) ys out =
  (true, out ++ concat ((λ p, out_value [] (key_line p)) <$> omap (binding s F) ys)).
Proof.
  induction ys as [|y ys IH]; intros out Hys; [by rewrite app_nil_r|].
  cbn [fold_until omap list_omap]. destruct (Hys y) as [e He]; [by left|].
  unfold cb_keys at 1. rewrite He. rewrite IH by (intros x Hx; apply Hys; by right).
  unfold binding at 2. rewrite He. cbn [mbind option_bind]. rewrite fmap_cons. cbn [concat].
  f_equal. rewrite out_str_app. by rewrite <-app_assoc.
Qed.

Lemma all_keys_lemma now s a : models s a → wp (all_keys []) (refines now a [str "keys"]) s.
Proof.
  intros (xs & F & Hok & <-). pose proof Hok as [(csn & cso & Hrep & Hxs) Hq Hp].
  unfold all_keys. apply wp_bind, wp_get, wp_on_nodes.
  eapply wp_done; [by apply (hm_foreach_lemma (cb_keys s) _ _ _ _ _ Hrep)|].
  unfold hm_elems. rewrite (cb_keys_fold s F).
  2: { intros x Hx. destruct (po_entries _ _ _ Hp x) as (e & -> & _); [by rewrite Hxs|eauto]. }
  cbn [snd].
  assert (omap (binding s F) (concat csn ++ concat cso) ≡ₚ map_to_list (abs s F xs)) as Hperm.
  { rewrite (abs_perm s F _ _ (po_keys _ _ _ Hp) Hxs). unfold abs. rewrite map_to_list_to_map; [done|].
    apply bindings_nodup. rewrite <-Hxs. apply Hp. }
  exists (WArr (key_line <$> omap (binding s F) (concat csn ++ concat cso))), (abs s F xs).
  split; [|split; [by constructor|exists xs, F; by destruct s]].
  rewrite out_value_arr, out_values_enc, <-list_fmap_compose. f_equal. f_equal.
  rewrite (hm_size_spec _ _ _ (so_db _ _ _ Hok)). unfold blen.
  rewrite length_fmap, (Permutation_length Hperm), length_map_to_list, (abs_size s xs F) by done.
  pose proof (po_size _ _ _ Hp). apply u32_id. lia.
Qed.
