(* ===== verification/ZCommands.v ===== *)
(** The commands on sorted sets do what [executes] says. *)
From Stdlib Require Import Strings.String.
From stdpp Require Import functions.
From S2P Require Import Prelude Bytes Serialize Protocol NetIO Common AvlTree AvlModel AvlRefine.
From S2P Require Import Hashtable HashtableProofs Heap HeapProofs SortedSet ZOrder SortedSetProofs.
From S2P Require Import Commands KeySpace EntryOps CommandSpec CommandProofs.

Open Scope list_scope.

(** * Sets on their own *)
Lemma zset_lookup_exact s z T nm :
  zset_inv s z T →
  ∃ r, zset_lookup z nm s = Done ((r, z), s) ∧
    match r with
    | Some x => x ∈ elems T ∧ ∃ sc, zdata s !! x = Some (mkZData sc nm) ∧ zmap s T !! nm = Some sc
    | None => zmap s T !! nm = None
    end.
Proof.
  intros [Hok Hq _]. pose proof Hok as [Ht Hh Hc]. unfold zset_lookup. destruct (zroot z) as [rt|] eqn:Hr.
  - destruct (hm_lookup_quiet_lemma (zhash s) (zhmap z) (elems T) (string_hash nm) (hcmp s nm) Hh Hq)
      as (r & Hrun & Hres); [apply string_hash_range|].
    exists r. split.
    { rewrite (bind_done _ _ _ s s) by done. erewrite bind_done; [|by apply zoom_done].
      unfold mret, M_ret. rewrite <-Hr. by destruct z, s. }
    destruct r as [x|].
    + destruct Hres as [Hx Hm]. split; [done|].
      destruct (do_data _ _ (to_data _ _ _ Ht) x Hx) as ([sc nm'] & Hd & _).
      rewrite (hmatch_member s z T nm x _ Hok Hx Hd) in Hm. apply bool_decide_eq_true in Hm. cbn in Hm. subst nm'.
      exists sc. split; [done|]. by apply (zset_names s z T x _ Hok Hx Hd).
    + apply (zmap_none s z T nm Hok). intros x d Hx Hd Hn. specialize (Hres x Hx).
      rewrite (hmatch_member s z T nm x _ Hok Hx Hd), bool_decide_true in Hres by done. done.
  - exists None. split; [done|]. apply (zmap_none s z T nm Hok). intros x d Hx. exfalso.
    pose proof (to_root _ _ _ Ht) as Hrt. destruct T; [by apply not_elem_of_nil in Hx|done].
Qed.

Lemma zmap_size s z T : zset_ok s z T → size (zmap s T) = length (elems T).
Proof.
  intros Hok. unfold zmap. rewrite map_size_list_to_map.
  - rewrite length_fmap. unfold members. pose proof (do_data _ _ (to_data _ _ _ (zo_tree _ _ _ Hok))) as Hd.
    induction (elems T) as [|x xs IH]; [done|]. cbn [omap list_omap].
    destruct (Hd x) as (d & Hdx & _); [by left|]. rewrite Hdx. cbn [length]. f_equal. apply IH.
    intros y Hy. apply Hd. by right.
  - rewrite <-list_fmap_compose. apply (members_nodup s T); apply Hok.
Qed.

Lemma insert_change s z T nm sc r s' T' :
  zset_inv s z T →
  match zmap s T !! nm with
  | Some old => r.1 = false ∧ elems T' ≡ₚ elems T ∧ zframe (elems T) s s' ∧
      zmap s' T' = if f64_eq old sc then zmap s T else <[nm := sc]> (zmap s T)
  | None => r.1 = true ∧ zmap s' T' = <[nm := sc]> (zmap s T) ∧
      ∃ x, x ∉ elems T ∧ unallocated s x ∧ elems T' ≡ₚ x :: elems T ∧ zframe (x :: elems T) s s'
  end →
  zchange (elems T) (elems T') s s' ∧ zmap s' T' = add_member nm sc (zmap s T) ∧
  out_int [] (if (r : bool * ZSet).1 then 1 else 0) = out_value [] (added (zmap s T) nm).
Proof.
  intros Hi. unfold add_member, added. destruct (zmap s T !! nm) as [old|].
  - intros (-> & Hp & Hf & Hm). split; [|done]. split_and!.
    + intros a Ha. apply Hf. rewrite elem_of_app in Ha. tauto.
    + intros a Ha. left. by rewrite <-Hp.
    + intros a Ha Hn. by rewrite Hp in Hn.
  - intros (-> & Hm & x & Hx & Hu & Hp & Hf). split; [|done]. split_and!.
    + intros a Ha. apply Hf. rewrite elem_of_app, Hp in Ha. tauto.
    + intros a. rewrite Hp. intros [->|?]%elem_of_cons; [by right|by left].
    + intros a Ha Hn. rewrite Hp in Hn. exfalso. apply Hn. by right.
Qed.

Lemma str2dbl_number b sc : str2dbl b = (true, sc) → isnan sc = false.
Proof.
  unfold str2dbl. destruct (strtod b) as [o r]. intros [= H <-].
  apply andb_true_iff in H as [_ H]. by apply negb_true_iff in H.
Qed.

(** * The set of an entry *)
Lemma is_zset e T : type_ok e T → (type e =? TYPE_ZSET) = true ∨ (type e =? TYPE_ZSET) = false ∧ T = Leaf.
Proof. intros [->|[-> ->]]; [by left|by right]. Qed.

Lemma contents_set s T x e : (type e =? TYPE_ZSET) = true → a_set (contents s T x e) = Some (zmap (zheap s) T).
Proof. intros H. unfold contents. cbn. by rewrite H. Qed.

(** A new set in an entry. *)
Lemma at_key_set s a k x e ys F z' zh T :
  at_key s a k x e ys F → (type e =? TYPE_ZSET) = true → zset_inv zh z' T →
  zchange (elems (F x)) (elems T) (zheap s) zh →
  models (with_entry x (set_zset z' e) zh s) (with_set k (zmap zh T) a).
Proof.
  intros Hat Hty Hi Hch. pose proof (at_key_lookup _ _ _ _ _ _ _ Hat) as Hk.
  pose proof (at_key_entry _ _ _ _ _ _ _ Hat) as (_ & _ & Hv). unfold with_set. rewrite Hk.
  assert (mkAEntry (a_value (contents s (F x) x e)) (Some (zmap zh T)) (a_expiry (contents s (F x) x e)) =
    contents (with_entry x (set_zset z' e) zh s) T x (set_zset z' e)) as ->.
  { unfold contents. cbn [type set_zset value zheap heap with_entry a_value a_expiry]. by rewrite Hty. }
  eapply at_key_update; [done|apply Hat|done| |done|done].
  left. cbn. by apply Z.eqb_eq.
Qed.

(** What [expect_zset] finds, with the set in the abstract state. *)
Lemma expect_zset_cases s a k :
  models s a →
  match set_at a k with
  | None => expect_zset k s = Done (None, s)
  | Some m =>
      (expect_zset k s = Done (Some ZEmpty, s) ∧ a !! k = None ∧ m = ∅) ∨
      (∃ x e ys F, expect_zset k s = Done (Some (ZOf x), s) ∧ at_key s a k x e ys F ∧
         (type e =? TYPE_ZSET) = true ∧ m = zmap (zheap s) (F x))
  end.
Proof.
  intros Hm. unfold set_at, expect_zset.
  destruct (db_lookup_cases s a k Hm) as [[Hk Hl]|(x & e & ys & F & Hl & Hat)].
  - rewrite Hk. left. split; [|done]. by rewrite (bind_done _ _ _ _ _ Hl).
  - rewrite (at_key_lookup _ _ _ _ _ _ _ Hat).
    pose proof (at_key_entry _ _ _ _ _ _ _ Hat) as (_ & Hty & _).
    assert (∀ r, (e0 ← on_entries (load x); mret (if type e0 =? TYPE_ZSET then Some (ZOf x) else None)) s = r →
      (hnode ← db_lookup k; match hnode with
        | Some ent => e0 ← on_entries (load ent); mret (if type e0 =? TYPE_ZSET then Some (ZOf ent) else None)
        | None => mret (Some ZEmpty) end) s = r) as Hrun.
    { intros r <-. by rewrite (bind_done _ _ _ _ _ Hl). }
    destruct (is_zset _ _ Hty) as [Hz|[Hz HT]].
    + rewrite (contents_set _ _ _ _ Hz). right. exists x, e, ys, F. split; [|done].
      apply Hrun. rewrite (bind_done _ _ _ _ _ (load_entry _ _ _ (ak_entry _ _ _ _ _ _ _ Hat))). by rewrite Hz.
    + unfold contents. cbn. rewrite Hz. apply Hrun.
      rewrite (bind_done _ _ _ _ _ (load_entry _ _ _ (ak_entry _ _ _ _ _ _ _ Hat))). by rewrite Hz.
Qed.

(** Writing back the set that was read changes nothing. *)
Lemma zset_put_same s x e : entries s !! x = Some e → zset_put (ZOf x) (zset e) s = Done ((), s).
Proof.
  intros He. cbn [zset_put]. rewrite (modify_entry _ _ _ _ He). do 2 f_equal.
  assert (set_zset (zset e) e = e) as -> by by destruct e. rewrite insert_id by done. by destruct s.
Qed.
Lemma zset_get_run s x e : entries s !! x = Some e → zset_get (ZOf x) s = Done (zset e, s).
Proof. intros He. cbn [zset_get]. by rewrite (bind_done _ _ _ _ _ (load_entry _ _ _ He)). Qed.

(** * ZSCORE *)
Lemma zcmd_score_lemma now s a k nm :
  models s a → wp (zcmd_score [str "zscore"; k; nm] []) (refines now a [str "zscore"; k; nm]) s.
Proof.
  intros Hm. unfold zcmd_score. get_args. apply wp_bind. pose proof (expect_zset_cases s a k Hm) as Hex.
  destruct (set_at a k) as [m|] eqn:Hset.
  2: { eapply wp_done; [exact Hex|]. apply wp_ret. exists bad_type, a. split; [done|]. split; [by constructor|done]. }
  destruct Hex as [(Hex & Hk & ->)|(x & e & ys & F & Hex & Hat & Hty & ->)]; (eapply wp_done; [exact Hex|]); get_args.
  - apply wp_bind, wp_ret, wp_bind, wp_on_zheap, wp_ret, wp_bind. cbn [zset_put]. rewrite decide_True by done.
    apply wp_ret, wp_ret. exists (score_reply ∅ nm), a. split; [by unfold score_reply; rewrite lookup_empty|].
    split; [by constructor|by destruct s].
  - pose proof (ak_entry _ _ _ _ _ _ _ Hat) as He. pose proof (at_key_entry _ _ _ _ _ _ _ Hat) as (Hi & _ & _).
    destruct (zset_lookup_exact (zheap s) (zset e) (F x) nm Hi) as (r & Hrun & Hr).
    apply wp_bind. eapply wp_done; [by apply zset_get_run|]. apply wp_bind, wp_on_zheap.
    eapply wp_done; [exact Hrun|]. apply wp_bind.
    assert (mkServerData (db s) (db_nodes s) (entries s) (heap s) (zheap s) (pool s) = s) as -> by by destruct s.
    eapply wp_done; [by apply zset_put_same|]. destruct r as [n|].
    + destruct Hr as (_ & sc & Hd & Hmn). apply wp_bind, wp_on_zheap. eapply wp_load_data; [exact Hd|].
      apply wp_ret. exists (score_reply (zmap (zheap s) (F x)) nm), a.
      split; [by unfold score_reply; rewrite Hmn|]. split; [by constructor|]. by destruct s.
    + apply wp_ret. exists (score_reply (zmap (zheap s) (F x)) nm), a.
      split; [by unfold score_reply; rewrite Hr|]. by split; [constructor|].
Qed.

(** * ZREM *)
Lemma zcmd_remove_lemma now s a k nm :
  models s a → wp (zcmd_remove [str "zrem"; k; nm] []) (refines now a [str "zrem"; k; nm]) s.
Proof.
  intros Hm. unfold zcmd_remove. get_args. apply wp_bind. pose proof (expect_zset_cases s a k Hm) as Hex.
  destruct (set_at a k) as [m|] eqn:Hset.
  2: { eapply wp_done; [exact Hex|]. apply wp_ret. exists bad_type, a. split; [done|]. split; [by constructor|done]. }
  destruct Hex as [(Hex & Hk & ->)|(x & e & ys & F & Hex & Hat & Hty & ->)]; (eapply wp_done; [exact Hex|]); get_args.
  - apply wp_bind, wp_ret, wp_bind, wp_on_zheap, wp_ret, wp_bind, wp_ret, wp_bind. cbn [zset_put].
    rewrite decide_True by done. apply wp_ret, wp_ret. exists (removed ∅ nm), a.
    split; [by unfold removed; rewrite lookup_empty|]. split; [|by destruct s].
    pose proof (ex_zrem now a k nm ∅ Hset) as H. by rewrite Hk in H.
  - pose proof (ak_entry _ _ _ _ _ _ _ Hat) as He. pose proof (at_key_entry _ _ _ _ _ _ _ Hat) as (Hi & _ & _).
    pose proof (at_key_lookup _ _ _ _ _ _ _ Hat) as Hk.
    pose proof (ex_zrem now a k nm _ Hset) as Hx. rewrite Hk in Hx.
    destruct (zset_lookup_exact (zheap s) (zset e) (F x) nm Hi) as (r & Hrun & Hr).
    apply wp_bind. eapply wp_done; [by apply zset_get_run|]. apply wp_bind, wp_on_zheap.
    eapply wp_done; [exact Hrun|].
    assert (mkServerData (db s) (db_nodes s) (entries s) (heap s) (zheap s) (pool s) = s) as -> by by destruct s.
    apply wp_bind. destruct r as [n|].
    + destruct Hr as (Hn & sc & Hd & Hmn). apply wp_on_zheap.
      eapply wp_mono; [by apply (zset_delete_lemma _ _ _ _ _ Hi Hn Hd)|].
      intros z' zh (T & Hi' & Hp & Hf & Hun & Hz). apply wp_bind. cbn [zset_put name] in *.
      eapply wp_done; [by apply modify_entry|]. apply wp_ret.
      eexists _, _. split; [|split; [exact Hx|]]; [by unfold removed; rewrite Hmn|].
      rewrite <-Hz. apply (at_key_set s a k x e ys F z' zh T Hat Hty Hi').
      assert (n ∉ elems T) as HnT.
      { pose proof (to_nodup _ _ _ (zo_tree _ _ _ (zi_ok _ _ _ Hi))) as Hnd. rewrite Hp in Hnd.
        by apply NoDup_cons in Hnd as [? _]. }
      split_and!.
      * intros b Hb. apply Hf. rewrite elem_of_app in Hb. tauto.
      * intros b Hb. left. rewrite Hp. by right.
      * intros b Hb HbT. rewrite Hp in Hb. apply elem_of_cons in Hb as [->|]; done.
    + apply wp_ret, wp_bind. eapply wp_done; [by apply zset_put_same|]. apply wp_ret.
      eexists _, _. split; [|split; [exact Hx|]]; [by unfold removed; rewrite Hr|].
      rewrite delete_id by done. pose proof (at_key_set s a k x e ys F (zset e) (zheap s) (F x) Hat Hty Hi (zchange_refl _ _)) as Hms.
      assert (with_entry x (set_zset (zset e) e) (zheap s) s = s) as Heq; [|by rewrite Heq in Hms].
      assert (set_zset (zset e) e = e) as -> by by destruct e. unfold with_entry. rewrite insert_id by done. by destruct s.
Qed.

(** * ZADD *)

(** Adding a member to the set of an entry that exists. *)
Lemma zadd_entry s a k b sc nm x e ys F m :
  str2dbl b = (true, sc) → at_key s a k x e ys F → (type e =? TYPE_ZSET) = true → m = zmap (zheap s) (F x) →
  let run := ('(added, z) ← on_zheap (zset_insert (zset e) nm sc);
              on_entries (modify x (set_zset z));;
              mret (out_int [] (if added : bool then 1 else 0))) : SM bytes in
  if bool_decide (m !! nm = None ∧ size m = 31%nat) then run s = AssertFail
  else wp run (λ d s', d = out_value [] (added m nm) ∧ models s' (with_set k (add_member nm sc m) a)) s.
Proof.
  intros Hb Hat Hty -> run. pose proof (at_key_entry _ _ _ _ _ _ _ Hat) as (Hi & _ & _).
  pose proof (zset_insert_lemma (zheap s) (zset e) (F x) nm sc Hi (str2dbl_number _ _ Hb)) as Hins.
  rewrite <-(zmap_size _ _ _ (zi_ok _ _ _ Hi)) in Hins. case_bool_decide.
  - apply bind_assert_fail. unfold on_zheap, zoom. by rewrite Hins.
  - apply wp_bind, wp_on_zheap. eapply wp_mono; [exact Hins|].
    intros r zh (T & Hi' & Hres). destruct (insert_change _ _ _ _ _ _ _ _ Hi Hres) as (Hch & Hm & Hout).
    destruct r as [ad z']. cbn [fst snd] in *. apply wp_bind.
    eapply wp_done; [by apply modify_entry, Hat|]. apply wp_ret. split; [done|].
    rewrite <-Hm. exact (at_key_set s a k x e ys F z' zh T Hat Hty Hi' Hch).
Qed.

(** The key is new. *)
Lemma zadd_new now s a k b sc nm :
  models s a → str2dbl b = (true, sc) → a !! k = None → db_lookup k s = Done (None, s) →
  if bool_decide (size a = 31%nat) then zcmd_add [str "zadd"; k; b; nm] [] s = AssertFail
  else wp (zcmd_add [str "zadd"; k; b; nm] []) (refines now a [str "zadd"; k; b; nm]) s.
Proof.
  intros Hm Hb Hk Hl. assert (set_at a k = Some ∅) as Hset by (unfold set_at; by rewrite Hk).
  destruct (entry_create s a k [] TYPE_ZSET Hm Hk ltac:(by right) ltac:(done)) as (x & s1 & Hnew & Hins).
  unfold zcmd_add. case_bool_decide as Hsz.
  - rewrite (bind_done _ _ _ b s) by done. rewrite Hb. rewrite (bind_done _ _ _ k s), (bind_done _ _ _ _ _ Hl) by done.
    apply bind_assert_fail. rewrite (bind_done _ _ _ _ _ Hnew). by apply bind_assert_fail.
  - get_args. rewrite Hb. get_args. apply wp_bind. eapply wp_done; [exact Hl|]. apply wp_bind, wp_bind.
    eapply wp_done; [exact Hnew|]. apply wp_bind. eapply wp_mono; [exact Hins|].
    intros [] s' (ys & F & Hat & HF). apply wp_ret. get_args.
    apply wp_bind. eapply wp_done; [by apply load_entry, Hat|].
    pose proof (zadd_entry s' _ k b sc nm x _ ys F ∅ Hb Hat eq_refl ltac:(by rewrite HF)) as Hadd.
    rewrite bool_decide_false in Hadd by (rewrite map_size_empty; lia).
    eapply wp_mono; [exact Hadd|]. intros d s'' (-> & Hm'').
    exists (added ∅ nm), (with_set k (add_member nm sc ∅) a). split; [done|]. split; [by apply (ex_zadd _ _ _ _ sc)|].
    revert Hm''. unfold with_set. rewrite lookup_insert_eq, insert_insert_eq, Hk. done.
Qed.

(** The key has an entry: a sorted set, or not. *)
Lemma zadd_present now s a k b sc nm x e ys F :
  str2dbl b = (true, sc) → db_lookup k s = Done (Some x, s) → at_key s a k x e ys F →
  if match a !! k ≫= a_set with Some m => bool_decide (m !! nm = None ∧ size m = 31%nat) | None => false end
  then zcmd_add [str "zadd"; k; b; nm] [] s = AssertFail
  else wp (zcmd_add [str "zadd"; k; b; nm] []) (refines now a [str "zadd"; k; b; nm]) s.
Proof.
  intros Hb Hl Hat. pose proof (at_key_lookup _ _ _ _ _ _ _ Hat) as Hk. pose proof (at_key_entry _ _ _ _ _ _ _ Hat) as (Hi & Hty & _).
  rewrite Hk. cbn [mbind option_bind]. unfold zcmd_add.
  destruct (is_zset _ _ Hty) as [Hz|[Hz HT]].
  - rewrite (contents_set _ _ _ _ Hz).
    assert (set_at a k = Some (zmap (zheap s) (F x))) as Hset by (unfold set_at; rewrite Hk; by apply contents_set).
    pose proof (zadd_entry s a k b sc nm x e ys F _ Hb Hat Hz eq_refl) as Hadd. case_bool_decide.
    + rewrite (bind_done _ _ _ b s) by done. rewrite Hb. rewrite (bind_done _ _ _ k s), (bind_done _ _ _ _ _ Hl) by done.
      erewrite bind_done; [|by rewrite (bind_done _ _ _ _ _ (load_entry _ _ _ (ak_entry _ _ _ _ _ _ _ Hat))), Hz].
      cbn [negb]. rewrite (bind_done _ _ _ nm s) by done.
      rewrite (bind_done _ _ _ _ _ (load_entry _ _ _ (ak_entry _ _ _ _ _ _ _ Hat))). exact Hadd.
    + get_args. rewrite Hb. get_args. apply wp_bind. eapply wp_done; [exact Hl|].
      apply wp_bind, wp_bind. eapply wp_done; [by apply load_entry, Hat|]. apply wp_ret. rewrite Hz. cbn [negb].
      get_args. apply wp_bind. eapply wp_done; [by apply load_entry, Hat|].
      eapply wp_mono; [exact Hadd|]. intros d s' (-> & Hm').
      eexists _, _. split; [done|]. split; [by apply (ex_zadd _ _ _ _ sc)|done].
  - assert (set_at a k = None) as Hset by (unfold set_at; rewrite Hk; unfold contents; cbn; by rewrite Hz).
    assert (a_set (contents s (F x) x e) = None) as -> by (unfold contents; cbn; by rewrite Hz).
    pose proof (at_key_models _ _ _ _ _ _ _ Hat) as Hm.
    get_args. rewrite Hb. get_args. apply wp_bind. eapply wp_done; [exact Hl|].
    apply wp_bind, wp_bind. eapply wp_done; [by apply load_entry, Hat|]. apply wp_ret. rewrite Hz. cbn [negb].
    apply wp_ret. exists bad_type, a. split; [done|]. split; [by apply (ex_zadd_type _ _ _ _ sc)|done].
Qed.

Lemma zcmd_add_lemma now s a k b nm :
  models s a →
  if aborts a [str "zadd"; k; b; nm] then zcmd_add [str "zadd"; k; b; nm] [] s = AssertFail
  else wp (zcmd_add [str "zadd"; k; b; nm] []) (refines now a [str "zadd"; k; b; nm]) s.
Proof.
  intros Hm. unfold aborts. rewrite bool_decide_true by done. cbn [andb].
  destruct (str2dbl b) as [[] sc] eqn:Hb; cbn [fst andb].
  2: { unfold zcmd_add. get_args. rewrite Hb. apply wp_ret. exists (bad_arg "expect float"), a. split; [done|]. split; [|done].
       constructor. by rewrite Hb. }
  unfold new_key_aborts. destruct (db_lookup_cases s a k Hm) as [[Hk Hl]|(x & e & ys & F & Hl & Hat)].
  - assert (bool_decide (a !! k = None ∧ size a = 31%nat) = bool_decide (size a = 31%nat)) as ->
      by (apply bool_decide_ext; tauto).
    rewrite Hk. cbn [mbind option_bind]. rewrite orb_false_r. by eapply zadd_new.
  - rewrite (bool_decide_false (a !! k = None ∧ _)) by (intros [? _]; rewrite (at_key_lookup _ _ _ _ _ _ _ Hat) in *; done).
    cbn [orb]. by eapply zadd_present.
Qed.
