(* ===== verification/ZQuery.v ===== *)
(** The range query of zcmd_query returns the members [query] names, in
    order. *)
From Stdlib Require Import Strings.String.
From stdpp Require Import functions.
From S2P Require Import Prelude Bytes Serialize Protocol NetIO Common AvlTree AvlModel AvlRefine.
From S2P Require Import Hashtable HashtableProofs Heap HeapProofs SortedSet ZOrder SortedSetProofs.
From S2P Require Import Commands KeySpace EntryOps CommandSpec CommandProofs ZCommands.

Open Scope list_scope.

(** * The members as a list *)
Lemma omap_total {A B} (f : A → option B) (l : list A) :
  (∀ x, x ∈ l → is_Some (f x)) → Forall2 (λ x y, f x = Some y) l (omap f l).
Proof.
  induction l as [|x l IH]; intros H; cbn [omap list_omap]; [constructor|].
  destruct (H x) as [y Hy]; [by left|]. rewrite Hy. constructor; [done|].
  apply IH. intros z Hz. apply H. by right.
Qed.

Section set.
Context (s : ZHeap) (z : ZSet) (T : tree) (Hi : zset_inv s z T).
Let Hok := zi_ok _ _ _ Hi.

Lemma members_data : Forall2 (λ x d, zdata s !! x = Some d) (elems T) (members s T).
Proof using Hi.
  apply omap_total. intros x Hx. destruct (do_data _ _ (to_data _ _ _ (zo_tree _ _ _ Hok)) x Hx) as (d & -> & _). eauto.
Qed.

Lemma members_length : length (members s T) = length (elems T).
Proof using Hi. symmetry. eapply Forall2_length, members_data. Qed.

Lemma members_ordered : ordered (zmap s T) (members s T).
Proof using Hi.
  split.
  - pose proof (to_sorted _ _ _ (zo_tree _ _ _ Hok)) as Hs. pose proof members_data as Hm.
    unfold sorted in Hs. revert Hm. generalize (members s T).
    induction Hs as [|x xs _ IH Hf]; intros ds Hm; inversion Hm as [|? d ? ds' Hd Hm']; subst; constructor; [by apply IH|].
    rewrite Forall_forall in Hf. apply Forall_forall. intros d' Hd'. apply list_elem_of_lookup in Hd' as [j Hj].
    destruct (Forall2_lookup_r _ _ _ _ _ Hm' Hj) as (y & Hy & Hyd).
    destruct (Hf y) as (dx & dy & Hx & Hy' & Hlt); [by eapply list_elem_of_lookup_2|]. by simplify_eq.
  - unfold zmap. rewrite map_to_list_to_map; [done|]. rewrite <-list_fmap_compose.
    apply (members_nodup s T); apply Hok.
Qed.

(** The position of a key. *)
Lemma filter_prefix {A} (P : A → Prop) `{∀ x, Decision (P x)} (l : list A) : ∀ i,
  (i ≤ length l)%nat → (∀ j x, l !! j = Some x → P x ↔ (j < i)%nat) → length (filter P l) = i.
Proof.
  induction l as [|x l IH]; intros i Hl Hp; [cbn in *; lia|]. destruct i as [|i].
  - rewrite filter_cons_False by (rewrite (Hp 0%nat x eq_refl); lia).
    apply IH; [lia|]. intros j y Hy. rewrite (Hp (S j) y Hy). lia.
  - rewrite filter_cons_True by (apply (Hp 0%nat x eq_refl); lia). cbn [length] in *. f_equal.
    apply IH; [lia|]. intros j y Hy. rewrite (Hp (S j) y Hy). lia.
Qed.

Lemma seek_position sc nm :
  isnan sc = false →
  let i := length (filter (λ d, zlt d (mkZData sc nm)) (members s T)) in
  zset_seek_greater_equal z sc nm s = Done (elems T !! i, s) ∧ (i ≤ length (elems T))%nat.
Proof using Hi.
  intros Hsc i. rewrite (zset_seek_lemma s z T) by done.
  destruct (first_from_rank (zdata s) sc nm (elems T)) as (r & -> & Hr); [apply Hok|apply Hok|done|].
  assert (i = r `min` length (elems T))%nat as ->.
  { apply filter_prefix; [rewrite members_length; lia|]. intros j d Hd.
    destruct (Forall2_lookup_r _ _ _ _ _ members_data Hd) as (x & Hx & Hxd). specialize (Hr j x Hx).
    apply lookup_lt_Some in Hx. unfold below in Hr. rewrite Hxd in Hr. unfold zlt. cbn [score name].
    rewrite Hr, bool_decide_eq_true. lia. }
  split; [|lia]. do 2 f_equal. destruct (decide (r ≤ length (elems T))%nat); [by rewrite Nat.min_l|].
  rewrite Nat.min_r by lia. by rewrite !lookup_ge_None_2 by lia.
Qed.

(** ** The loops *)
Lemma offset_next p x : elems T !! p = Some x → znode_offset (Some x) 1 s = Done (elems T !! S p, s).
Proof using Hi.
  intros Hx. rewrite (znode_offset_lemma s z T p x 1 Hok) by (done || by eapply zset_inv_fits).
  unfold nth_z. change (i32 1) with 1. rewrite decide_True by lia.
  by replace (Z.to_nat (Z.of_nat p + 1)) with (S p) by lia.
Qed.

Lemma query_count_spec limit fuel : ∀ p n,
  (length (elems T) - p < fuel)%nat → 0 <= n → n + 2 * Z.of_nat (length (elems T) - p) < 2 ^ 63 →
  query_count fuel (elems T !! p) n limit s =
  Done (n + 2 * Z.of_nat ((length (elems T) - p) `min` Z.to_nat ((limit - n + 1) / 2)), s).
Proof using Hi.
  induction fuel as [|fuel IH]; intros p n Hf Hn Hb; [lia|].
  destruct (elems T !! p) as [x|] eqn:Hx; cbn [query_count].
  - pose proof (lookup_lt_Some _ _ _ Hx). destruct (Z.ltb_spec n limit).
    + rewrite (bind_done _ _ _ _ _ (offset_next p x Hx)), u64_id by lia. rewrite IH by lia.
      do 2 f_equal. replace (limit - n + 1) with (limit - (n + 2) + 1 + 1 * 2) by lia. rewrite Z.div_add by lia.
      assert (0 <= (limit - (n + 2) + 1) / 2) by (apply Z.div_pos; lia). lia.
    + unfold mret, M_ret. do 2 f_equal.
      assert ((limit - n + 1) / 2 < 1); [|lia]. apply Z.div_lt_upper_bound; lia.
  - apply lookup_ge_None in Hx. unfold mret, M_ret. do 2 f_equal. lia.
Qed.

Lemma query_output_spec todo : ∀ p out,
  query_output todo (elems T !! p) out s =
  Done (out ++ concat (out_value [] <$> concat ((λ d, [WStr (name d); WDbl (score d)]) <$>
          take todo (drop p (members s T)))), s).
Proof using Hi.
  induction todo as [|todo IH]; intros p out.
  { rewrite take_0. cbn. rewrite app_nil_r. by destruct (elems T !! p). }
  destruct (elems T !! p) as [x|] eqn:Hx.
  - destruct (Forall2_lookup_l _ _ _ _ _ members_data Hx) as (d & Hd & Hxd).
    cbn [query_output]. rewrite (bind_done _ _ _ d s) by (unfold on_data, zoom, load; rewrite Hxd; by destruct s).
    rewrite (bind_done _ _ _ _ _ (offset_next p x Hx)), IH. do 2 f_equal.
    rewrite (drop_S _ _ _ Hd). rewrite firstn_cons, !fmap_cons. cbn [concat].
    rewrite fmap_app, concat_app, !fmap_cons, fmap_nil. cbn [concat out_value].
    rewrite (out_dbl_app _ (out_str out _)), (out_str_app _ out). by rewrite app_nil_r, <-!app_assoc.
  - apply lookup_ge_None in Hx. cbn. rewrite drop_ge by (rewrite members_length; lia).
    rewrite take_nil. cbn. by rewrite app_nil_r.
Qed.
End set.

(** ** The query on a set *)
Lemma query_reply_bytes ds : blen ds <= 31 →
  out_arr [] (u32 (2 * blen ds)) ++
    concat (out_value [] <$> concat ((λ d, [WStr (name d); WDbl (score d)]) <$> ds)) =
  out_value [] (query_reply ds).
Proof.
  intros Hl. unfold query_reply. rewrite out_value_arr, out_values_enc. do 2 f_equal.
  pose proof (blen_nonneg ds). rewrite u32_id by lia. unfold blen. clear.
  induction ds as [|d ds IH]; [done|]. rewrite fmap_cons. cbn [concat]. rewrite length_app. cbn [length]. lia.
Qed.

(** What follows the validation of the arguments. *)
Definition query_set (z : ZSet) (sc : f64) (nm : bytes) (offset limit : Z) (resp : bytes) : SM bytes :=
  znode ← on_zheap (zset_seek_greater_equal z sc nm);
  match znode with
  | None => mret (out_arr resp 0)
  | Some znode =>
      znode ← on_zheap (znode_offset (Some znode) offset);
      match znode with
      | None => mret (out_arr resp 0)
      | Some znode =>
          s ← get_state;
          n ← on_zheap (query_count (S (size (ztree (zheap s)))) (Some znode) 0 limit);
          let resp := out_arr resp (u32 n) in
          on_zheap (query_output (Z.to_nat (n / 2)) (Some znode) resp)
      end
  end.

Lemma on_zheap_run {A} (m : ZM A) s a : m (zheap s) = Done (a, zheap s) → on_zheap m s = Done (a, s).
Proof. intros H. unfold on_zheap, zoom. rewrite H. by destruct s. Qed.

Lemma query_set_lemma s z T sc nm offset limit :
  zset_inv (zheap s) z T → isnan sc = false → 0 < limit →
  query_set z sc nm offset limit [] s =
  Done (out_value [] (query_reply (query (members (zheap s) T) sc nm offset limit)), s).
Proof.
  intros Hi Hsc Hlim. pose proof (members_length _ _ _ Hi) as Hlen. pose proof (zi_size _ _ _ Hi) as Hsz.
  destruct (seek_position _ _ _ Hi sc nm Hsc) as [Hseek Hle]. unfold query_set, query.
  set (i := length (filter _ _)) in *. rewrite (bind_done _ _ _ _ _ (on_zheap_run _ _ _ Hseek)).
  destruct (elems T !! i) as [x|] eqn:Hx.
  2: { apply lookup_ge_None in Hx. rewrite bool_decide_true by (right; left; lia). done. }
  pose proof (lookup_lt_Some _ _ _ Hx).
  pose proof (znode_offset_lemma (zheap s) z T i x offset (zi_ok _ _ _ Hi) (zset_inv_fits _ _ _ Hi) Hx) as Hoff.
  rewrite (bind_done _ _ _ _ _ (on_zheap_run _ _ _ Hoff)). unfold nth_z.
  set (p := Z.of_nat i + i32 offset). destruct (decide (0 <= p)) as [Hp|Hp].
  2: { rewrite bool_decide_true by (right; right; lia). done. }
  rewrite bool_decide_false by lia. destruct (elems T !! Z.to_nat p) as [y|] eqn:Hy.
  2: { apply lookup_ge_None in Hy. rewrite drop_ge, take_nil by lia. done. }
  rewrite (bind_done _ _ _ s s) by done.
  pose proof (lookup_lt_Some _ _ _ Hy).
  assert (length (elems T) ≤ size (ztree (zheap s)))%nat as Hfuel.
  { pose proof (zo_tree _ _ _ (zi_ok _ _ _ Hi)) as Ht. apply nodup_size; [apply Ht|].
    intros a. apply (rep_allocated _ None). apply Ht. }
  pose proof (query_count_spec _ _ _ Hi limit (S (size (ztree (zheap s)))) (Z.to_nat p) 0
    ltac:(lia) ltac:(lia) ltac:(lia)) as Hc.
  rewrite Hy, Z.sub_0_r, Z.add_0_l in Hc. rewrite (bind_done _ _ _ _ _ (on_zheap_run _ _ _ Hc)).
  set (c := ((length (elems T) - Z.to_nat p) `min` Z.to_nat ((limit + 1) `div` 2))%nat) in *.
  replace (Z.to_nat (2 * Z.of_nat c / 2)) with c by (rewrite Z.mul_comm, Z.div_mul; lia).
  pose proof (query_output_spec _ _ _ Hi c (Z.to_nat p) (out_arr [] (u32 (2 * Z.of_nat c)))) as Ho.
  rewrite Hy in Ho. rewrite (on_zheap_run _ _ _ Ho). do 2 f_equal.
  set (ds := take c (drop (Z.to_nat p) (members (zheap s) T))).
  assert (take (Z.to_nat ((limit + 1) `div` 2)) (drop (Z.to_nat p) (members (zheap s) T)) = ds) as ->.
  { unfold ds, c. rewrite <-Hlen, <-length_drop. rewrite Nat.min_comm, <-take_take. by rewrite firstn_all. }
  assert (blen ds = Z.of_nat c) as <-.
  { unfold ds, blen. rewrite length_take, length_drop. lia. }
  apply query_reply_bytes. unfold ds, blen. rewrite length_take, length_drop. lia.
Qed.

Lemma query_limit l sc nm offset limit : limit <= 0 → query l sc nm offset limit = [].
Proof. intros Hl. unfold query. rewrite bool_decide_true; [done|by left]. Qed.

Lemma query_empty sc nm offset limit : query [] sc nm offset limit = [].
Proof. unfold query. rewrite bool_decide_true; [done|by right; left]. Qed.

Lemma seek_empty sc nm s : zset_seek_greater_equal ZSet_empty sc nm s = Done (None, s).
Proof.
  unfold zset_seek_greater_equal. rewrite (bind_done _ _ _ s s) by done. cbn [zroot ZSet_empty].
  by destruct (size (ztree s)).
Qed.

Lemma empty_ordered : ordered ∅ [].
Proof. split; [constructor|by rewrite map_to_list_empty]. Qed.

(** ** ZQUERY *)
Lemma zcmd_query_lemma now s a k b nm o n :
  models s a →
  wp (zcmd_query [str "zquery"; k; b; nm; o; n] []) (refines now a [str "zquery"; k; b; nm; o; n]) s.
Proof.
  intros Hm. unfold zcmd_query. get_args. destruct (str2dbl b) as [[] sc] eqn:Hb.
  2: { apply wp_ret. exists (bad_arg "expect fp number"), a. split; [done|]. split; [|done]. constructor. by rewrite Hb. }
  pose proof (str2dbl_number _ _ Hb) as Hsc. get_args.
  destruct (str2int o) as [[] offset] eqn:Ho.
  2: { apply wp_ret. exists (bad_arg "expect int"), a. split; [done|]. split; [|done].
       apply ex_zquery_int; [by rewrite Hb|by rewrite Ho]. }
  destruct (str2int n) as [[] limit] eqn:Hn.
  2: { apply wp_ret. exists (bad_arg "expect int"), a. split; [done|]. split; [|done].
       apply ex_zquery_int; [by rewrite Hb|by rewrite Ho, Hn]. }
  get_args. apply wp_bind. pose proof (expect_zset_cases s a k Hm) as Hex.
  destruct (set_at a k) as [m|] eqn:Hset.
  2: { eapply wp_done; [exact Hex|]. apply wp_ret. exists bad_type, a. split; [done|]. split; [|done].
       apply ex_zquery_type; [by rewrite Hb|by rewrite Ho|by rewrite Hn|done]. }
  assert (∀ l, ordered m l → executes now a [str "zquery"; k; b; nm; o; n]
    (query_reply (query l sc nm offset limit)) a) as Hq by (intros l Hl; by eapply ex_zquery).
  destruct Hex as [(Hex & Hk & ->)|(x & e & ys & F & Hex & Hat & Hty & ->)]; (eapply wp_done; [exact Hex|]).
  - specialize (Hq [] empty_ordered). rewrite query_empty in Hq.
    assert (wp (mret (out_arr [] 0)) (refines now a [str "zquery"; k; b; nm; o; n]) s) as Hend.
    { apply wp_ret. exists (query_reply []), a. by split. }
    destruct (limit <=? 0); [exact Hend|]. apply wp_bind, wp_ret, wp_bind, wp_on_zheap.
    eapply wp_done; [apply seek_empty|]. destruct s. exact Hend.
  - pose proof (at_key_entry _ _ _ _ _ _ _ Hat) as (Hi & _ & _).
    specialize (Hq _ (members_ordered _ _ _ Hi)). destruct (Z.leb_spec limit 0).
    + rewrite query_limit in Hq by done. apply wp_ret. exists (query_reply []), a. by split.
    + apply wp_bind. eapply wp_done; [by apply zset_get_run, Hat|].
      change (wp (query_set (zset e) sc nm offset limit []) (refines now a [str "zquery"; k; b; nm; o; n]) s).
      eapply wp_done; [by apply query_set_lemma|]. by eexists _, _.
Qed.
