(* ===== verification/CommandProps.v ===== *)
(** The properties of the commands: run_request refines the specification of
    CommandSpec.v. *)
From Stdlib Require Import Strings.String.
From S2P Require Import Prelude Bytes Serialize Protocol NetIO Common AvlTree AvlModel Hashtable.
From S2P Require Import HashtableProofs Heap HeapProofs SortedSet ZOrder SortedSetProofs Commands.
From S2P Require Import Overruns KeySpace EntryOps CommandSpec CommandProofs ZCommands ZQuery.

Open Scope list_scope.

(** ** Dispatch *)
Lemma is_cmd_true cmd n w : is_cmd cmd (S n) w = true → ∃ args, cmd = str w :: args ∧ length args = n.
Proof.
  unfold is_cmd. rewrite andb_true_iff, !bool_decide_eq_true. intros [Hl Hc].
  destruct cmd as [|c args]; [done|]. injection Hc as ->. injection Hl as Hl. by exists args.
Qed.

(** The arguments of a command of a known length. *)
Ltac dispatch H :=
  apply is_cmd_true in H as (args & -> & H);
  repeat (destruct args as [|? args]; try discriminate H; cbn [length] in H);
  clear H.

Lemma aborts_known a cmd : aborts a cmd = true → is_cmd cmd 3 "set" = true ∨ is_cmd cmd 4 "zadd" = true.
Proof.
  unfold aborts. destruct cmd as [|c [|k [|v [|nm [|]]]]]; try discriminate; rewrite ?andb_true_iff.
  - intros [->%bool_decide_eq_true _]. by left.
  - intros [[->%bool_decide_eq_true _] _]. by right.
Qed.

Lemma run_request_lemma now s a cmd :
  models s a → args_ok cmd →
  if aborts a cmd then run_request now cmd [] s = AssertFail
  else wp (run_request now cmd []) (refines now a cmd) s.
Proof.
  intros Hm Hargs. unfold run_request.
  destruct (is_cmd cmd 1 "ping") eqn:H1.
  { dispatch H1. apply wp_ret. exists (WStr (str "pong")), a. by repeat constructor. }
  destruct (is_cmd cmd 2 "get") eqn:H2; [dispatch H2; by apply get_key_lemma|].
  destruct (is_cmd cmd 3 "set") eqn:H3.
  { dispatch H3. apply (set_key_lemma now); [done|].
    by repeat match goal with H : args_ok (_ :: _) |- _ => inversion_clear H as [|?? ? H'] | H : Forall _ (_ :: _) |- _ => inversion_clear H end. }
  destruct (is_cmd cmd 2 "del") eqn:H4; [dispatch H4; by apply del_key_lemma|].
  destruct (is_cmd cmd 1 "keys") eqn:H5; [dispatch H5; by apply all_keys_lemma|].
  destruct (is_cmd cmd 4 "zadd") eqn:H6; [dispatch H6; by apply zcmd_add_lemma|].
  destruct (aborts a cmd) eqn:Hab; [apply aborts_known in Hab as [?|?]; congruence|].
  destruct (is_cmd cmd 3 "zrem") eqn:H7; [dispatch H7; by apply zcmd_remove_lemma|].
  destruct (is_cmd cmd 3 "zscore") eqn:H8; [dispatch H8; by apply zcmd_score_lemma|].
  destruct (is_cmd cmd 6 "zquery") eqn:H9; [dispatch H9; by apply zcmd_query_lemma|].
  destruct (is_cmd cmd 2 "pttl") eqn:H10; [dispatch H10; by apply get_ttl_lemma|].
  destruct (is_cmd cmd 3 "pexpire") eqn:H11; [dispatch H11; by apply set_ttl_lemma|].
  apply wp_ret. exists (WErr ERR_UNKNOWN (str "unknown command")), a. split; [done|]. split; [|done].
  constructor. unfold known, command_table. cbn [existsb].
  by rewrite H1, H2, H3, H4, H5, H6, H7, H8, H9, H10, H11.
Qed.

(** ** Writes past a block *)
Lemma is_zadd cmd : is_cmd cmd 4 "zadd" = false → terminator cmd = [] ∧ ∀ a, writes_past a cmd = [].
Proof.
  intros Hz. split; [unfold terminator; rewrite Hz; by destruct (cmd !! 3%nat)|]. intros a.
  destruct cmd as [|c [|k [|b [|nm [|]]]]]; try done. cbn [writes_past]. unfold is_cmd in Hz.
  rewrite bool_decide_true in Hz by done. cbn [andb lookup list_lookup] in Hz.
  apply bool_decide_eq_false in Hz. rewrite bool_decide_false by congruence. done.
Qed.

(** The reply tells whether a member is new. *)
Lemma executes_past now a cmd r a' :
  executes now a cmd r a' →
  (if bool_decide (out_value [] r = out_int [] 1) then terminator cmd else []) = writes_past a cmd.
Proof.
  intros Hx. destruct (is_cmd cmd 4 "zadd") eqn:Hz.
  2: { destruct (is_zadd cmd Hz) as [-> ->]. by destruct (bool_decide _). }
  assert (known cmd = true) as Hk by (unfold known, command_table; cbn [existsb]; rewrite Hz, !orb_true_r; done).
  pose proof Hz as Hz'. dispatch Hz. unfold terminator. rewrite Hz'. cbn [lookup list_lookup].
  unfold writes_past. rewrite (bool_decide_true (str "zadd" = str "zadd")) by done. cbn [andb].
  inversion Hx; subst; try congruence.
  - replace (str2dbl _).1 with false by done. by rewrite bool_decide_false.
  - match goal with H : str2dbl _ = _, H' : set_at _ _ = _ |- _ => rewrite H, H' end. by rewrite bool_decide_false.
  - match goal with H : str2dbl _ = _, H' : set_at _ _ = _ |- _ => rewrite H, H' end. cbn [fst]. unfold added.
    by destruct (_ !! _).
Qed.

(** ** The empty server, and one with a few keys *)
Lemma models_init : models server_init ∅.
Proof.
  exists [], (λ _, Leaf). split; [|done]. constructor.
  - apply hm_empty_ok.
  - done.
  - constructor; cbn.
    + constructor.
    + lia.
    + constructor.
    + by intros x ?%not_elem_of_nil.
    + constructor; [constructor; [by intros i _ x y|done|done]|by intros it ?%not_elem_of_nil|by intros x ?%not_elem_of_nil].
    + by intros x y ?%not_elem_of_nil.
    + by intros x [? ?].
    + by intros x [? ?].
    + done.
Qed.

(** Requests one after the other, at the same time. *)
Fixpoint run_all (now : Z) (cmds : list (list bytes)) : SM () :=
  match cmds with
  | [] => mret ()
  | cmd :: cmds => _ ← run_request now cmd []; run_all now cmds
  end.
Definition after (now : Z) (cmds : list (list bytes)) : ServerData :=
  match run_all now cmds server_init with Done (_, s) => s | _ => server_init end.

Lemma run_all_models now cmds : ∀ s a s',
  models s a → Forall args_ok cmds → run_all now cmds s = Done ((), s') → ∃ a', models s' a'.
Proof.
  induction cmds as [|cmd cmds IH]; intros s a s' Hm Hargs; cbn [run_all]; [intros [= <-]; eauto|].
  apply Forall_cons in Hargs as [Ha Hargs]. intros (d & s1 & Hrun & Hrest)%bind_inv.
  pose proof (run_request_lemma now s a cmd Hm Ha) as H. destruct (aborts a cmd); [congruence|].
  eapply wp_elim in H; [|exact Hrun]. destruct H as (r & a1 & _ & _ & Hm1). by eapply IH.
Qed.

(** A string that is also a set, a set, an expiration time. *)
Definition few : list (list bytes) :=
  [[str "set"; str "s"; str "v"]; [str "zadd"; str "z"; str "1.5"; str "b"]; [str "zadd"; str "z"; str "1"; str "a"];
   [str "zadd"; str "z"; str "2"; str "c"]; [str "pexpire"; str "s"; str "100"]; [str "set"; str "z"; str "both"]].
Lemma few_models : ∃ a, models (after 10 few) a.
Proof.
  apply (run_all_models 10 few server_init ∅); [apply models_init| |vm_compute; reflexivity].
  repeat constructor; apply Z.leb_le; vm_compute; reflexivity.
Qed.

(** A server with as many keys as it can take. *)
Definition fill_cmd (k : bytes) : list bytes := [str "set"; k; str "v"].
Definition fill (ks : list bytes) (a : keyspace) : keyspace := foldl (λ a k, set_string k (str "v") a) a ks.
Definition keys31 : list bytes := (λ n, [Byte.x6b; Z_byte (65 + Z.of_nat n)]) <$> seq 0 31.

Lemma set_executes now a k v r a' : executes now a [str "set"; k; v] r a' → a' = set_string k v a.
Proof. by inversion 1. Qed.

Fixpoint can_fill (a : keyspace) (ks : list bytes) : bool :=
  match ks with
  | [] => true
  | k :: ks => negb (new_key_aborts a k) && can_fill (set_string k (str "v") a) ks
  end.

Lemma fill_models now ks : ∀ s a,
  models s a → can_fill a ks = true →
  wp (run_all now (fill_cmd <$> ks)) (λ _ s', models s' (fill ks a)) s.
Proof.
  induction ks as [|k ks IH]; intros s a Hm; rewrite ?fmap_cons; cbn [run_all can_fill]; [done|].
  intros [Hk%negb_true_iff Hks]%andb_true_iff. apply wp_bind.
  pose proof (set_key_lemma now s a k (str "v") Hm ltac:(done)) as H. rewrite Hk in H.
  eapply wp_mono; [exact H|]. intros d s1 (r & a1 & _ & ->%set_executes & Hm1). by apply IH.
Qed.

Lemma full_models : models (after 0 (fill_cmd <$> keys31)) (fill keys31 ∅).
Proof.
  pose proof (fill_models 0 keys31 server_init ∅ models_init ltac:(vm_compute; reflexivity)) as H.
  unfold after. by apply wp_inv in H as ([] & s' & -> & Hm).
Qed.

(** * Properties *)

(** C1: run_request refines the specification: on a state that implements a key
    space, every request that does not hit the limit of 31 entries of the hash
    maps is answered, without a failed assertion, by a reply that the
    specification allows, and the state it leaves implements the key space the
    specification gives. Its only undefined behaviour is exactly this: a ZADD of a
    new member writes the terminator of its name one byte past the block of its
    node ([writes_past]; what that does to the memory there is not modelled: the
    run goes on as if no object had the byte); every other request writes nothing
    past a block. *)
Theorem run_request_refines now s a cmd :
  models s a → args_ok cmd → aborts a cmd = false →
  ∃ r a' s', run_request now cmd [] s = Done (out_value [] r, s') ∧ executes now a cmd r a' ∧ models s' a' ∧
    overruns (zheap s') = overruns (zheap s) ++ writes_past a cmd.
Proof.
  intros Hm Hargs Hab. pose proof (run_request_lemma now s a cmd Hm Hargs) as H. rewrite Hab in H.
  apply wp_inv in H as (d & s' & Hrun & r & a' & -> & Hx & Hm'). exists r, a', s'. split_and!; [done..|].
  rewrite <-(executes_past _ _ _ _ _ Hx). by apply (run_request_past now).
Qed.

Definition range_cmd : list bytes := [str "zquery"; str "z"; str "1"; []; str "1"; str "3"].
Lemma run_request_refines_witness :
  ∃ a r a' s', run_request 50 range_cmd [] (after 10 few) = Done (out_value [] r, s') ∧
    executes 50 a range_cmd r a' ∧ models s' a' ∧
    overruns (zheap s') = overruns (zheap (after 10 few)) ++ writes_past a range_cmd.
Proof.
  destruct few_models as [a Ha]. exists a. apply (run_request_refines 50 _ a range_cmd Ha); [|reflexivity].
  repeat constructor; apply Z.leb_le; vm_compute; reflexivity.
Defined.

(** C2: the limit is exact: a SET or ZADD of a new key on a server with 31
    keys, or a ZADD of a new member to a set with 31 members, fails the
    assertion of h_init and stops the server. *)
Theorem run_request_aborts now s a cmd :
  models s a → args_ok cmd → aborts a cmd = true → run_request now cmd [] s = AssertFail.
Proof. intros Hm Hargs Hab. pose proof (run_request_lemma now s a cmd Hm Hargs) as H. by rewrite Hab in H. Qed.

Lemma run_request_aborts_witness :
  run_request 0 (fill_cmd (str "one more")) [] (after 0 (fill_cmd <$> keys31)) = AssertFail.
Proof.
  apply (run_request_aborts 0 _ (fill keys31 ∅) _ full_models); [|vm_compute; reflexivity].
  repeat constructor; apply Z.leb_le; vm_compute; reflexivity.
Defined.
