(* ===== verification/EntryDel.v ===== *)
(** The deletion of an entry, at once or by a worker of the pool: a set of any
    size is freed as a whole, and nothing else. *)
From Stdlib Require Import Strings.String.
From S2P Require Import Prelude Bytes Serialize Protocol NetIO Common AvlTree AvlModel AvlRefine Hashtable.
From S2P Require Import HashtableProofs Heap HeapProofs SortedSet SortedSetProofs Commands.
From S2P Require Import KeySpace EntryOps CommandSpec CommandProofs CommandProps.

Open Scope list_scope.

(** The set of the entry is large: its deletion is left to the pool. *)
Definition large (e : Entry) (T : tree) : bool :=
  bool_decide (type e = TYPE_ZSET) && (Z.of_nat (length (elems T)) >? k_large_container_size).

(** The job is in the queue; the entry has left the heap. *)
Definition queued (x : ptr) (h : HeapState) (s : ServerData) : ServerData :=
  mkServerData (db s) (db_nodes s) (entries s) h (zheap s) (pool s ++ [x]).

Lemma entry_size s e T :
  zset_ok (zheap s) (zset e) T →
  ((if type e =? TYPE_ZSET then hm_size (zhmap (zset e)) else 0) >? k_large_container_size) = large e T.
Proof.
  intros Hz. unfold large. destruct (Z.eqb_spec (type e) TYPE_ZSET) as [->|Hne].
  - rewrite (hm_size_spec _ _ _ (zo_hash _ _ _ Hz)), bool_decide_true by done. done.
  - by rewrite bool_decide_false.
Qed.

Lemma entry_del_cases now s x xs e T :
  entries s !! x = Some e → type_ok e T → zset_ok (zheap s) (zset e) T →
  ttl_ok (heap s) xs → x ∈ xs → NoDup xs → Z.of_nat (length xs) <= 31 →
  wp (entry_del now x) (λ _ s', ∃ h, ttl_ok h xs ∧ ttls h = delete x (ttls (heap s)) ∧
      if large e T then s' = queued x h s
      else ∃ z, s' = without x h z s ∧ zdelete (elems T) (zheap s) z) s.
Proof.
  intros He Hty Hz Ht Hx Hnd Hlen. unfold entry_del. apply wp_bind.
  eapply wp_mono; [by apply (entry_set_ttl_lemma now s xs x (-1))|]. intros [] s1 (h & -> & Hh & Hts).
  apply wp_bind. eapply wp_done; [by apply load_entry|]. rewrite (entry_size s e T Hz).
  destruct (large e T).
  - apply wp_bind, wp_get. eapply wp_done; [done|]. by exists h.
  - eapply wp_mono; [by eapply (entry_del_sync_run (with_heap h s) x e)|].
    intros [] s2 (z & -> & Hdel). exists h. split_and!; [done..|]. by exists z.
Qed.

(** The job that is first in the queue. *)
Lemma pool_work_lemma s x rest e T :
  pool s = x :: rest → entries s !! x = Some e → type_ok e T → zset_ok (zheap s) (zset e) T →
  wp pool_work (λ _ s', ∃ z, s' = without x (heap s) z (mkServerData (db s) (db_nodes s) (entries s) (heap s) (zheap s) rest) ∧
    zdelete (elems T) (zheap s) z) s.
Proof.
  intros Hpool He Hty Hz. unfold pool_work. apply wp_bind, wp_get. rewrite Hpool.
  apply wp_bind. eapply wp_done; [done|]. unfold entry_del_worker.
  by eapply (entry_del_sync_run (mkServerData _ _ _ _ _ rest) x e).
Qed.

(** ** A set of any size

    No run builds a set of more than 31 members; the structures themselves can
    hold it.  The insertion of a member, without the look at the load factor: *)
Lemma grow s z T nm :
  zset_ok s z T → Z.of_nat (length (elems T)) < 2 ^ 30 → zmap s T !! nm = None →
  ∃ s' z' T', zset_ok s' z' T' ∧ length (elems T') = S (length (elems T)) ∧ zmap s' T' = <[nm := 0]> (zmap s T).
Proof.
  intros Hok Hlen Hnew. set (x := zfresh s).
  assert (x ∉ elems T) as Hx by (intros H; by apply (zset_allocated _ _ _ _ Hok) in H).
  set (h := <[x := mkHNode None (string_hash nm)]> (zhash s)).
  assert (hm_ok h (zhmap z) (elems T)) as Hh.
  { eapply hm_ok_frame; [|apply Hok]. intros y Hy. unfold h. rewrite lookup_insert_ne; [done|]. by intros <-. }
  pose proof (hm_insert_front_spec h (zhmap z) (elems T) x (mkHNode None (string_hash nm)) Hh Hx
    ltac:(unfold h; by rewrite lookup_insert_eq) (proj1 (string_hash_range nm)) ltac:(lia)) as Hins.
  apply wp_inv in Hins as (hm1 & h1 & _ & Hok1 & Hf1 & _).
  assert (fits (Node T x Leaf)) as Hfits by (unfold fits; cbn [sz]; rewrite sz_elems; lia).
  assert (∀ y d, y ∈ elems T → zdata s !! y = Some d → name d ≠ nm) as Hnames.
  { intros y d Hy Hd <-. by rewrite (zset_names _ _ _ _ _ Hok Hy Hd) in Hnew. }
  pose proof (zset_link_new s z T nm 0 (mkZHeap (<[x := avl_init_node]> (ztree s)) h1 (<[x := mkZData 0 nm]> (zdata s)) (overruns s)) hm1
    Hok eq_refl Hfits Hnames eq_refl eq_refl Hok1 Hf1) as Hlink.
  apply wp_inv in Hlink as (z' & s' & _ & T' & Hok' & _ & Hp' & _ & Hm').
  exists s', z', T'. split_and!; [done|by rewrite Hp'|done].
Qed.

Lemma set_of_size n : (n ≤ 5000)%nat →
  ∃ s z T, zset_ok s z T ∧ length (elems T) = n ∧ ∀ nm, is_Some (zmap s T !! nm) → (length nm < n)%nat.
Proof.
  induction n as [|n IH]; intros Hn.
  { exists (mkZHeap ∅ ∅ ∅ []), ZSet_empty, Leaf. split_and!; [apply zset_empty_inv|done|]. intros nm [sc Hsc]. done. }
  destruct IH as (s & z & T & Hok & Hlen & Hnm); [lia|].
  destruct (grow s z T (replicate n Byte.x61)) as (s' & z' & T' & Hok' & Hlen' & Hm'); [done|lia| |].
  { destruct (_ !! _) eqn:He; [|done]. specialize (Hnm _ ltac:(by eexists)). rewrite length_replicate in Hnm. lia. }
  exists s', z', T'. split_and!; [done|by rewrite Hlen', Hlen|]. intros nm. rewrite Hm'.
  intros [<-|[_ H]]%lookup_insert_is_Some; [rewrite length_replicate; lia|]. specialize (Hnm nm H). lia.
Qed.

(** The key space with this one entry, which does not expire. *)
Definition holding (e : Entry) (z : ZHeap) : ServerData :=
  mkServerData HMap_empty ∅ {[1%positive := e]} (mkHeapState [] {[1%positive := size_max]}) z [].

Lemma holding_ttl e z : ttl_ok (heap (holding e z)) [1%positive].
Proof.
  constructor; cbn [heap holding items idx].
  - constructor; [by intros i _ x y|done|done].
  - by intros ? ?%not_elem_of_nil.
  - intros x ->%list_elem_of_singleton. split; [by eexists|done].
Qed.

(** * Property *)

(** C12: deferred deletion is deletion: entry_del takes the entry off the heap and
    frees it with all the members of its set and nothing else, at once if the set
    has at most 1000 members; else it queues a job, in a state that is otherwise
    as it was, and the worker that runs the job frees the same. *)
Theorem entry_del_equiv now s x xs e T :
  entries s !! x = Some e → type_ok e T → zset_ok (zheap s) (zset e) T →
  ttl_ok (heap s) xs → x ∈ xs → NoDup xs → Z.of_nat (length xs) <= 31 → pool s = [] →
  ∃ h z, ttl_ok h xs ∧ ttls h = delete x (ttls (heap s)) ∧ zdelete (elems T) (zheap s) z ∧
    if large e T
    then entry_del now x s = Done ((), queued x h s) ∧ pool_work (queued x h s) = Done ((), without x h z s)
    else entry_del now x s = Done ((), without x h z s).
Proof.
  intros He Hty Hz Ht Hx Hnd Hlen Hpool.
  pose proof (entry_del_cases now s x xs e T He Hty Hz Ht Hx Hnd Hlen) as H.
  apply wp_inv in H as ([] & s1 & Hrun & h & Hh & Hts & Hcase). exists h.
  destruct (large e T).
  - subst s1. assert (pool (queued x h s) = [x]) as Hq by (cbn; by rewrite Hpool).
    pose proof (pool_work_lemma (queued x h s) x [] e T Hq He Hty Hz) as H.
    apply wp_inv in H as ([] & s2 & Hwork & z & -> & Hdel). exists z. split_and!; [done..|].
    rewrite Hwork. unfold without. cbn. by rewrite Hpool.
  - destruct Hcase as (z & -> & Hdel). by exists z.
Qed.

Lemma entry_del_equiv_witness :
  (∃ e T h z, entries (after 10 few) !! 3%positive = Some e ∧ type e = TYPE_ZSET ∧
    ttls h = delete 3%positive (ttls (heap (after 10 few))) ∧ zdelete (elems T) (zheap (after 10 few)) z ∧
    if large e T
    then entry_del 10 3 (after 10 few) = Done ((), queued 3 h (after 10 few)) ∧
         pool_work (queued 3 h (after 10 few)) = Done ((), without 3 h z (after 10 few))
    else entry_del 10 3 (after 10 few) = Done ((), without 3 h z (after 10 few))) ∧
  ∃ s e T h z, entries s !! 1%positive = Some e ∧ length (elems T) = 1001%nat ∧ zset_ok (zheap s) (zset e) T ∧
    zdelete (elems T) (zheap s) z ∧
    entry_del 10 1 s = Done ((), queued 1 h s) ∧ pool_work (queued 1 h s) = Done ((), without 1 h z s).
Proof.
  split.
  - destruct few_models as (a & xs & F & [_ _ Hp] & _).
    assert (Hx : 3%positive ∈ xs) by (apply (po_dom _ _ _ Hp); eexists; vm_compute; reflexivity).
    destruct (po_entries _ _ _ Hp _ Hx) as (e & He & Hi & Hty & _).
    destruct (entry_del_equiv 10 (after 10 few) 3 xs e (F 3%positive)) as (h & z & _ & Hts & Hdel & Hcase);
      [exact He|exact Hty|exact (zi_ok _ _ _ Hi)|exact (po_ttl _ _ _ Hp)|exact Hx|exact (po_nodup _ _ _ Hp)|exact (po_size _ _ _ Hp)|exact (po_pool _ _ _ Hp)|].
    exists e, (F 3%positive), h, z. split; [exact He|]. split; [vm_compute in He; injection He as <-; reflexivity|].
    split; [exact Hts|]. split; [exact Hdel|exact Hcase].
  - destruct (set_of_size 1001 ltac:(lia)) as (s & z & T & Hok & Hlen & _).
    destruct (entry_del_equiv 10 (holding (mkEntry (str "k") TYPE_ZSET [] z) s) 1 [1%positive] (mkEntry (str "k") TYPE_ZSET [] z) T)
      as (h & z' & _ & _ & Hdel & Hcase);
      [reflexivity|left; reflexivity|exact Hok|apply holding_ttl|apply list_elem_of_singleton; reflexivity|apply NoDup_singleton|cbn; lia|reflexivity|].
    unfold large in Hcase. rewrite Hlen in Hcase. cbn [type] in Hcase.
    exists (holding (mkEntry (str "k") TYPE_ZSET [] z) s), (mkEntry (str "k") TYPE_ZSET [] z), T, h, z'. split; [reflexivity|]. split; [exact Hlen|]. split; [exact Hok|]. split; [exact Hdel|exact Hcase].
Defined.
