(* ===== verification/ConnProofs.v ===== *)
(** One connection over a store that implements a service: serving it answers
    the complete requests of its input in order, as the service allows, and what
    the event loop needs to know of the connection. *)
From Stdlib Require Import Strings.String.
From S2P Require Import Prelude Bytes Serialize Protocol NetIO NetIOProofs CommandSpec.

Open Scope list_scope.

(** ** The arguments of a request fit in a message *)
Lemma parse_request_code data rv cmd : parse_request data [] = (rv, cmd) → rv = -1 ∨ rv = 0.
Proof.
  unfold parse_request. destruct (read_header data) as [[n cursor]|]; [|intros [= <- _]; by left].
  destruct (n >? k_max_args); [intros [= <- _]; by left|].
  destruct (parse_args _ _ _) as [[rest|] cmd']; [|intros [= <- _]; by left].
  destruct (negb _); intros [= <- _]; [by left|by right].
Qed.

Lemma arg_size cmd arg : arg ∈ cmd → blen arg <= blen (request_bytes cmd).
Proof.
  unfold request_bytes. rewrite blen_app, blen_le_bytes.
  induction 1 as [arg cmd|arg x cmd _ IH]; rewrite fmap_cons; cbn [concat]; unfold arg_bytes at 1;
    rewrite !blen_app, blen_le_bytes.
  - pose proof (blen_nonneg (concat (arg_bytes <$> cmd))). lia.
  - pose proof (blen_nonneg x). lia.
Qed.

Lemma parse_request_args data rv cmd :
  parse_request data [] = (rv, cmd) → (rv <? 0) = false → blen data <= k_max_msg → args_ok cmd.
Proof.
  intros Hp Hrv Hd. destruct (parse_request_code _ _ _ Hp) as [->| ->]; [done|].
  apply parse_request_lemma in Hp as [_ ->]. apply Forall_forall. intros arg Harg.
  pose proof (arg_size cmd arg Harg). lia.
Qed.

(** * The requests in a buffer *)

(** The complete frames at the head of a buffer, and what is left of it. *)
Fixpoint split_frames (fuel : nat) (data : bytes) : list bytes * bytes :=
  match fuel with
  | O => ([], data)
  | S fuel =>
      match next_frame data with
      | FRequest req rest => (req :: (split_frames fuel rest).1, (split_frames fuel rest).2)
      | _ => ([], data)
      end
  end.
Definition frames (data : bytes) : list bytes * bytes := split_frames (length data) data.

Lemma next_frame_short data req rest : next_frame data = FRequest req rest → (length rest < length data)%nat.
Proof. intros [-> _]%next_frame_request. apply frame_length. Qed.

Lemma split_frames_fuel n : ∀ data f,
  (length data ≤ n)%nat → (length data ≤ f)%nat → split_frames f data = split_frames n data.
Proof.
  induction n as [|n IH]; intros data [|f] Hn Hf; cbn [split_frames]; try done;
    (destruct (next_frame data) as [| |req rest] eqn:Hnf; [done..|]);
    apply next_frame_short in Hnf; [lia..|]. by rewrite (IH rest f) by lia.
Qed.

Lemma frames_unfold data :
  frames data = match next_frame data with
                | FRequest req rest => (req :: (frames rest).1, (frames rest).2)
                | _ => ([], data)
                end.
Proof.
  unfold frames at 1. destruct (length data) as [|n] eqn:Hl; cbn [split_frames];
    (destruct (next_frame data) as [| |req rest] eqn:Hnf; [done..|]); apply next_frame_short in Hnf; [lia|].
  unfold frames. by rewrite (split_frames_fuel (length rest) rest n) by lia.
Qed.

(** More bytes arrive. *)
Lemma frames_app_lemma n : ∀ data more,
  (length data ≤ n)%nat →
  frames (data ++ more) =
    ((frames data).1 ++ (frames ((frames data).2 ++ more)).1, (frames ((frames data).2 ++ more)).2).
Proof.
  induction n as [|n IH]; intros data more Hn; rewrite (frames_unfold data);
    (destruct (next_frame data) as [| |req rest] eqn:Hnf; [by destruct (frames _)..|]);
    pose proof (next_frame_short _ _ _ Hnf); [lia|]. cbn [fst snd app].
  rewrite frames_unfold, (frame_app _ _ _ _ Hnf). by rewrite (IH rest more) by lia.
Qed.
Lemma frames_app data more :
  frames (data ++ more) =
    ((frames data).1 ++ (frames ((frames data).2 ++ more)).1, (frames ((frames data).2 ++ more)).2).
Proof. by apply (frames_app_lemma (length data)). Qed.

(** The next frame has a length that is above the bound. *)
Definition is_bad (data : bytes) : bool := match next_frame data with FBad => true | _ => false end.

(** The buffer holds no complete request. *)
Definition drained (data : bytes) : Prop := ∀ req rest, next_frame data ≠ FRequest req rest.

Lemma frames_spec_lemma n : ∀ data,
  (length data ≤ n)%nat →
  data = concat (frame <$> (frames data).1) ++ (frames data).2 ∧
  Forall (λ req, blen req <= k_max_msg) (frames data).1 ∧ drained (frames data).2.
Proof.
  induction n as [|n IH]; intros data Hn; rewrite frames_unfold;
    (destruct (next_frame data) as [| |req rest] eqn:Hnf;
      [by split_and!; [|constructor|cbn [snd]; intros ? ?; rewrite Hnf]..|]);
    pose proof (next_frame_short _ _ _ Hnf); [lia|]. cbn [fst snd].
  apply next_frame_request in Hnf as [Hd Hle]. destruct (IH rest) as (H1 & H2 & H3); [lia|].
  split_and!; [|by constructor|done]. rewrite fmap_cons. cbn [concat]. rewrite <-app_assoc, <-H1. done.
Qed.
Lemma frames_spec data :
  data = concat (frame <$> (frames data).1) ++ (frames data).2 ∧
  Forall (λ req, blen req <= k_max_msg) (frames data).1 ∧ drained (frames data).2.
Proof. by apply (frames_spec_lemma (length data)). Qed.

Lemma frames_drained data : drained data → frames data = ([], data).
Proof. intros Hd. rewrite frames_unfold. destruct (next_frame data) eqn:Hnf; [done..|]. by apply Hd in Hnf. Qed.

(** What the socket gives: nothing at the end of the stream or on an error. *)
Definition input_of (rd : read_result) : bytes := match rd with RdOk bs => bs | _ => [] end.
Definition got (pin : bool) (rd : read_result) (conn : Connection) : bytes :=
  if pin && want_read conn then input_of rd else [].

(** The requests that are run when the connection is served. *)
Definition conn_requests (pin : bool) (rd : read_result) (conn : Connection) : list bytes :=
  (frames (incoming conn ++ got pin rd conn)).1.

(** * A service *)

(** What a client relies on: the states that implement an abstract state, the
    responses to a command and the abstract state after it, and the commands that
    stop the server. *)
Class Service (T G : Type) `{!Handler T} := {
  implements : T → G → Prop;
  serves : G → list bytes → bytes → G → Prop;
  refuses : G → list bytes → Prop;
  run_serves cmd σ g :
    args_ok cmd → implements σ g →
    ends (run cmd []) (λ d σ', ∃ g', serves g cmd d g' ∧ implements σ' g' ∧ blen d < 2 ^ 64) (refuses g cmd) σ;
}.

(** The response that is sent for the output of a request. *)
Definition limited (d : bytes) : bytes :=
  if blen d >? k_max_msg then out_err [] ERR_TOO_BIG (str "response is too big.") else d.
Definition malformed : bytes := out_err [] ERR_BAD_ARG (str "malformed request").

(** [answered g reqs out g']: the requests [reqs] may be answered, in order, by
    the bytes [out], one frame for each. *)
Inductive answered `{Service T G} (g : G) : list bytes → bytes → G → Prop :=
| answered_nil : answered g [] [] g
| answered_malformed req reqs out g' :
    (parse_request req []).1 = -1 → answered g reqs out g' →
    answered g (req :: reqs) (frame malformed ++ out) g'
| answered_command req cmd d g1 reqs out g' :
    parse_request req [] = (0, cmd) → serves g cmd d g1 → answered g1 reqs out g' →
    answered g (req :: reqs) (frame (limited d) ++ out) g'.

(** One of the requests, after those before it, stops the server. *)
Inductive refused `{Service T G} (g : G) : list bytes → Prop :=
| refused_now req cmd reqs : parse_request req [] = (0, cmd) → refuses g cmd → refused g (req :: reqs)
| refused_later req out g' reqs : answered g [req] out g' → refused g' reqs → refused g (req :: reqs).

Section conn.
Context {T G : Type} `{!Handler T} `{!HandlerAppends T} `{Hs : !Service T G}.

Lemma answered_app g reqs1 out1 g1 reqs2 out2 g2 :
  answered g reqs1 out1 g1 → answered g1 reqs2 out2 g2 → answered g (reqs1 ++ reqs2) (out1 ++ out2) g2.
Proof.
  induction 1; intros H2; cbn [app]; rewrite <-?app_assoc; [done|..].
  - apply answered_malformed; auto.
  - eapply answered_command; eauto.
Qed.

(** ** An effect of the requests on the state *)

(** [R reqs σ σ'] relates the states before and after [reqs], one request after
    the other. *)
Section effect.
Context (R : list bytes → T → T → Prop) (R_nil : ∀ σ, R [] σ σ)
  (R_cons : ∀ req reqs σ d σ1 σ2, answer req σ = Done (d, σ1) → R reqs σ1 σ2 → R (req :: reqs) σ σ2).

Lemma requests_run n : ∀ conn (σ : T) c σ',
  (length (incoming conn) ≤ n)%nat → requests conn σ = Done (c, σ') → R (frames (incoming conn)).1 σ σ'.
Proof using R_nil R_cons HandlerAppends0.
  induction n as [|n IH]; intros conn σ c σ' Hn; rewrite requests_unfold, frames_unfold;
    (destruct (next_frame (incoming conn)) as [| |req rest] eqn:Hnf; [by intros [= _ <-]..|]);
    pose proof (next_frame_short _ _ _ Hnf); [lia|].
  intros (d & σ1 & Hd & Hr)%bind_inv. eapply R_cons; [exact Hd|].
  eapply (IH (set_incoming rest _)); [cbn; lia|exact Hr].
Qed.

Lemma handle_write_run rv conn (σ : T) c σ' : handle_write rv conn σ = Done (c, σ') → σ' = σ.
Proof using Type.
  unfold handle_write. intros ([] & σ1 & Ha & H)%bind_inv. unfold assert_ in Ha. destruct (negb _); [|done].
  injection Ha as <-. by destruct rv; [injection H as _ <-..|].
Qed.

Lemma handle_read_run rd wr conn (σ : T) c σ' :
  drained (incoming conn) → handle_read rd wr conn σ = Done (c, σ') → R (frames (incoming conn ++ input_of rd)).1 σ σ'.
Proof using R_nil R_cons HandlerAppends0.
  intros Hd. destruct rd as [[|b bs]| |]; cbn [input_of];
    [rewrite app_nil_r, frames_drained by done; by intros [= _ <-]| |
     rewrite app_nil_r, frames_drained by done; by intros [= _ <-]..].
  unfold handle_read, append_buffer. set (c0 := set_incoming _ conn). intros (c1 & σ1 & Hr & H)%bind_inv.
  assert (σ' = σ1) as -> by (destruct (negb _); [by eapply handle_write_run|by injection H]).
  by apply (requests_run (length (incoming c0)) c0 _ c1).
Qed.

Lemma serve_ready_run pin pout perr now rd wr wr' conn (σ : T) r σ' :
  drained (incoming conn) → serve_ready pin pout perr now rd wr wr' conn σ = Done (r, σ') →
  R (conn_requests pin rd conn) σ σ'.
Proof using R_nil R_cons HandlerAppends0.
  intros Hd. unfold serve_ready, conn_requests, got. set (c0 := set_last_activity now conn).
  change (want_read c0) with (want_read conn).
  intros (c1 & σ1 & H1 & (c2 & σ2 & H2 & [= _ <-])%bind_inv)%bind_inv.
  assert (σ2 = σ1) as -> by (destruct (pout && _); [by eapply handle_write_run|by injection H2]).
  destruct (pin && want_read conn); [by apply (handle_read_run rd wr c0 σ c1)|].
  injection H1 as _ <-. by rewrite app_nil_r, frames_drained.
Qed.
End effect.

Lemma answer_ends req σ g :
  blen req <= k_max_msg → implements σ g →
  ends (answer req) (λ out σ', ∃ g', answered g [req] out g' ∧ implements σ' g')
    (∀ reqs, refused g (req :: reqs)) σ.
Proof using Type.
  intros Hr Hg. unfold answer. destruct (parse_request req []) as [rv cmd] eqn:Hp.
  destruct (parse_request_code _ _ _ Hp) as [-> | ->]; cbn [Z.ltb Z.compare].
  - apply ends_ret. exists g. split; [|done]. rewrite respond_spec by (by vm_compute).
    change (if blen malformed >? k_max_msg then _ else malformed) with malformed. fold malformed.
    rewrite <-(app_nil_r (frame _)). apply answered_malformed; [by rewrite Hp|constructor].
  - apply ends_bind. eapply ends_mono; [apply run_serves; [by eapply parse_request_args|done]| |].
    + intros Hf reqs. by eapply refused_now.
    + intros d σ' (g' & Hd & Hg' & Hsz). apply ends_ret. exists g'. split; [|done]. rewrite respond_spec by done.
      rewrite <-(app_nil_r (frame _)). eapply answered_command; [done..|constructor].
Qed.

(** ** The requests of the input *)

(** What [requests] does to the connection: the output it adds is [out]. *)
Record handled (conn c : Connection) (out : bytes) : Prop := {
  hd_fd : socket_fd c = socket_fd conn;
  hd_time : last_activity_ms c = last_activity_ms conn;
  hd_read : want_read c = want_read conn;
  hd_write : want_write c = want_write conn;
  hd_in : incoming c = (frames (incoming conn)).2;
  hd_out : outgoing c = outgoing conn ++ out;
  hd_written : written c = written conn;
  hd_close : want_close c = want_close conn || is_bad (frames (incoming conn)).2;
}.

Lemma requests_ends n : ∀ conn σ g,
  (length (incoming conn) ≤ n)%nat → implements σ g →
  ends (requests conn) (λ c σ', ∃ out g', answered g (frames (incoming conn)).1 out g' ∧ implements σ' g' ∧
      handled conn c out) (refused g (frames (incoming conn)).1) σ.
Proof using HandlerAppends0.
  induction n as [|n IH]; intros conn σ g Hn Hg; unfold ends; rewrite requests_unfold, frames_unfold;
    (destruct (next_frame (incoming conn)) as [| |req rest] eqn:Hnf;
      [exists [], g; (split; [apply answered_nil|split; [done|]]);
        by constructor; rewrite ?app_nil_r, ?frames_unfold, ?Hnf; unfold is_bad; cbn; rewrite ?Hnf, ?orb_true_r, ?orb_false_r..|]);
    pose proof (next_frame_short _ _ _ Hnf); [lia|].
  apply next_frame_request in Hnf as Hreq. destruct Hreq as [_ Hreq]. apply ends_bind.
  eapply ends_mono; [by apply answer_ends|intros Hf; apply Hf|].
  intros d σ' (g' & Hd & Hg').
  eapply ends_mono; [apply IH; [cbn; lia|done]|by eapply refused_later|].
  intros c σ'' (out & g'' & Ho & Hg'' & []). exists (d ++ out), g''.
  split; [by apply (answered_app _ [req] _ g')|]. split; [done|]. constructor; [done..| | |done|].
  - by rewrite frames_unfold, Hnf.
  - rewrite hd_out0. cbn. by rewrite app_assoc.
  - rewrite hd_close0, (frames_unfold (incoming conn)), Hnf. done.
Qed.

(** ** Reading and writing *)

(** A connection between two calls of its handlers: its flags say what it waits
    for, and no complete request is left in its buffer. *)
Definition conn_ok (conn : Connection) : Prop := flags_ok conn ∧ drained (incoming conn).

(** The bytes that a write takes from the output. *)
Definition flush (b : bool) (wr : write_result) (buf : bytes) : bytes :=
  match wr with WrOk n => if b then consume_buffer buf n else buf | _ => buf end.
Lemma flush_nil b wr : flush b wr [] = [].
Proof. destruct wr; [|done..]. unfold flush, consume_buffer. destruct b; [|done]. by rewrite drop_nil. Qed.

(** What was taken and what is left are the whole. *)
Lemma take_consume n (buf : bytes) : take (Z.to_nat n) buf ++ consume_buffer buf n = buf.
Proof.
  unfold consume_buffer. destruct (Z.gtb_spec n (blen buf)); [|apply take_drop].
  unfold blen in *. rewrite take_ge, drop_ge by lia. apply app_nil_r.
Qed.

(** The write of the buffer [buf] fails; an empty buffer is not written. *)
Definition write_fails (wr : write_result) (buf : bytes) : bool :=
  match wr with WrErr => negb (bool_decide (buf = [])) | _ => false end.
Lemma write_fails_nil wr : write_fails wr [] = false.
Proof. by destruct wr. Qed.

Lemma handle_write_ends conn rv (Q : Connection → T → Prop) E σ :
  flags_ok conn → want_write conn = true → (rv = WrPipe → E) →
  (∀ c, flags_ok c → socket_fd c = socket_fd conn → last_activity_ms c = last_activity_ms conn →
     incoming c = incoming conn → outgoing c = flush true rv (outgoing conn) →
     written c ++ outgoing c = written conn ++ outgoing conn →
     want_close c = want_close conn || write_fails rv (outgoing conn) → Q c σ) →
  ends (handle_write rv conn) Q E σ.
Proof using Type.
  intros Hok Hww HE HQ. pose proof Hok as [Hw Hr]. unfold handle_write. rewrite Hww in Hw. rewrite <-Hw.
  assert (bool_decide (outgoing conn = []) = false) as Hne.
  { apply bool_decide_eq_false. intros Hnil. by rewrite Hnil in Hw. }
  apply ends_bind, ends_ret. destruct rv as [n| | |]; [apply ends_ret..|by apply HE].
  - set (c := set_outgoing _ _). assert (written c ++ outgoing c = written conn ++ outgoing conn) as Hc.
    { cbn. by rewrite <-app_assoc, take_consume. }
    destruct (blen (outgoing c) =? 0) eqn:He; apply HQ; try done;
      unfold flags_ok; cbn in *; rewrite ?orb_false_r; [by rewrite He|done|by rewrite He, Hww, Hr, Hww|done].
  - apply HQ; try done. cbn. by rewrite orb_false_r.
  - apply HQ; try done. cbn. by rewrite Hne, orb_true_r.
Qed.

(** The event loop writes only what there is to write. *)
Lemma polled_write_ends pout conn rv (Q : Connection → T → Prop) E σ :
  flags_ok conn → (rv = WrPipe → E) →
  (∀ c, flags_ok c → socket_fd c = socket_fd conn → last_activity_ms c = last_activity_ms conn →
     incoming c = incoming conn → outgoing c = flush pout rv (outgoing conn) →
     written c ++ outgoing c = written conn ++ outgoing conn →
     want_close c = want_close conn || (pout && write_fails rv (outgoing conn)) → Q c σ) →
  ends (if pout && want_write conn then handle_write rv conn else mret conn) Q E σ.
Proof using Type.
  intros Hok HE HQ. destruct (pout && want_write conn) eqn:Hp.
  - apply andb_true_iff in Hp as [-> Hp]. by eapply handle_write_ends.
  - apply ends_ret. destruct pout.
    + pose proof Hok as [Hw _]. cbn in Hp. rewrite Hp in Hw. symmetry in Hw. apply negb_false_iff, Z.eqb_eq in Hw.
      assert (outgoing conn = []) as Hnil by (by destruct (outgoing conn)).
      apply HQ; rewrite ?Hnil, ?flush_nil, ?write_fails_nil, ?orb_false_r; done.
    + apply HQ; try done; [by destruct rv|by rewrite orb_false_r].
Qed.

(** The connection after it was served with the input [bs] and the responses
    [out]: what was output before and the responses are still in its output, or
    were taken by the kernel. *)
Definition conn_after (bs : bytes) (pout : bool) (wr wr' : write_result) (conn : Connection)
    (out : bytes) (c : Connection) : Prop :=
  incoming c = (frames (incoming conn ++ bs)).2 ∧
  outgoing c = flush pout wr' (flush (negb (bool_decide (bs = []))) wr (outgoing conn ++ out)) ∧
  written c ++ outgoing c = written conn ++ (outgoing conn ++ out).

(** A read ends the connection: the end of the stream, an error, a frame
    that is too long, or a failed write of the responses. *)
Definition read_closes (rd : read_result) (wr : write_result) (conn : Connection) (out : bytes) : bool :=
  match rd with
  | RdErr | RdOk [] => true
  | RdAgain => false
  | RdOk bs => is_bad (frames (incoming conn ++ bs)).2 || write_fails wr (outgoing conn ++ out)
  end.

Lemma handle_read_ends conn rd wr σ g :
  conn_ok conn → want_read conn = true → implements σ g →
  ends (handle_read rd wr conn) (λ c σ', ∃ out g',
      answered g (frames (incoming conn ++ input_of rd)).1 out g' ∧ implements σ' g' ∧ conn_ok c ∧
      socket_fd c = socket_fd conn ∧ last_activity_ms c = last_activity_ms conn ∧
      conn_after (input_of rd) false wr WrAgain conn out c ∧ want_close c = want_close conn || read_closes rd wr conn out)
    (refused g (frames (incoming conn ++ input_of rd)).1 ∨ wr = WrPipe) σ.
Proof using HandlerAppends0.
  intros [[Hw Hr] Hd] Hwr Hg. unfold conn_after. destruct rd as [[|b bs]| |]; cbn [input_of];
    [rewrite app_nil_r, frames_drained by done; apply ends_ret; exists [], g; cbn; rewrite app_nil_r;
       split_and!; try done; [constructor|by destruct wr|by rewrite orb_true_r]| |
     rewrite app_nil_r, frames_drained by done; apply ends_ret; exists [], g; cbn; rewrite app_nil_r;
       split_and!; try done; [constructor|by destruct wr|by rewrite ?orb_true_r, ?orb_false_r]..].
  unfold handle_read, append_buffer. set (c0 := set_incoming _ conn). apply ends_bind.
  eapply ends_mono; [by apply (requests_ends (length (incoming c0)) c0)|by left|].
  intros c σ' (out & g' & Ho & Hg' & []). change (incoming c0) with (incoming conn ++ b :: bs) in *.
  cbn in hd_fd0, hd_time0, hd_read0, hd_write0, hd_out0, hd_written0, hd_close0.
  assert (drained (incoming c)) as Hdr by (rewrite hd_in0; apply frames_spec).
  destruct (blen (outgoing c) =? 0) eqn:He; cbn [negb].
  - apply ends_ret. exists out, g'. split_and!; try done.
    + unfold conn_ok, flags_ok. rewrite He, hd_write0, hd_read0, Hw, Hr, Hw. rewrite Hwr, Hw in Hr.
      by destruct (_ =? 0).
    + rewrite <-hd_out0. destruct (outgoing c); [by rewrite !flush_nil|done].
    + by rewrite hd_written0, hd_out0.
    + cbn [read_closes]. rewrite <-hd_out0, hd_close0. destruct (outgoing c); [by rewrite write_fails_nil, orb_false_r|done].
  - eapply handle_write_ends; [unfold flags_ok; cbn; by rewrite He|done|by right|].
    intros c' Hf Hfd Hla Hin Hout Hwr' Hcl. exists out, g'. cbn in Hfd, Hla, Hin, Hout, Hwr', Hcl. split_and!; try done.
    + split; [done|]. by rewrite Hin.
    + by rewrite Hfd.
    + by rewrite Hla.
    + by rewrite Hin.
    + rewrite Hout, hd_out0. done.
    + by rewrite Hwr', hd_written0, hd_out0.
    + rewrite Hcl, hd_close0, hd_out0. cbn [read_closes]. by rewrite orb_assoc.
Qed.

(** The connection is to be destroyed. *)
Definition closes (pin pout perr : bool) (rd : read_result) (wr wr' : write_result) (conn : Connection) (out : bytes) : bool :=
  perr || want_close conn || (pin && want_read conn && read_closes rd wr conn out) ||
  (pout && write_fails wr' (flush (negb (bool_decide (got pin rd conn = []))) wr (outgoing conn ++ out))).

(** A connection that was served and is not to be destroyed does not want to
    close. *)
Lemma serve_ready_ends pin pout perr now rd wr wr' conn σ g :
  conn_ok conn → implements σ g →
  ends (serve_ready pin pout perr now rd wr wr' conn)
    (λ '(destroy, c) σ', ∃ out g', answered g (conn_requests pin rd conn) out g' ∧ implements σ' g' ∧
       conn_ok c ∧ socket_fd c = socket_fd conn ∧ last_activity_ms c = now ∧
       (destroy = false → want_close c = false) ∧ conn_after (got pin rd conn) pout wr wr' conn out c ∧
       destroy = closes pin pout perr rd wr wr' conn out)
    (refused g (conn_requests pin rd conn) ∨ wr = WrPipe ∨ wr' = WrPipe) σ.
Proof using HandlerAppends0.
  intros Hok Hg. unfold serve_ready, conn_requests, closes, got. set (c0 := set_last_activity now conn).
  assert (conn_ok c0) as Hok0 by done. change (want_read c0) with (want_read conn). apply ends_bind.
  set (bs := if pin && want_read conn then input_of rd else []).
  eapply ends_mono with (E := refused g (frames (incoming conn ++ bs)).1 ∨ wr = WrPipe)
    (P := λ c σ', ∃ out g', answered g (frames (incoming conn ++ bs)).1 out g' ∧ implements σ' g' ∧
      conn_ok c ∧ socket_fd c = socket_fd conn ∧ last_activity_ms c = now ∧ conn_after bs false wr WrAgain conn out c ∧
      want_close c = want_close conn || (pin && want_read conn && read_closes rd wr conn out)).
  - destruct (pin && want_read conn) eqn:Hp; subst bs; cbn [andb].
    + apply andb_true_iff in Hp as [_ Hp]. exact (handle_read_ends c0 rd wr σ g Hok0 Hp Hg).
    + rewrite app_nil_r. rewrite frames_drained by apply Hok. apply ends_ret. exists [], g.
      unfold conn_after. rewrite !app_nil_r. rewrite frames_drained by apply Hok.
      split_and!; try done; [constructor|by destruct wr|by rewrite orb_false_r].
  - tauto.
  - intros c σ1 (out & g1 & Ho & Hg1 & [Hf Hd] & Hfd & Hla & (Hi & Hout & Hwr) & Hcl). cbn [flush] in Hout.
    apply ends_bind, polled_write_ends; [done|tauto|]. intros c' Hf' Hfd' Hla' Hi' Hout' Hwr' Hcl'.
    apply ends_ret. exists out, g1. split_and!; try done.
    + split; [done|]. by rewrite Hi'.
    + by rewrite Hfd'.
    + by rewrite Hla'.
    + by intros [_ ?]%orb_false_iff.
    + split_and!; [by rewrite Hi'|by rewrite Hout', Hout|by rewrite Hwr', Hwr].
    + by rewrite Hcl', Hcl, Hout, !orb_assoc.
Qed.
End conn.
