(* ===== verification/Server.v ===== *)
(** The event loop: the table of connections of server.cpp, the timers of
    core/sys_server.cpp and the destruction of a connection of net/netio.cpp.
    The kernel ([poll], [accept], [read], [write]) is an input of the loop;
    [clock] is what the calls of [get_current_time_ms] answer, one after the
    other. *)
From S2P Require Import Prelude Bytes Serialize Protocol NetIO Common AvlTree Hashtable Heap.
From S2P Require Import SortedSet Commands DList.
Import DList.

(** core/constants.h *)
Definition k_idle_timeout_ms : Z := 15 * 1000.
Definition k_max_works : nat := Z.to_nat 2000.

(** [get_monotonic_msec], from the fields of the [timespec]. *)
Definition get_monotonic_msec (tv_sec tv_nsec : Z) : Z :=
  u64 (u64 (u64 tv_sec * 1000) + u64 tv_nsec / 1000 / 1000).

(** The sentinel [server_data.idle_conn_list]; the connections have other
    addresses. *)
Definition idle_conn_list : ptr := 1%positive.

(** The whole state of the server. *)
Record Server := mkServer {
  sdata : ServerData;
  conns : gmap ptr Connection;
  fd2conn : list (option ptr);
  idle : DList.store;
  tick : nat;
}.
Abbreviation VM := (M Server).

Definition on_sdata {A} : SM A → VM A :=
  zoom sdata (λ d s, mkServer d (conns s) (fd2conn s) (idle s) (tick s)).
Definition on_conns {A} : M (gmap ptr Connection) A → VM A :=
  zoom conns (λ c s, mkServer (sdata s) c (fd2conn s) (idle s) (tick s)).
Definition on_idle {A} : M DList.store A → VM A :=
  zoom idle (λ i s, mkServer (sdata s) (conns s) (fd2conn s) i (tick s)).
Definition set_fd2conn (f : list (option ptr)) : VM () := λ s,
  Done ((), mkServer (sdata s) (conns s) f (idle s) (tick s)).

(** The fd table: [fd2conn[fd]], read and written. *)
Definition fd_get (fd : Z) : VM (option ptr) :=
  s ← get_state; deref (fd2conn s !! Z.to_nat fd).
Definition fd_set (fd : Z) (v : option ptr) : VM () :=
  s ← get_state;
  _ ← deref (fd2conn s !! Z.to_nat fd);
  set_fd2conn (<[Z.to_nat fd := v]> (fd2conn s)).

(** [main] before the loop. *)
Definition server_start : Server :=
  mkServer server_init ∅ [] {[ idle_conn_list := mkNode (Some idle_conn_list) (Some idle_conn_list) ]} 0.

(** [delete conn], which frees the list node in it. *)
Definition conn_free (conn : ptr) : VM () := λ s,
  Done ((), mkServer (sdata s) (delete conn (conns s)) (fd2conn s) (delete conn (idle s)) (tick s)).

(** [close(fd)] is the kernel's. *)
Definition handle_destroy (conn : ptr) : VM () :=
  c ← on_conns (load conn);
  fd_set (socket_fd c) None;;
  on_idle (dlist_detach conn);;
  conn_free conn.

Section clock.
Context (clock : nat → Z).

Definition get_current_time_ms : VM Z := λ s,
  Done (clock (tick s), mkServer (sdata s) (conns s) (fd2conn s) (idle s) (S (tick s))).

(** The handlers of a connection see the commands and the clock: a request
    is one use of the clock. *)
#[export] Instance server_handler : Handler (ServerData * nat) :=
  λ cmd out '(d, t),
    match run_request (clock t) cmd out d with
    | Done (out, d) => Done (out, (d, S t))
    | AssertFail => AssertFail
    | Undefined => Undefined
    | OutOfFuel => OutOfFuel
    end.

Definition on_handler {A} : M (ServerData * nat) A → VM A :=
  zoom (λ s, (sdata s, tick s)) (λ '(d, t) s, mkServer d (conns s) (fd2conn s) (idle s) t).

(** [new Connection()], with its list node. *)
Definition conn_new (c : Connection) : VM ptr := λ s,
  let p := Pos.max (fresh_ptr (conns s)) (fresh_ptr (idle s)) in
  Done (p, mkServer (sdata s) (<[p := c]> (conns s)) (fd2conn s)
             (<[p := node_init]> (idle s)) (tick s)).

(** [conn_fd] is the answer of [accept], made non-blocking ([accept_nb] of
    Setup.v). *)
Definition handle_accept (conn_fd : Z) : VM Z :=
  if conn_fd <? 0 then mret (-1)
  else
    now ← get_current_time_ms;
    conn ← conn_new (mkConnection conn_fd true false false [] [] now []);
    on_idle (dlist_insert_before idle_conn_list conn);;
    s ← get_state;
    (if blen (fd2conn s) <=? conn_fd
     then set_fd2conn (fd2conn s ++ replicate (Z.to_nat conn_fd + 1 - length (fd2conn s)) None)
     else mret ());;
    old ← fd_get conn_fd;
    assert_ (bool_decide (old = None));;
    fd_set conn_fd (Some conn);;
    mret 0.

(** [poll_args] after the listening socket: the descriptor and whether it
    is polled for input and for output. *)
Definition poll_arg (s : Server) (o : option ptr) : option (Z * (bool * bool)) :=
  p ← o; c ← conns s !! p; Some (socket_fd c, (want_read c, want_write c)).
Definition poll_args (s : Server) : list (Z * (bool * bool)) := omap (poll_arg s) (fd2conn s).

(** What happens on a connection: its [revents] ([pollhup] is any other bit),
    and the answers of the kernel to the calls its handlers may make. *)
Record conn_event := mkConnEvent {
  pollin : bool; pollout : bool; pollerr : bool; pollhup : bool;
  ev_read : read_result; ev_write : write_result; ev_write' : write_result;
}.

Definition serve_fd (fd : Z) (ev : conn_event) : VM () :=
  if negb (pollin ev || pollout ev || pollerr ev || pollhup ev) then mret ()
  else
    o ← fd_get fd;
    conn ← deref o;
    now ← get_current_time_ms;
    on_idle (dlist_detach conn);;
    on_idle (dlist_insert_before idle_conn_list conn);;
    c ← on_conns (load conn);
    '(destroy, c) ← on_handler (serve_ready (pollin ev) (pollout ev) (pollerr ev) now
                                 (ev_read ev) (ev_write ev) (ev_write' ev) c);
    on_conns (store_at conn c);;
    if destroy : bool then handle_destroy conn else mret ().

Fixpoint serve_fds (evs : list (Z * conn_event)) : VM () :=
  match evs with
  | [] => mret ()
  | (fd, ev) :: evs => serve_fd fd ev;; serve_fds evs
  end.

(** * Timers *)
Definition next_timer_ms : VM Z :=
  now_ms ← get_current_time_ms;
  let next_ms := size_max in
  empty ← on_idle (dlist_empty idle_conn_list);
  next_ms ← (if negb empty then
               n ← on_idle (load idle_conn_list);
               conn ← deref (DList.next n);
               c ← on_conns (load conn);
               mret (u64 (last_activity_ms c + k_idle_timeout_ms))
             else mret next_ms);
  s ← get_state;
  let next_ms :=
    match items (heap (sdata s)) with
    | [] => next_ms
    | top :: _ => if val top <? next_ms then val top else next_ms
    end in
  if next_ms =? size_max then mret (-1)
  else if next_ms <=? now_ms then mret 0
  else mret (i32 (u64 (next_ms - now_ms))).

Fixpoint idle_timers (fuel : nat) (now_ms : Z) : VM () :=
  empty ← on_idle (dlist_empty idle_conn_list);
  if negb empty then
    n ← on_idle (load idle_conn_list);
    conn ← deref (DList.next n);
    c ← on_conns (load conn);
    let next_ms := u64 (last_activity_ms c + k_idle_timeout_ms) in
    if next_ms >=? now_ms then mret ()
    else
      match fuel with
      | O => out_of_fuel
      | S fuel => handle_destroy conn;; idle_timers fuel now_ms
      end
  else mret ().

Definition hnode_same (node key : ptr) : bool := bool_decide (node = key).

(** The body of the loop over the expired keys. *)
Definition expire_top (now_ms : Z) (entry : ptr) : SM () :=
  on_heap (heap_delete 0);;
  set_heap_idx entry size_max;;
  n ← on_nodes (load entry);
  node ← db_delete (hash_code n) (λ _ node, hnode_same node entry);
  entry_del now_ms entry.

(** [works] more entries may be deleted after the one at the top. *)
Fixpoint ttl_timers (works : nat) (now_ms : Z) : SM () :=
  s ← get_state;
  match items (heap s) with
  | [] => mret ()
  | top :: _ =>
      if val top <=? now_ms then
        expire_top now_ms (ref top);;
        match works with
        | S works => ttl_timers works now_ms
        | O => mret ()
        end
      else mret ()
  end.

Definition process_timers : VM () :=
  now_ms ← get_current_time_ms;
  s ← get_state;
  idle_timers (size (idle s)) now_ms;;
  on_sdata (ttl_timers (Nat.pred k_max_works) now_ms).

(** * One iteration of the event loop

    [answer] is what [poll] answers: [None] when a signal interrupts it, or
    the answer of [accept], if the listening socket is ready, and the events of
    the connections in the order of [poll_args]. *)
Record poll_answer := mkPollAnswer {
  accepted : option Z;
  events : list conn_event;
}.

Definition loop_iteration (answer : option poll_answer) : VM Z :=
  s ← get_state;
  let args := poll_args s in
  timeout_ms ← next_timer_ms;
  match answer with
  | None => mret timeout_ms
  | Some a =>
      (match accepted a with Some fd => _ ← handle_accept fd; mret () | None => mret () end);;
      serve_fds (zip (fst <$> args) (events a));;
      process_timers;;
      mret timeout_ms
  end.
End clock.
