(* ===== verification/Timers.v ===== *)
(** Key expiration: the loop over the heap of process_timers deletes exactly
    the keys whose time has come. *)
From stdpp Require Import functions.
From S2P Require Import Prelude Bytes Serialize Protocol NetIO Common AvlTree AvlModel AvlRefine.
From S2P Require Import Hashtable HashtableProofs Heap HeapProofs SortedSet ZOrder SortedSetProofs.
From S2P Require Import Commands Overruns KeySpace EntryOps Server.

(** The key space without the keys that expire at [now] or before. *)
Definition live_at (now : Z) (e : AEntry) : Prop :=
  match a_expiry e with Some t => now < t | None => True end.
#[export] Instance live_at_dec now e : Decision (live_at now e).
Proof. unfold live_at. destruct (a_expiry e); apply _. Defined.
Definition expire (now : Z) (a : keyspace) : keyspace := filter (λ p, live_at now p.2) a.

Lemma expire_id now a : (∀ k e, a !! k = Some e → live_at now e) → expire now a = a.
Proof. intros H. apply map_filter_id. intros k e Hk. cbn. by eapply H. Qed.

Lemma expire_delete now a k e : a !! k = Some e → ¬ live_at now e → expire now (delete k a) = expire now a.
Proof.
  intros Hk Hn. apply map_eq. intros j. apply option_eq. intros v. unfold expire.
  rewrite !map_lookup_filter_Some, lookup_delete_Some. cbn. split; [tauto|]. intros [Hj Hl].
  split; [|done]. split; [|done]. intros ->. congruence.
Qed.

(** The top of the heap expires no later than any key. *)
Lemma models_live now s a :
  models s a → (∀ top, items (heap s) !! 0%nat = Some top → now < val top) → expire now a = a.
Proof.
  intros (xs & F & Hok & <-) Htop. apply expire_id. intros k e Hk.
  pose proof (so_parts _ _ _ Hok) as Hp. pose proof (tk_heap _ _ (po_ttl _ _ _ Hp)) as Hh.
  apply abs_lookup in Hk as (x & Hx & Hb); [|apply Hp]. unfold binding in Hb.
  destruct (entries s !! x) as [e0|]; [|done]. injection Hb as _ <-. unfold live_at. cbn.
  destruct (ttls (heap s) !! x) as [t|] eqn:Ht; [|done]. apply ttls_lookup in Ht; [|done].
  destruct (items (heap s)) as [|top its] eqn:Hi; [by apply not_elem_of_nil in Ht|].
  specialize (Htop top eq_refl). pose proof (heap_min_lemma (heap s) top Hh ltac:(by rewrite Hi) (mkHeapItem t x)) as Hmin.
  rewrite Hi in Hmin. specialize (Hmin Ht). cbn in Hmin. lia.
Qed.

Lemma server_with_heap s xs F h : server_ok s xs F → ttl_ok h xs → server_ok (with_heap h s) xs F.
Proof. intros [? ? [? ? ? ? ? ? ? ? ?]] Hh. constructor; [done|done|]. by constructor. Qed.

(** A change of one expiration time shows at one key only. *)
Lemma abs_with_heap s xs F h x e :
  parts_ok s xs F → entries s !! x = Some e → (∀ y, y ≠ x → ttls h !! y = ttls (heap s) !! y) →
  delete (key e) (abs (with_heap h s) F xs) = delete (key e) (abs s F xs).
Proof.
  intros Hp He Ht. apply map_eq. intros j. apply option_eq. intros v. rewrite !lookup_delete_Some.
  assert (∀ y, key e ≠ j → binding s F y = Some (j, v) ↔ binding (with_heap h s) F y = Some (j, v)) as Hb.
  { intros y Hj. unfold binding, with_heap. cbn [entries]. destruct (decide (y = x)) as [->|Hy].
    - rewrite He. split; intros [= ? _]; by destruct Hj.
    - destruct (entries s !! y); [|done]. cbn. unfold contents. cbn [heap zheap]. by rewrite Ht. }
  rewrite (abs_lookup (with_heap h s)), (abs_lookup s) by apply Hp.
  split; intros (Hj & y & Hy & Hyb); (split; [done|]); exists y; (split; [done|]); by apply (Hb y Hj).
Qed.

(** The body of the loop takes the entry at the top of the heap away. *)
Lemma expire_top_lemma now s a top :
  models s a → items (heap s) !! 0%nat = Some top →
  wp (expire_top now (ref top)) (λ _ s', ∃ k e, a !! k = Some e ∧ a_expiry e = Some (val top) ∧
      models s' (delete k a)) s.
Proof.
  intros (xs & F & Hok & <-) Htop. pose proof (so_parts _ _ _ Hok) as Hp. pose proof (po_ttl _ _ _ Hp) as Ht.
  destruct top as [t x]. cbn [ref val]. assert (x ∈ xs) as Hx.
  { apply (tk_refs _ _ Ht (mkHeapItem t x)). by eapply list_elem_of_lookup_2. }
  pose proof (ttl_remove (heap s) xs x t 0 Ht Hx Htop) as Hrem.
  destruct (po_entries _ _ _ Hp x Hx) as (e & He & _ & _ & _ & Hh).
  unfold expire_top. apply wp_bind, wp_on_heap. apply wp_bind_inv in Hrem. eapply wp_mono; [exact Hrem|].
  intros [] h0 H0. apply wp_bind, wp_on_heap. cbn [heap]. eapply wp_mono; [exact H0|].
  intros [] h [Htk Htt].
  change (mkServerData _ _ _ h _ _) with (with_heap h s).
  pose proof (server_with_heap s xs F h Hok Htk) as Hok1.
  destruct (db_nodes s !! x) as [n|] eqn:Hnode; [|done]. injection Hh as Hh.
  apply wp_bind, wp_on_nodes. eapply wp_load; [exact Hnode|].
  pose proof (string_hash_range (key e)) as [Hhc _].
  assert (hmatch (db_nodes s) (hash_code n) (λ y, bool_decide (y = x)) x = true) as Hm.
  { unfold hmatch. rewrite Hnode, Z.eqb_refl. by rewrite bool_decide_true. }
  apply wp_bind. eapply wp_mono; [apply (db_delete_lemma (with_heap h s) xs F (hash_code n)); [done|by rewrite Hh]|].
  intros [y|] s' (d & nn & -> & Hq & Hp1 & Hres); cbn [db_nodes with_heap] in Hres.
  2: { destruct Hres as [Hres _]. by rewrite Hres in Hm. }
  destruct Hres as (Hy & zs & Hxs & Hdb).
  assert (y = x) as ->.
  { unfold hmatch in Hy. destruct (db_nodes s !! y); [|done]. apply andb_true_iff in Hy as [_ Hy].
    by apply bool_decide_eq_true in Hy. }
  eapply wp_mono; [by apply (entry_removed now (with_heap h s) d nn x e xs zs F)|].
  intros [] s'' Hm''. exists (key e), (contents s (F x) x e). split.
  { apply abs_lookup; [apply Hp|]. exists x. split; [done|]. unfold binding. by rewrite He. }
  split.
  { unfold contents. cbn. apply ttls_lookup; [apply Ht|]. by eapply list_elem_of_lookup_2. }
  rewrite <-(abs_with_heap s xs F h x e Hp He); [exact Hm''|]. intros y Hyx. by rewrite Htt, lookup_delete_ne.
Qed.

Lemma models_size s a : models s a → (size a ≤ 31)%nat.
Proof.
  intros (xs & F & Hok & <-). rewrite (abs_size s xs F) by apply Hok.
  pose proof (po_size _ _ _ (so_parts _ _ _ Hok)). lia.
Qed.

(** An item in the heap means a key. *)
Lemma heap_item_key s a top : models s a → items (heap s) !! 0%nat = Some top → (0 < size a)%nat.
Proof.
  intros (xs & F & Hok & <-) Htop. pose proof (so_parts _ _ _ Hok) as Hp. rewrite (abs_size s xs F) by done.
  assert (ref top ∈ xs) as Hx by (apply (tk_refs _ _ (po_ttl _ _ _ Hp)); by eapply list_elem_of_lookup_2).
  destruct xs; [by apply not_elem_of_nil in Hx|]. cbn. lia.
Qed.

Lemma ttl_timers_lemma now works : ∀ s a,
  models s a → (size a ≤ S works)%nat →
  wp (ttl_timers works now) (λ _ s', models s' (expire now a)) s.
Proof.
  induction works as [|works IH]; intros s a Hm Hsz; cbn [ttl_timers]; apply wp_bind, wp_get;
    (destruct (items (heap s)) as [|top its] eqn:Hi;
      [apply wp_ret; rewrite (models_live now s a Hm); [done|by rewrite Hi]|]);
    (assert (items (heap s) !! 0%nat = Some top) as Htop by by rewrite Hi);
    (destruct (Z.leb_spec (val top) now) as [Hle|Hgt];
      [|apply wp_ret; rewrite (models_live now s a Hm); [done|rewrite Hi; intros ? [= <-]; lia]]);
    apply wp_bind; (eapply wp_mono; [by apply expire_top_lemma|]);
    intros [] s' (k & e & Hk & He & Hm'); pose proof (map_size_delete_Some k a (mk_is_Some _ _ Hk)) as Hds;
    (assert (¬ live_at now e) as Hl by (unfold live_at; rewrite He; lia));
    rewrite <-(expire_delete now a k e Hk Hl).
  - apply wp_ret. assert (delete k a = ∅) as Hempty by (apply map_size_empty_inv; lia).
    rewrite Hempty in *. by rewrite expire_id by (intros ? ? ?; by rewrite lookup_empty in *).
  - apply IH; [done|lia].
Qed.

(** Expiration stays within the blocks. *)
Lemma keeps_expire_top now x : keeps past (expire_top now x).
Proof. unfold expire_top. keep. Qed.
#[export] Hint Resolve keeps_expire_top : keeps.
Lemma keeps_ttl_timers now works : keeps past (ttl_timers works now).
Proof. induction works; cbn [ttl_timers]; keep. Qed.
#[export] Hint Resolve keeps_ttl_timers : keeps.
