(* ===== verification/CommandsAppend.v ===== *)
(** The commands only append to the response: what the connections rely on
    ([HandlerAppends]). *)
From Stdlib Require Import Strings.String.
From S2P Require Import Prelude Bytes Serialize Protocol NetIO Common AvlTree Hashtable Heap.
From S2P Require Import SortedSet Commands Server.

Open Scope list_scope.

Definition with_prefix {S} (out : bytes) (o : outcome (bytes * S)) : outcome (bytes * S) :=
  match o with
  | Done (d, s) => Done (out ++ d, s)
  | AssertFail => AssertFail
  | Undefined => Undefined
  | OutOfFuel => OutOfFuel
  end.

(** A handler of which the output starts with the buffer it is given, and that
    does not look at it. *)
Definition appends {S} (f : bytes → M S bytes) : Prop :=
  ∀ out σ, f out σ = with_prefix out (f [] σ).

Section combinators.
Context {S : Type}.

Lemma appends_ret (g : bytes → bytes) :
  (∀ out, g out = out ++ g []) → appends (λ out, mret (g out) : M S bytes).
Proof. intros Hg out σ. unfold mret, M_ret. cbn. by rewrite Hg. Qed.
Lemma appends_bind {A} (m : M S A) (k : A → bytes → M S bytes) :
  (∀ a, appends (k a)) → appends (λ out, m ≫= λ a, k a out).
Proof.
  intros Hk out σ. unfold mbind, M_bind. destruct (m σ) as [[a σ']| | |]; [|done..].
  rewrite (Hk a out σ'). by destruct (k a [] σ') as [[]| | |].
Qed.
Lemma appends_undefined : appends (λ _, undefined : M S bytes).
Proof. by intros out σ. Qed.
(** A value appended first. *)
Lemma appends_then (f : bytes → M S bytes) (g : bytes → bytes) :
  (∀ out, g out = out ++ g []) → appends f → appends (λ out, f (g out)).
Proof.
  intros Hg Hf out σ. rewrite (Hf (g out)), (Hf (g [])), Hg.
  destruct (f [] σ) as [[]| | |]; cbn; by rewrite ?app_assoc.
Qed.
Lemma appends_zoom {T} (get : S → T) (put : T → S → S) (f : bytes → M T bytes) :
  appends f → appends (λ out, zoom get put (f out)).
Proof. intros Hf out σ. unfold zoom. rewrite Hf. by destruct (f [] (get σ)) as [[]| | |]. Qed.
End combinators.

(** Follows the structure of a handler. *)
Ltac appends_tac :=
  repeat (intros; match goal with
  | |- appends (λ out, mret (?g _)) => apply appends_ret; auto with appends
  | |- appends (λ out, mret _) => apply appends_ret; auto with appends
  | |- appends (λ out, _ ≫= _) => apply appends_bind
  | |- appends (λ out, match ?x with _ => _ end) => destruct x
  end).

Lemma query_output_appends todo : ∀ znode, appends (query_output todo znode).
Proof.
  induction todo as [|todo IH]; intros znode.
  - intros out σ. destruct znode; cbn; by rewrite app_nil_r.
  - destruct znode as [node|]; [|intros out σ; cbn; by rewrite app_nil_r].
    cbn [query_output]. apply (appends_bind _ (λ d out, _)). intros d.
    apply (appends_bind _ (λ next out, _)). intros next.
    apply (appends_then (query_output todo next) (λ out, out_dbl (out_str out (name d)) (score d))); [|apply IH].
    intros out. rewrite out_dbl_app, out_str_app, (out_dbl_app _ (out_str [] _)). by rewrite app_assoc.
Qed.

(** ** Enumeration *)
Section foreach.
Context (f : ptr → bytes → bool * bytes).
Context (Hf : ∀ x out, f x out = ((f x []).1, out ++ (f x []).2)).

Definition prefix2 {S} (out : bytes) (o : outcome (bool * bytes * S)) : outcome (bool * bytes * S) :=
  match o with
  | Done ((b, d), s) => Done ((b, out ++ d), s)
  | AssertFail => AssertFail
  | Undefined => Undefined
  | OutOfFuel => OutOfFuel
  end.

Lemma prefix2_app {S} a b (o : outcome (bool * bytes * S)) : prefix2 a (prefix2 b o) = prefix2 (a ++ b) o.
Proof. destruct o as [[[] ?]| | |]; cbn; by rewrite ?app_assoc. Qed.

Lemma foreach_chain_appends fuel : ∀ node out σ,
  h_foreach_chain f fuel node out σ = prefix2 out (h_foreach_chain f fuel node [] σ).
Proof.
  induction fuel as [|fuel IH]; intros [c|] out σ; cbn [h_foreach_chain]; try done;
    try (unfold mret, M_ret; cbn; by rewrite app_nil_r).
  rewrite Hf. destruct (f c []) as [b d]. cbn [fst snd].
  destruct b; [|done]. unfold mbind, M_bind. destruct (load c σ) as [[n σ']| | |]; [|done..].
  rewrite IH, (IH _ d). by rewrite prefix2_app.
Qed.

Lemma foreach_slots_appends todo ht : ∀ out σ,
  h_foreach_slots f todo ht out σ = prefix2 out (h_foreach_slots f todo ht [] σ).
Proof.
  induction todo as [|todo IH]; intros out σ; cbn [h_foreach_slots].
  { unfold mret, M_ret; cbn. by rewrite app_nil_r. }
  unfold mbind, M_bind. destruct (tab_get _ _ σ) as [[h σ1]| | |]; [|done..]. cbn [get_state].
  rewrite foreach_chain_appends. destruct (h_foreach_chain f _ h [] σ1) as [[[b d] σ2]| | |]; [|done..].
  cbn [prefix2]. destruct b; [|done]. rewrite IH, (IH d). by rewrite prefix2_app.
Qed.

Lemma hm_foreach_appends hm : appends (hm_foreach f hm).
Proof.
  assert (∀ ht out σ, h_foreach f ht out σ = prefix2 out (h_foreach f ht [] σ)) as Hh.
  { intros ht out σ. unfold h_foreach. destruct (tab ht); [apply foreach_slots_appends|].
    unfold mret, M_ret; cbn. by rewrite app_nil_r. }
  intros out σ. unfold hm_foreach, mbind, M_bind. rewrite Hh.
  destruct (h_foreach f (newer hm) [] σ) as [[[b d] σ1]| | |]; [|done..]. cbn [prefix2].
  destruct b; [|done]. rewrite Hh, (Hh _ d).
  destruct (h_foreach f (older hm) [] σ1) as [[[b' d'] σ2]| | |]; cbn; by rewrite ?app_assoc.
Qed.
End foreach.

(** ** The handlers *)
Lemma all_keys_appends : appends all_keys.
Proof.
  apply appends_bind. intros s.
  apply (appends_then (λ out, on_nodes (hm_foreach (cb_keys s) (db s) out)) (λ out, out_arr out (u32 (hm_size (db s)))));
    [auto with appends|].
  apply appends_zoom, hm_foreach_appends. intros x out. unfold cb_keys.
  destruct (entries s !! x); cbn; [|by rewrite app_nil_r]. by rewrite out_str_app.
Qed.

Lemma zcmd_query_appends cmd : appends (zcmd_query cmd).
Proof.
  unfold zcmd_query. appends_tac. intros n.
  match goal with
  | |- appends (λ out, on_zheap (query_output ?t ?z (out_arr out ?n))) =>
      apply (appends_then (λ out, on_zheap (query_output t z out)) (λ out, out_arr out n)); [auto with appends|]
  end.
  apply appends_zoom, query_output_appends.
Qed.

Lemma run_request_appends now cmd : appends (run_request now cmd).
Proof.
  unfold run_request.
  assert (appends all_keys) by apply all_keys_appends.
  assert (appends (zcmd_query cmd)) by apply zcmd_query_appends.
  repeat match goal with |- appends (λ out, if ?b then _ else _) => destruct b end;
    try assumption;
    unfold get_key, set_key, del_key, zcmd_add, zcmd_remove, zcmd_score, get_ttl_ms, set_ttl_ms;
    appends_tac.
Qed.

#[export] Instance server_handler_appends clock : @HandlerAppends (ServerData * nat) (server_handler clock).
Proof.
  intros cmd out [d t]. unfold run, server_handler.
  pose proof (run_request_appends (clock t) cmd out d) as H.
  destruct (run_request (clock t) cmd [] d) as [[]| | |]; by rewrite H.
Qed.
