(* ===== verification/KeyService.v ===== *)
(** The key space as a service: the handler of the connections implements the
    specification of the commands (an instance of [Service] of ConnProofs.v), and
    what the server does between two calls of [poll], as a sequence of
    answered requests. *)
From Stdlib Require Import Strings.String.
From S2P Require Import Prelude Bytes Serialize Protocol NetIO NetIOProofs Common Commands.
From S2P Require Import Overruns KeySpace CommandSpec KeyBounds CommandProofs CommandProps ConnProofs Server CommandsAppend.

Open Scope list_scope.

(** The state [d] implements the key space [a], within the bounds. *)
Definition holds (d : ServerData) (a : keyspace) : Prop := models d a ∧ bounded a.

Lemma holds_init : holds server_init ∅.
Proof. split; [apply models_init|apply bounded_empty]. Qed.

(** Each request is one reading of the clock: the abstract state is the key space
    and the number of readings so far. *)
#[export] Program Instance key_service (clock : nat → Z) :
  Service (ServerData * nat) (keyspace * nat) (Handler0 := server_handler clock) := {
  implements σ g := holds σ.1 g.1 ∧ σ.2 = g.2;
  serves g cmd d g' := ∃ r, executes (clock g.2) g.1 cmd r g'.1 ∧ d = enc r ∧ g'.2 = S g.2;
  refuses g cmd := aborts g.1 cmd = true;
}.
Next Obligation.
  intros clock cmd [d t] [a t'] Hargs [[Hm Hb] Ht]. cbn in *. subst t'.
  pose proof (run_request_lemma (clock t) d a cmd Hm Hargs) as H. unfold ends, run, server_handler.
  destruct (aborts a cmd) eqn:Hab; [by rewrite H|]. apply wp_inv in H as (out & d' & -> & r & a' & -> & Hx & Hm').
  exists (a', S t). split_and!; [by exists r| |done|by eapply executes_size].
  split; [done|by eapply executes_bounded].
Qed.

Section turn.
Context (clock : nat → Z).
#[local] Existing Instance server_handler.

(** The answer to a request writes past a block as its command does. *)
Lemma answer_past req reqs (σ σ1 σ2 : ServerData * nat) d :
  @answer _ (server_handler clock) req σ = Done (d, σ1) → past_by reqs σ1.1 σ2.1 → past_by (req :: reqs) σ.1 σ2.1.
Proof.
  intros Ha. apply (past_by_app [req]). unfold answer in Ha. destruct (parse_request req []) as [rv cmd] eqn:Hp.
  destruct (rv <? 0) eqn:Hrv.
  - injection Ha as _ <-. exists []. rewrite app_nil_r. split; [done|apply sublist_nil_l].
  - apply bind_inv in Ha as (out & σ' & Hr & [= _ ->]). unfold run, server_handler in Hr. destruct σ as [s t].
    destruct (run_request _ _ _ _) as [[out' s']| | |] eqn:Hrun; [|done..]. injection Hr as _ <-.
    by eapply past_by_request.
Qed.

(** The clock only goes on. *)
Lemma answered_ticks g reqs out g' : answered (H := key_service clock) g reqs out g' → (g.2 ≤ g'.2)%nat.
Proof.
  induction 1 as [g|g req reqs out g' _ _ IH|g req cmd d g1 reqs out g' _ Hd _ IH]; [done|done|].
  destruct Hd as (r & _ & _ & Ht). lia.
Qed.

(** One call of [poll]: each job of the list is the requests of one connection,
    answered by the bytes of the list of outputs; the readings of the
    clock and the key space go from one job to the next. *)
Inductive turn (t : nat) (a : keyspace) : list (list bytes) → list bytes → nat → keyspace → Prop :=
| turn_nil t' : (t ≤ t')%nat → turn t a [] [] t' a
| turn_cons t1 reqs out t2 a2 jobs outs t3 a3 :
    (t ≤ t1)%nat → answered (H := key_service clock) (a, t1) reqs out (a2, t2) → turn t2 a2 jobs outs t3 a3 →
    turn t a (reqs :: jobs) (out :: outs) t3 a3.

(** A request of one of the jobs, after those before it, would be the
    32nd entry of a table. *)
Inductive turn_refused (t : nat) (a : keyspace) : list (list bytes) → Prop :=
| turn_refused_now t1 reqs jobs :
    (t ≤ t1)%nat → refused (H := key_service clock) (a, t1) reqs → turn_refused t a (reqs :: jobs)
| turn_refused_later t1 reqs out t2 a2 jobs :
    (t ≤ t1)%nat → answered (H := key_service clock) (a, t1) reqs out (a2, t2) → turn_refused t2 a2 jobs →
    turn_refused t a (reqs :: jobs).

Lemma turn_ticks t a jobs outs t' a' : turn t a jobs outs t' a' → (t ≤ t')%nat.
Proof. induction 1; [done|]. match goal with H : answered _ _ _ _ |- _ => apply answered_ticks in H end. cbn in *. lia. Qed.

Lemma turn_length t a jobs outs t' a' : turn t a jobs outs t' a' → length jobs = length outs.
Proof. induction 1; cbn; congruence. Qed.

(** A connection without requests has no output. *)
Lemma turn_no_requests t a jobs outs t' a' i out :
  turn t a jobs outs t' a' → jobs !! i = Some [] → outs !! i = Some out → out = [].
Proof.
  intros Ht. revert i. induction Ht as [|t a t1 reqs out1 t2 a2 jobs outs t3 a3 _ Ho _ IH]; intros [|i]; [done..| |apply IH].
  intros [= ->] [= <-]. by inversion Ho.
Qed.

(** The clock is read before or after the jobs. *)
Lemma turn_before t0 t a jobs outs t' a' : (t0 ≤ t)%nat → turn t a jobs outs t' a' → turn t0 a jobs outs t' a'.
Proof.
  intros Ht. destruct 1; [constructor; lia|]. eapply turn_cons; [|done..]. lia.
Qed.
Lemma turn_after t1 t a jobs outs t' a' : turn t a jobs outs t' a' → (t' ≤ t1)%nat → turn t a jobs outs t1 a'.
Proof. induction 1; intros; [constructor; lia|]. econstructor; eauto. Qed.
Lemma turn_refused_before t0 t a jobs : (t0 ≤ t)%nat → turn_refused t a jobs → turn_refused t0 a jobs.
Proof.
  intros Ht. destruct 1; [eapply turn_refused_now|eapply turn_refused_later]; [|done| |done..]; lia.
Qed.
End turn.
