(* ===== verification/ConnTable.v ===== *)
(** The table of connections and the idle list of the server: they describe the
    same connections, oldest activity first, when connections come, move and go. *)
From S2P Require Import Prelude Bytes Serialize Protocol NetIO NetIOProofs DList.
From S2P Require Import ConnProofs Commands Server.
Import DList.

(** ** Rings *)
Lemma linked_same σ σ' xs : (∀ x, x ∈ xs → σ' !! x = σ !! x) → linked σ xs → linked σ' xs.
Proof.
  induction xs as [|x xs IH]; intros Hs; [done|]. destruct xs as [|y xs]; [done|].
  intros (H1 & H2 & H3). split_and!; [unfold nxt in *|unfold prv in *|].
  - by rewrite Hs by by left.
  - rewrite Hs; [done|right; by left].
  - apply IH; [|exact H3]. intros z Hz. apply Hs. by right.
Qed.

Lemma ring_same σ σ' h xs : (∀ x, x ∈ h :: xs → σ' !! x = σ !! x) → ring σ h xs → ring σ' h xs.
Proof.
  intros Hs [Hl Hnd]. split; [|done]. eapply linked_same; [|done]. intros x Hx. apply Hs. set_solver.
Qed.

Lemma linked_alloc σ xs a : linked σ (xs ++ [a]) → ∀ x, x ∈ xs → is_Some (σ !! x).
Proof.
  induction xs as [|x [|y xs] IH]; cbn [app linked]; intros Hl z Hz; [by apply not_elem_of_nil in Hz|..].
  - apply list_elem_of_singleton in Hz as ->. destruct Hl as (H & _ & _). unfold nxt in H. by destruct (σ !! x).
  - destruct Hl as (H & _ & Hl). apply elem_of_cons in Hz as [->|Hz]; [|by apply IH].
    unfold nxt in H. by destruct (σ !! x).
Qed.

Lemma ring_alloc σ h xs x : ring σ h xs → x ∈ h :: xs → is_Some (σ !! x).
Proof. intros [Hl _] Hx. by apply (linked_alloc σ (h :: xs) h). Qed.

Lemma ring_first σ h x xs : ring σ h (x :: xs) → ∃ n, σ !! h = Some n ∧ next n = Some x.
Proof.
  intros [(H & _) _]. unfold nxt in H. destruct (σ !! h) as [n|]; [|done]. by exists n.
Qed.

(** ** The steps of the components, on the whole state *)
Lemma wp_on_conns {A} (m : M (gmap ptr Connection) A) (Q : A → Server → Prop) s :
  wp m (λ a c, Q a (mkServer (sdata s) c (fd2conn s) (idle s) (tick s))) (conns s) → wp (on_conns m) Q s.
Proof. apply (wp_zoom conns (λ c s, mkServer (sdata s) c (fd2conn s) (idle s) (tick s))). Qed.
Lemma wp_on_idle {A} (m : M store A) (Q : A → Server → Prop) s :
  wp m (λ a i, Q a (mkServer (sdata s) (conns s) (fd2conn s) i (tick s))) (idle s) → wp (on_idle m) Q s.
Proof. apply (wp_zoom idle (λ i s, mkServer (sdata s) (conns s) (fd2conn s) i (tick s))). Qed.
Lemma wp_on_sdata {A} (m : SM A) (Q : A → Server → Prop) s :
  wp m (λ a d, Q a (mkServer d (conns s) (fd2conn s) (idle s) (tick s))) (sdata s) → wp (on_sdata m) Q s.
Proof. apply (wp_zoom sdata (λ d s, mkServer d (conns s) (fd2conn s) (idle s) (tick s))). Qed.
Lemma wp_fd_get fd o (Q : option ptr → Server → Prop) s :
  fd2conn s !! Z.to_nat fd = Some o → Q o s → wp (fd_get fd) Q s.
Proof. intros H HQ. apply wp_bind, wp_get. by eapply wp_deref. Qed.
Lemma wp_fd_set fd o v (Q : () → Server → Prop) s :
  fd2conn s !! Z.to_nat fd = Some o →
  Q () (mkServer (sdata s) (conns s) (<[Z.to_nat fd := v]> (fd2conn s)) (idle s) (tick s)) → wp (fd_set fd v) Q s.
Proof. intros H HQ. apply wp_bind, wp_get, wp_bind. by eapply wp_deref. Qed.

(** ** Sorted lists *)
Lemma sorted_remove {A} (R : relation A) l x r : StronglySorted R (l ++ x :: r) → StronglySorted R (l ++ r).
Proof.
  induction l as [|y l IH]; cbn [app]; [by inversion 1|]. inversion_clear 1 as [|? ? Hs Hf]. constructor; [by apply IH|].
  rewrite Forall_app, Forall_cons in Hf. rewrite Forall_app. tauto.
Qed.
Lemma sorted_snoc {A} (R : relation A) l x :
  StronglySorted R l → (∀ y, y ∈ l → R y x) → StronglySorted R (l ++ [x]).
Proof.
  induction 1 as [|y l Hs IH Hf]; intros Hx; cbn [app]; [by repeat constructor|]. constructor.
  - apply IH. intros z Hz. apply Hx. by right.
  - apply Forall_app. split; [done|]. constructor; [|done]. apply Hx. by left.
Qed.
Lemma sorted_impl {A} (R R' : relation A) l :
  StronglySorted R l → (∀ x y, x ∈ l → y ∈ l → R x y → R' x y) → StronglySorted R' l.
Proof.
  induction 1 as [|x l Hs IH Hf]; intros Himp; constructor.
  - apply IH. intros y z Hy Hz. apply Himp; by right.
  - rewrite Forall_forall in *. intros y Hy. apply Himp; [by left|by right|by apply Hf].
Qed.

(** * The invariant of the connections *)

(** The first connection was active before the second. *)
Definition idle_before (m : gmap ptr Connection) (c c' : ptr) : Prop :=
  ∀ x y, m !! c = Some x → m !! c' = Some y → last_activity_ms x <= last_activity_ms y.

(** The idle list holds every connection, oldest activity first; the table of
    descriptors and the connections point at each other; and nothing else is
    allocated. [now] is a time after every activity. *)
Record conns_ok (now : Z) (s : Server) (cs : list ptr) : Prop := {
  co_ring : ring (idle s) idle_conn_list cs;
  co_dom : ∀ c, is_Some (conns s !! c) ↔ c ∈ cs;
  co_links : ∀ c, is_Some (idle s !! c) → c = idle_conn_list ∨ c ∈ cs;
  co_table : ∀ fd c, fd2conn s !! fd = Some (Some c) → ∃ cn, conns s !! c = Some cn ∧ Z.to_nat (socket_fd cn) = fd;
  co_fd : ∀ c cn, conns s !! c = Some cn → 0 <= socket_fd cn ∧ fd2conn s !! Z.to_nat (socket_fd cn) = Some (Some c);
  co_conn : ∀ c cn, conns s !! c = Some cn → conn_ok cn;
  co_sorted : StronglySorted (idle_before (conns s)) cs;
  co_recent : ∀ c cn, conns s !! c = Some cn → 0 <= last_activity_ms cn <= now;
}.

(** Only the data of the commands and the clock changed. *)
Lemma conns_ok_eq now now' s s' cs :
  conns_ok now s cs → now <= now' → conns s' = conns s → fd2conn s' = fd2conn s → idle s' = idle s → conns_ok now' s' cs.
Proof.
  intros [] Hle Hc Hf Hi. constructor; rewrite ?Hc, ?Hf, ?Hi; try done.
  intros c cn Hcn. specialize (co_recent0 c cn Hcn). lia.
Qed.

(** ** A connection is closed *)
Lemma handle_destroy_lemma now s l c r :
  conns_ok now s (l ++ c :: r) →
  wp (handle_destroy c) (λ _ s', sdata s' = sdata s ∧ tick s' = tick s ∧ conns s' = delete c (conns s) ∧
    (∃ cn, conns s !! c = Some cn ∧ fd2conn s' = <[Z.to_nat (socket_fd cn) := None]> (fd2conn s)) ∧
    conns_ok now s' (l ++ r)) s.
Proof.
  intros Hok. assert (∃ cn, conns s !! c = Some cn) as [cn Hc] by (apply (co_dom _ _ _ Hok); set_solver).
  destruct (co_fd _ _ _ Hok c cn Hc) as [Hfd Ht]. pose proof (co_ring _ _ _ Hok) as Hring.
  assert (c ∉ idle_conn_list :: l ++ r) as Hnin.
  { destruct Hring as [_ Hnd]. apply NoDup_cons in Hnd as [H1 H2].
    rewrite <-Permutation_middle in H1, H2. apply NoDup_cons in H2 as [H2 _]. set_solver. }
  unfold handle_destroy. apply wp_bind, wp_on_conns. eapply wp_load; [exact Hc|].
  apply wp_bind. eapply wp_fd_set; [exact Ht|].
  apply wp_bind, wp_on_idle. eapply wp_mono; [by apply dlist_detach_lemma|].
  intros [] i [Hr [Hframe Halloc]]. unfold conn_free, wp. cbn. split_and!; [done..|by exists cn|].
  constructor; cbn.
  - eapply ring_same; [|exact Hr]. intros x Hx. rewrite lookup_delete_ne; [done|]. by intros <-.
  - intros x. rewrite lookup_delete_is_Some, (co_dom _ _ _ Hok). set_solver.
  - intros x [Hne Hx]%lookup_delete_is_Some. destruct (decide (x ∈ idle_conn_list :: l ++ r)); [set_solver|].
    rewrite Hframe in Hx by done. apply (co_links _ _ _ Hok) in Hx. set_solver.
  - intros fd x. destruct (decide (fd = Z.to_nat (socket_fd cn))) as [->|Hne].
    { rewrite list_lookup_insert_eq by (by eapply lookup_lt_Some). done. }
    rewrite list_lookup_insert_ne by done. intros (cx & Hx & Hxfd)%(co_table _ _ _ Hok).
    exists cx. split; [|done]. rewrite lookup_delete_ne; [done|]. intros <-. congruence.
  - intros x cx [Hne Hx]%lookup_delete_Some. destruct (co_fd _ _ _ Hok x cx Hx) as [H1 H2]. split; [done|].
    rewrite list_lookup_insert_ne; [done|]. intros Heq. rewrite Heq in Ht. congruence.
  - intros x cx [_ Hx]%lookup_delete_Some. by eapply co_conn.
  - apply (sorted_impl (idle_before (conns s))); [eapply sorted_remove, Hok|].
    intros x y _ _ H cx cy [_ Hx]%lookup_delete_Some [_ Hy]%lookup_delete_Some. by eapply H.
  - intros x cx [_ Hx]%lookup_delete_Some. by eapply co_recent.
Qed.

(** ** A connection moves to the end of the idle list *)
Definition links_of (i : store) (cs : list ptr) : Prop := ∀ c, is_Some (i !! c) → c = idle_conn_list ∨ c ∈ cs.

Lemma idle_touch now s l c r :
  conns_ok now s (l ++ c :: r) →
  wp (on_idle (dlist_detach c);; on_idle (dlist_insert_before idle_conn_list c))
    (λ _ s', ∃ i, s' = mkServer (sdata s) (conns s) (fd2conn s) i (tick s) ∧
       ring i idle_conn_list ((l ++ r) ++ [c]) ∧ links_of i (l ++ c :: r)) s.
Proof.
  intros Hok. pose proof (co_ring _ _ _ Hok) as Hring.
  assert (c ∉ idle_conn_list :: l ++ r) as Hnin.
  { destruct Hring as [_ Hnd]. apply NoDup_cons in Hnd as [H1 H2].
    rewrite <-Permutation_middle in H1, H2. apply NoDup_cons in H2 as [H2 _]. set_solver. }
  assert (is_Some (idle s !! c)) as Hc by (apply (ring_alloc _ _ _ c Hring); set_solver).
  apply wp_bind, wp_on_idle. eapply wp_mono; [by apply dlist_detach_lemma|].
  intros [] i [Hr [Hframe Halloc]]. apply wp_on_idle. cbn [idle].
  eapply wp_mono; [apply dlist_insert_lemma; [exact Hr|done|by apply Halloc]|].
  intros [] i' [Hr' [Hframe' _]]. exists i'. split; [done|]. split; [done|]. intros x Hx.
  destruct (decide (x ∈ c :: idle_conn_list :: l ++ r)) as [Hin|Hout]; [set_solver|].
  rewrite Hframe' in Hx by done. rewrite Hframe in Hx by set_solver. by apply (co_links _ _ _ Hok).
Qed.

(** The connection that moved was active at [now']; its descriptor did not
    change. *)
Lemma conns_ok_touch now now' now'' s d i t l c r cn cn' :
  conns_ok now s (l ++ c :: r) → ring i idle_conn_list ((l ++ r) ++ [c]) → links_of i (l ++ c :: r) →
  conns s !! c = Some cn → socket_fd cn' = socket_fd cn → conn_ok cn' →
  last_activity_ms cn' = now' → now <= now' <= now'' →
  conns_ok now'' (mkServer d (<[c := cn']> (conns s)) (fd2conn s) i t) ((l ++ r) ++ [c]).
Proof.
  intros Hok Hr Hlinks Hc Hfd Hconn Hla [Hle Hle'].
  pose proof (co_recent _ _ _ Hok c cn Hc) as Hcr. constructor; cbn; [done|..].
  - intros x. rewrite lookup_insert_is_Some', (co_dom _ _ _ Hok). set_solver.
  - intros x Hx. apply Hlinks in Hx. set_solver.
  - intros fd x (cx & Hx & Hxfd)%(co_table _ _ _ Hok). destruct (decide (x = c)) as [->|].
    + exists cn'. rewrite lookup_insert_eq. split; [done|]. congruence.
    + exists cx. by rewrite lookup_insert_ne.
  - intros x cx. rewrite lookup_insert_Some. intros [[<- <-]|[_ Hx]]; [|by apply (co_fd _ _ _ Hok)].
    rewrite Hfd. by apply (co_fd _ _ _ Hok).
  - intros x cx. rewrite lookup_insert_Some. intros [[<- <-]|[_ Hx]]; [done|by eapply co_conn].
  - assert (NoDup ((l ++ r) ++ [c])) as Hnd by (by destruct Hr as [_ [_ ?]%NoDup_cons]).
    apply NoDup_app in Hnd as (_ & Hnd & _).
    apply sorted_snoc.
    + apply (sorted_impl (idle_before (conns s))); [eapply sorted_remove, Hok|].
      intros x y Hx Hy H cx cy. rewrite !lookup_insert_ne by (intros ->; set_solver). apply H.
    + intros y Hy cy cc. rewrite lookup_insert_eq, lookup_insert_ne by (intros ->; set_solver).
      intros Hcy [= <-]. pose proof (co_recent _ _ _ Hok y cy Hcy). lia.
  - intros x cx. rewrite lookup_insert_Some. intros [[<- <-]|[_ Hx]]; [lia|].
    pose proof (co_recent _ _ _ Hok x cx Hx). lia.
Qed.

(** ** The table of descriptors grows *)
Definition grown (f : list (option ptr)) (fd : Z) : list (option ptr) :=
  if blen f <=? fd then f ++ replicate (Z.to_nat fd + 1 - length f) None else f.

Lemma grown_lookup f fd n c : grown f fd !! n = Some (Some c) ↔ f !! n = Some (Some c).
Proof.
  unfold grown. destruct (_ <=? _); [|done]. rewrite lookup_app_Some, lookup_replicate. naive_solver.
Qed.
Lemma grown_fresh f fd :
  0 <= fd → (∀ c, f !! Z.to_nat fd ≠ Some (Some c)) → grown f fd !! Z.to_nat fd = Some None.
Proof.
  intros Hfd Hf. unfold grown. destruct (Z.leb_spec (blen f) fd) as [Hle|Hgt]; unfold blen in *.
  - rewrite lookup_app_r by lia. apply lookup_replicate_2. lia.
  - destruct (f !! Z.to_nat fd) as [[c|]|] eqn:He; [by destruct (Hf c)|done|].
    apply lookup_ge_None in He. lia.
Qed.

(** The table with the new connection. *)
Definition accepted_table (f : list (option ptr)) (fd : Z) (p : ptr) : list (option ptr) :=
  <[Z.to_nat fd := Some p]> (grown f fd).

Lemma accepted_table_lookup f fd p :
  0 <= fd → (∀ c, f !! Z.to_nat fd ≠ Some (Some c)) → accepted_table f fd p !! Z.to_nat fd = Some (Some p).
Proof.
  intros Hfd Hfresh. apply list_lookup_insert_eq. eapply lookup_lt_Some. by apply grown_fresh.
Qed.
Lemma accepted_table_other f fd p n c :
  n ≠ Z.to_nat fd → accepted_table f fd p !! n = Some (Some c) ↔ f !! n = Some (Some c).
Proof. intros Hn. unfold accepted_table. rewrite list_lookup_insert_ne by done. apply grown_lookup. Qed.

(** A new connection, active now, is put at the end of the idle list. *)
Lemma conns_ok_accept now s cs d i t p fd :
  conns_ok now s cs → 0 <= now → 0 <= fd → (∀ c, fd2conn s !! Z.to_nat fd ≠ Some (Some c)) → conns s !! p = None →
  ring i idle_conn_list (cs ++ [p]) → links_of i (cs ++ [p]) →
  conns_ok now (mkServer d (<[p := new_connection fd now]> (conns s)) (accepted_table (fd2conn s) fd p) i t) (cs ++ [p]).
Proof.
  intros Hok Hnow Hfd Hfresh Hp Hr Hlinks.
  assert (∀ y, y ∈ cs → p ≠ y) as Hpy by (intros y Hy%(co_dom _ _ _ Hok) ->; rewrite Hp in Hy; by destruct Hy).
  constructor; cbn [conns fd2conn idle]; [done|..].
  - intros x. rewrite lookup_insert_is_Some', (co_dom _ _ _ Hok). set_solver.
  - done.
  - intros n x Hx. destruct (decide (n = Z.to_nat fd)) as [->|Hn].
    + rewrite accepted_table_lookup in Hx by done. injection Hx as <-. eexists. by rewrite lookup_insert_eq.
    + apply accepted_table_other, (co_table _ _ _ Hok) in Hx as (cx & Hx & <-); [|done]. exists cx.
      rewrite lookup_insert_ne; [done|]. intros <-. congruence.
  - intros x cx. rewrite lookup_insert_Some. intros [[<- <-]|[_ Hx]].
    + split; [done|]. by apply accepted_table_lookup.
    + destruct (co_fd _ _ _ Hok _ _ Hx) as [H1 H2]. split; [done|]. apply accepted_table_other; [|done].
      intros Heq. rewrite Heq in H2. by eapply Hfresh.
  - intros x cx. rewrite lookup_insert_Some. intros [[<- <-]|[_ Hx]]; [done|by eapply co_conn].
  - apply sorted_snoc.
    + apply (sorted_impl (idle_before (conns s))); [apply Hok|].
      intros x y Hx Hy H cx cy. rewrite !lookup_insert_ne by auto. apply H.
    + intros y Hy cy cc. rewrite lookup_insert_eq, lookup_insert_ne by auto.
      intros Hcy [= <-]. apply (co_recent _ _ _ Hok y cy Hcy).
  - intros x cx. rewrite lookup_insert_Some. intros [[<- <-]|[_ Hx]]; [done|by apply (co_recent _ _ _ Hok _ _ Hx)].
Qed.

(** [new Connection()] and its place in the idle list. *)
Lemma idle_insert_new now s cs p :
  conns_ok now s cs → idle s !! p = None →
  wp (dlist_insert_before idle_conn_list p)
    (λ _ i, ring i idle_conn_list (cs ++ [p]) ∧ links_of i (cs ++ [p])) (<[p := node_init]> (idle s)).
Proof.
  intros Hok Hp. pose proof (co_ring _ _ _ Hok) as Hring.
  assert (p ∉ idle_conn_list :: cs) as Hnin.
  { intros Hin. apply (ring_alloc _ _ _ p Hring) in Hin. rewrite Hp in Hin. by destruct Hin. }
  eapply wp_mono.
  { apply (dlist_insert_lemma _ _ cs); [|exact Hnin|by rewrite lookup_insert_eq].
    eapply ring_same; [|exact Hring]. intros x Hx. rewrite lookup_insert_ne; [done|]. by intros ->. }
  intros [] i [Hr [Hframe _]]. split; [done|]. intros x Hx.
  destruct (decide (x ∈ p :: idle_conn_list :: cs)) as [|Hout]; [set_solver|].
  rewrite Hframe, lookup_insert_ne in Hx by set_solver. apply (co_links _ _ _ Hok) in Hx. set_solver.
Qed.
