(* ===== verification/NetProps.v ===== *)
(** The properties of the connections (net/netio.cpp, server.cpp), for every
    handler that appends its response; the instances are for the commands of
    storage/commands.cpp. *)
From Stdlib Require Import Strings.String.
From S2P Require Import Prelude Bytes Serialize Protocol NetIO NetIOProofs AvlTree Hashtable.
From S2P Require Import Heap SortedSet Commands Server CommandsAppend.

Open Scope list_scope.

(** ** Instances *)
Definition clock0 (n : nat) : Z := 1000 + Z.of_nat n.
#[local] Instance commands : Handler (ServerData * nat) := server_handler clock0.
#[local] Instance commands_append : HandlerAppends (ServerData * nat) := server_handler_appends clock0.

Definition ping : bytes := request_bytes [str "ping"].
Definition set_k : bytes := request_bytes [str "set"; str "k"; str "v"].
Definition with_input (b : bytes) : Connection := set_incoming b (new_connection 5 0).
Definition idle_server : ServerData * nat := (server_init, 0%nat).

(** * Properties *)

(** C30: handle_one_request takes one frame off the input: it asks for more if
    the frame is not complete, asks to close if its length is above the
    bound, and otherwise appends exactly one response frame, the error
    for a malformed request and the one for an oversized response included. *)
Theorem handle_one_request_correct `{Hh : Handler T, !HandlerAppends T} conn (σ : T) :
  handle_one_request conn σ =
    match next_frame (incoming conn) with
    | FMore => Done ((false, conn), σ)
    | FBad => Done ((false, set_want_close conn), σ)
    | FRequest request rest =>
        (d ← answer request;
         mret (true, set_incoming rest (set_outgoing (outgoing conn ++ d) conn))) σ
    end ∧
  ∀ d, blen d < 2 ^ 64 →
    respond d = frame (if blen d >? k_max_msg
                       then out_err [] ERR_TOO_BIG (str "response is too big.") else d).
Proof. split; [apply handle_one_request_spec|apply respond_spec]. Qed.

Lemma handle_one_request_correct_witness :
  handle_one_request (with_input (frame ping ++ [Byte.x01])) idle_server =
  Done ((true, set_incoming [Byte.x01] (set_outgoing (frame (out_str [] (str "pong"))) (new_connection 5 0))),
        (server_init, 1%nat)).
Proof.
  rewrite (proj1 (handle_one_request_correct (with_input (frame ping ++ [Byte.x01])) idle_server)).
  vm_compute. reflexivity.
Defined.

(** The way the stream is cut into reads does not matter: handling the
    requests of a buffer and, when more bytes have arrived, those of what is
    left of it with them is the same as handling all the bytes at once, with
    the same output and the same effect on the store. *)
Theorem requests_chunking `{Hh : Handler T, !HandlerAppends T} conn more (σ : T) :
  requests (set_incoming (incoming conn ++ more) conn) σ =
  (c ← requests conn; requests (set_incoming (incoming c ++ more) c)) σ.
Proof. by apply (requests_append_lemma (length (incoming conn))). Qed.

Lemma requests_chunking_witness :
  requests (with_input (take 6 (frame set_k) ++ drop 6 (frame set_k))) idle_server =
  (c ← requests (with_input (take 6 (frame set_k)));
   requests (set_incoming (incoming c ++ drop 6 (frame set_k)) c)) idle_server.
Proof. exact (requests_chunking (with_input (take 6 (frame set_k))) (drop 6 (frame set_k)) idle_server). Defined.

(** Pipelined requests are answered one by one, in order, and consumed
    completely. *)
Theorem requests_pipeline `{Hh : Handler T, !HandlerAppends T} reqs conn (σ : T) :
  Forall (λ req, blen req <= k_max_msg) reqs → incoming conn = concat (frame <$> reqs) →
  requests conn σ =
  (ds ← answers reqs; mret (set_incoming [] (set_outgoing (outgoing conn ++ ds) conn))) σ.
Proof. apply requests_pipeline_lemma. Qed.

Lemma requests_pipeline_witness :
  requests (with_input (frame ping ++ frame set_k)) idle_server =
  (ds ← answers [ping; set_k]; mret (set_incoming [] (set_outgoing ds (new_connection 5 0)))) idle_server.
Proof.
  apply (requests_pipeline [ping; set_k] (with_input (frame ping ++ frame set_k)) idle_server).
  - repeat constructor; apply Z.leb_le; vm_compute; reflexivity.
  - vm_compute. reflexivity.
Defined.

(** Whatever is ready and whatever the kernel answers, a connection that
    waits to write if and only if it has output, and to read otherwise, is so
    again after it was served, and it is served without a failed assertion
    unless a command fails one; the process is ended by SIGPIPE only when the
    peer is gone. *)
Theorem serve_ready_flags `{Hh : Handler T, !HandlerAppends T} pin pout perr now rd wr wr' conn (σ : T) :
  flags_ok conn →
  blames_run (T:=T) (WrPipe ∈ [wr; wr']) (serve_ready pin pout perr now rd wr wr' conn σ) (λ r : bool * Connection * T, flags_ok r.1.2).
Proof. apply serve_ready_lemma. Qed.

Lemma serve_ready_flags_witness :
  blames_run (T:=ServerData * nat) (WrPipe ∈ [WrOk 3; WrAgain])
    (serve_ready true false false 7 (RdOk (frame ping)) (WrOk 3) WrAgain (new_connection 5 0) idle_server)
    (λ r : bool * Connection * (ServerData * nat), flags_ok r.1.2).
Proof.
  apply (serve_ready_flags true false false 7 (RdOk (frame ping)) (WrOk 3) WrAgain (new_connection 5 0) idle_server).
  split; reflexivity.
Defined.
