(* ===== verification/ServerProofs.v ===== *)
(** The event loop keeps the table of connections, the idle list and the store
    consistent and runs the requests it receives as the specification says, and
    the timers close exactly the idle connections and delete exactly the expired
    keys. *)
From S2P Require Import Prelude Bytes Serialize Protocol NetIO NetIOProofs Common AvlTree Hashtable.
From S2P Require Import Heap SortedSet Commands Overruns KeySpace CommandSpec KeyBounds CommandProofs CommandProps DList.
From S2P Require Import CommandsAppend ConnProofs Server KeyService ConnTable Timers.
Import DList.

(** * The invariant of the server *)
Section clock.
Context (clock : nat → Z).
Context (Hmono : ∀ n m, (n ≤ m)%nat → clock n <= clock m) (Hrange : ∀ n, 0 <= clock n < 2 ^ 62).

(** No connection that is to be closed is left. *)
Definition all_open (s : Server) : Prop := ∀ c cn, conns s !! c = Some cn → want_close cn = false.

Record server_inv (s : Server) : Prop := {
  si_store : ∃ a, holds (sdata s) a;
  si_conns : ∃ cs, conns_ok (clock (tick s)) s cs;
  si_open : all_open s;
}.

(** The connection of a descriptor. *)
Definition conn_at (s : Server) (fd : Z) : option Connection :=
  mjoin (fd2conn s !! Z.to_nat fd) ≫= λ c, conns s !! c.

Lemma conn_at_spec now s cs fd cn :
  conns_ok now s cs → conn_at s fd = Some cn ↔ ∃ c, conns s !! c = Some cn ∧ Z.to_nat (socket_fd cn) = Z.to_nat fd.
Proof using Type.
  intros Hok. unfold conn_at. split.
  - destruct (fd2conn s !! Z.to_nat fd) as [[c|]|] eqn:Hf; try done. cbn. intros Hc. exists c. split; [done|].
    destruct (co_table _ _ _ Hok _ _ Hf) as (cn' & Hc' & Hfd). congruence.
  - intros (c & Hc & <-). destruct (co_fd _ _ _ Hok _ _ Hc) as [_ ->]. done.
Qed.

(** Two connections have two descriptors. *)
Lemma conns_fd now s cs c c' cn cn' :
  conns_ok now s cs → conns s !! c = Some cn → conns s !! c' = Some cn' →
  Z.to_nat (socket_fd cn) = Z.to_nat (socket_fd cn') → c = c'.
Proof using Type.
  intros Hok Hc Hc' Heq. destruct (co_fd _ _ _ Hok _ _ Hc) as [_ H1], (co_fd _ _ _ Hok _ _ Hc') as [_ H2].
  rewrite Heq in H1. congruence.
Qed.

(** A connection is changed, or closed; the others are not. *)
Lemma conn_at_insert now now' s s' cs cs' c cn cn' fd :
  conns_ok now s cs → conns_ok now' s' cs' → conns s !! c = Some cn → socket_fd cn' = socket_fd cn →
  conns s' = <[c := cn']> (conns s) →
  conn_at s' fd = (if bool_decide (Z.to_nat fd = Z.to_nat (socket_fd cn)) then Some cn' else conn_at s fd).
Proof using Type.
  intros Hok Hok' Hc Hfd Hcs. apply option_eq. intros x. rewrite (conn_at_spec _ _ _ _ _ Hok'), Hcs. case_bool_decide as Heq.
  - split.
    + intros (y & Hy & Hyf). apply lookup_insert_Some in Hy as [[_ ->]|[Hne Hy]]; [done|].
      destruct Hne. eapply (conns_fd _ _ _ _ _ _ _ Hok Hc Hy). congruence.
    + intros [= <-]. exists c. rewrite lookup_insert_eq. split; [done|]. congruence.
  - rewrite (conn_at_spec _ _ _ _ _ Hok). split; intros (y & Hy & Hyf); exists y; (split; [|done]).
    + apply lookup_insert_Some in Hy as [[_ <-]|[_ Hy]]; [|done]. congruence.
    + rewrite lookup_insert_ne; [done|]. intros <-. congruence.
Qed.

Lemma conn_at_delete now now' s s' cs cs' c cn fd :
  conns_ok now s cs → conns_ok now' s' cs' → conns s !! c = Some cn → conns s' = delete c (conns s) →
  conn_at s' fd = (if bool_decide (Z.to_nat fd = Z.to_nat (socket_fd cn)) then None else conn_at s fd).
Proof using Type.
  intros Hok Hok' Hc Hcs. apply option_eq. intros x. rewrite (conn_at_spec _ _ _ _ _ Hok'), Hcs. case_bool_decide as Heq.
  - split; [|done]. intros (y & [Hne Hy]%lookup_delete_Some & Hyf).
    destruct Hne. eapply (conns_fd _ _ _ _ _ _ _ Hok Hc Hy). congruence.
  - rewrite (conn_at_spec _ _ _ _ _ Hok). split; intros (y & Hy & Hyf); exists y; (split; [|done]).
    + by apply lookup_delete_Some in Hy as [_ Hy].
    + rewrite lookup_delete_ne; [done|]. intros <-. congruence.
Qed.

Lemma conn_at_new now now' s s' cs cs' p cn fd :
  conns_ok now s cs → conns_ok now' s' cs' → conns s !! p = None → conns s' = <[p := cn]> (conns s) →
  (∀ c, fd2conn s !! Z.to_nat (socket_fd cn) ≠ Some (Some c)) →
  conn_at s' fd = (if bool_decide (Z.to_nat fd = Z.to_nat (socket_fd cn)) then Some cn else conn_at s fd).
Proof using Type.
  intros Hok Hok' Hp Hcs Hfresh. apply option_eq. intros x. rewrite (conn_at_spec _ _ _ _ _ Hok'), Hcs. case_bool_decide as Heq.
  - split.
    + intros (y & Hy & Hyf). apply lookup_insert_Some in Hy as [[_ ->]|[_ Hy]]; [done|].
      destruct (co_fd _ _ _ Hok _ _ Hy) as [_ Ht]. rewrite Hyf, Heq in Ht. by apply Hfresh in Ht.
    + intros [= <-]. exists p. by rewrite lookup_insert_eq.
  - rewrite (conn_at_spec _ _ _ _ _ Hok). split; intros (y & Hy & Hyf); exists y; (split; [|done]).
    + apply lookup_insert_Some in Hy as [[_ <-]|[_ Hy]]; [|done]. congruence.
    + rewrite lookup_insert_ne; [done|]. intros <-. congruence.
Qed.

(** The descriptor of an open connection. *)
Definition open_fd (s : Server) (fd : Z) : Prop := 0 <= fd ∧ ∃ c, fd2conn s !! Z.to_nat fd = Some (Some c).

Lemma server_start_inv : server_inv server_start.
Proof using Hrange.
  constructor; [exists ∅; apply holds_init| |by intros c cn Hc].
  exists []. constructor; try done.
  - split; [done|]. apply NoDup_singleton.
  - intros c. split; [by intros [? ?]|by intros ?%not_elem_of_nil].
  - intros c. cbn. rewrite lookup_insert_is_Some'. intros [<-|[? ?]]; [by left|done].
  - constructor.
Qed.

#[local] Opaque idle_conn_list.

(** The clock is read. *)
Definition ticked (s : Server) : Server := mkServer (sdata s) (conns s) (fd2conn s) (idle s) (S (tick s)).

Lemma wp_now (Q : Z → Server → Prop) s : Q (clock (tick s)) (ticked s) → wp (get_current_time_ms clock) Q s.
Proof. done. Qed.

Lemma conns_ok_ticked s cs : conns_ok (clock (tick s)) s cs → conns_ok (clock (S (tick s))) (ticked s) cs.
Proof using Hmono. intros H. eapply conns_ok_eq; [exact H| |done..]. apply Hmono. lia. Qed.

Lemma server_inv_ticked s : server_inv s → server_inv (ticked s).
Proof using Hmono.
  intros [Hs [cs Hc] Ho]. constructor; [done| |done]. exists cs. by apply conns_ok_ticked.
Qed.

(** ** A connection is accepted *)
Lemma handle_accept_lemma fd s :
  server_inv s → (∀ c, fd2conn s !! Z.to_nat fd ≠ Some (Some c)) →
  wp (handle_accept clock fd) (λ r s', server_inv s' ∧ r = (if fd <? 0 then -1 else 0) ∧
    (tick s ≤ tick s')%nat ∧ sdata s' = sdata s ∧
    ∀ fd', conn_at s' fd' = (if bool_decide (0 <= fd ∧ Z.to_nat fd' = Z.to_nat fd)
                             then Some (new_connection fd (clock (tick s))) else conn_at s fd')) s.
Proof using Hmono Hrange.
  intros [Hs [cs Hok] Hopen] Hfresh. unfold handle_accept.
  destruct (Z.ltb_spec fd 0) as [Hneg|Hfd].
  { apply wp_ret. split_and!; [by constructor; eauto|done|lia|done|].
    intros fd'. rewrite bool_decide_false; [done|]. intros [? _]. lia. }
  apply wp_bind, wp_now, wp_bind. unfold conn_new. unfold wp at 1.
  change (conns (ticked s)) with (conns s). change (idle (ticked s)) with (idle s).
  set (p := Pos.max (fresh_ptr (conns s)) (fresh_ptr (idle s))). fold (new_connection fd (clock (tick s))).
  assert (conns s !! p = None) as Hpc by (apply fresh_ptr_fresh; lia).
  assert (idle s !! p = None) as Hpi by (apply fresh_ptr_fresh; lia).
  apply wp_bind, wp_on_idle. cbn [idle sdata conns fd2conn tick ticked].
  eapply wp_mono; [by eapply idle_insert_new|]. intros [] i [Hr Hlinks]. apply wp_bind, wp_get. apply wp_bind. cbn [fd2conn].
  apply wp_done with (a := ())
    (σ' := mkServer (sdata s) (<[p := new_connection fd (clock (tick s))]> (conns s)) (grown (fd2conn s) fd) i (S (tick s))).
  { unfold grown. by destruct (_ <=? _). }
  pose proof (grown_fresh _ _ Hfd Hfresh) as Hnone.
  apply wp_bind. eapply wp_fd_get; [exact Hnone|]. apply wp_bind, wp_assert; [done|].
  apply wp_bind. eapply wp_fd_set; [exact Hnone|]. apply wp_ret. cbn [fd2conn sdata conns idle tick].
  fold (accepted_table (fd2conn s) fd p). set (s' := mkServer _ _ _ _ _).
  assert (conns_ok (clock (tick s)) s' (cs ++ [p])) as Hok'.
  { apply (conns_ok_accept (clock (tick s))); try done. apply Hrange. }
  split_and!; [|done|cbn; lia|done|].
  - constructor; [done| |].
    + exists (cs ++ [p]). eapply conns_ok_eq; [exact Hok'|apply Hmono; cbn; lia|done..].
    + intros c x. cbn. rewrite lookup_insert_Some. intros [[_ <-]|[_ Hx]]; [done|by eapply Hopen].
  - intros fd'. rewrite (conn_at_new _ _ s s' _ _ p (new_connection fd (clock (tick s))) _ Hok Hok') by done.
    cbn [socket_fd new_connection]. repeat case_bool_decide; tauto.
Qed.

(** ** Writes past a block *)
Definition vpast (s : Server) : list Z := past (sdata s).
Lemma keeps_vpast_conns {A} (m : M (gmap ptr Connection) A) : keeps vpast (on_conns m).
Proof using Type. by apply keeps_zoom. Qed.
Lemma keeps_vpast_idle {A} (m : M DList.store A) : keeps vpast (on_idle m).
Proof using Type. by apply keeps_zoom. Qed.
Lemma keeps_vpast_sdata {A} (m : SM A) : keeps past m → keeps vpast (on_sdata m).
Proof using Type. by apply keeps_zoom_in. Qed.
Lemma keeps_vpast_fd_set fd v : keeps vpast (fd_set fd v).
Proof using Type.
  unfold fd_set. apply keeps_bind; [apply keeps_get|]. intros s. apply keeps_bind; [apply keeps_deref|].
  by intros _ s0 a s1 [= _ <-].
Qed.
Lemma keeps_vpast_free c : keeps vpast (conn_free c).
Proof using Type. by intros s a s' [= _ <-]. Qed.
Lemma keeps_vpast_clock : keeps vpast (get_current_time_ms clock).
Proof using Type. by intros s a s' [= _ <-]. Qed.
#[local] Hint Resolve keeps_vpast_conns keeps_vpast_idle keeps_vpast_sdata keeps_vpast_fd_set keeps_vpast_free
  keeps_vpast_clock : keeps.
Lemma keeps_handle_destroy c : keeps vpast (handle_destroy c).
Proof using Type. unfold handle_destroy. keep. Qed.
#[local] Hint Resolve keeps_handle_destroy : keeps.
Lemma keeps_idle_timers fuel now : keeps vpast (idle_timers fuel now).
Proof using Type. induction fuel; cbn [idle_timers]; keep. Qed.
#[local] Hint Resolve keeps_idle_timers : keeps.
Lemma keeps_process_timers : keeps vpast (process_timers clock).
Proof using Type. unfold process_timers. keep. Qed.

(** ** A ready socket is served *)
#[local] Instance command_handler : Handler (ServerData * nat) := server_handler clock.
#[local] Instance command_service : Service (ServerData * nat) (keyspace * nat) := key_service clock.

(** The requests that the event [ev] of the connection of [fd] completes. *)
Definition job_requests (s : Server) (job : Z * conn_event) : list bytes :=
  match conn_at s job.1 with
  | Some cn => conn_requests (pollin job.2) (ev_read job.2) cn
  | None => []
  end.

(** What the event leaves of the connection [cn]: the responses [out] are in its
    output, or written. *)
Definition served (ev : conn_event) (cn : Connection) (out : bytes) (cn' : Connection) : Prop :=
  conn_after (got (pollin ev) (ev_read ev) cn) (pollout ev) (ev_write ev) (ev_write' ev) cn out cn'.

(** The event ends the connection. *)
Definition closed (ev : conn_event) (cn : Connection) (out : bytes) : bool :=
  closes (pollin ev) (pollout ev) (pollerr ev) (ev_read ev) (ev_write ev) (ev_write' ev) cn out.
Definition has_event (ev : conn_event) : bool := pollin ev || pollout ev || pollerr ev || pollhup ev.

(** The connection after the event, if it is still open; it was active at [now]. *)
Definition event_result (now : Z) (ev : conn_event) (cn : Connection) (out : bytes) (o : option Connection) : Prop :=
  match o with
  | Some cn' => served ev cn out cn' ∧ closed ev cn out = false ∧
      last_activity_ms cn <= last_activity_ms cn' ∧ (has_event ev = true → now <= last_activity_ms cn')
  | None => closed ev cn out = true
  end.
Lemma event_result_mono now now' ev cn out o : now' <= now → event_result now ev cn out o → event_result now' ev cn out o.
Proof using Type. destruct o; [|done]. intros Hn (? & ? & ? & Ha). split_and!; [done..|]. intros He. specialize (Ha He). lia. Qed.

(** The connection of [fd] is closed or was served, and the others are as they
    were. *)
Definition serves_fd (s s' : Server) (fd : Z) (ev : conn_event) (cn : Connection) (out : bytes) : Prop :=
  (∀ fd', Z.to_nat fd' ≠ Z.to_nat fd → conn_at s' fd' = conn_at s fd') ∧
  event_result (clock (tick s)) ev cn out (conn_at s' fd).

Lemma handle_destroy_inv s a c cn :
  holds (sdata s) a → (∃ cs, conns_ok (clock (tick s)) s cs) → conns s !! c = Some cn →
  (∀ c' x, c' ≠ c → conns s !! c' = Some x → want_close x = false) →
  wp (handle_destroy c) (λ _ s', server_inv s' ∧ sdata s' = sdata s ∧ tick s' = tick s ∧
    ∀ fd, conn_at s' fd = (if bool_decide (Z.to_nat fd = Z.to_nat (socket_fd cn)) then None else conn_at s fd)) s.
Proof using Type.
  intros Hs [cs Hok] Hc Hopen. assert (c ∈ cs) as Hin by (by apply (co_dom _ _ _ Hok)).
  apply list_elem_of_split in Hin as (l & r & ->). eapply wp_mono; [by apply handle_destroy_lemma|].
  intros [] s' (Hd & Ht & Hcs & _ & Hok'). rewrite <-Ht in Hok'. split_and!; [|done..|].
  - constructor; [rewrite Hd; eauto|by eexists|].
    intros x cx. rewrite Hcs, lookup_delete_Some. intros [Hne Hx]. by eapply Hopen.
  - intros fd. by eapply conn_at_delete.
Qed.

(** The connection before and after its handlers ran. *)
Lemma conn_served_inv s l c r cn cn' d a t i :
  server_inv s → conns_ok (clock (tick s)) s (l ++ c :: r) → ring i idle_conn_list ((l ++ r) ++ [c]) →
  links_of i (l ++ c :: r) → conns s !! c = Some cn → holds d a → (S (tick s) ≤ t)%nat →
  conn_ok cn' → socket_fd cn' = socket_fd cn → last_activity_ms cn' = clock (tick s) →
  let s' := mkServer d (<[c := cn']> (conns s)) (fd2conn s) i t in
  conns_ok (clock t) s' ((l ++ r) ++ [c]) ∧
  (want_close cn' = false → server_inv s') ∧
  (∀ c' x, c' ≠ c → conns s' !! c' = Some x → want_close x = false) ∧
  ∀ fd, conn_at s' fd = (if bool_decide (Z.to_nat fd = Z.to_nat (socket_fd cn)) then Some cn' else conn_at s fd).
Proof using Hmono.
  intros [_ _ Hopen] Hok Hring Hlinks Hcn Ha Ht Hcok Hfd Hla s'.
  assert (conns_ok (clock t) s' ((l ++ r) ++ [c])) as Hok'.
  { eapply (conns_ok_touch (clock (tick s)) (clock (tick s))); [exact Hok|done..|]. split; [done|]. apply Hmono. lia. }
  assert (∀ c' x, c' ≠ c → conns s' !! c' = Some x → want_close x = false) as Hrest.
  { intros c' x Hne. cbn. rewrite lookup_insert_ne by done. apply Hopen. }
  split_and!; [done| |done|intros fd; by eapply conn_at_insert].
  intros Hcl. constructor; [by exists a|by eexists|]. intros x cx Hx.
  destruct (decide (x = c)) as [->|Hne]; [|by eapply Hrest]. cbn in Hx. rewrite lookup_insert_eq in Hx. by injection Hx as <-.
Qed.

(** Nothing happens on the connection. *)
Lemma quiet_event now ev cn :
  has_event ev = false → conn_ok cn → want_close cn = false →
  conn_requests (pollin ev) (ev_read ev) cn = [] ∧ event_result now ev cn [] (Some cn).
Proof using Type.
  unfold has_event. rewrite !orb_false_iff. intros [[[Hin Hout] Herr] Hhup] [_ Hd] Hcl.
  unfold event_result, served, closed, closes, conn_requests, conn_after, got, has_event.
  rewrite Hin, Hout, Herr, Hhup, Hcl. cbn [andb orb]. rewrite !app_nil_r, frames_drained by done.
  split_and!; try done. cbn. by destruct (ev_write' ev), (ev_write ev).
Qed.

(** The peer of the connection is gone when the server writes to it. *)
Definition sigpipe (ev : conn_event) : Prop := ev_write ev = WrPipe ∨ ev_write' ev = WrPipe.

Lemma serve_fd_ends fd ev s a cn :
  server_inv s → holds (sdata s) a → conn_at s fd = Some cn →
  ends (serve_fd clock fd ev) (λ _ s', server_inv s' ∧ past_by (job_requests s (fd, ev)) (sdata s) (sdata s') ∧ ∃ t1 out t2 a', (tick s ≤ t1)%nat ∧ (t2 ≤ tick s')%nat ∧
      answered (a, t1) (job_requests s (fd, ev)) out (a', t2) ∧ holds (sdata s') a' ∧ serves_fd s s' fd ev cn out)
    ((∃ t1, (tick s ≤ t1)%nat ∧ refused (a, t1) (job_requests s (fd, ev))) ∨ sigpipe ev) s.
Proof using Hmono Hrange.
  intros Hinv Ha Hat. unfold job_requests. cbn [fst snd]. rewrite Hat. unfold serve_fd, serves_fd.
  pose proof Hinv as [_ [cs Hok0] _]. pose proof Hat as (c & Hcn & Hfdc)%(conn_at_spec _ _ _ _ _ Hok0).
  fold (has_event ev). destruct (has_event ev) eqn:Hev; cbn [negb].
  2: { apply ends_ret. split; [done|].
    destruct (quiet_event (clock (tick s)) ev cn Hev (co_conn _ _ _ Hok0 c cn Hcn) (si_open _ Hinv c cn Hcn)) as [-> Hq].
    split; [by apply past_by_eq|]. exists (tick s), [], (tick s), a. rewrite Hat.
    split_and!; [done..|constructor|done|done|exact Hq]. }
  pose proof (co_fd _ _ _ Hok0 c cn Hcn) as [_ Hc]. rewrite Hfdc in Hc.
  apply ends_bind, ends_wp. eapply wp_fd_get; [exact Hc|]. apply ends_bind, ends_ret.
  apply ends_bind, ends_wp, wp_now.
  assert (conns_ok (clock (tick s)) (ticked s) cs) as Hok by (by eapply conns_ok_eq).
  assert (c ∈ cs) as Hin by (apply (co_dom _ _ _ Hok); eauto). apply list_elem_of_split in Hin as (l & r & ->).
  pose proof (idle_touch _ _ _ _ _ Hok) as Htouch. apply wp_bind_inv in Htouch. apply ends_bind, ends_wp.
  eapply wp_mono; [exact Htouch|]. intros [] s1 H1. apply ends_bind, ends_wp.
  eapply wp_mono; [exact H1|]. intros [] s2 (i & -> & Hring & Hlinks). clear s1 H1 Htouch.
  apply ends_bind, ends_wp, wp_on_conns. eapply wp_load; [exact Hcn|].
  apply ends_bind. apply ends_zoom. cbn [sdata conns fd2conn idle tick ticked] in *.
  pose proof (co_conn _ _ _ Hok c cn Hcn) as Hcn_ok.
  eapply ends_mono; [apply ends_and with (Q := λ _ σ', past_by (conn_requests (pollin ev) (ev_read ev) cn) (sdata s) σ'.1);
    [apply (serve_ready_ends (Hs := command_service) _ _ _ _ _ _ _ cn _ (a, S (tick s))); [done|by split]|]| |].
  { intros res σ'. apply (serve_ready_run (λ reqs σ σ', past_by reqs σ.1 σ'.1)); [by intros; apply past_by_eq| |apply Hcn_ok].
    intros req reqs σ1 d1 σ2 σ3. apply (answer_past clock). }
  { intros [Hr|Hr]; [left; exists (S (tick s)); split; [lia|exact Hr]|by right]. }
  intros [destroy cn'] [d t] [(out & [a' t'] & Ho & [Ha' Ht'] & Hcok & Hfd' & Hla & Hcl & Hafter & Hcloses) Hpast].
  cbn [fst snd] in Ha', Ht'. subst t'. pose proof (answered_ticks _ _ _ _ _ Ho) as Ht. cbn in Ht.
  apply ends_bind, ends_wp, wp_on_conns. cbn [conns]. eapply wp_store_at; [exact Hcn|].
  cbn [sdata conns fd2conn idle tick]. apply ends_wp.
  destruct (conn_served_inv s l c r cn cn' d a' t i) as (Hok' & Hinv' & Hrest & Hat'); try done.
  destruct destroy.
  - eapply wp_mono; [eapply handle_destroy_inv; [exact Ha'|by eexists|apply lookup_insert_eq|done]|].
    intros [] s' (Hi & Hd & Htk & Hat''). split; [done|]. split; [by rewrite Hd|]. exists (S (tick s)), out, t, a'. cbn in Htk.
    rewrite Hd, Htk. split_and!; [lia|done|done|done| |].
    + intros fd' Hne. rewrite Hat'', Hat', Hfd', Hfdc. by rewrite bool_decide_false.
    + rewrite Hat'', Hfd', Hfdc, bool_decide_true by done. by symmetry.
  - apply wp_ret. split; [by apply Hinv', Hcl|]. split; [exact Hpast|]. exists (S (tick s)), out, t, a'.
    split_and!; [lia|done|done|done| |].
    + intros fd' Hne. by rewrite Hat', Hfdc, bool_decide_false.
    + rewrite Hat', Hfdc, bool_decide_true by done. pose proof (co_recent _ _ _ Hok c cn Hcn). unfold event_result. rewrite Hla.
      split_and!; [done|by symmetry|lia|done].
Qed.

(** ** All the ready sockets of one call of [poll] *)
Lemma zip_fst {A B} (l : list A) (k : list B) : (zip l k).*1 = take (length k) l.
Proof. revert k. induction l as [|x l IH]; intros [|y k]; cbn; [done..|]. f_equal. apply IH. Qed.

Lemma poll_args_fds s f k :
  (∀ n c, f !! n = Some (Some c) → ∃ cn, conns s !! c = Some cn ∧ socket_fd cn = Z.of_nat (k + n)) →
  NoDup (omap (poll_arg s) f).*1 ∧
  ∀ fd, fd ∈ (omap (poll_arg s) f).*1 → ∃ n c, fd = Z.of_nat (k + n) ∧ f !! n = Some (Some c).
Proof using Type.
  revert k. induction f as [|o f IH]; intros k Hf; [split; [constructor|by intros fd ?%not_elem_of_nil]|].
  destruct (IH (S k)) as [Hnd Hin].
  { intros n c Hn. destruct (Hf (S n) c Hn) as (cn & Hc & Hfd). exists cn. split; [done|]. lia. }
  assert (∀ fd, fd ∈ (omap (poll_arg s) f).*1 → ∃ n c, fd = Z.of_nat (k + S n) ∧ (o :: f) !! S n = Some (Some c)) as Hin'.
  { intros fd (n & c & -> & Hn)%Hin. exists n, c. split; [f_equal; lia|done]. }
  destruct o as [c|]; cbn [omap list_omap].
  - destruct (Hf 0%nat c eq_refl) as (cn & Hc & Hfd). assert (poll_arg s (Some c) =
      Some (socket_fd cn, (want_read cn, want_write cn))) as -> by (unfold poll_arg; cbn; by rewrite Hc).
    rewrite fmap_cons. cbn [fst]. split.
    + constructor; [|done]. intros (n & ? & ? & _)%Hin'. lia.
    + intros fd [->|Hx]%elem_of_cons; [by exists 0%nat, c|].
      apply Hin' in Hx as (n & c' & -> & Hn). by exists (S n), c'.
  - change (poll_arg s None) with (@None (Z * (bool * bool))). split; [done|].
    intros fd (n & c' & -> & Hn)%Hin'. by exists (S n), c'.
Qed.

Lemma poll_args_open s :
  server_inv s → NoDup (poll_args s).*1 ∧ ∀ fd, fd ∈ (poll_args s).*1 → open_fd s fd.
Proof using Type.
  intros [_ [cs Hok] _]. destruct (poll_args_fds s (fd2conn s) 0) as [Hnd Hin].
  { intros n c (cn & Hc & Hn)%(co_table _ _ _ Hok). exists cn. split; [done|].
    pose proof (co_fd _ _ _ Hok c cn Hc) as [? _]. cbn. lia. }
  split; [done|]. intros fd (n & c & -> & Hn)%Hin. split; [lia|]. exists c. by rewrite Nat2Z.id.
Qed.

Lemma poll_args_conn s fd : server_inv s → fd ∈ (poll_args s).*1 → 0 <= fd ∧ is_Some (conn_at s fd).
Proof using Type.
  intros Hinv Hfd. apply (poll_args_open s Hinv) in Hfd as [H0 [c Hc]]. split; [done|].
  destruct Hinv as [_ [cs Hok] _]. destruct (co_table _ _ _ Hok _ _ Hc) as (cn & Hcn & _).
  exists cn. unfold conn_at. by rewrite Hc.
Qed.

(** Each connection with an event was served with its output of [outs], or closed;
    the others are as they were. *)
Definition serves_fds (s s' : Server) (evs : list (Z * conn_event)) (outs : list bytes) : Prop :=
  (∀ fd', (∀ fd, fd ∈ evs.*1 → Z.to_nat fd' ≠ Z.to_nat fd) → conn_at s' fd' = conn_at s fd') ∧
  ∀ fd ev out cn, ((fd, ev), out) ∈ zip evs outs → conn_at s fd = Some cn →
    event_result (clock (tick s)) ev cn out (conn_at s' fd).

(** The requests of a list of events do not depend on other connections. *)
Lemma job_requests_eq s s' (evs : list (Z * conn_event)) :
  (∀ fd, fd ∈ evs.*1 → conn_at s' fd = conn_at s fd) → job_requests s' <$> evs = job_requests s <$> evs.
Proof using Type.
  intros H. apply list_fmap_ext. intros i [fd ev] Hi. unfold job_requests. cbn. rewrite H; [done|].
  apply list_elem_of_fmap. exists (fd, ev). split; [done|]. by eapply list_elem_of_lookup_2.
Qed.

Lemma serves_fds_cons s s1 s' fd ev cn out evs outs :
  (∀ fd', fd' ∈ evs.*1 → Z.to_nat fd' ≠ Z.to_nat fd) → conn_at s fd = Some cn → clock (tick s) <= clock (tick s1) →
  serves_fd s s1 fd ev cn out → serves_fds s1 s' evs outs → serves_fds s s' ((fd, ev) :: evs) (out :: outs).
Proof using Type.
  intros Hnd Hcn Ht [Hoth Hser] [Hoth' Hser']. split.
  - intros fd' Hne. rewrite Hoth', Hoth; [done|apply Hne; by left|].
    intros fd1 Hfd1. apply Hne. by right.
  - intros fd1 ev1 out1 c. cbn [zip zip_with]. intros Hel Hc. apply elem_of_cons in Hel as [[= -> -> ->]|Hel].
    + rewrite Hcn in Hc. injection Hc as <-. rewrite Hoth'; [exact Hser|].
      intros fd2 Hfd2 Heq. by eapply Hnd.
    + eapply event_result_mono; [exact Ht|]. eapply Hser'; [exact Hel|]. rewrite Hoth; [done|]. apply Hnd.
      apply list_elem_of_fmap. exists (fd1, ev1). split; [done|].
      by eapply elem_of_zip_l.
Qed.

Lemma serve_fds_ends evs : ∀ s a,
  server_inv s → holds (sdata s) a → NoDup evs.*1 → (∀ fd, fd ∈ evs.*1 → 0 <= fd ∧ is_Some (conn_at s fd)) →
  ends (serve_fds clock evs) (λ _ s', server_inv s' ∧ past_by (concat (job_requests s <$> evs)) (sdata s) (sdata s') ∧ ∃ outs a',
      turn clock (tick s) a (job_requests s <$> evs) outs (tick s') a' ∧ holds (sdata s') a' ∧ serves_fds s s' evs outs)
    (turn_refused clock (tick s) a (job_requests s <$> evs) ∨ ∃ fd ev, (fd, ev) ∈ evs ∧ sigpipe ev) s.
Proof using Hmono Hrange.
  induction evs as [|[fd ev] evs IH]; intros s a Hinv Ha Hnd Ho.
  { apply ends_ret. split; [done|]. split; [by apply past_by_eq|]. exists [], a. split_and!; [by constructor|done|]. split; [done|].
    by intros ? ? ? ? ?%not_elem_of_nil. }
  rewrite fmap_cons in Hnd, Ho. cbn [fst] in Hnd, Ho. apply NoDup_cons in Hnd as [Hfd Hnd].
  destruct (Ho fd) as [H0 [cn Hcn]]; [by left|].
  assert (∀ fd', fd' ∈ evs.*1 → Z.to_nat fd' ≠ Z.to_nat fd) as Hne.
  { intros fd' Hin Heq. destruct (Ho fd' ltac:(by right)) as [H0' _]. by assert (fd' = fd) as -> by lia. }
  rewrite fmap_cons. cbn [serve_fds]. apply ends_bind.
  eapply ends_mono; [by apply serve_fd_ends| |].
  { intros [(t1 & Ht & Hr)|Hp]; [left; by eapply turn_refused_now|right; exists fd, ev; split; [by left|done]]. }
  intros [] s1 (Hinv1 & Hpast1 & t1 & out & t2 & a1 & Ht1 & Ht2 & Hans & Ha1 & Hs1).
  assert (job_requests s1 <$> evs = job_requests s <$> evs) as Hj.
  { apply job_requests_eq. intros fd' Hin. apply Hs1. by apply Hne. }
  eapply ends_mono; [apply (IH s1 a1); [done..|]| |].
  - intros fd' Hin. rewrite (proj1 Hs1) by by apply Hne. apply Ho. by right.
  - rewrite Hj. intros [Hr|(fd' & ev' & Hin & Hp)]; [|right; exists fd', ev'; split; [by right|done]].
    left. eapply turn_refused_later; [exact Ht1|exact Hans|]. by eapply turn_refused_before.
  - intros [] s2 (Hinv2 & Hpast2 & outs & a2 & Ht & Ha2 & Hs2). split; [done|].
    split; [rewrite Hj in Hpast2; cbn [concat]; by eapply past_by_app|]. exists (out :: outs), a2. split_and!; [|done|].
    + eapply turn_cons; [exact Ht1|exact Hans|]. eapply turn_before; [exact Ht2|]. by rewrite <-Hj.
    + eapply serves_fds_cons; [done..| |done|done]. apply Hmono. apply answered_ticks in Hans. cbn in Hans. lia.
Qed.

(** * Timers *)
Definition recent (now : Z) (cn : Connection) : Prop := now <= last_activity_ms cn + k_idle_timeout_ms.
#[export] Instance recent_dec now cn : Decision (recent now cn).
Proof. unfold recent. apply _. Defined.

Lemma idle_deadline s cs c cn :
  conns_ok (clock (tick s)) s cs → conns s !! c = Some cn →
  u64 (last_activity_ms cn + k_idle_timeout_ms) = last_activity_ms cn + k_idle_timeout_ms.
Proof using Hrange.
  intros Hok Hc. pose proof (co_recent _ _ _ Hok c cn Hc). pose proof (Hrange (tick s)).
  apply u64_id. unfold k_idle_timeout_ms. lia.
Qed.

(** The connection at the head of the idle list. *)
Lemma wp_idle_head {A} (k : ptr → Connection → VM A) (Q : A → Server → Prop) now s c cn r :
  conns_ok now s (c :: r) → conns s !! c = Some cn → wp (k c cn) Q s →
  wp (n ← on_idle (load idle_conn_list); conn ← deref (DList.next n); c ← on_conns (load conn); k conn c) Q s.
Proof using Type.
  intros Hok Hc HQ. destruct (ring_first _ _ _ _ (co_ring _ _ _ Hok)) as (n & Hn & Hnext).
  apply wp_bind, wp_on_idle. eapply wp_load; [exact Hn|]. apply wp_bind. eapply wp_deref; [exact Hnext|].
  apply wp_bind, wp_on_conns. cbn [conns]. eapply wp_load; [exact Hc|]. by destruct s.
Qed.

Lemma wp_idle_empty (Q : bool → Server → Prop) now s cs :
  conns_ok now s cs → Q (bool_decide (cs = [])) s → wp (on_idle (dlist_empty idle_conn_list)) Q s.
Proof using Type.
  intros Hok HQ. apply wp_on_idle. eapply wp_done; [by apply dlist_empty_lemma, Hok|]. by destruct s.
Qed.

(** Either the idle list is empty or its first connection is the one that was
    active the longest time ago. *)
Lemma idle_oldest now s cs :
  conns_ok now s cs →
  match cs with
  | [] => conns s = ∅
  | c :: _ => ∃ cn, conns s !! c = Some cn ∧ ∀ x cx, conns s !! x = Some cx → last_activity_ms cn <= last_activity_ms cx
  end.
Proof using Type.
  intros Hok. pose proof (co_dom _ _ _ Hok) as Hdom. destruct cs as [|c r].
  { apply map_empty. intros x. apply eq_None_not_Some. intros ?%Hdom%not_elem_of_nil. done. }
  assert (is_Some (conns s !! c)) as [cn Hc] by (apply Hdom; by left). exists cn. split; [done|].
  intros x cx Hx. assert (x ∈ c :: r) as [->|Hin]%elem_of_cons by (apply Hdom; eauto).
  { assert (cx = cn) as -> by congruence. lia. }
  pose proof (co_sorted _ _ _ Hok) as Hs. apply StronglySorted_cons in Hs as [Hs _].
  rewrite Forall_forall in Hs. by apply (Hs x Hin).
Qed.

Lemma idle_timers_lemma now fuel : ∀ s cs,
  conns_ok (clock (tick s)) s cs → (length cs ≤ fuel)%nat →
  wp (idle_timers fuel now) (λ _ s', sdata s' = sdata s ∧ tick s' = tick s ∧
    conns s' = filter (λ p, recent now p.2) (conns s) ∧ ∃ cs', conns_ok (clock (tick s')) s' cs') s.
Proof using Hrange.
  induction fuel as [|fuel IH]; intros s cs Hok Hfuel; cbn [idle_timers]; apply wp_bind;
    (eapply wp_idle_empty; [exact Hok|]); pose proof (idle_oldest _ _ _ Hok) as Hold;
    (destruct cs as [|c r]; [rewrite Hold; apply wp_ret; rewrite Hold, map_filter_empty; eauto|]).
  { cbn in Hfuel. lia. }
  destruct Hold as (cn & Hc & Hold). rewrite bool_decide_false by done. cbn [negb].
  eapply (wp_idle_head (λ conn c, _)); [exact Hok|exact Hc|]. rewrite (idle_deadline _ _ _ _ Hok Hc).
  destruct (Z.geb_spec (last_activity_ms cn + k_idle_timeout_ms) now) as [Hge|Hlt].
  - apply wp_ret. split_and!; [done..| |by eauto]. symmetry. apply map_filter_id.
    intros x cx Hx. unfold recent. cbn. specialize (Hold x cx Hx). lia.
  - apply wp_bind. eapply wp_mono; [apply (handle_destroy_lemma (clock (tick s)) s [] c r), Hok|].
    intros [] s1 (Hd & Ht & Hcs & _ & Hok1). rewrite <-Ht in Hok1.
    eapply wp_mono; [apply (IH s1 r); [exact Hok1|cbn in Hfuel; lia]|].
    intros [] s2 (Hd2 & Ht2 & Hcs2 & Hok2). rewrite Hd2, Ht2, Hcs2, Hcs. split_and!; [done..| |by rewrite <-Ht2].
    apply map_eq. intros x. apply option_eq. intros v.
    rewrite !map_lookup_filter_Some, lookup_delete_Some. split; [tauto|]. intros [Hx Hr]. split_and!; [|done..].
    intros <-. unfold recent in Hr. cbn in Hr. assert (v = cn) as -> by congruence. lia.
Qed.

Lemma idle_fuel now s cs : conns_ok now s cs → (length cs ≤ size (idle s))%nat.
Proof using Type.
  intros Hok. pose proof (co_ring _ _ _ Hok) as Hr. apply nodup_size; [by destruct Hr as [_ [_ ?]%NoDup_cons]|].
  intros x Hx. apply (ring_alloc _ _ _ x Hr). by right.
Qed.

(** What the timers leave at the time [now]. *)
Lemma process_timers_lemma s a :
  server_inv s → models (sdata s) a →
  wp (process_timers clock) (λ _ s', server_inv s' ∧ models (sdata s') (expire (clock (tick s)) a) ∧
    conns s' = filter (λ p, recent (clock (tick s)) p.2) (conns s) ∧ tick s' = S (tick s)) s.
Proof using Hmono Hrange.
  intros [[a0 Ha0] [cs Hok] Hopen] Ha. unfold process_timers. apply wp_bind, wp_now, wp_bind, wp_get.
  apply wp_bind. eapply wp_mono.
  { apply (idle_timers_lemma _ _ _ cs); [by apply conns_ok_ticked|exact (idle_fuel _ _ _ Hok)]. }
  intros [] s1 (Hd & Ht & Hcs & cs' & Hok'). apply wp_on_sdata. rewrite Hd.
  pose proof (λ a Ha, ttl_timers_lemma (clock (tick s)) (Nat.pred k_max_works) (sdata s) a Ha
    ltac:(pose proof (models_size _ _ Ha); unfold k_max_works; lia)) as Httl.
  eapply wp_mono; [apply (wp_and _ _ _ _ (Httl a Ha) (Httl a0 (proj1 Ha0)))|].
  intros [] d [Hm Hm0]. cbn. split_and!; [|done..].
  constructor; [exists (expire (clock (tick s)) a0); split; [done|by apply bounded_filter, Ha0]| |].
  { exists cs'. by eapply conns_ok_eq. }
  intros c cn. cbn. rewrite Hcs. intros [Hc _]%map_lookup_filter_Some. by eapply Hopen.
Qed.

(** ** The next deadline *)

(** What is due at [t]: the closing of an idle connection or the end of a key. *)
Definition deadline (s : Server) (a : keyspace) (t : Z) : Prop :=
  (∃ c cn, conns s !! c = Some cn ∧ t = last_activity_ms cn + k_idle_timeout_ms) ∨
  (∃ k e, a !! k = Some e ∧ a_expiry e = Some t).

(** Some deadline and no earlier one, or none. *)
Definition least_deadline (s : Server) (a : keyspace) (o : option Z) : Prop :=
  match o with
  | Some t => deadline s a t ∧ ∀ t', deadline s a t' → t <= t'
  | None => ∀ t, ¬ deadline s a t
  end.

Lemma models_top d a :
  models d a →
  match items (heap d) with
  | [] => ∀ k e, a !! k = Some e → a_expiry e = None
  | top :: _ => (∃ k e, a !! k = Some e ∧ a_expiry e = Some (val top)) ∧
      ∀ k e t, a !! k = Some e → a_expiry e = Some t → val top <= t
  end.
Proof using Type.
  intros Hm. destruct (items (heap d)) as [|top its] eqn:Hi.
  { intros k e Hk. destruct (a_expiry e) as [t|] eqn:He; [|done].
    pose proof (models_live t d a Hm) as H. rewrite Hi in H. specialize (H ltac:(done)).
    rewrite <-H in Hk. apply map_lookup_filter_Some in Hk as [_ Hk]. unfold live_at in Hk. cbn in Hk.
    rewrite He in Hk. lia. }
  split.
  - pose proof (expire_top_lemma 0 d a top Hm ltac:(by rewrite Hi)) as H.
    apply wp_inv in H as (_ & _ & _ & k & e & Hk & He & _). eauto.
  - intros k e t Hk He. destruct (Z.le_gt_cases (val top) t) as [|Hgt]; [done|].
    pose proof (models_live t d a Hm) as H. rewrite Hi in H.
    rewrite <-H in Hk by (cbn; intros ? [= <-]; lia).
    apply map_lookup_filter_Some in Hk as [_ Hk]. unfold live_at in Hk. cbn in Hk. rewrite He in Hk. lia.
Qed.

(** The answer for the least deadline. *)
Definition timeout (now : Z) (o : option Z) : Z :=
  match o with
  | None => -1
  | Some t => if t <=? now then 0 else i32 (t - now)
  end.

(** [next_ms] after the idle list. *)
Lemma next_idle_lemma {A} (k : Z → VM A) (Q : A → Server → Prop) s cs :
  conns_ok (clock (tick s)) s cs →
  (∀ t, (conns s = ∅ ∧ t = size_max) ∨
        (∃ c cn, conns s !! c = Some cn ∧ t = last_activity_ms cn + k_idle_timeout_ms ∧
           ∀ x cx, conns s !! x = Some cx → t <= last_activity_ms cx + k_idle_timeout_ms) → wp (k t) Q s) →
  wp (empty ← on_idle (dlist_empty idle_conn_list);
      next_ms ← (if negb empty then
                   n ← on_idle (load idle_conn_list);
                   conn ← deref (DList.next n);
                   c ← on_conns (load conn);
                   mret (u64 (last_activity_ms c + k_idle_timeout_ms))
                 else mret size_max);
      k next_ms) Q s.
Proof using Hrange.
  intros Hok Hk. apply wp_bind. eapply wp_idle_empty; [exact Hok|]. pose proof (idle_oldest _ _ _ Hok) as Hold.
  apply wp_bind. destruct cs as [|c r]; [apply wp_ret, Hk; by left|].
  destruct Hold as (cn & Hc & Hold). rewrite bool_decide_false by done. cbn [negb].
  eapply (wp_idle_head (λ conn c, _)); [exact Hok|exact Hc|]. apply wp_ret.
  rewrite (idle_deadline _ _ _ _ Hok Hc). apply Hk. right. exists c, cn. split_and!; [done..|].
  intros x cx Hx. specialize (Hold x cx Hx). lia.
Qed.

Lemma next_timer_lemma s a :
  server_inv s → models (sdata s) a → (∀ t, deadline s a t → 0 <= t < size_max) →
  wp (next_timer_ms clock) (λ r s', s' = ticked s ∧
    ∃ o, least_deadline s a o ∧ r = timeout (clock (tick s)) o) s.
Proof using Hmono Hrange.
  intros [_ [cs Hok] _] Ha Hr. unfold next_timer_ms. apply wp_bind, wp_now.
  eapply next_idle_lemma; [by apply conns_ok_ticked|]. intros next Hnext. apply wp_bind, wp_get.
  cbn [sdata conns ticked] in *. pose proof (models_top _ _ Ha) as Htop. set (m := match items _ with [] => _ | _ :: _ => _ end).
  assert (∃ o, least_deadline s a o ∧ m = default size_max o) as (o & Ho & ->).
  { destruct (items (heap (sdata s))) as [|top its]; subst m.
    - destruct Hnext as [[Hc ->]|(c & cn & Hc & -> & Hmin)].
      + exists None. split; [|done]. intros t [(c & cn & Hcn & _)|(k & e & Hk & He)]; [by rewrite Hc in Hcn|].
        rewrite (Htop k e Hk) in He. done.
      + exists (Some (last_activity_ms cn + k_idle_timeout_ms)). split; [|done]. split; [left; eauto|].
        intros t [(x & cx & Hx & ->)|(k & e & Hk & He)]; [by eapply Hmin|]. rewrite (Htop k e Hk) in He. done.
    - destruct Htop as [(k & e & Hk & He) Hleast]. assert (deadline s a (val top)) as Hdl by (right; eauto).
      pose proof (Hr _ Hdl) as Hrange'. destruct Hnext as [[Hc ->]|(c & cn & Hc & -> & Hmin)].
      + rewrite (proj2 (Z.ltb_lt _ _)) by lia. exists (Some (val top)). split; [|done]. split; [done|].
        intros t [(x & cx & Hx & _)|(k' & e' & Hk' & He')]; [by rewrite Hc in Hx|by eapply Hleast].
      + destruct (Z.ltb_spec (val top) (last_activity_ms cn + k_idle_timeout_ms)) as [Hlt|Hge].
        * exists (Some (val top)). split; [|done]. split; [done|].
          intros t [(x & cx & Hx & ->)|(k' & e' & Hk' & He')]; [|by eapply Hleast].
          specialize (Hmin x cx Hx). lia.
        * exists (Some (last_activity_ms cn + k_idle_timeout_ms)). split; [|done]. split; [left; eauto|].
          intros t [(x & cx & Hx & ->)|(k' & e' & Hk' & He')]; [by eapply Hmin|].
          specialize (Hleast k' e' t Hk' He'). lia. }
  destruct o as [t|]; cbn [default from_option id].
  - pose proof (Hr t (proj1 Ho)) as Hrt. destruct (Z.eqb_spec t size_max) as [|_]; [lia|].
    destruct (Z.leb_spec t (clock (tick s))) as [Hle|Hgt]; apply wp_ret; (split; [done|]); exists (Some t);
      (split; [done|]); unfold timeout.
    + by rewrite (proj2 (Z.leb_le _ _)).
    + rewrite (proj2 (Z.leb_gt _ _)) by done. f_equal. apply u64_id. pose proof (Hrange (tick s)).
      unfold size_max in Hrt. lia.
  - apply wp_ret. split; [done|]. by exists None.
Qed.

(** * The event loop *)

(** What the kernel promises: the descriptor that [accept] returns is not one
    that is open. *)
Definition kernel_ok (s : Server) (answer : option poll_answer) : Prop :=
  match answer with
  | Some a => ∀ fd, accepted a = Some fd → ¬ open_fd s fd
  | None => True
  end.

(** One turn of the loop. *)
Definition loop_step (s s' : Server) : Prop :=
  ∃ answer timeout_ms, kernel_ok s answer ∧ loop_iteration clock answer s = Done (timeout_ms, s').

(** The states the server reaches at the head of its loop. *)
Definition reachable (s : Server) : Prop := rtc loop_step server_start s.

(** Nothing was due at [now]. *)
Definition nothing_due (now : Z) (s : Server) : Prop :=
  (∀ c cn, conns s !! c = Some cn → recent now cn) ∧
  ∃ a, models (sdata s) a ∧ ∀ k e, a !! k = Some e → live_at now e.

(** The requests that are received in a turn, by connection. *)
Definition jobs (s : Server) (p : poll_answer) : list (Z * conn_event) := zip (poll_args s).*1 (events p).

(** The connection [cn] of [fd] was idle for too long at [now]; an event of the
    turn counts as activity. *)
Definition idled (s : Server) (p : poll_answer) (fd : Z) (cn : Connection) (now : Z) : Prop :=
  ∃ seen, last_activity_ms cn <= seen ∧ seen + k_idle_timeout_ms < now ∧
    ∀ ev, (fd, ev) ∈ jobs s p → has_event ev = true → clock (tick s) <= seen.

(** The connections after a turn, of which the timers ran at [now]: those with an
    event were served with their output of [outs], and are closed if the event
    ends them; the others are as they were; the accepted one is new. Only
    those that are idle for too long are closed besides. *)
Definition turn_conns (s : Server) (p : poll_answer) (outs : list bytes) (now : Z) (s' : Server) : Prop :=
  ∀ fd, 0 <= fd →
    match conn_at s fd, conn_at s' fd with
    | Some cn, Some cn' =>
        (cn' = cn ∧ fd ∉ (jobs s p).*1) ∨
        ∃ ev out, ((fd, ev), out) ∈ zip (jobs s p) outs ∧ served ev cn out cn' ∧ closed ev cn out = false
    | Some cn, None =>
        idled s p fd cn now ∨ ∃ ev out, ((fd, ev), out) ∈ zip (jobs s p) outs ∧ closed ev cn out = true
    | None, Some cn' => accepted p = Some fd ∧ ∃ t, cn' = new_connection fd t
    | None, None => accepted p = Some fd → clock (tick s) + k_idle_timeout_ms < now
    end.

Lemma accept_lemma fd s :
  server_inv s → ¬ open_fd s fd →
  wp (_ ← handle_accept clock fd; mret ()) (λ _ s', server_inv s' ∧ (tick s ≤ tick s')%nat ∧ sdata s' = sdata s ∧
    ∀ fd', conn_at s' fd' = (if bool_decide (0 <= fd ∧ Z.to_nat fd' = Z.to_nat fd)
                             then Some (new_connection fd (clock (tick s))) else conn_at s fd')) s.
Proof using Hmono Hrange.
  intros Hinv Hfd. apply wp_bind. destruct (Z.ltb_spec fd 0) as [Hneg|Hpos].
  { unfold handle_accept. rewrite (proj2 (Z.ltb_lt _ _)) by done. repeat apply wp_ret.
    split_and!; [done..|]. intros fd'. rewrite bool_decide_false; [done|]. intros [? _]. lia. }
  eapply wp_mono; [apply handle_accept_lemma; [done|intros c Hc; apply Hfd; split; [done|eauto]]|].
  intros r s' (? & _ & ? & ? & ?). by apply wp_ret.
Qed.

(** The connection of [fd] after the listening socket was served. *)
Definition accept_result (s : Server) (p : poll_answer) (fd : Z) (o : option Connection) : Prop :=
  match o with
  | Some cn' => conn_at s fd = Some cn' ∨
      conn_at s fd = None ∧ accepted p = Some fd ∧ cn' = new_connection fd (clock (tick s))
  | None => conn_at s fd = None ∧ accepted p ≠ Some fd
  end.
Lemma accept_same s p fd : (accepted p = Some fd → is_Some (conn_at s fd)) → accept_result s p fd (conn_at s fd).
Proof using Type. unfold accept_result. destruct (conn_at s fd); [by left|]. intros H. split; [done|]. by intros [? [=]]%H. Qed.

(** The listening socket: the connections there are stay. *)
Lemma listen_lemma p s :
  server_inv s → kernel_ok s (Some p) →
  wp (match accepted p with Some fd => _ ← handle_accept clock fd; mret () | None => mret () end)
    (λ _ s', server_inv s' ∧ (tick s ≤ tick s')%nat ∧ sdata s' = sdata s ∧
       (∀ fd, fd ∈ (poll_args s).*1 → conn_at s' fd = conn_at s fd) ∧
       ∀ fd, 0 <= fd → accept_result s p fd (conn_at s' fd)) s.
Proof using Hmono Hrange.
  intros Hinv Hk. destruct (accepted p) as [fd|] eqn:Hfd.
  2: { apply wp_ret. split_and!; try done. intros fd _. apply accept_same. by rewrite Hfd. }
  pose proof (Hk fd Hfd) as Hfresh. eapply wp_mono; [by apply accept_lemma|].
  intros [] s' (Hinv' & Ht & Hd & Hat). split_and!; [done..| |].
  - intros fd' Hin. rewrite Hat. case_bool_decide as Heq; [|done]. destruct Heq as [H0 Heq].
    apply (poll_args_open s Hinv) in Hin as [H0' Hc]. assert (fd' = fd) as -> by lia. by destruct Hfresh.
  - intros fd' H0'. rewrite Hat. case_bool_decide as Heq.
    2: { apply accept_same. rewrite Hfd. intros [= ->]. by destruct Heq. }
    destruct Heq as [H0 Heq]. assert (fd' = fd) as -> by lia. right. split_and!; [|done|done].
    unfold conn_at. destruct (fd2conn s !! Z.to_nat fd) as [[c|]|] eqn:Hc; [|done..].
    destruct Hfresh. split; [done|]. by exists c.
Qed.

Lemma next_timer_quiet s : server_inv s → wp (next_timer_ms clock) (λ _ s', s' = ticked s) s.
Proof using Hmono Hrange.
  intros [_ [cs Hok] _]. unfold next_timer_ms. apply wp_bind, wp_now.
  eapply next_idle_lemma; [by apply conns_ok_ticked|]. intros next _. apply wp_bind, wp_get.
  by repeat case_match.
Qed.

Lemma loop_interrupted s : server_inv s → wp (loop_iteration clock None) (λ _ s', s' = ticked s) s.
Proof using Hmono Hrange.
  intros Hinv. unfold loop_iteration. apply wp_bind, wp_get, wp_bind.
  eapply wp_mono; [by apply next_timer_quiet|]. intros t s' ->. by apply wp_ret.
Qed.

(** A connection after the timers. *)
Lemma recent_case now (o o' : option Connection) :
  (∀ cn, o' = Some cn ↔ o = Some cn ∧ recent now cn) →
  match o with
  | Some cn => recent now cn ∧ o' = Some cn ∨ last_activity_ms cn + k_idle_timeout_ms < now ∧ o' = None
  | None => o' = None
  end.
Proof using Type.
  intros H. assert (∀ cn, o' = Some cn → o = Some cn ∧ recent now cn) as H' by (intros cn; apply H).
  destruct o as [cn|]; [destruct (decide (recent now cn)) as [Hr|Hr]|].
  - left. split; [done|]. by apply H.
  - right. unfold recent in Hr. split; [lia|]. destruct o' as [cn'|]; [|done]. by destruct (H' cn' eq_refl) as [[= <-] ?].
  - destruct o' as [cn'|]; [|done]. by destruct (H' cn' eq_refl).
Qed.

Lemma turn_conns_intro s s1 s2 s3 p outs now :
  (∀ fd, 0 <= fd → accept_result (ticked s) p fd (conn_at s1 fd)) → (tick s ≤ tick s1)%nat → NoDup (jobs s p).*1 →
  (∀ fd, fd ∈ (jobs s p).*1 → 0 <= fd ∧ is_Some (conn_at s fd) ∧ conn_at s1 fd = conn_at s fd) →
  length outs = length (jobs s p) → serves_fds s1 s2 (jobs s p) outs →
  (∀ fd cn, conn_at s3 fd = Some cn ↔ conn_at s2 fd = Some cn ∧ recent now cn) → turn_conns s p outs now s3.
Proof using Hmono.
  intros H1 Ht Hnd Hjobs Hlen [Hoth Hser] H3 fd Hfd. apply Hmono in Ht. specialize (H3 fd). apply recent_case in H3.
  destruct (decide (fd ∈ (jobs s p).*1)) as [Hin|Hout].
  - destruct (Hjobs fd Hin) as (_ & [cn Hcn] & Heq). rewrite Hcn.
    apply list_elem_of_fmap in Hin as ([fd1 ev] & -> & [i Hi]%list_elem_of_lookup). cbn [fst] in *.
    destruct (lookup_lt_is_Some_2 outs i) as [out Hout]; [rewrite Hlen; by eapply lookup_lt_Some|].
    assert (((fd1, ev), out) ∈ zip (jobs s p) outs) as Hz.
    { apply list_elem_of_lookup. exists i. by apply lookup_zip_Some. }
    specialize (Hser fd1 ev out cn Hz ltac:(by rewrite Heq)).
    destruct (conn_at s2 fd1) as [cn2|]; [|rewrite H3; right; by exists ev, out].
    destruct Hser as (Hsrv & Hcl & Hla & Hact). destruct H3 as [[_ ->]|[Hidle ->]]; [right; by exists ev, out|].
    left. exists (last_activity_ms cn2). split_and!; [done..|]. intros ev' Hev' He.
    apply list_elem_of_lookup in Hev' as [j Hj].
    assert (i = j) as <- by (eapply (NoDup_lookup _ _ _ _ Hnd); rewrite list_lookup_fmap, ?Hi, ?Hj; done).
    rewrite Hi in Hj. injection Hj as <-. specialize (Hact He). lia.
  - rewrite Hoth in H3.
    2: { intros fd0 Hin Heq. destruct (Hjobs fd0 Hin) as [? _]. by assert (fd = fd0) as -> by lia. }
    specialize (H1 fd Hfd). unfold accept_result in H1. change (conn_at (ticked s) fd) with (conn_at s fd) in H1.
    destruct (conn_at s1 fd) as [cn1|].
    + destruct H1 as [->|(-> & Hacc & ->)], H3 as [[_ ->]|[Hidle ->]]; [by left| |by eauto|].
      * left. exists (last_activity_ms cn1). split_and!; [done..|]. intros ev Hev. destruct Hout.
        apply list_elem_of_fmap. by exists (fd, ev).
      * intros _. cbn in Hidle. pose proof (Hmono (tick s) (S (tick s)) ltac:(lia)). lia.
    + destruct H1 as [-> Hacc]. by rewrite H3.
Qed.

Lemma jobs_fds s p fd : fd ∈ (jobs s p).*1 → fd ∈ (poll_args s).*1.
Proof using Type. unfold jobs. rewrite zip_fst. intros (i & Hi & _)%elem_of_take. by eapply list_elem_of_lookup_2. Qed.

Lemma jobs_nodup s p : server_inv s → NoDup (jobs s p).*1.
Proof using Type.
  intros Hinv. unfold jobs. rewrite zip_fst. eapply sublist_NoDup; [by apply (poll_args_open s)|apply sublist_take].
Qed.

(** The timers only close connections. *)
Lemma timers_conn_at s s' now :
  server_inv s → server_inv s' → conns s' = filter (λ p, recent now p.2) (conns s) →
  ∀ fd cn, conn_at s' fd = Some cn ↔ conn_at s fd = Some cn ∧ recent now cn.
Proof using Type.
  intros [_ [cs Hok] _] [_ [cs' Hok'] _] Hc fd cn. rewrite (conn_at_spec _ _ _ _ _ Hok), (conn_at_spec _ _ _ _ _ Hok').
  rewrite Hc. split.
  - intros (c & [Hcn Hr]%map_lookup_filter_Some & Hfd). eauto.
  - intros [(c & Hcn & Hfd) Hr]. exists c. split; [|done]. by apply map_lookup_filter_Some.
Qed.

Lemma loop_iteration_ends s a p :
  server_inv s → holds (sdata s) a → kernel_ok s (Some p) →
  ends (loop_iteration clock (Some p)) (λ _ s', server_inv s' ∧
      past_by (concat (job_requests s <$> jobs s p)) (sdata s) (sdata s') ∧ ∃ outs t a1,
      turn clock (tick s) a (job_requests s <$> jobs s p) outs t a1 ∧ (t < tick s')%nat ∧
      holds (sdata s') (expire (clock t) a1) ∧ turn_conns s p outs (clock t) s' ∧
      ∀ fd cn, conn_at s' fd = Some cn → recent (clock t) cn)
    (turn_refused clock (tick s) a (job_requests s <$> jobs s p) ∨ ∃ fd ev, (fd, ev) ∈ jobs s p ∧ sigpipe ev) s.
Proof using Hmono Hrange.
  intros Hinv Ha Hk. unfold loop_iteration.
  apply ends_bind, ends_wp, wp_get, ends_bind, ends_wp. eapply wp_mono; [by apply next_timer_quiet|]. intros t s1 ->.
  pose proof (server_inv_ticked s Hinv) as Hinv1. apply ends_bind, ends_wp.
  eapply wp_mono; [exact (listen_lemma p (ticked s) Hinv1 Hk)|]. intros [] s2 (Hinv2 & Ht2 & Hd2 & Hsame & Hnew).
  change (poll_args (ticked s)) with (poll_args s) in Hsame. fold (jobs s p).
  assert (∀ fd, fd ∈ (jobs s p).*1 → 0 <= fd ∧ is_Some (conn_at s fd) ∧ conn_at s2 fd = conn_at s fd) as Hjobs.
  { intros fd Hfd%jobs_fds. destruct (poll_args_conn s fd Hinv Hfd). split_and!; [done..|]. by apply Hsame. }
  assert (job_requests s2 <$> jobs s p = job_requests s <$> jobs s p) as Hj.
  { apply job_requests_eq. intros fd Hfd. by apply Hjobs. }
  apply ends_bind. eapply ends_mono; [apply (serve_fds_ends _ s2 a); [done|by rewrite Hd2| |]| |].
  - by apply jobs_nodup.
  - intros fd Hfd. destruct (Hjobs fd Hfd) as (? & ? & ->). done.
  - rewrite Hj. intros [Hr|Hp]; [left|by right]. eapply turn_refused_before; [|exact Hr]. cbn in Ht2. lia.
  - intros [] s3 (Hinv3 & Hpast & outs & a1 & Ht & Ha1 & Hs3). rewrite Hj in Ht, Hpast.
    apply ends_bind, ends_wp. destruct (wp_inv _ _ _ (process_timers_lemma s3 a1 Hinv3 (proj1 Ha1)))
      as ([] & s4 & Hrun4 & Hinv4 & Hm4 & Hc4 & Ht4). eapply wp_done; [exact Hrun4|].
    apply ends_ret. split; [done|]. split.
    { destruct Hpast as (l & Hl & Hsub). exists l. split; [|done].
      pose proof (keeps_process_timers _ _ _ Hrun4) as Hk4. unfold vpast in Hk4. by rewrite Hk4, Hl, Hd2. }
    exists outs, (tick s3), a1.
    pose proof (timers_conn_at s3 s4 (clock (tick s3)) Hinv3 Hinv4 Hc4) as Hat4.
    split_and!; [|lia| | |by intros fd cn [_ ?]%Hat4].
    + eapply turn_before; [|exact Ht]. cbn in Ht2. lia.
    + split; [done|]. apply bounded_filter, Ha1.
    + eapply turn_conns_intro; [exact Hnew|cbn in Ht2; lia|by apply jobs_nodup|exact Hjobs| |exact Hs3|exact Hat4].
      apply turn_length in Ht. by rewrite length_fmap in Ht.
Qed.

(** The requests that are received in a turn. *)
Definition turn_requests (s : Server) (answer : option poll_answer) : list bytes :=
  match answer with Some p => concat (job_requests s <$> jobs s p) | None => [] end.

(** The state after any answer of the kernel. *)
Lemma loop_iteration_safely s answer :
  server_inv s → kernel_ok s answer →
  safely (loop_iteration clock answer) (λ _ s', server_inv s' ∧ past_by (turn_requests s answer) (sdata s) (sdata s') ∧
    (is_Some answer → ∃ now, clock (tick s) <= now ∧ nothing_due now s')) s.
Proof using Hmono Hrange.
  intros Hinv Hk. destruct (si_store _ Hinv) as [a Ha]. destruct answer as [p|].
  - eapply ends_safely, ends_mono; [by apply (loop_iteration_ends s a p)|by intros H; exact H|].
    intros _ s' (Hinv' & Hpast & outs & t & a1 & Ht & _ & [Hm _] & _ & Hrecent). split; [done|]. split; [done|]. intros _.
    exists (clock t). split; [apply Hmono; by eapply turn_ticks|]. split.
    + intros c cn Hc. destruct (si_conns _ Hinv') as [cs Hok]. apply (Hrecent (socket_fd cn)).
      apply (conn_at_spec _ _ _ _ _ Hok). by exists c.
    + eexists. split; [exact Hm|]. intros j e. by intros [_ ?]%map_lookup_filter_Some.
  - apply safely_wp. eapply wp_mono; [by apply loop_interrupted|]. intros _ s' ->.
    split; [by apply server_inv_ticked|]. split; [by apply past_by_eq|]. by intros [].
Qed.

Lemma reachable_inv s : reachable s → server_inv s.
Proof using Hmono Hrange.
  unfold reachable. revert s. apply rtc_ind_r; [apply server_start_inv|].
  intros s s' _ (answer & t & Hk & Hrun) IH.
  pose proof (loop_iteration_safely _ _ IH Hk) as H. unfold safely in H. rewrite Hrun in H. by destruct H.
Qed.
End clock.
