(* ===== verification/ServerProps.v ===== *)
(** The properties of the event loop: it runs safely for ever, closes the idle
    connections and deletes the expired keys in time. *)
From Stdlib Require Import Strings.String.
From S2P Require Import Prelude Bytes Serialize Protocol NetIO NetIOProofs Common AvlTree Hashtable.
From S2P Require Import Heap SortedSet Commands Overruns KeySpace CommandSpec CommandProofs CommandProps DList.
From S2P Require Import CommandsAppend KeyBounds ConnProofs Server KeyService ConnTable Timers ServerProofs.

Open Scope list_scope.

(** ** Runs to evaluate *)

(** [kernel_ok], decided. *)
Definition kernel_okb (s : Server) (answer : option poll_answer) : bool :=
  match answer with
  | Some a =>
      match accepted a with
      | Some fd => (fd <? 0) || bool_decide (mjoin (fd2conn s !! Z.to_nat fd) = None)
      | None => true
      end
  | None => true
  end.
Lemma kernel_okb_true s answer : kernel_okb s answer = true → kernel_ok s answer.
Proof.
  destruct answer as [[[fd|] evs]|]; [|done..]. cbn. intros [?|H%bool_decide_eq_true]%orb_true_iff ? [= <-] [Hfd [c Hc]].
  - lia.
  - by rewrite Hc in H.
Qed.

(** The states along the answers of the kernel. *)
Fixpoint run_loop (clock : nat → Z) (answers : list (option poll_answer)) (s : Server) : option Server :=
  match answers with
  | [] => Some s
  | a :: answers =>
      if kernel_okb s a then
        match loop_iteration clock a s with Done (_, s) => run_loop clock answers s | _ => None end
      else None
  end.

Lemma run_loop_reachable clock answers : ∀ s s',
  reachable clock s → run_loop clock answers s = Some s' → reachable clock s'.
Proof.
  induction answers as [|a answers IH]; intros s s' Hs; cbn [run_loop]; [by intros [= <-]|].
  destruct (kernel_okb s a) eqn:Hk; [|done]. destruct (loop_iteration clock a s) as [[t s1]| | |] eqn:Hrun; [|done..].
  apply IH. eapply rtc_r; [exact Hs|]. exists a, t. split; [by apply kernel_okb_true|done].
Qed.

(** Two clients connect; the second sets a key with a time to live; a signal
    interrupts the loop; and a minute passes. *)
Definition minute (n : nat) : Z := Z.min (Z.of_nat n * 100 + (if bool_decide (n < 10)%nat then 0 else 60000)) (2 ^ 40).
Lemma minute_mono n m : (n ≤ m)%nat → minute n <= minute m.
Proof. unfold minute. repeat case_bool_decide; lia. Qed.
Lemma minute_range n : 0 <= minute n < 2 ^ 62.
Proof. unfold minute. case_bool_decide; lia. Qed.

Definition input (bs : bytes) : conn_event := mkConnEvent true false false false (RdOk bs) WrAgain WrAgain.
Definition requests_bytes (cmds : list (list bytes)) : bytes := concat ((λ c, frame (request_bytes c)) <$> cmds).
Definition session : list (option poll_answer) :=
  [Some (mkPollAnswer (Some 5) []);
   Some (mkPollAnswer (Some 7)
     [input (requests_bytes [[str "set"; str "k"; str "v"]; [str "pexpire"; str "k"; str "5000"]])]);
   None].
Definition state_after (n : nat) : Server := default server_start (run_loop minute (take n session) server_start).

Lemma state_after_reachable n : (n ≤ 3)%nat → reachable minute (state_after n).
Proof.
  intros Hn. apply (run_loop_reachable minute (take n session) server_start); [apply rtc_refl|].
  destruct n as [|[|[|[|n]]]]; [vm_compute; reflexivity..|lia].
Qed.

(** The store of a reachable state. *)
Lemma reachable_store n : (n ≤ 3)%nat → server_inv minute (state_after n).
Proof. intros Hn. by apply (reachable_inv minute minute_mono minute_range), state_after_reachable. Qed.

(** The times of all that is due are those of a few connections and of the heap:
    what a bound of the deadlines needs. *)
Definition deadlines_in (P : Z → bool) (s : Server) : bool :=
  forallb (λ p, P (last_activity_ms p.2 + k_idle_timeout_ms)) (map_to_list (conns s)) &&
  forallb (λ it, P (val it)) (items (heap (sdata s))).

Lemma deadlines_in_spec P s a t :
  models (sdata s) a → deadlines_in P s = true → deadline s a t → P t = true.
Proof.
  unfold deadlines_in. intros Hm. rewrite andb_true_iff, !forallb_forall.
  intros [Hc Hh] [(c & cn & Hcn & ->)|(k & e & Hk & He)].
  - apply (Hc (c, cn)). by apply list_elem_of_In, elem_of_map_to_list.
  - destruct Hm as (xs & F & Hok & <-). pose proof (so_parts _ _ _ Hok) as Hp.
    apply abs_lookup in Hk as (x & Hx & Hb); [|apply Hp]. unfold binding in Hb.
    destruct (entries (sdata s) !! x) as [e0|]; [|done]. injection Hb as _ <-.
    cbn in He. apply ttls_lookup in He; [|apply (tk_heap _ _ (po_ttl _ _ _ Hp))].
    apply (Hh (mkHeapItem t x)). by apply list_elem_of_In.
Qed.

(** * Properties *)

(** C5: the event loop is safe but for one byte: at every state the server reaches
    from its start, with any requests, any events and any answers of the kernel
    that give no descriptor out twice, the tables, the idle list and the store
    are consistent, and the next turn of the loop terminates, in a reachable
    state, or ends the process on a failed assertion or by SIGPIPE. Its only
    undefined behaviour is the write of a terminator past the block of a member:
    those of the turn ([overruns]) are some of the ones of the ZADD requests that
    the turn receives, in order, one each at most. What such a write does to the
    memory is not modelled: the run goes on as if no object had that byte. *)
Theorem event_loop_safe clock (Hmono : ∀ n m, (n ≤ m)%nat → clock n <= clock m)
    (Hrange : ∀ n, 0 <= clock n < 2 ^ 62) s answer :
  reachable clock s → kernel_ok s answer →
  server_inv clock s ∧ safely (loop_iteration clock answer) (λ _ s', reachable clock s' ∧
    ∃ l, overruns (zheap (sdata s')) = overruns (zheap (sdata s)) ++ l ∧ l `sublist_of` terminators (turn_requests s answer)) s.
Proof.
  intros Hs Hk. pose proof (reachable_inv clock Hmono Hrange s Hs) as Hinv. split; [done|].
  pose proof (loop_iteration_safely clock Hmono Hrange s answer Hinv Hk) as H. unfold safely in *.
  destruct (loop_iteration clock answer s) as [[t s']| | |] eqn:Hrun; [|done..].
  split; [|apply H]. eapply rtc_r; [exact Hs|]. by exists answer, t.
Qed.

Lemma event_loop_safe_witness :
  server_inv minute (state_after 3) ∧
  safely (loop_iteration minute (Some (mkPollAnswer (Some 6) [input (frame (request_bytes [str "keys"]))])))
    (λ _ s', reachable minute s' ∧
      ∃ l, overruns (zheap (sdata s')) = overruns (zheap (sdata (state_after 3))) ++ l ∧
        l `sublist_of` terminators (turn_requests (state_after 3)
          (Some (mkPollAnswer (Some 6) [input (frame (request_bytes [str "keys"]))])))) (state_after 3).
Proof.
  apply (event_loop_safe minute minute_mono minute_range); [apply state_after_reachable; lia|].
  apply kernel_okb_true. vm_compute. reflexivity.
Defined.

(** C3: a turn of the event loop refines the specification: the requests that the
    ready connections have completed are answered as it allows, the
    connections one after the other and the requests of each in one piece; then
    the keys that are due expire. Each connection that is left was served with
    its own responses, which are in its output up to what the kernel
    has taken, or had no event, or is new, and none is idle for too long. A
    connection is closed exactly when its peer or the kernel ends it (the end
    of the stream, an error, a frame that is too long) or when it was idle for too
    long. The turn ends the process only when one of these requests, after those
    before it, is the 32nd entry of a table (a failed assertion), or when the peer
    of a connection that is written to is gone (SIGPIPE). *)
Theorem event_loop_refines clock (Hmono : ∀ n m, (n ≤ m)%nat → clock n <= clock m)
    (Hrange : ∀ n, 0 <= clock n < 2 ^ 62) s a p :
  reachable clock s → holds (sdata s) a → kernel_ok s (Some p) →
  ends (loop_iteration clock (Some p)) (λ _ s', ∃ outs t a',
      turn clock (tick s) a (job_requests s <$> jobs s p) outs t a' ∧ holds (sdata s') (expire (clock t) a') ∧
      turn_conns clock s p outs (clock t) s' ∧ ∀ fd cn, conn_at s' fd = Some cn → clock t <= last_activity_ms cn + k_idle_timeout_ms)
    (turn_refused clock (tick s) a (job_requests s <$> jobs s p) ∨
     ∃ fd ev, (fd, ev) ∈ jobs s p ∧ (ev_write ev = WrPipe ∨ ev_write' ev = WrPipe)) s.
Proof.
  intros Hs Ha Hk. pose proof (reachable_inv clock Hmono Hrange s Hs) as Hinv.
  eapply ends_mono; [by apply (loop_iteration_ends clock Hmono Hrange s a p)|by intros H; exact H|].
  intros _ s' (_ & _ & outs & t & a' & Ht & _ & Ha' & Hc & Hr). by exists outs, t, a'.
Qed.

Lemma event_loop_refines_witness :
  ∃ a, ends (loop_iteration minute (Some (mkPollAnswer (Some 6) [input (frame (request_bytes [str "keys"]))])))
    (λ _ s', ∃ outs t a',
      turn minute (tick (state_after 3)) a
        (job_requests (state_after 3) <$> jobs (state_after 3) (mkPollAnswer (Some 6) [input (frame (request_bytes [str "keys"]))])) outs t a' ∧
      holds (sdata s') (expire (minute t) a') ∧
      turn_conns minute (state_after 3) (mkPollAnswer (Some 6) [input (frame (request_bytes [str "keys"]))]) outs (minute t) s' ∧
      ∀ fd cn, conn_at s' fd = Some cn → minute t <= last_activity_ms cn + k_idle_timeout_ms)
    (turn_refused minute (tick (state_after 3)) a
      (job_requests (state_after 3) <$> jobs (state_after 3) (mkPollAnswer (Some 6) [input (frame (request_bytes [str "keys"]))])) ∨
     ∃ fd ev, (fd, ev) ∈ jobs (state_after 3) (mkPollAnswer (Some 6) [input (frame (request_bytes [str "keys"]))]) ∧
       (ev_write ev = WrPipe ∨ ev_write' ev = WrPipe))
    (state_after 3).
Proof.
  destruct (si_store _ _ (reachable_store 3 ltac:(lia))) as [a Ha]. exists a.
  apply (event_loop_refines minute minute_mono minute_range); [apply state_after_reachable; lia|exact Ha|].
  apply kernel_okb_true. vm_compute. reflexivity.
Defined.

(** C9: nothing stays overdue: when a turn of the loop that was not interrupted
    ends, no connection has been idle for longer than the limit and no key has
    expired, at a time no earlier than the start of the turn. *)
Theorem iteration_leaves_nothing_due clock (Hmono : ∀ n m, (n ≤ m)%nat → clock n <= clock m)
    (Hrange : ∀ n, 0 <= clock n < 2 ^ 62) s a timeout_ms s' :
  reachable clock s → kernel_ok s (Some a) → loop_iteration clock (Some a) s = Done (timeout_ms, s') →
  ∃ now, clock (tick s) <= now ∧ nothing_due now s'.
Proof.
  intros Hs Hk Hrun. pose proof (reachable_inv clock Hmono Hrange s Hs) as Hinv.
  pose proof (loop_iteration_safely clock Hmono Hrange s (Some a) Hinv Hk) as H. unfold safely in H.
  rewrite Hrun in H. destruct H as [_ H]. by apply H.
Qed.

Lemma iteration_leaves_nothing_due_witness :
  ∃ t s', loop_iteration minute (Some (mkPollAnswer None [])) (state_after 3) = Done (t, s') ∧
    conns s' = ∅ ∧ ∃ now, 61000 <= now ∧ nothing_due now s'.
Proof.
  destruct (loop_iteration minute (Some (mkPollAnswer None [])) (state_after 3)) as [[t s']| | |] eqn:Hrun;
    [|exfalso; vm_compute in Hrun; discriminate..].
  exists t, s'. split; [reflexivity|]. split; [vm_compute in Hrun; injection Hrun as _ <-; reflexivity|].
  apply (iteration_leaves_nothing_due minute minute_mono minute_range (state_after 3) (mkPollAnswer None []) t s');
    [apply state_after_reachable; lia|done|exact Hrun].
Defined.

(** C10: process_timers closes exactly the connections that have been idle
    for more than fifteen seconds, and deletes exactly the keys whose time has
    come. *)
Theorem process_timers_correct clock (Hmono : ∀ n m, (n ≤ m)%nat → clock n <= clock m)
    (Hrange : ∀ n, 0 <= clock n < 2 ^ 62) s a :
  server_inv clock s → models (sdata s) a →
  ∃ s', process_timers clock s = Done ((), s') ∧ server_inv clock s' ∧
    conns s' = filter (λ p, clock (tick s) <= last_activity_ms p.2 + k_idle_timeout_ms) (conns s) ∧
    models (sdata s') (filter (λ p, live_at (clock (tick s)) p.2) a).
Proof.
  intros Hinv Ha. pose proof (process_timers_lemma clock Hmono Hrange s a Hinv Ha) as H.
  apply wp_inv in H as ([] & s' & Hrun & Hinv' & Hm & Hc & _). by exists s'.
Qed.

Lemma process_timers_correct_witness :
  ∃ a s', process_timers minute (state_after 3) = Done ((), s') ∧ server_inv minute s' ∧
    conns s' = filter (λ p, minute 10 <= last_activity_ms p.2 + k_idle_timeout_ms) (conns (state_after 3)) ∧
    models (sdata s') (filter (λ p, live_at (minute 10) p.2) a).
Proof.
  destruct (si_store _ _ (reachable_store 3 ltac:(lia))) as [a [Ha _]]. exists a.
  exact (process_timers_correct minute minute_mono minute_range _ a (reachable_store 3 ltac:(lia)) Ha).
Defined.

(** C11: next_timer_ms answers how long poll may sleep: until the earliest
    deadline of the connections and the keys, not at all when it has passed, for
    ever when there is none. So it is -1 when there is neither a connection nor a
    key that expires; Design.md says -1 for an empty idle list, which is not
    the case when a key expires. The deadlines are assumed below 2^64 - 1 (the
    value that stands for none, which the sum of a time to live and the clock
    could wrap around to). The conversion to int32_t is exact for a deadline less
    than 2^31 milliseconds away and is written out for the others. *)
Theorem next_timer_ms_correct clock (Hmono : ∀ n m, (n ≤ m)%nat → clock n <= clock m)
    (Hrange : ∀ n, 0 <= clock n < 2 ^ 62) s a :
  server_inv clock s → models (sdata s) a → (∀ t, deadline s a t → 0 <= t < size_max) →
  let now := clock (tick s) in
  ∃ o r, least_deadline s a o ∧ next_timer_ms clock s = Done (r, ticked s) ∧
    match o with
    | None => r = -1
    | Some t => r = (if t <=? now then 0 else i32 (t - now)) ∧ (t < now + 2 ^ 31 → r = Z.max 0 (t - now))
    end.
Proof.
  intros Hinv Ha Hd now. pose proof (next_timer_lemma clock Hmono Hrange s a Hinv Ha Hd) as H.
  apply wp_inv in H as (r & s' & Hrun & -> & o & Ho & ->). exists o, (timeout now o). split_and!; [done..|].
  destruct o as [t|]; [|done]. split; [done|]. intros Ht. unfold timeout.
  destruct (Z.leb_spec t now); [lia|]. rewrite i32_id; lia.
Qed.

Lemma next_timer_ms_correct_witness :
  ∃ a o r, least_deadline (state_after 2) a o ∧ next_timer_ms minute (state_after 2) = Done (r, ticked (state_after 2)) ∧
    r = 4800.
Proof.
  pose proof (reachable_store 2 ltac:(lia)) as Hinv. destruct (si_store _ _ Hinv) as [a [Ha _]].
  assert (∀ t, deadline (state_after 2) a t → 0 <= t < size_max) as Hd.
  { intros t Ht. apply (deadlines_in_spec (λ t, (0 <=? t) && (t <? size_max)) _ a t Ha) in Ht;
      [apply andb_true_iff in Ht; lia|vm_compute; reflexivity]. }
  pose proof (next_timer_ms_correct minute minute_mono minute_range (state_after 2) a Hinv Ha Hd) as H.
  cbv zeta in H. destruct H as (o & r & Ho & Hrun & _).
  exists a, o, r. split; [exact Ho|]. split; [exact Hrun|]. vm_compute in Hrun. by injection Hrun as <-.
Defined.
