(* ===== verification/History.v ===== *)
(** The whole run of the server: one sequential history of the requests of all the
    connections explains the key space and what every connection has received
    and is to be sent. *)
From Stdlib Require Import Strings.String.
From S2P Require Import Prelude Bytes Serialize Protocol NetIO NetIOProofs Common Commands KeySpace.
From S2P Require Import CommandSpec KeyBounds ConnProofs Server KeyService Timers ServerProofs ServerProps.

Open Scope list_scope.

(** * Histories

    A connection is accepted; the requests that one read completes are answered,
    in one piece; the keys that are due expire. *)
Inductive entry :=
| Accepted (fd : Z)
| Served (fd : Z) (reqs : list bytes) (out : bytes)
| Expired (now : Z).

Section history.
Context (clock : nat → Z).

(** [history H t a]: from the empty key space and the first reading of the clock,
    the specification allows the history [H], which takes [t] readings and
    ends in the key space [a]. *)
Inductive history : list entry → nat → keyspace → Prop :=
| history_nil : history [] 0 ∅
| history_accepted H t a fd : history H t a → history (H ++ [Accepted fd]) t a
| history_served H t a t1 fd reqs out t2 a2 :
    history H t a → (t ≤ t1)%nat → answered (H := key_service clock) (a, t1) reqs out (a2, t2) →
    history (H ++ [Served fd reqs out]) t2 a2
| history_expired H t a t1 :
    history H t a → (t ≤ t1)%nat → history (H ++ [Expired (clock t1)]) t1 (expire (clock t1) a).

(** What was served on a descriptor since it was accepted the last time. *)
Definition since_step (fd : Z) (l : list (list bytes * bytes)) (e : entry) : list (list bytes * bytes) :=
  match e with
  | Accepted fd' => if bool_decide (fd' = fd) then [] else l
  | Served fd' reqs out => if bool_decide (fd' = fd) then l ++ [(reqs, out)] else l
  | Expired _ => l
  end.
Definition since (fd : Z) (H : list entry) : list (list bytes * bytes) := foldl (since_step fd) [] H.

Lemma since_snoc fd H e : since fd (H ++ [e]) = since_step fd (since fd H) e.
Proof. unfold since. by rewrite foldl_app. Qed.

(** ** The bytes that arrive

    [traced s R]: the server reaches the state [s], and [R] are the bytes it has
    read from each descriptor that is open since it was accepted. *)
Definition receives (s : Server) (p : poll_answer) (fd : Z) (cn : Connection) : bytes :=
  match (list_to_map (jobs s p) : gmap Z conn_event) !! fd with
  | Some ev => got (pollin ev) (ev_read ev) cn
  | None => []
  end.
Definition received (s : Server) (answer : option poll_answer) (R : Z → bytes) (fd : Z) : bytes :=
  match conn_at s fd, answer with
  | Some cn, Some p => R fd ++ receives s p fd cn
  | Some cn, None => R fd
  | None, _ => []
  end.

Inductive traced : Server → (Z → bytes) → Prop :=
| traced_start : traced server_start (λ _, [])
| traced_turn s R answer timeout_ms s' :
    traced s R → kernel_ok s answer → loop_iteration clock answer s = Done (timeout_ms, s') →
    traced s' (received s answer R).

Lemma traced_reachable s R : traced s R → reachable clock s.
Proof.
  induction 1 as [|s R answer timeout_ms s' _ IH Hk Hrun]; [by apply rtc_refl|].
  eapply rtc_r; [exact IH|]. by exists answer, timeout_ms.
Qed.

(** Every reachable state is on such a run. *)
Lemma reachable_traced s : reachable clock s → ∃ R, traced s R.
Proof.
  unfold reachable. revert s. apply rtc_ind_r; [eexists; apply traced_start|].
  intros s s' _ (answer & t & Hk & Hrun) [R IH]. eexists. by eapply traced_turn.
Qed.

(** ** A turn extends the history *)
Definition served_entries (evs : list (Z * conn_event)) (js : list (list bytes)) (outs : list bytes) : list entry :=
  zip_with (λ fd '(reqs, out), Served fd reqs out) evs.*1 (zip js outs).

Lemma turn_history evs : ∀ H t a js outs t' a',
  length evs = length js → history H t a → turn clock t a js outs t' a' →
  ∃ t1, (t1 ≤ t')%nat ∧ history (H ++ served_entries evs js outs) t1 a'.
Proof.
  unfold served_entries. induction evs as [|[fd ev] evs IH]; intros H t a js outs t' a' Hlen HH Ht.
  - destruct Ht as [? Ht|]; [|done]. exists t. cbn. by rewrite app_nil_r.
  - destruct Ht as [|t1 reqs out t2 a2 js outs t3 a3 Ht1 Ho Ht]; [done|]. injection Hlen as Hlen.
    destruct (IH (H ++ [Served fd reqs out]) t2 a2 js outs t3 a3 Hlen) as (t' & Ht' & HH'); [by eapply history_served|done|].
    exists t'. split; [done|]. by rewrite <-app_assoc in HH'.
Qed.

Lemma since_served_other fd evs : ∀ H js outs,
  fd ∉ evs.*1 → since fd (H ++ served_entries evs js outs) = since fd H.
Proof.
  unfold served_entries.
  induction evs as [|[fd' ev] evs IH]; intros H js outs Hfd; [cbn; by rewrite app_nil_r|].
  destruct js as [|reqs js], outs as [|out outs]; cbn; try by rewrite app_nil_r.
  rewrite fmap_cons in Hfd. apply not_elem_of_cons in Hfd as [Hne Hfd].
  change (H ++ Served fd' reqs out :: ?l) with (H ++ [Served fd' reqs out] ++ l). rewrite app_assoc.
  rewrite IH by done. rewrite since_snoc. cbn. by rewrite bool_decide_false.
Qed.

Lemma since_served fd evs : ∀ H js outs i ev reqs out,
  NoDup evs.*1 → evs !! i = Some (fd, ev) → js !! i = Some reqs → outs !! i = Some out →
  since fd (H ++ served_entries evs js outs) = since fd H ++ [(reqs, out)].
Proof.
  induction evs as [|[fd' ev'] evs IH]; intros H js outs i ev reqs out Hnd Hi Hj Ho; [done|].
  destruct js as [|reqs' js], outs as [|out' outs]; try done. rewrite fmap_cons in Hnd. apply NoDup_cons in Hnd as [Hfd Hnd].
  change (served_entries ((fd', ev') :: evs) (reqs' :: js) (out' :: outs)) with
    ([Served fd' reqs' out'] ++ served_entries evs js outs). rewrite app_assoc.
  destruct i as [|i]; cbn in Hi, Hj, Ho.
  - injection Hi as -> ->. injection Hj as ->. injection Ho as ->. rewrite since_served_other by done.
    rewrite since_snoc. cbn. by rewrite bool_decide_true.
  - rewrite (IH _ js outs i ev reqs out) by done. rewrite since_snoc. cbn. rewrite bool_decide_false; [done|].
    intros ->. apply Hfd. apply list_elem_of_fmap. exists (fd, ev). split; [done|]. by eapply list_elem_of_lookup_2.
Qed.

(** What was served on [fd] was answered at places of the history that follow one
    another: each batch at an entry of its own, from the key space of the history
    before it, after the batches before it. *)
Inductive served_in (fd : Z) : list entry → list (list bytes * bytes) → Prop :=
| served_in_nil H : served_in fd H []
| served_in_snoc H1 H l reqs out t0 a0 t1 t2 a2 :
    served_in fd H1 l → history H1 t0 a0 → (t0 ≤ t1)%nat →
    answered (H := key_service clock) (a0, t1) reqs out (a2, t2) →
    H1 ++ [Served fd reqs out] `prefix_of` H → served_in fd H (l ++ [(reqs, out)]).

Lemma served_in_more H e fd l : served_in fd H l → served_in fd (H ++ [e]) l.
Proof.
  destruct 1; [constructor|]. econstructor; [done..|]. etransitivity; [done|]. by exists [e].
Qed.

Lemma since_served_in H t a fd : history H t a → served_in fd H (since fd H).
Proof.
  induction 1 as [|H t a fd' HH IH|H t a t1 fd' reqs out t2 a2 HH IH Ht Ho|H t a t1 HH IH Ht];
    [constructor|..]; rewrite since_snoc; cbn [since_step];
    [case_bool_decide; [constructor|by apply served_in_more]| |by apply served_in_more].
  case_bool_decide; [subst fd'|by apply served_in_more]. by econstructor.
Qed.

(** ** What a connection has received and is to be sent *)

(** The requests [l] are those of the bytes [bs], of which the buffer has the
    rest; the responses were taken by the kernel, or are in the buffer. *)
Definition stream_ok (bs : bytes) (l : list (list bytes * bytes)) (cn : Connection) : Prop :=
  concat l.*1 = (frames bs).1 ∧ incoming cn = (frames bs).2 ∧ concat l.*2 = written cn ++ outgoing cn.

Lemma stream_new fd now : stream_ok [] [] (new_connection fd now).
Proof. done. Qed.

Lemma stream_served bs l cn ev out cn' :
  stream_ok bs l cn → served ev cn out cn' →
  stream_ok (bs ++ got (pollin ev) (ev_read ev) cn) (l ++ [(conn_requests (pollin ev) (ev_read ev) cn, out)]) cn'.
Proof.
  intros (Hr & Hi & Hw) (Hi' & _ & Ho'). unfold stream_ok, conn_requests.
  rewrite !fmap_app, !concat_app. cbn [fmap list_fmap concat fst snd]. rewrite !app_nil_r.
  rewrite (frames_app bs), <-Hi. cbn [fst snd]. split_and!; [by rewrite Hr|done|].
  by rewrite Ho', Hw, <-app_assoc.
Qed.

(** ** The history explains the state *)
Definition explains (H : list entry) (t : nat) (a : keyspace) (s : Server) (R : Z → bytes) : Prop :=
  history H t a ∧ (t ≤ tick s)%nat ∧ holds (sdata s) a ∧
  ∀ fd cn, 0 <= fd → conn_at s fd = Some cn → stream_ok (R fd) (since fd H) cn.

Definition accepted_entry (p : poll_answer) : list entry :=
  match accepted p with Some fd => [Accepted fd] | None => [] end.

Lemma since_accepted s p H fd cn :
  kernel_ok s (Some p) → 0 <= fd → conn_at s fd = Some cn → since fd (H ++ accepted_entry p) = since fd H.
Proof.
  intros Hk Hfd Hc. unfold accepted_entry. destruct (accepted p) as [fd'|] eqn:Hacc; [|by rewrite app_nil_r].
  rewrite since_snoc. cbn. rewrite bool_decide_false; [done|]. intros ->. apply (Hk fd Hacc). split; [done|].
  unfold conn_at in Hc. destruct (fd2conn s !! Z.to_nat fd) as [[c|]|]; [|done..]. by exists c.
Qed.

Lemma history_accepted_entry H t a p : history H t a → history (H ++ accepted_entry p) t a.
Proof.
  intros HH. unfold accepted_entry. destruct (accepted p); [by apply history_accepted|by rewrite app_nil_r].
Qed.

(** The streams after a turn. *)
Lemma turn_streams s s' R p H outs now :
  server_inv clock s → kernel_ok s (Some p) → turn_conns clock s p outs now s' →
  length outs = length (jobs s p) →
  (∀ fd cn, 0 <= fd → conn_at s fd = Some cn → stream_ok (R fd) (since fd H) cn) →
  ∀ fd cn, 0 <= fd → conn_at s' fd = Some cn →
    stream_ok (received s (Some p) R fd)
      (since fd (((H ++ accepted_entry p) ++ served_entries (jobs s p) (job_requests s <$> jobs s p) outs) ++ [Expired now])) cn.
Proof.
  intros Hinv Hk Htc Hlen Hst fd cn' Hfd Hcn'. specialize (Htc fd Hfd). rewrite Hcn' in Htc.
  rewrite since_snoc. cbn [since_step]. unfold received. destruct (conn_at s fd) as [cn|] eqn:Hcn.
  - specialize (Hst fd cn Hfd Hcn). destruct Htc as [[-> Hnin]|(ev & out & Hz & Hser & _)].
    + rewrite since_served_other by done. erewrite since_accepted by done. unfold receives.
      rewrite not_elem_of_list_to_map_1 by done. by rewrite app_nil_r.
    + apply list_elem_of_lookup in Hz as [i [Hi Ho]%lookup_zip_Some].
      assert (NoDup (jobs s p).*1) as Hnd by by apply (jobs_nodup clock).
      rewrite (since_served fd _ _ _ _ i ev (conn_requests (pollin ev) (ev_read ev) cn) out Hnd Hi); [|rewrite list_lookup_fmap, Hi; cbn; unfold job_requests; cbn; by rewrite Hcn|done].
      erewrite since_accepted by done. unfold receives.
      rewrite (elem_of_list_to_map_1 _ fd ev Hnd) by (by eapply list_elem_of_lookup_2). by apply stream_served.
  - destruct Htc as (Hacc & now' & ->). rewrite since_served_other.
    + unfold accepted_entry. rewrite Hacc, since_snoc. cbn. rewrite bool_decide_true by done. apply stream_new.
    + intros Hin%jobs_fds. apply (poll_args_conn clock s fd Hinv) in Hin as [_ [cn Hc]]. congruence.
Qed.

Context (Hmono : ∀ n m, (n ≤ m)%nat → clock n <= clock m) (Hrange : ∀ n, 0 <= clock n < 2 ^ 62).

Lemma turn_explained H t a s R answer timeout_ms s' :
  server_inv clock s → explains H t a s R → kernel_ok s answer → loop_iteration clock answer s = Done (timeout_ms, s') →
  ∃ H' t' a', explains H' t' a' s' (received s answer R).
Proof using Hmono Hrange.
  intros Hinv (HH & Ht & Ha & Hst) Hk Hrun. destruct answer as [p|].
  - pose proof (loop_iteration_ends clock Hmono Hrange s a p Hinv Ha Hk) as He. unfold ends in He. rewrite Hrun in He.
    destruct He as (Hinv' & _ & outs & t1 & a1 & Hturn & Ht1 & Ha1 & Htc & _).
    pose proof (turn_length _ _ _ _ _ _ _ Hturn) as Hlen. rewrite length_fmap in Hlen.
    destruct (turn_history (jobs s p) (H ++ accepted_entry p) t a (job_requests s <$> jobs s p) outs t1 a1) as (t2 & Ht2 & HH2).
    { by rewrite length_fmap. }
    { by apply history_accepted_entry. }
    { by eapply turn_before. }
    eexists _, t1, _. split; [eapply history_expired; [exact HH2|exact Ht2]|]. split; [lia|]. split; [done|].
    by eapply turn_streams.
  - pose proof (loop_interrupted clock Hmono Hrange s Hinv) as H1. eapply wp_elim in H1; [|exact Hrun]. subst s'.
    exists H, t, a. split; [done|]. split; [cbn; lia|]. split; [done|]. intros fd cn Hfd Hcn.
    change (conn_at (ticked s) fd) with (conn_at s fd) in Hcn. unfold received. rewrite Hcn. by apply Hst.
Qed.

Lemma traced_explained s R : traced s R → ∃ H t a, explains H t a s R.
Proof using Hmono Hrange.
  induction 1 as [|s R answer timeout_ms s' Htr (H & t & a & IH) Hk Hrun].
  - exists [], 0%nat, ∅. split; [constructor|]. split; [done|]. split; [apply holds_init|]. by intros fd cn _ [=].
  - eapply turn_explained; [|exact IH|exact Hk|exact Hrun].
    apply (reachable_inv clock Hmono Hrange). by eapply traced_reachable.
Qed.
End history.

(** ** Runs to evaluate *)
Fixpoint run_trace (clock : nat → Z) (answers : list (option poll_answer)) (sR : Server * (Z → bytes)) :
    option (Server * (Z → bytes)) :=
  match answers with
  | [] => Some sR
  | a :: answers =>
      if kernel_okb sR.1 a then
        match loop_iteration clock a sR.1 with
        | Done (_, s) => run_trace clock answers (s, received sR.1 a sR.2)
        | _ => None
        end
      else None
  end.

Lemma run_trace_traced clock answers : ∀ s R s' R',
  traced clock s R → run_trace clock answers (s, R) = Some (s', R') → traced clock s' R'.
Proof.
  induction answers as [|a answers IH]; intros s R s' R' Hs; cbn [run_trace fst snd]; [by intros [= <- <-]|].
  destruct (kernel_okb s a) eqn:Hk; [|done]. destruct (loop_iteration clock a s) as [[t s1]| | |] eqn:Hrun; [|done..].
  apply IH. eapply traced_turn; [exact Hs|by apply kernel_okb_true|exact Hrun].
Qed.

(** * Property *)

(** C4: the server is sequentially consistent, and every connection has its
    responses in order: at any state of any run there is one history that the
    specification allows, ending in the key space of the state, such that the
    requests answered on each open connection since it was accepted are exactly
    the complete frames of the bytes read from it, the buffer has the rest
    of them, and the responses are the bytes that the kernel has taken from the
    connection ([written]) followed by those in the output buffer: nothing is lost
    or sent twice. *)
Theorem server_history clock (Hmono : ∀ n m, (n ≤ m)%nat → clock n <= clock m)
    (Hrange : ∀ n, 0 <= clock n < 2 ^ 62) s R :
  traced clock s R →
  ∃ H t a, history clock H t a ∧ models (sdata s) a ∧
    ∀ fd cn, 0 <= fd → conn_at s fd = Some cn →
      concat (since fd H).*1 = (frames (R fd)).1 ∧ incoming cn = (frames (R fd)).2 ∧
      concat (since fd H).*2 = written cn ++ outgoing cn.
Proof.
  intros Htr. destruct (traced_explained clock Hmono Hrange s R Htr) as (H & t & a & HH & _ & [Hm _] & Hst).
  by exists H, t, a.
Qed.

Lemma server_history_witness :
  ∃ s R cn, run_trace minute session (server_start, λ _, []) = Some (s, R) ∧ conn_at s 5 = Some cn ∧
    ∃ H t a, history minute H t a ∧ models (sdata s) a ∧
      concat (since 5 H).*1 = (frames (R 5)).1 ∧ incoming cn = (frames (R 5)).2 ∧
      concat (since 5 H).*2 = written cn ++ outgoing cn.
Proof.
  destruct (run_trace minute session (server_start, λ _, [])) as [[s R]|] eqn:Hrun; [|exfalso; vm_compute in Hrun; discriminate].
  assert (Hcn : is_Some (conn_at s 5)) by (vm_compute in Hrun; injection Hrun as <- _; eexists; reflexivity).
  destruct Hcn as [cn Hcn]. exists s, R, cn. split; [reflexivity|]. split; [exact Hcn|].
  destruct (server_history minute minute_mono minute_range s R) as (H & t & a & HH & Hm & Hst).
  - exact (run_trace_traced minute session _ _ _ _ (traced_start minute) Hrun).
  - exists H, t, a. split; [exact HH|]. split; [exact Hm|]. apply Hst; [lia|exact Hcn].
Defined.
