(* ===== verification/EndToEnd.v ===== *)
(** The whole program: the types of the replies, and a session of the client at
    its prompt with the server, from the lines that are typed to what is
    printed. *)
From Stdlib Require Import Strings.String.
From S2P Require Import Prelude Bytes Serialize Protocol NetIO NetIOProofs Client ClientProofs.
From S2P Require Import Common AvlTree Hashtable Heap SortedSet Commands KeySpace CommandSpec CommandProofs.
From S2P Require Import KeyBounds CommandProps ConnProofs Server KeyService ServerProofs ServerProps History Repl.

Open Scope list_scope.

(** * The types of the replies *)
Definition is_str (r : wvalue) : bool := match r with WStr _ => true | _ => false end.
Definition is_flag (r : wvalue) : bool := match r with WInt z => (z =? 0) || (z =? 1) | _ => false end.
Definition is_err (codes : list Z) (r : wvalue) : bool :=
  match r with WErr c _ => bool_decide (c ∈ codes) | _ => false end.
Fixpoint is_pairs (vs : list wvalue) : bool :=
  match vs with
  | [] => true
  | WStr _ :: WDbl _ :: vs => is_pairs vs
  | _ => false
  end.

(** What a client may expect, by the word of a command with the right number
    of arguments. *)
Definition reply_types : list (string * (wvalue → bool)) :=
  [("ping", is_str);
   ("get", λ r, match r with WNil | WStr _ => true | _ => false end);
   ("set", λ r, match r with WNil => true | _ => false end);
   ("del", is_flag);
   ("keys", λ r, match r with WArr vs => forallb is_str vs | _ => false end);
   ("pttl", λ r, match r with WInt _ => true | _ => false end);
   ("pexpire", λ r, is_flag r || is_err [ERR_BAD_ARG] r);
   ("zadd", λ r, is_flag r || is_err [ERR_BAD_ARG; ERR_BAD_TYP] r);
   ("zrem", λ r, is_flag r || is_err [ERR_BAD_TYP] r);
   ("zscore", λ r, match r with WNil | WDbl _ => true | _ => is_err [ERR_BAD_TYP] r end);
   ("zquery", λ r, match r with WArr vs => is_pairs vs | _ => is_err [ERR_BAD_ARG; ERR_BAD_TYP] r end)]%string.

Definition reply_typed (cmd : list bytes) (r : wvalue) : bool :=
  if known cmd then existsb (λ '(w, ty), bool_decide (head cmd = Some (str w)) && ty r) reply_types
  else is_err [ERR_UNKNOWN] r.

Lemma is_pairs_query ds : is_pairs (concat ((λ d, [WStr (name d); WDbl (score d)]) <$> ds)) = true.
Proof. by induction ds. Qed.
Lemma is_str_keys kvs : forallb is_str (key_line <$> kvs) = true.
Proof. by induction kvs. Qed.

(** The word of a command is at its place in the table. *)
Lemma typed_word w args ty r :
  known (str w :: args) = true → (w, ty) ∈ reply_types → ty r = true → reply_typed (str w :: args) r = true.
Proof.
  intros Hk Hw Hr. unfold reply_typed. rewrite Hk. apply existsb_exists. exists (w, ty).
  split; [by apply list_elem_of_In|]. by rewrite Hr, andb_true_r, bool_decide_true.
Qed.

Lemma is_flag_option {A} (o : option A) x y :
  (x = 0 ∨ x = 1) → (y = 0 ∨ y = 1) → is_flag (WInt (match o with Some _ => x | None => y end)) = true.
Proof. intros [->| ->] [->| ->]; by destruct o. Qed.

Lemma executes_typed now a cmd r a' : executes now a cmd r a' → reply_typed cmd r = true.
Proof.
  assert (∀ k, is_flag (present a k) = true) as Hp by (intros k; apply is_flag_option; auto).
  assert (∀ m nm, is_flag (added m nm) = true) as Ha by (intros m nm; apply is_flag_option; auto).
  assert (∀ m nm, is_flag (removed m nm) = true) as Hr by (intros m nm; apply is_flag_option; auto).
  destruct 1; [..|by unfold reply_typed; rewrite H].
  all: eapply typed_word; [reflexivity|unfold reply_types; repeat constructor|cbv beta].
  all: rewrite ?Hp, ?Ha, ?Hr; try reflexivity.
  - unfold get_reply. by destruct (a !! k).
  - apply is_str_keys.
  - unfold score_reply. by destruct (m !! nm).
  - apply is_pairs_query.
Qed.

(** Replies have integers at their width, as the client needs them. *)
Lemma executes_wf now a cmd r a' : executes now a cmd r a' → wf_value r = true.
Proof.
  assert (∀ A (o : option A), wf_value (WInt (match o with Some _ => 1 | None => 0 end)) = true) as Hflag by (by intros A []).
  assert (∀ A (o : option A), wf_value (WInt (match o with Some _ => 0 | None => 1 end)) = true) as Hflag' by (by intros A []).
  destruct 1; try reflexivity; try apply Hflag; try apply Hflag'.
  - unfold get_reply. by destruct (a !! k).
  - apply forallb_forall. intros v Hv. apply list_elem_of_In, list_elem_of_fmap in Hv as (kv & -> & _). done.
  - unfold ttl_reply. destruct (a !! k) as [e|]; [|done]. destruct (a_expiry e) as [t|]; [|done].
    cbn [wf_value]. pose proof (i64_range (if t >? now then u64 (t - now) else 0)). lia.
  - unfold score_reply. by destruct (m !! nm).
  - apply forallb_forall. intros v Hv. apply list_elem_of_In, elem_of_concat in Hv as (i & vs & Hi & Hv).
    apply list_lookup_fmap_Some in Hi as (d & -> & _). apply elem_of_cons in Hv as [->|Hv]; [done|].
    by apply list_elem_of_singleton in Hv as ->.
Qed.

(** * A session *)

(** Requests one after the other, each at the next reading of the clock. *)
Inductive executes_all (clock : nat → Z) : nat → keyspace → list (list bytes) → list wvalue → keyspace → Prop :=
| all_done t a : executes_all clock t a [] [] a
| all_next t a cmd r a1 cmds rs a2 :
    executes (clock t) a cmd r a1 → executes_all clock (S t) a1 cmds rs a2 →
    executes_all clock t a (cmd :: cmds) (r :: rs) a2.

(** What the client gets for a reply: one that is too big is replaced. *)
Definition shown (r : wvalue) : wvalue :=
  if blen (enc r) >? k_max_msg then WErr ERR_TOO_BIG (str "response is too big.") else r.

Lemma executes_all_wf clock t a cmds rs a' : executes_all clock t a cmds rs a' → Forall (λ r, wf_value r = true) rs.
Proof. induction 1; constructor; [by eapply executes_wf|done]. Qed.
Lemma executes_all_length clock t a cmds rs a' : executes_all clock t a cmds rs a' → length rs = length cmds.
Proof. induction 1; cbn; congruence. Qed.

(** The requests of well-formed commands are answered by the replies to the
    commands. *)
Lemma limited_enc r : limited (enc r) = enc (shown r).
Proof. unfold limited, shown. by destruct (_ >? _). Qed.

Lemma sendable_parses cmd : sendable cmd → parse_request (request_bytes cmd) [] = (0, cmd).
Proof. intros [Hwf _]. by apply parse_request_lemma. Qed.

Lemma answered_executes clock cmds : ∀ t a out t' a',
  Forall sendable cmds → answered (H := key_service clock) (a, t) (request_bytes <$> cmds) out (a', t') →
  ∃ rs, executes_all clock t a cmds rs a' ∧ out = response_frames (shown <$> rs).
Proof.
  induction cmds as [|cmd cmds IH]; intros t a out t' a' Hall Ho; rewrite ?fmap_cons, ?fmap_nil in Ho.
  { inversion Ho; subst. exists []. split; [constructor|done]. }
  apply Forall_cons in Hall as [Hcmd%sendable_parses Hall].
  inversion Ho as [|? ? ? ? Hp|? cmd' d [a1 t1] ? out' ? Hp (r & Hx & -> & Ht) Hrest]; subst; rewrite Hcmd in Hp; [done|].
  injection Hp as <-. cbn in Hx, Ht. subst t1. destruct (IH _ _ _ _ _ Hall Hrest) as (rs & Hxs & ->).
  exists (r :: rs). split; [by econstructor|]. rewrite limited_enc. done.
Qed.

Lemma frames_concat reqs :
  Forall (λ req, blen req <= k_max_msg) reqs → frames (concat (frame <$> reqs)) = (reqs, []).
Proof.
  induction 1 as [|req reqs Hreq _ IH]; [done|]. rewrite frames_unfold, fmap_cons. cbn [concat].
  by rewrite (proj2 (next_frame_request _ req (concat (frame <$> reqs)))), IH by done.
Qed.
Lemma frames_requests cmds : Forall sendable cmds → frames (request_frames cmds) = (request_bytes <$> cmds, []).
Proof.
  intros Hall. unfold request_frames. change (frames (concat (frame ∘ request_bytes <$> cmds)) = (request_bytes <$> cmds, [])).
  rewrite list_fmap_compose. apply frames_concat, Forall_fmap.
  eapply Forall_impl; [exact Hall|]. by intros cmd [_ ?].
Qed.

Lemma shown_readable r : wf_value r = true → readable (shown r).
Proof.
  intros Hr. unfold shown, readable. destruct (Z.gtb_spec (blen (enc r)) k_max_msg); [|done].
  split; [done|]. apply Z.leb_le. vm_compute. reflexivity.
Qed.

(** The client prints the replies when it has all the responses. *)
Lemma client_prints c rs :
  let cmds := commands (lines (stdin c)) in
  Forall sendable cmds → Forall (λ r, wf_value r = true) rs → length rs = length cmds →
  writable (blen (request_frames cmds)) (csock c) → live (cl_in (cstate c)) →
  concat (cl_in (cstate c)) = response_frames (shown <$> rs) →
  ∃ c', client_main c = Done ((), c') ∧ sent (csock c') = sent (csock c) ++ request_frames cmds ∧
    cl_log (cstate c') = cl_log (cstate c) ++ transcript (lines (stdin c)) (shown <$> rs).
Proof.
  intros cmds Hcmds Hrs Hlen Hw Hlive Hc.
  pose proof (repl_lemma (length (stdin c)) c (shown <$> rs) [] 0) as H. rewrite Z.add_0_r, app_nil_r in H.
  assert (Forall readable (shown <$> rs)) as Hr.
  { apply Forall_fmap. eapply Forall_impl; [exact Hrs|]. apply shown_readable. }
  specialize (H ltac:(done) Hcmds Hr). rewrite length_fmap in H.
  specialize (H Hlen ltac:(done) Hw Hlive Hc). apply wp_inv in H as ([] & c' & Hrun & H1 & H2 & _).
  exists c'. split; [|done]. exact Hrun.
Qed.

(** ** Batches

    The commands of a connection that one read completed, with their replies.
    [ran clock fd H bs]: the batches [bs] ran at entries of [H] for [fd], each at one of
    its own that comes after those of the batches before it, its commands one after
    the other from the key space of the history up to there. *)
Abbreviation batch := (list (list bytes) * list wvalue)%type.
Definition batch_bytes (b : batch) : list bytes * bytes := (request_bytes <$> b.1, response_frames (shown <$> b.2)).
Inductive ran (clock : nat → Z) (fd : Z) : list entry → list batch → Prop :=
| ran_nil H : ran clock fd H []
| ran_snoc H1 H bs cmds rs t0 a0 t1 a2 :
    ran clock fd H1 bs → history clock H1 t0 a0 → (t0 ≤ t1)%nat → executes_all clock t1 a0 cmds rs a2 →
    H1 ++ [Served fd (request_bytes <$> cmds) (response_frames (shown <$> rs))] `prefix_of` H →
    ran clock fd H (bs ++ [(cmds, rs)]).

Lemma batches_of clock H fd l :
  served_in clock fd H l → ∀ cmds, Forall sendable cmds → concat l.*1 = request_bytes <$> cmds →
  ∃ bs : list batch, l = batch_bytes <$> bs ∧ concat bs.*1 = cmds ∧ ran clock fd H bs.
Proof.
  induction 1 as [H|H1 H l reqs out t0 a0 t1 t2 a2 _ IH HH Ht Ho Hp]; intros cmds Hall Hc.
  { cbn in Hc. symmetry in Hc. apply fmap_nil_inv in Hc as ->. exists []. split_and!; [done..|constructor]. }
  rewrite fmap_app, concat_app in Hc. cbn [fmap list_fmap concat fst] in Hc. rewrite app_nil_r in Hc.
  symmetry in Hc. apply fmap_app_inv in Hc as (c1 & c2 & Hc1 & -> & ->). apply Forall_app in Hall as [Hall1 Hall2].
  destruct (IH c1 Hall1 Hc1) as (bs & -> & Hbs & Hran).
  destruct (answered_executes clock c2 t1 a0 out t2 a2 Hall2 Ho) as (rs & Hx & ->).
  exists (bs ++ [(c2, rs)]). split_and!.
  - by rewrite fmap_app.
  - rewrite fmap_app, concat_app, Hbs. cbn. by rewrite app_nil_r.
  - by eapply ran_snoc.
Qed.

Lemma ran_replies clock H fd (bs : list batch) :
  ran clock fd H bs →
  Forall (λ r, wf_value r = true) (concat bs.*2) ∧ length (concat bs.*2) = length (concat bs.*1).
Proof.
  induction 1 as [H|H1 H bs cmds rs t0 a0 t1 a2 _ [IH1 IH2] _ _ Hx _]; [done|].
  rewrite !fmap_app, !concat_app. cbn [fmap list_fmap concat fst snd]. rewrite !app_nil_r, !length_app, IH2.
  split; [|f_equal; by eapply executes_all_length]. apply Forall_app. split; [done|by eapply executes_all_wf].
Qed.

Lemma batches_out (bs : list batch) :
  concat (batch_bytes <$> bs).*2 =
    response_frames (shown <$> concat bs.*2).
Proof.
  induction bs as [|b bs IH]; [done|]. rewrite !fmap_cons. cbn [concat snd]. rewrite IH.
  unfold response_frames. by rewrite !fmap_app, concat_app.
Qed.

(** ** An instance: the session of Repl.v, read in two pieces *)
Definition typed_cmds : list (list bytes) := commands (lines (stdin typed_client)).
Definition slowly (n : nat) : Z := Z.min (1000 + Z.of_nat n) (2 ^ 40).
Lemma slowly_mono n m : (n ≤ m)%nat → slowly n <= slowly m.
Proof. unfold slowly. lia. Qed.
Lemma slowly_range n : 0 <= slowly n < 2 ^ 62.
Proof. unfold slowly. lia. Qed.
Definition typed_run : list (option poll_answer) :=
  [Some (mkPollAnswer (Some 5) []); Some (mkPollAnswer None [input (take 11 (request_frames typed_cmds))]);
   Some (mkPollAnswer None [mkConnEvent true true false false (RdOk (drop 11 (request_frames typed_cmds))) (WrOk 6) (WrOk 2)])].

(** * Properties *)

(** C13: the replies are typed: a command with the right number of arguments is
    answered with a value of the type of its word in [reply_types] (a flag is 0
    or 1; the members of a query come as pairs of a name and a score), any
    other request with the error for an unknown command. *)
Theorem run_request_typed now s a cmd :
  models s a → args_ok cmd → aborts a cmd = false →
  ∃ r s', run_request now cmd [] s = Done (enc r, s') ∧ reply_typed cmd r = true.
Proof.
  intros Hm Hargs Hab. pose proof (run_request_lemma now s a cmd Hm Hargs) as H. rewrite Hab in H.
  apply wp_inv in H as (d & s' & Hrun & r & a' & -> & Hx & _). exists r, s'. split; [done|].
  by eapply executes_typed.
Qed.

Lemma run_request_typed_witness :
  ∃ r s', run_request 50 [str "zscore"; str "z"; str "b"] [] (after 10 few) = Done (enc r, s') ∧
    reply_typed [str "zscore"; str "z"; str "b"] r = true.
Proof.
  destruct few_models as [a Ha]. apply (run_request_typed 50 _ a _ Ha); [|reflexivity].
  repeat constructor; apply Z.leb_le; vm_compute; reflexivity.
Defined.

(** C8: client and server together: when the server has read, in as many pieces as
    it likes and between the requests of others, the frames that a client
    writes for the commands typed at its prompt, it has run exactly these commands,
    in order, in batches that its history has in one piece each, one after the other
    ([ran]), and nothing else was served on that connection; the bytes that the
    kernel has taken from the connection ([written]) and those that are left in its
    output are the frames of the replies; and the client, reading these bytes,
    however the stream is cut, prints for each line the reply to its command (or
    that it was too big) and ends. *)
Theorem client_server_session clock (Hmono : ∀ n m, (n ≤ m)%nat → clock n <= clock m)
    (Hrange : ∀ n, 0 <= clock n < 2 ^ 62) s R fd cn c :
  let cmds := commands (lines (stdin c)) in
  Forall sendable cmds → traced clock s R → 0 <= fd → conn_at s fd = Some cn → R fd = request_frames cmds →
  ∃ H t a (batches : list batch), history clock H t a ∧ models (sdata s) a ∧
    concat batches.*1 = cmds ∧ ran clock fd H batches ∧ since fd H = batch_bytes <$> batches ∧ incoming cn = [] ∧
    let rs := shown <$> concat batches.*2 in
    response_frames rs = written cn ++ outgoing cn ∧
    (writable (blen (request_frames cmds)) (csock c) →
     live (cl_in (cstate c)) → concat (cl_in (cstate c)) = written cn ++ outgoing cn →
     ∃ c', client_main c = Done ((), c') ∧
       sent (csock c') = sent (csock c) ++ request_frames cmds ∧
       cl_log (cstate c') = cl_log (cstate c) ++ transcript (lines (stdin c)) rs).
Proof.
  intros cmds Hcmds Htr Hfd Hcn HR.
  destruct (traced_explained clock Hmono Hrange s R Htr) as (H & t & a & HH & _ & [Hm _] & Hst).
  destruct (Hst fd cn Hfd Hcn) as (Hreqs & Hin & Hout).
  rewrite HR, frames_requests in Hreqs by done. rewrite HR, frames_requests in Hin by done. cbn [fst snd] in Hreqs, Hin.
  destruct (batches_of clock H fd _ (since_served_in clock H t a fd HH) cmds Hcmds Hreqs) as (bs & Hl & Hbs & Hran).
  rewrite Hl, batches_out in Hout. destruct (ran_replies _ _ _ _ Hran) as [Hwf Hlen]. rewrite Hbs in Hlen.
  exists H, t, a, bs. split_and!; try done.
  intros rs. split; [done|]. intros Hw Hlive Hc. rewrite <-Hout in Hc.
  by apply client_prints.
Qed.

Lemma client_server_session_witness :
  ∃ s R cn, run_trace slowly typed_run (server_start, λ _, []) = Some (s, R) ∧ conn_at s 5 = Some cn ∧
    ∃ H t a (batches : list batch), history slowly H t a ∧ models (sdata s) a ∧
      concat batches.*1 = typed_cmds ∧ ran slowly 5 H batches ∧ since 5 H = batch_bytes <$> batches ∧ incoming cn = [] ∧
      let rs := shown <$> concat batches.*2 in
      response_frames rs = written cn ++ outgoing cn ∧
      (writable (blen (request_frames typed_cmds)) (csock typed_client) →
       live (cl_in (cstate typed_client)) → concat (cl_in (cstate typed_client)) = written cn ++ outgoing cn →
       ∃ c', client_main typed_client = Done ((), c') ∧
         sent (csock c') = sent (csock typed_client) ++ request_frames typed_cmds ∧
         cl_log (cstate c') = cl_log (cstate typed_client) ++ transcript (lines (stdin typed_client)) rs).
Proof.
  destruct (run_trace slowly typed_run (server_start, λ _, [])) as [[s R]|] eqn:Hrun; [|exfalso; vm_compute in Hrun; discriminate].
  assert (Hcn : is_Some (conn_at s 5)) by (vm_compute in Hrun; injection Hrun as <- _; eexists; reflexivity).
  assert (HR : R 5 = request_frames typed_cmds) by (vm_compute in Hrun; injection Hrun as _ <-; vm_compute; reflexivity).
  destruct Hcn as [cn Hcn]. exists s, R, cn. split; [reflexivity|]. split; [exact Hcn|].
  apply (client_server_session slowly slowly_mono slowly_range s R 5 cn typed_client).
  - apply (bool_decide_unpack _). vm_compute. exact I.
  - exact (run_trace_traced slowly typed_run _ _ _ _ (traced_start slowly) Hrun).
  - lia.
  - exact Hcn.
  - exact HR.
Defined.
