(* ===== verification/Delivery.v ===== *)
(** Responses are delivered: while its peer takes what is written, a connection
    stays open and its output gets empty. *)
From Stdlib Require Import Strings.String.
From S2P Require Import Prelude Bytes Serialize Protocol NetIO NetIOProofs Common Commands KeySpace.
From S2P Require Import CommandSpec ConnProofs Server KeyService ConnTable ServerProofs ServerProps History Repl EndToEnd.

Open Scope list_scope.

(** * A peer that takes its output *)

(** [poll] reports that the socket can be written, without an error, and [write]
    takes some bytes. *)
Definition takes (ev : conn_event) : bool :=
  pollout ev && negb (pollerr ev) && match ev_write' ev with WrOk k => 1 <=? k | _ => false end.

(** The output after the event. *)
Definition after_take (ev : conn_event) (buf : bytes) : bytes := flush true (ev_write' ev) buf.

Lemma after_take_short ev buf : takes ev = true → buf ≠ [] → (length (after_take ev buf) < length buf)%nat.
Proof.
  unfold takes, after_take. destruct (ev_write' ev) as [k| | |]; cbn; [|by rewrite andb_false_r..].
  intros [_ Hk%Z.leb_le]%andb_true_iff Hb. unfold consume_buffer. rewrite length_drop.
  assert (0 < length buf)%nat by (destruct buf; [done|cbn; lia]). unfold blen. destruct (Z.gtb_spec k (Z.of_nat (length buf))); lia.
Qed.

(** A connection with output does not read: the event only takes output. *)
Lemma served_takes ev cn cn' :
  conn_ok cn → outgoing cn ≠ [] → takes ev = true → served ev cn [] cn' →
  incoming cn' = incoming cn ∧ outgoing cn' = after_take ev (outgoing cn) ∧
  written cn' ++ outgoing cn' = written cn ++ outgoing cn.
Proof.
  unfold takes. intros [[Hw Hr] Hd] Hne [[Hout _]%andb_true_iff _]%andb_true_iff (Hi & Ho & Hwr).
  assert (got (pollin ev) (ev_read ev) cn = []) as Hgot.
  { unfold got. rewrite Hr, Hw. destruct (outgoing cn); [done|]. by destruct (pollin ev). }
  rewrite Hgot in Hi, Ho. rewrite app_nil_r in Hi, Ho, Hwr. rewrite (frames_drained _ Hd) in Hi.
  split_and!; [done| |done]. rewrite Ho, Hout. unfold after_take. by destruct (ev_write ev).
Qed.

Lemma takes_not_closed ev cn out :
  conn_ok cn → outgoing cn ≠ [] → want_close cn = false → takes ev = true → closed ev cn out = false.
Proof.
  unfold takes, closed, closes. intros [[Hw Hr] _] Hne Hcl [[_ Herr%negb_true_iff]%andb_true_iff Hk]%andb_true_iff.
  rewrite Hcl, Herr, Hr, Hw. destruct (outgoing cn); [done|]. cbn [blen].
  destruct (ev_write' ev); [|done..]. cbn. by rewrite !andb_false_r.
Qed.

Section clock.
Context (clock : nat → Z).
Context (Hmono : ∀ n m, (n ≤ m)%nat → clock n <= clock m) (Hrange : ∀ n, 0 <= clock n < 2 ^ 62).

(** A turn of the loop in which the peer of [fd] takes output, that does not last
    longer than a connection may be idle. *)
Definition takes_turn (fd : Z) (s s' : Server) : Prop :=
  ∃ p ev timeout_ms, kernel_ok s (Some p) ∧ loop_iteration clock (Some p) s = Done (timeout_ms, s') ∧
    (fd, ev) ∈ jobs s p ∧ takes ev = true ∧ clock (tick s') <= clock (tick s) + k_idle_timeout_ms.

Lemma takes_turn_reachable fd s s' : reachable clock s → takes_turn fd s s' → reachable clock s'.
Proof.
  intros Hs (p & ev & t & Hk & Hrun & _). eapply rtc_r; [exact Hs|]. by exists (Some p), t.
Qed.

Lemma takes_turns_reachable fd n s s' : reachable clock s → nsteps (takes_turn fd) n s s' → reachable clock s'.
Proof. intros Hs Hn. revert Hs. induction Hn; [done|]. intros Hs. by eapply IHHn, takes_turn_reachable. Qed.

(** The connection is there after the turn, with less to write. *)
Lemma takes_turn_lemma fd s s' cn :
  reachable clock s → 0 <= fd → conn_at s fd = Some cn → outgoing cn ≠ [] → takes_turn fd s s' →
  ∃ cn', conn_at s' fd = Some cn' ∧ incoming cn' = incoming cn ∧
    written cn' ++ outgoing cn' = written cn ++ outgoing cn ∧
    (length (outgoing cn') < length (outgoing cn))%nat.
Proof using Hmono Hrange.
  intros Hs Hfd Hcn Hne (p & ev & tm & Hk & Hrun & Hev & Htake & Hquick).
  pose proof (reachable_inv clock Hmono Hrange s Hs) as Hinv. pose proof Hinv as [[a Ha] [cs Hok] Hopen].
  pose proof (proj1 (conn_at_spec _ _ _ _ _ Hok) Hcn) as (c & Hc & _).
  pose proof (co_conn _ _ _ Hok c cn Hc) as Hcok. specialize (Hopen c cn Hc).
  pose proof (loop_iteration_ends clock Hmono Hrange s a p Hinv Ha Hk) as H. unfold ends in H. rewrite Hrun in H.
  destruct H as (_ & _ & outs & t & a1 & Hturn & Ht & _ & Htc & _). specialize (Htc fd Hfd). rewrite Hcn in Htc.
  pose proof (jobs_nodup clock s p Hinv) as Hnd. pose proof (Hmono t (tick s') ltac:(lia)) as Hclock.
  assert (∀ ev' out, ((fd, ev'), out) ∈ zip (jobs s p) outs → ev' = ev ∧ out = []) as Hsame.
  { intros ev' out (i & [Hi Ho]%lookup_zip_Some)%list_elem_of_lookup. apply list_elem_of_lookup in Hev as [j Hj].
    assert (i = j) as <- by (eapply (NoDup_lookup _ _ _ _ Hnd); rewrite list_lookup_fmap, ?Hi, ?Hj; done).
    rewrite Hi in Hj. injection Hj as ->. split; [done|]. eapply turn_no_requests; [exact Hturn| |exact Ho].
    rewrite list_lookup_fmap, Hi. cbn. unfold job_requests. cbn. rewrite Hcn. unfold conn_requests, got.
    destruct Hcok as [[Hw Hr] Hd]. rewrite Hr, Hw. destruct (outgoing cn); [done|]. cbn. rewrite andb_false_r, app_nil_r.
    by rewrite frames_drained. }
  destruct (conn_at s' fd) as [cn'|].
  - exists cn'. split; [done|]. destruct Htc as [[_ Hnin]|(ev' & out & [-> ->]%Hsame & Hser & _)].
    + destruct Hnin. apply list_elem_of_fmap. by exists (fd, ev).
    + apply served_takes in Hser as (-> & Ho & Hw); [|done..]. split; [done|]. split; [done|]. rewrite Ho. by apply after_take_short.
  - exfalso. destruct Htc as [(seen & _ & Hidle & Hact)|(ev' & out & [-> ->]%Hsame & Hcl)].
    + assert (has_event ev = true) as Hhas.
      { unfold takes in Htake. unfold has_event. destruct (pollout ev); [|done]. by rewrite orb_true_r. }
      specialize (Hact ev Hev Hhas). lia.
    + by rewrite takes_not_closed in Hcl.
Qed.

Lemma output_delivered_lemma fd n : ∀ s s' cn,
  reachable clock s → 0 <= fd → conn_at s fd = Some cn → (length (outgoing cn) ≤ n)%nat →
  nsteps (takes_turn fd) n s s' →
  ∃ m s1 cn1, (m ≤ n)%nat ∧ nsteps (takes_turn fd) m s s1 ∧ nsteps (takes_turn fd) (n - m) s1 s' ∧
    conn_at s1 fd = Some cn1 ∧ outgoing cn1 = [] ∧ incoming cn1 = incoming cn ∧
    written cn1 = written cn ++ outgoing cn.
Proof using Hmono Hrange.
  induction n as [|n IH]; intros s s' cn Hs Hfd Hcn Hn Hsteps.
  { assert (outgoing cn = []) as Hnil by (apply nil_length_inv; lia).
    exists 0%nat, s, cn. rewrite Hnil, app_nil_r. split_and!; [done|constructor|done..]. }
  destruct (decide (outgoing cn = [])) as [Hnil|Hne].
  { exists 0%nat, s, cn. rewrite Hnil, app_nil_r. split_and!; [lia|constructor|done..]. }
  inversion Hsteps as [|? ? s0 ? Hstep Hrest]; subst.
  destruct (takes_turn_lemma fd s s0 cn Hs Hfd Hcn Hne Hstep) as (cn0 & Hcn0 & Hi & Hw & Hl).
  destruct (IH s0 s' cn0) as (m & s1 & cn1 & Hm & H1 & H2 & Hc & Ho & Hi1 & Hw1); [by eapply takes_turn_reachable|done|done|lia|done|].
  exists (S m), s1, cn1. split_and!; [lia|by econstructor|done|done|done|congruence|by rewrite Hw1].
Qed.
End clock.

(** ** Runs to evaluate *)
Fixpoint taking_run (clock : nat → Z) (fd : Z) (p : poll_answer) (n : nat) (s : Server) : option Server :=
  match n with
  | O => Some s
  | S n =>
      if kernel_okb s (Some p) && existsb (λ '(fd', ev), (fd' =? fd) && takes ev) (jobs s p) then
        match loop_iteration clock (Some p) s with
        | Done (_, s') =>
            if clock (tick s') <=? clock (tick s) + k_idle_timeout_ms then taking_run clock fd p n s' else None
        | _ => None
        end
      else None
  end.

Lemma taking_run_steps clock fd p n : ∀ s s',
  taking_run clock fd p n s = Some s' → nsteps (takes_turn clock fd) n s s'.
Proof.
  induction n as [|n IH]; intros s s'; cbn [taking_run]; [intros [= <-]; constructor|].
  destruct (_ && _) eqn:Hb; [|done]. apply andb_true_iff in Hb as [Hk Hj].
  apply existsb_exists in Hj as ([fd' ev] & Hj & [->%Z.eqb_eq Ht]%andb_true_iff).
  destruct (loop_iteration clock (Some p) s) as [[t s1]| | |] eqn:Hrun; [|done..].
  destruct (Z.leb_spec (clock (tick s1)) (clock (tick s) + k_idle_timeout_ms)) as [Hle|]; [|done].
  intros Hrest%IH. econstructor; [|exact Hrest]. exists p, ev, t.
  split_and!; [by apply kernel_okb_true|done|by apply list_elem_of_In|done|done].
Qed.

(** The client of the session takes three bytes at a time. *)
Definition takes_three : poll_answer := mkPollAnswer None [mkConnEvent false true false false RdAgain WrAgain (WrOk 3)].
Definition typed_state : Server := default server_start (run_loop slowly typed_run server_start).

Lemma typed_state_reachable : reachable slowly typed_state.
Proof.
  apply (run_loop_reachable slowly typed_run server_start); [apply rtc_refl|].
  vm_compute. reflexivity.
Qed.

(** * Property *)

(** C7: responses are delivered: in a run in which the kernel, at each turn, takes
    some bytes of the output of a connection, and no turn lasts longer than a
    connection may be idle, the connection stays open and its output is empty after
    at most as many turns as it had bytes; then the kernel has taken exactly these
    bytes, in order, after those it had taken before ([written]), and the
    connection reads requests again, and what it has of the next one is still
    there. *)
Theorem output_delivered clock (Hmono : ∀ n m, (n ≤ m)%nat → clock n <= clock m)
    (Hrange : ∀ n, 0 <= clock n < 2 ^ 62) fd n s s' cn :
  reachable clock s → 0 <= fd → conn_at s fd = Some cn → (length (outgoing cn) ≤ n)%nat →
  nsteps (takes_turn clock fd) n s s' →
  ∃ m s1 cn1, (m ≤ n)%nat ∧ nsteps (takes_turn clock fd) m s s1 ∧ nsteps (takes_turn clock fd) (n - m) s1 s' ∧
    conn_at s1 fd = Some cn1 ∧ outgoing cn1 = [] ∧ written cn1 = written cn ++ outgoing cn ∧
    want_read cn1 = true ∧ incoming cn1 = incoming cn.
Proof.
  intros Hs Hfd Hcn Hn Hsteps.
  destruct (output_delivered_lemma clock Hmono Hrange fd n s s' cn Hs Hfd Hcn Hn Hsteps)
    as (m & s1 & cn1 & Hm & H1 & H2 & Hc & Ho & Hi & Hw).
  exists m, s1, cn1. split_and!; [done..| |done].
  assert (reachable clock s1) as Hs1 by (by eapply takes_turns_reachable).
  destruct (reachable_inv clock Hmono Hrange s1 Hs1) as [_ [cs Hok] _].
  destruct (proj1 (conn_at_spec _ _ _ _ _ Hok) Hc) as (c & Hcp & _).
  destruct (co_conn _ _ _ Hok c cn1 Hcp) as [[Hww Hr] _]. by rewrite Hr, Hww, Ho.
Qed.

Lemma output_delivered_witness :
  ∃ s' cn, taking_run slowly 5 takes_three 7 typed_state = Some s' ∧ conn_at typed_state 5 = Some cn ∧
    length (outgoing cn) = 7%nat ∧
    ∃ m s1 cn1, (m ≤ 7)%nat ∧ nsteps (takes_turn slowly 5) m typed_state s1 ∧ nsteps (takes_turn slowly 5) (7 - m) s1 s' ∧
      conn_at s1 5 = Some cn1 ∧ outgoing cn1 = [] ∧ written cn1 = written cn ++ outgoing cn ∧
      want_read cn1 = true ∧ incoming cn1 = incoming cn.
Proof.
  destruct (taking_run slowly 5 takes_three 7 typed_state) as [s'|] eqn:Hrun; [|exfalso; vm_compute in Hrun; discriminate].
  assert (Hcn : ∃ cn, conn_at typed_state 5 = Some cn ∧ length (outgoing cn) = 7%nat)
    by (eexists; split; vm_compute; reflexivity).
  destruct Hcn as (cn & Hcn & Hlen). exists s', cn. split; [reflexivity|]. split; [exact Hcn|]. split; [exact Hlen|].
  apply (output_delivered slowly slowly_mono slowly_range 5 7 typed_state s' cn).
  - exact typed_state_reachable.
  - lia.
  - exact Hcn.
  - lia.
  - apply (taking_run_steps slowly 5 takes_three 7). exact Hrun.
Defined.
