(* ===== verification/ThreadPool.v ===== *)
(** The thread pool of core/thread_pool.{h,cpp}: a queue of jobs behind a mutex
    and a condition variable.  The threads interleave at the calls of pthread;
    a thread is where it is in its code.  The event loop is the only caller of
    [thread_pool_queue]. *)
From S2P Require Import Prelude.

(** A job: the function and its argument. *)
Record Work := mkWork { f : ptr; arg : ptr }.
#[export] Instance work_eq_dec : EqDecision Work.
Proof. solve_decision. Defined.

(** Where a worker is in [worker]. *)
Inductive worker_state :=
| Locking                (** before [pthread_mutex_lock] *)
| Holding                (** at the test of [while (tp->queue.empty())], with the mutex *)
| Sleeping               (** in [pthread_cond_wait], without the mutex *)
| Woken                  (** in [pthread_cond_wait], taking the mutex back *)
| Running (w : Work).    (** in [w.f(w.arg)] *)
#[export] Instance worker_state_eq_dec : EqDecision worker_state.
Proof. solve_decision. Defined.

(** Where the caller of [thread_pool_queue] is. *)
Inductive caller_state :=
| Outside
| Calling (w : Work)     (** before [pthread_mutex_lock] *)
| Pushing (w : Work)     (** before [push_back], with the mutex *)
| Signalling             (** before [pthread_cond_signal] *)
| Unlocking.             (** before [pthread_mutex_unlock] *)
#[export] Instance caller_state_eq_dec : EqDecision caller_state.
Proof. solve_decision. Defined.

Inductive thread := Caller | Worker (i : nat).
#[export] Instance thread_eq_dec : EqDecision thread.
Proof. solve_decision. Defined.

Record ThreadPool := mkThreadPool {
  queue : list Work;
  mu : option thread;
  threads : list worker_state;
  caller : caller_state;
  (** The jobs given to the pool, those a worker took and those that ended. *)
  given : list Work;
  taken : list Work;
  finished : list Work;
}.

(** [thread_pool_init]: the mutex is free and every thread is at the start of
    [worker]; it asserts that there is a thread. *)
Definition thread_pool_init (num_threads : nat) : option ThreadPool :=
  if bool_decide (num_threads = 0%nat) then None
  else Some (mkThreadPool [] None (replicate num_threads Locking) Outside [] [] []).

Definition set_thread (i : nat) (t : worker_state) (m : option thread) (p : ThreadPool) : ThreadPool :=
  mkThreadPool (queue p) m (<[i := t]> (threads p)) (caller p) (given p) (taken p) (finished p).
Definition set_caller (c : caller_state) (m : option thread) (p : ThreadPool) : ThreadPool :=
  mkThreadPool (queue p) m (threads p) c (given p) (taken p) (finished p).

(** * The steps of the threads *)

(** [worker]; a worker that sleeps is woken by a signal or for no reason. *)
Inductive worker_action := WLock | WWait | WWake | WPop | WDone.

Definition worker (a : worker_action) (i : nat) (p : ThreadPool) : option ThreadPool :=
  t ← threads p !! i;
  match a, t with
  | WLock, (Locking | Woken) =>
      if bool_decide (mu p = None) then Some (set_thread i Holding (Some (Worker i)) p) else None
  | WWait, Holding =>
      match queue p with [] => Some (set_thread i Sleeping None p) | _ :: _ => None end
  | WWake, Sleeping => Some (set_thread i Woken (mu p) p)
  | WPop, Holding =>
      match queue p with
      | [] => None
      | w :: q =>
          Some (mkThreadPool q None (<[i := Running w]> (threads p)) (caller p) (given p)
                  (taken p ++ [w]) (finished p))
      end
  | WDone, Running w =>
      Some (mkThreadPool (queue p) (mu p) (<[i := Locking]> (threads p)) (caller p) (given p) (taken p)
              (finished p ++ [w]))
  | _, _ => None
  end.

(** [thread_pool_queue]. [CSignal o] wakes the worker [o]; it wakes none only if
    none sleeps. *)
Inductive caller_action := CCall (w : Work) | CLock | CPush | CSignal (o : option nat) | CUnlock.

Definition thread_pool_queue (a : caller_action) (p : ThreadPool) : option ThreadPool :=
  match a, caller p with
  | CCall w, Outside => Some (set_caller (Calling w) (mu p) p)
  | CLock, Calling w =>
      if bool_decide (mu p = None) then Some (set_caller (Pushing w) (Some Caller) p) else None
  | CPush, Pushing w =>
      Some (mkThreadPool (queue p ++ [w]) (mu p) (threads p) Signalling (given p ++ [w]) (taken p) (finished p))
  | CSignal (Some i), Signalling =>
      if bool_decide (threads p !! i = Some Sleeping)
      then Some (set_caller Unlocking (mu p) (set_thread i Woken (mu p) p)) else None
  | CSignal None, Signalling =>
      if bool_decide (Sleeping ∈ threads p) then None else Some (set_caller Unlocking (mu p) p)
  | CUnlock, Unlocking => Some (set_caller Outside None p)
  | _, _ => None
  end.

(** A step of some thread; a new call is a step of its own. *)
Inductive pool_step (p p' : ThreadPool) : Prop :=
| step_worker a i : worker a i p = Some p' → pool_step p p'
| step_caller a : (∀ w, a ≠ CCall w) → thread_pool_queue a p = Some p' → pool_step p p'.
Inductive any_step (p p' : ThreadPool) : Prop :=
| any_pool : pool_step p p' → any_step p p'
| any_call w : thread_pool_queue (CCall w) p = Some p' → any_step p p'.

Definition pool_reachable (n : nat) (p : ThreadPool) : Prop :=
  ∃ p0, thread_pool_init n = Some p0 ∧ rtc any_step p0 p.

(** * The invariant *)

(** The jobs that the workers are at. *)
Definition running (t : worker_state) : list Work := match t with Running w => [w] | _ => [] end.
Definition awake (t : worker_state) : Prop := t ≠ Sleeping.

Record pool_ok (p : ThreadPool) : Prop := {
  pk_worker : ∀ i, mu p = Some (Worker i) ↔ threads p !! i = Some Holding;
  pk_caller : mu p = Some Caller ↔ (∃ w, caller p = Pushing w) ∨ caller p = Signalling ∨ caller p = Unlocking;
  pk_fifo : given p = taken p ++ queue p;
  pk_once : taken p ≡ₚ finished p ++ mjoin (running <$> threads p);
  pk_awake : queue p ≠ [] → caller p ≠ Signalling → ∃ i t, threads p !! i = Some t ∧ awake t;
  pk_threads : threads p ≠ [];
}.

Lemma jobs_update ts i t t' :
  ts !! i = Some t →
  mjoin (running <$> <[i := t']> ts) ++ running t ≡ₚ mjoin (running <$> ts) ++ running t'.
Proof.
  revert i. induction ts as [|x ts IH]; intros [|i] Hi; [done..| |].
  - injection Hi as ->.
    change ((running t' ++ mjoin (running <$> ts)) ++ running t ≡ₚ (running t ++ mjoin (running <$> ts)) ++ running t').
    solve_Permutation.
  - change ((running x ++ mjoin (running <$> <[i := t']> ts)) ++ running t ≡ₚ
            (running x ++ mjoin (running <$> ts)) ++ running t'). rewrite <-!app_assoc. apply Permutation_app_head. by apply IH.
Qed.

(** The same without jobs. *)
Lemma jobs_same ts i t t' :
  ts !! i = Some t → running t = [] → running t' = [] →
  mjoin (running <$> <[i := t']> ts) ≡ₚ mjoin (running <$> ts).
Proof. intros Hi Ht Ht'. pose proof (jobs_update ts i t t' Hi) as H. by rewrite Ht, Ht', !app_nil_r in H. Qed.

Lemma init_ok n p : thread_pool_init n = Some p → pool_ok p.
Proof.
  unfold thread_pool_init. destruct n as [|n]; [done|]. cbn. intros [= <-]. constructor; cbn; try done.
  - intros i. split; [done|]. intros Hi. change (Locking :: replicate n Locking) with (replicate (S n) Locking) in Hi.
    by apply lookup_replicate in Hi as [? _].
  - split; [done|]. intros [[? ?]|[?|?]]; done.
  - induction n as [|n IH]; [done|]. exact IH.
Qed.

(** A worker that is awake after the step. *)
Lemma awake_update (ts : list worker_state) i t : is_Some (ts !! i) → awake t → ∃ j t', <[i := t]> ts !! j = Some t' ∧ awake t'.
Proof. intros Hi Ht. exists i, t. split; [|done]. apply list_lookup_insert_eq. by apply lookup_lt_is_Some. Qed.

(** Who holds the mutex when the worker [i] moves. *)
Lemma holder_update p i (t' : worker_state) (m : option thread) :
  pool_ok p → is_Some (threads p !! i) →
  (m = Some (Worker i) ∧ t' = Holding ∧ (mu p = None ∨ mu p = Some (Worker i))) ∨
  (m = mu p ∧ t' ≠ Holding ∧ threads p !! i ≠ Some Holding) ∨
  (m = None ∧ t' ≠ Holding ∧ mu p = Some (Worker i)) →
  ∀ j, m = Some (Worker j) ↔ <[i := t']> (threads p) !! j = Some Holding.
Proof.
  intros Hok Hi Hm j. pose proof (pk_worker p Hok) as Hw. apply lookup_lt_is_Some in Hi.
  destruct (decide (j = i)) as [->|Hj].
  - rewrite list_lookup_insert_eq by done. destruct Hm as [(-> & -> & _)|[(-> & Ht & Hn)|(-> & Ht & _)]]; [done| |].
    + split; [intros H%Hw; done|congruence].
    + split; [done|congruence].
  - rewrite list_lookup_insert_ne by done. rewrite <-Hw.
    destruct Hm as [(-> & _ & [->| ->])|[(-> & _ & _)|(-> & _ & ->)]]; naive_solver.
Qed.

Lemma threads_nonempty (ts : list worker_state) i t : ts ≠ [] → <[i := t]> ts ≠ [].
Proof. by destruct ts, i. Qed.

(** A worker moves between its waits. *)
Lemma set_thread_ok p i t t' m :
  pool_ok p → threads p !! i = Some t → running t = [] → running t' = [] →
  (m = Some (Worker i) ∧ t' = Holding ∧ (mu p = None ∨ mu p = Some (Worker i))) ∨
  (m = mu p ∧ t' ≠ Holding ∧ threads p !! i ≠ Some Holding) ∨
  (m = None ∧ t' ≠ Holding ∧ mu p = Some (Worker i)) →
  awake t' ∨ queue p = [] → pool_ok (set_thread i t' m p).
Proof.
  intros Hok Hi Ht Ht' Hm Hq. pose proof Hok as [Hw Hc Hf Ho Haw Hne]. constructor; cbn; [|..|done| | |].
  - by apply holder_update.
  - rewrite <-Hc. destruct Hm as [(-> & _ & [->| ->])|[(-> & _)|(-> & _ & ->)]]; naive_solver.
  - by rewrite (jobs_same _ _ t).
  - intros H1 _. destruct Hq as [Hq|]; [|done]. by apply awake_update.
  - by apply threads_nonempty.
Qed.

Lemma worker_ok a i p p' : pool_ok p → worker a i p = Some p' → pool_ok p'.
Proof.
  intros Hok Ha. unfold worker in Ha. destruct (threads p !! i) as [t|] eqn:Hi; [|done]. cbn in Ha.
  pose proof Hok as [Hw Hc Hf Ho Haw Hne]. pose proof (Hw i) as Hwi. rewrite Hi in Hwi.
  destruct a, t as [| | | |w]; try done.
  - case_bool_decide as Hm; [|done]. injection Ha as <-. apply (set_thread_ok _ _ Locking); [done..| |by left]. by left; auto.
  - case_bool_decide as Hm; [|done]. injection Ha as <-. apply (set_thread_ok _ _ Woken); [done..| |by left]. by left; auto.
  - destruct (queue p) eqn:Hq; [|done]. injection Ha as <-. apply (set_thread_ok _ _ Holding); [done..| |by right].
    right; right. split_and!; [done..|by apply Hwi].
  - injection Ha as <-. apply (set_thread_ok _ _ Sleeping); [done..| |by left]. right; left. by rewrite Hi.
  - destruct (queue p) as [|w q] eqn:Hq; [done|]. injection Ha as <-. pose proof (proj2 Hwi eq_refl) as Hmu.
    constructor; cbn.
    + apply (holder_update p i (Running w) None Hok); [by eexists|]. right; right. by split_and!.
    + rewrite <-Hc, Hmu. split; [done|intros [=]].
    + by rewrite Hf, <-app_assoc.
    + pose proof (jobs_update (threads p) i Holding (Running w) Hi) as Hj. cbn [running] in Hj.
      rewrite app_nil_r in Hj. rewrite Hj, Ho, app_assoc. done.
    + intros _ _. by apply awake_update.
    + by apply threads_nonempty.
  - injection Ha as <-. constructor; cbn.
    + apply (holder_update p i Locking (mu p) Hok); [by eexists|]. right; left. by rewrite Hi.
    + done.
    + done.
    + pose proof (jobs_update (threads p) i (Running w) Locking Hi) as Hj. cbn [running] in Hj.
      rewrite app_nil_r in Hj. rewrite Ho, <-Hj. solve_Permutation.
    + intros _ _. by apply awake_update.
    + by apply threads_nonempty.
Qed.

Lemma thread_pool_queue_ok a p p' : pool_ok p → thread_pool_queue a p = Some p' → pool_ok p'.
Proof.
  intros Hok Ha. unfold thread_pool_queue in Ha. pose proof Hok as [Hw Hc Hf Ho Haw Hne].
  destruct a as [w| | |[i|]|], (caller p) as [|w'|w'| |] eqn:Hcl; try done.
  - injection Ha as <-. constructor; cbn; try done; [rewrite Hc; naive_solver|]. intros Hq _. by apply Haw.
  - case_bool_decide as Hm; [|done]. injection Ha as <-. constructor; cbn; try done.
    + intros i. rewrite <-Hw, Hm. done.
    + naive_solver.
    + intros Hq _. by apply Haw.
  - injection Ha as <-. constructor; cbn; try done; [rewrite Hc; naive_solver|by rewrite Hf, app_assoc].
  - case_bool_decide as Hs; [|done]. injection Ha as <-. assert (mu p = Some Caller) as Hm by (apply Hc; naive_solver).
    pose proof (set_thread_ok p i Sleeping Woken (mu p) Hok Hs eq_refl eq_refl) as Hok'.
    destruct Hok' as [Hw' Hc' Hf' Ho' Haw' Hne']; [right; left; by rewrite Hs|by left|].
    constructor; cbn; try done; [rewrite Hc; naive_solver|]. intros _ _. apply awake_update; [by eexists|done].
  - case_bool_decide as Hs; [done|]. injection Ha as <-. constructor; cbn; try done; [rewrite Hc; naive_solver|].
    intros _ _. destruct (threads p) as [|t ts]; [done|]. exists 0%nat, t. split; [done|]. intros ->. apply Hs. by left.
  - injection Ha as <-. constructor; cbn; try done.
    + intros i. rewrite <-Hw. assert (mu p = Some Caller) as -> by (apply Hc; naive_solver). done.
    + naive_solver.
    + intros Hq _. by apply Haw.
Qed.

Lemma pool_step_ok p p' : pool_ok p → pool_step p p' → pool_ok p'.
Proof. intros Hok [a i H|a _ H]; [by eapply worker_ok|by eapply thread_pool_queue_ok]. Qed.

Lemma any_step_ok p p' : pool_ok p → any_step p p' → pool_ok p'.
Proof. intros Hok [H|w H]; [by eapply pool_step_ok|by eapply thread_pool_queue_ok]. Qed.

Lemma pool_reachable_ok n p : pool_reachable n p → pool_ok p.
Proof.
  intros (p0 & Hp0%init_ok & Hsteps). induction Hsteps as [|p p1 p2 Hstep _ IH]; [done|].
  apply IH. by eapply any_step_ok.
Qed.

(** * Liveness *)

(** On every way the steps may go, a state with [P] comes, and there is a step
    until then. *)
Inductive eventually {S} (step : S → S → Prop) (P : S → Prop) (s : S) : Prop :=
| ev_now : P s → eventually step P s
| ev_later : (∃ s', step s s') → (∀ s', step s s' → eventually step P s') → eventually step P s.

(** What is left to do before the queue is empty: while it is not, each
    step takes some of it away, even a worker that wakes for no reason. *)
Definition steps_left (t : worker_state) : nat :=
  match t with Locking | Woken => 2 | Holding => 1 | Sleeping | Running _ => 3 end.
Definition calls_left (c : caller_state) : nat :=
  match c with Outside => 0 | Calling _ => 7 | Pushing _ => 6 | Signalling => 2 | Unlocking => 1 end.
Definition work_left (p : ThreadPool) : nat :=
  (3 * length (queue p) + sum_list (steps_left <$> threads p) + calls_left (caller p))%nat.

Lemma steps_left_update ts i t t' :
  ts !! i = Some t →
  (sum_list (steps_left <$> <[i := t']> ts) + steps_left t = sum_list (steps_left <$> ts) + steps_left t')%nat.
Proof.
  revert i. induction ts as [|x ts IH]; intros [|i] Hi; [done..| |].
  - injection Hi as ->. cbn. lia.
  - specialize (IH i Hi). change (steps_left x + sum_list (steps_left <$> <[i := t']> ts) + steps_left t =
      steps_left x + sum_list (steps_left <$> ts) + steps_left t')%nat. lia.
Qed.

Lemma worker_decreases a i p p' : worker a i p = Some p' → queue p ≠ [] → (work_left p' < work_left p)%nat.
Proof.
  unfold worker, work_left. intros Ha Hq. destruct (threads p !! i) as [t|] eqn:Hi; [|done]. cbn in Ha.
  pose proof (λ t', steps_left_update (threads p) i t t' Hi) as Hs.
  destruct (queue p) as [|w0 q] eqn:Hqe; [done|].
  destruct a, t as [| | | |w]; try done; try (case_bool_decide; [|done]); injection Ha as <-;
    cbn [set_thread queue threads caller]; rewrite ?Hqe;
    match goal with |- context [<[i := ?t']> _] => specialize (Hs t') end; cbn [steps_left length] in *; lia.
Qed.

Lemma caller_decreases a p p' :
  (∀ w, a ≠ CCall w) → thread_pool_queue a p = Some p' → (work_left p' < work_left p)%nat.
Proof.
  unfold thread_pool_queue, work_left. intros Hnc Ha.
  destruct a as [w| | |[i|]|]; [by destruct (Hnc w)|..]; destruct (caller p) as [|w'|w'| |]; try done;
    try (case_bool_decide; [|done]); try (case_bool_decide; [done|]); injection Ha as <-;
    cbn [set_caller set_thread queue threads caller calls_left]; rewrite ?length_app; cbn [length]; try lia.
  pose proof (steps_left_update (threads p) i Sleeping Woken ltac:(done)). cbn [steps_left] in *. lia.
Qed.

Lemma work_left_decreases p p' : pool_step p p' → queue p ≠ [] → (work_left p' < work_left p)%nat.
Proof. intros [a i H|a Hnc H] Hq; [by eapply worker_decreases|by eapply caller_decreases]. Qed.

(** The worker that has the mutex takes a job. *)
Lemma holder_pops p i : pool_ok p → queue p ≠ [] → mu p = Some (Worker i) → ∃ p', pool_step p p'.
Proof.
  intros Hok Hq Hm. apply (pk_worker p Hok) in Hm. destruct (queue p) as [|w q] eqn:Hqe; [done|].
  eexists. apply (step_worker _ _ WPop i). unfold worker. rewrite Hm, Hqe. done.
Qed.

(** While the queue is not empty some thread can move. *)
Lemma pool_progress p : pool_ok p → queue p ≠ [] → ∃ p', pool_step p p'.
Proof.
  intros Hok Hq. pose proof (pk_caller p Hok) as Hc. destruct (mu p) as [[|i]|] eqn:Hm.
  - destruct (proj1 Hc eq_refl) as [[w Hcl]|[Hcl|Hcl]].
    + eexists. apply (step_caller _ _ CPush); [done|]. unfold thread_pool_queue. by rewrite Hcl.
    + destruct (decide (Sleeping ∈ threads p)) as [Hs|Hs].
      * apply list_elem_of_lookup in Hs as [i Hi]. eexists. apply (step_caller _ _ (CSignal (Some i))); [done|].
        unfold thread_pool_queue. rewrite Hcl, bool_decide_true by done. done.
      * eexists. apply (step_caller _ _ (CSignal None)); [done|].
        unfold thread_pool_queue. rewrite Hcl, bool_decide_false by done. done.
    + eexists. apply (step_caller _ _ CUnlock); [done|]. unfold thread_pool_queue. by rewrite Hcl.
  - by eapply holder_pops.
  - destruct (pk_awake p Hok Hq) as (i & t & Hi & Ht).
    { intros Hcl. assert (None = Some Caller); [apply Hc; auto|done]. }
    destruct t as [| | | |w]; [|by apply (pk_worker p Hok) in Hi; congruence|done|..].
    + eexists. apply (step_worker _ _ WLock i). unfold worker. by rewrite Hi, Hm.
    + eexists. apply (step_worker _ _ WLock i). unfold worker. by rewrite Hi, Hm.
    + eexists. apply (step_worker _ _ WDone i). unfold worker. by rewrite Hi.
Qed.

Lemma pool_drains_lemma n : ∀ p, pool_ok p → (work_left p ≤ n)%nat →
  eventually pool_step (λ p', taken p' = given p') p.
Proof.
  assert (∀ p, pool_ok p → queue p = [] → taken p = given p) as Hdone.
  { intros p Hok Hq. by rewrite (pk_fifo p Hok), Hq, app_nil_r. }
  induction n as [|n IH]; intros p Hok Hn; (destruct (decide (queue p = [])) as [Hq|Hq]; [apply ev_now; by apply Hdone|]);
    (apply ev_later; [by apply pool_progress|]); intros p' Hstep;
    pose proof (work_left_decreases p p' Hstep Hq); [lia|].
  apply IH; [by eapply pool_step_ok|lia].
Qed.

(** ** A run to evaluate *)
Definition pool_action := (worker_action * nat + caller_action)%type.
Definition act (a : pool_action) (p : ThreadPool) : option ThreadPool :=
  match a with inl (a, i) => worker a i p | inr a => thread_pool_queue a p end.
Fixpoint run_pool (l : list pool_action) (p : ThreadPool) : option ThreadPool :=
  match l with [] => Some p | a :: l => p ← act a p; run_pool l p end.

Lemma act_step a p p' : act a p = Some p' → any_step p p'.
Proof.
  destruct a as [[a i]|a]; cbn; intros H; [by apply any_pool, (step_worker _ _ a i)|].
  destruct a; [by eapply any_call|..]; apply any_pool; (eapply step_caller; [|exact H]); done.
Qed.

Lemma run_pool_reachable n l : ∀ p p', pool_reachable n p → run_pool l p = Some p' → pool_reachable n p'.
Proof.
  induction l as [|a l IH]; intros p p' Hp; cbn; [by intros [= <-]|].
  destruct (act a p) as [p1|] eqn:Ha; [|done]. apply IH. destruct Hp as (p0 & Hp0 & Hs).
  exists p0. split; [done|]. eapply rtc_r; [exact Hs|by eapply act_step].
Qed.

(** Both workers go to sleep; one job is given and one more call has begun. *)
Definition two_jobs : list pool_action :=
  [inl (WLock, 0%nat); inl (WWait, 0%nat); inl (WLock, 1%nat); inl (WWait, 1%nat);
   inr (CCall (mkWork 1 2)); inr CLock; inr CPush; inr (CSignal (Some 1%nat)); inr CUnlock;
   inr (CCall (mkWork 1 3)); inr CLock; inr CPush].
Definition two_jobs_pool : ThreadPool :=
  mkThreadPool [mkWork 1 2; mkWork 1 3] (Some Caller) [Sleeping; Woken] Signalling [mkWork 1 2; mkWork 1 3] [] [].

Lemma two_jobs_reachable : pool_reachable 2 two_jobs_pool.
Proof.
  apply (run_pool_reachable 2 two_jobs (mkThreadPool [] None [Locking; Locking] Outside [] [] [])); [|done].
  eexists. split; [done|apply rtc_refl].
Qed.

(** * Properties *)

(** C34: the pool keeps its jobs: in every reachable state the jobs given to it are
    those taken, in the same order, and those in the queue; those taken are
    those that ended and those that the workers are at, each once; and at
    most one thread is in a critical section. *)
Theorem pool_keeps_jobs n p :
  pool_reachable n p →
  given p = taken p ++ queue p ∧ taken p ≡ₚ finished p ++ mjoin (running <$> threads p) ∧
  (∀ i j, threads p !! i = Some Holding → threads p !! j = Some Holding → i = j) ∧
  (∀ i, threads p !! i = Some Holding → caller p = Outside ∨ ∃ w, caller p = Calling w).
Proof.
  intros [Hw Hc Hf Ho _ _]%pool_reachable_ok. split_and!; [done..| |].
  - intros i j Hi%Hw Hj%Hw. congruence.
  - intros i Hi%Hw. rewrite Hi in Hc. destruct (caller p) as [|w|w| |]; [by left|right; by exists w|..];
      (assert (Some (Worker i) = Some Caller); [apply Hc; eauto|done]).
Qed.

Lemma pool_keeps_jobs_witness :
  given two_jobs_pool = taken two_jobs_pool ++ queue two_jobs_pool ∧
  taken two_jobs_pool ≡ₚ finished two_jobs_pool ++ mjoin (running <$> threads two_jobs_pool) ∧
  (∀ i j, threads two_jobs_pool !! i = Some Holding → threads two_jobs_pool !! j = Some Holding → i = j) ∧
  (∀ i, threads two_jobs_pool !! i = Some Holding → caller two_jobs_pool = Outside ∨ ∃ w, caller two_jobs_pool = Calling w).
Proof. apply (pool_keeps_jobs 2 two_jobs_pool two_jobs_reachable). Defined.

(** C35: no job is left behind: from every reachable state, whichever of the
    threads moves and however often a worker wakes for no reason, the queue runs
    empty, so that every job given was taken; no wake-up is lost and the
    threads never block each other for ever. *)
Theorem pool_takes_every_job n p :
  pool_reachable n p → eventually pool_step (λ p', taken p' = given p') p.
Proof. intros Hok%pool_reachable_ok. by apply (pool_drains_lemma (work_left p)). Qed.

Lemma pool_takes_every_job_witness : eventually pool_step (λ p', taken p' = given p') two_jobs_pool.
Proof. apply (pool_takes_every_job 2 two_jobs_pool two_jobs_reachable). Defined.
