(* ===== verification/Setup.v ===== *)
(** The system calls at the start of server.cpp and client.cpp, and the helpers
    of core/sys.cpp they use.  The kernel is a parameter: what it answers to a
    call after the calls before it.  What is printed is left out. *)
From S2P Require Import Prelude NetIO.

(** [O_NONBLOCK] on Linux. *)
Definition O_NONBLOCK : Z := Z.shiftl 1 11.

Inductive address := AnyAddress | Loopback.
Inductive syscall :=
| SysSocket
| SysReuseAddr (fd : Z)
| SysBind (fd : Z) (a : address) (port : Z)
| SysGetFlags (fd : Z)
| SysSetFlags (fd flags : Z)
| SysListen (fd : Z)
| SysAccept (fd : Z)
| SysGetSockName (fd : Z)
| SysConnect (fd : Z) (a : address) (port : Z)
| SysClose (fd : Z).
#[export] Instance address_eq_dec : EqDecision address.
Proof. solve_decision. Defined.
#[export] Instance syscall_eq_dec : EqDecision syscall.
Proof. solve_decision. Defined.

Section kernel.
(** The value of a call and [errno] after it; [errno] was 0 before. *)
Context (kernel : list syscall → syscall → Z * Z).

(** The state is the calls made so far. *)
Abbreviation KM := (M (list syscall)).
Definition sys (c : syscall) : KM (Z * Z) := λ trace, Done (kernel trace c, trace ++ [c]).

(** [die] ends in [abort()], as a failed assertion does. *)
Definition die {A} : KM A := λ _, AssertFail.

Definition fd_set_nb (fd : Z) : KM () :=
  '(flags, errno) ← sys (SysGetFlags fd);
  if negb (errno =? 0) then die
  else
    let flags := Z.lor flags O_NONBLOCK in
    '(_, errno) ← sys (SysSetFlags fd flags);
    if negb (errno =? 0) then die else mret ().

(** [main] of server.cpp, up to the event loop. *)
Definition server_setup : KM Z :=
  '(listen_fd, _) ← sys SysSocket;
  if listen_fd <? 0 then die
  else
    _ ← sys (SysReuseAddr listen_fd);
    '(rv, _) ← sys (SysBind listen_fd AnyAddress 8080);
    if negb (rv =? 0) then die
    else
      fd_set_nb listen_fd;;
      '(rv, _) ← sys (SysListen listen_fd);
      if negb (rv =? 0) then die else mret listen_fd.

(** The calls at the start of [handle_accept]: the descriptor of the new
    connection, made non-blocking, or a negative number. *)
Definition accept_nb (listen_fd : Z) : KM Z :=
  '(conn_fd, _) ← sys (SysAccept listen_fd);
  if conn_fd <? 0 then mret (-1) else fd_set_nb conn_fd;; mret conn_fd.

(** [main] of client.cpp, up to the prompt. *)
Definition client_setup : KM Z :=
  '(fd, _) ← sys SysSocket;
  if fd <? 0 then die
  else
    _ ← sys (SysReuseAddr fd);
    '(rv, _) ← sys (SysBind fd Loopback 0);
    if rv <? 0 then die
    else
      _ ← sys (SysGetSockName fd);
      '(rv, _) ← sys (SysConnect fd Loopback 8080);
      if rv <? 0 then die else mret fd.

(** * Correctness *)

(** The descriptor becomes non-blocking and its other flags stay. *)
Definition made_nb (fd : Z) (flags flags' : Z) : Prop :=
  ∀ i, 0 <= i → Z.testbit flags' i = Z.testbit flags i || (i =? 11).

Lemma lor_nonblock fd flags : made_nb fd flags (Z.lor flags O_NONBLOCK).
Proof.
  intros i Hi. rewrite Z.lor_spec. f_equal. unfold O_NONBLOCK. rewrite Z.shiftl_1_l, Z.pow2_bits_eqb by lia.
  by rewrite Z.eqb_sym.
Qed.

Lemma safely_sys {A} c (k : Z * Z → KM A) Q trace :
  (∀ rv errno, kernel trace c = (rv, errno) → safely (k (rv, errno)) Q (trace ++ [c])) → safely (sys c ≫= k) Q trace.
Proof. intros H. apply safely_bind. eapply safely_done; [done|]. destruct (kernel trace c). by apply H. Qed.
Lemma safely_die {A} (Q : A → list syscall → Prop) trace : safely die Q trace.
Proof. done. Qed.

Lemma fd_set_nb_lemma fd trace :
  safely (fd_set_nb fd) (λ _ trace', ∃ flags, trace' = trace ++ [SysGetFlags fd; SysSetFlags fd flags] ∧
    made_nb fd (kernel trace (SysGetFlags fd)).1 flags) trace.
Proof.
  unfold fd_set_nb. apply safely_sys. intros flags e ->. destruct (negb _); [apply safely_die|].
  apply safely_sys. intros rv e' _. destruct (negb _); [apply safely_die|]. apply safely_ret.
  exists (Z.lor flags O_NONBLOCK). split; [by rewrite <-app_assoc|]. apply lor_nonblock.
Qed.

(** The server that starts listens on the port, on a descriptor that does not block. *)
Lemma server_setup_listens :
  safely server_setup (λ fd trace, 0 <= fd ∧ ∃ old flags, made_nb fd old flags ∧
    trace = [SysSocket; SysReuseAddr fd; SysBind fd AnyAddress 8080; SysGetFlags fd; SysSetFlags fd flags; SysListen fd]) [].
Proof.
  unfold server_setup. apply safely_sys. intros fd e _. cbv beta match.
  destruct (Z.ltb_spec fd 0); [apply safely_die|].
  apply safely_sys. intros rv e1 _. apply safely_sys. intros rv2 e2 _. destruct (negb _); [apply safely_die|].
  apply safely_bind. eapply safely_mono; [apply fd_set_nb_lemma|]. intros [] tr (flags & -> & Hnb).
  apply safely_sys. intros rv3 e3 _. destruct (negb _); [apply safely_die|]. apply safely_ret.
  split; [done|]. by eexists _, flags.
Qed.

(** The client that starts is connected to the port of the server. *)
Lemma client_setup_connects :
  safely client_setup (λ fd trace, 0 <= fd ∧
    trace = [SysSocket; SysReuseAddr fd; SysBind fd Loopback 0; SysGetSockName fd; SysConnect fd Loopback 8080]) [].
Proof.
  unfold client_setup. apply safely_sys. intros fd e _. cbv beta match.
  destruct (Z.ltb_spec fd 0); [apply safely_die|].
  apply safely_sys. intros rv e1 _. apply safely_sys. intros rv2 e2 _. destruct (rv2 <? 0); [apply safely_die|].
  apply safely_sys. intros rv3 e3 _. apply safely_sys. intros rv4 e4 _. destruct (rv4 <? 0); [apply safely_die|].
  by apply safely_ret.
Qed.
End kernel.
