(* ===== verification/Main.v ===== *)
(** The two programs from their start: main of server.cpp with its system calls,
    the loop and the threads of the pool, and main of client.cpp. *)
From Stdlib Require Import Strings.String.
From S2P Require Import Prelude Bytes Serialize Protocol NetIO NetIOProofs Common SortedSet Commands Overruns KeySpace.
From S2P Require Import ConnProofs DList Server KeyService ConnTable ServerProofs ServerProps.
From S2P Require Import Client ClientProofs Repl ThreadPool Setup.

Open Scope list_scope.

(** * The server *)

(** The process: the calls that make and configure descriptors, the state of the
    event loop, and the pool once it was started. *)
Record Process := mkProcess {
  calls : list syscall;
  server : Server;
  workers : option ThreadPool;
}.
Abbreviation PM := (M Process).

Definition on_calls {A} : M (list syscall) A → PM A :=
  zoom calls (λ c p, mkProcess c (server p) (workers p)).
Definition on_server {A} : VM A → PM A :=
  zoom server (λ s p, mkProcess (calls p) s (workers p)).
(** A failed assertion of [thread_pool_init] stops the program. *)
Definition start_workers (n : nat) : PM () := λ p,
  match thread_pool_init n with
  | Some w => Done ((), mkProcess (calls p) (server p) (Some w))
  | None => AssertFail
  end.

(** The global [server_data] before [main]. *)
Definition process_init : Process :=
  mkProcess [] (mkServer server_init ∅ [] {[ idle_conn_list := DList.node_init ]} 0) None.

(** [errno] of an interrupted call, on Linux. *)
Definition EINTR : Z := 4.

(** What [poll] returns: an error, or the events of the listening socket and of the
    connections in the order of [poll_args]. *)
Inductive poll_result :=
| PollError (errno : Z)
| PollReady (listening : bool) (evs : list conn_event).

Section process.
Context (kernel : list syscall → syscall → Z * Z) (clock : nat → Z).

(** [main] up to the loop. *)
Definition server_boot : PM Z :=
  on_server (on_idle (DList.dlist_init idle_conn_list));;
  start_workers 4;;
  on_calls (server_setup kernel).

(** The body of [while (true)]. *)
Definition server_turn (listen_fd : Z) (r : poll_result) : PM () :=
  p ← get_state;
  let args := poll_args (server p) in
  timeout_ms ← on_server (next_timer_ms clock);
  match r with
  | PollError errno => if errno =? EINTR then mret () else on_calls die
  | PollReady listening evs =>
      (if listening : bool then
         conn_fd ← on_calls (accept_nb kernel listen_fd);
         _ ← on_server (handle_accept clock conn_fd);
         mret ()
       else mret ());;
      on_server (serve_fds clock (zip (fst <$> args) evs));;
      on_server (process_timers clock)
  end.

(** The loop goes on as long as [poll] returns. *)
Fixpoint server_loop (listen_fd : Z) (rs : list poll_result) : PM () :=
  match rs with
  | [] => mret ()
  | r :: rs => server_turn listen_fd r;; server_loop listen_fd rs
  end.

Definition server_main (rs : list poll_result) : PM () :=
  listen_fd ← server_boot;
  server_loop listen_fd rs.
End process.

(** * Correctness of the server process *)
Section process_proofs.
Context (kernel : list syscall → syscall → Z * Z) (clock : nat → Z).
Context (Hmono : ∀ n m, (n ≤ m)%nat → clock n <= clock m) (Hrange : ∀ n, 0 <= clock n < 2 ^ 62).

(** ** Descriptors *)

(** Whether the calls [c], after the calls [pre], leave the descriptor [fd]
    non-blocking: [accept] returns one that blocks, and [fcntl] changes it. *)
Fixpoint nonblocking_after (pre c : list syscall) (fd : Z) (b : bool) : bool :=
  match c with
  | [] => b
  | x :: c =>
      nonblocking_after (pre ++ [x]) c fd
        (match x with
         | SysAccept _ => if (kernel pre x).1 =? fd then false else b
         | SysSetFlags fd' flags => if fd' =? fd then Z.testbit flags 11 else b
         | _ => b
         end)
  end.
Definition nonblocking (c : list syscall) (fd : Z) : bool := nonblocking_after [] c fd false.

Lemma nonblocking_after_app c1 : ∀ pre c2 fd b,
  nonblocking_after pre (c1 ++ c2) fd b = nonblocking_after (pre ++ c1) c2 fd (nonblocking_after pre c1 fd b).
Proof.
  induction c1 as [|x c1 IH]; intros pre c2 fd b; cbn [app nonblocking_after]; [by rewrite app_nil_r|].
  by rewrite IH, <-app_assoc.
Qed.
Lemma nonblocking_app c1 c2 fd : nonblocking (c1 ++ c2) fd = nonblocking_after c1 c2 fd (nonblocking c1 fd).
Proof. unfold nonblocking. by rewrite nonblocking_after_app. Qed.

(** What [accept_nb] does. *)
Record accepts_nb (listen_fd : Z) (c : list syscall) (fd : Z) (c' : list syscall) : Prop := {
  ac_fd : fd = -1 ∧ (kernel c (SysAccept listen_fd)).1 < 0 ∨ 0 <= fd ∧ fd = (kernel c (SysAccept listen_fd)).1;
  ac_prefix : c `prefix_of` c';
  ac_new : 0 <= fd → nonblocking c' fd = true;
  ac_other : ∀ fd', 0 <= fd' → fd' ≠ fd → nonblocking c' fd' = nonblocking c fd';
}.

Lemma accept_nb_lemma listen_fd c : safely (accept_nb kernel listen_fd) (accepts_nb listen_fd c) c.
Proof.
  unfold accept_nb. apply safely_sys. intros fd e Hk.
  assert ((kernel c (SysAccept listen_fd)).1 = fd) as Hfd by by rewrite Hk.
  cbv beta match. destruct (Z.ltb_spec fd 0) as [Hneg|Hpos].
  - apply safely_ret. constructor; [by left; rewrite Hfd|by apply prefix_app_r|done|].
    intros fd' H0 _. rewrite nonblocking_app. cbn [nonblocking_after]. rewrite Hfd. by rewrite (proj2 (Z.eqb_neq _ _)) by lia.
  - apply safely_bind. eapply safely_mono; [apply fd_set_nb_lemma|]. intros [] c' (flags & -> & Hnb).
    apply safely_ret. rewrite <-app_assoc. cbn [app]. constructor; [by right|by apply prefix_app_r| |].
    + intros _. rewrite nonblocking_app. cbn [nonblocking_after]. rewrite Z.eqb_refl. rewrite (Hnb 11) by lia. by rewrite orb_true_r.
    + intros fd' H0 Hne. rewrite nonblocking_app. cbn [nonblocking_after]. rewrite Hfd. by rewrite (proj2 (Z.eqb_neq _ _)) by done.
Qed.

(** ** A turn of the process is a turn of the loop *)
Abbreviation answer_of acc evs := (Some (mkPollAnswer acc evs)).

(** The run of [loop_iteration] as a run of the process. *)
Definition as_turn (P : Process) (c : list syscall) (o : outcome (Z * Server)) : outcome (() * Process) :=
  match o with
  | Done (_, s) => Done ((), mkProcess c s (workers P))
  | AssertFail => AssertFail
  | Undefined => Undefined
  | OutOfFuel => OutOfFuel
  end.

Lemma server_turn_accepts listen_fd evs P fd c :
  server_inv clock (server P) → accept_nb kernel listen_fd (calls P) = Done (fd, c) →
  server_turn kernel clock listen_fd (PollReady true evs) P = as_turn P c (loop_iteration clock (answer_of (Some fd) evs) (server P)).
Proof using Hmono Hrange.
  intros Hinv Hacc. pose proof (next_timer_quiet clock Hmono Hrange _ Hinv) as Hq. apply wp_inv in Hq as (t & s1 & Hq & ->).
  unfold server_turn, loop_iteration, as_turn, on_server, on_calls, mbind, M_bind, zoom, get_state, mret, M_ret.
  cbn [accepted events server calls workers]. rewrite Hq. cbn [server calls workers]. rewrite Hacc. cbn [server calls workers].
  destruct (handle_accept clock fd _) as [[r s2]| | |]; [|done..]. cbn [server calls workers].
  destruct (serve_fds clock _ s2) as [[u s3]| | |]; [|done..]. cbn [server calls workers].
  by destruct (process_timers clock s3) as [[[] s4]| | |].
Qed.

Lemma server_turn_dies listen_fd evs P :
  server_inv clock (server P) → accept_nb kernel listen_fd (calls P) = AssertFail →
  server_turn kernel clock listen_fd (PollReady true evs) P = AssertFail.
Proof using Hmono Hrange.
  intros Hinv Hacc. pose proof (next_timer_quiet clock Hmono Hrange _ Hinv) as Hq. apply wp_inv in Hq as (t & s1 & Hq & ->).
  unfold server_turn, on_server, on_calls, mbind, M_bind, zoom, get_state.
  cbn [server calls workers]. rewrite Hq. cbn [server calls workers]. by rewrite Hacc.
Qed.

Lemma server_turn_serves listen_fd evs P :
  server_inv clock (server P) →
  server_turn kernel clock listen_fd (PollReady false evs) P = as_turn P (calls P) (loop_iteration clock (answer_of None evs) (server P)).
Proof using Hmono Hrange.
  intros Hinv. pose proof (next_timer_quiet clock Hmono Hrange _ Hinv) as Hq. apply wp_inv in Hq as (t & s1 & Hq & ->).
  unfold server_turn, loop_iteration, as_turn, on_server, on_calls, mbind, M_bind, zoom, get_state, mret, M_ret.
  cbn [accepted events server calls workers]. rewrite Hq. cbn [server calls workers].
  destruct (serve_fds clock _ _) as [[u s3]| | |]; [|done..]. cbn [server calls workers].
  by destruct (process_timers clock s3) as [[[] s4]| | |].
Qed.

(** An error of [poll] stops the server, an interruption does not. *)
Lemma server_turn_error listen_fd e P :
  server_inv clock (server P) →
  server_turn kernel clock listen_fd (PollError e) P =
  if e =? EINTR then as_turn P (calls P) (loop_iteration clock None (server P)) else AssertFail.
Proof using Hmono Hrange.
  intros Hinv. pose proof (next_timer_quiet clock Hmono Hrange _ Hinv) as Hq. apply wp_inv in Hq as (t & s1 & Hq & ->).
  unfold server_turn, loop_iteration, as_turn, on_server, on_calls, mbind, M_bind, zoom, get_state, mret, M_ret.
  cbn [server calls workers]. rewrite Hq. cbn [server calls workers]. by destruct (e =? EINTR).
Qed.

(** ** Runs of the process

    What the kernel promises: [accept] returns no descriptor that is open. *)
Definition accept_fresh (listen_fd : Z) (P : Process) : Prop :=
  ¬ open_fd (server P) (kernel (calls P) (SysAccept listen_fd)).1.

(** The loop makes a turn, or a worker of the pool a step. *)
Inductive process_step (listen_fd : Z) (P : Process) : Process → Prop :=
| step_turn r P' :
    accept_fresh listen_fd P → server_turn kernel clock listen_fd r P = Done ((), P') → process_step listen_fd P P'
| step_thread a i w w' :
    workers P = Some w → worker a i w = Some w' →
    process_step listen_fd P (mkProcess (calls P) (server P) (Some w')).

Definition process_reachable (listen_fd : Z) (P : Process) : Prop :=
  ∃ P0, server_boot kernel process_init = Done (listen_fd, P0) ∧ rtc (process_step listen_fd) P0 P.

(** The calls of [server_setup]. *)
Definition listens (listen_fd : Z) (c : list syscall) : Prop :=
  0 <= listen_fd ∧ ∃ flags, Z.testbit flags 11 = true ∧
    [SysSocket; SysReuseAddr listen_fd; SysBind listen_fd AnyAddress 8080;
     SysGetFlags listen_fd; SysSetFlags listen_fd flags; SysListen listen_fd] `prefix_of` c.

(** No job was given to the pool. *)
Definition pool_idle (P : Process) : Prop := ∃ w, workers P = Some w ∧ pool_ok w ∧ given w = [].

Record process_ok (listen_fd : Z) (P : Process) : Prop := {
  pr_server : reachable clock (server P);
  pr_listen : listens listen_fd (calls P);
  pr_conns : ∀ fd cn, 0 <= fd → conn_at (server P) fd = Some cn → nonblocking (calls P) fd = true;
  pr_pool : pool_idle P;
}.

Lemma server_boot_ok : safely (server_boot kernel) process_ok process_init.
Proof using Type.
  unfold server_boot. apply safely_bind. eapply safely_done; [reflexivity|].
  apply safely_bind. eapply safely_done; [reflexivity|]. apply safely_zoom.
  eapply safely_mono; [apply server_setup_listens|]. intros fd c (H0 & old & flags & Hnb & ->).
  cbn [calls server workers process_init]. constructor; cbn [calls server workers].
  - apply rtc_refl.
  - split; [done|]. exists flags. split; [|done]. rewrite (Hnb 11) by lia. by rewrite orb_true_r.
  - by intros fd' cn _ [=].
  - eexists. split; [done|]. split; [by apply (init_ok 4)|done].
Qed.

(** A turn of the loop opens no descriptor but the accepted one. *)
Lemma turn_opens s s' acc evs timeout_ms fd cn :
  reachable clock s → kernel_ok s (answer_of acc evs) → loop_iteration clock (answer_of acc evs) s = Done (timeout_ms, s') →
  0 <= fd → conn_at s' fd = Some cn → is_Some (conn_at s fd) ∨ acc = Some fd.
Proof using Hmono Hrange.
  intros Hs Hk Hrun Hfd Hcn. pose proof (reachable_inv clock Hmono Hrange s Hs) as Hinv. pose proof Hinv as [[a Ha] _ _].
  pose proof (loop_iteration_ends clock Hmono Hrange s a _ Hinv Ha Hk) as H. unfold ends in H. rewrite Hrun in H.
  destruct H as (_ & _ & outs & t & a1 & _ & _ & _ & Htc & _). specialize (Htc fd Hfd). rewrite Hcn in Htc.
  destruct (conn_at s fd); [by left; eexists|]. by right; destruct Htc.
Qed.

(** The requests that the connections receive when [poll] returns. *)
Definition polled_requests (s : Server) (r : poll_result) : list bytes :=
  match r with PollReady _ evs => turn_requests s (answer_of None evs) | PollError _ => [] end.

(** A run of the loop keeps the process in order, if what was accepted is
    non-blocking. *)
Lemma as_turn_ok listen_fd P c acc evs :
  process_ok listen_fd P → kernel_ok (server P) (answer_of acc evs) → calls P `prefix_of` c →
  (∀ fd, 0 <= fd → acc = Some fd → nonblocking c fd = true) →
  (∀ fd, 0 <= fd → acc ≠ Some fd → nonblocking c fd = nonblocking (calls P) fd) →
  ∀ Q, as_turn P c (loop_iteration clock (answer_of acc evs) (server P)) = Q →
  match Q with
  | Done (_, P') => process_ok listen_fd P' ∧ past_by (turn_requests (server P) (answer_of acc evs)) (sdata (server P)) (sdata (server P'))
  | AssertFail => True
  | _ => False
  end.
Proof using Hmono Hrange.
  intros [Hs (H0 & flags & Hnb & Hl) Hc Hp] Hk Hpre Hnew Hold Q <-.
  pose proof (loop_iteration_safely clock Hmono Hrange _ _ (reachable_inv clock Hmono Hrange _ Hs) Hk) as Hsafe.
  unfold safely in Hsafe. unfold as_turn.
  destruct (loop_iteration clock _ (server P)) as [[t s']| | |] eqn:Hrun; [|done..].
  split; [|apply Hsafe]. constructor; cbn [calls server workers].
  - eapply rtc_r; [exact Hs|]. by exists (answer_of acc evs), t.
  - split; [done|]. exists flags. split; [done|]. by etransitivity.
  - intros fd cn Hfd Hcn. destruct (decide (acc = Some fd)) as [Hacc|Hne]; [by apply Hnew|].
    rewrite Hold by done. destruct (turn_opens _ _ _ _ _ fd cn Hs Hk Hrun Hfd Hcn) as [[cn' Hcn']|?]; [by eapply Hc|done].
  - done.
Qed.

Lemma server_turn_ok listen_fd r P :
  process_ok listen_fd P → accept_fresh listen_fd P →
  safely (server_turn kernel clock listen_fd r) (λ _ P', process_ok listen_fd P' ∧
    past_by (polled_requests (server P) r) (sdata (server P)) (sdata (server P'))) P.
Proof using Hmono Hrange.
  intros Hok Hfresh. pose proof (reachable_inv clock Hmono Hrange _ (pr_server _ _ Hok)) as Hinv. unfold safely.
  destruct r as [e|[|] evs].
  - rewrite server_turn_error by done. destruct (e =? EINTR); [|done].
    pose proof (loop_interrupted clock Hmono Hrange _ Hinv) as H. apply wp_inv in H as (t & s' & Hrun & ->).
    rewrite Hrun. cbn [as_turn]. split; [|by apply past_by_eq]. destruct Hok as [Hs Hl Hc Hp]. constructor; cbn [calls server workers]; [|done..].
    eapply rtc_r; [exact Hs|]. by exists None, t.
  - pose proof (accept_nb_lemma listen_fd (calls P)) as Hacc. unfold safely in Hacc.
    destruct (accept_nb kernel listen_fd (calls P)) as [[fd c]| | |] eqn:Hrun; [|by rewrite server_turn_dies|done..].
    rewrite (server_turn_accepts _ _ _ fd c) by done. destruct Hacc as [Hfd Hpre Hnew Hother].
    change (polled_requests (server P) (PollReady true evs)) with (turn_requests (server P) (answer_of (Some fd) evs)).
    eapply (as_turn_ok listen_fd P c (Some fd) evs); [done| |done| | |reflexivity].
    + intros fd' [= <-]. destruct Hfd as [[-> _]|[_ ->]]; [intros [? _]; lia|exact Hfresh].
    + intros fd' H0 [= <-]. by apply Hnew.
    + intros fd' H0 Hne. apply Hother; [done|]. congruence.
  - rewrite server_turn_serves by done.
    by eapply (as_turn_ok listen_fd P (calls P) None evs); [..|reflexivity].
Qed.

Lemma worker_given a i w w' : worker a i w = Some w' → given w' = given w.
Proof using Type.
  unfold worker. destruct (threads w !! i) as [t|]; [|done]. cbn.
  destruct a, t; try done; repeat case_match; by intros [= <-].
Qed.

Lemma process_step_ok listen_fd P P' : process_ok listen_fd P → process_step listen_fd P P' → process_ok listen_fd P'.
Proof using Hmono Hrange.
  intros Hok Hstep. destruct Hstep as [r P' Hfresh Hrun|a i w w' Hw Hwork].
  - pose proof (server_turn_ok listen_fd r P Hok Hfresh) as H. unfold safely in H. rewrite Hrun in H. apply H.
  - destruct Hok as [? ? ? (w0 & Hw0 & Hp & Hg)]. assert (w0 = w) as -> by congruence.
    constructor; cbn [calls server workers]; [done..|]. exists w'. split; [done|].
    split; [by eapply worker_ok|]. by rewrite (worker_given _ _ _ _ Hwork).
Qed.

Lemma process_reachable_ok listen_fd P : process_reachable listen_fd P → process_ok listen_fd P.
Proof using Hmono Hrange.
  intros (P0 & Hboot & Hsteps). pose proof server_boot_ok as H. unfold safely in H. rewrite Hboot in H.
  clear Hboot. induction Hsteps as [|P P1 P2 Hstep _ IH]; [done|]. by apply IH, (process_step_ok _ P).
Qed.

Lemma idle_pool w : pool_ok w → given w = [] → queue w = [] ∧ mjoin (running <$> threads w) = [].
Proof using Type.
  intros Hok Hg. pose proof (pk_fifo w Hok) as Hf. rewrite Hg in Hf. symmetry in Hf. apply app_eq_nil in Hf as [Ht ->].
  split; [done|]. pose proof (pk_once w Hok) as Ho. rewrite Ht in Ho. apply Permutation_nil in Ho.
  by apply app_eq_nil in Ho as [_ ->].
Qed.
End process_proofs.

(** * The client *)
Record ClientProcess := mkClientProcess { client_calls : list syscall; client : Client }.
Definition on_client_calls {A} : M (list syscall) A → M ClientProcess A :=
  zoom client_calls (λ c p, mkClientProcess c (client p)).
Definition on_client {A} : M Client A → M ClientProcess A :=
  zoom client (λ c p, mkClientProcess (client_calls p) c).

(** [main] of client.cpp; every way out of the loop goes through [L_DONE]. *)
Definition client_program (kernel : list syscall → syscall → Z * Z) : M ClientProcess Z :=
  fd ← on_client_calls (client_setup kernel);
  on_client client_main;;
  _ ← on_client_calls (sys kernel (SysClose fd));
  mret 0.

(** ** Termination

    [upto U E m Q]: the run of [m] ends in [Q], or with an undefined behaviour that
    the proposition [U] explains, or with the end of the process that [E] explains. *)
Definition upto {S A} (U E : Prop) (m : M S A) (Q : A → S → Prop) (σ : S) : Prop :=
  match m σ with Done (a, σ') => Q a σ' | Undefined => U | AssertFail => E | OutOfFuel => False end.

Section upto.
Context {S : Type} (U E : Prop).
Lemma upto_ret {A} (a : A) (Q : A → S → Prop) σ : Q a σ → upto U E (mret a) Q σ.
Proof. done. Qed.
Lemma upto_bind {A B} (m : M S A) (f : A → M S B) (Q : B → S → Prop) σ :
  upto U E m (λ a, upto U E (f a) Q) σ → upto U E (m ≫= f) Q σ.
Proof. unfold upto, mbind, M_bind. by destruct (m σ) as [[]| | |]. Qed.
Lemma upto_mono {A} (m : M S A) (P Q : A → S → Prop) (U' E' : Prop) σ :
  upto U' E' m P σ → (U' → U) → (E' → E) → (∀ a σ', P a σ' → Q a σ') → upto U E m Q σ.
Proof. unfold upto. destruct (m σ) as [[]| | |]; naive_solver. Qed.
Lemma upto_wp {A} (m : M S A) (Q : A → S → Prop) σ : wp m Q σ → upto U E m Q σ.
Proof. unfold upto, wp. by destruct (m σ) as [[]| | |]. Qed.
Lemma upto_zoom {T A} (get : S → T) (put : T → S → S) (m : M T A) (Q : A → S → Prop) s :
  upto U E m (λ a t, Q a (put t s)) (get s) → upto U E (zoom get put m) Q s.
Proof. unfold upto, zoom. by destruct (m (get s)) as [[]| | |]. Qed.
End upto.

(** After some complete frames the stream has the frame of a response that is
    empty, or has a string of which the length wraps around. *)
Definition hostile_stream (stream : bytes) : Prop :=
  ∃ ps payload post, stream = concat (frame <$> ps) ++ frame payload ++ post ∧ (payload = [] ∨ wraps payload).

Lemma hostile_after p stream : hostile_stream stream → hostile_stream (frame p ++ stream).
Proof.
  intros (ps & payload & post & -> & Hp). exists (p :: ps), payload, post. split; [|done].
  rewrite fmap_cons. cbn [concat]. by rewrite <-!app_assoc.
Qed.

(** [read_all] ends for every stream, with the bytes at its head or with an
    error. *)
Lemma read_all_loop_ends fuel : ∀ n buf s,
  (Z.to_nat n ≤ fuel)%nat → 0 <= n < 2 ^ 64 →
  wp (read_all_loop fuel n buf)
    (λ r s', r.1 = 0 ∧ blen r.2 = blen buf + n ∧ r.2 ++ concat s' = buf ++ concat s ∨ r.1 = -1) s.
Proof.
  induction fuel as [|fuel IH]; intros n buf s Hf Hn; cbn [read_all_loop];
    (destruct (Z.gtb_spec n 0) as [Hn0|]; [|apply wp_ret; left; split_and!; [done|cbn; lia|done]]); [lia|].
  apply wp_bind. unfold sys_read, wp at 1.
  assert (∀ bs s', blen bs <= n → bs ++ concat s' = concat s → wp (if blen bs <=? 0 then mret (-1, buf)
    else assert_ (blen bs <=? n);; read_all_loop fuel (u64 (n - blen bs)) (buf ++ bs))
    (λ r s', r.1 = 0 ∧ blen r.2 = blen buf + n ∧ r.2 ++ concat s' = buf ++ concat s ∨ r.1 = -1) s') as Hbs.
  { intros bs s' Hle Hcat. destruct (Z.leb_spec (blen bs) 0); [apply wp_ret; by right|].
    apply wp_bind, wp_assert; [by apply Z.leb_le|]. rewrite u64_id by lia.
    eapply wp_mono; [apply IH; lia|]. intros r s'' [(-> & Hr & Hc)|Hr]; [left|by right].
    rewrite Hr, Hc, blen_app, <-Hcat, <-app_assoc. split_and!; [done|lia|done]. }
  destruct s as [|c s]; [apply Hbs; [change (0 <= n); lia|done]|]. apply Hbs.
  - unfold blen. rewrite length_take. lia.
  - cbn [concat]. destruct (Z.leb_spec (blen c) n); cbn [concat]; [|by rewrite app_assoc, take_drop].
    rewrite take_ge; [done|]. unfold blen in *. lia.
Qed.

(** The answers of the socket are used up one after the other. *)
Lemma write_all_loop_accepts fuel : ∀ data s rc s',
  write_all_loop fuel data s = Done (rc, s') → accepts s' ⊆ accepts s.
Proof.
  induction fuel as [|fuel IH]; intros data s rc s'; cbn [write_all_loop];
    (destruct (blen data >? 0); [|intros [= _ <-]; set_solver]); [done|].
  intros (rv & s1 & Hw & H)%bind_inv. assert (accepts s1 ⊆ accepts s) as Hs1.
  { destruct s as [[|n ns] snt]; unfold sys_write in Hw; cbn [accepts sent] in *; [injection Hw as _ <-; set_solver|].
    destruct (n =? - EPIPE); [done|]. destruct (n <? 0); injection Hw as _ <-; set_solver. }
  destruct (rv <=? 0); [by injection H as _ <-; set_solver|]. apply bind_inv in H as ([] & s2 & Ha & H).
  unfold assert_ in Ha. destruct (_ <=? _); [|done]. injection Ha as <-. apply IH in H. set_solver.
Qed.

Lemma send_request_ends U cmd s :
  upto U (- EPIPE ∈ accepts s) (send_request cmd) (λ _ s', accepts s' ⊆ accepts s) s.
Proof.
  unfold send_request. destruct (_ >? _); [apply upto_ret; set_solver|]. unfold write_all, upto.
  set (data := append_buffer _ _). pose proof (write_all_loop_spec (length data) data s (le_n _)) as [[-> Hin]|(rc & s' & Hrun & _)]; [done|].
  rewrite Hrun. by eapply write_all_loop_accepts.
Qed.

(** The stream that the client has not read. *)
Definition stream (s : client_state) : bytes := concat (cl_in s).

Lemma read_response_upto s :
  upto (hostile_stream (stream s)) False read_response (λ rv s', rv < 0 ∨ ∃ p, stream s = frame p ++ stream s') s.
Proof.
  assert (∀ U n s, 0 <= n <= k_max_msg → upto U False (in_socket (read_all n))
    (λ r s', r.1 = 0 ∧ blen r.2 = n ∧ stream s = r.2 ++ stream s' ∨ r.1 = -1) s) as Hread.
  { intros U n s' Hn. apply upto_zoom, upto_wp. eapply wp_mono; [apply read_all_loop_ends; [done|]|].
    - unfold k_max_msg in Hn. change (Z.shiftl 32 20) with 33554432 in Hn. lia.
    - intros r i [(H1 & H2 & H3)|H]; [by left|by right]. }
  assert (∀ U rc (Q : Z → client_state → Prop) s, (∀ s', Q rc s') →
    upto U False (in_log (print PMsg);; (mret rc : M client_state Z)) Q s) as Hfail by (intros U rc Q s' HQ; apply HQ).
  unfold read_response. apply upto_bind. eapply upto_mono; [apply (Hread False 4); by split; apply Z.leb_le|done..|].
  intros [err header] s1 Hh. cbn [fst snd] in Hh. destruct (Z.eqb_spec err 0) as [->|Herr]; cbn [negb].
  2: { apply Hfail. left. lia. }
  destruct Hh as [(_ & Hh & Hs1)|[=]].
  destruct (Z.gtb_spec (le_Z header) k_max_msg) as [|Hle]; [apply Hfail; left; lia|]. pose proof (le_Z_range header).
  apply upto_bind. eapply upto_mono; [apply (Hread False); lia|done..|].
  intros [err payload] s2 Hp. cbn [fst snd] in Hp. destruct (Z.eqb_spec err 0) as [->|Herr]; cbn [negb].
  2: { apply Hfail. left. lia. }
  destruct Hp as [(_ & Hp & Hs2)|[=]].
  assert (stream s = frame payload ++ stream s2) as Hstream.
  { unfold frame. rewrite Hs1, Hs2, Hp, <-app_assoc. f_equal.
    rewrite <-(le_bytes_Z header) at 1. f_equal. unfold blen in Hh. lia. }
  assert (payload = [] ∨ wraps payload → hostile_stream (stream s)) as Hhost.
  { intros Hb. exists [], payload, (stream s2). by split. }
  destruct (Z.eqb_spec (le_Z header) 0) as [H0|_].
  { unfold upto, undefined. apply Hhost. left. apply nil_length_inv. unfold blen in Hp. lia. }
  apply upto_bind, upto_zoom. eapply upto_mono with (U' := wraps payload) (P := λ _ _, True); [|auto|done|].
  - pose proof (print_response_bounded (length payload) payload (cl_log s2) (le_n _)) as H'. unfold upto, print_response.
    unfold k_max_msg in Hle. change (Z.shiftl 32 20) with 33554432 in Hle. specialize (H' ltac:(lia)).
    by destruct (print_response_loop _ _ _) as [[rv lg]| | |].
  - intros rv log _. destruct (_ && _); [apply Hfail; left; lia|]. right. by exists payload.
Qed.

Lemma repl_upto fuel : ∀ c, (length (stdin c) ≤ fuel)%nat →
  upto (hostile_stream (stream (cstate c))) (- EPIPE ∈ accepts (csock c)) (repl fuel) (λ _ _, True) c.
Proof.
  induction fuel as [|fuel IH]; intros c Hf; pose proof (getline_lemma (stdin c)) as Hg; cbn [repl];
    (apply upto_bind, upto_zoom, upto_zoom, upto_ret; apply upto_bind, upto_zoom; unfold upto at 1; cbn [stdin];
     destruct (lines (stdin c)) as [|l ls]; [by rewrite Hg|]; destruct Hg as (input & Hg & _ & Hlen)); [lia|].
  rewrite Hg. set (c0 := mkClient input _ _).
  assert (∀ s t, accepts s ⊆ accepts (csock c) → (hostile_stream (stream t) → hostile_stream (stream (cstate c))) →
    upto (hostile_stream (stream (cstate c))) (- EPIPE ∈ accepts (csock c)) (repl fuel) (λ _ _, True) (mkClient input s t)) as Hrest.
  { intros s t Hs Ht. eapply upto_mono; [apply IH; cbn; lia|exact Ht|apply Hs|done]. }
  case_bool_decide; [by apply Hrest|]. destruct (tokenize l) as [|w ws]; [by apply Hrest|].
  destruct (_ || _); [done|]. apply upto_bind, upto_zoom.
  eapply upto_mono; [apply (send_request_ends False)|done|done|]. intros err s Hs.
  destruct (negb (err =? 0)); [done|]. apply upto_bind, upto_zoom.
  eapply upto_mono; [apply read_response_upto|done|done|]. intros err2 t Ht.
  destruct (Z.ltb_spec err2 0); [done|]. apply Hrest; [done|]. destruct Ht as [Ht|[p Ht]]; [lia|].
  intros Hh. change (stream (cstate c)) with (stream (cstate c0)). cbn [cstate csock c0] in *.
  rewrite Ht. by apply hostile_after.
Qed.

(** ** Runs to evaluate *)

(** A kernel that gives out descriptors from 5. *)
Definition example_kernel (trace : list syscall) (c : syscall) : Z * Z :=
  match c with
  | SysSocket => (3, 0)
  | SysAccept _ => (5 + Z.of_nat (length (List.filter (λ x, match x with SysAccept _ => true | _ => false end) trace)), 0)
  | SysGetFlags _ => (2, 0)
  | _ => (0, 0)
  end.

Definition accept_freshb (kernel : list syscall → syscall → Z * Z) (listen_fd : Z) (P : Process) : bool :=
  let fd := (kernel (calls P) (SysAccept listen_fd)).1 in
  (fd <? 0) || bool_decide (mjoin (fd2conn (server P) !! Z.to_nat fd) = None).
Lemma accept_freshb_true kernel listen_fd P : accept_freshb kernel listen_fd P = true → accept_fresh kernel listen_fd P.
Proof.
  unfold accept_freshb, accept_fresh. intros [?|H%bool_decide_eq_true]%orb_true_iff [Hfd [c Hc]]; [lia|]. by rewrite Hc in H.
Qed.

(** Turns of the loop and steps of the workers. *)
Fixpoint run_process kernel clock (listen_fd : Z) (l : list (poll_result + worker_action * nat)) (P : Process) : option Process :=
  match l with
  | [] => Some P
  | inl r :: l =>
      if accept_freshb kernel listen_fd P then
        match server_turn kernel clock listen_fd r P with
        | Done (_, P) => run_process kernel clock listen_fd l P
        | _ => None
        end
      else None
  | inr (a, i) :: l =>
      w ← workers P;
      w ← worker a i w;
      run_process kernel clock listen_fd l (mkProcess (calls P) (server P) (Some w))
  end.

Lemma run_process_reachable kernel clock listen_fd l : ∀ P P',
  process_reachable kernel clock listen_fd P → run_process kernel clock listen_fd l P = Some P' →
  process_reachable kernel clock listen_fd P'.
Proof.
  assert (∀ P P', process_reachable kernel clock listen_fd P → process_step kernel clock listen_fd P P' →
    process_reachable kernel clock listen_fd P') as Hstep.
  { intros P P' (P0 & Hboot & Hsteps) Hs. exists P0. split; [done|]. by eapply rtc_r. }
  induction l as [|[r|[a i]] l IH]; intros P P' HP; cbn [run_process]; [by intros [= <-]|..].
  - destruct (accept_freshb kernel listen_fd P) eqn:Hf; [|done].
    destruct (server_turn kernel clock listen_fd r P) as [[[] P1]| | |] eqn:Hrun; [|done..].
    apply IH. eapply Hstep; [exact HP|]. eapply step_turn; [by apply accept_freshb_true|exact Hrun].
  - destruct (workers P) as [w|] eqn:Hw; [|done]. cbn. destruct (worker a i w) as [w'|] eqn:Ha; [|done]. cbn.
    apply IH. eapply Hstep; [exact HP|]. by eapply step_thread.
Qed.

Definition booted : Process :=
  match server_boot example_kernel process_init with Done (_, P) => P | _ => process_init end.
Lemma booted_reachable clock : process_reachable example_kernel clock 3 booted.
Proof. exists booted. split; [vm_compute; reflexivity|apply rtc_refl]. Qed.

(** A client connects and sends a request; a worker goes to sleep; a signal comes. *)
Definition process_run : list (poll_result + worker_action * nat) :=
  [inl (PollReady true []); inr (WLock, 2%nat);
   inl (PollReady false [input (requests_bytes [[str "set"; str "k"; str "v"]])]); inr (WWait, 2%nat); inl (PollError EINTR)].

(** * Properties *)

(** C6: the server from its start: after main has started the pool and listens,
    with any kernel whose accept returns no descriptor that is open, whatever
    poll returns and however the workers are scheduled, the loop is in a state
    to which its other properties apply, the descriptor of every connection
    does not block, the pool has no job; and the next turn of main ends, and leads to
    such a state unless the program aborts or is ended by SIGPIPE. Its only undefined
    behaviour is the write of a terminator past the block of a member: those of the
    turn ([overruns]) are some of the ones of the ZADD requests that the connections
    receive in it, in order, one each at most. What such a write does to the memory
    is not modelled: the run goes on as if no object had that byte. *)
Theorem server_process_safe kernel clock (Hmono : ∀ n m, (n ≤ m)%nat → clock n <= clock m)
    (Hrange : ∀ n, 0 <= clock n < 2 ^ 62) listen_fd P :
  process_reachable kernel clock listen_fd P →
  reachable clock (server P) ∧ listens listen_fd (calls P) ∧
  (∀ fd cn, 0 <= fd → conn_at (server P) fd = Some cn → nonblocking kernel (calls P) fd = true) ∧
  (pool (sdata (server P)) = [] ∧ ∃ w, workers P = Some w ∧ queue w = [] ∧ mjoin (running <$> threads w) = []) ∧
  ∀ r, accept_fresh kernel listen_fd P →
    safely (server_turn kernel clock listen_fd r) (λ _ P', process_reachable kernel clock listen_fd P' ∧
      ∃ l, overruns (zheap (sdata (server P'))) = overruns (zheap (sdata (server P))) ++ l ∧
        l `sublist_of` terminators (polled_requests (server P) r)) P.
Proof.
  intros HP. pose proof (process_reachable_ok kernel clock Hmono Hrange listen_fd P HP) as Hok.
  pose proof Hok as [Hs Hl Hc (w & Hw & Hp & Hg)]. split_and!; [done..| | |].
  - pose proof (reachable_inv clock Hmono Hrange _ Hs) as [[a [(xs & F & Hso & _) _]] _ _]. apply (so_parts _ _ _ Hso).
  - exists w. split; [done|]. by apply idle_pool.
  - intros r Hf. pose proof (server_turn_ok kernel clock Hmono Hrange listen_fd r P Hok Hf) as H. unfold safely in *.
    destruct (server_turn kernel clock listen_fd r P) as [[[] P']| | |] eqn:Hrun; [|done..].
    split; [|apply H]. destruct HP as (P0 & Hboot & Hsteps). exists P0. split; [done|]. eapply rtc_r; [exact Hsteps|]. by eapply step_turn.
Qed.

Lemma server_process_safe_witness :
  ∃ P cn, run_process example_kernel minute 3 process_run booted = Some P ∧ conn_at (server P) 5 = Some cn ∧
    nonblocking example_kernel (calls P) 5 = true ∧
    safely (server_turn example_kernel minute 3 (PollReady true [])) (λ _ P', process_reachable example_kernel minute 3 P' ∧
      ∃ l, overruns (zheap (sdata (server P'))) = overruns (zheap (sdata (server P))) ++ l ∧
        l `sublist_of` terminators (polled_requests (server P) (PollReady true []))) P.
Proof.
  destruct (run_process example_kernel minute 3 process_run booted) as [P|] eqn:Hrun; [|exfalso; vm_compute in Hrun; discriminate].
  assert (Hcn : is_Some (conn_at (server P) 5)) by (vm_compute in Hrun; injection Hrun as <-; eexists; reflexivity).
  assert (Hf : accept_freshb example_kernel 3 P = true) by (vm_compute in Hrun; injection Hrun as <-; vm_compute; reflexivity).
  destruct Hcn as [cn Hcn]. exists P, cn. split; [reflexivity|]. split; [exact Hcn|].
  destruct (server_process_safe example_kernel minute minute_mono minute_range 3 P) as (_ & _ & Hnb & _ & Hsafe).
  { exact (run_process_reachable example_kernel minute 3 process_run booted P (booted_reachable minute) Hrun). }
  split; [apply (Hnb 5 cn); [lia|exact Hcn]|]. apply Hsafe, accept_freshb_true, Hf.
Defined.

(** C32: the client ends: whatever is typed, whatever the server sends and however
    much the socket takes, main of the client gives up in its set-up, or runs its
    prompt to the end, closes its socket, once, and returns 0. The process is ended
    otherwise only by SIGPIPE, when its peer is gone. Its behaviour is undefined only
    if the server sends, after some frames, a frame that is empty (&rbuf[4] is past
    the end of the vector), or one with a string or an error of which the length
    wraps around the size check, without a terminator after it ([wraps]). *)
Theorem client_program_ends kernel c :
  match client_program kernel (mkClientProcess [] c) with
  | Done (rc, P) => rc = 0 ∧ ∃ fd, 0 <= fd ∧ client_calls P =
      [SysSocket; SysReuseAddr fd; SysBind fd Loopback 0; SysGetSockName fd; SysConnect fd Loopback 8080; SysClose fd]
  | AssertFail => client_setup kernel [] = AssertFail ∨ - EPIPE ∈ accepts (csock c)
  | Undefined => ∃ ps payload post,
      concat (cl_in (cstate c)) = concat (frame <$> ps) ++ frame payload ++ post ∧ (payload = [] ∨ wraps payload)
  | OutOfFuel => False
  end.
Proof.
  pose proof (client_setup_connects kernel) as H. unfold safely in H.
  unfold client_program, on_client_calls, on_client, mbind at 1, M_bind at 1, zoom at 1. cbn [client_calls].
  destruct (client_setup kernel []) as [[fd tr]| | |]; [|by left|done..]. destruct H as [H0 ->].
  change (_ ≫= _) with ((_ ← zoom client (λ c p, mkClientProcess (client_calls p) c) client_main;
    _ ← on_client_calls (sys kernel (SysClose fd)); mret 0) : M ClientProcess Z).
  assert (upto (hostile_stream (stream (cstate c))) (- EPIPE ∈ accepts (csock c)) client_main (λ _ _, True) c) as Hmain
    by by apply repl_upto.
  unfold mbind at 1, M_bind at 1, zoom. cbn [client]. unfold upto in Hmain.
  destruct (client_main c) as [[[] c']| | |]; [|by right|done..]. cbn. split; [done|]. by exists fd.
Qed.
