(* ===== verification/Tests.v ===== *)
(** The tests of the repository (tests/), run on the definitions: what they
    expect of the programs is what the definitions compute. A test that is a
    loop over sizes is run up to a smaller size. *)
From Stdlib Require Import Strings.String.
From S2P Require Import Prelude Bytes Serialize Protocol Common NetIO NetIOProofs Client ClientProofs Repl.
From S2P Require Import Commands Server ServerProofs ServerProps EndToEnd AvlTree Heap.

Open Scope list_scope.

(** * The tests of the commands *)

(** What the client writes to its standard output. *)
Definition stdout (log : list printed) : list printed :=
  List.filter (λ p, match p with PPrompt | PMsg => false | _ => true end) log.
(** The lines of a test; an apostrophe stands for a double quote. *)
Definition typed_text (ls : list string) : bytes :=
  concat ((λ l, ((λ b, if bool_decide (b = Byte.x27) then Byte.x22 else b) <$> str l) ++ [newline]) <$> ls).

(** A client connects as [fd], runs the lines and ends; there is no other client. *)
Definition client_run (clock : nat → Z) (fd : Z) (ls : list string) (s : Server) : option (list printed * Server) :=
  let typed := typed_text ls in
  s ← run_loop clock [Some (mkPollAnswer (Some fd) []);
                      Some (mkPollAnswer None [input (request_frames (commands (lines typed)))])] s;
  cn ← conn_at s fd;
  s ← run_loop clock [Some (mkPollAnswer None [mkConnEvent true true false false RdAgain WrAgain (WrOk (blen (outgoing cn)))]);
                      Some (mkPollAnswer None [input []])] s;
  match client_main (mkClient typed (mkWsocket (replicate 100 65536) []) (mkClientState [outgoing cn] [])) with
  | Done (_, c) => Some (stdout (cl_log (cstate c)), s)
  | _ => None
  end.
(** Clients one after the other; the timers run before each. *)
Fixpoint client_runs (clock : nat → Z) (runs : list (list string)) (s : Server) : option (list (list printed)) :=
  match runs with
  | [] => Some []
  | ls :: runs =>
      s ← run_loop clock [Some (mkPollAnswer None [])] s;
      '(out, s) ← client_run clock 5 ls s;
      outs ← client_runs clock runs s;
      Some (out :: outs)
  end.

Definition num (s : string) : printed := PDbl (str2dbl (str s)).2.
Definition text (s : string) : printed := PStr (str s).

(** tests/test_cmds.py *)
Example test_cmds :
  client_runs slowly
    [["zscore asdf n1"; "zquery xxx 1 asdf 1 10"; "zadd zset 1 n1"; "zadd zset 2 n2"; "zadd zset 1.1 n1";
      "zscore zset n1"; "zquery zset 1 '' 0 10"; "zquery zset 1.1 '' 1 10"; "zquery zset 1.1 '' 2 10";
      "zrem zset adsf"; "zrem zset n1"; "zquery zset 1 '' 0 10"; "exit"]]%string server_start =
  Some [[PNil; PArrLen 0; PArrEnd; PInt 1; PInt 1; PInt 0;
         num "1.1"; PArrLen 4; text "n1"; num "1.1"; text "n2"; num "2"; PArrEnd;
         PArrLen 2; text "n2"; num "2"; PArrEnd; PArrLen 0; PArrEnd;
         PInt 0; PInt 1; PArrLen 2; text "n2"; num "2"; PArrEnd]].
Proof. vm_compute. reflexivity. Qed.

(** tests/test_ttl.py: the clock goes on by 1200 ms before the last client. *)
Definition sleepy (ms : Z) (sleep : nat) (n : nat) : Z := slowly n + (if bool_decide (sleep ≤ n)%nat then ms else 0).
Definition ttl_runs : list (list string) :=
  [["del ttl_demo_key"]; ["set ttl_demo_key v"; "pttl ttl_demo_key"];
   ["pexpire ttl_demo_key 1000"; "pttl ttl_demo_key"]; ["pttl ttl_demo_key"; "get ttl_demo_key"]]%string.
Example test_ttl :
  client_runs (sleepy 1200 48) ttl_runs server_start =
  Some [[PInt 0]; [PNil; PInt (-1)]; [PInt 1; PInt 999]; [PInt (-2); PNil]].
Proof. vm_compute. reflexivity. Qed.

(** tests/test_ttl_expiration.py: one connection, 15 ms between its two pairs of
    requests; its responses in bytes. *)
Definition expiration_run : list (option poll_answer) :=
  [Some (mkPollAnswer (Some 5) []);
   Some (mkPollAnswer None [input (requests_bytes [[str "set"; str "test_key"; str "test_value"]; [str "pexpire"; str "test_key"; str "10"]])]);
   Some (mkPollAnswer None [mkConnEvent false true false false RdAgain WrAgain (WrOk 100)]); Some (mkPollAnswer None []);
   Some (mkPollAnswer None [input (requests_bytes [[str "get"; str "test_key"]; [str "ping"]])])].
Example test_ttl_expiration :
  outgoing <$> (run_loop (sleepy 15 8) expiration_run server_start ≫= λ s, conn_at s 5) =
  Some (frame [Byte.x00] ++ frame (out_value [] (WStr (str "pong")))).
Proof. vm_compute. reflexivity. Qed.

(** * tests/test_avl.cpp and tests/test_offset.cpp

    The [Data] of a value are named by the value, twice the value and one more
    for a second copy. *)
Module AvlTests.
Definition data (v k : nat) : ptr := Pos.of_succ_nat (2 * v + k).
Definition value_of (d : ptr) : nat := Nat.div2 (Nat.pred (Pos.to_nat d)).

(** The search of [add]: the node that the new one is put under. *)
Fixpoint descend (fuel : nat) (v : nat) (cur : ptr) : AVL ptr :=
  n ← load cur;
  match fuel, (if (v <? value_of cur)%nat then left n else right n) with
  | S fuel, Some next => descend fuel v next
  | _, _ => mret cur
  end.
Definition add (root : option ptr) (d : ptr) : AVL (option ptr) :=
  σ ← get_state;
  put_state (<[d := avl_init_node]> σ);;
  match root with
  | None => avl_fix_tree d
  | Some r =>
      cur ← descend (size σ) (value_of d) r;
      modify cur (λ n, if (value_of d <? value_of cur)%nat then set_left (Some d) n else set_right (Some d) n);;
      modify d (set_parent (Some cur));;
      avl_fix_tree d
  end.
Definition del (d : ptr) : AVL (option ptr) := root ← avl_delete d; σ ← get_state; put_state (delete d σ);; mret root.

Fixpoint add_all (root : option ptr) (ds : list ptr) : AVL (option ptr) :=
  match ds with [] => mret root | d :: ds => root ← add root d; add_all root ds end.

(** [avl_verify] and [extract]: the values in order, if the subtree is in order. *)
Fixpoint avl_verify (fuel : nat) (σ : avl_store) (par node : option ptr) : option (list nat) :=
  match fuel, node with
  | _, None => Some []
  | O, _ => None
  | S fuel, Some a =>
      n ← σ !! a;
      l ← avl_verify fuel σ (Some a) (left n);
      r ← avl_verify fuel σ (Some a) (right n);
      let stat (f : AVLNode → Z) (o : option ptr) := match o with Some x => default 0 (f <$> σ !! x) | None => 0 end in
      let '(lh, rh) := (stat height (left n), stat height (right n)) in
      if bool_decide (AvlTree.parent n = par) && (cnt n =? 1 + stat cnt (left n) + stat cnt (right n)) &&
         ((lh =? rh) || (lh + 1 =? rh) || (lh =? rh + 1)) && (height n =? 1 + Z.max lh rh) &&
         forallb (λ v, (v <=? value_of a)%nat) l && forallb (λ v, (value_of a <=? v)%nat) r
      then Some (l ++ value_of a :: r) else None
  end.
Definition verified (m : AVL (option ptr)) : option (list nat) :=
  match m ∅ with Done (root, σ) => avl_verify (S (size σ)) σ None root | _ => None end.

Definition others (sz v : nat) : list nat := List.filter (λ i, negb (i =? v)%nat) (seq 0 sz).
Definition singles (vs : list nat) : list ptr := (λ i, data i 0) <$> vs.

Definition insert_test (sz v : nat) : bool :=
  bool_decide (verified (root ← add_all None (singles (others sz v)); add root (data v 0)) = Some (seq 0 sz)).
Definition insert_dup_test (sz v : nat) : bool :=
  bool_decide (verified (root ← add_all None (singles (seq 0 sz)); add root (data v 1)) =
    Some (seq 0 v ++ v :: seq v (sz - v))).
Definition remove_test (sz v : nat) : bool :=
  bool_decide (verified (_ ← add_all None (singles (seq 0 sz)); del (data v 0)) = Some (others sz v)).

Example test_avl :
  forallb (λ sz, forallb (λ v, insert_test sz v && insert_dup_test sz v && remove_test sz v) (seq 0 sz)) (seq 0 14) = true.
Proof. vm_compute. reflexivity. Qed.

Definition offset_test (sz : nat) : bool :=
  match add_all None (singles (seq 0 sz)) ∅ with
  | Done (_, σ) =>
      let at_ (i : nat) (off : Z) := match avl_offset (Some (data i 0)) off σ with Done (r, _) => r | _ => None end in
      forallb (λ i, forallb (λ j, bool_decide (at_ i (Z.of_nat j - Z.of_nat i) = Some (data j 0))) (seq 0 sz) &&
                    bool_decide (at_ i (- Z.of_nat i - 1) = None) && bool_decide (at_ i (Z.of_nat sz - Z.of_nat i) = None))
        (seq 0 sz)
  | _ => false
  end.
Example test_offset : forallb offset_test (seq 1 20) = true.
Proof. vm_compute. reflexivity. Qed.
End AvlTests.

(** * tests/test_heap.cpp

    An owner is named by the number of its insertion. *)
Module HeapTests.
Definition owner (k : nat) : ptr := Pos.of_succ_nat k.
Definition add (k : nat) (v : Z) : HP () :=
  s ← get_state;
  put_state (mkHeapState (items s) (<[owner k := size_max]> (idx s)));;
  heap_push (mkHeapItem v (owner k));;
  len ← heap_size;
  heap_update (len - 1) len.
Fixpoint add_all (k : nat) (vs : list Z) : HP () :=
  match vs with [] => mret () | v :: vs => add k v;; add_all (S k) vs end.
Definition del (k : nat) : HP () :=
  s ← get_state;
  pos ← deref (idx s !! owner k);
  heap_delete pos;;
  s ← get_state;
  put_state (mkHeapState (items s) (delete (owner k) (idx s))).

(** [verify], and the values that the heap holds. *)
Definition verify (m : HP ()) : option (list Z) :=
  match m (mkHeapState [] ∅) with
  | Done (_, s) =>
      let below (i c : Z) := match items s !! Z.to_nat i, items s !! Z.to_nat c with
                             | Some x, Some y => val x <=? val y | _, _ => true end in
      if forallb (λ i, below i (left_child i) && below i (right_child i) &&
           bool_decide ((items s !! Z.to_nat i) ≫= (λ x, idx s !! ref x) = Some i)) (Z.of_nat <$> seq 0 (length (items s))) &&
         bool_decide (size (idx s) = length (items s))
      then Some (merge_sort Z.le (val <$> items s)) else None
  | _ => None
  end.

Definition add_test (sz j : nat) : bool :=
  let odds := (λ i, 1 + Z.of_nat i * 2) <$> seq 0 sz in
  bool_decide (verify (add_all 0 odds;; add sz (Z.of_nat j)) = Some (merge_sort Z.le (Z.of_nat j :: odds))).
Definition del_test (sz j : nat) : bool :=
  bool_decide (verify (add_all 0 (Z.of_nat <$> seq 0 sz);; del j) =
    Some (Z.of_nat <$> List.filter (λ i, negb (i =? j)%nat) (seq 0 sz))).
Example test_heap :
  forallb (λ sz, forallb (add_test sz) (seq 0 (2 + sz * 2)) && forallb (del_test sz) (seq 0 sz)) (seq 0 12) = true.
Proof. vm_compute. reflexivity. Qed.
End HeapTests.
